(* ===== verification/_CoqProject ===== *)
-Q . S2P
Prelude.v
Util.v
BlockFormat.v
Utf8.v
MemLimiter.v
Backpressure.v
MemCache.v
ExtCaches.v
DiskPool.v
Pool.v
CacheLayers.v
Prefetcher.v
PrefetchBudget.v
FileOps.v
Writeback.v
Inodes.v
Evict.v
ConcDelete.v
Errors.v
ErrorLog.v
Dirty.v
Xattr.v
Csi.v
CsiDriver.v
DirCache.v
Lookup.v
Readdir.v
Namespace.v
Read.v
CoreFs.v
WinFsp.v
Fuser.v
Metrics.v
Mounts.v
Shutdown.v
Host.v
Config.v
Init.v
Session.v
Cli.v
