(* ===== verification/Prelude.v ===== *)
(** * mntrs: a verification library

    mntrs mounts an object store, reached through the opendal crate, as a file
    system (FUSE, and WinFsp on Windows).  Kernel requests arrive at one of two
    adapters, which call the [CoreFilesystem] trait; [MntrsFs]
    (src/src/lib.rs) implements it.  Names are answered from an inode table
    and directory caches, reads from a two-level block cache filled by a
    prefetcher, and writes by updating a local copy (a cache file, or a buffer
    in memory when the cache mode is [off]) that a background worker uploads
    later.  Around it are the commands that mount, list and unmount, and a
    Kubernetes driver.

    ** Files

    Foundations.
    - [Prelude]: 64-bit arithmetic, little-endian words, lists with [Z]
      indices, sums over lists and maps, the tactics [case_test] and
      [bool_props], and invariants of step relations.
    - [Util] (util.rs): [Str], the string functions the code uses; [PathHash],
      the salted FNV hash, cache file names, cache modes and expiry; [Glob],
      the iterative [fnmatch] against a declarative language; [Path], path
      canonicalisation and the chain of parents that [mkdir] creates.
    - [Utf8]: the characters of a [str].
    - [Errors] (util.rs, lib.rs, core_fs): error kinds of the store, of the
      standard library and of the trait, and their errno and NTSTATUS.

    The block cache.
    - [BlockFormat] (block_format.rs): the block file format (header, CRC-32C,
      embedded path, LZ4), its writer, the reader with the older layouts, the
      scan of the cache directory and the removal of block files.  [crc32c] and
      [lz4_flex] are classes with their documented laws; [BlocksWitness] has
      instances.  The file system is a map from names to [file]s.
    - [MemLimiter] (mem_limiter.rs): [Limiter], the operations one at a time;
      [Interleaved], threads that interleave at each atomic access.
    - [Backpressure] (backpressure.rs): the adaptive window, over IEEE
      binary64 arithmetic.
    - [MemCache] (cache.rs): the [MemCache] trait as a class with its laws, and
      [DashMapCache], the default implementation.  [ExtCaches]: the
      implementations over moka and foyer, whose maps are a class.
    - [DiskPool] (disk_write_pool.rs): [FileIO], the file writes with their
      faults and retry; [BlockJobs], block writes guarded by path generations;
      [Fsync], the periodic sync.  [Pool]: its worker threads and bounded
      channel as a step relation over those jobs; [Globals], the cells that the
      mounts of a process share (also io/sync.rs).
    - [CacheLayers] (cache_layer.rs, multi_level_cache.rs): the disk layer,
      whose block writes may fail or stop short, and the two levels, proved
      against the [MemCache] class; [Coherence] relates them to the content of
      the store.
    - [Prefetcher] (prefetcher.rs): [Queue], the part queue; [Download], the
      download loop with retries and its window.  [PrefetchBudget]: its thread,
      its readers and its owner on the memory limiter, interleaved.

    Writing.
    - [FileOps] (lib.rs, [write]): the off-mode splice, the descriptor write,
      sizes and upload delays.
    - [Writeback] (writeback.rs, and [open], [write], [flush], [release],
      [forget], [unlink] of lib.rs): [Sidecar], recovery after a crash;
      [Worker], the state shared by handlers and worker and every step on it;
      [OffMode], the interleavings of off mode with the invariant of accepted
      bytes; [Traces], the same steps as sequences of operations.
    - [Evict] (lib.rs, [evict_if_needed]): the target, the age sweep and the
      drain in order of last access, and its composition with [Worker].
    - [ConcDelete] (concurrent_delete.rs, and the strict delete of lib.rs): the
      pump tasks, their queue, cancellation and the flush barrier as a step
      relation.

    The file system ([MntrsFs] of lib.rs).
    - [Inodes]: the inode table, its reverse map and lookup counts.
    - [DirCache]: [stat_op] with its single-flight protocol, [list_op], the
      surgical updates.  [Lookup]: [lookup], its batched form, [getattr],
      [setattr], symbolic links.  [Readdir]: directory streams and paging.
    - [Namespace]: [create], [mkdir], [unlink], [rmdir], [rename], [statfs].
    - [Xattr] (also xattr_bridge.rs, xattr_bridge_ea.rs): extended attributes
      and the EA buffers of Windows.
    - [Read]: [open] and [read] over the cache levels, the prefetched parts and
      the store, with descriptors that outlive the names of their files.
      [Session]: the whole of [write] and [fsync] on the same state,
      and runs of reads and writes of one file.
    - [Init]: the start of a mount, recovery, and the refresh worker.

    The adapters (core_fs).
    - [CoreFs] (core_fs/mod.rs): the trait as a class, its default methods.
    - [Fuser] (core_fs/fuser.rs), [WinFsp] (core_fs/winfsp.rs): the callbacks;
      [WinFsp.Adapter.DirTree] is what a deletion relies on.

    Commands.
    - [Config] (main.rs, cmd/mount.rs, cmd/install.rs): options, operators,
      settings, daemon mode.  [Mounts] (cmd/mount.rs, cmd/unmount.rs,
      cmd/list.rs): the registry, detection, mounting and unmounting.
    - [Cli] (main.rs, cmd/mount.rs): the flags with their defaults, the call of
      [mount], its refusals, the fields it fills and the parameters the other
      files take from them; it closes the session theorem under the default flags.
    - [Shutdown] (cmd/mount.rs): signal handler, watcher threads, main threads
      and the handler at exit as a step relation over their shared flags.
    - [Host] (util.rs, path.rs, and parts of lib.rs, writeback.rs and
      cmd/mount.rs): [Env], directories and the memory limit of the cgroup;
      [Paths], separators and Windows targets; [Removal], [batch_remove_path];
      [Permits], the upload permits of a process; [Streams], the standard
      streams of a daemon.
    - [ErrorLog] (error_log.rs), [Dirty] (cmd/dirty.rs), [Metrics] (metrics.rs).
    - [Csi] (csi/mntrs-csi/src/main.rs): the volume identifiers and handlers of
      the Kubernetes driver.  [CsiDriver]: its three services as one
      dispatcher, sequences of requests, and publishes that interleave.

    ** What the theorems show

    Refinement: a session of reads and writes through a handle is a POSIX file
    ([Session.session_refines]); each in-memory cache is a cache that forgets,
    and nothing worse ([mem_cache_refines], [other_caches_refine]); the
    registry is a map from mount points ([registry_refines]); a pool write is
    [pwrite]; the first of these holds for the settings the default flags give
    ([default_mounts_posix]).  Data integrity: a block written is the block read, a file of a
    colliding path is never served; a cache hit is the current content while
    changes are announced and torn block writes are noticed
    ([multi_level_never_stale]); [read] returns the bytes of the file
    ([Read.read_correct]) and a reader sees a write that returned
    ([reader_sees_write]).  Durability: bytes accepted by [flush] or [release]
    in off mode stay on the store, in a task or in the buffer a task compares
    with ([off_mode_durable]); a new mount recovers every sidecar; [rename]
    never deletes an object it did not copy.  Names: what [create], [unlink],
    [rename] and the surgical updates do is what [lookup] and listings then
    answer; directory paging and the scans of the adapters return each entry
    once.  Deletion: every accepted job gets one reply, and the flush barrier
    waits for those before it.  Resources: the memory budget is exact under
    interleaving, the queue and the cache account for every byte, a prefetcher
    gives its reservations back ([budget_returned]), eviction reaches its target
    with the least recently used entries, and a process runs at most four
    uploads ([uploads_bounded]).  Concurrency: whatever the worker threads do,
    the files are those of the jobs run one after the other
    ([pool_sequential]).  Windows: a cleanup with the delete flag takes one entry
    of the directory tree, or none ([cleanup_spec]).  Kubernetes: when the
    commands succeed a volume goes from creation to deletion and leaves nothing
    mounted ([volume_lifecycle]), and node calls that succeeded can be repeated
    ([node_calls_idempotent]).  Errors: what
    [read], [write] and [rename] answer and leave behind in each failure.
    Liveness and termination: reading a file block by block reaches its end, a
    cancelled download ends ([cancelled_thread_ends]), the disk pool drains
    ([pool_drains]), a signal ends a mount ([signal_ends_mount]); the download
    loop, glob matching, the mkdir chain, the retried flush and the sync of
    dirty files stop.  Round trips: block files, sidecars, EA and
    reparse buffers, file times, JSON strings, volume identifiers.

    Some theorems describe runs in which the program loses, duplicates or
    misreports data.  In the upload path: [completion_race_loses_write],
    [split_buffer_reverts], [disk_mode_loses_update],
    [eviction_loses_flushed_write], [forget_reorders_uploads],
    [unlink_resurrects_object], [vanished_path_blocked],
    [off_mode_reseed_duplicates], [direct_writes_keep_last_chunk].  In names:
    [rename_loses_pending_write], [rename_onto_unlinked_loses_data],
    [rename_onto_tombstone_hidden], [refused_unlink_discards_writes],
    [cold_add_hides_entries], [object_beside_prefix],
    [marker_paging_loses_entry], [listed_inode_wrong_path].  In deletion:
    [flush_returns_early], [flush_wakeup_lost], [strict_delete_hides_failure],
    [cancelled_key_deleted], [failed_key_answered_ok].  In caches:
    [stale_block_after_restart], [clear_keeps_generation], [v3_torn_header],
    [torn_block_served], [short_tail_panics], [prefetched_part_is_stale],
    [slow_read_released_twice], [skipped_part_stays_reserved],
    [foyer_len_counts_bytes], [foyer_never_counts_evictions].  Elsewhere:
    [upload_time_lost], [unpublish_deletes_objects], [unstage_discards_dirty],
    [third_entry_lost], [fallocate_cuts], [pool_reorders_one_file],
    [mounts_share_first], [signal_unheard_after_other_mount],
    [signal_lost_between_stores], [cleanup_first_mount_only],
    [delete_in_lost_directory], [concurrent_publishes_two_targets],
    [cgroup_v1_hides_v2], [one_mount_stops_another].

    They delimit the positive theorems.  [off_mode_durable] assumes one handle
    per path and neither [forget] nor [unlink], and speaks of bytes whose write
    did not fall between the worker's comparison and its removal of the buffer
    and after which the path was not opened without its content.
    [session_refines] and [reader_sees_write] assume that direct I/O is off,
    that the local disk does not fail and, with a buffer file, writes that reach
    its end; the second also that no limit evicts.  [create_then_lookup],
    [unlink_then_lookup] and [rename_moves] assume that there are no symbolic
    links, and the last two that [stat] answers from the store.
    [multi_level_never_stale] starts from an empty cache directory.
    [signal_ends_mount] assumes that the helper unmounts and that the watcher
    has not left before the signal is complete.  [volume_lifecycle] assumes that
    every command succeeds.  [budget_returned] assumes that the wait of [Drop]
    does not run out during a range read.

    ** Conventions

    A [u64] is a [Z] with wrap-around written out where it can occur; times are
    nanoseconds.  The outcomes of system calls, of the backend and of the clock
    are arguments of the operation that meets them.  A [DashMap] is a [gmap]
    and each call on it atomic.  Loops that are not structural run on fuel
    computed from their input, and a theorem shows that it suffices: for the
    glob matcher and the mkdir chain the lengths of their arguments, for the
    download loop the range left and the retry limit, for directory streams
    and the scans of both adapters the number of entries, for the EA and
    volume-identifier parsers the number of bytes.

    ** What is not modelled

    [access], a constant reply; the construction of the HTTP client
    (http_client.rs) and of opendal's operators and layers beyond the options
    they are given, which is third-party code with constants; the macro of
    fuse_error.rs, which nothing uses; the parsing of the command line by clap,
    log set-up, notifications to the kernel and log text; the scheduling of the
    tokio runtime, of threads, channels and locks, beyond the order of the
    steps they allow; the creation of the WinFsp host; the floating-point
    ratios of the statistics lines. *)

From Stdlib Require Import ZArith Lia Strings.Byte Strings.String Strings.Ascii.
From stdpp Require Export prelude gmap strings list fin_maps sets.

#[global] Open Scope Z_scope.
#[export] Set Warnings "-clear-no-such-hyp".
Ltac Zify.zify_post_hook ::= Z.to_euclidean_division_equations.

(** ** Machine integers

    A [u64] (and [usize]: the program targets 64-bit hosts) is a [Z] in
    [0, 2^64).  The crate has no overflow-checks profile: in a release build
    [+], [-] and [*] wrap. *)
Definition U64_MAX : Z := 2 ^ 64 - 1.
Definition I64_MAX : Z := 2 ^ 63 - 1.
Definition wrap64 (x : Z) : Z := x mod 2 ^ 64.
(** [as i64] on a u64 value. *)
Definition as_i64 (x : Z) : Z :=
  if x mod 2 ^ 64 <=? I64_MAX then x mod 2 ^ 64 else x mod 2 ^ 64 - 2 ^ 64.
(** The value of an [i64] after a wrapping operation. *)
Definition wrap_i64 (x : Z) : Z := as_i64 x.
Definition saturating_add (a b : Z) : Z := Z.min (a + b) U64_MAX.
Definition saturating_sub (a b : Z) : Z := Z.max (a - b) 0.
Definition saturating_mul (a b : Z) : Z := Z.min (a * b) U64_MAX.
Definition checked_add (a b : Z) : option Z :=
  if a + b <=? U64_MAX then Some (a + b) else None.
Definition is_u64 (x : Z) : Prop := 0 <= x <= U64_MAX.
(** [Ord::clamp]: panics ([None]) when [lo > hi]. *)
Definition clamp (x lo hi : Z) : option Z :=
  if lo <=? hi then Some (Z.max lo (Z.min x hi)) else None.

Declare Scope rust_scope.
Delimit Scope rust_scope with rust.
Notation "a +w b" := (wrap64 (a + b)) (at level 50, left associativity) : rust_scope.
Notation "a -w b" := (wrap64 (a - b)) (at level 50, left associativity) : rust_scope.
Notation "a *w b" := (wrap64 (a * b)) (at level 40, left associativity) : rust_scope.
Notation "a +s b" := (saturating_add a b) (at level 50, left associativity) : rust_scope.
Notation "a -s b" := (saturating_sub a b) (at level 50, left associativity) : rust_scope.

(** ** Bytes and little-endian words *)
Abbreviation bytes := (list Byte.byte).

#[export] Instance byte_eq_dec : EqDecision Byte.byte := Byte.byte_eq_dec.

Definition byte_of_Z (z : Z) : Byte.byte :=
  match Byte.of_N (Z.to_N (z mod 256)) with Some b => b | None => Byte.x00 end.
Definition Z_of_byte (b : Byte.byte) : Z := Z.of_N (Byte.to_N b).

(** [to_le_bytes] / [from_le_bytes] of an [n]-byte unsigned integer. *)
Fixpoint to_le (n : nat) (z : Z) : bytes :=
  match n with
  | O => []
  | S n' => byte_of_Z z :: to_le n' (z / 256)
  end.
Fixpoint from_le (l : bytes) : Z :=
  match l with
  | [] => 0
  | b :: l' => Z_of_byte b + 256 * from_le l'
  end.

Definition lenZ {A} (l : list A) : Z := Z.of_nat (length l).
(** [&l[..n]] and [&l[n..]] at offsets that the code has checked. *)
Definition takeZ {A} (n : Z) (l : list A) : list A := take (Z.to_nat n) l.
Definition dropZ {A} (n : Z) (l : list A) : list A := drop (Z.to_nat n) l.
(** [str::as_bytes]; a path is a [string] whose characters are UTF-8 bytes. *)
Definition as_bytes (s : string) : bytes := String.list_byte_of_string s.

Fixpoint sumZ (l : list Z) : Z :=
  match l with [] => 0 | x :: l' => x + sumZ l' end.

(** ** Results *)
Inductive result (A E : Type) : Type :=
| Ok (a : A)
| Err (e : E).
Arguments Ok {A E} a.
Arguments Err {A E} e.

(** ** Automation *)
Create HintDb mntrs.
Create Rewrite HintDb mntrs.

(** Destruct an [if] on a boolean of the goal or of a hypothesis, keeping the
    fact the test gives. *)
Ltac case_test :=
  match goal with
  | |- context [if ?b then _ else _] =>
      match type of b with bool => let H := fresh "Hc" in destruct b eqn:H end
  | H0 : context [if ?b then _ else _] |- _ =>
      match type of b with bool => let H := fresh "Hc" in destruct b eqn:H end
  end.

Ltac case_test_in H0 :=
  match type of H0 with
  | context [if ?b then _ else _] =>
      match type of b with bool => let H := fresh "Hc" in destruct b eqn:H end
  end.

(** Turn boolean comparisons into propositions. *)
Ltac bool_props :=
  repeat match goal with
  | H : (_ && _)%bool = true |- _ => apply andb_true_iff in H as [? ?]
  | H : (_ || _)%bool = false |- _ => apply orb_false_iff in H as [? ?]
  | H : negb _ = true |- _ => apply negb_true_iff in H
  | H : negb _ = false |- _ => apply negb_false_iff in H
  | H : (_ <=? _)%Z = true |- _ => apply Z.leb_le in H
  | H : (_ <=? _)%Z = false |- _ => apply Z.leb_gt in H
  | H : (_ <? _)%Z = true |- _ => apply Z.ltb_lt in H
  | H : (_ <? _)%Z = false |- _ => apply Z.ltb_ge in H
  | H : (_ =? _)%Z = true |- _ => apply Z.eqb_eq in H
  | H : (_ =? _)%Z = false |- _ => apply Z.eqb_neq in H
  | H : bool_decide _ = true |- _ => apply bool_decide_eq_true in H
  | H : bool_decide _ = false |- _ => apply bool_decide_eq_false in H
  end.

Tactic Notation "case_if" hyp(H0) "as" ident(n) :=
  match type of H0 with
  | context [if ?b then _ else _] => match type of b with bool => destruct b eqn:n end
  end; bool_props.

(** ** Lemmas: machine integers *)
Lemma wrap64_small x : is_u64 x -> wrap64 x = x.
Proof. unfold is_u64, U64_MAX, wrap64. intros. apply Z.mod_small. lia. Qed.

Lemma wrap64_range x : is_u64 (wrap64 x).
Proof. unfold is_u64, U64_MAX, wrap64. pose proof (Z.mod_pos_bound x (2 ^ 64)). lia. Qed.

Lemma wrap64_sub_l a b : wrap64 (wrap64 a - b) = wrap64 (a - b).
Proof. unfold wrap64. apply Zminus_mod_idemp_l. Qed.

Lemma wrap64_sub_r a b : wrap64 (a - wrap64 b) = wrap64 (a - b).
Proof. unfold wrap64. apply Zminus_mod_idemp_r. Qed.

Lemma wrap64_add_l a b : wrap64 (wrap64 a + b) = wrap64 (a + b).
Proof. unfold wrap64. apply Zplus_mod_idemp_l. Qed.

Lemma wrap64_add_r a b : wrap64 (a + wrap64 b) = wrap64 (a + b).
Proof. unfold wrap64. apply Zplus_mod_idemp_r. Qed.

Lemma saturating_add_range a b : 0 <= a -> 0 <= b -> is_u64 (saturating_add a b).
Proof. unfold is_u64, saturating_add, U64_MAX. lia. Qed.

Lemma saturating_sub_range a b : is_u64 a -> 0 <= b -> is_u64 (saturating_sub a b).
Proof. unfold is_u64, saturating_sub, U64_MAX. lia. Qed.

Lemma checked_add_Some a b c : checked_add a b = Some c <-> c = a + b /\ a + b <= U64_MAX.
Proof. unfold checked_add. split; case_test; bool_props; intros ?; destruct_and?; simplify_eq; try split; auto; lia. Qed.

Lemma clamp_range x lo hi y : clamp x lo hi = Some y -> lo <= y <= hi.
Proof. unfold clamp. case_test; bool_props; naive_solver lia. Qed.

Lemma clamp_panics x lo hi : clamp x lo hi = None <-> hi < lo.
Proof. unfold clamp. case_test; bool_props; naive_solver lia. Qed.

(** ** Lemmas: bytes *)
Lemma Z_of_byte_range b : 0 <= Z_of_byte b < 256.
Proof.
  unfold Z_of_byte. pose proof (Byte.to_N_bounded b). lia.
Qed.

Lemma Z_of_byte_of_Z z : Z_of_byte (byte_of_Z z) = z mod 256.
Proof.
  unfold Z_of_byte, byte_of_Z. pose proof (Z.mod_pos_bound z 256).
  pose proof (Byte.to_of_N_option_map (Z.to_N (z mod 256))) as E.
  destruct (N.leb_spec (Z.to_N (z mod 256)) 255); [|lia].
  destruct (Byte.of_N _); simpl in E; [|done]. simplify_eq. lia.
Qed.

Lemma byte_of_Z_of_byte b : byte_of_Z (Z_of_byte b) = b.
Proof.
  unfold byte_of_Z. rewrite Z.mod_small by apply Z_of_byte_range.
  unfold Z_of_byte. by rewrite N2Z.id, Byte.of_to_N.
Qed.

Lemma length_to_le n z : length (to_le n z) = n.
Proof. revert z. induction n; intros; simpl; auto. Qed.

Lemma from_to_le n z : from_le (to_le n z) = z mod 256 ^ Z.of_nat n.
Proof.
  revert z. induction n as [|n IH]; intros z.
  - simpl. by rewrite Z.mod_1_r.
  - cbn [to_le from_le]. rewrite Z_of_byte_of_Z, IH.
    rewrite Nat2Z.inj_succ, Z.pow_succ_r by lia.
    rewrite Z.rem_mul_r by lia. lia.
Qed.

Lemma from_le_range l : 0 <= from_le l < 256 ^ Z.of_nat (length l).
Proof.
  induction l as [|b l IH]; [simpl; lia|].
  cbn [from_le length]. rewrite Nat2Z.inj_succ, Z.pow_succ_r by lia.
  pose proof (Z_of_byte_range b). lia.
Qed.

Lemma to_from_le l : to_le (length l) (from_le l) = l.
Proof.
  induction l as [|b l IH]; [done|].
  cbn [from_le length to_le]. pose proof (Z_of_byte_range b).
  f_equal.
  - rewrite <-(byte_of_Z_of_byte b) at 2. unfold byte_of_Z.
    replace ((Z_of_byte b + 256 * from_le l) mod 256) with (Z_of_byte b mod 256) by lia.
    done.
  - replace ((Z_of_byte b + 256 * from_le l) / 256) with (from_le l) by lia. done.
Qed.

Lemma as_bytes_inj s t : as_bytes s = as_bytes t -> s = t.
Proof.
  unfold as_bytes. intros E.
  by rewrite <-(String.string_of_list_byte_of_string s), E,
    String.string_of_list_byte_of_string.
Qed.

(** ** Lemmas: lists *)
Lemma lenZ_app {A} (l k : list A) : lenZ (l ++ k) = lenZ l + lenZ k.
Proof. unfold lenZ. rewrite length_app. lia. Qed.

Lemma lenZ_nonneg {A} (l : list A) : 0 <= lenZ l.
Proof. unfold lenZ. lia. Qed.

Lemma lenZ_takeZ {A} n (l : list A) : 0 <= n -> lenZ (takeZ n l) = Z.min n (lenZ l).
Proof. unfold lenZ, takeZ. rewrite length_take. lia. Qed.

Lemma lenZ_dropZ {A} n (l : list A) : 0 <= n -> lenZ (dropZ n l) = Z.max 0 (lenZ l - n).
Proof. unfold lenZ, dropZ. rewrite length_drop. lia. Qed.

Lemma lenZ_0_nil {A} (l : list A) : lenZ l = 0 -> l = [].
Proof. destruct l; unfold lenZ; cbn; [done|lia]. Qed.

Lemma lenZ_to_le n z : lenZ (to_le n z) = Z.of_nat n.
Proof. unfold lenZ. by rewrite length_to_le. Qed.

Lemma from_to_le_small n z : 0 <= z < 256 ^ Z.of_nat n -> from_le (to_le n z) = z.
Proof. intros H. rewrite from_to_le. by apply Z.mod_small. Qed.

Lemma dropZ_dropZ {A} a b (l : list A) : 0 <= a -> 0 <= b -> dropZ b (dropZ a l) = dropZ (a + b) l.
Proof. intros. unfold dropZ. rewrite drop_drop. f_equal. lia. Qed.

Lemma takeZ_app_exact {A} n (l k : list A) : n = lenZ l -> takeZ n (l ++ k) = l.
Proof. intros ->. unfold takeZ, lenZ. rewrite Nat2Z.id. apply take_app_length. Qed.

Lemma dropZ_app_exact {A} n (l k : list A) : n = lenZ l -> dropZ n (l ++ k) = k.
Proof. intros ->. unfold dropZ, lenZ. rewrite Nat2Z.id. apply drop_app_length. Qed.

Lemma takeZ_dropZ {A} n (l : list A) : takeZ n l ++ dropZ n l = l.
Proof. apply take_drop. Qed.

(** A property of every [d] below a literal bound is checked case by case. *)
Lemma small_cases (P : Z -> Prop) n d : 0 <= d < n -> Forall P (seqZ 0 n) -> P d.
Proof. intros Hd HP. eapply Forall_forall; [exact HP|]. apply elem_of_seqZ. lia. Qed.

Lemma sumZ_app l k : sumZ (l ++ k) = sumZ l + sumZ k.
Proof. induction l; simpl; lia. Qed.

Lemma sumZ_nonneg l : Forall (fun x => 0 <= x) l -> 0 <= sumZ l.
Proof. induction 1; simpl; lia. Qed.

#[export] Instance sumZ_Permutation_proper : Proper (Permutation ==> eq) sumZ.
Proof. induction 1; simpl; lia. Qed.

(** The sum of a measure over a list, when one element changes. *)
Lemma sumZ_fmap_insert {A} (f : A -> Z) (l : list A) i x y :
  l !! i = Some x -> sumZ (f <$> <[i := y]> l) = sumZ (f <$> l) - f x + f y.
Proof.
  revert i. induction l as [|a l IH]; intros [|i] H; simplify_eq/=; [lia|]. rewrite IH by done. lia.
Qed.

Lemma sumZ_fmap_elem {A} (f : A -> Z) (l : list A) i x :
  Forall (fun y => 0 <= f y) l -> l !! i = Some x -> f x <= sumZ (f <$> l).
Proof.
  intros HF. revert i. induction HF as [|a l Ha HF IH]; intros [|i] H; simplify_eq/=.
  - assert (0 <= sumZ (f <$> l)) by (apply sumZ_nonneg; by apply Forall_fmap). lia.
  - apply IH in H. lia.
Qed.

Lemma sumZ_fmap_le {A} (f : A -> Z) (l : list A) b :
  Forall (fun y => f y <= b) l -> sumZ (f <$> l) <= b * lenZ l.
Proof. unfold lenZ. induction 1; cbn [fmap list_fmap sumZ length]; lia. Qed.

Lemma sumZ_fmap_nonneg {A} (f : A -> Z) (l : list A) :
  Forall (fun y => 0 <= f y) l -> 0 <= sumZ (f <$> l).
Proof. intros HF. apply sumZ_nonneg. by apply Forall_fmap. Qed.

(** ** Lemmas: maps *)

(** The sum of a measure over the values of a map. *)
Definition msum `{Countable K} {A} (f : A -> Z) (m : gmap K A) : Z :=
  sumZ ((fun kv => f (snd kv)) <$> map_to_list m).

Lemma msum_empty `{Countable K} {A} (f : A -> Z) : msum f (∅ : gmap K A) = 0.
Proof. unfold msum. by rewrite map_to_list_empty. Qed.

Lemma msum_insert_new `{Countable K} {A} (f : A -> Z) (m : gmap K A) k v :
  m !! k = None -> msum f (<[k := v]> m) = f v + msum f m.
Proof. intros Hk. unfold msum. by rewrite map_to_list_insert. Qed.

Lemma msum_delete `{Countable K} {A} (f : A -> Z) (m : gmap K A) k v :
  m !! k = Some v -> msum f (delete k m) = msum f m - f v.
Proof.
  intros Hk. rewrite <-(insert_delete_id m k v Hk) at 2.
  rewrite msum_insert_new by apply lookup_delete_eq. lia.
Qed.

Lemma msum_delete_opt `{Countable K} {A} (f : A -> Z) (m : gmap K A) k :
  msum f (delete k m) = msum f m - from_option f 0 (m !! k).
Proof.
  destruct (m !! k) as [v|] eqn:Hk; cbn; [by apply msum_delete|].
  rewrite delete_id by done. lia.
Qed.

Lemma msum_nonneg `{Countable K} {A} (f : A -> Z) (m : gmap K A) :
  (forall v, 0 <= f v) -> 0 <= msum f m.
Proof. intros Hf. apply sumZ_fmap_nonneg. apply Forall_true. auto. Qed.

Lemma lookup_foldl_delete `{Countable K} {A} (m : gmap K A) ks k :
  foldl (fun m k => delete k m) m ks !! k = if bool_decide (k ∈ ks) then None else m !! k.
Proof.
  revert m. induction ks as [|k0 ks IH]; intros m; cbn [foldl]; [done|]. rewrite IH.
  destruct (decide (k = k0)) as [->|Hne].
  - rewrite lookup_delete_eq, (bool_decide_true (_ ∈ _ :: _)) by (by left). by case_test.
  - rewrite lookup_delete_ne by done. destruct (decide (k ∈ ks)) as [Hk|Hk].
    + by rewrite !bool_decide_true by (by try right).
    + rewrite !bool_decide_false; [done| |done]. by intros [|]%elem_of_cons.
Qed.

(** ** Lemmas: reachability *)
Lemma rtc_invariant {S : Type} (step : S -> S -> Prop) (Inv : S -> Prop) s0 s :
  Inv s0 -> (forall s1 s2, Inv s1 -> step s1 s2 -> Inv s2) -> rtc step s0 s -> Inv s.
Proof. intros H0 Hs Hr. revert H0. induction Hr; eauto. Qed.

#[export] Hint Resolve wrap64_range saturating_add_range saturating_sub_range
  Z_of_byte_range lenZ_nonneg : mntrs.
#[export] Hint Rewrite @lenZ_app @length_to_le wrap64_sub_l wrap64_sub_r
  wrap64_add_l wrap64_add_r : mntrs.
