(* ===== verification/Util.v ===== *)
(** * Util: src/src/util.rs

    The pure helpers every other component uses: string primitives of the
    Rust standard library, [CacheMode], [path_hash], the glob matcher
    [fnmatch], path canonicalisation, [build_mkdir_chain], and the names of the
    files of the cache directory. *)

From Stdlib Require Import ZArith Lia Strings.Byte Strings.String Strings.Ascii.
From S2P Require Import Prelude.

(** ** String primitives of the Rust standard library *)
Module Str.

Definition chr (n : nat) : ascii := ascii_of_nat n.
Definition SLASH : ascii := "/"%char.

(** [str::split(c)]. *)
Fixpoint split (c : ascii) (s : string) : list string :=
  match s with
  | EmptyString => [EmptyString]
  | String a s' =>
      if ascii_dec a c then EmptyString :: split c s'
      else match split c s' with
           | x :: xs => String a x :: xs
           | [] => [String a EmptyString]
           end
  end.

(** [str::trim_end_matches(c)]. *)
Fixpoint trim_end (c : ascii) (s : string) : string :=
  match s with
  | EmptyString => EmptyString
  | String a s' =>
      match trim_end c s' with
      | EmptyString => if ascii_dec a c then EmptyString else String a EmptyString
      | t => String a t
      end
  end.

(** [str::rfind(c)]. *)
Fixpoint rfind (c : ascii) (s : string) : option nat :=
  match s with
  | EmptyString => None
  | String a s' =>
      match rfind c s' with
      | Some n => Some (S n)
      | None => if ascii_dec a c then Some O else None
      end
  end.

(** [String::truncate]. *)
Fixpoint truncate (n : nat) (s : string) : string :=
  match n, s with
  | S n', String a s' => String a (truncate n' s')
  | _, _ => EmptyString
  end.

(** [str::strip_suffix]. *)
Fixpoint strip_suffix (suf s : string) : option string :=
  if String.eqb s suf then Some EmptyString
  else match s with
       | EmptyString => None
       | String a s' => String a <$> strip_suffix suf s'
       end.

(** [str::strip_prefix]. *)
Fixpoint strip_prefix (pre s : string) : option string :=
  match pre, s with
  | EmptyString, _ => Some s
  | String a pre', String b s' => if ascii_dec a b then strip_prefix pre' s' else None
  | _, _ => None
  end.

(** [str::replace(c, d)] for one-character patterns. *)
Fixpoint replace_char (c d : ascii) (s : string) : string :=
  match s with
  | EmptyString => EmptyString
  | String a s' => String (if ascii_dec a c then d else a) (replace_char c d s')
  end.

Fixpoint contains_char (c : ascii) (s : string) : bool :=
  match s with
  | EmptyString => false
  | String a s' => bool_decide (a = c) || contains_char c s'
  end.

(** [char::to_digit(radix)] for radix 10 and 16. *)
Definition digit_val (radix : Z) (a : ascii) : option Z :=
  let n := Z.of_nat (nat_of_ascii a) in
  let v := if (48 <=? n) && (n <=? 57) then Some (n - 48)
           else if (97 <=? n) && (n <=? 102) then Some (n - 87)
           else if (65 <=? n) && (n <=? 70) then Some (n - 55)
           else None in
  match v with
  | Some d => if d <? radix then Some d else None
  | None => None
  end.

(** [u64::from_str_radix]: the loop with its overflow checks. *)
Fixpoint parse_loop (radix acc : Z) (s : string) : option Z :=
  match s with
  | EmptyString => Some acc
  | String a s' =>
      match digit_val radix a with
      | None => None
      | Some d =>
          if acc * radix + d <=? U64_MAX then parse_loop radix (acc * radix + d) s' else None
      end
  end.
Definition from_str_radix (radix : Z) (s : string) : option Z :=
  match s with
  | EmptyString => None
  | String a s' =>
      if ascii_dec a "+"%char
      then match s' with EmptyString => None | _ => parse_loop radix 0 s' end
      else parse_loop radix 0 s
  end.

(** [format!("{:0wx}", z)]. *)
Definition hex_digit (d : Z) : ascii :=
  if d <? 10 then chr (Z.to_nat (48 + d)) else chr (Z.to_nat (87 + d)).
Fixpoint hex_go (fuel : nat) (z : Z) (acc : string) : string :=
  match fuel with
  | O => acc
  | S f =>
      let acc' := String (hex_digit (z mod 16)) acc in
      if z <? 16 then acc' else hex_go f (z / 16) acc'
  end.
Fixpoint zeros (n : nat) : string :=
  match n with O => EmptyString | S n' => String "0"%char (zeros n') end.
Definition fmt_hex (w : nat) (z : Z) : string :=
  let digits := hex_go 16 z EmptyString in
  zeros (w - String.length digits) +:+ digits.

(** The value of a digit string, without the overflow checks. *)
Fixpoint horner (radix acc : Z) (s : string) : option Z :=
  match s with
  | EmptyString => Some acc
  | String a s' =>
      match digit_val radix a with
      | None => None
      | Some d => horner radix (acc * radix + d) s'
      end
  end.

(** A string none of whose characters is [c]. *)
Definition free_of (c : ascii) (s : string) : Prop := contains_char c s = false.

Lemma free_of_cons c a s : free_of c (String a s) <-> a <> c /\ free_of c s.
Proof.
  unfold free_of. simpl. rewrite orb_false_iff, bool_decide_eq_false. tauto.
Qed.

Lemma append_cons a s t : String a s +:+ t = String a (s +:+ t).
Proof. done. Qed.

Lemma append_nil_l s : EmptyString +:+ s = s.
Proof. done. Qed.

Lemma free_of_app c s t : free_of c s -> free_of c t -> free_of c (s +:+ t).
Proof.
  induction s as [|a s IH]; [done|]. rewrite append_cons, !free_of_cons. intros [? ?] ?. split; auto.
Qed.

Lemma append_nil_r s : s +:+ EmptyString = s.
Proof. induction s; rewrite ?append_cons, ?append_nil_l; simpl; congruence. Qed.

Lemma append_assoc s t u : (s +:+ t) +:+ u = s +:+ (t +:+ u).
Proof. induction s; rewrite ?append_cons, ?append_nil_l; simpl; congruence. Qed.

Lemma length_append s t : String.length (s +:+ t) = (String.length s + String.length t)%nat.
Proof. induction s; rewrite ?append_cons, ?append_nil_l; simpl; congruence. Qed.

Lemma split_free c s : free_of c s -> split c s = [s].
Proof.
  induction s as [|a s IH]; [done|]. rewrite free_of_cons. intros [Ha Hs]. simpl.
  destruct (ascii_dec a c); [done|]. by rewrite IH.
Qed.

Lemma split_app c s t : free_of c s -> split c (s +:+ String c t) = s :: split c t.
Proof.
  induction s as [|a s IH]; rewrite ?append_cons, ?append_nil_l; simpl.
  - intros _. by destruct (ascii_dec c c).
  - rewrite free_of_cons. intros [Ha Hs]. destruct (ascii_dec a c); [done|].
    by rewrite IH.
Qed.

Lemma split_pieces_free c s : Forall (free_of c) (split c s).
Proof.
  induction s as [|a s IH]; simpl; [by repeat constructor|].
  destruct (ascii_dec a c); [by constructor|].
  destruct (split c s) as [|x xs]; inversion IH; subst;
    repeat constructor; auto; by apply free_of_cons.
Qed.

Lemma strip_suffix_app suf s : strip_suffix suf (s +:+ suf) = Some s.
Proof.
  induction s as [|a s IH]; rewrite ?append_cons, ?append_nil_l; cbn -[String.eqb].
  - destruct suf; simpl; by rewrite ?Ascii.eqb_refl, ?String.eqb_refl.
  - destruct (String.eqb_spec (String a (s +:+ suf)) suf) as [E|_].
    + apply (f_equal String.length) in E. simpl in E. rewrite length_append in E. lia.
    + by rewrite IH.
Qed.

Lemma strip_suffix_Some suf s t : strip_suffix suf s = Some t -> s = t +:+ suf.
Proof.
  revert t. induction s as [|a s IH]; intros t; cbn -[String.eqb];
    destruct (String.eqb _ suf) eqn:E; intros H; try (apply String.eqb_eq in E);
    simplify_eq; try done.
  apply fmap_Some in H as (u & Hu & ->). rewrite append_cons. f_equal. by apply IH.
Qed.

Lemma horner_ge radix a s v : 1 <= radix -> 0 <= a -> horner radix a s = Some v -> a <= v.
Proof.
  intros Hr. revert a. induction s as [|c s IH]; simpl; intros a Ha E; simplify_eq; [done|].
  destruct (digit_val radix c) as [d|] eqn:Hd; [|done].
  assert (0 <= d). { unfold digit_val in Hd. repeat case_test; bool_props; simplify_eq; lia. }
  apply IH in E; nia.
Qed.

Lemma parse_loop_horner radix a s v :
  1 <= radix -> 0 <= a -> horner radix a s = Some v -> v <= U64_MAX ->
  parse_loop radix a s = Some v.
Proof.
  intros Hr. revert a. induction s as [|c s IH]; simpl; intros a Ha E Hv; simplify_eq; [done|].
  destruct (digit_val radix c) as [d|] eqn:Hd; [|done].
  assert (0 <= d). { unfold digit_val in Hd. repeat case_test; bool_props; simplify_eq; lia. }
  pose proof (horner_ge radix (a * radix + d) s v Hr ltac:(nia) E).
  case_test; bool_props; [apply IH; auto; nia|lia].
Qed.

Lemma digit_val_hex d : 0 <= d < 16 -> digit_val 16 (hex_digit d) = Some d.
Proof.
  intros H. pattern d. apply (small_cases _ 16 d H). by repeat constructor.
Qed.

Lemma hex_digit_ne d : 0 <= d < 16 ->
  hex_digit d <> "_"%char /\ hex_digit d <> "."%char /\ hex_digit d <> "+"%char.
Proof.
  intros H. pattern d. apply (small_cases _ 16 d H). by repeat constructor.
Qed.

Lemma horner_hex_go fuel z acc :
  0 <= z < 16 ^ Z.of_nat fuel -> (0 < fuel)%nat ->
  horner 16 0 (hex_go fuel z acc) = horner 16 z acc.
Proof.
  revert z acc. induction fuel as [|f IH]; intros z acc Hz Hf; [lia|].
  rewrite Nat2Z.inj_succ, Z.pow_succ_r in Hz by lia. cbn [hex_go].
  case_test; bool_props.
  - cbn [horner]. rewrite digit_val_hex by lia. f_equal. lia.
  - destruct f as [|f]; [simpl in Hz; lia|].
    rewrite IH by lia. cbn [horner]. rewrite digit_val_hex by lia. f_equal. lia.
Qed.

Lemma horner_zeros n s : horner 16 0 (zeros n +:+ s) = horner 16 0 s.
Proof. induction n; cbn [zeros]; rewrite ?append_cons; simpl; auto. Qed.

Lemma hex_go_free c fuel z acc :
  (forall d, 0 <= d < 16 -> hex_digit d <> c) -> free_of c acc -> free_of c (hex_go fuel z acc).
Proof.
  intros Hc. revert z acc. induction fuel as [|f IH]; intros z acc Ha; [done|].
  cbn [hex_go]. assert (free_of c (String (hex_digit (z mod 16)) acc)).
  { apply free_of_cons. split; [apply Hc; lia|done]. }
  case_test; auto.
Qed.

Lemma zeros_free c n : c <> "0"%char -> free_of c (zeros n).
Proof. intros. induction n; simpl; [done|]. by apply free_of_cons. Qed.

Lemma fmt_hex_free c w z :
  c = "_"%char \/ c = "."%char \/ c = "+"%char -> free_of c (fmt_hex w z).
Proof.
  intros Hc. unfold fmt_hex. apply free_of_app.
  - apply zeros_free. by destruct Hc as [->|[->| ->]].
  - apply hex_go_free; [|done]. intros d Hd. destruct (hex_digit_ne d Hd) as (? & ? & ?).
    by destruct Hc as [->|[->| ->]].
Qed.

Lemma hex_go_nonempty fuel z acc : (0 < fuel)%nat -> hex_go fuel z acc <> EmptyString.
Proof.
  revert z acc. induction fuel as [|f IH]; intros z acc Hf; [lia|]. cbn [hex_go].
  case_test; [done|]. destruct f as [|f]; [done|]. apply IH. lia.
Qed.

(** [from_str_radix(16)] inverts [{:0wx}]. *)
Lemma from_str_radix_fmt_hex w z :
  0 <= z <= U64_MAX -> from_str_radix 16 (fmt_hex w z) = Some z.
Proof.
  intros Hz.
  assert (horner 16 0 (fmt_hex w z) = Some z) as Hh.
  { unfold fmt_hex. rewrite horner_zeros. rewrite horner_hex_go; [done| |lia].
    unfold U64_MAX in Hz. lia. }
  assert (Hp : parse_loop 16 0 (fmt_hex w z) = Some z)
    by (apply parse_loop_horner; [lia|lia|done|lia]).
  pose proof (fmt_hex_free "+" w z ltac:(auto)) as Hf.
  assert (fmt_hex w z <> EmptyString).
  { unfold fmt_hex. pose proof (hex_go_nonempty 16 z EmptyString ltac:(lia)).
    destruct (zeros _); [done|by rewrite append_cons]. }
  unfold from_str_radix. destruct (fmt_hex w z) as [|a s]; [done|].
  apply free_of_cons in Hf as [Ha _]. by destruct (ascii_dec a "+").
Qed.

End Str.

(** ** Cache mode and path hashing (util.rs) *)
Module PathHash.

Inductive CacheMode : Type := Off | Writes | Minimal | Full.

#[export] Instance CacheMode_eq_dec : EqDecision CacheMode.
Proof. solve_decision. Defined.

Definition CacheMode_parse (s : string) : CacheMode :=
  if String.eqb s "off" then Off
  else if String.eqb s "writes" then Writes
  else if String.eqb s "full" then Full
  else if String.eqb s "minimal" then Minimal
  else Off.

Definition disk_write_buffer (m : CacheMode) : bool :=
  match m with Off => false | _ => true end.
Definition disk_read_cache (m : CacheMode) : bool :=
  match m with Full => true | _ => false end.
Definition delete_cache_on_success (m : CacheMode) : bool :=
  match m with Minimal => true | _ => false end.

Definition GOLDEN_SALT : Z := 0x9E3779B97F4A7C15.

(** The process-wide salt: [env] is [MNTRS_PATH_HASH_SALT], [random] the value
    the "random" branch draws from the clock and an address. *)
Definition salt_init (env : option string) (random : Z) : Z :=
  match env with
  | None => GOLDEN_SALT
  | Some v =>
      if String.eqb v "random" then random
      else match Str.from_str_radix 10 v with Some n => n | None => GOLDEN_SALT end
  end.

Definition hash_byte (h : Z) (b : Byte.byte) : Z :=
  Z.lxor (wrap64 (h * 0x01000193)) (Z_of_byte b).
Definition hash_loop (h : Z) (l : bytes) : Z := foldl hash_byte h l.
Definition path_hash (salt : Z) (path : string) : Z :=
  let h := hash_loop (Z.lxor 0x811c9dc5 salt) (as_bytes path) in
  Z.max (Z.land h 0x7FFFFFFFFFFFFFFF) 2.

(** ** Names of the files of the cache directory *)
Definition cache_path_block (salt : Z) (path : string) (block_index : Z) : string :=
  let base := Str.fmt_hex 20 (path_hash salt path) in
  if block_index =? 0 then base
  else base +:+ "_" +:+ Str.fmt_hex 4 block_index.
Definition write_buffer_path (salt : Z) (path : string) : string :=
  cache_path_block salt path 0.
Definition disk_cache_block_path (salt : Z) (path : string) (block_idx : Z) : string :=
  Str.fmt_hex 20 (path_hash salt path) +:+ "_" +:+ Str.fmt_hex 10 block_idx +:+ ".block".

(** [CacheKey]: [None] is the write buffer, [Some idx] a block. *)
Abbreviation CacheKey := (string * option Z)%type.

(** [bump_in_memory_atime]: [and_modify] never inserts. *)
Definition bump_in_memory_atime (now : Z) (index : gmap (string * option Z) (Z * Z))
    (key : CacheKey) : gmap (string * option Z) (Z * Z) :=
  match index !! key with
  | Some (sz, _) => <[key := (sz, now)]> index
  | None => index
  end.

(** [is_cache_file_expired]: [mtime] is [None] when the metadata cannot be
    read; times and ages in nanoseconds. *)
Definition is_cache_file_expired (now : Z) (mtime : option Z) (max_age : Z) : bool :=
  if max_age =? 0 then false
  else match mtime with
       | None => false
       | Some t => if t <=? now then max_age <? now - t else false
       end.

Lemma land_low63_range h : 0 <= Z.land h 0x7FFFFFFFFFFFFFFF < 2 ^ 63.
Proof.
  change 0x7FFFFFFFFFFFFFFF with (Z.ones 63). rewrite Z.land_ones by lia. lia.
Qed.

Lemma path_hash_range salt path : 2 <= path_hash salt path < 2 ^ 63.
Proof. unfold path_hash. pose proof (land_low63_range
  (hash_loop (Z.lxor 0x811c9dc5 salt) (as_bytes path))). lia. Qed.

Lemma path_hash_u64 salt path : 0 <= path_hash salt path <= U64_MAX.
Proof. pose proof (path_hash_range salt path). unfold U64_MAX. lia. Qed.

(** The block index and the hash are read back from a block's file name. *)
Lemma block_name_split salt path idx :
  Str.strip_suffix ".block" (disk_cache_block_path salt path idx)
    = Some (Str.fmt_hex 20 (path_hash salt path) +:+ "_" +:+ Str.fmt_hex 10 idx) /\
  Str.split "_" (Str.fmt_hex 20 (path_hash salt path) +:+ "_" +:+ Str.fmt_hex 10 idx)
    = [Str.fmt_hex 20 (path_hash salt path); Str.fmt_hex 10 idx].
Proof.
  split.
  - unfold disk_cache_block_path. rewrite <-!Str.append_assoc. rewrite Str.append_assoc.
    rewrite <-Str.append_assoc. apply Str.strip_suffix_app.
  - change ("_" +:+ Str.fmt_hex 10 idx) with (String "_" (Str.fmt_hex 10 idx)).
    rewrite Str.split_app by (apply Str.fmt_hex_free; auto).
    f_equal. apply Str.split_free. apply Str.fmt_hex_free; auto.
Qed.

Lemma fmt_hex_inj w v x y :
  0 <= x <= U64_MAX -> 0 <= y <= U64_MAX -> Str.fmt_hex w x = Str.fmt_hex v y -> x = y.
Proof.
  intros Hx Hy E. apply (f_equal (Str.from_str_radix 16)) in E.
  rewrite !Str.from_str_radix_fmt_hex in E by done. by simplify_eq.
Qed.

Lemma disk_cache_block_path_inj_hash salt p q i j :
  0 <= i <= U64_MAX -> 0 <= j <= U64_MAX ->
  disk_cache_block_path salt p i = disk_cache_block_path salt q j ->
  path_hash salt p = path_hash salt q /\ i = j.
Proof.
  intros Hi Hj E.
  destruct (block_name_split salt p i) as [Ep Sp], (block_name_split salt q j) as [Eq Sq].
  rewrite E, Eq in Ep. simplify_eq. rewrite Ep, Sp in Sq. injection Sq as Eh Ei.
  split; eapply fmt_hex_inj; eauto using path_hash_u64.
Qed.

Lemma free_of_not_block s : Str.free_of "." s -> Str.strip_suffix ".block" s = None.
Proof.
  intros Hs. destruct (Str.strip_suffix ".block" s) as [t|] eqn:E; [|done].
  apply Str.strip_suffix_Some in E. subst s. exfalso.
  induction t as [|a t IH]; [done|].
  rewrite Str.append_cons in Hs. apply Str.free_of_cons in Hs as [_ Hs]. auto.
Qed.

Lemma write_buffer_not_block salt p : Str.strip_suffix ".block" (write_buffer_path salt p) = None.
Proof.
  apply free_of_not_block. unfold write_buffer_path, cache_path_block. simpl.
  apply Str.fmt_hex_free. auto.
Qed.

(** File names of the cache directory.  Equal block file names mean
    equal hashes and equal block indices (for u64 indices), and no path's
    write buffer has the name of any path's block file. *)
Theorem cache_file_names_disjoint salt p q i j :
  0 <= i <= U64_MAX -> 0 <= j <= U64_MAX ->
  (disk_cache_block_path salt p i = disk_cache_block_path salt q j <->
   path_hash salt p = path_hash salt q /\ i = j) /\
  write_buffer_path salt p <> disk_cache_block_path salt q j.
Proof.
  intros Hi Hj. split; [split|].
  - by apply disk_cache_block_path_inj_hash.
  - intros [Eh ->]. unfold disk_cache_block_path. by rewrite Eh.
  - intros E. destruct (block_name_split salt q j) as [Es _].
    by rewrite <-E, write_buffer_not_block in Es.
Qed.

Lemma cache_file_names_disjoint_witness :
  disk_cache_block_path GOLDEN_SALT "a" 1 <> disk_cache_block_path GOLDEN_SALT "a" 2 /\
  write_buffer_path GOLDEN_SALT "a" <> disk_cache_block_path GOLDEN_SALT "a" 2.
Proof.
  destruct (cache_file_names_disjoint GOLDEN_SALT "a" "a" 1 2) as [Hb Hw];
    [unfold U64_MAX; lia|unfold U64_MAX; lia|].
  split; [|exact Hw]. intros E. apply Hb in E as [_ E]. discriminate.
Defined.

(** The collision check of block files does not cover write buffers:
    two different paths with the default salt share one write buffer file. *)
Theorem write_buffer_collision :
  exists p q, p <> q /\
    write_buffer_path (salt_init None 0) p = write_buffer_path (salt_init None 0) q.
Proof. exists "BbQEvOQIQEf"%string, "7vulhp9pKLe"%string. split; [done|]. by vm_compute. Qed.

End PathHash.

(** ** Glob matching (util.rs: [fnmatch])

    Characters are code points. [fnmatch_loop] is the first [while] of the
    code over the four locals [pi], [ni], [star] and [match_start]; [None] is
    "out of fuel". *)
Module Glob.

Definition STAR : Z := 42.
Definition QUESTION : Z := 63.

(** [while pi < pl && p[pi] == '*' { pi += 1; }  pi == pl] *)
Fixpoint tail_stars (rest : list Z) : bool :=
  match rest with
  | [] => true
  | c :: rest' => if c =? STAR then tail_stars rest' else false
  end.

Fixpoint fnmatch_loop (fuel : nat) (p n : list Z) (pi ni : nat) (star : option nat)
    (match_start : nat) : option bool :=
  match fuel with
  | O => None
  | S f =>
      match n !! ni with
      | None => Some (tail_stars (drop pi p))
      | Some x =>
          let backtrack :=
            match star with
            | Some s => fnmatch_loop f p n (s + 1) (match_start + 1) star (match_start + 1)
            | None => Some false
            end in
          match p !! pi with
          | Some c =>
              if c =? STAR then fnmatch_loop f p n (pi + 1) ni (Some pi) ni
              else if (c =? QUESTION) || (c =? x)
                   then fnmatch_loop f p n (pi + 1) (ni + 1) star match_start
              else backtrack
          | None => backtrack
          end
      end
  end.

(** Enough iterations: each one either advances or backtracks. *)
Definition fnmatch_fuel (p n : list Z) : nat :=
  ((length n + 1) * (length p + length n + 1) + 1)%nat.

Definition fnmatch (to_lowercase : list Z -> list Z) (pattern name : list Z)
    (ignore_case : bool) : option bool :=
  let p := if ignore_case then to_lowercase pattern else pattern in
  let n := if ignore_case then to_lowercase name else name in
  fnmatch_loop (fnmatch_fuel p n) p n 0 0 None 0.

(** The reference: what a glob pattern matches, by rules. *)
Inductive globs : list Z -> list Z -> Prop :=
| globs_nil : globs [] []
| globs_star p n1 n2 : globs p n2 -> globs (STAR :: p) (n1 ++ n2)
| globs_question x p n : globs p n -> globs (QUESTION :: p) (x :: n)
| globs_char c p n : c <> STAR -> globs p n -> globs (c :: p) (c :: n).

Lemma tail_stars_spec r : tail_stars r = true <-> globs r [].
Proof.
  induction r as [|c r IH]; simpl.
  - split; [constructor|done].
  - destruct (Z.eqb_spec c STAR) as [->|Hc].
    + rewrite IH. split.
      * intros H. apply (globs_star r [] []). done.
      * inversion 1 as [|p n1 n2 Hg E1 E2| |]; subst.
        by destruct n1; simplify_eq/=.
    + split; [done|]. inversion 1; subst; done.
Qed.

Lemma globs_cons c p n : c <> STAR ->
  globs (c :: p) n <->
  exists x n', n = x :: n' /\ ((c =? QUESTION) || (c =? x) = true) /\ globs p n'.
Proof.
  intros Hc. split.
  - inversion 1; subst; try done.
    + eauto 6.
    + eexists _, _. split; [done|]. by rewrite Z.eqb_refl, orb_true_r.
  - intros (x & n' & -> & Hx & Hg). apply orb_true_iff in Hx as [Hx|Hx];
      apply Z.eqb_eq in Hx; subst; by constructor.
Qed.

Lemma globs_STAR p n : globs (STAR :: p) n <-> exists k, (k <= length n)%nat /\ globs p (drop k n).
Proof.
  split.
  - inversion 1; subst; [|done]. exists (length n1). rewrite length_app, drop_app_length.
    split; [lia|done].
  - intros (k & Hk & Hg). rewrite <-(take_drop k n). by constructor.
Qed.

(** A block of non-star pattern characters consumes one character each. *)
Lemma globs_block u r m :
  Forall (fun c => c <> STAR) u -> globs (u ++ r) m ->
  (length u <= length m)%nat /\ globs r (drop (length u) m).
Proof.
  intros Hu. revert m. induction Hu as [|c u Hc Hu IH]; intros m Hg; simpl in *.
  - split; [lia|done].
  - apply globs_cons in Hg as (x & n' & -> & _ & Hg); [|done].
    apply IH in Hg as [? ?]. simpl. split; [lia|done].
Qed.

(** The part of the loop invariant that relates the indices to the last star. *)
Definition star_ok (p n : list Z) (pi ni : nat) (star : option nat) (ms : nat) : Prop :=
  match star with
  | None => ms = O
  | Some s =>
      (s < pi)%nat /\ (ms <= ni)%nat /\ (ni - ms = pi - (s + 1))%nat /\
      Forall (fun c => c <> STAR) (take (pi - (s + 1)) (drop (s + 1) p))
  end.

(** The alternatives still open after the current attempt. *)
Definition alt (p n : list Z) (star : option nat) (ms : nat) : Prop :=
  exists s k, star = Some s /\ (ms < k <= length n)%nat /\ globs (drop (s + 1) p) (drop k n).

Definition measure (p n : list Z) (pi ni ms : nat) : nat :=
  ((length n + 1 - ms) * (length p + length n + 1) - (pi + ni))%nat.

Lemma split_at_pi (p : list Z) s pi : (s < pi)%nat -> (pi <= length p)%nat ->
  drop (s + 1) p = take (pi - (s + 1)) (drop (s + 1) p) ++ drop pi p /\
  length (take (pi - (s + 1)) (drop (s + 1) p)) = (pi - (s + 1))%nat.
Proof.
  intros H1 H2. split.
  - rewrite <-(take_drop (pi - (s + 1)) (drop (s + 1) p)) at 1. f_equal.
    rewrite drop_drop. f_equal. lia.
  - rewrite length_take, length_drop. lia.
Qed.

(** An open alternative has consumed more of the name than the current
    attempt had when it reached [pi]. *)
Lemma alt_after_block p n pi ni star ms :
  star_ok p n pi ni star ms -> (pi <= length p)%nat -> alt p n star ms ->
  exists j, (ni < j <= length n)%nat /\ globs (drop pi p) (drop j n).
Proof.
  intros Hok Hpi (s & k & -> & Hk & Hg). destruct Hok as (Hs & Hms & Hd & Hns).
  destruct (split_at_pi p s pi Hs Hpi) as [E El]. rewrite E in Hg.
  apply globs_block in Hg as [Hle Hg]; [|done].
  rewrite El in Hle, Hg. rewrite drop_drop in Hg. rewrite length_drop in Hle.
  exists (k + (pi - (s + 1)))%nat. split; [lia|done].
Qed.

Lemma star_step p n pi ni star ms :
  star_ok p n pi ni star ms -> p !! pi = Some STAR ->
  (globs (drop pi p) (drop ni n) \/ alt p n star ms) -> (ni < length n)%nat ->
  globs (drop (pi + 1) p) (drop ni n) \/ alt p n (Some pi) ni.
Proof.
  intros Hok Hp HG Hni. pose proof (lookup_lt_Some _ _ _ Hp).
  assert (exists j, (ni <= j <= length n)%nat /\ globs (drop pi p) (drop j n)) as (j & Hj & Hg).
  { destruct HG as [HG|HG]; [by exists ni; split; [lia|]|].
    eapply alt_after_block in HG as (j & ? & ?); [|done|lia]. exists j. split; [lia|done]. }
  rewrite (drop_S _ _ _ Hp), globs_STAR in Hg. destruct Hg as (k & Hk & Hg).
  rewrite drop_drop in Hg. rewrite length_drop in Hk.
  replace (S pi) with (pi + 1)%nat in Hg by lia.
  destruct (decide (j + k = ni)%nat) as [E|]; [rewrite E in Hg; by left|right].
  exists pi, (j + k)%nat. split; [done|]. split; [lia|done].
Qed.

Lemma star_step_sound p n pi ni :
  p !! pi = Some STAR ->
  (globs (drop (pi + 1) p) (drop ni n) \/ alt p n (Some pi) ni) -> (ni < length n)%nat ->
  globs (drop pi p) (drop ni n).
Proof.
  intros Hp HG Hni. rewrite (drop_S _ _ _ Hp), globs_STAR.
  replace (S pi) with (pi + 1)%nat by lia. destruct HG as [HG|(s & k & ? & Hk & Hg)].
  - exists O. split; [lia|done].
  - simplify_eq. exists (k - ni)%nat. rewrite length_drop, drop_drop. split; [lia|].
    by replace (ni + (k - ni))%nat with k by lia.
Qed.

(** After a failed attempt the next alternative becomes the current one. *)
Lemma backtrack_step p n s ms : (ms < length n)%nat ->
  alt p n (Some s) ms <->
  globs (drop (s + 1) p) (drop (ms + 1) n) \/ alt p n (Some s) (ms + 1).
Proof.
  intros Hms. split.
  - intros (s' & k & ? & Hk & Hg). simplify_eq.
    destruct (decide (k = ms + 1)%nat) as [->|]; [by left|right].
    exists s', k. split; [done|]. split; [lia|done].
  - intros [Hg|(s' & k & ? & Hk & Hg)]; simplify_eq.
    + exists s, (ms + 1)%nat. split; [done|]. split; [lia|done].
    + exists s', k. split; [done|]. split; [lia|done].
Qed.

(** A literal or [?] that matches moves both indices. *)
Lemma star_ok_advance p n pi ni star ms c :
  star_ok p n pi ni star ms -> p !! pi = Some c -> c <> STAR ->
  star_ok p n (pi + 1) (ni + 1) star ms.
Proof.
  destruct star as [s|]; [|done]. intros (Hs & Hmn & Hd & Hns) Hp Hc.
  split; [lia|]. split; [lia|]. split; [lia|].
  replace (pi + 1 - (s + 1))%nat with (S (pi - (s + 1))) by lia.
  rewrite (take_S_r _ _ c); [apply Forall_app; split; [done|by constructor]|].
  rewrite lookup_drop. by replace (s + 1 + (pi - (s + 1)))%nat with pi by lia.
Qed.

Lemma globs_head p n pi ni c x : p !! pi = Some c -> n !! ni = Some x -> c <> STAR ->
  globs (drop pi p) (drop ni n) <->
  (c =? QUESTION) || (c =? x) = true /\ globs (drop (pi + 1) p) (drop (ni + 1) n).
Proof.
  intros Hp Hn Hc. rewrite (drop_S _ _ _ Hp), (drop_S _ _ _ Hn), globs_cons, !Nat.add_1_r by done.
  split; [intros (? & ? & ? & ? & ?); by simplify_eq|intros [? ?]; eauto].
Qed.

(** The measure pays for one iteration. *)
Lemma measure_advance p n pi ni ms pi' ni' ms' fuel :
  (measure p n pi ni ms < S fuel)%nat -> (pi <= length p)%nat -> (ni < length n)%nat ->
  (ms <= ni)%nat -> (ms <= ms')%nat -> (ms' <= length n)%nat -> (pi + ni < pi' + ni')%nat ->
  (pi' <= length p)%nat -> (ni' <= length n)%nat -> (measure p n pi' ni' ms' < fuel)%nat.
Proof. unfold measure. intros. nia. Qed.

Lemma measure_backtrack p n pi ni ms pi' fuel :
  (measure p n pi ni ms < S fuel)%nat -> (pi <= length p)%nat -> (ni < length n)%nat ->
  (ms <= ni)%nat -> (pi' <= length p)%nat -> (measure p n pi' (ms + 1) (ms + 1) < fuel)%nat.
Proof. unfold measure. intros. nia. Qed.

Lemma fnmatch_loop_correct fuel p n pi ni star ms (G : Prop) :
  (measure p n pi ni ms < fuel)%nat -> (pi <= length p)%nat -> (ni <= length n)%nat ->
  (ms <= ni)%nat -> star_ok p n pi ni star ms ->
  (G <-> globs (drop pi p) (drop ni n) \/ alt p n star ms) ->
  exists b, fnmatch_loop fuel p n pi ni star ms = Some b /\ (b = true <-> G).
Proof.
  revert pi ni star ms. induction fuel as [|fuel IH]; intros pi ni star ms Hm Hpi Hni Hms Hok HG;
    [lia|]. cbn [fnmatch_loop].
  destruct (n !! ni) as [x|] eqn:Hn; cycle 1.
  { apply lookup_ge_None in Hn. eexists. split; [done|]. rewrite tail_stars_spec, HG.
    rewrite (drop_ge n) by lia. split; [auto|]. intros [?|Ha]; [done|].
    destruct (alt_after_block _ _ _ _ _ _ Hok Hpi Ha) as (j & ? & _). lia. }
  pose proof (lookup_lt_Some _ _ _ Hn) as Hlt.
  assert (Hback : ~ globs (drop pi p) (drop ni n) ->
    exists b, match star with
      | Some s => fnmatch_loop fuel p n (s + 1) (ms + 1) star (ms + 1)
      | None => Some false end = Some b /\ (b = true <-> G)).
  { intros Hno. destruct star as [s|].
    - destruct Hok as (Hs & _). apply IH; [apply (measure_backtrack _ _ pi ni); lia|lia..| |].
      + split; [lia|]. split; [lia|]. replace (s + 1 - (s + 1))%nat with O by lia. split; [lia|constructor].
      + rewrite HG, <-backtrack_step by lia. tauto.
    - eexists. split; [done|]. rewrite HG. split; [done|]. intros [?|(? & ? & ? & _)]; done. }
  destruct (p !! pi) as [c|] eqn:Hp; cycle 1.
  { apply Hback. apply lookup_ge_None in Hp. rewrite (drop_ge p) by lia.
    rewrite (drop_S _ _ _ Hn). inversion 1. }
  pose proof (lookup_lt_Some _ _ _ Hp).
  destruct (Z.eqb_spec c STAR) as [->|Hc].
  - apply IH; [apply (measure_advance _ _ pi ni ms); lia|lia..| |].
    + split; [lia|]. split; [lia|]. replace (pi + 1 - (pi + 1))%nat with O by lia. split; [lia|constructor].
    + rewrite HG. split; [intros; eapply star_step; eauto|].
      intros; left; eapply star_step_sound; eauto.
  - destruct ((c =? QUESTION) || (c =? x)) eqn:Hcx.
    + apply IH; [apply (measure_advance _ _ pi ni ms); lia|lia..| |].
      * by eapply star_ok_advance.
      * rewrite HG, (globs_head _ _ _ _ _ _ Hp Hn Hc). tauto.
    + apply Hback. rewrite (globs_head _ _ _ _ _ _ Hp Hn Hc). intros [? _]. congruence.
Qed.

(** The glob matcher always terminates and decides exactly the language
    of the pattern, with both arguments lowercased when [ignore_case]. *)
Theorem fnmatch_correct to_lowercase pattern name ignore_case :
  exists b, fnmatch to_lowercase pattern name ignore_case = Some b /\
    (b = true <->
     if ignore_case then globs (to_lowercase pattern) (to_lowercase name)
     else globs pattern name).
Proof.
  unfold fnmatch. set (p := if ignore_case then _ else _). set (n := if ignore_case then _ else _).
  replace (if ignore_case then _ else _) with (globs p n) by (subst p n; by destruct ignore_case).
  apply fnmatch_loop_correct; try lia.
  - unfold measure, fnmatch_fuel. lia.
  - done.
  - rewrite !drop_0. split; [auto|]. intros [?|(? & ? & ? & _)]; done.
Qed.

End Glob.

(** ** Paths (util.rs: [canonicalize_list_path], [build_mkdir_chain]) *)
Module Path.

Definition nonempty (s : string) : bool := negb (String.eqb s EmptyString).

(** [raw.split('/').filter(|s| !s.is_empty()).collect()] *)
Definition segments (raw : string) : list string :=
  List.filter nonempty (Str.split Str.SLASH raw).

Definition canonicalize_list_path (raw : string) : string :=
  let segs := segments raw in
  match segs with
  | [] => EmptyString
  | _ => String.concat "/" segs +:+ "/"
  end.

(** The [while !cur.is_empty()] loop; [None] is "out of fuel". *)
Fixpoint mkdir_loop (fuel : nat) (cur : string) (chain : list string) : option (list string) :=
  match fuel with
  | O => None
  | S f =>
      match cur with
      | EmptyString => Some chain
      | _ =>
          let chain' := chain ++ [cur +:+ "/"] in
          let cur' := match Str.rfind Str.SLASH cur with
                      | Some pos => Str.truncate pos cur
                      | None => EmptyString
                      end in
          mkdir_loop f cur' chain'
      end
  end.

Definition vec_pop {A} (l : list A) : list A := removelast l.

Definition build_mkdir_chain (full_path : string) : option (list string) :=
  let cur := Str.trim_end Str.SLASH full_path in
  chain ← mkdir_loop (S (String.length cur)) cur [];
  let chain := rev chain in
  let chain := vec_pop chain in
  Some (rev chain).

(** The path made of the given segments. *)
Definition path_of (segs : list string) : string := String.concat "/" segs.

(** A segment: not empty and without a slash. *)
Definition seg_ok (s : string) : Prop := s <> EmptyString /\ Str.free_of Str.SLASH s.

(** The parent directories of a path, nearest first, each with its slash. *)
Definition parents (segs : list string) : list string :=
  rev (map (fun k => path_of (take k segs) +:+ "/") (seq 1 (length segs - 1))).

Lemma segments_ok raw : Forall seg_ok (segments raw).
Proof.
  unfold segments. apply List.Forall_forall. intros x Hx. apply filter_In in Hx as [Hx Hn].
  pose proof (Str.split_pieces_free Str.SLASH raw) as HF. rewrite List.Forall_forall in HF.
  split; [|by apply HF]. unfold nonempty in Hn. apply negb_true_iff in Hn.
  by apply String.eqb_neq in Hn.
Qed.

Lemma path_of_cons s s' segs : path_of (s :: s' :: segs) = s +:+ String Str.SLASH (path_of (s' :: segs)).
Proof. done. Qed.

Lemma split_path_of segs t : Forall seg_ok segs -> segs <> [] ->
  Str.split Str.SLASH (path_of segs +:+ String Str.SLASH t) = segs ++ Str.split Str.SLASH t.
Proof.
  induction segs as [|s segs IH]; intros HF Hne; [done|].
  inversion HF as [|? ? [_ Hs] HF']; subst. destruct segs as [|s' segs].
  - apply Str.split_app. done.
  - rewrite path_of_cons, Str.append_assoc, Str.append_cons, Str.split_app by done.
    rewrite IH by done. done.
Qed.

Lemma path_of_snoc segs s : segs <> [] ->
  path_of (segs ++ [s]) = path_of segs +:+ String Str.SLASH s.
Proof.
  induction segs as [|x segs IH]; [done|]. intros _. destruct segs as [|y segs]; [done|].
  change ((x :: y :: segs) ++ [s]) with (x :: y :: (segs ++ [s])). rewrite !path_of_cons.
  change (y :: segs ++ [s]) with ((y :: segs) ++ [s]). rewrite IH by done.
  by rewrite Str.append_assoc, Str.append_cons.
Qed.
Lemma split_path segs : Forall seg_ok segs -> segs <> [] -> Str.split Str.SLASH (path_of segs) = segs.
Proof.
  destruct segs as [|s segs _] using rev_ind; [done|]. intros HF _. apply Forall_app in HF as [HF Hs].
  apply Forall_singleton in Hs as [_ Hs]. destruct segs as [|x segs]; [by apply Str.split_free|].
  rewrite path_of_snoc, split_path_of by done. by rewrite Str.split_free.
Qed.

Lemma filter_segs segs : Forall seg_ok segs -> List.filter nonempty segs = segs.
Proof.
  induction 1 as [|s segs [Hs _] _ IH]; [done|]. simpl. unfold nonempty at 1.
  destruct (String.eqb_spec s EmptyString); [done|]. simpl. by rewrite IH.
Qed.

Lemma segments_of_path segs : Forall seg_ok segs -> segs <> [] ->
  segments (path_of segs +:+ "/") = segs.
Proof.
  intros HF Hne. unfold segments. change ("/"%string) with (String Str.SLASH EmptyString).
  rewrite split_path_of, List.filter_app, filter_segs by done. simpl. by rewrite app_nil_r.
Qed.

Lemma segments_canonicalize raw : segments (canonicalize_list_path raw) = segments raw.
Proof.
  unfold canonicalize_list_path. pose proof (segments_ok raw).
  destruct (segments raw) as [|s segs] eqn:E; [done|]. by apply segments_of_path.
Qed.

(** Two raw paths have the same canonical form exactly when they have the
    same non-empty segments; the canonical form is idempotent, and it is empty
    or its segments, separated and ended by one slash each. *)
Theorem canonicalize_list_path_spec a b :
  (canonicalize_list_path a = canonicalize_list_path b <-> segments a = segments b) /\
  canonicalize_list_path (canonicalize_list_path a) = canonicalize_list_path a /\
  (canonicalize_list_path a = EmptyString \/
   Str.split Str.SLASH (canonicalize_list_path a) = segments a ++ [EmptyString]).
Proof.
  split; [split|split].
  - intros E. by rewrite <-(segments_canonicalize a), E, segments_canonicalize.
  - unfold canonicalize_list_path. by intros ->.
  - unfold canonicalize_list_path at 1 3. by rewrite segments_canonicalize.
  - unfold canonicalize_list_path. pose proof (segments_ok a) as HF.
    destruct (segments a) as [|s segs] eqn:E; [by left|right].
    apply (split_path_of (s :: segs) EmptyString); done.
Qed.

(** [k] trailing slashes. *)
Fixpoint slashes (k : nat) : string :=
  match k with O => EmptyString | S k' => String Str.SLASH (slashes k') end.

Lemma rfind_free c t : Str.free_of c t -> Str.rfind c t = None.
Proof.
  induction t as [|a t IH]; [done|]. rewrite Str.free_of_cons. intros [Ha Ht]. simpl.
  rewrite IH by done. by destruct (ascii_dec a c).
Qed.

Lemma rfind_app c s t : Str.free_of c t -> Str.rfind c (s +:+ String c t) = Some (String.length s).
Proof.
  intros Ht. induction s as [|a s IH]; rewrite ?Str.append_cons, ?Str.append_nil_l; simpl.
  - rewrite rfind_free by done. by destruct (ascii_dec c c).
  - by rewrite IH.
Qed.

Lemma truncate_app s t : Str.truncate (String.length s) (s +:+ t) = s.
Proof.
  induction s as [|a s IH]; rewrite ?Str.append_cons; simpl; [by destruct t|by rewrite IH].
Qed.

Lemma substring_app s t n : (String.length t <= n)%nat ->
  String.substring (String.length s) n (s +:+ t) = t.
Proof.
  intros Hn. induction s as [|a s IH]; rewrite ?Str.append_cons, ?Str.append_nil_l; simpl; [|by apply IH].
  revert n Hn. induction t as [|b t IHt]; intros [|n] Hn; simpl in *; try done; try lia.
  by rewrite IHt by lia.
Qed.

Lemma trim_end_slashes k : Str.trim_end Str.SLASH (slashes k) = EmptyString.
Proof. induction k; [done|]. simpl. rewrite IHk. done. Qed.

Lemma trim_end_keep c s a t : a <> c -> Str.trim_end c t = EmptyString ->
  Str.trim_end c (s +:+ String a t) = s +:+ String a EmptyString.
Proof.
  intros Ha Ht. induction s as [|b s IH].
  - rewrite Str.append_nil_l. simpl. rewrite Ht. by destruct (ascii_dec a c).
  - rewrite !Str.append_cons. simpl. rewrite IH. by destruct s.
Qed.

Lemma free_last c s : s <> EmptyString -> Str.free_of c s ->
  exists s' a, s = s' +:+ String a EmptyString /\ a <> c.
Proof.
  induction s as [|a s IH]; [done|]. intros _. rewrite Str.free_of_cons. intros [Ha Hs].
  destruct s as [|b s]; [by exists EmptyString, a|].
  destruct IH as (s' & x & -> & Hx); [done|done|]. exists (String a s'), x.
  by rewrite Str.append_cons.
Qed.

Lemma trim_end_path segs k : Forall seg_ok segs ->
  Str.trim_end Str.SLASH (path_of segs +:+ slashes k) = path_of segs.
Proof.
  destruct segs as [|s segs _] using rev_ind; intros HF.
  - rewrite Str.append_nil_l. apply trim_end_slashes.
  - apply Forall_app in HF as [_ HF]. inversion HF as [|? ? [Hne Hs] _]; subst.
    destruct (free_last _ _ Hne Hs) as (s' & a & -> & Ha).
    destruct segs as [|x segs].
    + change (path_of ([] ++ [s' +:+ String a EmptyString])) with (s' +:+ String a EmptyString).
      rewrite Str.append_assoc, Str.append_cons, Str.append_nil_l.
      apply trim_end_keep; [done|apply trim_end_slashes].
    + rewrite path_of_snoc by done.
      rewrite <-Str.append_cons, <-Str.append_assoc, Str.append_assoc.
      rewrite (Str.append_cons a), Str.append_nil_l.
      apply trim_end_keep; [done|apply trim_end_slashes].
Qed.

(** One prefix of the segment list per iteration, longest first. *)
Lemma mkdir_loop_spec segs fuel chain : Forall seg_ok segs ->
  (String.length (path_of segs) < fuel)%nat ->
  mkdir_loop fuel (path_of segs) chain =
    Some (chain ++ rev (map (fun k => path_of (take k segs) +:+ "/") (seq 1 (length segs)))).
Proof.
  revert fuel chain. induction segs as [|s segs IH] using rev_ind; intros fuel chain HF Hf.
  - destruct fuel; [simpl in Hf; lia|]. simpl. by rewrite app_nil_r.
  - apply Forall_app in HF as [HF HFs]. inversion HFs as [|? ? [Hne Hs] _]; subst.
    destruct fuel as [|fuel]; [lia|].
    assert (path_of (segs ++ [s]) <> EmptyString) as Hpne.
    { destruct segs; [done|]. rewrite path_of_snoc by done.
      by destruct (path_of (_ :: _)). }
    assert (Hcur : match Str.rfind Str.SLASH (path_of (segs ++ [s])) with
       | Some pos => Str.truncate pos (path_of (segs ++ [s])) | None => EmptyString end
       = path_of segs).
    { destruct segs; [by simpl; rewrite rfind_free|].
      by rewrite path_of_snoc, rfind_app, truncate_app. }
    assert (Hlen : (String.length (path_of segs) < fuel)%nat).
    { destruct segs; [destruct s; simpl in *; [done|lia]|].
      rewrite path_of_snoc, Str.length_append in Hf by done. simpl in Hf |- *. lia. }
    cbn [mkdir_loop]. destruct (path_of (segs ++ [s])) as [|a cur] eqn:Ecur; [done|].
    rewrite <-Ecur in *. rewrite Hcur, IH by done.
    rewrite length_app, Nat.add_1_r, seq_S, map_app, rev_app_distr, <-app_assoc.
    f_equal. f_equal. simpl. rewrite take_ge by (rewrite length_app; simpl; lia).
    do 2 f_equal. apply map_ext_in. intros k Hk. apply in_seq in Hk.
    by rewrite take_app_le by lia.
Qed.

(** C4: [build_mkdir_chain] terminates and returns the proper parent
    directories of the path, nearest first, however many trailing slashes the
    path has. *)
Theorem build_mkdir_chain_spec segs k : Forall seg_ok segs ->
  build_mkdir_chain (path_of segs +:+ slashes k) = Some (parents segs).
Proof.
  intros HF. unfold build_mkdir_chain. rewrite trim_end_path by done.
  rewrite mkdir_loop_spec by (done || lia). simpl. rewrite rev_involutive. unfold parents, vec_pop.
  destruct (length segs) as [|m]; [done|].
  rewrite seq_S, map_app. simpl. rewrite removelast_last. by replace (m - 0)%nat with m by lia.
Qed.

Lemma build_mkdir_chain_spec_witness :
  build_mkdir_chain "a/b/c.txt/" = Some ["a/b/"; "a/"]%string.
Proof.
  refine (build_mkdir_chain_spec ["a"; "b"; "c.txt"]%string 1 _).
  repeat constructor; discriminate.
Defined.

End Path.
