(* ===== verification/BlockFormat.v ===== *)
(** * BlockFormat: src/src/block_format.rs

    The on-disk format of read-cache blocks: the CRC-protected, lz4-compressed
    v3 layout with its embedded path, the reader with every legacy layout, the
    helpers that delete block files, the start-up scan and [ChecksummedBytes].

    The crc32c and lz4_flex crates are the classes [Crc32c] and [Lz4]; what
    the code relies on is in [Crc32cLaws] and [Lz4Laws].  The cache directory
    is a map from file names to files. *)

From Stdlib Require Import ZArith Lia Strings.Byte Strings.String Strings.Ascii.
From S2P Require Import Prelude Util.

(** ** The crates *)
Class Crc32c := {
  crc32c : bytes -> Z;
  crc32c_append : Z -> bytes -> Z
}.
(** Documented: a 32-bit checksum, and [crc32c_append(crc32c(a), b)] is the
    checksum of the concatenation. *)
Class Crc32cLaws `{!Crc32c} := {
  crc32c_range l : 0 <= crc32c l < 2 ^ 32;
  crc32c_append_app a b : crc32c_append (crc32c a) b = crc32c (a ++ b)
}.
Class Lz4 := {
  compress_prepend_size : bytes -> bytes;
  decompress_size_prepended : bytes -> option bytes
}.
(** Documented: decompression inverts compression, and the worst-case
    expansion of the block format plus the four-byte size prefix. *)
Class Lz4Laws `{!Lz4} := {
  lz4_roundtrip d : decompress_size_prepended (compress_prepend_size d) = Some d;
  lz4_bound d : lenZ (compress_prepend_size d) <= lenZ d + lenZ d / 255 + 16 + 4
}.

(** ** The cache directory *)
Record file := mk_file {
  file_data : bytes;
  file_mtime : Z;
  file_readable : bool  (* [false]: opening it for reading fails *)
}.
Definition remove_file (name : string) (fs : gmap string file) : gmap string file :=
  delete name fs.

(** ** UTF-8 validity ([std::str::from_utf8]) *)
Definition in_range (lo hi : Z) (b : Byte.byte) : bool :=
  (lo <=? Z_of_byte b) && (Z_of_byte b <=? hi).
Fixpoint utf8_valid (l : bytes) : bool :=
  match l with
  | [] => true
  | b0 :: l1 =>
      if in_range 0x00 0x7F b0 then utf8_valid l1
      else match l1 with
      | [] => false
      | b1 :: l2 =>
          if in_range 0xC2 0xDF b0 then in_range 0x80 0xBF b1 && utf8_valid l2
          else match l2 with
          | [] => false
          | b2 :: l3 =>
              if in_range 0xE0 0xEF b0 then
                (if in_range 0xE0 0xE0 b0 then in_range 0xA0 0xBF b1
                 else if in_range 0xED 0xED b0 then in_range 0x80 0x9F b1
                 else in_range 0x80 0xBF b1)
                && in_range 0x80 0xBF b2 && utf8_valid l3
              else match l3 with
              | [] => false
              | b3 :: l4 =>
                  in_range 0xF0 0xF4 b0 &&
                  (if in_range 0xF0 0xF0 b0 then in_range 0x90 0xBF b1
                   else if in_range 0xF4 0xF4 b0 then in_range 0x80 0x8F b1
                   else in_range 0x80 0xBF b1)
                  && in_range 0x80 0xBF b2 && in_range 0x80 0xBF b3 && utf8_valid l4
              end
          end
      end
  end.
Definition from_utf8 (l : bytes) : option string :=
  if utf8_valid l then Some (String.string_of_list_byte l) else None.

(** ** Constants *)
Definition CACHE_BLOCK_SIZE : Z := 8 * 1024 * 1024.
Definition BLOCK_CRC_TRAILER : Z := 4.
Definition BLOCK_MAGIC : bytes := as_bytes "MNCR".
Definition BLOCK_FORMAT_VERSION : Z := 3.
Definition LEGACY_BLOCK_FORMAT_VERSION_V1 : Z := 1.
Definition LEGACY_BLOCK_FORMAT_VERSION_V2 : Z := 2.
Definition BLOCK_HEADER_SIZE : Z := 8.
Definition BLOCK_OVERHEAD : Z := BLOCK_HEADER_SIZE + BLOCK_CRC_TRAILER.
Definition MAX_PAYLOAD_OVERHEAD : Z := 65536.
Definition MAX_PATH_LEN : Z := 8192.

Section Format.
Context `{CRC : !Crc32c, LZ : !Lz4}.

Definition crc32c_checksum (data : bytes) : Z := crc32c data.
Definition crc32c_checksum_concat (a b : bytes) : Z := crc32c_append (crc32c a) b.

(** Both readers return the new cache directory: [None] data after a
    [remove_file]. *)
Definition unlink (cpath : string) (fs : gmap string file) : gmap string file * option bytes :=
  (remove_file cpath fs, None).

Definition decode_lz4_payload (fs : gmap string file) (cpath : string) (content : bytes)
    : gmap string file * option bytes :=
  match decompress_size_prepended content with
  | Some decompressed =>
      if lenZ decompressed <=? CACHE_BLOCK_SIZE then (fs, Some decompressed)
      else unlink cpath fs
  | None => unlink cpath fs
  end.

Definition read_new_format (fs : gmap string file) (cpath : string) (data : bytes)
    (expected_path : string) : gmap string file * option bytes :=
  let after_header := dropZ BLOCK_HEADER_SIZE data in
  if lenZ after_header <? BLOCK_CRC_TRAILER then unlink cpath fs
  else
  let content_end := lenZ after_header - BLOCK_CRC_TRAILER in
  let content := takeZ content_end after_header in
  let stored_crc := from_le (dropZ content_end after_header) in
  let computed_crc := crc32c_checksum (takeZ (lenZ data - BLOCK_CRC_TRAILER) data) in
  if negb (stored_crc =? computed_crc) then unlink cpath fs
  else
  let version := from_le (takeZ 4 (dropZ 4 data)) in
  if version =? LEGACY_BLOCK_FORMAT_VERSION_V1 then (fs, Some content)
  else if version =? LEGACY_BLOCK_FORMAT_VERSION_V2 then decode_lz4_payload fs cpath content
  else if version =? BLOCK_FORMAT_VERSION then
    if lenZ content <? 2 then unlink cpath fs
    else
    let path_len := from_le (takeZ 2 content) in
    if (MAX_PATH_LEN <? path_len) || (lenZ content <? 2 + path_len) then unlink cpath fs
    else
    match from_utf8 (takeZ path_len (dropZ 2 content)) with
    | Some p =>
        if String.eqb p expected_path
        then decode_lz4_payload fs cpath (dropZ (2 + path_len) content)
        else unlink cpath fs
    | None => unlink cpath fs
    end
  else unlink cpath fs.

Definition read_block_cached (fs : gmap string file) (cpath expected_path : string)
    : gmap string file * option bytes :=
  match fs !! cpath with
  | None => (fs, None)
  | Some f =>
      let size := lenZ (file_data f) in
      if CACHE_BLOCK_SIZE + BLOCK_OVERHEAD + MAX_PAYLOAD_OVERHEAD + MAX_PATH_LEN + 2 <? size
      then unlink cpath fs
      else if negb (file_readable f) then (fs, None)
      else
      let data := file_data f in
      if (BLOCK_HEADER_SIZE <=? lenZ data) && bool_decide (takeZ 4 data = BLOCK_MAGIC)
      then read_new_format fs cpath data expected_path
      else if size =? CACHE_BLOCK_SIZE + BLOCK_CRC_TRAILER then
        let content := takeZ CACHE_BLOCK_SIZE data in
        let trailer := dropZ CACHE_BLOCK_SIZE data in
        if negb (from_le trailer =? crc32c_checksum content) then unlink cpath fs
        else (fs, Some content)
      else if size =? CACHE_BLOCK_SIZE then (fs, Some data)
      else if size <? CACHE_BLOCK_SIZE then (fs, Some data)
      else unlink cpath fs
  end.

Definition serialize_v3_block (path : string) (data : bytes) : option bytes :=
  let path_bytes := as_bytes path in
  if MAX_PATH_LEN <? lenZ path_bytes then None
  else
  let compressed := compress_prepend_size data in
  let header := BLOCK_MAGIC ++ to_le 4 BLOCK_FORMAT_VERSION in
  let path_block := to_le 2 (lenZ path_bytes) ++ path_bytes in
  let buf := header ++ path_block ++ compressed in
  let crc := crc32c_checksum_concat header (dropZ BLOCK_HEADER_SIZE buf) in
  Some (buf ++ to_le 4 crc).

End Format.

(** ** Deleting block files and rebuilding the index *)
Definition remove_block_cache_files (salt : Z) (fs : gmap string file) (full_path : string)
    (size : Z) : gmap string file :=
  let n_blocks := (size + CACHE_BLOCK_SIZE - 1) / CACHE_BLOCK_SIZE in
  foldl (fun fs blk => remove_file (PathHash.disk_cache_block_path salt full_path blk) fs)
    fs (seqZ 0 n_blocks).

(** The keys of one path's blocks, [e.key().0 == path && e.key().1.is_some()]. *)
Definition is_block_key_of (path : string) (k : string * option Z) : bool :=
  String.eqb (fst k) path && match snd k with Some _ => true | None => false end.

Definition drop_one (salt : Z) (st : gmap string file * gmap (string * option Z) (Z * Z))
    (key : string * option Z) : gmap string file * gmap (string * option Z) (Z * Z) :=
  let '(fs, index) := st in
  let fs := match snd key with
            | Some idx => remove_file (PathHash.disk_cache_block_path salt (fst key) idx) fs
            | None => fs
            end in
  (fs, delete key index).

Definition drop_block_cache_for_path (salt : Z) (fs : gmap string file)
    (index : gmap (string * option Z) (Z * Z)) (path : string)
    : gmap string file * gmap (string * option Z) (Z * Z) :=
  let to_remove := List.filter (is_block_key_of path) (map fst (map_to_list index)) in
  foldl (drop_one salt) (fs, index) to_remove.

Record CacheIndexEntry := mk_CacheIndexEntry {
  cie_name : string;
  cie_block_idx : Z;
  cie_size : Z;
  cie_mtime : Z
}.

(** One directory entry of the start-up scan. *)
Definition index_entry_of (name : string) (f : file) : option CacheIndexEntry :=
  rest ← Str.strip_suffix ".block" name;
  block_str ← Str.split "_" rest !! 1%nat;
  block_idx ← Str.from_str_radix 16 block_str;
  Some (mk_CacheIndexEntry name block_idx (lenZ (file_data f)) (file_mtime f)).

(** The scan, over the entries in the order the directory lists them. *)
Definition load_cache_index (dir : list (string * file)) : list CacheIndexEntry :=
  omap (fun '(name, f) => index_entry_of name f) dir.

(** ** [ChecksummedBytes] *)
Record ChecksummedBytes := mk_ChecksummedBytes { cb_data : bytes; cb_checksum : Z }.
Definition ChecksummedBytes_new `{!Crc32c} (data : bytes) : ChecksummedBytes :=
  mk_ChecksummedBytes data (crc32c_checksum data).
Definition ChecksummedBytes_new_unchecked (data : bytes) : ChecksummedBytes :=
  mk_ChecksummedBytes data 0.
Definition into_inner `{!Crc32c} (c : ChecksummedBytes) : option bytes :=
  if cb_checksum c =? 0 then Some (cb_data c)
  else if negb (crc32c_checksum (cb_data c) =? cb_checksum c) then None
  else Some (cb_data c).

(** ** Concrete crates, for evaluation

    CRC-32C bit by bit (polynomial 0x1EDC6F41 reflected), and a codec that
    stores the bytes after the four-byte size. *)
Fixpoint crc_bits (n : nat) (c : Z) : Z :=
  match n with
  | O => c
  | S n' => crc_bits n' (if Z.odd c then Z.lxor (c / 2) 0x82F63B78 else c / 2)
  end.
Definition crc_byte (c : Z) (b : Byte.byte) : Z := crc_bits 8 (Z.lxor c (Z_of_byte b)).
Definition crc_not (c : Z) : Z := Z.lxor c 0xFFFFFFFF.
#[local] Instance soft_crc32c : Crc32c := {|
  crc32c l := crc_not (foldl crc_byte 0xFFFFFFFF l);
  crc32c_append c l := crc_not (foldl crc_byte (crc_not c) l)
|}.
#[local] Instance stored_lz4 : Lz4 := {|
  compress_prepend_size d := to_le 4 (lenZ d) ++ d;
  decompress_size_prepended l :=
    if lenZ l <? 4 then None else Some (dropZ 4 l)
|}.

Example soft_crc32c_test_vector : crc32c (as_bytes "123456789") = 0xE3069283.
Proof. reflexivity. Qed.

Lemma lxor_range a b n : 0 <= n -> 0 <= a < 2 ^ n -> 0 <= b < 2 ^ n -> 0 <= Z.lxor a b < 2 ^ n.
Proof.
  intros Hn Ha Hb. assert (Z.lxor a b = Z.lxor a b mod 2 ^ n) as ->; [|lia].
  apply Z.bits_inj'. intros m Hm. destruct (Z.lt_ge_cases m n).
  - by rewrite Z.mod_pow2_bits_low.
  - rewrite Z.mod_pow2_bits_high, Z.lxor_spec by lia.
    rewrite <-(Z.mod_small a (2 ^ n)), <-(Z.mod_small b (2 ^ n)) by lia.
    by rewrite !Z.mod_pow2_bits_high by lia.
Qed.

Lemma crc_bits_range n c : 0 <= c < 2 ^ 32 -> 0 <= crc_bits n c < 2 ^ 32.
Proof.
  revert c. induction n as [|n IH]; intros c Hc; [done|]. cbn [crc_bits]. apply IH.
  destruct (Z.odd c); [apply lxor_range|]; lia.
Qed.

Lemma crc_fold_range c l : 0 <= c < 2 ^ 32 -> 0 <= foldl crc_byte c l < 2 ^ 32.
Proof.
  revert c. induction l as [|b l IH]; intros c Hc; [done|]. cbn [foldl]. apply IH.
  apply crc_bits_range, lxor_range; [lia|lia|]. pose proof (Z_of_byte_range b). lia.
Qed.

#[local] Instance soft_crc32c_laws : Crc32cLaws.
Proof.
  split.
  - intros l. apply lxor_range; [lia| |lia]. apply crc_fold_range. lia.
  - intros a b. cbn [crc32c crc32c_append soft_crc32c]. rewrite foldl_app. do 2 f_equal.
    unfold crc_not. by rewrite Z.lxor_assoc, Z.lxor_nilpotent, Z.lxor_0_r.
Qed.

#[local] Instance stored_lz4_laws : Lz4Laws.
Proof.
  split; intros d; cbn [compress_prepend_size decompress_size_prepended stored_lz4].
  - pose proof (lenZ_nonneg d). rewrite lenZ_app. unfold lenZ at 1. rewrite length_to_le.
    case_test; bool_props; [lia|]. by rewrite dropZ_app_exact.
  - pose proof (lenZ_nonneg d). rewrite lenZ_app. unfold lenZ at 1. rewrite length_to_le. lia.
Qed.

(** ** Lemmas on the v3 layout *)
Section FormatLemmas.
Context `{CRC : !Crc32c, CRCL : !Crc32cLaws, LZ : !Lz4, LZL : !Lz4Laws}.

Definition v3_header : bytes := BLOCK_MAGIC ++ to_le 4 BLOCK_FORMAT_VERSION.
Definition v3_body (path : string) (payload : bytes) : bytes :=
  to_le 2 (lenZ (as_bytes path)) ++ as_bytes path ++ payload.
(** A v3 file with the given bytes between header and trailer. *)
Definition v3_file (body : bytes) : bytes :=
  v3_header ++ body ++ to_le 4 (crc32c (v3_header ++ body)).

Lemma serialize_v3_layout path d :
  serialize_v3_block path d =
    if MAX_PATH_LEN <? lenZ (as_bytes path) then None
    else Some (v3_file (v3_body path (compress_prepend_size d))).
Proof.
  unfold serialize_v3_block, crc32c_checksum_concat. case_test; [done|]. f_equal.
  unfold v3_file, v3_body. rewrite (dropZ_app_exact BLOCK_HEADER_SIZE) by done.
  rewrite crc32c_append_app. rewrite <-!(app_assoc (to_le 2 _)), <-!app_assoc. done.
Qed.

(** What the reader makes of a v3 file with a good checksum. *)
Definition read_v3_content (fs : gmap string file) (cpath : string) (content : bytes)
    (expected_path : string) : gmap string file * option bytes :=
  if lenZ content <? 2 then unlink cpath fs
  else
  let path_len := from_le (takeZ 2 content) in
  if (MAX_PATH_LEN <? path_len) || (lenZ content <? 2 + path_len) then unlink cpath fs
  else
  match from_utf8 (takeZ path_len (dropZ 2 content)) with
  | Some p =>
      if String.eqb p expected_path
      then decode_lz4_payload fs cpath (dropZ (2 + path_len) content)
      else unlink cpath fs
  | None => unlink cpath fs
  end.

Lemma lenZ_le4 z : lenZ (to_le 4 z) = 4.
Proof. unfold lenZ. by rewrite length_to_le. Qed.

Lemma lenZ_v3_file body : lenZ (v3_file body) = lenZ body + 12.
Proof. unfold v3_file. rewrite !lenZ_app, lenZ_le4. change (lenZ v3_header) with 8. lia. Qed.

Lemma read_new_format_v3 fs cpath body q :
  read_new_format fs cpath (v3_file body) q = read_v3_content fs cpath body q.
Proof.
  unfold read_new_format. pose proof (lenZ_nonneg body).
  assert (dropZ BLOCK_HEADER_SIZE (v3_file body) = body ++ to_le 4 (crc32c (v3_header ++ body))) as ->
    by (by apply dropZ_app_exact).
  rewrite lenZ_app, lenZ_le4. unfold BLOCK_CRC_TRAILER.
  case_test; bool_props; [lia|].
  rewrite takeZ_app_exact, dropZ_app_exact by lia.
  assert (takeZ (lenZ (v3_file body) - 4) (v3_file body) = v3_header ++ body) as ->.
  { rewrite lenZ_v3_file. unfold v3_file. rewrite app_assoc. apply takeZ_app_exact.
    rewrite lenZ_app. change (lenZ v3_header) with 8. lia. }
  rewrite from_to_le, Z.mod_small by (apply crc32c_range).
  unfold crc32c_checksum. rewrite Z.eqb_refl. reflexivity.
Qed.

Lemma from_le_path_len n : 0 <= n <= MAX_PATH_LEN -> from_le (to_le 2 n) = n.
Proof. intros. rewrite from_to_le. apply Z.mod_small. unfold MAX_PATH_LEN in *. simpl. lia. Qed.

Lemma read_v3_body fs cpath p payload q :
  lenZ (as_bytes p) <= MAX_PATH_LEN ->
  read_v3_content fs cpath (v3_body p payload) q =
    if utf8_valid (as_bytes p) && String.eqb p q then decode_lz4_payload fs cpath payload
    else unlink cpath fs.
Proof.
  intros Hp. unfold read_v3_content, v3_body.
  pose proof (lenZ_nonneg (as_bytes p)). pose proof (lenZ_nonneg payload).
  assert (lenZ (to_le 2 (lenZ (as_bytes p))) = 2) as Hl2 by (unfold lenZ; by rewrite length_to_le).
  rewrite !lenZ_app, Hl2, takeZ_app_exact, from_le_path_len by (done || lia).
  case_test; bool_props; [lia|]. rewrite dropZ_app_exact, takeZ_app_exact by done.
  destruct ((_ <? _) || (_ <? _)) eqn:Hb.
  { apply orb_true_iff in Hb as [Hb|Hb]; bool_props; lia. }
  unfold from_utf8, as_bytes. destruct (utf8_valid _); [|done]. cbn [andb].
  rewrite String.string_of_list_byte_of_string.
  destruct (String.eqb p q); [|done]. rewrite app_assoc, dropZ_app_exact; [done|].
  rewrite lenZ_app. unfold as_bytes in Hl2. rewrite Hl2. done.
Qed.

(** A v3 file within the format's bounds reaches the v3 reader. *)
Lemma read_v3_file fs cpath f p payload q :
  fs !! cpath = Some f -> file_readable f = true -> file_data f = v3_file (v3_body p payload) ->
  lenZ (as_bytes p) <= MAX_PATH_LEN -> lenZ payload <= CACHE_BLOCK_SIZE + MAX_PAYLOAD_OVERHEAD ->
  read_block_cached fs cpath q =
    if utf8_valid (as_bytes p) && String.eqb p q then decode_lz4_payload fs cpath payload
    else unlink cpath fs.
Proof.
  intros Hf Hr Hd Hp Hl. unfold read_block_cached. rewrite Hf, Hd, lenZ_v3_file.
  assert (lenZ (v3_body p payload) = 2 + lenZ (as_bytes p) + lenZ payload) as El.
  { unfold v3_body. rewrite !lenZ_app. unfold lenZ at 1. rewrite length_to_le. lia. }
  pose proof (lenZ_nonneg (as_bytes p)). pose proof (lenZ_nonneg payload).
  case_test; bool_props; [unfold BLOCK_OVERHEAD, BLOCK_HEADER_SIZE, BLOCK_CRC_TRAILER in *; lia|].
  rewrite Hr. cbn [negb]. destruct (BLOCK_HEADER_SIZE <=? _) eqn:H8;
    [|unfold BLOCK_HEADER_SIZE in H8; bool_props; lia].
  rewrite bool_decide_true by done. cbn [andb]. rewrite read_new_format_v3.
  by apply read_v3_body.
Qed.

Lemma lz4_fits d : lenZ d <= CACHE_BLOCK_SIZE ->
  lenZ (compress_prepend_size d) <= CACHE_BLOCK_SIZE + MAX_PAYLOAD_OVERHEAD.
Proof.
  intros H. pose proof (lz4_bound d). unfold MAX_PAYLOAD_OVERHEAD, CACHE_BLOCK_SIZE in *. lia.
Qed.

Lemma decode_compressed fs cpath d : lenZ d <= CACHE_BLOCK_SIZE ->
  decode_lz4_payload fs cpath (compress_prepend_size d) = (fs, Some d).
Proof.
  intros H. unfold decode_lz4_payload. rewrite lz4_roundtrip.
  case_test; bool_props; [done|lia].
Qed.

(** What the reader returns for a serialised block, for any reader path. *)
Lemma read_serialized fs cpath f p d b q :
  serialize_v3_block p d = Some b -> lenZ d <= CACHE_BLOCK_SIZE ->
  fs !! cpath = Some f -> file_readable f = true -> file_data f = b ->
  read_block_cached fs cpath q =
    if utf8_valid (as_bytes p) && String.eqb p q then (fs, Some d) else unlink cpath fs.
Proof.
  intros Hs Hd Hf Hr Hb. rewrite serialize_v3_layout in Hs. case_test_in Hs; bool_props; [done|].
  injection Hs as Hs. rewrite <-Hs in Hb.
  rewrite (read_v3_file _ _ _ _ _ _ Hf Hr Hb) by auto using lz4_fits.
  by rewrite decode_compressed.
Qed.

End FormatLemmas.

(** ** What the reader may serve, and what it does to the directory *)
Section ReaderLemmas.
Context `{CRC : !Crc32c, LZ : !Lz4}.

(** A hit leaves the directory alone, a miss unlinks the file. *)
Definition hit_or_unlinked (fs : gmap string file) (cpath : string)
    (r : gmap string file * option bytes) : Prop :=
  match snd r with Some _ => fst r = fs | None => fst r = delete cpath fs end.

Lemma decode_lz4_frame fs cpath c : hit_or_unlinked fs cpath (decode_lz4_payload fs cpath c).
Proof.
  unfold decode_lz4_payload. destruct (decompress_size_prepended c); [case_test|]; done.
Qed.

Lemma read_new_format_frame fs cpath data p :
  hit_or_unlinked fs cpath (read_new_format fs cpath data p).
Proof.
  unfold read_new_format. destruct (from_utf8 _);
    repeat (case_test; try done; try apply decode_lz4_frame).
Qed.

(** A served payload is what the decoder made of it. *)
Definition decodes (payload d : bytes) : Prop :=
  decompress_size_prepended payload = Some d /\ lenZ d <= CACHE_BLOCK_SIZE.

Lemma decode_lz4_Some fs cpath c fs' d :
  decode_lz4_payload fs cpath c = (fs', Some d) -> decodes c d.
Proof.
  unfold decode_lz4_payload, decodes. destruct (decompress_size_prepended c); [|done].
  intros E. case_test_in E; bool_props; [|done]. by simplify_eq.
Qed.

Lemma from_utf8_Some l s : from_utf8 l = Some s -> utf8_valid l = true /\ l = as_bytes s.
Proof.
  unfold from_utf8, as_bytes. destruct (utf8_valid l); [|done]. intros E. simplify_eq.
  by rewrite String.list_byte_of_string_of_list_byte.
Qed.

(** The three payloads the reader accepts, by version. *)
Inductive accepted (expected_path : string) : Z -> bytes -> bytes -> Prop :=
| accepted_v1 d : accepted expected_path LEGACY_BLOCK_FORMAT_VERSION_V1 d d
| accepted_v2 c d : decodes c d -> accepted expected_path LEGACY_BLOCK_FORMAT_VERSION_V2 c d
| accepted_v3 payload d : decodes payload d ->
    utf8_valid (as_bytes expected_path) = true ->
    lenZ (as_bytes expected_path) <= MAX_PATH_LEN ->
    accepted expected_path BLOCK_FORMAT_VERSION
      (to_le 2 (lenZ (as_bytes expected_path)) ++ as_bytes expected_path ++ payload) d.

Lemma split_path_field content n : 2 <= lenZ content -> n = from_le (takeZ 2 content) ->
  2 + n <= lenZ content ->
  content = to_le 2 n ++ takeZ n (dropZ 2 content) ++ dropZ (2 + n) content /\
  lenZ (takeZ n (dropZ 2 content)) = n.
Proof.
  intros H2 -> Hn. pose proof (from_le_range (takeZ 2 content)).
  assert (length (takeZ 2 content) = 2%nat) as El.
  { pose proof (lenZ_takeZ 2 content). unfold lenZ in *. lia. }
  split; [|rewrite lenZ_takeZ, lenZ_dropZ; lia].
  rewrite <-El at 1. rewrite to_from_le.
  replace (dropZ (2 + from_le (takeZ 2 content)) content)
    with (dropZ (from_le (takeZ 2 content)) (dropZ 2 content)).
  - by rewrite !takeZ_dropZ.
  - unfold dropZ. rewrite drop_drop. f_equal. lia.
Qed.

Lemma read_v3_Some fs cpath content p fs' d :
  read_v3_content fs cpath content p = (fs', Some d) ->
  accepted p BLOCK_FORMAT_VERSION content d.
Proof.
  unfold read_v3_content. intros E. case_test_in E; bool_props; [done|].
  case_test_in E; [done|]. bool_props.
  destruct (split_path_field content _ ltac:(lia) eq_refl ltac:(lia)) as [Ec El].
  destruct (from_utf8 _) as [q|] eqn:Hu; [|done]. apply from_utf8_Some in Hu as [Hv Hq].
  case_if E as He; [|done]. apply String.eqb_eq in He as ->. apply decode_lz4_Some in E.
  rewrite Hq in Hv, El, Ec. rewrite <-El in Ec, E. rewrite Ec. constructor; [|done|lia].
  by rewrite El in *.
Qed.

Lemma read_new_format_Some fs cpath data p fs' d :
  8 <= lenZ data -> takeZ 4 data = BLOCK_MAGIC ->
  read_new_format fs cpath data p = (fs', Some d) ->
  exists version content trailer,
    data = BLOCK_MAGIC ++ version ++ content ++ trailer /\
    length version = 4%nat /\ length trailer = 4%nat /\
    from_le trailer = crc32c (BLOCK_MAGIC ++ version ++ content) /\
    accepted p (from_le version) content d.
Proof.
  unfold read_new_format. intros H8 Hm E.
  set (ah := dropZ BLOCK_HEADER_SIZE data) in *. unfold BLOCK_CRC_TRAILER in *.
  case_test_in E; bool_props; [done|].
  assert (Elen : lenZ ah = lenZ data - 8)
    by (subst ah; rewrite lenZ_dropZ; unfold BLOCK_HEADER_SIZE; lia).
  set (content := takeZ (lenZ ah - 4) ah) in *. set (trailer := dropZ (lenZ ah - 4) ah) in *.
  set (version := takeZ 4 (dropZ 4 data)) in *.
  assert (Edata : data = BLOCK_MAGIC ++ version ++ content ++ trailer).
  { subst content trailer. rewrite takeZ_dropZ. subst ah version.
    rewrite <-(takeZ_dropZ 4 data) at 1. rewrite Hm. f_equal.
    rewrite <-(takeZ_dropZ 4 (dropZ 4 data)) at 1. f_equal.
    unfold dropZ, BLOCK_HEADER_SIZE. by rewrite drop_drop. }
  assert (lenZ trailer = 4) by (subst trailer; rewrite lenZ_dropZ; lia).
  assert (lenZ version = 4) by (subst version; rewrite lenZ_takeZ, lenZ_dropZ; lia).
  assert (Ecrc : takeZ (lenZ data - 4) data = BLOCK_MAGIC ++ version ++ content).
  { rewrite Edata at 2. rewrite !app_assoc. apply takeZ_app_exact. rewrite Edata, !lenZ_app. lia. }
  case_test_in E; bool_props; [done|]. rewrite Ecrc in *.
  exists version, content, trailer. split; [done|]. split; [unfold lenZ in *; lia|].
  split; [unfold lenZ in *; lia|]. split; [done|].
  case_if E as Hv1; [rewrite Hv1; simplify_eq; constructor|].
  case_if E as Hv2; [rewrite Hv2; constructor; by eapply decode_lz4_Some|].
  case_if E as Hv3; [rewrite Hv3|done].
  by eapply read_v3_Some.
Qed.

End ReaderLemmas.

(** ** The block format's promises *)
Module Blocks.

Section Claims.
Context `{CRC : !Crc32c, CRCL : !Crc32cLaws, LZ : !Lz4, LZL : !Lz4Laws}.

(** C2: round trip.  A block of at most 8 MiB serialised for a path of at most
    8192 UTF-8 bytes is always serialised, and the file it is stored in is
    read back as exactly those bytes, whatever else the directory holds and
    without touching it. *)
Theorem v3_roundtrip fs cpath p d mtime :
  lenZ (as_bytes p) <= MAX_PATH_LEN -> utf8_valid (as_bytes p) = true ->
  lenZ d <= CACHE_BLOCK_SIZE ->
  exists b, serialize_v3_block p d = Some b /\
    let fs' := <[cpath := mk_file b mtime true]> fs in
    read_block_cached fs' cpath p = (fs', Some d).
Proof.
  intros Hp Hu Hd. destruct (serialize_v3_block p d) as [b|] eqn:Hs.
  - exists b. split; [done|]. simpl.
    rewrite (read_serialized _ _ _ _ _ _ _ Hs Hd (lookup_insert_eq _ _ _)) by done.
    by rewrite Hu, String.eqb_refl.
  - rewrite serialize_v3_layout in Hs. case_if Hs as Hlen; [lia|done].
Qed.

(** Path-hash collisions.  A block written for one path and read for any
    other path is never served: the read is a miss and the file is unlinked,
    every other file staying as it was. *)
Theorem v3_collision_unlinked fs cpath f p q d b :
  serialize_v3_block p d = Some b -> lenZ d <= CACHE_BLOCK_SIZE -> p <> q ->
  fs !! cpath = Some f -> file_readable f = true -> file_data f = b ->
  read_block_cached fs cpath q = (delete cpath fs, None).
Proof.
  intros Hs Hd Hpq Hf Hr Hb. rewrite (read_serialized _ _ _ _ _ _ _ Hs Hd Hf Hr Hb).
  apply String.eqb_neq in Hpq. by rewrite Hpq, andb_false_r.
Qed.

(** Torn writes.  A v3 file cut inside its first eight bytes is served as
    the content of a legacy partial block; one cut inside the next four is
    recognised and unlinked. *)
Theorem v3_torn_header fs cpath f p q d b k :
  serialize_v3_block p d = Some b -> fs !! cpath = Some f -> file_readable f = true ->
  file_data f = takeZ k b ->
  (0 <= k < 8 -> read_block_cached fs cpath q = (fs, Some (takeZ k b))) /\
  (8 <= k < 12 -> read_block_cached fs cpath q = (delete cpath fs, None)).
Proof.
  intros Hs Hf Hr Hk. rewrite serialize_v3_layout in Hs. case_if Hs as Hlen; [done|].
  injection Hs as Hs.
  assert (12 <= lenZ b) as Hb by (rewrite <-Hs, lenZ_v3_file; pose proof (lenZ_nonneg (v3_body p (compress_prepend_size d))); lia).
  assert (Hl : 0 <= k < 12 -> lenZ (takeZ k b) = k) by (intros; rewrite lenZ_takeZ; lia).
  unfold read_block_cached. rewrite Hf, Hk, Hr. split; intros Hr'; rewrite Hl by lia.
  - unfold CACHE_BLOCK_SIZE, BLOCK_OVERHEAD, BLOCK_HEADER_SIZE, BLOCK_CRC_TRAILER,
      MAX_PAYLOAD_OVERHEAD, MAX_PATH_LEN in *.
    repeat (case_test; bool_props; try lia; try done).
  - replace (CACHE_BLOCK_SIZE + BLOCK_OVERHEAD + MAX_PAYLOAD_OVERHEAD + MAX_PATH_LEN + 2 <? k)
      with false by (symmetry; apply Z.ltb_ge; unfold CACHE_BLOCK_SIZE, BLOCK_OVERHEAD,
        BLOCK_HEADER_SIZE, BLOCK_CRC_TRAILER, MAX_PAYLOAD_OVERHEAD, MAX_PATH_LEN; lia).
    replace (BLOCK_HEADER_SIZE <=? k) with true
      by (symmetry; apply Z.leb_le; unfold BLOCK_HEADER_SIZE; lia).
    rewrite bool_decide_true; cycle 1.
    { unfold takeZ. rewrite take_take. rewrite <-Hs. unfold v3_file, v3_header.
      replace (Z.to_nat 4 `min` Z.to_nat k)%nat with 4%nat by lia. done. }
    simpl. unfold read_new_format. rewrite lenZ_dropZ, Hl by (unfold BLOCK_HEADER_SIZE; lia).
    case_test; bool_props; [done|]. unfold BLOCK_HEADER_SIZE, BLOCK_CRC_TRAILER in *. lia.
Qed.

End Claims.

Section Claims2.
Context `{CRC : !Crc32c, LZ : !Lz4}.

(** A file with the header of the current layouts: its checksum covers
    everything before the trailer, and the bytes are its payload. *)
Definition checked_block (p : string) (data d : bytes) : Prop :=
  8 <= lenZ data /\ takeZ 4 data = BLOCK_MAGIC /\
  exists version content trailer,
    data = BLOCK_MAGIC ++ version ++ content ++ trailer /\
    length version = 4%nat /\ length trailer = 4%nat /\
    from_le trailer = crc32c (BLOCK_MAGIC ++ version ++ content) /\
    accepted p (from_le version) content d.
(** A file without it: a whole block and its checksum, or the bytes themselves,
    at most a block and unchecked. *)
Definition legacy_block (data d : bytes) : Prop :=
  (lenZ data < 8 \/ takeZ 4 data <> BLOCK_MAGIC) /\
  ((exists trailer, data = d ++ trailer /\ lenZ d = CACHE_BLOCK_SIZE /\ lenZ trailer = 4 /\ from_le trailer = crc32c d) \/
   (d = data /\ lenZ data <= CACHE_BLOCK_SIZE)).

(** C28: every hit of the reader.  The file was there and readable, and stays.
    One of at least eight bytes that starts with the magic passed the checksum
    over everything before the trailer, and the bytes served are the payload of
    a known version: for v3, decoded from a file that embeds exactly the path
    the caller asked for and at most one block long.  Any other file is a
    legacy one: a whole block that passed its checksum, or at most a block,
    served as it is with no check (so is what a torn write left of fewer than
    eight bytes). *)
Theorem read_block_cached_sound fs cpath p fs' d :
  read_block_cached fs cpath p = (fs', Some d) ->
  fs' = fs /\ exists f, fs !! cpath = Some f /\ file_readable f = true /\
    (checked_block p (file_data f) d \/ legacy_block (file_data f) d).
Proof.
  unfold read_block_cached. destruct (fs !! cpath) as [f|] eqn:Hf; [|done]. intros E.
  case_if E as Hbig; [done|]. case_if E as Hro; [done|].
  destruct ((BLOCK_HEADER_SIZE <=? lenZ (file_data f)) && bool_decide (takeZ 4 (file_data f) = BLOCK_MAGIC)) eqn:Eh.
  - apply andb_true_iff in Eh as [H8 Hm]. apply Z.leb_le in H8. apply bool_decide_eq_true in Hm.
    change BLOCK_HEADER_SIZE with 8 in H8.
    assert (fs' = fs) as ->
      by (pose proof (read_new_format_frame fs cpath (file_data f) p) as Hr; unfold hit_or_unlinked in Hr; by rewrite E in Hr).
    split; [done|]. exists f. split_and!; [done|done|]. left. split_and!; [done|done|]. by eapply read_new_format_Some.
  - assert (Hleg : lenZ (file_data f) < 8 \/ takeZ 4 (file_data f) <> BLOCK_MAGIC).
    { apply andb_false_iff in Eh as [H8|Hm]; [left; by apply Z.leb_gt in H8|right; by apply bool_decide_eq_false in Hm]. }
    assert (fs' = fs /\ ((exists trailer, file_data f = d ++ trailer /\ lenZ d = CACHE_BLOCK_SIZE /\ lenZ trailer = 4 /\
                from_le trailer = crc32c d) \/ (d = file_data f /\ lenZ (file_data f) <= CACHE_BLOCK_SIZE))) as [-> Hd].
    { case_if E as Hs.
      - case_if E as Hc; [done|]. simplify_eq. split; [done|]. left.
        exists (dropZ CACHE_BLOCK_SIZE (file_data f)). unfold BLOCK_CRC_TRAILER in Hs.
        rewrite lenZ_takeZ, lenZ_dropZ by done. split_and!; [by rewrite takeZ_dropZ|lia|lia|].
        exact Hc.
      - case_if E as H1; [|case_if E as H2; [|done]]; simplify_eq; (split; [done|right; split; [done|lia]]). }
    split; [done|]. exists f. split_and!; [done|done|]. right. by split.
Qed.

(** Effect of a read on the cache directory.  A hit changes nothing.  A
    miss leaves no file under the name asked for, unless it could not be
    opened, and never touches another file. *)
Theorem read_block_cached_effect fs cpath p :
  let '(fs', r) := read_block_cached fs cpath p in
  match r with
  | Some _ => fs' = fs
  | None => fs' = delete cpath fs \/
            exists f, fs !! cpath = Some f /\ file_readable f = false /\ fs' = fs
  end.
Proof.
  unfold read_block_cached. destruct (fs !! cpath) as [f|] eqn:Hf.
  - case_test; [by left|]. destruct (file_readable f) eqn:Hr; cbn [negb]; [|right; eauto].
    case_test; [|repeat case_test; simpl; auto].
    pose proof (read_new_format_frame fs cpath (file_data f) p) as H.
    unfold hit_or_unlinked in H. destruct (read_new_format _ _ _ _) as [fs' [d|]]; auto.
  - left. by rewrite delete_id.
Qed.

End Claims2.
End Blocks.

(** ** Witnesses on concrete blocks *)
Module BlocksWitness.

Definition hello : bytes := as_bytes "hello".
Definition the_path : string := "dir/file".
Definition hello_block : bytes :=
  match serialize_v3_block the_path hello with Some b => b | None => [] end.

Lemma hello_serialized : serialize_v3_block the_path hello = Some hello_block.
Proof. reflexivity. Qed.

Definition hello_fs (data : bytes) : gmap string file := {[ "blk"%string := mk_file data 7 true ]}.

Lemma v3_roundtrip_witness :
  exists b, serialize_v3_block the_path hello = Some b /\
    let fs' := <["blk"%string := mk_file b 7 true]> (∅ : gmap string file) in
    read_block_cached fs' "blk" the_path = (fs', Some hello).
Proof. apply (Blocks.v3_roundtrip ∅ "blk" the_path hello 7); by vm_compute. Defined.

Lemma v3_collision_unlinked_witness :
  read_block_cached (hello_fs hello_block) "blk" "other" = (delete "blk"%string (hello_fs hello_block), None).
Proof.
  eapply (Blocks.v3_collision_unlinked (hello_fs hello_block) "blk" _ the_path "other" hello hello_block);
    [apply hello_serialized|by vm_compute|done|by vm_compute|done|done].
Defined.

Lemma v3_torn_header_witness :
  read_block_cached (hello_fs (takeZ 5 hello_block)) "blk" the_path =
    (hello_fs (takeZ 5 hello_block), Some (takeZ 5 hello_block)).
Proof.
  eapply (Blocks.v3_torn_header (hello_fs (takeZ 5 hello_block)) "blk" _ the_path the_path hello hello_block 5);
    [apply hello_serialized|by vm_compute|done|done|lia].
Defined.

Lemma read_block_cached_sound_witness :
  exists f, hello_fs hello_block !! "blk"%string = Some f /\
    (Blocks.checked_block the_path (file_data f) hello \/ Blocks.legacy_block (file_data f) hello).
Proof.
  destruct (Blocks.read_block_cached_sound (hello_fs hello_block) "blk" the_path (hello_fs hello_block) hello)
    as (_ & f & Hf & _ & Hd); [by vm_compute|]. by exists f.
Defined.

End BlocksWitness.

(** ** Index and deletion *)
Module BlockIndex.

(** The block files of the given keys. *)
Definition block_names (salt : Z) (ks : list (string * option Z)) : list string :=
  omap (fun '(p, o) => PathHash.disk_cache_block_path salt p <$> o) ks.

Lemma drop_fold salt ks fs index :
  foldl (drop_one salt) (fs, index) ks =
    (foldl (fun m n => delete n m) fs (block_names salt ks),
     foldl (fun m k => delete k m) index ks).
Proof.
  revert fs index. induction ks as [|[p [i|]] ks IH]; intros fs index; [done| |]; apply IH.
Qed.

Lemma block_names_elem salt ks n :
  n ∈ block_names salt ks <->
  exists p idx, (p, Some idx) ∈ ks /\ n = PathHash.disk_cache_block_path salt p idx.
Proof.
  unfold block_names. rewrite list_elem_of_omap. split.
  - intros ([p [i|]] & Hin & E); simplify_eq/=. eauto.
  - intros (p & i & Hin & ->). by exists (p, Some i).
Qed.

Lemma to_remove_elem (index : gmap (string * option Z) (Z * Z)) path k :
  k ∈ List.filter (is_block_key_of path) (map fst (map_to_list index)) <->
  is_Some (index !! k) /\ is_block_key_of path k = true.
Proof.
  rewrite list_elem_of_In, filter_In, <-list_elem_of_In, list_elem_of_fmap. split.
  - intros [([k' v] & -> & Hin) Hb]. apply elem_of_map_to_list in Hin. eauto.
  - intros [[v Hv] Hb]. split; [|done]. exists (k, v). split; [done|]. by apply elem_of_map_to_list.
Qed.

Lemma drop_index salt fs index path k :
  snd (drop_block_cache_for_path salt fs index path) !! k =
    if is_block_key_of path k then None else index !! k.
Proof.
  unfold drop_block_cache_for_path. rewrite drop_fold. cbn [snd]. rewrite lookup_foldl_delete.
  destruct (is_block_key_of path k) eqn:Hb.
  - case_test; [done|]. bool_props. destruct (index !! k) eqn:Ek; [|done].
    destruct Hc. apply to_remove_elem. eauto.
  - rewrite bool_decide_false; [done|]. intros [_ Hk]%to_remove_elem. congruence.
Qed.

Lemma drop_fs salt fs index path n :
  let fs' := fst (drop_block_cache_for_path salt fs index path) in
  (fs' !! n = None /\ exists idx, is_Some (index !! (path, Some idx)) /\
     n = PathHash.disk_cache_block_path salt path idx) \/
  (fs' !! n = fs !! n /\ forall idx, is_Some (index !! (path, Some idx)) ->
     n <> PathHash.disk_cache_block_path salt path idx).
Proof.
  unfold drop_block_cache_for_path. rewrite drop_fold. cbn [fst]. rewrite lookup_foldl_delete.
  case_test; bool_props; [left|right]; (split; [done|]).
  - apply block_names_elem in Hc as (p & idx & Hin & ->). apply to_remove_elem in Hin as [Hs Hb].
    unfold is_block_key_of in Hb. cbn in Hb. rewrite andb_true_r in Hb.
    apply String.eqb_eq in Hb as ->. eauto.
  - intros idx Hs ->. apply Hc. apply block_names_elem. exists path, idx. split; [|done].
    apply to_remove_elem. split; [done|]. unfold is_block_key_of. cbn. by rewrite String.eqb_refl.
Qed.

(** Invalidating a path drops exactly that path's block entries from the
    index and exactly the files of those entries from the directory; the
    write-buffer entry of the path and every other path's entries stay. *)
Theorem drop_block_cache_for_path_spec salt fs index path fs' index' :
  drop_block_cache_for_path salt fs index path = (fs', index') ->
  (forall k, index' !! k = if is_block_key_of path k then None else index !! k) /\
  (forall n, fs' !! n <> fs !! n ->
     exists idx, is_Some (index !! (path, Some idx)) /\
       n = PathHash.disk_cache_block_path salt path idx) /\
  (forall idx, is_Some (index !! (path, Some idx)) ->
     fs' !! PathHash.disk_cache_block_path salt path idx = None).
Proof.
  intros E. pose proof (drop_index salt fs index path) as Hi. pose proof (drop_fs salt fs index path) as Hf.
  rewrite E in Hi, Hf. cbn in Hi, Hf. split; [done|]. split.
  - intros n Hn. destruct (Hf n) as [[_ ?]|[? _]]; done.
  - intros idx Hs. destruct (Hf (PathHash.disk_cache_block_path salt path idx)) as [[? _]|[_ Hno]]; [done|].
    by destruct (Hno idx Hs).
Qed.

Lemma drop_block_cache_for_path_spec_witness :
  let k1 : string * option Z := ("a"%string, Some 1) in
  let index : gmap (string * option Z) (Z * Z) := {[ k1 := (5, 0); ("a"%string, None) := (9, 0) ]} in
  let r := drop_block_cache_for_path 0 ∅ index "a" in
  snd r !! k1 = None /\ snd r !! ("a"%string, None) = Some (9, 0).
Proof.
  intros k1 index r.
  destruct (drop_block_cache_for_path_spec 0 ∅ index "a" (fst r) (snd r)) as (Hi & _);
    [apply surjective_pairing|].
  split; rewrite Hi; reflexivity.
Defined.

(** Deleting by size removes the blocks below the rounded-up block count and
    nothing else. *)
Lemma remove_block_cache_files_spec salt fs path size n :
  0 <= size ->
  remove_block_cache_files salt fs path size !! n = None \/
  (remove_block_cache_files salt fs path size !! n = fs !! n /\
   forall blk, 0 <= blk -> blk * CACHE_BLOCK_SIZE < size ->
     n <> PathHash.disk_cache_block_path salt path blk).
Proof.
  intros Hs. unfold remove_block_cache_files. set (nb := _ / _).
  assert (forall l fs, foldl (fun fs blk => remove_file (PathHash.disk_cache_block_path salt path blk) fs) fs l
    = foldl (fun m n => delete n m) fs (PathHash.disk_cache_block_path salt path <$> l)) as ->.
  { induction l as [|x l IH]; intros g; [done|]. apply IH. }
  rewrite lookup_foldl_delete. case_test; [by left|right]. bool_props. split; [done|].
  intros blk Hb Hlt ->. apply Hc. apply list_elem_of_fmap. exists blk. split; [done|].
  apply elem_of_seqZ. subst nb. unfold CACHE_BLOCK_SIZE in *. lia.
Qed.

(** The start-up scan reads back what the writer put in the file name:
    for every block file of the directory it reports the block's index and its
    on-disk size, and it reports nothing that is not such an entry of the
    directory. *)
Theorem load_cache_index_spec salt dir p idx f :
  0 <= idx <= U64_MAX ->
  ((PathHash.disk_cache_block_path salt p idx, f) ∈ dir ->
   mk_CacheIndexEntry (PathHash.disk_cache_block_path salt p idx) idx
     (lenZ (file_data f)) (file_mtime f) ∈ load_cache_index dir) /\
  (forall e, e ∈ load_cache_index dir ->
     exists g, (cie_name e, g) ∈ dir /\ cie_size e = lenZ (file_data g) /\
       exists rest, cie_name e = rest +:+ ".block").
Proof.
  intros Hidx. unfold load_cache_index. split.
  - intros Hin. apply list_elem_of_omap.
    eexists. split; [exact Hin|]. unfold index_entry_of.
    destruct (PathHash.block_name_split salt p idx) as [-> Hs]. simpl. rewrite Hs. simpl.
    by rewrite Str.from_str_radix_fmt_hex.
  - intros e He. apply list_elem_of_omap in He as ([name g] & Hin & Hg).
    unfold index_entry_of in Hg. destruct (Str.strip_suffix ".block" name) as [rest|] eqn:Es; [|done].
    simpl in Hg. destruct (Str.split "_" rest !! 1%nat) as [bs|]; [|done]. simpl in Hg.
    destruct (Str.from_str_radix 16 bs) as [i|]; [|done]. simplify_eq/=.
    exists g. split; [done|]. split; [done|]. exists rest. by apply Str.strip_suffix_Some.
Qed.

Lemma load_cache_index_spec_witness :
  mk_CacheIndexEntry (PathHash.disk_cache_block_path 0 "a" 3) 3 0 9
    ∈ load_cache_index [(PathHash.disk_cache_block_path 0 "a" 3, mk_file [] 9 true)].
Proof.
  destruct (load_cache_index_spec 0
    [(PathHash.disk_cache_block_path 0 "a" 3, mk_file [] 9 true)] "a" 3 (mk_file [] 9 true))
    as [H _]; [unfold U64_MAX; lia|]. apply H. by left.
Defined.

End BlockIndex.
