(* ===== verification/Utf8.v ===== *)
(** A [str] as its characters: the UTF-8 encoding of a code point, the
    characters of a valid byte sequence ([str::chars]), and that each undoes
    the other. *)
From Stdlib Require Import ZArith Lia Strings.Byte Strings.String Strings.Ascii.
From S2P Require Import Prelude Util BlockFormat.

Module Utf8.

(** A [str] as its characters, and the UTF-8 bytes of a character. *)
Abbreviation chars := (list Z).
Definition scalar (c : Z) : Prop := 0 <= c <= 0xD7FF \/ 0xE000 <= c <= 0x10FFFF.
Definition encode_utf8 (c : Z) : bytes :=
  if c <? 0x80 then [byte_of_Z c]
  else if c <? 0x800 then [byte_of_Z (0xC0 + c / 64); byte_of_Z (0x80 + c mod 64)]
  else if c <? 0x10000 then
    [byte_of_Z (0xE0 + c / 4096); byte_of_Z (0x80 + c / 64 mod 64); byte_of_Z (0x80 + c mod 64)]
  else
    [byte_of_Z (0xF0 + c / 262144); byte_of_Z (0x80 + c / 4096 mod 64);
     byte_of_Z (0x80 + c / 64 mod 64); byte_of_Z (0x80 + c mod 64)].
Definition utf8 (s : chars) : bytes := flat_map encode_utf8 s.

Definition low6 (b : Byte.byte) : Z := Z_of_byte b - 0x80.
Fixpoint chars_of (l : bytes) : chars :=
  match l with
  | [] => []
  | b0 :: l1 =>
      if Z_of_byte b0 <? 0x80 then Z_of_byte b0 :: chars_of l1
      else match l1 with
      | [] => []
      | b1 :: l2 =>
          if Z_of_byte b0 <? 0xE0 then ((Z_of_byte b0 - 0xC0) * 64 + low6 b1) :: chars_of l2
          else match l2 with
          | [] => []
          | b2 :: l3 =>
              if Z_of_byte b0 <? 0xF0
              then ((Z_of_byte b0 - 0xE0) * 4096 + low6 b1 * 64 + low6 b2) :: chars_of l3
              else match l3 with
              | [] => []
              | b3 :: l4 =>
                  ((Z_of_byte b0 - 0xF0) * 262144 + low6 b1 * 4096 + low6 b2 * 64 + low6 b3) :: chars_of l4
              end
          end
      end
  end.
Definition str_chars (s : string) : chars := chars_of (as_bytes s).

Lemma in_range_in lo hi z : 0 <= z < 256 -> lo <= z <= hi -> in_range lo hi (byte_of_Z z) = true.
Proof. intros. unfold in_range. rewrite Z_of_byte_of_Z, Z.mod_small by lia. lia. Qed.

Lemma in_range_out lo hi z : 0 <= z < 256 -> z < lo \/ hi < z -> in_range lo hi (byte_of_Z z) = false.
Proof. intros. unfold in_range. rewrite Z_of_byte_of_Z, Z.mod_small by lia. lia. Qed.

Ltac ranges := repeat first [rewrite in_range_in by lia | rewrite in_range_out by lia].

Lemma encode_utf8_valid c l : scalar c -> utf8_valid (encode_utf8 c ++ l) = utf8_valid l.
Proof.
  intros Hc. unfold scalar in Hc. unfold encode_utf8.
  case_test; bool_props; [cbn [app utf8_valid]; by ranges|].
  case_test; bool_props; [cbn [app utf8_valid]; by ranges|].
  case_test; bool_props; cbn [app utf8_valid].
  - ranges. destruct (decide (c / 4096 = 0)); [by ranges|].
    destruct (decide (c / 4096 = 13)); by ranges.
  - ranges. destruct (decide (c / 262144 = 0)); [by ranges|].
    destruct (decide (c / 262144 = 4)); by ranges.
Qed.

Lemma utf8_is_valid s : Forall scalar s -> utf8_valid (utf8 s) = true.
Proof.
  induction 1 as [|c s Hc Hs IH]; [done|]. cbn [utf8 flat_map]. by rewrite encode_utf8_valid.
Qed.

Lemma chars_of_encode c l : scalar c -> chars_of (encode_utf8 c ++ l) = c :: chars_of l.
Proof.
  intros Hc. unfold scalar in Hc. unfold encode_utf8.
  case_test; bool_props; [|case_test; bool_props; [|case_test; bool_props]]; cbn [app chars_of]; unfold low6;
    rewrite !Z_of_byte_of_Z, !Z.mod_small by lia; repeat (case_test; bool_props); try lia; f_equal; lia.
Qed.

(** Encoding and reading back gives the characters. *)
Lemma chars_of_utf8 s : Forall scalar s -> chars_of (utf8 s) = s.
Proof.
  induction 1 as [|c s Hc Hs IH]; [done|]. cbn [utf8 flat_map]. rewrite chars_of_encode by done. by f_equal.
Qed.

End Utf8.
