(* ===== verification/MemLimiter.v ===== *)
(** * MemLimiter: src/src/mem_limiter.rs

    The process-wide memory budget.  [Limiter] has the operations of the
    code run by one thread; [Interleaved] runs any number of threads whose
    atomic steps (the load, the compare-exchange, the per-label update)
    interleave arbitrarily. *)

From Stdlib Require Import ZArith Lia Strings.String.
From S2P Require Import Prelude.

Module Limiter.

Record MemoryLimiter := mk_MemoryLimiter {
  cap : Z;
  used : Z;
  by_label : gmap string Z
}.

Definition new (cap : Z) : MemoryLimiter := mk_MemoryLimiter cap 0 ∅.

Definition current (m : MemoryLimiter) (label : string) : Z := default 0 (by_label m !! label).

(** [record]: [or_insert_with] a zero allocation, then [fetch_add] or a
    saturating subtraction. *)
Definition record (m : MemoryLimiter) (label : string) (delta : Z) : MemoryLimiter :=
  let bytes := current m label in
  let bytes' := if 0 <=? delta then wrap64 (bytes + wrap64 delta)
                else saturating_sub bytes (wrap64 (wrap_i64 (- delta))) in
  mk_MemoryLimiter (cap m) (used m) (<[label := bytes']> (by_label m)).

Definition set_used (m : MemoryLimiter) (u : Z) : MemoryLimiter :=
  mk_MemoryLimiter (cap m) u (by_label m).

(** One iteration of the CAS loop, given the value [load]ed. *)
Inductive cas_result := CasErr | CasOk (m : MemoryLimiter) | CasRetry.
Definition cas_iter (m : MemoryLimiter) (n cur : Z) : cas_result :=
  let new := saturating_add cur n in
  if cap m <? new then CasErr
  else if used m =? cur then CasOk (set_used m new)
  else CasRetry.

(** [try_reserve] run without interference: the first compare-exchange
    succeeds. *)
Definition try_reserve (m : MemoryLimiter) (label : string) (n : Z) : result MemoryLimiter string :=
  if cap m =? 0 then
    let safe := Z.min n I64_MAX in
    Ok (record (set_used m (wrap64 (used m + safe))) label safe)
  else
    match cas_iter m n (used m) with
    | CasOk m' => Ok (record m' label (Z.min n I64_MAX))
    | _ => Err "memory cap exceeded"%string
    end.

(** The [used] half of [release]. *)
Definition release_used (m : MemoryLimiter) (n : Z) : MemoryLimiter :=
  set_used m (saturating_sub (used m) n).
(** [-(n as i64)]. *)
Definition neg_delta (n : Z) : Z := wrap_i64 (- as_i64 n).
Definition release (m : MemoryLimiter) (label : string) (n : Z) : MemoryLimiter :=
  record (release_used m n) label (neg_delta n).

Definition release_if_reserved (m : MemoryLimiter) (label : string) (n : Z) : MemoryLimiter * bool :=
  match by_label m !! label with
  | None => (m, false)
  | Some bytes =>
      if bytes <? n then (m, false)
      else
        let m1 := mk_MemoryLimiter (cap m) (used m) (<[label := bytes - n]> (by_label m)) in
        (release_used m1 n, true)
  end.

Definition remaining (m : MemoryLimiter) : Z := saturating_sub (cap m) (used m).

Lemma current_set_used m u label : current (set_used m u) label = current m label.
Proof. done. Qed.

Lemma as_i64_small n : 0 <= n <= I64_MAX -> as_i64 n = n.
Proof.
  intros H. unfold as_i64, I64_MAX in *. rewrite Z.mod_small by lia.
  case_test; bool_props; lia.
Qed.

Lemma neg_delta_small n : 0 <= n <= I64_MAX -> neg_delta n = - n.
Proof.
  intros H. unfold neg_delta. rewrite (as_i64_small n H). unfold wrap_i64, as_i64, I64_MAX in *.
  destruct (decide (n = 0)) as [->|]; [done|].
  assert (- n mod 2 ^ 64 = 2 ^ 64 - n) as -> by lia. case_test; bool_props; lia.
Qed.

(** The per-label effect of a record for amounts an [i64] holds. *)
Lemma record_add m label n : 0 <= n <= I64_MAX -> 0 <= current m label -> current m label + n <= U64_MAX ->
  record m label n = mk_MemoryLimiter (cap m) (used m) (<[label := current m label + n]> (by_label m)).
Proof.
  intros Hn Hc Hs. unfold record. case_test; bool_props; [|lia].
  by rewrite (wrap64_small n), wrap64_small by (unfold is_u64, U64_MAX, I64_MAX in *; lia).
Qed.

Lemma record_sub m label n : 0 <= n <= I64_MAX -> n <= current m label <= U64_MAX ->
  record m label (neg_delta n) =
    mk_MemoryLimiter (cap m) (used m) (<[label := current m label - n]> (by_label m)).
Proof.
  intros Hn Hc. rewrite neg_delta_small by done. unfold record. f_equal. f_equal.
  case_test; bool_props.
  - assert (n = 0) as -> by lia. simpl. rewrite Z.add_0_r, wrap64_small; [lia|].
    unfold is_u64. lia.
  - rewrite Z.opp_involutive. unfold wrap_i64. rewrite as_i64_small by done.
    rewrite wrap64_small by (unfold is_u64, U64_MAX, I64_MAX in *; lia).
    unfold saturating_sub. lia.
Qed.

(** Outcome of a reservation on every branch, for a capped limiter.  It is
    refused exactly when it does not fit, and otherwise raises the total and
    the label by exactly the amount; a following release restores both. *)
Theorem try_reserve_spec m label n :
  0 < cap m <= I64_MAX -> 0 <= used m <= cap m -> 0 <= n <= U64_MAX ->
  0 <= current m label <= used m ->
  if cap m <? used m + n then try_reserve m label n = Err "memory cap exceeded"%string
  else exists m', try_reserve m label n = Ok m' /\
    used m' = used m + n /\ current m' label = current m label + n /\
    used (release m' label n) = used m /\
    current (release m' label n) label = current m label /\
    release_if_reserved m' label n = (release m' label n, true).
Proof.
  intros Hcap Hu Hn Hl. unfold try_reserve.
  replace (cap m =? 0) with false by (symmetry; apply Z.eqb_neq; lia).
  unfold cas_iter, saturating_add. unfold U64_MAX, I64_MAX in *.
  destruct (Z.ltb_spec (cap m) (used m + n)).
  - replace (cap m <? _) with true by (symmetry; apply Z.ltb_lt; lia). done.
  - replace (cap m <? _) with false by (symmetry; apply Z.ltb_ge; lia).
    rewrite Z.eqb_refl, !Z.min_l by lia. eexists. split; [done|].
    rewrite record_add by (rewrite ?current_set_used; unfold I64_MAX, U64_MAX; lia).
    rewrite current_set_used. cbn [set_used cap used by_label].
    assert (Ec : forall a b, current (mk_MemoryLimiter a b (<[label := current m label + n]> (by_label m))) label
      = current m label + n) by (intros; unfold current; cbn; by rewrite lookup_insert_eq).
    split; [done|]. split; [apply Ec|].
    unfold release, release_used, set_used. cbn [used cap by_label].
    rewrite record_sub; [|unfold I64_MAX; lia|rewrite Ec; unfold U64_MAX; lia].
    cbn [used cap by_label].
    split; [unfold saturating_sub; lia|]. rewrite Ec. split.
    + unfold current. cbn. rewrite lookup_insert_eq. cbn. lia.
    + unfold release_if_reserved. cbn [by_label used cap]. rewrite lookup_insert_eq.
      case_test; bool_props; [lia|]. done.
Qed.

Lemma try_reserve_spec_witness :
  exists m', try_reserve (new 100) "prefetch" 60 = Ok m' /\
    used m' = 0 + 60 /\ current m' "prefetch" = 0 + 60 /\
    used (release m' "prefetch" 60) = 0 /\ current (release m' "prefetch" 60) "prefetch" = 0 /\
    release_if_reserved m' "prefetch" 60 = (release m' "prefetch" 60, true).
Proof. apply (try_reserve_spec (new 100) "prefetch" 60); by vm_compute. Defined.

(** A release of more than [i64::MAX] bytes flips sign on its way to the
    label: the total shrinks while the label's bytes grow. *)
Theorem release_large_grows_label m label n :
  I64_MAX + 1 < n <= U64_MAX -> current m label = 0 ->
  used (release m label n) = saturating_sub (used m) n /\
  current (release m label n) label = 2 ^ 64 - n.
Proof.
  intros Hn Hc. split; [done|]. unfold release, current, record. cbn [by_label].
  rewrite lookup_insert_eq. cbn [default from_option].
  assert (neg_delta n = 2 ^ 64 - n) as ->.
  { unfold neg_delta, wrap_i64, as_i64, I64_MAX, U64_MAX in *.
    rewrite (Z.mod_small n) by lia. destruct (Z.leb_spec n (2 ^ 63 - 1)); [lia|].
    rewrite Z.mod_small by lia. case_test; bool_props; lia. }
  unfold current in *. cbn. unfold U64_MAX, I64_MAX in *.
  destruct (Z.leb_spec 0 (2 ^ 64 - n)); [|lia].
  cbn in *. rewrite Hc. unfold wrap64. rewrite !Z.mod_small; lia.
Qed.

Lemma release_large_grows_label_witness :
  used (release (new 100) "x" (2 ^ 63 + 5)) = 0 /\
  current (release (new 100) "x" (2 ^ 63 + 5)) "x" = 2 ^ 64 - (2 ^ 63 + 5).
Proof. apply (release_large_grows_label (new 100) "x" (2 ^ 63 + 5)); by vm_compute. Defined.

End Limiter.

(** ** Interleavings

    A thread is between operations or inside one; every constructor of
    [step] is one atomic access of the code.  [held] is ghost state: the
    reservations that have returned [Ok] and have not been released. *)
Module Interleaved.
Import Limiter.

Inductive pc :=
| Idle
| Loaded (label : string) (n cur : Z)   (* try_reserve: after [used.load] *)
| AddLabel (label : string) (n : Z)     (* try_reserve: exchange done, before [record] *)
| SubLabel (label : string) (n : Z)     (* release: [used] lowered, before [record] *)
| SubUsed (label : string) (n : Z).     (* release_if_reserved: label lowered *)

Record state := mk_state {
  lim : MemoryLimiter;
  pcs : list pc;
  held : list (string * Z)
}.

Inductive step : state -> state -> Prop :=
| step_load m ts h i label n :
    ts !! i = Some Idle -> 0 <= n <= U64_MAX ->
    step (mk_state m ts h) (mk_state m (<[i := Loaded label n (used m)]> ts) h)
| step_refuse m ts h i label n cur :
    ts !! i = Some (Loaded label n cur) -> cas_iter m n cur = CasErr ->
    step (mk_state m ts h) (mk_state m (<[i := Idle]> ts) h)
| step_exchange m m' ts h i label n cur :
    ts !! i = Some (Loaded label n cur) -> cas_iter m n cur = CasOk m' ->
    step (mk_state m ts h) (mk_state m' (<[i := AddLabel label n]> ts) h)
| step_retry m ts h i label n cur :
    ts !! i = Some (Loaded label n cur) -> cas_iter m n cur = CasRetry ->
    step (mk_state m ts h) (mk_state m (<[i := Loaded label n (used m)]> ts) h)
| step_add_label m ts h i label n :
    ts !! i = Some (AddLabel label n) ->
    step (mk_state m ts h)
      (mk_state (record m label (Z.min n I64_MAX)) (<[i := Idle]> ts) ((label, n) :: h))
| step_release m ts h h' i label n :
    ts !! i = Some Idle -> h ≡ₚ (label, n) :: h' ->
    step (mk_state m ts h) (mk_state (release_used m n) (<[i := SubLabel label n]> ts) h')
| step_sub_label m ts h i label n :
    ts !! i = Some (SubLabel label n) ->
    step (mk_state m ts h) (mk_state (record m label (neg_delta n)) (<[i := Idle]> ts) h)
| step_release_if m ts h h' i label n bytes :
    ts !! i = Some Idle -> h ≡ₚ (label, n) :: h' ->
    by_label m !! label = Some bytes -> n <= bytes ->
    step (mk_state m ts h)
      (mk_state (mk_MemoryLimiter (cap m) (used m) (<[label := bytes - n]> (by_label m)))
        (<[i := SubUsed label n]> ts) h')
| step_sub_used m ts h i label n :
    ts !! i = Some (SubUsed label n) ->
    step (mk_state m ts h) (mk_state (release_used m n) (<[i := Idle]> ts) h).

Definition init (cap : Z) (threads : nat) : state :=
  mk_state (new cap) (replicate threads Idle) [].

(** Bytes a thread in the middle of an operation accounts for. *)
Definition pc_used (p : pc) : Z :=
  match p with AddLabel _ n | SubUsed _ n => n | _ => 0 end.
Definition pc_label (label : string) (p : pc) : Z :=
  match p with SubLabel l n => if bool_decide (l = label) then n else 0 | _ => 0 end.
Definition held_label (label : string) (r : string * Z) : Z :=
  if bool_decide (fst r = label) then snd r else 0.

Definition pc_ok (c : Z) (p : pc) : Prop :=
  match p with
  | Idle => True
  | Loaded _ n cur => 0 <= n <= U64_MAX /\ 0 <= cur
  | AddLabel _ n | SubLabel _ n | SubUsed _ n => 0 <= n <= c
  end.

Record inv (c : Z) (threads : nat) (s : state) : Prop := {
  inv_cap : cap (lim s) = c;
  inv_threads : length (pcs s) = threads;
  inv_pcs : Forall (pc_ok c) (pcs s);
  inv_held : Forall (fun r => 0 <= snd r) (held s);
  inv_used : used (lim s) = sumZ (snd <$> held s) + sumZ (pc_used <$> pcs s);
  inv_le : used (lim s) <= c;
  inv_label : forall l, current (lim s) l =
    sumZ (held_label l <$> held s) + sumZ (pc_label l <$> pcs s)
}.

(** The counters are wide enough for every thread to have one operation on the
    whole budget in flight. *)
Definition budget_ok (c : Z) (threads : nat) : Prop :=
  0 < c <= I64_MAX /\ c * (2 + Z.of_nat threads) <= U64_MAX.

Lemma pc_used_nonneg c p : pc_ok c p -> 0 <= pc_used p.
Proof. destruct p; cbn; lia. Qed.

Lemma pc_label_range c l p : 0 <= c -> pc_ok c p -> 0 <= pc_label l p <= c.
Proof. intros Hc. destruct p; cbn; repeat case_test; lia. Qed.

Lemma held_label_le l h : Forall (fun r : string * Z => 0 <= snd r) h ->
  0 <= sumZ (held_label l <$> h) <= sumZ (snd <$> h).
Proof.
  unfold held_label. induction 1 as [|r h Hr _ IH]; cbn [fmap list_fmap sumZ]; [lia|].
  case_test; lia.
Qed.

Section Preservation.
Context (c : Z) (threads : nat) (Hb : budget_ok c threads).

Lemma inv_current_range s l : inv c threads s -> 0 <= current (lim s) l <= U64_MAX - c.
Proof.
  intros [Hcap Ht Hp Hh Hu Hle Hl]. rewrite Hl. pose proof (held_label_le l _ Hh).
  destruct Hb as [Hc0 Hc].
  assert (sumZ (pc_label l <$> pcs s) <= c * lenZ (pcs s)).
  { apply sumZ_fmap_le. eapply Forall_impl; [exact Hp|]. intros p Hok.
    apply (pc_label_range c l p); [lia|done]. }
  assert (0 <= sumZ (pc_label l <$> pcs s)).
  { apply sumZ_fmap_nonneg. eapply Forall_impl; [exact Hp|]. intros p Hok.
    apply (pc_label_range c l p); [lia|done]. }
  assert (0 <= sumZ (pc_used <$> pcs s)).
  { apply sumZ_fmap_nonneg. eapply Forall_impl; [exact Hp|]. intros p. apply pc_used_nonneg. }
  unfold lenZ in *. rewrite Ht in *. nia.
Qed.

(** One thread moves from [p] to [p']: what has to balance. *)
Lemma inv_update m ts h i p m' p' h' :
  inv c threads (mk_state m ts h) -> ts !! i = Some p ->
  cap m' = cap m -> pc_ok c p' -> Forall (fun r => 0 <= snd r) h' ->
  used m' - used m = sumZ (snd <$> h') - sumZ (snd <$> h) + (pc_used p' - pc_used p) ->
  used m' <= c ->
  (forall l, current m' l - current m l =
     sumZ (held_label l <$> h') - sumZ (held_label l <$> h) + (pc_label l p' - pc_label l p)) ->
  inv c threads (mk_state m' (<[i := p']> ts) h').
Proof.
  intros [Hcap Ht Hp Hh Hu Hle Hl] Hi Ec Hok Hh' Eu Hle' El. cbn in *. split; cbn.
  - congruence.
  - by rewrite length_insert.
  - by apply Forall_insert.
  - done.
  - rewrite (sumZ_fmap_insert _ _ _ _ _ Hi). lia.
  - done.
  - intros l. specialize (El l). specialize (Hl l). rewrite (sumZ_fmap_insert _ _ _ _ _ Hi). lia.
Qed.

Lemma held_perm l h h' label n : h ≡ₚ (label, n) :: h' ->
  sumZ (snd <$> h) = n + sumZ (snd <$> h') /\
  sumZ (held_label l <$> h) = held_label l (label, n) + sumZ (held_label l <$> h').
Proof. intros HP. split; by rewrite HP. Qed.

Lemma held_entry m ts h h' label n : inv c threads (mk_state m ts h) -> h ≡ₚ (label, n) :: h' ->
  0 <= n <= c /\ Forall (fun r => 0 <= snd r) h' /\ n <= used m /\ n <= current m label.
Proof.
  intros [Hcap Ht Hp Hh Hu Hle Hl] HP. cbn in *. rewrite HP in Hh. inversion Hh as [|? ? Hn Hh']; subst. cbn in Hn.
  destruct (held_perm label h h' label n HP) as [E1 E2].
  pose proof (held_label_le label h' Hh').
  assert (0 <= sumZ (pc_used <$> ts)).
  { apply sumZ_fmap_nonneg. eapply Forall_impl; [exact Hp|]. intros p. apply pc_used_nonneg. }
  assert (0 <= sumZ (pc_label label <$> ts)).
  { apply sumZ_fmap_nonneg. eapply Forall_impl; [exact Hp|]. intros p Hok.
    destruct Hb as [? _]. eapply (pc_label_range _ label p); [|exact Hok]. lia. }
  unfold held_label at 2 in E2. cbn [fst snd] in E2. rewrite bool_decide_true in E2 by done.
  specialize (Hl label). split; [lia|]. split; [done|]. lia.
Qed.

(** The per-label view of a map with one label changed. *)
Lemma current_insert a b m label v l :
  current (mk_MemoryLimiter a b (<[label := v]> (by_label m))) l =
    if bool_decide (label = l) then v else current m l.
Proof.
  unfold current. cbn [by_label]. case_test; bool_props; subst.
  - by rewrite lookup_insert_eq.
  - by rewrite lookup_insert_ne.
Qed.

Lemma cas_ok m n cur m' : cap m = c -> 0 <= cur -> 0 <= n -> cas_iter m n cur = CasOk m' ->
  m' = set_used m (used m + n) /\ used m + n <= c.
Proof.
  intros Hc Hcur Hn E. destruct Hb as [? _]. unfold cas_iter in E.
  case_if E as Hcap; [done|]. case_if E as Heq; [|done].
  unfold saturating_add, U64_MAX, I64_MAX in *. injection E as <-.
  rewrite Z.min_l in * by lia. subst cur. split; [done|lia].
Qed.

(** An operation in flight is covered by the counter it will lower. *)
Lemma in_flight m ts h i p : inv c threads (mk_state m ts h) -> ts !! i = Some p ->
  pc_used p <= used m <= c /\ 0 <= used m /\ cap m = c /\ pc_ok c p /\
  forall l, pc_label l p <= current m l.
Proof.
  intros [Hcap Ht Hp Hh Hu Hle Hl] Hi. destruct Hb as [? _]. cbn in *.
  assert (Forall (fun p => 0 <= pc_used p) ts)
    by (eapply Forall_impl; [exact Hp|]; intros q; apply pc_used_nonneg).
  pose proof (sumZ_fmap_elem pc_used ts i p ltac:(done) Hi).
  pose proof (sumZ_fmap_nonneg pc_used ts ltac:(done)).
  pose proof (held_label_le EmptyString h Hh).
  split; [lia|]. split; [lia|]. split; [done|]. split; [by eapply Forall_lookup_1|].
  intros l. pose proof (held_label_le l h Hh). rewrite Hl.
  assert (Forall (fun p => 0 <= pc_label l p) ts).
  { eapply Forall_impl; [exact Hp|]. intros q Hq. eapply (pc_label_range c l q); [lia|done]. }
  pose proof (sumZ_fmap_elem (pc_label l) ts i p ltac:(done) Hi). lia.
Qed.

Lemma held_label_cons l label n h :
  sumZ (held_label l <$> (label, n) :: h) =
    (if bool_decide (label = l) then n else 0) + sumZ (held_label l <$> h).
Proof. done. Qed.

Lemma add_label_inv m ts h i label n : inv c threads (mk_state m ts h) ->
  ts !! i = Some (AddLabel label n) ->
  inv c threads (mk_state (record m label (Z.min n I64_MAX)) (<[i := Idle]> ts) ((label, n) :: h)).
Proof.
  intros HI Hi. destruct (in_flight _ _ _ _ _ HI Hi) as (Hu & ? & Hcap & Hok & _). cbn in Hu, Hok.
  pose proof (inv_current_range _ label HI) as Hcur. cbn in Hcur.
  destruct Hb as [? _]. rewrite Z.min_l, record_add by (unfold I64_MAX, U64_MAX in *; lia).
  eapply inv_update; [exact HI|exact Hi|..]; cbn [cap used pc_ok pc_used pc_label]; try done.
  - constructor; [cbn; lia|]. apply (inv_held _ _ _ HI).
  - cbn [fmap list_fmap sumZ snd]. lia.
  - lia.
  - intros l. rewrite held_label_cons, current_insert. case_test; bool_props; subst; lia.
Qed.

Lemma sub_label_inv m ts h i label n : inv c threads (mk_state m ts h) ->
  ts !! i = Some (SubLabel label n) ->
  inv c threads (mk_state (record m label (neg_delta n)) (<[i := Idle]> ts) h).
Proof.
  intros HI Hi. destruct (in_flight _ _ _ _ _ HI Hi) as (Hu & ? & Hcap & Hok & Hl). cbn in Hu, Hok.
  pose proof (inv_current_range _ label HI) as Hcur. cbn in Hcur.
  specialize (Hl label). cbn [pc_label] in Hl. rewrite bool_decide_true in Hl by done.
  destruct Hb as [? _]. rewrite record_sub by (unfold I64_MAX, U64_MAX in *; lia).
  eapply inv_update; [exact HI|exact Hi|..]; cbn [cap used pc_ok pc_used pc_label]; try done; try lia.
  - apply (inv_held _ _ _ HI).
  - intros l. rewrite current_insert. case_test; bool_props; subst; lia.
Qed.

Lemma release_inv m ts h h' i label n : inv c threads (mk_state m ts h) ->
  ts !! i = Some Idle -> h ≡ₚ (label, n) :: h' ->
  inv c threads (mk_state (release_used m n) (<[i := SubLabel label n]> ts) h').
Proof.
  intros HI Hi HP. destruct (held_entry _ _ _ _ _ _ HI HP) as (Hn & Hh' & Hu & _).
  pose proof (inv_le _ _ _ HI) as Hle. cbn in Hle.
  eapply inv_update; [exact HI|exact Hi|..]; cbn [pc_ok pc_used pc_label]; try done.
  - unfold release_used, saturating_sub. cbn. destruct (held_perm label _ _ _ _ HP). lia.
  - unfold release_used, saturating_sub. cbn. lia.
  - intros l. change (current (release_used m n) l) with (current m l).
    destruct (held_perm l _ _ _ _ HP) as [_ ->]. unfold held_label at 2. cbn [fst snd]. lia.
Qed.

Lemma release_if_inv m ts h h' i label n bytes : inv c threads (mk_state m ts h) ->
  ts !! i = Some Idle -> h ≡ₚ (label, n) :: h' -> by_label m !! label = Some bytes ->
  inv c threads (mk_state (mk_MemoryLimiter (cap m) (used m) (<[label := bytes - n]> (by_label m)))
    (<[i := SubUsed label n]> ts) h').
Proof.
  intros HI Hi HP Hbl. destruct (held_entry _ _ _ _ _ _ HI HP) as (Hn & Hh' & Hu & _).
  pose proof (inv_le _ _ _ HI) as Hle. cbn in Hle.
  assert (current m label = bytes) as Hcur by (unfold current; by rewrite Hbl).
  eapply inv_update; [exact HI|exact Hi|..]; cbn [cap used pc_ok pc_used pc_label]; try done.
  - destruct (held_perm label _ _ _ _ HP). lia.
  - intros l. rewrite current_insert. destruct (held_perm l _ _ _ _ HP) as [_ ->].
    unfold held_label at 2. cbn [fst snd]. case_test; bool_props; subst; lia.
Qed.

Lemma step_inv s s' : inv c threads s -> step s s' -> inv c threads s'.
Proof.
  intros HI Hs. destruct Hs as [m ts h i label n Hi Hn|m ts h i label n cur Hi Hcas
    |m m' ts h i label n cur Hi Hcas|m ts h i label n cur Hi Hcas| | | | |m ts h i label n Hi];
    eauto using add_label_inv, sub_label_inv, release_inv, release_if_inv;
    destruct (in_flight _ _ _ _ _ HI Hi) as (Hu & ? & Hcap & Hok & Hl); cbn in Hu, Hok;
    pose proof (inv_held _ _ _ HI) as Hh.
  3: destruct (cas_ok m n cur m') as [-> Hle]; [tauto..|].
  all: eapply inv_update; [exact HI|exact Hi|..];
    cbn [pc_ok pc_used pc_label cap used set_used release_used]; try done; try lia.
  all: try (intros; rewrite ?current_set_used; unfold saturating_sub; lia).
  intros l. change (current (release_used m n) l) with (current m l). lia.
Qed.

Lemma sum_idle (f : pc -> Z) ts : f Idle = 0 -> Forall (fun p => p = Idle) ts -> sumZ (f <$> ts) = 0.
Proof. intros Hf. induction 1 as [|p ts -> _ IH]; [done|]. cbn. rewrite Hf. exact IH. Qed.

Lemma init_inv : inv c threads (init c threads).
Proof.
  assert (Forall (fun p => p = Idle) (replicate threads Idle)) by (by apply Forall_replicate).
  split; cbn; try done.
  - by rewrite length_replicate.
  - by apply Forall_replicate.
  - by rewrite sum_idle.
  - destruct Hb. lia.
  - intros l. by rewrite sum_idle.
Qed.

End Preservation.

(** C14: the budget under concurrency.  Whatever the interleaving of any number
    of threads that reserve, release and retry, the total never exceeds the
    cap, and it always equals the reservations held plus those whose
    operation is still in flight; with no operation in flight, the total and
    every label are exactly what is held. *)
Theorem limiter_exact c threads s :
  budget_ok c threads -> rtc step (init c threads) s ->
  used (lim s) <= c /\
  used (lim s) = sumZ (snd <$> held s) + sumZ (pc_used <$> pcs s) /\
  (Forall (fun p => p = Idle) (pcs s) ->
     used (lim s) = sumZ (snd <$> held s) /\
     remaining (lim s) = c - sumZ (snd <$> held s) /\
     forall l, current (lim s) l = sumZ (held_label l <$> held s)).
Proof.
  intros Hb Hr. assert (inv c threads s) as [Hcap Ht Hp Hh Hu Hle Hl].
  { eapply rtc_invariant; [by apply init_inv|intros; by eapply step_inv|exact Hr]. }
  split; [done|]. split; [done|]. intros HI.
  rewrite (sum_idle pc_used _ eq_refl HI) in Hu. split; [lia|]. split.
  - unfold remaining, saturating_sub. lia.
  - intros l. rewrite Hl, (sum_idle (pc_label l) _ eq_refl HI). lia.
Qed.

(** Two threads, the first of which loses a race and retries. *)
Lemma limiter_exact_witness :
  exists s, rtc step (init 100 2) s /\ held s = [("a"%string, 30); ("b"%string, 40)] /\
    used (lim s) <= 100 /\ used (lim s) = 70.
Proof.
  pose (m1 := set_used (new 100) 40). pose (m2 := record m1 "b" 40).
  pose (m3 := set_used m2 70). pose (m4 := record m3 "a" 30).
  pose (s := mk_state m4 [Idle; Idle] [("a"%string, 30); ("b"%string, 40)]).
  assert (Hr : rtc step (init 100 2) s).
  { eapply rtc_l; [apply (step_load (new 100) [Idle; Idle] [] 0%nat "a" 30); by vm_compute|].
    eapply rtc_l; [apply (step_load _ [Loaded "a" 30 0; Idle] [] 1%nat "b" 40); by vm_compute|].
    eapply rtc_l; [apply (step_exchange _ m1 [Loaded "a" 30 0; Loaded "b" 40 0] [] 1%nat "b" 40 0); by vm_compute|].
    eapply rtc_l; [apply (step_add_label m1 [Loaded "a" 30 0; AddLabel "b" 40] [] 1%nat "b" 40); by vm_compute|].
    eapply rtc_l; [apply (step_retry m2 [Loaded "a" 30 0; Idle] _ 0%nat "a" 30 0); by vm_compute|].
    eapply rtc_l; [apply (step_exchange m2 m3 [Loaded "a" 30 40; Idle] _ 0%nat "a" 30 40); by vm_compute|].
    eapply rtc_l; [apply (step_add_label m3 [AddLabel "a" 30; Idle] _ 0%nat "a" 30); by vm_compute|].
    apply rtc_refl. }
  exists s. split; [exact Hr|]. split; [reflexivity|].
  destruct (limiter_exact 100 2 s) as (Hle & _ & Hq); [by vm_compute|exact Hr|].
  split; [exact Hle|]. destruct Hq as [Hq _]; [by repeat constructor|]. exact Hq.
Defined.

End Interleaved.
