(* ===== verification/Backpressure.v ===== *)
(** * Backpressure: src/src/backpressure.rs

    The adaptive prefetch window.  The rates are IEEE-754 doubles, computed
    with the executable specification of binary64 arithmetic of the Standard
    Library. *)

From Stdlib Require Import ZArith Lia Floats.SpecFloat.
From S2P Require Import Prelude.

(** ** binary64 *)
Module F64.

Definition prec : Z := 53.
Definition emax : Z := 1024.
Definition add := SFadd prec emax.
Definition mul := SFmul prec emax.
Definition div := SFdiv prec emax.
(** [x as f64] for an unsigned integer. *)
Definition of_u64 (x : Z) : spec_float := binary_normalize prec emax x 0 false.
(** [x as u64]: truncation, saturating; NaN is 0. *)
Definition to_u64 (f : spec_float) : Z :=
  match f with
  | S754_nan | S754_zero _ => 0
  | S754_infinity s => if s then 0 else U64_MAX
  | S754_finite s m e =>
      if s then 0
      else Z.min U64_MAX (if 0 <=? e then Z.pos m * 2 ^ e else Z.pos m / 2 ^ (- e))
  end.
(** [f64::min] and [f64::max]: a NaN operand yields the other one. *)
Definition min (x y : spec_float) : spec_float :=
  match SFcompare x y with
  | Some Lt | Some Eq => x
  | Some Gt => y
  | None => match x with S754_nan => y | _ => x end
  end.
Definition max (x y : spec_float) : spec_float :=
  match SFcompare x y with
  | Some Gt | Some Eq => x
  | Some Lt => y
  | None => match x with S754_nan => y | _ => x end
  end.

Definition zero : spec_float := S754_zero false.
Definition one : spec_float := of_u64 1.
Definition half : spec_float := S754_finite false 4503599627370496 (-53).
Definition one_and_half : spec_float := S754_finite false 6755399441055744 (-52).
Definition c0_7 : spec_float := S754_finite false 6305039478318694 (-53).
Definition c0_3 : spec_float := S754_finite false 5404319552844595 (-54).

End F64.

Module Controller.

Record Inner := mk_Inner {
  consume_rate : spec_float;
  fetch_rate : spec_float;
  window : Z;
  min_window : Z;
  max_window : Z;
  mem_pressure : bool
}.

(** [std::time::Duration] and [as_secs_f64]. *)
Record Duration := mk_Duration { secs : Z; nanos : Z }.
Definition as_secs_f64 (d : Duration) : spec_float :=
  F64.add (F64.of_u64 (secs d)) (F64.div (F64.of_u64 (nanos d)) (F64.of_u64 1000000000)).

(** [with_window]: the [assert!] fails as [None]. *)
Definition with_window (min max : Z) : option Inner :=
  if min <=? max then Some (mk_Inner F64.zero F64.zero min min max false) else None.
Definition new : option Inner := with_window (128 * 1024) (64 * 1024 * 1024).

(** [compute_window]; [None] is the panic of [clamp]. *)
Definition compute_window (i : Inner) : option Z :=
  if mem_pressure i then Some (min_window i)
  else if SFleb (fetch_rate i) F64.zero || SFleb (consume_rate i) F64.zero then Some (window i)
  else
    let ratio := F64.div (consume_rate i) (fetch_rate i) in
    let new :=
      if SFltb F64.one ratio then
        F64.to_u64 (F64.min (F64.mul (F64.of_u64 (window i)) F64.one_and_half)
          (F64.of_u64 (max_window i)))
      else if SFltb ratio F64.half then
        F64.to_u64 (F64.max (F64.mul (F64.of_u64 (window i)) F64.half)
          (F64.of_u64 (min_window i)))
      else window i in
    clamp new (min_window i) (max_window i).

Definition ema (old rate : spec_float) : spec_float :=
  F64.add (F64.mul old F64.c0_7) (F64.mul rate F64.c0_3).

Definition set_window (i : Inner) (w : Z) : Inner :=
  mk_Inner (consume_rate i) (fetch_rate i) w (min_window i) (max_window i) (mem_pressure i).

Definition record_part_consumed (i : Inner) (bytes : Z) (elapsed : Duration) : option Inner :=
  if SFleb (as_secs_f64 elapsed) F64.zero then Some i
  else
    let rate := F64.div (F64.of_u64 bytes) (as_secs_f64 elapsed) in
    let i := mk_Inner (ema (consume_rate i) rate) (fetch_rate i) (window i)
               (min_window i) (max_window i) (mem_pressure i) in
    set_window i <$> compute_window i.

Definition record_part_fetched (i : Inner) (bytes : Z) (elapsed : Duration) : option Inner :=
  if SFleb (as_secs_f64 elapsed) F64.zero then Some i
  else
    let rate := F64.div (F64.of_u64 bytes) (as_secs_f64 elapsed) in
    let i := mk_Inner (consume_rate i) (ema (fetch_rate i) rate) (window i)
               (min_window i) (max_window i) (mem_pressure i) in
    set_window i <$> compute_window i.

Definition set_mem_pressure (i : Inner) (on : bool) : option Inner :=
  let i := mk_Inner (consume_rate i) (fetch_rate i) (window i) (min_window i) (max_window i) on in
  if on then Some (set_window i (min_window i))
  else set_window i <$> compute_window i.

Inductive op :=
| Consumed (bytes : Z) (elapsed : Duration)
| Fetched (bytes : Z) (elapsed : Duration)
| MemPressure (on : bool).
Definition run_op (i : Inner) (o : op) : option Inner :=
  match o with
  | Consumed b d => record_part_consumed i b d
  | Fetched b d => record_part_fetched i b d
  | MemPressure on => set_mem_pressure i on
  end.
Fixpoint run (i : Inner) (ops : list op) : option Inner :=
  match ops with
  | [] => Some i
  | o :: ops' => i' ← run_op i o; run i' ops'
  end.

Definition wf (i : Inner) : Prop := min_window i <= window i <= max_window i.

Lemma compute_window_total i : wf i ->
  exists w, compute_window i = Some w /\ min_window i <= w <= max_window i /\
    (mem_pressure i = true -> w = min_window i).
Proof.
  intros Hw. unfold wf in Hw. unfold compute_window.
  destruct (mem_pressure i); [eexists; split; [done|split; [lia|done]]|].
  case_test; [eexists; split; [done|split; [lia|done]]|].
  match goal with |- context [clamp ?x _ _] => set (new := x) end.
  destruct (clamp new (min_window i) (max_window i)) as [w|] eqn:E.
  - exists w. split; [done|]. split; [by eapply clamp_range|done].
  - apply clamp_panics in E. lia.
Qed.

Lemma run_op_wf i o : wf i -> exists i', run_op i o = Some i' /\ wf i' /\
  min_window i' = min_window i /\ max_window i' = max_window i /\
  (mem_pressure i' = true -> mem_pressure i = true -> window i = min_window i -> window i' = min_window i).
Proof.
  intros Hw. destruct o as [b d|b d|[]]; cbn [run_op].
  3: { eexists. split; [done|]. unfold wf, set_window in *. cbn. repeat split; lia. }
  all: unfold record_part_consumed, record_part_fetched, set_mem_pressure.
  1-2: case_test; [by eexists|].
  all: match goal with |- context [compute_window ?j] =>
    destruct (compute_window_total j) as (w & -> & Hr & Hm); [done|] end;
    cbn in *; eexists; (split; [done|]); unfold wf, set_window; cbn; repeat split; auto; lia.
Qed.

(** The prefetch window.  A controller exists exactly when the bounds are
    ordered; from there no sequence of measurements and pressure changes can
    panic, and the window stays within its bounds throughout, whatever rates
    the floating-point averages take. *)
Theorem window_bounds min max ops :
  if min <=? max
  then exists i, with_window min max = Some i /\ exists i', run i ops = Some i' /\
    min <= window i' <= max /\ min_window i' = min /\ max_window i' = max
  else with_window min max = None.
Proof.
  unfold with_window. case_test; bool_props; [|done].
  set (i := mk_Inner _ _ _ _ _ _). exists i. split; [done|].
  assert (Hw : wf i) by (unfold wf; cbn; lia).
  assert (Emin : min_window i = min) by done. assert (Emax : max_window i = max) by done.
  clearbody i. revert i Hw Emin Emax. induction ops as [|o ops IH]; intros i Hw Emin Emax.
  - exists i. unfold wf in Hw. repeat split; auto; lia.
  - destruct (run_op_wf i o Hw) as (i' & E & Hw' & E1 & E2 & _). cbn [run]. rewrite E.
    apply IH; [done|congruence|congruence].
Qed.

(** Memory pressure.  While the pressure flag is up, the window sits at
    its floor however many measurements arrive. *)
Theorem window_under_pressure i ops i' :
  wf i -> Forall (fun o => match o with MemPressure on => on = true | _ => True end) ops ->
  (j ← set_mem_pressure i true; run j ops) = Some i' -> window i' = min_window i.
Proof.
  intros Hw HF. cbn [set_mem_pressure mbind option_bind].
  set (j := set_window _ _). assert (Hj : wf j) by (unfold wf, j in *; cbn; lia).
  assert (Ew : window j = min_window j) by done. assert (Em : mem_pressure j = true) by done.
  change (min_window i) with (min_window j). clearbody j. clear i Hw.
  revert j Hj Ew Em. induction HF as [|o ops Ho HF IH]; intros j Hj Ew Em E;
    cbn in E; [injection E as <-; exact Ew|].
  destruct (run_op_wf j o Hj) as (j' & Ej & Hw' & E1 & E2 & Hp). rewrite Ej in E. cbn in E.
  assert (mem_pressure j' = true) as Em'.
  { destruct o as [b d|b d|on]; cbn in Ej, Ho; [| |subst on; injection Ej as <-; done].
    all: unfold record_part_consumed, record_part_fetched in Ej; case_if Ej as Hd; [by simplify_eq|];
      apply fmap_Some in Ej as (w & _ & ->); done. }
  specialize (Hp Em' Em Ew). rewrite <-E1. apply IH; congruence.
Qed.

Definition sample : Inner := mk_Inner F64.zero F64.zero 131072 131072 67108864 false.
Lemma window_under_pressure_witness :
  exists i', run sample [MemPressure true; Fetched 1048576 (mk_Duration 1 0)] = Some i' /\
    window i' = 131072.
Proof.
  destruct (run sample [MemPressure true; Fetched 1048576 (mk_Duration 1 0)]) as [i'|] eqn:E.
  - exists i'. split; [reflexivity|].
    refine (window_under_pressure sample [Fetched 1048576 (mk_Duration 1 0)] i' _ _ _).
    + unfold wf. cbn. lia.
    + repeat constructor.
    + exact E.
  - exfalso. revert E. vm_compute. discriminate.
Defined.

(** The window grows by half, not by doubling, when the consumer is faster. *)
Example growth_is_half :
  window <$> run sample [Fetched 1000 (mk_Duration 1 0); Consumed 2000 (mk_Duration 1 0)]
    = Some 196608.
Proof. vm_compute. reflexivity. Qed.

End Controller.
