(* ===== verification/MemCache.v ===== *)
(** * MemCache: src/src/cache.rs

    The in-memory block cache.  [MemCache] is the trait, as operations and the
    laws its clients rely on; [DashMapCache] is the DashMap implementation
    with its byte accounting, reverse index, eviction queue and counters, and
    the instance that discharges the laws.  The moka and foyer implementations
    delegate to those crates and are other instances of the same interface. *)

From Stdlib Require Import ZArith Lia.
From S2P Require Import Prelude.

(** ** The trait *)
Class MemCache (C : Type) := {
  mc_get : C -> Z -> Z -> C * option bytes;
  mc_put : C -> Z -> Z -> bytes -> C;
  mc_invalidate_ino : C -> Z -> C;
  mc_clear : C -> C
}.

(** What a client may rely on: lookups answer from the contents and add none
    (a cache may evict at any time); an insert never keeps an older value of
    its key and never invents entries; an invalidation leaves nothing of the
    inode. *)
Class MemCacheLaws (C : Type) `{!MemCache C} := {
  mc_ok : C -> Prop;
  mc_contents : C -> gmap (Z * Z) bytes;
  mc_get_ok c i b : mc_ok c -> mc_ok (fst (mc_get c i b));
  mc_get_result c i b : mc_ok c -> snd (mc_get c i b) = mc_contents c !! (i, b);
  mc_get_contents c i b : mc_ok c -> mc_contents (fst (mc_get c i b)) ⊆ mc_contents c;
  mc_put_ok c i b d : mc_ok c -> mc_ok (mc_put c i b d);
  mc_put_contents c i b d : mc_ok c ->
    mc_contents (mc_put c i b d) ⊆ <[(i, b) := d]> (mc_contents c);
  mc_invalidate_ok c i : mc_ok c -> mc_ok (mc_invalidate_ino c i);
  mc_invalidate_contents c i : mc_ok c ->
    mc_contents (mc_invalidate_ino c i) ⊆ mc_contents c /\
    forall b, mc_contents (mc_invalidate_ino c i) !! (i, b) = None;
  mc_clear_ok c : mc_ok c -> mc_ok (mc_clear c);
  mc_clear_contents c : mc_contents (mc_clear c) = ∅
}.

(** A snapshot of the counters. *)
Record MemCacheStats := mk_stats {
  st_hits : Z; st_misses : Z; st_inserts : Z; st_evictions : Z;
  st_entries : Z; st_used_bytes : Z; st_capacity_bytes : Z
}.

(** ** The DashMap implementation *)
Module DashMapCache.

Record DashMapMemCache := mk_cache {
  inner : gmap (Z * Z) bytes;
  by_ino : gmap Z (gset (Z * Z));
  order : list (Z * Z);
  mem_limit : Z;
  used : Z;
  hits : Z;
  misses : Z;
  inserts : Z;
  evictions : Z
}.

Definition new (mem_limit : Z) : DashMapMemCache := mk_cache ∅ ∅ [] mem_limit 0 0 0 0 0.

Definition get (c : DashMapMemCache) (ino block_idx : Z) : DashMapMemCache * option bytes :=
  let result := inner c !! (ino, block_idx) in
  match result with
  | Some _ => (mk_cache (inner c) (by_ino c) (order c) (mem_limit c) (used c)
                 (wrap64 (hits c + 1)) (misses c) (inserts c) (evictions c), result)
  | None => (mk_cache (inner c) (by_ino c) (order c) (mem_limit c) (used c)
               (hits c) (wrap64 (misses c + 1)) (inserts c) (evictions c), result)
  end.

(** [inner.remove(&v)] with the accounting of a victim. *)
Definition evict (c : DashMapMemCache) (v : Z * Z) (rest : list (Z * Z)) : DashMapMemCache :=
  match inner c !! v with
  | Some removed =>
      mk_cache (delete v (inner c)) (by_ino c) rest (mem_limit c)
        (wrap64 (used c - lenZ removed)) (hits c) (misses c) (inserts c) (wrap64 (evictions c + 1))
  | None =>
      mk_cache (inner c) (by_ino c) rest (mem_limit c) (used c)
        (hits c) (misses c) (inserts c) (evictions c)
  end.

(** The back-pressure loop; [rounds] is how many victims are taken before the
    clock passes the deadline. *)
Fixpoint evict_loop (rounds : nat) (size : Z) (c : DashMapMemCache) : DashMapMemCache :=
  if wrap64 (used c + size) <=? mem_limit c then c
  else match rounds with
       | O => c
       | S rounds' =>
           match order c with
           | [] => c
           | v :: rest => evict_loop rounds' size (evict c v rest)
           end
       end.

(** [inner.remove(&key)] before the insert. *)
Definition remove_old (c : DashMapMemCache) (key : Z * Z) : DashMapMemCache :=
  match inner c !! key with
  | Some old =>
      mk_cache (delete key (inner c)) (by_ino c) (order c) (mem_limit c)
        (wrap64 (used c - lenZ old)) (hits c) (misses c) (inserts c) (evictions c)
  | None => c
  end.

Definition put (rounds : nat) (c : DashMapMemCache) (ino block_idx : Z) (data : bytes)
    : DashMapMemCache :=
  let size := lenZ data in
  let key := (ino, block_idx) in
  let c := if 0 <? mem_limit c then evict_loop rounds size c else c in
  let c := remove_old c key in
  mk_cache (<[key := data]> (inner c))
    (<[ino := {[ key ]} ∪ default ∅ (by_ino c !! ino)]> (by_ino c))
    (order c ++ [key]) (mem_limit c) (wrap64 (used c + size))
    (hits c) (misses c) (wrap64 (inserts c + 1)) (evictions c).

(** The [for k in &keys] loop: the remaining map and the bytes removed. *)
Fixpoint remove_keys (ks : list (Z * Z)) (m : gmap (Z * Z) bytes) (total_removed : Z)
    : gmap (Z * Z) bytes * Z :=
  match ks with
  | [] => (m, total_removed)
  | k :: ks' =>
      match m !! k with
      | Some v => remove_keys ks' (delete k m) (wrap64 (total_removed + lenZ v))
      | None => remove_keys ks' m total_removed
      end
  end.

Definition invalidate_ino (c : DashMapMemCache) (ino : Z) : DashMapMemCache :=
  match by_ino c !! ino with
  | None => c
  | Some keys =>
      let '(m, total_removed) := remove_keys (elements keys) (inner c) 0 in
      mk_cache m (delete ino (by_ino c))
        (List.filter (fun k => negb (fst k =? ino)) (order c)) (mem_limit c)
        (if 0 <? total_removed then wrap64 (used c - total_removed) else used c)
        (hits c) (misses c) (inserts c) (evictions c)
  end.

Definition clear (c : DashMapMemCache) : DashMapMemCache :=
  mk_cache ∅ ∅ [] (mem_limit c) 0 (hits c) (misses c) (inserts c) (evictions c).

Definition len (c : DashMapMemCache) : Z := Z.of_nat (size (inner c)).
Definition used_bytes (c : DashMapMemCache) : Z := used c.
Definition stats (c : DashMapMemCache) : MemCacheStats :=
  mk_stats (hits c) (misses c) (inserts c) (evictions c) (len c) (used c) (mem_limit c).

(** ** Invariant *)
Definition total (m : gmap (Z * Z) bytes) : Z := msum lenZ m.

Record wf (c : DashMapMemCache) : Prop := {
  wf_used : used c = wrap64 (total (inner c));
  wf_order k : is_Some (inner c !! k) -> k ∈ order c;
  wf_by_ino k : is_Some (inner c !! k) -> exists s, by_ino c !! fst k = Some s /\ k ∈ s;
  wf_keys i s k : by_ino c !! i = Some s -> k ∈ s -> fst k = i
}.

Lemma total_nonneg m : 0 <= total m.
Proof. apply msum_nonneg. intros. apply lenZ_nonneg. Qed.

Lemma wf_new limit : wf (new limit).
Proof.
  split; cbn; unfold total; rewrite ?msum_empty; try done.
  - by intros k [v Hv].
  - by intros k [v Hv].
Qed.

Lemma get_wf c i b : wf c -> wf (fst (get c i b)).
Proof. intros []. unfold get. destruct (inner c !! (i, b)); by split. Qed.

Lemma total_delete m k : total (delete k m) = total m - from_option lenZ 0 (m !! k).
Proof. apply msum_delete_opt. Qed.

Lemma total_insert m k d :
  total (<[k := d]> m) = total m - from_option lenZ 0 (m !! k) + lenZ d.
Proof.
  unfold total. rewrite <-insert_delete_eq, msum_insert_new by apply lookup_delete_eq.
  rewrite msum_delete_opt. lia.
Qed.

Lemma evict_wf c v rest : wf c -> order c = v :: rest -> wf (evict c v rest).
Proof.
  intros [Hu Ho Hb Hk] E. unfold evict. destruct (inner c !! v) as [d|] eqn:Hv.
  - split; cbn; [| | |exact Hk].
    + rewrite Hu, total_delete, Hv. cbn. apply wrap64_sub_l.
    + intros k [x Hx]. apply lookup_delete_Some in Hx as [Hne Hx].
      specialize (Ho k ltac:(eauto)). rewrite E in Ho. by apply elem_of_cons in Ho as [->|].
    + intros k [x Hx]. apply lookup_delete_Some in Hx as [Hne Hx]. eauto.
  - split; cbn; [done| |done|exact Hk].
    intros k [x Hx]. specialize (Ho k ltac:(eauto)). rewrite E in Ho.
    apply elem_of_cons in Ho as [->|]; [congruence|done].
Qed.

Lemma evict_inner c v rest : inner (evict c v rest) = delete v (inner c).
Proof.
  unfold evict. destruct (inner c !! v) eqn:E; cbn; [done|]. by rewrite delete_id.
Qed.

Lemma evict_order c v rest : order (evict c v rest) = rest.
Proof. unfold evict. by destruct (inner c !! v). Qed.

Lemma evict_limit c v rest : mem_limit (evict c v rest) = mem_limit c.
Proof. unfold evict. by destruct (inner c !! v). Qed.

Lemma total_subseteq_delete c v rest : total (inner (evict c v rest)) <= total (inner c).
Proof.
  rewrite evict_inner, total_delete. destruct (inner c !! v); cbn; [|lia].
  pose proof (lenZ_nonneg l). lia.
Qed.

(** What a run of the loop preserves: it only removes entries, and drops a
    prefix of the queue. *)
Definition frame (c c' : DashMapMemCache) : Prop :=
  wf c' /\ inner c' ⊆ inner c /\ mem_limit c' = mem_limit c /\ total (inner c') <= total (inner c) /\
  exists dropped, order c = dropped ++ order c' /\
    (forall k, k ∉ dropped -> inner c' !! k = inner c !! k).

Lemma frame_refl c : wf c -> frame c c.
Proof. intros Hw. split; [done|]. split; [done|]. split; [done|]. split; [lia|]. by exists []. Qed.

Lemma frame_evict c v rest c' : order c = v :: rest -> frame (evict c v rest) c' -> frame c c'.
Proof.
  intros Eo (Hw & Hs & Hl & Ht & d & Hd & Hf).
  rewrite evict_inner in *. rewrite evict_order in Hd. rewrite evict_limit in Hl.
  pose proof (total_subseteq_delete c v rest) as Ht'. rewrite evict_inner in Ht'.
  split; [done|]. split; [etrans; [exact Hs|apply delete_subseteq]|]. split; [done|].
  split; [lia|]. exists (v :: d). split; [by rewrite Eo, Hd|]. intros k Hk.
  rewrite not_elem_of_cons in Hk. destruct Hk as [Hne Hk]. rewrite Hf by done.
  by rewrite lookup_delete_ne.
Qed.

Lemma evict_loop_frame rounds size c : wf c -> frame c (evict_loop rounds size c).
Proof.
  revert c. induction rounds as [|rounds IH]; intros c Hw; cbn [evict_loop];
    (destruct (_ <=? _); [by apply frame_refl|]); [by apply frame_refl|].
  destruct (order c) as [|v rest] eqn:Eo; [by apply frame_refl|].
  eapply frame_evict; [done|]. apply IH. by apply evict_wf.
Qed.

Lemma order_empty c : wf c -> order c = [] -> inner c = ∅.
Proof.
  intros Hw Eo. apply map_empty. intros k. destruct (inner c !! k) eqn:E; [|done].
  pose proof (wf_order c Hw k ltac:(eauto)) as Hin. rewrite Eo in Hin. by apply not_elem_of_nil in Hin.
Qed.

(** With enough rounds to reach the end of the queue, the loop stops with room
    for the new block, or with an empty cache. *)
Lemma evict_loop_fits rounds size c : wf c -> (length (order c) <= rounds)%nat ->
  let c' := evict_loop rounds size c in
  wrap64 (used c' + size) <= mem_limit c \/ inner c' = ∅.
Proof.
  revert c. induction rounds as [|rounds IH]; intros c Hw Hr; cbn [evict_loop];
    destruct (Z.leb_spec (wrap64 (used c + size)) (mem_limit c)); auto.
  - right. apply order_empty; [done|]. by apply length_zero_iff_nil, Nat.le_0_r.
  - destruct (order c) as [|v rest] eqn:Eo; [right; by apply order_empty|].
    cbn in Hr. rewrite <-(evict_limit c v rest). apply IH; [by apply evict_wf|].
    rewrite evict_order. lia.
Qed.

Lemma remove_old_frame c key : wf c ->
  inner (remove_old c key) = delete key (inner c) /\
  used (remove_old c key) = wrap64 (total (delete key (inner c))) /\
  by_ino (remove_old c key) = by_ino c /\ order (remove_old c key) = order c /\
  mem_limit (remove_old c key) = mem_limit c.
Proof.
  intros [Hu _ _ _]. unfold remove_old. destruct (inner c !! key) as [old|] eqn:E; cbn.
  - rewrite Hu, total_delete, E. cbn. by rewrite wrap64_sub_l.
  - by rewrite delete_id.
Qed.

(** [put] after the eviction loop. *)
Definition put_tail (c : DashMapMemCache) (key : Z * Z) (data : bytes) : DashMapMemCache :=
  let c := remove_old c key in
  mk_cache (<[key := data]> (inner c))
    (<[fst key := {[ key ]} ∪ default ∅ (by_ino c !! fst key)]> (by_ino c))
    (order c ++ [key]) (mem_limit c) (wrap64 (used c + lenZ data))
    (hits c) (misses c) (wrap64 (inserts c + 1)) (evictions c).

Lemma put_unfold rounds c ino block_idx data :
  put rounds c ino block_idx data =
    put_tail (if 0 <? mem_limit c then evict_loop rounds (lenZ data) c else c) (ino, block_idx) data.
Proof. done. Qed.

Lemma put_tail_inner c key data : wf c -> inner (put_tail c key data) = <[key := data]> (inner c).
Proof.
  intros Hw. cbn. destruct (remove_old_frame c key Hw) as (-> & _). apply insert_delete_eq.
Qed.

Lemma put_tail_wf c key data : wf c -> wf (put_tail c key data).
Proof.
  intros Hw. pose proof (put_tail_inner c key data Hw) as Hin.
  destruct (remove_old_frame c key Hw) as (Ei & Eu & Eb & Eo & El).
  destruct Hw as [Hu Ho Hb Hk]. split; rewrite ?Hin.
  - cbn. rewrite Eu, wrap64_add_l, total_insert, total_delete. done.
  - intros k. cbn. rewrite Eo, lookup_insert_is_Some. intros [<-|[? ?]]; set_solver.
  - intros k. cbn [by_ino put_tail]. rewrite Eb, lookup_insert_is_Some.
    intros [<-|[Hne Hs]]; [eexists; rewrite lookup_insert_eq; split; [done|set_solver]|].
    destruct (Hb k Hs) as (s & Hs1 & Hs2). destruct (decide (fst key = fst k)) as [E|].
    + rewrite <-E in *. rewrite lookup_insert_eq. eexists. split; [done|]. rewrite Hs1. set_solver.
    + rewrite lookup_insert_ne by done. eauto.
  - intros i s k. cbn [by_ino put_tail]. rewrite Eb.
    destruct (decide (fst key = i)) as [<-|Hne].
    + rewrite lookup_insert_eq. intros E Hin'. simplify_eq.
      apply elem_of_union in Hin' as [Hin'|Hin']; [set_solver|].
      destruct (by_ino c !! fst key) as [s|] eqn:Es; [|set_solver]. by eapply Hk.
    + rewrite lookup_insert_ne by done. eauto.
Qed.

Lemma put_evicted rounds c (data : bytes) : wf c ->
  frame c (if 0 <? mem_limit c then evict_loop rounds (lenZ data) c else c).
Proof. intros Hw. case_test; [by apply evict_loop_frame|by apply frame_refl]. Qed.

Lemma put_wf rounds c i b d : wf c -> wf (put rounds c i b d).
Proof. intros Hw. rewrite put_unfold. apply put_tail_wf. by apply (put_evicted rounds c d). Qed.

Lemma put_contents rounds c i b d : wf c ->
  inner (put rounds c i b d) ⊆ <[(i, b) := d]> (inner c) /\
  inner (put rounds c i b d) !! (i, b) = Some d.
Proof.
  intros Hw. rewrite put_unfold. destruct (put_evicted rounds c d Hw) as (Hw' & Hs & _).
  rewrite put_tail_inner by done. split; [by apply insert_mono|apply lookup_insert_eq].
Qed.

(** The [for] loop of an invalidation. *)
Lemma remove_keys_spec ks m t :
  remove_keys ks m (wrap64 t) =
    (foldl (fun m k => delete k m) m ks,
     wrap64 (t + (total m - total (foldl (fun m k => delete k m) m ks)))).
Proof.
  revert m t. induction ks as [|k ks IH]; intros m t; cbn [remove_keys foldl].
  - f_equal. f_equal. lia.
  - destruct (m !! k) as [v|] eqn:E.
    + rewrite wrap64_add_l, IH. f_equal. f_equal. rewrite (total_delete m k), E. cbn. lia.
    + rewrite IH, (delete_id m k) by done. done.
Qed.

Lemma remove_keys_spec0 ks m :
  remove_keys ks m 0 =
    (foldl (fun m k => delete k m) m ks,
     wrap64 (total m - total (foldl (fun m k => delete k m) m ks))).
Proof. apply (remove_keys_spec ks m 0). Qed.

Lemma invalidate_inner c ino : wf c ->
  inner (invalidate_ino c ino) = filter (fun kv => fst (fst kv) <> ino) (inner c).
Proof.
  intros [Hu Ho Hb Hk]. apply map_eq. intros k. unfold invalidate_ino.
  destruct (by_ino c !! ino) as [keys|] eqn:E.
  - rewrite remove_keys_spec0. cbn. rewrite lookup_foldl_delete.
    destruct (inner c !! k) as [v|] eqn:Hv.
    + destruct (decide (fst k = ino)) as [<-|Hne].
      * destruct (Hb k ltac:(eauto)) as (s & Hs & Hin). simplify_eq.
        rewrite bool_decide_true by (by apply elem_of_elements). symmetry.
        apply map_lookup_filter_None. right. intros x Hx Hf. by apply Hf.
      * rewrite bool_decide_false.
        -- symmetry. by apply map_lookup_filter_Some.
        -- intros Hin%elem_of_elements. by eapply Hk in Hin.
    + replace (if bool_decide (k ∈ elements keys) then None else None) with (@None bytes) by (by case_test).
      symmetry. apply map_lookup_filter_None. by left.
  - destruct (inner c !! k) as [v|] eqn:Hv; symmetry.
    + apply map_lookup_filter_Some. split; [done|]. cbn. intros <-.
      destruct (Hb k ltac:(eauto)) as (s & Hs & _). congruence.
    + apply map_lookup_filter_None. by left.
Qed.

Lemma invalidate_wf c ino : wf c -> wf (invalidate_ino c ino).
Proof.
  intros Hw. pose proof (invalidate_inner c ino Hw) as Hin. destruct Hw as [Hu Ho Hb Hk].
  unfold invalidate_ino in *. destruct (by_ino c !! ino) as [keys|] eqn:E; [|done].
  rewrite remove_keys_spec0 in *. cbn [inner] in Hin.
  split; cbn [used inner order by_ino]; rewrite ?Hin.
  - set (r := wrap64 _). assert ((if 0 <? r then wrap64 (used c - r) else used c) = wrap64 (used c - r)) as ->.
    { case_test; bool_props; [done|].
      assert (r = 0) as -> by (subst r; pose proof (wrap64_range (total (inner c) -
        total (filter (fun kv => fst (fst kv) <> ino) (inner c)))) as Hr; unfold is_u64 in Hr; lia).
      rewrite Z.sub_0_r, Hu. unfold wrap64. by rewrite Zmod_mod. }
    subst r. rewrite wrap64_sub_r, Hu, wrap64_sub_l. f_equal. lia.
  - intros k [v Hv]. apply map_lookup_filter_Some in Hv as [Hv Hne]. cbn in Hne.
    rewrite list_elem_of_In, filter_In, <-list_elem_of_In. split; [by apply Ho|].
    by apply negb_true_iff, Z.eqb_neq.
  - intros k [v Hv]. apply map_lookup_filter_Some in Hv as [Hv Hne]. cbn in Hne.
    rewrite lookup_delete_ne by done. apply Hb. eauto.
  - intros i s k Hs. apply lookup_delete_Some in Hs as [_ Hs]. by apply Hk.
Qed.

(** ** The instance *)
#[export] Instance dashmap_MemCache (rounds : nat) : MemCache DashMapMemCache := {|
  mc_get := get;
  mc_put := put rounds;
  mc_invalidate_ino := invalidate_ino;
  mc_clear := clear
|}.

Lemma clear_wf c : wf (clear c).
Proof.
  split; cbn; [unfold total; by rewrite msum_empty| | |done].
  - by intros k [v Hv].
  - by intros k [v Hv].
Qed.

#[export] Instance dashmap_MemCacheLaws (rounds : nat) :
  @MemCacheLaws DashMapMemCache (dashmap_MemCache rounds).
Proof.
  refine (@Build_MemCacheLaws _ (dashmap_MemCache rounds) wf inner _ _ _ _ _ _ _ _ _); cbn; intros.
  - by apply get_wf.
  - unfold get. by destruct (inner c !! (i, b)).
  - unfold get. by destruct (inner c !! (i, b)).
  - by apply put_wf.
  - by apply put_contents.
  - by apply invalidate_wf.
  - rewrite invalidate_inner by done. split; [apply map_filter_subseteq|].
    intros b. apply map_lookup_filter_None. right. intros x _ Hf. by apply Hf.
  - apply clear_wf.
  - done.
Defined.

(** ** Runs of the cache against an ideal map *)
Inductive op :=
| Get (ino block_idx : Z)
| Put (rounds : nat) (ino block_idx : Z) (data : bytes)
| InvalidateIno (ino : Z)
| Clear.
Definition run_op (c : DashMapMemCache) (o : op) : DashMapMemCache :=
  match o with
  | Get i b => fst (get c i b)
  | Put r i b d => put r c i b d
  | InvalidateIno i => invalidate_ino c i
  | Clear => clear c
  end.
(** The ideal cache never evicts. *)
Definition ideal_op (m : gmap (Z * Z) bytes) (o : op) : gmap (Z * Z) bytes :=
  match o with
  | Get _ _ => m
  | Put _ i b d => <[(i, b) := d]> m
  | InvalidateIno i => filter (fun kv => fst (fst kv) <> i) m
  | Clear => ∅
  end.

Lemma filter_mono (i : Z) (m1 m2 : gmap (Z * Z) bytes) : m1 ⊆ m2 ->
  filter (fun kv => fst (fst kv) <> i) m1 ⊆ filter (fun kv => fst (fst kv) <> i) m2.
Proof.
  intros Hs. apply map_subseteq_spec. intros k v Hv.
  apply map_lookup_filter_Some in Hv as [Hv Hf]. apply map_lookup_filter_Some.
  split; [by eapply lookup_weaken|done].
Qed.

Lemma run_op_refines c m o : wf c -> inner c ⊆ m ->
  wf (run_op c o) /\ inner (run_op c o) ⊆ ideal_op m o.
Proof.
  intros Hw Hs. destruct o as [i b|r i b d|i|]; cbn [run_op ideal_op].
  - split; [by apply get_wf|]. unfold get. by destruct (inner c !! (i, b)).
  - split; [by apply put_wf|]. etrans; [by apply put_contents|by apply insert_mono].
  - split; [by apply invalidate_wf|]. rewrite invalidate_inner by done. by apply filter_mono.
  - split; [apply clear_wf|]. apply map_empty_subseteq.
Qed.

(** C17: refinement of the ideal cache.  After any sequence of operations, with
    any number of evictions cut off by the deadline, a lookup returns nothing
    or exactly what the cache that never evicts returns (so never a block
    put before the last invalidation of its inode, nor an overwritten one),
    and the byte counter is the sum of the cached blocks. *)
Theorem mem_cache_refines limit ops i b d :
  let c := foldl run_op (new limit) ops in
  let m := foldl ideal_op ∅ ops in
  used c = wrap64 (total (inner c)) /\
  (snd (get c i b) = Some d -> m !! (i, b) = Some d).
Proof.
  assert (forall ops c m, wf c -> inner c ⊆ m ->
    wf (foldl run_op c ops) /\ inner (foldl run_op c ops) ⊆ foldl ideal_op m ops) as Hrun.
  { clear ops. induction ops as [|o ops IH]; intros c m Hw Hs; [done|].
    destruct (run_op_refines c m o Hw Hs). by apply IH. }
  destruct (Hrun ops (new limit) ∅) as [Hw Hs]; [apply wf_new|done|].
  split; [apply Hw|]. intros Hg.
  assert (inner (foldl run_op (new limit) ops) !! (i, b) = Some d) as Hi.
  { unfold get in Hg. by destruct (inner _ !! (i, b)). }
  by eapply lookup_weaken.
Qed.

(** A bounded insert.  When the deadline does not cut the eviction short,
    the cache ends within the larger of its limit and the new block, the new
    block is present, and what was given up is a prefix of the insertion
    queue. *)
Theorem put_spec rounds c i b d :
  wf c -> 0 < mem_limit c -> (length (order c) <= rounds)%nat ->
  total (inner c) + lenZ d <= U64_MAX ->
  let c' := put rounds c i b d in
  used c' <= Z.max (mem_limit c) (lenZ d) /\
  snd (get c' i b) = Some d /\
  exists dropped kept, order c = dropped ++ kept /\ order c' = kept ++ [(i, b)] /\
    forall k, k ∉ dropped -> k <> (i, b) -> inner c' !! k = inner c !! k.
Proof.
  intros Hw Hl Hr Ht c'.
  assert (Hpos : (0 <? mem_limit c) = true) by (by apply Z.ltb_lt).
  pose proof (evict_loop_frame rounds (lenZ d) c Hw) as (Hw' & Hs & Hlim & Htot & dropped & Hd & Hk).
  pose proof (evict_loop_fits rounds (lenZ d) c Hw Hr) as Hfit.
  pose proof (put_tail_inner _ (i, b) d Hw') as Hin.
  destruct (remove_old_frame _ (i, b) Hw') as (_ & Eu & _ & Eo & _).
  unfold c'. rewrite put_unfold, Hpos. set (e := evict_loop rounds (lenZ d) c) in *.
  pose proof (total_nonneg (inner e)). pose proof (total_nonneg (delete (i, b) (inner e))).
  pose proof (lenZ_nonneg d).
  assert (total (delete (i, b) (inner e)) <= total (inner e)).
  { rewrite total_delete. destruct (inner e !! (i, b)); cbn; [|lia]. pose proof (lenZ_nonneg l). lia. }
  split; [|split].
  - cbn [used put_tail]. rewrite Eu, wrap64_add_l, wrap64_small by (unfold is_u64; lia).
    destruct Hfit as [Hle|He].
    + rewrite (wf_used e Hw'), wrap64_add_l, wrap64_small in Hle by (unfold is_u64; lia). lia.
    + rewrite He, delete_empty. unfold total. rewrite msum_empty. lia.
  - unfold get. rewrite Hin, lookup_insert_eq. done.
  - exists dropped, (order e). split; [done|]. split; [cbn; by rewrite Eo|].
    intros k Hnd Hne. rewrite Hin, lookup_insert_ne by done. by apply Hk.
Qed.

Definition two_blocks : DashMapMemCache :=
  put 9 (put 9 (new 12) 1 0 (to_le 4 0)) 1 1 (to_le 4 1).

Lemma put_spec_witness :
  let c' := put 9 two_blocks 2 0 (to_le 8 7) in
  used c' <= 12 /\ snd (get c' 2 0) = Some (to_le 8 7) /\
  exists dropped kept, order two_blocks = dropped ++ kept /\ order c' = kept ++ [(2, 0)] /\
    forall k, k ∉ dropped -> k <> (2, 0) -> inner c' !! k = inner two_blocks !! k.
Proof.
  refine (put_spec 9 two_blocks 2 0 (to_le 8 7) _ _ _ _).
  - apply put_wf, put_wf, wf_new.
  - reflexivity.
  - vm_compute. lia.
  - vm_compute. discriminate.
Defined.

(** Invalidation removes exactly the blocks of the inode, from the map and
    from the queue, and leaves every other inode's blocks and the byte count
    right. *)
Theorem invalidate_ino_spec c ino k :
  wf c ->
  let c' := invalidate_ino c ino in
  inner c' !! k = (if fst k =? ino then None else inner c !! k) /\
  used c' = wrap64 (total (inner c')).
Proof.
  intros Hw c'. split; [|apply invalidate_wf; done]. unfold c'. rewrite invalidate_inner by done.
  destruct (Z.eqb_spec (fst k) ino) as [E|Hne].
  - apply map_lookup_filter_None. right. intros x _ Hf. by apply Hf.
  - destruct (inner c !! k) eqn:E.
    + by apply map_lookup_filter_Some.
    + apply map_lookup_filter_None. by left.
Qed.

Lemma invalidate_ino_spec_witness :
  let c := put 9 two_blocks 2 0 (to_le 4 7) in
  let c' := invalidate_ino c 1 in
  inner c' !! (1, 1) = None /\ inner c' !! (2, 0) = Some (to_le 4 7).
Proof.
  intros c c'.
  assert (wf c) as Hw by (apply put_wf, put_wf, put_wf, wf_new).
  split.
  - exact (proj1 (invalidate_ino_spec c 1 (1, 1) Hw)).
  - exact (proj1 (invalidate_ino_spec c 1 (2, 0) Hw)).
Defined.

(** A block that is put again keeps its old place in the queue too, so the
    next eviction takes the fresh copy before an older block. *)
Theorem reinserted_evicted_first :
  let c := put 9 two_blocks 1 0 (to_le 4 9) in
  let c' := put 9 c 2 0 (to_le 8 7) in
  inner c !! (1, 0) = Some (to_le 4 9) /\
  inner c' !! (1, 0) = None /\ inner c' !! (1, 1) = Some (to_le 4 1).
Proof. vm_compute. done. Qed.

End DashMapCache.
