(* ===== verification/ExtCaches.v ===== *)
(** * ExtCaches: the in-memory caches over other crates (src/src/cache.rs)

    [MokaMemCache] and [FoyerMemCache], the two implementations of the
    [MemCache] trait a mount can choose instead of [DashMapMemCache].  The
    concurrent maps of the crates moka and foyer are a class, [BoundedMap],
    with what their documentation says; both implementations satisfy
    [MemCacheLaws], so what is proved of the cache levels holds over them. *)

From Stdlib Require Import ZArith Lia Strings.Byte.
From S2P Require Import Prelude MemCache.

(** ** The crates' maps *)

(** [bm_build] takes the capacity and the weigher; [bm_remove] is [invalidate]
    of moka and [remove] of foyer, [bm_clear] is [invalidate_all] and [clear];
    [bm_usage] is [weighted_size] and [usage]. *)
Class BoundedMap (M : Type) := {
  bm_build : Z -> (bytes -> Z) -> M;
  bm_get : M -> Z * Z -> M * option bytes;
  bm_insert : M -> Z * Z -> bytes -> M;
  bm_remove : M -> Z * Z -> M;
  bm_clear : M -> M;
  bm_usage : M -> Z
}.
(** A lookup answers from the contents; an insert replaces the value of its key
    or drops the key; a removal removes.  Any operation may evict entries. *)
Class BoundedMapLaws (M : Type) `{!BoundedMap M} := {
  bm_contents : M -> gmap (Z * Z) bytes;
  bm_build_contents cap w : bm_contents (bm_build cap w) = ∅;
  bm_get_result m k : snd (bm_get m k) = bm_contents m !! k;
  bm_get_contents m k : bm_contents (fst (bm_get m k)) ⊆ bm_contents m;
  bm_insert_contents m k v : bm_contents (bm_insert m k v) ⊆ <[k := v]> (bm_contents m);
  bm_remove_contents m k : bm_contents (bm_remove m k) ⊆ delete k (bm_contents m);
  bm_clear_contents m : bm_contents (bm_clear m) = ∅
}.
(** What only moka has: iteration, the entry count, the maintenance run, and the
    number of evictions the listener has been told of. *)
Class Iterable (M : Type) := {
  bm_iter : M -> list ((Z * Z) * bytes);
  bm_entry_count : M -> Z;
  bm_run_pending : M -> M;
  bm_evicted : M -> Z
}.
(** Iteration visits every entry. *)
Class IterableLaws (M : Type) `{!BoundedMap M, !BoundedMapLaws M, !Iterable M} : Prop := {
  bm_iter_complete m k v : bm_contents m !! k = Some v -> (k, v) ∈ bm_iter m
}.

(** ** Any lawful cache is a cache that forgets *)
Module Lawful.
Section Runs.
Context {C : Type} `{MC : !MemCache C, MCL : !MemCacheLaws C}.

Inductive op :=
| Get (ino block_idx : Z)
| Put (ino block_idx : Z) (data : bytes)
| InvalidateIno (ino : Z)
| Clear.
Definition run_op (c : C) (o : op) : C :=
  match o with
  | Get i b => fst (mc_get c i b)
  | Put i b d => mc_put c i b d
  | InvalidateIno i => mc_invalidate_ino c i
  | Clear => mc_clear c
  end.
(** The cache that never evicts. *)
Definition ideal_op (m : gmap (Z * Z) bytes) (o : op) : gmap (Z * Z) bytes :=
  match o with
  | Get _ _ => m
  | Put i b d => <[(i, b) := d]> m
  | InvalidateIno i => filter (fun kv => fst (fst kv) <> i) m
  | Clear => ∅
  end.

Lemma run_op_lawful c m o : mc_ok c -> mc_contents c ⊆ m ->
  mc_ok (run_op c o) /\ mc_contents (run_op c o) ⊆ ideal_op m o.
Proof using.
  intros Hok Hs. destruct o as [i b|i b d|i|]; cbn [run_op ideal_op].
  - split; [by apply mc_get_ok|]. etrans; [by apply mc_get_contents|done].
  - split; [by apply mc_put_ok|]. etrans; [by apply mc_put_contents|by apply insert_mono].
  - split; [by apply mc_invalidate_ok|]. destruct (mc_invalidate_contents c i Hok) as [H1 H2].
    apply map_subseteq_spec. intros [j b] v Hv. apply map_lookup_filter_Some. split.
    + eapply lookup_weaken; [exact Hv|]. by etrans.
    + cbn. intros ->. by rewrite H2 in Hv.
  - split; [by apply mc_clear_ok|]. rewrite mc_clear_contents. apply map_empty_subseteq.
Qed.

Lemma runs_lawful ops : forall c m, mc_ok c -> mc_contents c ⊆ m ->
  mc_ok (foldl run_op c ops) /\ mc_contents (foldl run_op c ops) ⊆ foldl ideal_op m ops.
Proof using.
  induction ops as [|o ops IH]; intros c m Hok Hs; [done|].
  destruct (run_op_lawful c m o Hok Hs). by apply IH.
Qed.

Lemma hit_is_ideal ops c i b d : mc_ok c -> mc_contents c = ∅ ->
  snd (mc_get (foldl run_op c ops) i b) = Some d -> foldl ideal_op ∅ ops !! (i, b) = Some d.
Proof using.
  intros Hok He. destruct (runs_lawful ops c ∅ Hok) as [Hok' Hs]; [by rewrite He|].
  rewrite mc_get_result by done. intros H. by eapply lookup_weaken.
Qed.
End Runs.
End Lawful.

(** ** What both implementations share *)
Record lookup_counters := mk_counters { hits : Z; misses : Z; inserts : Z }.
Definition zero_counters : lookup_counters := mk_counters 0 0 0.
Definition count_get (r : option bytes) (n : lookup_counters) : lookup_counters :=
  match r with
  | Some _ => mk_counters (wrap64 (hits n + 1)) (misses n) (inserts n)
  | None => mk_counters (hits n) (wrap64 (misses n + 1)) (inserts n)
  end.
Definition count_put (n : lookup_counters) : lookup_counters :=
  mk_counters (hits n) (misses n) (wrap64 (inserts n + 1)).

(** Removing keys one by one. *)
Lemma fold_remove {M} `{!BoundedMap M, !BoundedMapLaws M} (ks : list (Z * Z)) : forall m : M,
  bm_contents (foldl bm_remove m ks) ⊆ bm_contents m /\
  forall k, k ∈ ks -> bm_contents (foldl bm_remove m ks) !! k = None.
Proof.
  induction ks as [|k ks IH]; intros m; cbn [foldl]; [split; [done|intros k Hk; by apply not_elem_of_nil in Hk]|].
  destruct (IH (bm_remove m k)) as [H1 H2]. pose proof (bm_remove_contents m k) as Hr. split.
  - etrans; [exact H1|]. etrans; [exact Hr|apply delete_subseteq].
  - intros k' [->|Hk]%elem_of_cons; [|by apply H2].
    destruct (bm_contents (foldl bm_remove _ ks) !! k) as [v|] eqn:E; [|done].
    eapply lookup_weaken in E; [|etrans; [exact H1|exact Hr]]. by rewrite lookup_delete_eq in E.
Qed.

(** ** [MokaMemCache] *)
Module Moka.
Section Moka.
Context {M : Type} `{BM : !BoundedMap M, IT : !Iterable M}.

Record MokaMemCache := mk_moka { inner : M; capacity_bytes : Z; counts : lookup_counters }.
(** The weighers; [as u32] truncates, and the first one adds with wrap-around. *)
Definition as_u32 (x : Z) : Z := x mod 2 ^ 32.
Definition weigh_unbounded (v : bytes) : Z := as_u32 (as_u32 (lenZ v) + 16).
Definition weigh (v : bytes) : Z := Z.min (as_u32 (lenZ v) + 16) (2 ^ 32 - 1).
Definition new (mem_limit : Z) : MokaMemCache :=
  mk_moka (if mem_limit =? 0 then bm_build (U64_MAX / 2) weigh_unbounded else bm_build mem_limit weigh)
    mem_limit zero_counters.
Definition get (c : MokaMemCache) (ino block_idx : Z) : MokaMemCache * option bytes :=
  let '(m, r) := bm_get (inner c) (ino, block_idx) in
  (mk_moka m (capacity_bytes c) (count_get r (counts c)), r).
Definition put (c : MokaMemCache) (ino block_idx : Z) (data : bytes) : MokaMemCache :=
  mk_moka (bm_insert (inner c) (ino, block_idx) data) (capacity_bytes c) (count_put (counts c)).
Definition invalidate_ino (c : MokaMemCache) (ino : Z) : MokaMemCache :=
  let keys := List.filter (fun k => fst k =? ino) (map fst (bm_iter (inner c))) in
  mk_moka (foldl bm_remove (inner c) keys) (capacity_bytes c) (counts c).
Definition clear (c : MokaMemCache) : MokaMemCache := mk_moka (bm_clear (inner c)) (capacity_bytes c) (counts c).

Definition len (c : MokaMemCache) : MokaMemCache * Z :=
  let m := bm_run_pending (inner c) in
  (mk_moka m (capacity_bytes c) (counts c), bm_entry_count m).
Definition used_bytes (c : MokaMemCache) : Z := bm_usage (inner c).
Definition stats (c : MokaMemCache) : MokaMemCache * MemCacheStats :=
  let m := bm_run_pending (inner c) in
  (mk_moka m (capacity_bytes c) (counts c),
   mk_stats (hits (counts c)) (misses (counts c)) (inserts (counts c)) (bm_evicted m)
     (bm_entry_count m) (bm_usage m) (capacity_bytes c)).

#[global] Instance moka_MemCache : MemCache MokaMemCache :=
  {| mc_get := get; mc_put := put; mc_invalidate_ino := invalidate_ino; mc_clear := clear |}.

Context `{BML : !BoundedMapLaws M, ITL : !IterableLaws M}.
#[global] Instance moka_MemCacheLaws : MemCacheLaws MokaMemCache.
Proof.
  refine (Build_MemCacheLaws _ _ (fun _ => True) (fun c => bm_contents (inner c)) _ _ _ _ _ _ _ _ _); cbn; try done.
  - intros c i b _. unfold get. pose proof (bm_get_result (inner c) (i, b)) as Hg. by destruct (bm_get _ _).
  - intros c i b _. unfold get. pose proof (bm_get_contents (inner c) (i, b)) as Hg. by destruct (bm_get _ _).
  - intros. apply bm_insert_contents.
  - intros c i _. set (ks := List.filter _ _). destruct (fold_remove ks (inner c)) as [H1 H2]. split; [done|]. intros b.
    destruct (bm_contents (foldl bm_remove (inner c) ks) !! (i, b)) as [v|] eqn:E; [|done].
    rewrite H2 in E; [done|]. apply list_elem_of_In, filter_In. split; [|apply Z.eqb_refl].
    apply list_elem_of_In, list_elem_of_fmap. exists ((i, b), v). split; [done|]. apply bm_iter_complete. by eapply lookup_weaken.
  - intros. apply bm_clear_contents.
Defined.
End Moka.
End Moka.

(** ** [FoyerMemCache] *)
Module Foyer.
Section Foyer.
Context {M : Type} `{BM : !BoundedMap M}.

Record FoyerMemCache := mk_foyer { inner : M; by_ino : gmap Z (gset (Z * Z)); capacity_bytes : Z; counts : lookup_counters; evictions : Z }.
Definition new (mem_limit : Z) : FoyerMemCache :=
  mk_foyer (bm_build (if mem_limit =? 0 then U64_MAX / 2 else mem_limit) lenZ) ∅ mem_limit zero_counters 0.
Definition get (c : FoyerMemCache) (ino block_idx : Z) : FoyerMemCache * option bytes :=
  let '(m, r) := bm_get (inner c) (ino, block_idx) in
  (mk_foyer m (by_ino c) (capacity_bytes c) (count_get r (counts c)) (evictions c), r).
Definition keys_of (c : FoyerMemCache) (ino : Z) : gset (Z * Z) := default ∅ (by_ino c !! ino).
Definition put (c : FoyerMemCache) (ino block_idx : Z) (data : bytes) : FoyerMemCache :=
  mk_foyer (bm_insert (inner c) (ino, block_idx) data) (<[ino := {[(ino, block_idx)]} ∪ keys_of c ino]> (by_ino c))
    (capacity_bytes c) (count_put (counts c)) (evictions c).
Definition invalidate_ino (c : FoyerMemCache) (ino : Z) : FoyerMemCache :=
  match by_ino c !! ino with
  | Some keys => mk_foyer (foldl bm_remove (inner c) (elements keys)) (delete ino (by_ino c)) (capacity_bytes c) (counts c) (evictions c)
  | None => c
  end.
Definition clear (c : FoyerMemCache) : FoyerMemCache := mk_foyer (bm_clear (inner c)) ∅ (capacity_bytes c) (counts c) (evictions c).
Definition len (c : FoyerMemCache) : Z := bm_usage (inner c).
Definition used_bytes (c : FoyerMemCache) : Z := bm_usage (inner c).
Definition stats (c : FoyerMemCache) : MemCacheStats :=
  mk_stats (hits (counts c)) (misses (counts c)) (inserts (counts c)) (evictions c)
    (bm_usage (inner c)) (bm_usage (inner c)) (capacity_bytes c).

#[global] Instance foyer_MemCache : MemCache FoyerMemCache :=
  {| mc_get := get; mc_put := put; mc_invalidate_ino := invalidate_ino; mc_clear := clear |}.

Context `{BML : !BoundedMapLaws M}.
(** The reverse index knows every cached block. *)
Definition wf (c : FoyerMemCache) : Prop := forall i b, is_Some (bm_contents (inner c) !! (i, b)) -> (i, b) ∈ keys_of c i.

Lemma foyer_wf_shrink m c ct : wf c -> bm_contents m ⊆ bm_contents (inner c) -> wf (mk_foyer m (by_ino c) (capacity_bytes c) ct (evictions c)).
Proof using. intros Hw Hs i b [v Hv]. apply Hw. exists v. by eapply lookup_weaken. Qed.

Lemma foyer_put_wf c i b d : wf c -> wf (put c i b d).
Proof using.
  intros Hw j b' [v Hv]. eapply lookup_weaken in Hv; [|apply bm_insert_contents]. unfold put, keys_of. cbn [by_ino].
  apply lookup_insert_Some in Hv as [[E <-]|[Hne Hv]].
  - simplify_eq. rewrite lookup_insert_eq. cbn. set_solver.
  - destruct (decide (i = j)) as [->|].
    + rewrite lookup_insert_eq. cbn. apply elem_of_union_r. apply Hw. by eexists.
    + rewrite lookup_insert_ne by done. apply Hw. by eexists.
Qed.

Lemma invalidate_spec c i : wf c ->
  wf (invalidate_ino c i) /\ bm_contents (inner (invalidate_ino c i)) ⊆ bm_contents (inner c) /\
  forall b, bm_contents (inner (invalidate_ino c i)) !! (i, b) = None.
Proof using.
  intros Hw. unfold invalidate_ino. destruct (by_ino c !! i) as [ks|] eqn:Ei.
  - destruct (fold_remove (elements ks) (inner c)) as [H1 H2]. cbn [inner]. split_and!; [|done|].
    + intros j b [v Hv]. cbn [inner] in Hv. unfold keys_of. cbn [by_ino]. destruct (decide (i = j)) as [<-|Hne].
      * pose proof (Hw i b ltac:(eexists; by eapply lookup_weaken)) as Hin. unfold keys_of in Hin. rewrite Ei in Hin.
        rewrite H2 in Hv; [done|]. by apply elem_of_elements.
      * rewrite lookup_delete_ne by done. apply (Hw j b). eexists. by eapply lookup_weaken.
    + intros b. destruct (bm_contents (foldl bm_remove (inner c) (elements ks)) !! (i, b)) as [v|] eqn:E; [|done].
      pose proof (Hw i b ltac:(eexists; by eapply lookup_weaken)) as Hin. unfold keys_of in Hin. rewrite Ei in Hin.
      rewrite H2 in E; [done|]. by apply elem_of_elements.
  - split_and!; [done|done|]. intros b. destruct (bm_contents (inner c) !! (i, b)) as [v|] eqn:E; [|done].
    pose proof (Hw i b ltac:(by eexists)) as Hin. unfold keys_of in Hin. rewrite Ei in Hin. cbn in Hin. set_solver.
Qed.

#[global] Instance foyer_MemCacheLaws : MemCacheLaws FoyerMemCache.
Proof.
  refine (Build_MemCacheLaws _ _ wf (fun c => bm_contents (inner c)) _ _ _ _ _ _ _ _ _); cbn.
  - intros c i b Hw. unfold get. pose proof (bm_get_contents (inner c) (i, b)) as Hg. destruct (bm_get _ _) as [m r]. by apply foyer_wf_shrink.
  - intros c i b _. unfold get. pose proof (bm_get_result (inner c) (i, b)) as Hg. by destruct (bm_get _ _).
  - intros c i b _. unfold get. pose proof (bm_get_contents (inner c) (i, b)) as Hg. by destruct (bm_get _ _).
  - intros. by apply foyer_put_wf.
  - intros. apply bm_insert_contents.
  - intros. by apply invalidate_spec.
  - intros. by apply invalidate_spec.
  - intros c _ i b [v Hv]. cbn in Hv. by rewrite bm_clear_contents in Hv.
  - intros. apply bm_clear_contents.
Defined.
End Foyer.
End Foyer.

(** ** The two caches against the cache that never evicts *)
Module Choice.
Import Lawful.
Definition is_get (o : op) : Z := match o with Get _ _ => 1 | _ => 0 end.
Definition gets (ops : list op) : Z := foldr (fun o n => is_get o + n) 0 ops.

Lemma count_get_total r n :
  wrap64 (hits (count_get r n) + misses (count_get r n)) = wrap64 (hits n + misses n + 1).
Proof. destruct r; cbn; unfold wrap64; [rewrite Zplus_mod_idemp_l|rewrite Zplus_mod_idemp_r]; f_equal; lia. Qed.

Section Choice.
Context {M : Type} `{BM : !BoundedMap M, IT : !Iterable M}.

Lemma moka_op_counts (c : Moka.MokaMemCache (M := M)) o :
  let n := Moka.counts c in let n' := Moka.counts (run_op c o) in
  wrap64 (hits n' + misses n') = wrap64 (hits n + misses n + is_get o).
Proof using.
  destruct o; cbn; rewrite ?Z.add_0_r; try done. unfold Moka.get. destruct (bm_get _ _). apply count_get_total.
Qed.

Lemma foyer_op_counts (c : Foyer.FoyerMemCache (M := M)) o :
  let n := Foyer.counts c in let n' := Foyer.counts (run_op c o) in
  wrap64 (hits n' + misses n') = wrap64 (hits n + misses n + is_get o) /\
  Foyer.evictions (run_op c o) = Foyer.evictions c.
Proof using.
  destruct o; cbn; rewrite ?Z.add_0_r; try done.
  - unfold Foyer.get. destruct (bm_get _ _). split; [apply count_get_total|done].
  - unfold Foyer.invalidate_ino. by destruct (Foyer.by_ino c !! _).
Qed.

Lemma run_counts {C} `{!MemCache C} (tally : C -> Z) ops :
  (forall c o, wrap64 (tally (run_op c o)) = wrap64 (tally c + is_get o)) ->
  forall c, wrap64 (tally (foldl run_op c ops)) = wrap64 (tally c + gets ops).
Proof using.
  intros Hstep. induction ops as [|o ops IH]; intros c; cbn [foldl gets foldr]; [by rewrite Z.add_0_r|].
  rewrite IH. unfold wrap64 in *. rewrite <- Zplus_mod_idemp_l, Hstep, Zplus_mod_idemp_l. f_equal. unfold gets. lia.
Qed.

Context `{BML : !BoundedMapLaws M, ITL : !IterableLaws M}.

(** C34: whichever of moka and foyer a mount chooses, and whatever its limit:
    after any sequence of lookups, inserts, invalidations of an inode and
    clears, with any evictions by the crate, a lookup returns nothing or exactly
    what the cache that never evicts returns (so never a block put before the
    last invalidation of its inode), and the hits and misses add up to the
    number of lookups, modulo 2^64. *)
Theorem other_caches_refine limit ops i b d :
  let m := foldl ideal_op ∅ ops in
  let mo := foldl run_op (Moka.new (M := M) limit) ops in
  let fo := foldl run_op (Foyer.new (M := M) limit) ops in
  (snd (Moka.get mo i b) = Some d -> m !! (i, b) = Some d) /\
  wrap64 (hits (Moka.counts mo) + misses (Moka.counts mo)) = wrap64 (gets ops) /\
  (snd (Foyer.get fo i b) = Some d -> m !! (i, b) = Some d) /\
  wrap64 (hits (Foyer.counts fo) + misses (Foyer.counts fo)) = wrap64 (gets ops).
Proof using BML ITL.
  intros m mo fo. split_and!.
  - apply (hit_is_ideal (MC := Moka.moka_MemCache) ops (Moka.new limit) i b d); [done|]. cbn. unfold Moka.new. case_match; apply bm_build_contents.
  - apply (run_counts (fun c => hits (Moka.counts c) + misses (Moka.counts c)) ops moka_op_counts (Moka.new limit)).
  - apply (hit_is_ideal (MC := Foyer.foyer_MemCache) ops (Foyer.new limit) i b d); [|apply bm_build_contents].
    intros j b' [v Hv]. cbn in Hv. by rewrite bm_build_contents in Hv.
  - apply (run_counts (fun c => hits (Foyer.counts c) + misses (Foyer.counts c)) ops
      (fun c o => proj1 (foyer_op_counts c o)) (Foyer.new limit)).
Qed.

(** The eviction counter of foyer stays 0, however many blocks the crate
    evicts. *)
Theorem foyer_never_counts_evictions limit ops :
  st_evictions (Foyer.stats (foldl run_op (Foyer.new (M := M) limit) ops)) = 0.
Proof using.
  cbn. change 0 with (Foyer.evictions (Foyer.new (M := M) limit)).
  generalize (Foyer.new (M := M) limit) as c. induction ops as [|o ops IH]; intros c; [done|].
  cbn [foldl]. rewrite IH. apply foyer_op_counts.
Qed.
End Choice.
End Choice.

(** ** A bounded map

    One that, over its capacity, keeps only the entry it just took in. *)
Module Bounded.
Record t := mk { cap : Z; weigher : bytes -> Z; entries : gmap (Z * Z) bytes; evicted : Z }.
Definition usage (m : t) : Z := foldr (fun kv n => weigher m (snd kv) + n) 0 (map_to_list (entries m)).
Definition insert (m : t) (k : Z * Z) (v : bytes) : t :=
  let m' := mk (cap m) (weigher m) (<[k := v]> (entries m)) (evicted m) in
  if usage m' <=? cap m then m'
  else mk (cap m) (weigher m) {[k := v]} (evicted m + Z.of_nat (size (delete k (entries m)))).
#[global] Instance bounded_map : BoundedMap t :=
  {| bm_build c w := mk c w ∅ 0; bm_get m k := (m, entries m !! k); bm_insert := insert;
     bm_remove m k := mk (cap m) (weigher m) (delete k (entries m)) (evicted m);
     bm_clear m := mk (cap m) (weigher m) ∅ (evicted m); bm_usage := usage |}.
#[global] Instance bounded_iterable : Iterable t :=
  {| bm_iter m := map_to_list (entries m); bm_entry_count m := Z.of_nat (size (entries m));
     bm_run_pending m := m; bm_evicted := evicted |}.
#[global] Instance bounded_laws : BoundedMapLaws t.
Proof.
  refine (Build_BoundedMapLaws _ _ entries _ _ _ _ _ _); try done.
  intros m k v. cbn. unfold insert. case_match; [done|]. cbn.
  apply map_subseteq_spec. intros k' v' [<- <-]%lookup_singleton_Some. apply lookup_insert_eq.
Defined.
#[global] Instance bounded_iterable_laws : IterableLaws t.
Proof. split. intros m k v Hk. by apply elem_of_map_to_list. Qed.
End Bounded.

Module Examples.
Import Lawful Bounded.
Definition block (n : nat) : bytes := replicate n x61.
Definition ops : list op := [Put 1 0 (block 3); Put 1 1 (block 4); InvalidateIno 1; Put 2 0 (block 6); Put 3 0 (block 5)].

(** With a limit of ten bytes the last insert evicts the block before it, and
    both caches find the last block, which is what the ideal cache holds. *)
Lemma other_caches_refine_witness :
  let mo := foldl run_op (Moka.new (M := Bounded.t) 10) ops in
  let fo := foldl run_op (Foyer.new (M := Bounded.t) 10) ops in
  snd (Moka.get mo 3 0) = Some (block 5) /\ snd (Foyer.get fo 3 0) = Some (block 5) /\
  snd (Moka.get mo 2 0) = None /\ snd (Foyer.get fo 2 0) = None /\
  foldl ideal_op ∅ ops !! (3, 0) = Some (block 5).
Proof.
  intros mo fo. split_and!; [vm_compute; reflexivity..|].
  apply (Choice.other_caches_refine (M := Bounded.t) 10 ops 3 0 (block 5)). vm_compute. reflexivity.
Defined.

(** With room for ten bytes foyer has evicted a block, and counts none. *)
Example foyer_counts_no_eviction :
  let c := foldl run_op (Foyer.new (M := Bounded.t) 10) ops in
  evicted (Foyer.inner c) = 1 /\ st_evictions (Foyer.stats c) = 0.
Proof. vm_compute. done. Qed.

(** One cached block of five bytes: moka has one entry, foyer says five. *)
Example foyer_len_counts_bytes :
  let o := [Put 3 0 (block 5)] in
  snd (Moka.len (foldl run_op (Moka.new (M := Bounded.t) 100) o)) = 1 /\
  Foyer.len (foldl run_op (Foyer.new (M := Bounded.t) 100) o) = 5 /\
  st_entries (Foyer.stats (foldl run_op (Foyer.new (M := Bounded.t) 100) o)) = 5.
Proof. vm_compute. done. Qed.

(** The weigher of the unbounded cache wraps: a block of 2^32 - 16 bytes
    weighs nothing. *)
Lemma unbounded_weight_wraps (v : bytes) : lenZ v = 2 ^ 32 - 16 -> Moka.weigh_unbounded v = 0.
Proof. intros E. unfold Moka.weigh_unbounded. by rewrite E. Qed.
End Examples.
