(* ===== verification/DiskPool.v ===== *)
(** * DiskPool: src/src/disk_write_pool.rs

    Jobs of the disk-I/O pool: positional writes to write-buffer files with
    their prefix fetch and retry, block-cache writes guarded by the path
    generation table, and the periodic fsync.  Operating-system calls that
    can fail take their outcome as an argument. *)

From Stdlib Require Import ZArith Lia Strings.Byte Strings.String.
From S2P Require Import Prelude Util BlockFormat.

(** ** Files and positional writes *)
Module FileIO.

Definition zeros (n : Z) : bytes := replicate (Z.to_nat n) Byte.x00.

(** [File::set_len]: cut, or extend with zeros. *)
Definition set_len (n : Z) (buf : bytes) : bytes := takeZ n buf ++ zeros (n - lenZ buf).

(** What [pwrite(fd, d, off)] leaves in a file that held [buf]: the reference
    for every write of the program. *)
Definition pwrite (off : Z) (d buf : bytes) : bytes :=
  takeZ off (set_len (Z.max off (lenZ buf)) buf) ++ d ++ dropZ (off + lenZ d) buf.

(** An open file: its bytes and the descriptor's cursor. *)
Record fdesc := mk_fdesc { fd_data : bytes; fd_pos : Z }.

(** [write_all] at the cursor. *)
Definition write_at_cursor (f : fdesc) (d : bytes) : fdesc :=
  mk_fdesc (pwrite (fd_pos f) d (fd_data f)) (fd_pos f + lenZ d).
Definition seek (off : Z) (f : fdesc) : fdesc := mk_fdesc (fd_data f) off.

Inductive io_error := StorageFull | InvalidInput | OtherIo.
#[export] Instance io_error_eq_dec : EqDecision io_error.
Proof. solve_decision. Defined.

(** Outcomes of the fallible calls of one [do_write]: a failing write has
    written the given number of bytes. *)
Record faults := mk_faults {
  f_prefix : option (Z * io_error);
  f_set_len : option io_error;
  f_write : option (Z * io_error)
}.
Definition no_faults : faults := mk_faults None None None.

Definition write_all (fault : option (Z * io_error)) (f : fdesc) (d : bytes)
    : fdesc * result unit io_error :=
  match fault with
  | None => (write_at_cursor f d, Ok tt)
  | Some (n, e) => (write_at_cursor f (takeZ n d), Err e)
  end.

(** [DiskWriteJob::do_write]; [remote] is the outcome of the prefix fetch. *)
Definition do_write (flt : faults) (remote : option bytes) (f : fdesc) (offset : Z) (data : bytes)
    : fdesc * result unit io_error :=
  match checked_add offset (lenZ data) with
  | None => (f, Err InvalidInput)
  | Some end_ =>
      let current_len := lenZ (fd_data f) in
      let '(f, r) :=
        if (0 <? offset) && (current_len =? 0) && (current_len <? offset) then
          match remote with
          | Some body => if lenZ body =? 0 then (f, Ok tt) else write_all (f_prefix flt) f body
          | None => (f, Ok tt)
          end
        else (f, Ok tt) in
      match r with
      | Err e => (f, Err e)
      | Ok _ =>
          let current_len := lenZ (fd_data f) in
          let '(f, r) :=
            if current_len <? end_ then
              match f_set_len flt with
              | Some e => (f, Err e)
              | None => (mk_fdesc (set_len end_ (fd_data f)) (fd_pos f), Ok tt)
              end
            else (f, Ok tt) in
          match r with
          | Err e => (f, Err e)
          | Ok _ => write_all (f_write flt) (seek offset f) data
          end
      end
  end.

(** The write of [execute] with its single retry after ENOSPC. *)
Definition execute_write (flt1 flt2 : faults) (remote1 remote2 : option bytes) (f : fdesc)
    (offset : Z) (data : bytes) : fdesc * result unit io_error :=
  match do_write flt1 remote1 f offset data with
  | (f, Err StorageFull) => do_write flt2 remote2 f offset data
  | r => r
  end.

Lemma lenZ_zeros n : lenZ (zeros n) = Z.max 0 n.
Proof. unfold lenZ, zeros. rewrite length_replicate. lia. Qed.

Lemma lenZ_set_len n buf : 0 <= n -> lenZ (set_len n buf) = n.
Proof.
  intros Hn. unfold set_len. rewrite lenZ_app, lenZ_takeZ, lenZ_zeros by done.
  pose proof (lenZ_nonneg buf). lia.
Qed.

Lemma lenZ_pwrite off d buf : 0 <= off ->
  lenZ (pwrite off d buf) = Z.max (lenZ buf) (off + lenZ d).
Proof.
  intros Hn. pose proof (lenZ_nonneg buf). pose proof (lenZ_nonneg d). unfold pwrite.
  rewrite !lenZ_app, lenZ_takeZ, lenZ_set_len, lenZ_dropZ by lia. lia.
Qed.

(** A file seen as a total function from offsets to bytes, zero past its end. *)
Definition byte_at (buf : bytes) (i : Z) : Byte.byte :=
  default Byte.x00 (buf !! Z.to_nat i).

Lemma byte_at_app l k i : 0 <= i ->
  byte_at (l ++ k) i = if i <? lenZ l then byte_at l i else byte_at k (i - lenZ l).
Proof.
  intros Hi. unfold byte_at, lenZ. case_test; bool_props.
  - by rewrite lookup_app_l by lia.
  - rewrite lookup_app_r by lia. do 2 f_equal. lia.
Qed.

Lemma byte_at_zeros n i : byte_at (zeros n) i = Byte.x00.
Proof.
  unfold byte_at, zeros. destruct (replicate _ _ !! _) eqn:E; [|done].
  apply lookup_replicate in E as [-> _]. done.
Qed.

Lemma byte_at_takeZ n l i : 0 <= i -> 0 <= n -> byte_at (takeZ n l) i = if i <? n then byte_at l i else Byte.x00.
Proof.
  intros Hi Hn. unfold byte_at, takeZ. case_test; bool_props.
  - by rewrite lookup_take_lt by lia.
  - by rewrite lookup_take_ge by lia.
Qed.

Lemma byte_at_dropZ n l i : 0 <= i -> 0 <= n -> byte_at (dropZ n l) i = byte_at l (n + i).
Proof. intros Hi Hn. unfold byte_at, dropZ. rewrite lookup_drop. do 2 f_equal. lia. Qed.

Lemma byte_at_end l i : lenZ l <= i -> byte_at l i = Byte.x00.
Proof. intros H. unfold byte_at, lenZ in *. by rewrite lookup_ge_None_2 by lia. Qed.

Lemma byte_at_set_len n l i : 0 <= i -> 0 <= n ->
  byte_at (set_len n l) i = if i <? n then byte_at l i else Byte.x00.
Proof.
  intros Hi Hn. unfold set_len. pose proof (lenZ_nonneg l).
  rewrite byte_at_app, lenZ_takeZ, byte_at_takeZ, byte_at_zeros by done.
  repeat case_test; bool_props; try done; try lia. symmetry. apply byte_at_end. lia.
Qed.

(** [pwrite], byte by byte. *)
Lemma byte_at_pwrite off d buf i : 0 <= i -> 0 <= off ->
  byte_at (pwrite off d buf) i =
    if (off <=? i) && (i <? off + lenZ d) then byte_at d (i - off) else byte_at buf i.
Proof.
  intros Hi Ho. pose proof (lenZ_nonneg buf). pose proof (lenZ_nonneg d). unfold pwrite.
  rewrite byte_at_app, lenZ_takeZ, lenZ_set_len, byte_at_takeZ, byte_at_set_len by lia.
  replace (off `min` (off `max` lenZ buf)) with off by lia.
  destruct (Z.ltb_spec i off), (Z.leb_spec off i); try lia; cbn [andb].
  - case_test; bool_props; [done|lia].
  - rewrite byte_at_app by lia.
    destruct (Z.ltb_spec (i - off) (lenZ d)), (Z.ltb_spec i (off + lenZ d)); try lia; [done|].
    rewrite byte_at_dropZ by lia. f_equal. lia.
Qed.

(** Files with the same length and bytes are equal. *)
Lemma byte_at_ext (l k : bytes) : lenZ l = lenZ k ->
  (forall i, 0 <= i < lenZ l -> byte_at l i = byte_at k i) -> l = k.
Proof.
  intros Hl Hb. apply list_eq_same_length with (length l); [unfold lenZ in *; lia|done|].
  intros i x y Hi Hx Hy. specialize (Hb (Z.of_nat i)). unfold byte_at, lenZ in *.
  rewrite Nat2Z.id, Hx, Hy in Hb. apply Hb. lia.
Qed.

(** The bytes a write at [offset] starts from: the fetched remote body when the
    file is still empty, else the file. *)
Definition base (offset : Z) (remote : option bytes) (buf : bytes) : bytes :=
  if (0 <? offset) && (lenZ buf =? 0) then default buf remote else buf.

Ltac solve_bytes :=
  apply byte_at_ext;
  [ rewrite ?lenZ_pwrite, ?lenZ_set_len, ?lenZ_pwrite by lia; lia
  | intros ?i ?Hi; rewrite ?byte_at_pwrite, ?byte_at_set_len by lia;
    repeat case_test; bool_props; try done; try lia ].

Lemma pwrite_empty d : pwrite 0 d [] = d.
Proof. unfold pwrite. cbn. unfold dropZ. by rewrite drop_nil, app_nil_r. Qed.

Lemma pwrite_set_len off d buf : 0 <= off -> lenZ buf < off + lenZ d ->
  pwrite off d (set_len (off + lenZ d) buf) = pwrite off d buf.
Proof.
  intros Ho Hl. pose proof (lenZ_nonneg buf). pose proof (lenZ_nonneg d).
  apply byte_at_ext; [rewrite !lenZ_pwrite, lenZ_set_len by lia; lia|]. intros i Hi.
  rewrite lenZ_pwrite, lenZ_set_len in Hi by lia. rewrite !byte_at_pwrite, byte_at_set_len by lia.
  repeat case_test; bool_props; try done; lia.
Qed.

Lemma pwrite_pwrite_take off n d buf : 0 <= off -> 0 <= n ->
  pwrite off d (pwrite off (takeZ n d) buf) = pwrite off d buf.
Proof.
  intros Ho Hn. pose proof (lenZ_nonneg buf). pose proof (lenZ_nonneg d).
  apply byte_at_ext; [rewrite !lenZ_pwrite, lenZ_takeZ by lia; lia|]. intros i Hi.
  rewrite lenZ_pwrite, lenZ_pwrite, lenZ_takeZ in Hi by lia. rewrite !byte_at_pwrite, lenZ_takeZ by lia.
  destruct (Z.leb_spec off i); cbn [andb]; [|done].
  destruct (Z.ltb_spec i (off + lenZ d)); [done|]. case_test; bool_props; [lia|done].
Qed.

(** A descriptor on which the prefix fetch is sound. *)
Definition fd_ok (f : fdesc) : Prop := fd_data f <> [] \/ fd_pos f = 0.

(** The prefix fetch, without a fault, from a descriptor whose cursor is at the
    start when the file is empty. *)
Definition after_prefix (remote : option bytes) (f : fdesc) (offset : Z) : fdesc * result unit io_error :=
  if (0 <? offset) && (lenZ (fd_data f) =? 0) && (lenZ (fd_data f) <? offset) then
    match remote with
    | Some body => if lenZ body =? 0 then (f, Ok tt) else write_all None f body
    | None => (f, Ok tt)
    end
  else (f, Ok tt).

Lemma after_prefix_spec remote f offset :
  fd_ok f ->
  exists f', after_prefix remote f offset = (f', Ok tt) /\ fd_data f' = base offset remote (fd_data f).
Proof.
  intros Hf. unfold after_prefix, base. destruct (Z.eqb_spec (lenZ (fd_data f)) 0) as [E|Hne];
    [|rewrite andb_false_r, andb_false_l; eauto].
  rewrite E, andb_true_r. destruct (0 <? offset); cbn [andb]; [|eauto].
  apply lenZ_0_nil in E. destruct Hf as [|Hp]; [done|].
  destruct remote as [body|]; cbn [default from_option]; [|eauto].
  destruct (Z.eqb_spec (lenZ body) 0) as [E0|]; [apply lenZ_0_nil in E0 as ->; eauto|].
  eexists. split; [done|]. cbn. by rewrite Hp, E, pwrite_empty.
Qed.

(** The write without I/O errors. *)
Lemma do_write_spec remote f offset data :
  0 <= offset -> fd_ok f -> offset + lenZ data <= U64_MAX ->
  exists f', do_write no_faults remote f offset data = (f', Ok tt) /\
    fd_data f' = pwrite offset data (base offset remote (fd_data f)) /\
    fd_pos f' = offset + lenZ data.
Proof.
  intros Ho Hf Hle. unfold do_write, checked_add. case_test; bool_props; [|lia].
  change (if (0 <? offset) && _ && _ then _ else _) with (after_prefix remote f offset).
  destruct (after_prefix_spec remote f offset Hf) as (f1 & -> & <-). cbn [no_faults f_set_len f_write].
  destruct (Z.ltb_spec (lenZ (fd_data f1)) (offset + lenZ data)); eexists; (split; [done|]); cbn;
    (split; [|done]); [by apply pwrite_set_len|done].
Qed.

(** A pool write.  Without I/O errors the job leaves exactly what
    [pwrite] leaves on the file (on the fetched remote body when the cache
    file was still empty); an offset whose end does not fit in 64 bits is
    refused and the file is untouched. *)
Theorem do_write_pwrite remote f offset data :
  0 <= offset -> fd_ok f ->
  if offset + lenZ data <=? U64_MAX
  then exists f', do_write no_faults remote f offset data = (f', Ok tt) /\
    fd_data f' = pwrite offset data (base offset remote (fd_data f)) /\
    fd_pos f' = offset + lenZ data
  else do_write no_faults remote f offset data = (f, Err InvalidInput).
Proof.
  intros Ho Hf. destruct (Z.leb_spec (offset + lenZ data) U64_MAX) as [Hle|Hgt].
  - by apply do_write_spec.
  - unfold do_write, checked_add. case_test; bool_props; [lia|done].
Qed.

Lemma do_write_pwrite_witness :
  exists f', do_write no_faults (Some (as_bytes "abc")) (mk_fdesc [] 0) 5 (as_bytes "x") = (f', Ok tt) /\
    fd_data f' = pwrite 5 (as_bytes "x") (as_bytes "abc") /\ fd_pos f' = 6.
Proof.
  apply (do_write_pwrite (Some (as_bytes "abc")) (mk_fdesc [] 0) 5 (as_bytes "x")); [lia|by right].
Defined.

Lemma after_prefix_fd_ok remote f offset f' :
  fd_ok f -> after_prefix remote f offset = (f', Ok tt) -> fd_ok f'.
Proof.
  intros Hf. unfold after_prefix. case_test; [|by intros; simplify_eq].
  destruct remote as [body|]; [|by intros; simplify_eq]. case_test; [by intros; simplify_eq|].
  bool_props. cbn. intros E. simplify_eq. left. cbn. intros E0.
  apply (f_equal lenZ) in E0. pose proof (lenZ_nonneg body).
  assert (fd_data f = []) as Ed by (by apply lenZ_0_nil).
  destruct Hf as [|Hp]; [done|]. rewrite Hp, Ed, pwrite_empty in E0.
  change (lenZ (@nil Byte.byte)) with 0 in E0. lia.
Qed.

Lemma base_nonempty offset remote buf : buf <> [] \/ offset <= 0 -> base offset remote buf = buf.
Proof.
  intros H. unfold base. destruct (Z.ltb_spec 0 offset), (Z.eqb_spec (lenZ buf) 0) as [E|]; try done.
  apply lenZ_0_nil in E. destruct H; [done|lia].
Qed.

Lemma base_base offset r1 r2 buf :
  base offset r2 (base offset r1 buf) = base offset r1 buf \/
  base offset r2 (base offset r1 buf) = base offset r2 buf.
Proof.
  destruct (base offset r1 buf) as [|x l] eqn:E; [|left; by apply base_nonempty; left].
  right. unfold base in E at 1. destruct (0 <? offset); cbn [andb] in E; [|by subst].
  case_if E as H0; [by apply lenZ_0_nil in H0 as ->|by subst].
Qed.

(** A final write that stops after [n] bytes is completed by the second
    attempt, whatever the prefix fetch answers this time. *)
Lemma retry_after_partial b f remote n offset data :
  0 <= offset -> 0 <= n -> offset + lenZ data <= U64_MAX ->
  fd_data f = pwrite offset (takeZ n data) b -> lenZ b >= offset + lenZ data -> fd_pos f >= 0 ->
  exists f', do_write no_faults remote f offset data = (f', Ok tt) /\
    fd_data f' = pwrite offset data b.
Proof.
  intros Ho Hn Hle Hf Hb Hp. pose proof (lenZ_nonneg data).
  assert (lenZ (fd_data f) = lenZ b) as El.
  { rewrite Hf, lenZ_pwrite, lenZ_takeZ by lia. lia. }
  unfold do_write, checked_add. case_test; bool_props; [|lia].
  destruct ((0 <? offset) && (lenZ (fd_data f) =? 0) && _) eqn:Hc'.
  { apply andb_true_iff in Hc' as [Hc' _]. bool_props. lia. }
  destruct (Z.ltb_spec (lenZ (fd_data f)) (offset + lenZ data)); [lia|].
  eexists. split; [done|]. cbn. rewrite Hf. by apply pwrite_pwrite_take.
Qed.

(** Retry after ENOSPC.  When the first attempt runs out of space while
    growing the file or after any number of bytes of the write itself, and
    the retry succeeds, the file is as if the write had succeeded at once. *)
Theorem execute_write_retry (set_len_fault : bool) (write_fault : option Z) remote1 remote2 f offset data :
  0 <= offset -> fd_ok f -> 0 <= fd_pos f -> offset + lenZ data <= U64_MAX ->
  match write_fault with Some n => 0 <= n | None => True end ->
  exists f' remote,
    execute_write
      (mk_faults None (if set_len_fault then Some StorageFull else None)
         ((fun n => (n, StorageFull)) <$> write_fault))
      no_faults remote1 remote2 f offset data = (f', Ok tt) /\
    (remote = remote1 \/ remote = remote2) /\
    fd_data f' = pwrite offset data (base offset remote (fd_data f)).
Proof.
  intros Ho Hf Hpos Hle Hn. pose proof (lenZ_nonneg data).
  unfold execute_write. unfold do_write at 1. unfold checked_add. case_test; bool_props; [|lia].
  cbn [f_prefix f_set_len f_write].
  change (if (0 <? offset) && _ && _ then _ else _) with (after_prefix remote1 f offset).
  destruct (after_prefix_spec remote1 f offset Hf) as (f1 & E1 & D1).
  pose proof (after_prefix_fd_ok _ _ _ _ Hf E1) as Hf1. rewrite E1.
  assert (Hdone : forall g, fd_data g = fd_data f1 -> fd_ok g ->
    exists f' remote, do_write no_faults remote2 g offset data = (f', Ok tt) /\
      (remote = remote1 \/ remote = remote2) /\
      fd_data f' = pwrite offset data (base offset remote (fd_data f))).
  { intros g Hg Hok. destruct (do_write_spec remote2 g offset data Ho Hok Hle) as (f' & Hw & Hd & _).
    rewrite Hg, D1 in Hd. exists f'.
    destruct (base_base offset remote1 remote2 (fd_data f)) as [E|E]; rewrite E in Hd; eauto. }
  destruct (Z.ltb_spec (lenZ (fd_data f1)) (offset + lenZ data)) as [Hlt|Hge].
  - destruct set_len_fault; [by apply Hdone|]. destruct write_fault as [n|]; cbn [fmap option_fmap option_map].
    + destruct (retry_after_partial (set_len (offset + lenZ data) (fd_data f1))
        (write_at_cursor (seek offset (mk_fdesc (set_len (offset + lenZ data) (fd_data f1)) (fd_pos f1)))
           (takeZ n data)) remote2 n offset data) as (f' & Hw & Hd);
        [done|done|done|done|rewrite lenZ_set_len; lia|cbn; pose proof (lenZ_nonneg (takeZ n data)); lia|].
      rewrite pwrite_set_len, D1 in Hd by done. exists f', remote1. cbn in *. rewrite Hw. auto.
    + eexists _, remote1. split; [done|]. split; [by left|]. cbn. by rewrite pwrite_set_len, D1.
  - destruct write_fault as [n|]; cbn [fmap option_fmap option_map].
    + destruct (retry_after_partial (fd_data f1) (write_at_cursor (seek offset f1) (takeZ n data))
        remote2 n offset data) as (f' & Hw & Hd);
        [done|done|done|done|lia|cbn; pose proof (lenZ_nonneg (takeZ n data)); lia|].
      rewrite D1 in Hd. exists f', remote1. cbn in *. rewrite Hw. auto.
    + eexists _, remote1. split; [done|]. split; [by left|]. cbn. by rewrite D1.
Qed.

Lemma execute_write_retry_witness :
  exists f' remote,
    execute_write (mk_faults None None (Some (1, StorageFull))) no_faults None None
      (mk_fdesc (as_bytes "hello") 0) 3 (as_bytes "XYZ") = (f', Ok tt) /\
    (remote = None \/ remote = None) /\
    fd_data f' = pwrite 3 (as_bytes "XYZ") (base 3 remote (as_bytes "hello")).
Proof.
  apply (execute_write_retry false (Some 1) None None (mk_fdesc (as_bytes "hello") 0) 3 (as_bytes "XYZ"));
    [lia|by right|cbn; lia|by vm_compute|lia].
Defined.

End FileIO.

(** ** Block-cache jobs and the generation table *)
Module BlockJobs.
Import FileIO.

Section Jobs.
Context `{CRC : !Crc32c, LZ : !Lz4}.
Context (salt : Z).

Definition PATH_CACHE_GEN_HARD_CAP : Z := 100000.

Definition path_cache_gen (gens : gmap string Z) (path : string) : Z := default 0 (gens !! path).

(** [bump_path_cache_gen], for a given cap. *)
Definition bump_path_cache_gen (cap : Z) (gens : gmap string Z) (path : string) : gmap string Z :=
  if Z.of_nat (size gens) <? cap then
    match gens !! path with
    | Some g => <[path := wrap64 (g + 1)]> gens
    | None => <[path := 1]> gens
    end
  else {[ path := 1 ]}.

(** A block-cache job, with the fields that mode uses. *)
Record DiskWriteJob := mk_job {
  job_remote_path : string;
  job_data : bytes;
  job_block_cache : string;
  job_cache_gen : Z
}.

Definition submit_block_cache_write (gens : gmap string Z) (remote_path : string) (block_idx : Z)
    (data : bytes) : DiskWriteJob :=
  mk_job remote_path data (PathHash.disk_cache_block_path salt remote_path block_idx)
    (path_cache_gen gens remote_path).

(** What a worker changes: the cache directory and the set of paths waiting for
    an fsync. *)
Record disk := mk_disk { d_fs : gmap string file; d_dirty : gset string }.

Definition register_pending_writeback (path : string) (d : disk) : disk :=
  mk_disk (d_fs d) ({[ path ]} ∪ d_dirty d).

(** [do_block_cache_write]: [write_fault] is how many bytes are written before
    [write_all] fails. *)
Definition do_block_cache_write (now : Z) (write_fault : option Z) (d : disk) (blk_path : string)
    (remote_path : string) (data : bytes) : disk :=
  match serialize_v3_block remote_path data with
  | None => d
  | Some buf =>
      let old := match d_fs d !! blk_path with Some f => file_data f | None => [] end in
      match write_fault with
      | Some n => mk_disk (<[blk_path := mk_file (pwrite 0 (takeZ n buf) old) now true]> (d_fs d)) (d_dirty d)
      | None =>
          register_pending_writeback blk_path
            (mk_disk (<[blk_path := mk_file (set_len (lenZ buf) (pwrite 0 buf old)) now true]> (d_fs d))
               (d_dirty d))
      end
  end.

Definition execute_block (now : Z) (write_fault : option Z) (gens : gmap string Z) (d : disk)
    (job : DiskWriteJob) : disk :=
  if negb (path_cache_gen gens (job_remote_path job) =? job_cache_gen job) then d
  else do_block_cache_write now write_fault d (job_block_cache job) (job_remote_path job) (job_data job).

(** A run of invalidations. *)
Definition bumps (cap : Z) (gens : gmap string Z) (paths : list string) : gmap string Z :=
  foldl (bump_path_cache_gen cap) gens paths.

Lemma bump_same cap gens p : Z.of_nat (size gens) < cap ->
  path_cache_gen (bump_path_cache_gen cap gens p) p = wrap64 (path_cache_gen gens p + 1).
Proof.
  intros Hs. unfold bump_path_cache_gen, path_cache_gen. case_test; bool_props; [|lia].
  destruct (gens !! p); cbn; by rewrite lookup_insert_eq.
Qed.

Lemma bump_other cap gens p q : Z.of_nat (size gens) < cap -> p <> q ->
  path_cache_gen (bump_path_cache_gen cap gens p) q = path_cache_gen gens q.
Proof.
  intros Hs Hne. unfold bump_path_cache_gen, path_cache_gen. case_test; bool_props; [|lia].
  destruct (gens !! p); cbn; by rewrite lookup_insert_ne.
Qed.

Lemma bump_size cap gens p : Z.of_nat (size gens) < cap ->
  Z.of_nat (size (bump_path_cache_gen cap gens p)) <= Z.of_nat (size gens) + 1.
Proof.
  intros Hs. unfold bump_path_cache_gen. case_test; bool_props; [|lia].
  destruct (gens !! p) eqn:E.
  - rewrite map_size_insert_Some by eauto. lia.
  - rewrite map_size_insert_None by done. lia.
Qed.

(** How often a path is in a list of invalidations. *)
Fixpoint times (p : string) (paths : list string) : Z :=
  match paths with
  | [] => 0
  | q :: rest => (if bool_decide (q = p) then 1 else 0) + times p rest
  end.

Lemma times_range p paths : 0 <= times p paths <= lenZ paths.
Proof. unfold lenZ. induction paths; cbn [times length]; [lia|]. case_test; lia. Qed.

Lemma bumps_gen cap gens p paths :
  is_u64 (path_cache_gen gens p) -> Z.of_nat (size gens) + lenZ paths <= cap ->
  path_cache_gen (bumps cap gens paths) p = wrap64 (path_cache_gen gens p + times p paths).
Proof.
  revert gens. induction paths as [|q paths IH]; intros gens Hg Hs.
  - cbn. by rewrite Z.add_0_r, wrap64_small.
  - unfold lenZ in Hs. cbn [length] in Hs. cbn [bumps foldl times].
    pose proof (bump_size cap gens q ltac:(lia)).
    change (foldl _ ?g paths) with (bumps cap g paths).
    destruct (decide (q = p)) as [->|Hne].
    + rewrite IH; rewrite ?bump_same by lia; [|apply wrap64_range|unfold lenZ; lia].
      rewrite bool_decide_true, wrap64_add_l by done. f_equal. lia.
    + rewrite IH; rewrite ?bump_other by (done || lia); [|done|unfold lenZ; lia].
      by rewrite bool_decide_false by done.
Qed.

Lemma times_pos p paths : p ∈ paths -> 0 < times p paths.
Proof.
  induction paths as [|q paths IH]; intros Hin; [by apply not_elem_of_nil in Hin|].
  cbn [times]. pose proof (times_range p paths). destruct (decide (q = p)) as [->|Hne].
  - rewrite bool_decide_true by done. lia.
  - rewrite bool_decide_false by done. apply elem_of_cons in Hin as [->|Hin]; [done|].
    apply IH in Hin. lia.
Qed.

Lemma times_zero p paths : p ∉ paths -> times p paths = 0.
Proof.
  induction paths as [|q paths IH]; [done|]. intros Hn. apply not_elem_of_cons in Hn as [Hne Hn].
  cbn [times]. rewrite bool_decide_false, IH by (done || congruence). lia.
Qed.

(** The generation guard.  A block job queued by a read is dropped exactly
    when its path was invalidated while it waited, provided the table was not
    cleared in between. *)
Theorem stale_block_job_dropped cap gens paths p idx data now fault d :
  is_u64 (path_cache_gen gens p) -> Z.of_nat (size gens) + lenZ paths <= cap ->
  lenZ paths <= U64_MAX ->
  execute_block now fault (bumps cap gens paths) d (submit_block_cache_write gens p idx data) =
    if bool_decide (p ∈ paths) then d
    else do_block_cache_write now fault d (PathHash.disk_cache_block_path salt p idx) p data.
Proof.
  intros Hg Hs Hl. unfold execute_block. cbn. rewrite bumps_gen by done.
  pose proof (times_range p paths). unfold is_u64, U64_MAX in *.
  case_test; bool_props.
  - rewrite bool_decide_true; [done|]. destruct (decide (p ∈ paths)) as [|Hn]; [done|].
    rewrite times_zero, Z.add_0_r, wrap64_small in Hc by (done || unfold is_u64, U64_MAX; lia). done.
  - rewrite bool_decide_false; [done|]. intros Hin%times_pos. unfold wrap64 in Hc. lia.
Qed.

(** Clearing the table defeats the guard.  When the table is full, the
    invalidation of a path whose generation is 1 leaves its generation at 1,
    so a block job queued before the invalidation still writes its stale
    block. *)
Theorem clear_keeps_generation cap gens p idx data now fault d :
  cap <= Z.of_nat (size gens) -> gens !! p = Some 1 ->
  execute_block now fault (bump_path_cache_gen cap gens p) d (submit_block_cache_write gens p idx data) =
    do_block_cache_write now fault d (PathHash.disk_cache_block_path salt p idx) p data.
Proof.
  intros Hs Hp. unfold execute_block, submit_block_cache_write, path_cache_gen, bump_path_cache_gen.
  cbn [job_remote_path job_cache_gen job_block_cache job_data].
  destruct (Z.ltb_spec (Z.of_nat (size gens)) cap); [lia|].
  by rewrite Hp, lookup_singleton_eq.
Qed.

End Jobs.

Lemma set_len_exact (buf old : bytes) : set_len (lenZ buf) (pwrite 0 buf old) = buf.
Proof.
  pose proof (lenZ_nonneg buf). apply byte_at_ext; [apply lenZ_set_len; lia|].
  rewrite lenZ_set_len by lia. intros i Hi. rewrite byte_at_set_len, byte_at_pwrite by lia.
  repeat case_test; bool_props; try lia; try (f_equal; lia).
Qed.

(** Write, then read.  A block job that is not dropped and does not fail
    leaves a file from which a read of the same path gets exactly the block's
    bytes, even over a longer stale file, and the path is queued for fsync;
    no other file changes. *)
Theorem block_job_then_read `{CRC : !Crc32c, CRCL : !Crc32cLaws, LZ : !Lz4, LZL : !Lz4Laws}
    salt now gens d p idx data :
  utf8_valid (as_bytes p) = true -> lenZ (as_bytes p) <= MAX_PATH_LEN ->
  lenZ data <= CACHE_BLOCK_SIZE ->
  let name := PathHash.disk_cache_block_path salt p idx in
  let d' := execute_block now None gens d (submit_block_cache_write salt gens p idx data) in
  read_block_cached (d_fs d') name p = (d_fs d', Some data) /\
  name ∈ d_dirty d' /\
  forall n, n <> name -> d_fs d' !! n = d_fs d !! n.
Proof.
  intros Hu Hp Hd name d'. subst d'. unfold execute_block, submit_block_cache_write. cbn.
  rewrite Z.eqb_refl. cbn [negb]. unfold do_block_cache_write. fold name.
  destruct (serialize_v3_block p data) as [buf|] eqn:Es.
  - rewrite set_len_exact. cbn. split; [|split].
    + rewrite (read_serialized _ _ _ _ _ _ _ Es Hd (lookup_insert_eq _ _ _)) by done.
      by rewrite Hu, String.eqb_refl.
    + set_solver.
    + intros n Hn. by rewrite lookup_insert_ne.
  - rewrite serialize_v3_layout in Es. case_if Es as Hc; [lia|done].
Qed.

#[local] Existing Instance soft_crc32c.
#[local] Existing Instance soft_crc32c_laws.
#[local] Existing Instance stored_lz4.
#[local] Existing Instance stored_lz4_laws.

Lemma stale_block_job_dropped_witness :
  let gens : gmap string Z := {[ "a"%string := 4 ]} in
  let d := mk_disk ∅ ∅ in
  execute_block 0 None (bumps 10 gens ["b"; "a"]%string) d
    (submit_block_cache_write 0 gens "a" 2 (as_bytes "old")) = d.
Proof.
  apply (stale_block_job_dropped 0 10 {[ "a"%string := 4 ]} ["b"; "a"]%string "a" 2 (as_bytes "old") 0 None
    (mk_disk ∅ ∅)); by vm_compute.
Defined.

Lemma clear_keeps_generation_witness :
  let gens : gmap string Z := {[ "a"%string := 1; "b"%string := 7 ]} in
  let d := mk_disk ∅ ∅ in
  execute_block 0 None (bump_path_cache_gen 2 gens "a") d
    (submit_block_cache_write 0 gens "a" 2 (as_bytes "old")) =
  do_block_cache_write 0 None d (PathHash.disk_cache_block_path 0 "a" 2) "a" (as_bytes "old").
Proof.
  apply (clear_keeps_generation 0 2 {[ "a"%string := 1; "b"%string := 7 ]} "a" 2 (as_bytes "old") 0 None
    (mk_disk ∅ ∅)); by vm_compute.
Defined.

Lemma block_job_then_read_witness :
  let name := PathHash.disk_cache_block_path 0 "a" 2 in
  let d := mk_disk {[ name := mk_file (zeros 100) 0 true ]} ∅ in
  let d' := execute_block 5 None ∅ d (submit_block_cache_write 0 ∅ "a" 2 (as_bytes "new")) in
  read_block_cached (d_fs d') name "a" = (d_fs d', Some (as_bytes "new")).
Proof.
  refine (proj1 (block_job_then_read 0 5 ∅
    (mk_disk {[ PathHash.disk_cache_block_path 0 "a" 2 := mk_file (zeros 100) 0 true ]} ∅) "a" 2
    (as_bytes "new") _ _ _)); by vm_compute.
Defined.

End BlockJobs.

(** ** The periodic fsync *)
Module Fsync.

Definition MAX_FSYNC_BATCH_PER_TICK : nat := 1024.

Inductive sync_outcome := Synced | SyncFailed | OpenNotFound | OpenFailed.

(** One path of a tick: what is left in [DIRTY_CACHE_PATHS]. *)
Definition fsync_one (outcome : string -> sync_outcome) (dirty : gset string) (path : string)
    : gset string :=
  match outcome path with
  | Synced | OpenNotFound => dirty ∖ {[ path ]}
  | SyncFailed | OpenFailed => dirty
  end.

(** One tick: the first 1024 paths of the set are tried. *)
Definition fsync_tick (outcome : string -> sync_outcome) (dirty : gset string) : gset string :=
  foldl (fsync_one outcome) dirty (take MAX_FSYNC_BATCH_PER_TICK (elements dirty)).

Fixpoint ticks (n : nat) (outcome : string -> sync_outcome) (dirty : gset string) : gset string :=
  match n with O => dirty | S n' => ticks n' outcome (fsync_tick outcome dirty) end.

(** The interleaving of a pool write with the thread's two accesses to the set:
    [unsynced] is ghost state, the files with bytes only in the page cache. *)
Record state := mk_state { dirty : gset string; unsynced : gset string }.
Inductive event :=
| PoolWrite (p : string)   (* write to the file, then [register_pending_writeback] *)
| SyncData (p : string)    (* [sync_data] on the fsync thread *)
| RemoveEntry (p : string) (* [DIRTY_CACHE_PATHS.remove] after it *).
Definition apply_event (s : state) (e : event) : state :=
  match e with
  | PoolWrite p => mk_state ({[ p ]} ∪ dirty s) ({[ p ]} ∪ unsynced s)
  | SyncData p => mk_state (dirty s) (unsynced s ∖ {[ p ]})
  | RemoveEntry p => mk_state (dirty s ∖ {[ p ]}) (unsynced s)
  end.

Definition removes (o : sync_outcome) : bool :=
  match o with Synced | OpenNotFound => true | _ => false end.

Lemma fsync_fold outcome ps d p :
  p ∈ foldl (fsync_one outcome) d ps <-> p ∈ d /\ ~ (p ∈ ps /\ removes (outcome p) = true).
Proof.
  revert d. induction ps as [|q ps IH]; intros d; cbn [foldl]; [set_solver|].
  rewrite IH. unfold fsync_one. destruct (decide (p = q)) as [->|Hne].
  - destruct (outcome q); cbn; set_solver.
  - destruct (outcome q); set_solver.
Qed.

Lemma tick_elem outcome d p :
  p ∈ fsync_tick outcome d <->
  p ∈ d /\ ~ (p ∈ take MAX_FSYNC_BATCH_PER_TICK (elements d) /\ removes (outcome p) = true).
Proof. apply fsync_fold. Qed.

(** When nothing fails, a tick removes its whole batch. *)
Lemma tick_all_ok outcome d : (forall p, removes (outcome p) = true) ->
  fsync_tick outcome d = list_to_set (drop MAX_FSYNC_BATCH_PER_TICK (elements d)).
Proof.
  intros Hok. apply set_eq. intros p. rewrite tick_elem, Hok, elem_of_list_to_set.
  rewrite <-(elem_of_elements d p). pose proof (NoDup_elements d) as Hnd.
  rewrite <-(take_drop MAX_FSYNC_BATCH_PER_TICK (elements d)) in Hnd |- * at 1.
  apply NoDup_app in Hnd as (_ & Hd & _). rewrite elem_of_app. specialize (Hd p). tauto.
Qed.

Lemma tick_size outcome d : (forall p, removes (outcome p) = true) ->
  size (fsync_tick outcome d) = (size d - MAX_FSYNC_BATCH_PER_TICK)%nat.
Proof.
  intros Hok. rewrite tick_all_ok by done. rewrite size_list_to_set.
  - rewrite length_drop. done.
  - pose proof (NoDup_elements d) as Hnd.
    rewrite <-(take_drop MAX_FSYNC_BATCH_PER_TICK (elements d)) in Hnd. by apply NoDup_app in Hnd as (_ & _ & ?).
Qed.

(** The fsync thread.  A tick never adds a path, removes one only after a
    successful [sync_data] or when the file is gone, and handles at most 1024;
    and with no failures and no new writes a backlog of [n] paths is empty
    after [n / 1024] ticks, rounded up. *)
Theorem fsync_drains outcome d n :
  (forall p, p ∈ fsync_tick outcome d -> p ∈ d) /\
  (forall p, p ∈ d -> p ∉ fsync_tick outcome d -> outcome p = Synced \/ outcome p = OpenNotFound) /\
  (size d <= size (fsync_tick outcome d) + MAX_FSYNC_BATCH_PER_TICK)%nat /\
  ((forall p, removes (outcome p) = true) -> (size d <= n * MAX_FSYNC_BATCH_PER_TICK)%nat ->
     ticks n outcome d = ∅).
Proof.
  split; [|split; [|split]].
  - intros p Hp. by apply tick_elem in Hp as [? _].
  - intros p Hp Hn. rewrite tick_elem in Hn. destruct (outcome p) eqn:E; auto; exfalso;
      apply Hn; (split; [done|]); intros [_ ?]; cbn in *; congruence.
  - assert (d ⊆ fsync_tick outcome d ∪ list_to_set (take MAX_FSYNC_BATCH_PER_TICK (elements d))) as Hs.
    { intros p Hp. rewrite elem_of_union, tick_elem, elem_of_list_to_set.
      destruct (decide (p ∈ take MAX_FSYNC_BATCH_PER_TICK (elements d))); tauto. }
    apply subseteq_size in Hs. etrans; [exact Hs|]. rewrite size_union_alt.
    apply Nat.add_le_mono_l. etrans; [apply subseteq_size, subseteq_difference_l; reflexivity|].
    rewrite size_list_to_set, length_take; [lia|]. pose proof (NoDup_elements d) as Hnd.
    rewrite <-(take_drop MAX_FSYNC_BATCH_PER_TICK (elements d)) in Hnd. by apply NoDup_app in Hnd as (? & _).
  - intros Hok. revert d. induction n as [|n IH]; intros d Hn; cbn [ticks].
    + apply leibniz_equiv, size_empty_iff. lia.
    + apply IH. rewrite tick_size by done. lia.
Qed.

(** A write between [sync_data] and the removal is forgotten: its bytes
    are only in the page cache and the path is not queued any more. *)
Theorem fsync_race_forgets p :
  let s := foldl apply_event (mk_state ∅ ∅) [PoolWrite p; SyncData p; PoolWrite p; RemoveEntry p] in
  p ∈ unsynced s /\ p ∉ dirty s.
Proof. cbn. set_solver. Qed.

End Fsync.
