(* ===== verification/Pool.v ===== *)
(** * Pool: the threads of src/src/disk_write_pool.rs and its process-wide cells

    [DiskPool] has what one job does; here jobs wait in the bounded channel and
    any of the worker threads takes the next one.  [Pool] is the step relation
    and what a run leaves on disk, a job taking effect when its worker is done; [Globals] are the [OnceCell]s of the module,
    set by every mount of the process and kept from the first. *)

From Stdlib Require Import ZArith Lia Strings.Byte Strings.String.
From S2P Require Import Prelude Util BlockFormat DiskPool.

Module Pool.
Import FileIO BlockJobs.

Section Jobs.
Context `{CRC : !Crc32c, LZ : !Lz4}.

(** The jobs the program submits: a write to a file by its path ([write]
    without a descriptor) and a block of the read cache. *)
Inductive job :=
| FileJob (path remote_path : string) (offset : Z) (data : bytes)
| BlockJob (b : DiskWriteJob).
Definition target (j : job) : string :=
  match j with FileJob p _ _ _ => p | BlockJob b => job_block_cache b end.

(** What the system answers while a job runs: the clock, whether the file opens,
    the faults of the first try and of the retry with the bodies the backend
    gives for the prefix, where a block write fails, and the generation table. *)
Record outcome := mk_outcome {
  o_now : Z; o_open : bool; o_faults1 : faults; o_faults2 : faults;
  o_remote1 : option bytes; o_remote2 : option bytes; o_block : option Z; o_gens : gmap string Z
}.

Definition old_bytes (f : option file) : bytes := match f with Some f => file_data f | None => [] end.
(** [DiskWriteJob::execute]. *)
Definition execute (o : outcome) (j : job) (d : disk) : disk :=
  if o_open o then
    match j with
    | BlockJob b => execute_block (o_now o) (o_block o) (o_gens o) d b
    | FileJob p _ offset data =>
        let '(f, _) := execute_write (o_faults1 o) (o_faults2 o) (o_remote1 o) (o_remote2 o)
                         (mk_fdesc (old_bytes (d_fs d !! p)) 0) offset data in
        register_pending_writeback p (mk_disk (<[p := mk_file (fd_data f) (o_now o) true]> (d_fs d)) (d_dirty d))
    end
  else d.

(** ** The channel and the workers *)
Definition DISK_WRITE_QUEUE_CAP : nat := 4096.

(** [submitted], [started] and [executed] are ghosts: the jobs in the order they
    were sent, taken and finished. *)
Record state := mk_state {
  queue : list job;
  busy : list job;
  files : disk;
  submitted : list job;
  started : list job;
  executed : list (job * outcome)
}.
Definition init (d : disk) : state := mk_state [] [] d [] [] [].

Inductive action :=
| Submit (j : job)
| Take
| Finish (k : nat) (o : outcome).

(** [Submit]: [tx.send], which waits while the channel is full.  [Take]: an idle
    worker of the [n] receives.  [Finish]: the [k]-th busy worker is done. *)
Definition act (n : nat) (a : action) (s : state) : option state :=
  match a with
  | Submit j =>
      if (length (queue s) <? DISK_WRITE_QUEUE_CAP)%nat
      then Some (mk_state (queue s ++ [j]) (busy s) (files s) (submitted s ++ [j]) (started s) (executed s))
      else None
  | Take =>
      match queue s with
      | j :: rest =>
          if (length (busy s) <? n)%nat
          then Some (mk_state rest (busy s ++ [j]) (files s) (submitted s) (started s ++ [j]) (executed s))
          else None
      | [] => None
      end
  | Finish k o =>
      match busy s !! k with
      | Some j => Some (mk_state (queue s) (delete k (busy s)) (execute o j (files s)) (submitted s) (started s)
                          (executed s ++ [(j, o)]))
      | None => None
      end
  end.
Definition step (n : nat) (s s' : state) : Prop := exists a, act n a s = Some s'.
Fixpoint run (n : nat) (actions : list action) (s : state) : option state :=
  match actions with
  | [] => Some s
  | a :: rest => match act n a s with Some s' => run n rest s' | None => None end
  end.
Definition idle (s : state) : Prop := queue s = [] /\ busy s = [].

Definition perform (d : disk) (x : job * outcome) : disk := execute (snd x) (fst x) d.

(** ** A job changes its own file *)
Lemma insert_as_alter (g : option file -> file) p (m : gmap string file) :
  <[p := g (m !! p)]> m = partial_alter (Some ∘ g) p m.
Proof using.
  apply map_eq. intros i. destruct (decide (i = p)) as [->|].
  - by rewrite lookup_insert_eq, lookup_partial_alter_eq.
  - by rewrite lookup_insert_ne, lookup_partial_alter_ne.
Qed.

Lemma execute_shape o j : exists (g : option file -> option file) (S : gset string),
  forall d, execute o j d = mk_disk (partial_alter g (target j) (d_fs d)) (S ∪ d_dirty d).
Proof using.
  assert (forall p : string, exists (g : option file -> option file) (S : gset string),
    forall d, d = mk_disk (partial_alter g p (d_fs d)) (S ∪ d_dirty d)) as Hid.
  { intros p. exists id, ∅. intros [fs dirty]. cbn. rewrite (left_id_L ∅ (∪)). f_equal.
    apply map_eq. intros i. destruct (decide (i = p)) as [->|]; [by rewrite lookup_partial_alter_eq|by rewrite lookup_partial_alter_ne]. }
  unfold execute. destruct (o_open o); [|apply Hid]. destruct j as [p r off data|b]; cbn [target].
  - eexists (Some ∘ fun f => mk_file (fd_data (fst (execute_write (o_faults1 o) (o_faults2 o) (o_remote1 o) (o_remote2 o)
      (mk_fdesc (old_bytes f) 0) off data))) (o_now o) true), {[p]}.
    intros d. rewrite <- insert_as_alter. by destruct (execute_write _ _ _ _ _ _ _).
  - unfold execute_block. case_test; [apply Hid|]. unfold do_block_cache_write.
    destruct (serialize_v3_block _ _) as [buf|]; [|apply Hid]. destruct (o_block o) as [k|].
    + eexists (Some ∘ fun f => mk_file (pwrite 0 (takeZ k buf) (old_bytes f)) (o_now o) true), ∅.
      intros d. rewrite <- insert_as_alter. by rewrite (left_id_L ∅ (∪)).
    + eexists (Some ∘ fun f => mk_file (set_len (lenZ buf) (pwrite 0 buf (old_bytes f))) (o_now o) true), {[job_block_cache b]}.
      intros d. by rewrite <- insert_as_alter.
Qed.

(** Jobs on different files commute. *)
Lemma execute_comm x y d : target (fst x) <> target (fst y) -> perform (perform d x) y = perform (perform d y) x.
Proof using.
  intros Hne. unfold perform. destruct (execute_shape (snd x) (fst x)) as (g & S & Hx).
  destruct (execute_shape (snd y) (fst y)) as (h & T & Hy). rewrite !Hx, !Hy. cbn [d_fs d_dirty]. f_equal.
  - by apply partial_alter_partial_alter_ne.
  - set_solver.
Qed.

Lemma perform_perm l l' : l ≡ₚ l' -> NoDup (target ∘ fst <$> l) -> forall d, foldl perform d l = foldl perform d l'.
Proof using.
  induction 1 as [|x l l' _ IH|x y l|l1 l2 l3 H1 IH1 _ IH2]; intros Hn d; cbn [foldl].
  - done.
  - apply IH. by apply NoDup_cons in Hn as [_ ?].
  - f_equal. apply execute_comm. apply NoDup_cons in Hn as [Hn _]. cbn in Hn. intros E. apply Hn. rewrite E. left.
  - rewrite IH1 by done. apply IH2. by rewrite <- H1.
Qed.

(** ** The invariant *)
Record inv (n : nat) (d : disk) (s : state) : Prop := {
  inv_jobs : (fst <$> executed s) ++ busy s ++ queue s ≡ₚ submitted s;
  inv_started : started s ++ queue s = submitted s;
  inv_queue : (length (queue s) <= DISK_WRITE_QUEUE_CAP)%nat;
  inv_busy : (length (busy s) <= n)%nat;
  inv_files : files s = foldl perform d (executed s);
  inv_one : (n <= 1)%nat -> (fst <$> executed s) ++ busy s ++ queue s = submitted s
}.

Lemma pool_init_inv n d : inv n d (init d).
Proof using. split; cbn; try done; lia. Qed.

Lemma pool_submit_inv n d s s' j : inv n d s -> act n (Submit j) s = Some s' -> inv n d s'.
Proof using.
  intros [H1 H2 H3 H4 H5 H6]. cbn [act]. case_test; [|done]. bool_props. intros E. simplify_eq.
  split; cbn; try done.
  - by rewrite <- H1, <- !app_assoc.
  - by rewrite app_assoc, H2.
  - rewrite length_app. cbn. apply Nat.ltb_lt in Hc. lia.
  - intros Hn. by rewrite <- (H6 Hn), <- !app_assoc.
Qed.

Lemma pool_take_inv n d s s' : inv n d s -> act n Take s = Some s' -> inv n d s'.
Proof using.
  intros [H1 H2 H3 H4 H5 H6]. cbn [act]. destruct (queue s) as [|j rest] eqn:Eq; [done|]. case_test; [|done].
  intros E. simplify_eq. apply Nat.ltb_lt in Hc. split; cbn in *; try done.
  - by rewrite <- app_assoc.
  - by rewrite <- app_assoc.
  - lia.
  - rewrite length_app. cbn. lia.
  - intros Hn. rewrite <- app_assoc. by apply H6.
Qed.

Lemma pool_finish_inv n d s s' k o : inv n d s -> act n (Finish k o) s = Some s' -> inv n d s'.
Proof using.
  intros [H1 H2 H3 H4 H5 H6]. cbn [act]. destruct (busy s !! k) as [j|] eqn:Ej; [|done].
  intros E. simplify_eq. split; cbn; try done.
  - rewrite fmap_app, <- app_assoc. cbn. rewrite <- H1. f_equiv. rewrite app_comm_cons. f_equiv.
    symmetry. by apply delete_Permutation.
  - rewrite length_delete by done. lia.
  - by rewrite foldl_app, H5.
  - intros Hn. rewrite fmap_app, <- app_assoc. cbn. rewrite <- (H6 Hn). f_equal.
    destruct (busy s) as [|b [|b' bs]]; cbn in H4; [done| |lia]. destruct k; [|done]. by simplify_eq/=.
Qed.

Lemma pool_step_inv n d s s' : inv n d s -> step n s s' -> inv n d s'.
Proof using. intros Hi [[j| |k o] Ha]; [by eapply pool_submit_inv|by eapply pool_take_inv|by eapply pool_finish_inv]. Qed.

(** C25: the disk-I/O pool.  However many workers there are and however they are
    scheduled: the channel holds at most 4096 jobs and no more jobs run than
    there are workers, jobs start in the order they were sent, and once the pool
    is idle each job sent was executed once.  With a single worker, or when the
    jobs write different files, the cache directory is then what executing them
    one after the other in the order they were sent leaves. *)
Theorem pool_sequential n d s :
  rtc (step n) (init d) s ->
  (length (queue s) <= DISK_WRITE_QUEUE_CAP)%nat /\ (length (busy s) <= n)%nat /\
  started s ++ queue s = submitted s /\
  (idle s -> (fst <$> executed s) ≡ₚ submitted s /\
     ((n <= 1)%nat \/ NoDup (target <$> submitted s) ->
      exists l, l ≡ₚ executed s /\ fst <$> l = submitted s /\ files s = foldl perform d l)).
Proof using.
  intros Hr. assert (inv n d s) as [H1 H2 H3 H4 H5 H6].
  { eapply rtc_invariant; [apply pool_init_inv|intros; by eapply pool_step_inv|exact Hr]. }
  split_and!; try done. intros [Eq Eb]. rewrite Eq, Eb, app_nil_r in H1, H6. split; [done|]. intros [Hn|Hnd].
  - exists (executed s). split_and!; [done|by apply H6|done].
  - symmetry in H1. pose proof H1 as Hp. apply Permutation_map_inv in Hp as (l & El & Hl). exists l. split_and!.
    + by symmetry.
    + by symmetry.
    + rewrite H5. apply perform_perm; [done|]. rewrite list_fmap_compose. by rewrite <- H1.
Qed.

(** ** Every job is executed *)
Definition measure (s : state) : nat := 2 * length (queue s) + length (busy s).
Definition is_submit (a : action) : bool := match a with Submit _ => true | _ => false end.

(** Nothing stays in the pool.  Unless it is idle a worker can take or finish
    a job, whatever happened before, and every such action leaves less to do: when
    nothing more is sent the pool is idle after at most two actions for each job
    waiting and one for each job running. *)
Theorem pool_drains n s :
  (0 < n)%nat ->
  (idle s \/ forall o, exists a s', is_submit a = false /\ act n a s = Some s' /\
                    match a with Finish _ o' => o' = o | _ => True end) /\
  (forall actions s', forallb (negb ∘ is_submit) actions = true -> run n actions s = Some s' ->
     (measure s' + length actions <= measure s)%nat).
Proof using.
  intros Hn. split.
  - destruct (busy s) as [|j bs] eqn:Eb.
    + destruct (queue s) as [|j rest] eqn:Eq; [by left|]. right. intros o. exists Take. cbn. rewrite Eq, Eb. cbn.
      destruct n; [lia|]. by eexists.
    + right. intros o. exists (Finish 0 o). cbn. rewrite Eb. by eexists.
  - intros actions. revert s. induction actions as [|a rest IH]; intros s s' Hf Hr; cbn in Hf, Hr; [simplify_eq; cbn; lia|].
    apply andb_true_iff in Hf as [Ha Hf]. destruct (act n a s) as [s1|] eqn:E; [|done]. specialize (IH s1 s' Hf Hr).
    enough (measure s1 < measure s)%nat by (cbn [length]; lia). destruct a as [j| |k o]; [done|..]; cbn in E; unfold measure.
    + destruct (queue s) as [|j q]; [done|]. case_if E as Hb; [|done]. simplify_eq. cbn. rewrite length_app. cbn. lia.
    + destruct (busy s !! k) as [j|] eqn:Ej; [|done]. simplify_eq. cbn. rewrite length_delete by done.
      apply lookup_lt_Some in Ej. lia.
Qed.

Lemma execute_file_job o p r offset data d :
  o_open o = true -> o_faults1 o = no_faults -> 0 <= offset -> offset + lenZ data <= U64_MAX ->
  execute o (FileJob p r offset data) d
  = register_pending_writeback p
      (mk_disk (<[p := mk_file (pwrite offset data (base offset (o_remote1 o) (old_bytes (d_fs d !! p)))) (o_now o) true]> (d_fs d))
         (d_dirty d)).
Proof using.
  intros Ho Hf H0 Hu. unfold execute, execute_write. rewrite Ho, Hf.
  destruct (do_write_spec (o_remote1 o) (mk_fdesc (old_bytes (d_fs d !! p)) 0) offset data) as (f' & -> & Ef & _);
    [done|by right|done|]. by rewrite Ef.
Qed.

Lemma pwrite_head x buf : takeZ (lenZ x) (pwrite 0 x buf) = x.
Proof using.
  unfold pwrite. assert (forall l : bytes, takeZ 0 l = []) as E by done. rewrite E, app_nil_l. by apply takeZ_app_exact.
Qed.

(** Two workers and two writes to one file: the later write may be done first,
    and the bytes of the earlier one stay.  [FileJob]s of one handle are not
    ordered by the pool. *)
Theorem pool_reorders_one_file d o p r x y :
  o_open o = true -> o_faults1 o = no_faults -> lenZ x = lenZ y -> lenZ x <= U64_MAX ->
  exists s, run 2 [Submit (FileJob p r 0 x); Submit (FileJob p r 0 y); Take; Take; Finish 1 o; Finish 0 o] (init d) = Some s /\
    idle s /\ submitted s = [FileJob p r 0 x; FileJob p r 0 y] /\
    exists f, d_fs (files s) !! p = Some f /\ takeZ (lenZ x) (file_data f) = x.
Proof using.
  intros Ho Hf Hl Hu. eexists. split; [reflexivity|]. split; [done|]. split; [done|]. cbn [files].
  rewrite !execute_file_job by (done || lia). cbn [d_fs register_pending_writeback].
  eexists. split; [apply lookup_insert_eq|]. cbn [file_data]. unfold base. cbn [Z.ltb Z.compare andb].
  apply pwrite_head.
Qed.
End Jobs.

#[local] Existing Instance soft_crc32c.
#[local] Existing Instance stored_lz4.

Definition quiet : outcome := mk_outcome 7 true no_faults no_faults None None None ∅.
Definition two_files : list action :=
  [Submit (FileJob "a" "a" 0 (as_bytes "x")); Submit (FileJob "b" "b" 0 (as_bytes "y")); Take; Take; Finish 1 quiet; Finish 0 quiet].

Lemma pool_run_rtc n actions s s' : run n actions s = Some s' -> rtc (step n) s s'.
Proof.
  revert s. induction actions as [|a rest IH]; intros s H; cbn in H; [by simplify_eq|].
  destruct (act n a s) as [s1|] eqn:E; [|done]. eapply rtc_l; [by exists a|by apply IH].
Qed.

Lemma pool_sequential_witness :
  exists s, run 2 two_files (init (mk_disk ∅ ∅)) = Some s /\ idle s /\ (fst <$> executed s) ≡ₚ submitted s /\
    exists l, l ≡ₚ executed s /\ fst <$> l = submitted s /\ files s = foldl perform (mk_disk ∅ ∅) l.
Proof.
  eexists. split; [reflexivity|]. split; [done|].
  match goal with |- (fst <$> executed ?s) ≡ₚ _ /\ _ =>
    destruct (pool_sequential 2 (mk_disk ∅ ∅) s (pool_run_rtc 2 two_files (init (mk_disk ∅ ∅)) s eq_refl)) as (_ & _ & _ & H) end.
  destruct (H ltac:(done)) as [Hp Hl]. split; [exact Hp|]. apply Hl. right. cbn. apply NoDup_cons. split; [set_solver|].
  apply NoDup_singleton.
Defined.

Lemma pool_drains_witness :
  exists s s', run 2 (take 2 two_files) (init (mk_disk ∅ ∅)) = Some s /\ run 2 (drop 2 two_files) s = Some s' /\
    measure s = 4%nat /\ (measure s' + 4 <= measure s)%nat.
Proof.
  eexists _, _. split; [reflexivity|]. split; [reflexivity|]. split; [reflexivity|].
  apply (proj2 (pool_drains 2 _ ltac:(lia)) (drop 2 two_files)); reflexivity.
Defined.
End Pool.

(** ** Process-wide cells *)
Module Globals.
Import FileIO BlockJobs Pool.
Local Open Scope Z_scope.

(** [OnceCell::set]; [false] when it was set before. *)
Definition once_set {A} (x : A) (cell : option A) : option A * bool :=
  match cell with None => (Some x, true) | Some _ => (cell, false) end.

Definition backend : Type := gmap string bytes.
(** [get_or_init] with an empty store in memory. *)
Definition opendal_sync_op (cell : option backend) : option backend * backend :=
  match cell with Some op => (cell, op) | None => (Some ∅, ∅) end.
Definition set_opendal_sync_op (op : backend) (cell : option backend) : option backend := fst (once_set op cell).
Definition opendal_sync_read (cell : option backend) (path : string) : option backend * option bytes :=
  let '(cell, op) := opendal_sync_op cell in (cell, op !! path).

(** The threads of a pool: what was asked for, or the processors, at most eight. *)
Definition worker_threads (fallback : Z) (asked parallelism : option Z) : Z :=
  match asked with Some n => n | None => Z.min (default fallback parallelism) 8 end.

(** *** One mount after the other

    [runtimes] counts the runtimes [IoSync::init] built and leaked; [pools] and
    [fsync_threads] what [init_disk_write_pool] started. *)
Record cells := mk_cells {
  sync_op : option backend; io_sync : option backend; runtimes : nat; disk_pool : option Z;
  pools : nat; fsync_threads : nat
}.
Definition fresh : cells := mk_cells None None 0 None 0 0.
Definition io_sync_init (op : backend) (p : cells) : cells :=
  mk_cells (sync_op p) (fst (once_set op (io_sync p))) (S (runtimes p)) (disk_pool p) (pools p) (fsync_threads p).
Definition init_disk_write_pool (asked parallelism : option Z) (p : cells) : cells :=
  match disk_pool p with
  | Some _ => p
  | None => mk_cells (sync_op p) (io_sync p) (runtimes p) (Some (worker_threads 4 asked parallelism))
              (S (pools p)) (S (fsync_threads p))
  end.
(** The calls of [mount]. *)
Definition mount_globals (parallelism : option Z) (op : backend) (p : cells) : cells :=
  init_disk_write_pool None parallelism
    (io_sync_init op (mk_cells (set_opendal_sync_op op (sync_op p)) (io_sync p) (runtimes p) (disk_pool p) (pools p) (fsync_threads p))).

(** However many mounts a process has, all share the cells of the first: its
    operator is the one pool jobs read prefixes from, there is one pool and one
    fsync thread; but every mount leaves a runtime behind. *)
Theorem mounts_share_first par op ops :
  let p := foldl (fun p op => mount_globals par op p) fresh (op :: ops) in
  sync_op p = Some op /\ io_sync p = Some op /\ disk_pool p = Some (worker_threads 4 None par) /\
  pools p = 1%nat /\ fsync_threads p = 1%nat /\ runtimes p = S (length ops).
Proof.
  cbn [foldl]. assert (forall ops p, sync_op p = Some op -> io_sync p = Some op -> is_Some (disk_pool p) ->
    let p' := foldl (fun p op => mount_globals par op p) p ops in
    sync_op p' = Some op /\ io_sync p' = Some op /\ disk_pool p' = disk_pool p /\ pools p' = pools p /\
    fsync_threads p' = fsync_threads p /\ runtimes p' = (runtimes p + length ops)%nat) as H.
  { clear ops. induction ops as [|o ops IH]; intros p H1 H2 [n H3]; cbn [foldl length]; [split_and!; try done; lia|].
    assert (mount_globals par o p = mk_cells (Some op) (Some op) (S (runtimes p)) (Some n) (pools p) (fsync_threads p)) as ->.
    { unfold mount_globals, init_disk_write_pool, io_sync_init, set_opendal_sync_op. cbn. by rewrite H1, H2, H3. }
    destruct (IH (mk_cells (Some op) (Some op) (S (runtimes p)) (Some n) (pools p) (fsync_threads p))) as (E1 & E2 & E3 & E4 & E5 & E6);
      [done|done|by eexists|]. cbn in *. rewrite E1, E2, E3, E4, E5, E6, H3. split_and!; (done || lia). }
  destruct (H ops (mount_globals par op fresh)) as (E1 & E2 & E3 & E4 & E5 & E6); [done|done|by eexists|].
  cbn in *. by rewrite E1, E2, E3, E4, E5, E6.
Qed.

Section Prefix.
Context `{CRC : !Crc32c, LZ : !Lz4}.

(** A write of a second mount beyond the start of a file that is not in its cache
    yet: the rest of the file comes from the store of the first mount, whatever
    the second mount's own store holds. *)
Theorem second_mount_prefix_of_first par (one two : backend) path remote_path offset data d o :
  let p := mount_globals par two (mount_globals par one fresh) in
  0 < offset -> offset + lenZ data <= U64_MAX -> d_fs d !! path = None ->
  o_open o = true -> o_faults1 o = no_faults -> o_remote1 o = snd (opendal_sync_read (sync_op p) remote_path) ->
  exists f, d_fs (execute o (FileJob path remote_path offset data) d) !! path = Some f /\
    file_data f = pwrite offset data (default [] (one !! remote_path)).
Proof using.
  intros p H0 Hu Hd Ho Hf Hr. rewrite execute_file_job by (done || lia). eexists. split; [apply lookup_insert_eq|].
  cbn [file_data]. rewrite Hd, Hr. unfold base. cbn. destruct (Z.ltb_spec 0 offset); [done|lia].
Qed.
End Prefix.

(** *** Two mounts at once

    [init_disk_write_pool] reads the cell, starts [n] workers and sets the cell:
    a caller that loses drops its sender, and its workers leave one by one. *)
Inductive caller :=
| Entered
| Checked
| Started
| Won
| Owner
| Found
| Lost (k : nat).
Record init_state := mk_init_state { cell : option nat; callers : list caller; fsyncs : nat; workers : nat }.
Definition entered (m : nat) : init_state := mk_init_state None (replicate m Entered) 0 0.
Definition caller_step (n i : nat) (s : init_state) : option init_state :=
  match callers s !! i with
  | Some Entered =>
      Some (mk_init_state (cell s) (<[i := match cell s with Some _ => Found | None => Checked end]> (callers s)) (fsyncs s) (workers s))
  | Some Checked => Some (mk_init_state (cell s) (<[i := Started]> (callers s)) (fsyncs s) (workers s + n))
  | Some Started =>
      let '(c, first) := once_set i (cell s) in
      Some (mk_init_state c (<[i := if first then Won else Lost n]> (callers s)) (fsyncs s) (workers s))
  | Some Won => Some (mk_init_state (cell s) (<[i := Owner]> (callers s)) (S (fsyncs s)) (workers s))
  | Some (Lost (S k)) => Some (mk_init_state (cell s) (<[i := Lost k]> (callers s)) (fsyncs s) (workers s - 1))
  | _ => None
  end.
Definition init_step (n : nat) (s s' : init_state) : Prop := exists i, caller_step n i s = Some s'.
Definition returned (c : caller) : Prop := c = Owner \/ c = Found \/ c = Lost 0.

(** The workers a caller accounts for, the cells it set and the fsync threads. *)
Definition share (n : nat) (c : caller) : Z :=
  match c with Started | Won | Owner => Z.of_nat n | Lost k => Z.of_nat k | _ => 0 end.
Definition setter (c : caller) : Z := match c with Won | Owner => 1 | _ => 0 end.
Definition owner (c : caller) : Z := match c with Owner => 1 | _ => 0 end.
Record once_inv (n m : nat) (s : init_state) : Prop := {
  ii_len : length (callers s) = m;
  ii_workers : Z.of_nat (workers s) = sumZ (share n <$> callers s);
  ii_cell : sumZ (setter <$> callers s) = match cell s with Some _ => 1 | None => 0 end;
  ii_fsyncs : Z.of_nat (fsyncs s) = sumZ (owner <$> callers s);
  ii_unset : cell s = None -> Forall (fun c => c = Entered \/ c = Checked \/ c = Started) (callers s)
}.

Lemma sumZ_entered (f : caller -> Z) m : f Entered = 0 -> sumZ (f <$> replicate m Entered) = 0.
Proof. intros Hf. induction m as [|m IH]; cbn; [done|lia]. Qed.

Lemma once_inv_entered n m : once_inv n m (entered m).
Proof.
  split; cbn; rewrite ?length_replicate, ?sumZ_entered; try done. intros _. apply Forall_replicate. by left.
Qed.

Lemma once_inv_step n m s s' : once_inv n m s -> init_step n s s' -> once_inv n m s'.
Proof.
  intros [H1 H2 H3 H4 H5] [i H]. unfold caller_step in H. destruct (callers s !! i) as [c|] eqn:Ei; [|done].
  pose proof (fun f => sumZ_fmap_insert f (callers s) i c) as Hs.
  assert (share n c <= sumZ (share n <$> callers s)) as Hle.
  { eapply sumZ_fmap_elem; [|done]. apply Forall_true. intros []; cbn; lia. }
  destruct c as [| | | | | |[|k]]; cbn in H; try done; try (destruct (cell s) eqn:Ec; cbn in H); simplify_eq;
    split; cbn [callers workers cell fsyncs]; rewrite ?length_insert, ?(Hs _ _ Ei); cbn [share setter owner] in *;
    try done; try lia; intros E; try done;
    pose proof (Forall_lookup_1 _ _ _ _ (H5 E) Ei) as Hc; (apply Forall_insert; [by auto|naive_solver]).
Qed.

Lemma returned_shares n cs : Forall returned cs ->
  sumZ (share n <$> cs) = Z.of_nat n * sumZ (owner <$> cs) /\ sumZ (setter <$> cs) = sumZ (owner <$> cs).
Proof. induction 1 as [|c cs Hr _ [IH1 IH2]]; cbn; [lia|]. destruct Hr as [->|[->| ->]]; cbn; lia. Qed.

(** Whatever the interleaving of [m] mounts: there is never a second fsync
    thread, and once every caller returned and the losers' workers left, the cell
    is set, with one pool of [n] workers and one fsync thread. *)
Theorem pool_started_once n m s :
  rtc (init_step n) (entered m) s ->
  (fsyncs s <= 1)%nat /\
  ((0 < m)%nat -> Forall returned (callers s) -> is_Some (cell s) /\ fsyncs s = 1%nat /\ workers s = n).
Proof.
  intros Hr. assert (once_inv n m s) as [H1 H2 H3 H4 H5].
  { eapply rtc_invariant; [apply once_inv_entered|intros; by eapply once_inv_step|exact Hr]. }
  split.
  - enough (sumZ (owner <$> callers s) <= sumZ (setter <$> callers s)) by (destruct (cell s); lia).
    clear. induction (callers s) as [|[] cs IH]; cbn; lia.
  - intros Hm Hret. destruct (returned_shares n _ Hret) as [E1 E2].
    destruct (cell s) as [i|].
    + split; [done|]. lia.
    + specialize (H5 eq_refl). destruct (callers s) as [|c cs]; [cbn in H1; lia|].
      apply Forall_cons in H5 as [Hc _]. apply Forall_cons in Hret as [Hc' _]. destruct Hc' as [->|[->| ->]]; naive_solver.
Qed.
End Globals.
