(* ===== verification/CacheLayers.v ===== *)
(** * CacheLayers: src/src/cache_layer.rs and src/src/multi_level_cache.rs

    The two cache levels and their composition.  L1 is any implementation of
    the [MemCache] interface; L2 is the directory of v3 block files with its
    in-memory index.  [MultiLevel] has the lookup chain, [Coherence] proves
    that no sequence of reads, fetches and writes serves stale bytes, as long as
    a block write that fails is noticed. *)

From Stdlib Require Import ZArith Lia Strings.String.
From S2P Require Import Prelude Util BlockFormat MemCache DiskPool.

Section Layers.
Context `{CRC : !Crc32c, LZ : !Lz4}.
Context {C : Type} `{MC : !MemCache C}.
Context (salt : Z).
(** The cap of the generation table. *)
Context (gen_cap : Z).

(** ** L2 *)
Record DiskBlockCache := mk_l2 {
  l2_fs : gmap string file;
  l2_index : gmap (string * option Z) (Z * Z);
  l2_gens : gmap string Z;
  l2_direct_io : bool;
  l2_cache_max_age : Z
}.

Definition l2_get_block (now : Z) (l : DiskBlockCache) (path : string) (block_idx : Z)
    : DiskBlockCache * option bytes :=
  if l2_direct_io l then (l, None)
  else
  let cpath := PathHash.disk_cache_block_path salt path block_idx in
  match l2_fs l !! cpath with
  | None => (l, None)
  | Some f =>
      if negb (l2_cache_max_age l =? 0) &&
         PathHash.is_cache_file_expired now (Some (file_mtime f)) (l2_cache_max_age l)
      then (mk_l2 (remove_file cpath (l2_fs l)) (delete (path, Some block_idx) (l2_index l))
              (l2_gens l) (l2_direct_io l) (l2_cache_max_age l), None)
      else
        let '(fs, data) := read_block_cached (l2_fs l) cpath path in
        match data with
        | None => (mk_l2 fs (l2_index l) (l2_gens l) (l2_direct_io l) (l2_cache_max_age l), None)
        | Some data =>
            (mk_l2 fs (PathHash.bump_in_memory_atime now (l2_index l) (path, Some block_idx))
               (l2_gens l) (l2_direct_io l) (l2_cache_max_age l), Some data)
        end
  end.

(** How a block file is written: all of it; not at all, when the file cannot be
    opened; [n] bytes, when the write then fails; all, but the cut to size fails,
    which the code ignores. *)
Inductive block_write := WriteDone | OpenFailed | WriteShort (n : Z) | CutFailed.
(** [write_block]: write in place, then cut to size. *)
Definition write_block (now : Z) (o : block_write) (fs : gmap string file)
    (blk_path : string) (buf : bytes) (written_size : Z) : gmap string file * bool :=
  let old := match fs !! blk_path with Some f => file_data f | None => [] end in
  match o with
  | OpenFailed => (fs, false)
  | WriteShort n => (<[blk_path := mk_file (FileIO.pwrite 0 (takeZ n buf) old) now true]> fs, false)
  | CutFailed => (<[blk_path := mk_file (FileIO.pwrite 0 buf old) now true]> fs, true)
  | WriteDone =>
      (<[blk_path := mk_file (FileIO.set_len written_size (FileIO.pwrite 0 buf old)) now true]> fs, true)
  end.

Definition l2_put_block (now : Z) (o : block_write) (l : DiskBlockCache) (path : string)
    (block_idx : Z) (data : bytes) : DiskBlockCache * bool :=
  if l2_direct_io l then (l, false)
  else
  let blk_path := PathHash.disk_cache_block_path salt path block_idx in
  match serialize_v3_block path data with
  | None => (l, false)
  | Some buf =>
      let written_size := lenZ buf in
      let '(fs, wrote) := write_block now o (l2_fs l) blk_path buf written_size in
      let index := if wrote then <[(path, Some block_idx) := (written_size, now)]> (l2_index l)
                   else l2_index l in
      (mk_l2 fs index (l2_gens l) (l2_direct_io l) (l2_cache_max_age l), wrote)
  end.

Definition l2_invalidate_path (l : DiskBlockCache) (path : string) : DiskBlockCache :=
  let '(fs, index) := drop_block_cache_for_path salt (l2_fs l) (l2_index l) path in
  mk_l2 fs index (BlockJobs.bump_path_cache_gen gen_cap (l2_gens l) path)
    (l2_direct_io l) (l2_cache_max_age l).

(** ** The composition *)
Inductive AdmissionPolicy := AdmitAll | SingleBlockOnly | AdmitNone.

Record MultiLevelCache := mk_mlc { l1 : C; l2 : DiskBlockCache }.

Definition read_block (now : Z) (m : MultiLevelCache) (path : string) (ino block_idx : Z)
    : MultiLevelCache * option bytes :=
  let '(c1, r1) := mc_get (l1 m) ino block_idx in
  match r1 with
  | Some data => (mk_mlc c1 (l2 m), Some data)
  | None =>
      let '(c2, r2) := l2_get_block now (l2 m) path block_idx in
      match r2 with
      | Some data => (mk_mlc (mc_put c1 ino block_idx data) c2, Some data)
      | None => (mk_mlc c1 c2, None)
      end
  end.

(** One iteration of [populate]'s loop; the disk level may fail. *)
Definition populate_one (now : Z) (o : block_write) (promote_l1 : bool) (path : string) (ino : Z)
    (m : MultiLevelCache) (block_idx : Z) (data : bytes) : MultiLevelCache :=
  let c2 := fst (l2_put_block now o (l2 m) path block_idx data) in
  let c1 := if promote_l1 then mc_put (l1 m) ino block_idx data else l1 m in
  mk_mlc c1 c2.

Fixpoint populate_from (now : Z) (writes : Z -> block_write) (promote_l1 : bool) (path : string) (ino : Z)
    (m : MultiLevelCache) (block_idx : Z) (blocks : list bytes) : MultiLevelCache :=
  match blocks with
  | [] => m
  | data :: rest =>
      populate_from now writes promote_l1 path ino
        (populate_one now (writes block_idx) promote_l1 path ino m block_idx data) (wrap64 (block_idx + 1)) rest
  end.

(** [writes]: how the file of each block number is written. *)
Definition populate (now : Z) (writes : Z -> block_write) (m : MultiLevelCache) (path : string) (ino first_block_idx : Z)
    (blocks : list bytes) (admission : AdmissionPolicy) : MultiLevelCache :=
  let promote_l1 := match admission with
                    | AdmitAll => true
                    | SingleBlockOnly => lenZ blocks =? 1
                    | AdmitNone => false
                    end in
  populate_from now writes promote_l1 path ino m first_block_idx blocks.

Definition invalidate (m : MultiLevelCache) (path : string) (ino : Z) : MultiLevelCache :=
  mk_mlc (mc_invalidate_ino (l1 m) ino) (l2_invalidate_path (l2 m) path).

End Layers.
Arguments MultiLevelCache C : clear implicits.

(** ** Coherence *)
Module Coherence.
Section Coherence.
Context `{CRC : !Crc32c, CRCL : !Crc32cLaws, LZ : !Lz4, LZL : !Lz4Laws}.
Context {C : Type} `{MC : !MemCache C, MCL : !MemCacheLaws C}.
Context (salt gen_cap : Z).
(** The inode of each path, one per path. *)
Context (inof : string -> Z) (inof_inj : forall p q, inof p = inof q -> p = q).

(** What the backend holds: block [idx] of object [p]. *)
Abbreviation remote_t := (string -> Z -> option bytes).

(** A block file holds what the backend holds, for the path it was written for,
    and that path's index entry is there to find it by. *)
Definition file_ok (remote : remote_t) (index : gmap (string * option Z) (Z * Z)) (n : string)
    (f : file) : Prop :=
  exists p idx d, n = PathHash.disk_cache_block_path salt p idx /\ 0 <= idx <= U64_MAX /\
    serialize_v3_block p d = Some (file_data f) /\ file_readable f = true /\
    lenZ d <= CACHE_BLOCK_SIZE /\ remote p idx = Some d /\ is_Some (index !! (p, Some idx)).

Definition is_block_name (n : string) : Prop :=
  exists p idx, n = PathHash.disk_cache_block_path salt p idx /\ 0 <= idx <= U64_MAX.

(** Content the reader never serves, whatever path it is asked for. *)
Definition rejected (b : bytes) : Prop :=
  forall fs n q t rd, fs !! n = Some (mk_file b t rd) -> snd (read_block_cached fs n q) = None.

(** A failed write may leave a file, but only one that is rejected. *)
Definition coh2 (remote : remote_t) (l : DiskBlockCache) : Prop :=
  forall n f, l2_fs l !! n = Some f -> is_block_name n ->
    file_ok remote (l2_index l) n f \/ rejected (file_data f).

Definition coh1 (remote : remote_t) (c : C) : Prop :=
  mc_ok c /\ forall i idx d, mc_contents c !! (i, idx) = Some d ->
    exists p, inof p = i /\ remote p idx = Some d.

Definition coherent (remote : remote_t) (m : MultiLevelCache C) : Prop :=
  coh1 remote (l1 m) /\ coh2 remote (l2 m).

(** Removing files, or adding index entries, keeps L2 coherent. *)
Lemma coh2_shrink remote l fs' index' gens' dio age :
  coh2 remote l ->
  (forall n f, fs' !! n = Some f -> l2_fs l !! n = Some f) ->
  (forall p idx, is_Some (l2_index l !! (p, Some idx)) ->
     is_Some (index' !! (p, Some idx)) \/ fs' !! PathHash.disk_cache_block_path salt p idx = None) ->
  coh2 remote (mk_l2 fs' index' gens' dio age).
Proof using.
  clear inof_inj inof.
  intros Hc Hfs Hix n f Hn Hb. cbn in Hn |- *.
  destruct (Hc n f (Hfs n f Hn) Hb) as [(p & idx & d & -> & Hi & Hs & Hr & Hl & Hrem & Hin)|?]; [left|by right].
  exists p, idx, d. destruct (Hix p idx Hin) as [?|E]; [|congruence]. auto 10.
Qed.

Lemma bump_is_Some (now : Z) (index : gmap (string * option Z) (Z * Z)) (key k : string * option Z) :
  is_Some (index !! k) -> is_Some (PathHash.bump_in_memory_atime now index key !! k).
Proof.
  intros Hk. unfold PathHash.bump_in_memory_atime. destruct (index !! key) as [[sz t]|]; [|done].
  apply lookup_insert_is_Some'. by right.
Qed.

Lemma l2_get_coh remote now l path idx l' r :
  coh2 remote l -> 0 <= idx <= U64_MAX -> l2_get_block salt now l path idx = (l', r) ->
  coh2 remote l' /\ (forall d, r = Some d -> remote path idx = Some d).
Proof.
  intros Hc Hidx. unfold l2_get_block. case_test; [by intros; simplify_eq|].
  set (cpath := PathHash.disk_cache_block_path salt path idx).
  destruct (l2_fs l !! cpath) as [f|] eqn:Ef; [|by intros; simplify_eq].
  case_test.
  - intros E. simplify_eq. split; [|done]. eapply coh2_shrink; [exact Hc| |].
    + intros n g Hg. unfold remove_file in Hg. by apply lookup_delete_Some in Hg as [_ ?].
    + intros p i Hp. destruct (decide ((path, Some idx) = (p, Some i))) as [E|Hne].
      * simplify_eq. right. apply lookup_delete_eq.
      * left. by rewrite lookup_delete_ne.
  - destruct (Hc cpath f Ef) as [(p & i & d & En & Hi & Hs & Hr & Hl & Hrem & Hin)|Hrej]; [by exists path, idx| |]; cycle 1.
    { destruct f as [b t rd]. specialize (Hrej _ _ path _ _ Ef).
      pose proof (Blocks.read_block_cached_effect (l2_fs l) cpath path) as He.
      destruct (read_block_cached _ _ _) as [fs [d|]]; [done|]. intros E. simplify_eq. split; [|done].
      eapply coh2_shrink; [exact Hc| |by auto]. intros n g Hg.
      destruct He as [->|(g' & _ & _ & ->)]; [by apply lookup_delete_Some in Hg as [_ ?]|done]. }
    apply PathHash.disk_cache_block_path_inj_hash in En as [_ <-]; [|done|done].
    rewrite (read_serialized _ _ _ _ _ _ path Hs Hl Ef Hr eq_refl).
    unfold unlink, remove_file. destruct (utf8_valid (as_bytes p)); cbn [andb]; [destruct (String.eqb_spec p path) as [->|Hne]|].
    + intros E. simplify_eq. split; [|intros; by simplify_eq]. eapply coh2_shrink; [exact Hc|done|].
      intros q j Hq. left. by apply bump_is_Some.
    + intros E. simplify_eq. split; [|done]. eapply coh2_shrink; [exact Hc| |by auto].
      intros n g Hg. by apply lookup_delete_Some in Hg as [_ ?].
    + intros E. simplify_eq. split; [|done]. eapply coh2_shrink; [exact Hc| |by auto].
      intros n g Hg. by apply lookup_delete_Some in Hg as [_ ?].
Qed.

(** A failed block write that the reader notices: what it leaves is rejected,
    or is what was there before or should be there now. *)
Definition noticed (l : DiskBlockCache) (path : string) (idx : Z) (d : bytes) (o : block_write) : Prop :=
  let n := PathHash.disk_cache_block_path salt path idx in
  let old := match l2_fs l !! n with Some f => file_data f | None => [] end in
  match o with
  | WriteDone | OpenFailed => True
  | WriteShort k => forall buf, serialize_v3_block path d = Some buf ->
      let b := FileIO.pwrite 0 (takeZ k buf) old in
      rejected b \/ exists f, l2_fs l !! n = Some f /\ file_data f = b
  | CutFailed => forall buf, serialize_v3_block path d = Some buf ->
      let b := FileIO.pwrite 0 buf old in rejected b \/ b = buf
  end.

Lemma coh2_insert remote l n b now index :
  coh2 remote l -> (forall k, is_Some (l2_index l !! k) -> is_Some (index !! k)) ->
  (is_block_name n -> file_ok remote index n (mk_file b now true) \/ rejected b) ->
  coh2 remote (mk_l2 (<[n := mk_file b now true]> (l2_fs l)) index (l2_gens l) (l2_direct_io l) (l2_cache_max_age l)).
Proof using.
  clear inof_inj inof. intros Hc Hix Hok n' f Hn Hb. cbn in Hn |- *.
  apply lookup_insert_Some in Hn as [[<- <-]|[Hne Hn]]; [by apply Hok|].
  destruct (Hc n' f Hn Hb) as [(p & i & d' & -> & Hi & Hs & Hr & Hl' & Hrem' & Hin)|?]; [left|by right].
  exists p, i, d'. auto 10.
Qed.

Lemma l2_put_coh remote now o l path idx d :
  coh2 remote l -> 0 <= idx <= U64_MAX -> lenZ d <= CACHE_BLOCK_SIZE -> remote path idx = Some d ->
  noticed l path idx d o -> coh2 remote (fst (l2_put_block salt now o l path idx d)).
Proof using.
  clear inof_inj inof.
  intros Hc Hidx Hl Hrem Ho. unfold l2_put_block. case_test; [done|].
  destruct (serialize_v3_block path d) as [buf|] eqn:Es; [|done].
  set (n := PathHash.disk_cache_block_path salt path idx) in *.
  assert (Hix : forall (k : string * option Z), is_Some (l2_index l !! k) ->
    is_Some (<[(path, Some idx) := (lenZ buf, now)]> (l2_index l) !! k))
    by (intros k Hk; apply lookup_insert_is_Some'; by right).
  assert (Hgood : file_ok remote (<[(path, Some idx) := (lenZ buf, now)]> (l2_index l)) n (mk_file buf now true)).
  { exists path, idx, d. cbn. rewrite lookup_insert_eq. auto 10. }
  destruct o as [| |k|]; cbn [write_block fst]; cbn [noticed] in Ho; fold n in Ho.
  - rewrite BlockJobs.set_len_exact. apply coh2_insert; [done|done|]. by left.
  - by destruct l.
  - apply coh2_insert; [done|done|]. intros Hb. destruct (Ho buf Es) as [?|(f & Hf & <-)]; [by right|].
    destruct (Hc n f Hf Hb) as [(p & i & d' & E & Hi & Hs & Hr & Hl' & Hrem' & Hin)|?]; [left|by right].
    exists p, i, d'. auto 10.
  - apply coh2_insert; [done|done|]. intros _. destruct (Ho buf Es) as [?|E]; [by right|]. rewrite E. by left.
Qed.

Lemma l2_invalidate_coh remote remote' l path :
  coh2 remote l -> (forall q, q <> path -> remote' q = remote q) ->
  coh2 remote' (l2_invalidate_path salt gen_cap l path).
Proof.
  intros Hc Hrem. unfold l2_invalidate_path.
  pose proof (BlockIndex.drop_fs salt (l2_fs l) (l2_index l) path) as Hfs.
  pose proof (BlockIndex.drop_index salt (l2_fs l) (l2_index l) path) as Hix.
  destruct (drop_block_cache_for_path _ _ _ _) as [fs' index']. cbn in Hfs, Hix.
  intros n f Hn Hb. cbn in Hn |- *. destruct (Hfs n) as [[? _]|[E Hkeep]]; [congruence|].
  rewrite E in Hn. destruct (Hc n f Hn Hb) as [(p & i & d & -> & Hi & Hs & Hr & Hl & Hd & Hin)|?]; [left|by right].
  assert (p <> path) as Hne by (intros ->; by eapply Hkeep).
  exists p, i, d. rewrite Hrem by done. do 6 (split; [done|]). rewrite Hix.
  unfold is_block_key_of. cbn. apply String.eqb_neq in Hne. by rewrite Hne.
Qed.

Lemma l1_put_coh remote c path idx d :
  coh1 remote c -> remote path idx = Some d -> coh1 remote (mc_put c (inof path) idx d).
Proof.
  intros [Hok Hc] Hd. split; [by apply mc_put_ok|]. intros i j e He.
  eapply lookup_weaken in He; [|by apply mc_put_contents].
  apply lookup_insert_Some in He as [[E <-]|[_ He]]; [simplify_eq; eauto|eauto].
Qed.

Lemma l1_get_coh remote c path idx c' r :
  coh1 remote c -> mc_get c (inof path) idx = (c', r) ->
  coh1 remote c' /\ (forall d, r = Some d -> remote path idx = Some d).
Proof.
  intros [Hok Hc] E. pose proof (mc_get_ok c (inof path) idx Hok) as H1.
  pose proof (mc_get_result c (inof path) idx Hok) as H2.
  pose proof (mc_get_contents c (inof path) idx Hok) as H3. rewrite E in *. cbn in *.
  split; [split; [done|]|].
  { intros i j d Hd. apply Hc with (1 := lookup_weaken _ _ _ _ Hd H3). }
  intros d ->. symmetry in H2.
  destruct (Hc _ _ _ H2) as (p & Hp & Hd). apply inof_inj in Hp. by subst.
Qed.

Lemma l1_invalidate_coh remote remote' c path :
  coh1 remote c -> (forall q, q <> path -> remote' q = remote q) ->
  coh1 remote' (mc_invalidate_ino c (inof path)).
Proof.
  intros [Hok Hc] Hrem. destruct (mc_invalidate_contents c (inof path) Hok) as [Hs Hn].
  split; [by apply mc_invalidate_ok|]. intros i j d Hd.
  destruct (Hc i j d ltac:(by eapply lookup_weaken)) as (p & <- & Hp). exists p. split; [done|].
  rewrite Hrem; [done|]. intros ->. rewrite Hn in Hd. done.
Qed.

(** ** Runs *)
Inductive op :=
| Read (now : Z) (path : string) (block_idx : Z)
| Fetch (now : Z) (writes : Z -> block_write) (path : string) (first : Z) (blocks : list bytes)
    (admission : AdmissionPolicy)
    (* the read path populates what it got from the backend *)
| Write (path : string) (content : Z -> option bytes) (* the object changes, then [invalidate] *).

Definition remote_after (remote : remote_t) (o : op) : remote_t :=
  match o with
  | Write path content => fun p => if bool_decide (p = path) then content else remote p
  | _ => remote
  end.
Definition run_op (m : MultiLevelCache C) (o : op) : MultiLevelCache C :=
  match o with
  | Read now path idx => fst (read_block salt now m path (inof path) idx)
  | Fetch now writes path first blocks adm => populate salt now writes m path (inof path) first blocks adm
  | Write path _ => invalidate salt gen_cap m path (inof path)
  end.

(** Blocks fetched in sequence are what the backend holds. *)
Fixpoint fetched (remote : remote_t) (path : string) (idx : Z) (blocks : list bytes) : Prop :=
  match blocks with
  | [] => True
  | d :: rest => remote path idx = Some d /\ lenZ d <= CACHE_BLOCK_SIZE /\
                 fetched remote path (wrap64 (idx + 1)) rest
  end.
(** Every block write of a [populate] that fails is noticed by the reader. *)
Fixpoint all_noticed (now : Z) (writes : Z -> block_write) (promote : bool) (path : string)
    (m : MultiLevelCache C) (idx : Z) (blocks : list bytes) : Prop :=
  match blocks with
  | [] => True
  | d :: rest => noticed (l2 m) path idx d (writes idx) /\
      all_noticed now writes promote path
        (populate_one salt now (writes idx) promote path (inof path) m idx d) (wrap64 (idx + 1)) rest
  end.
Definition op_ok (remote : remote_t) (m : MultiLevelCache C) (o : op) : Prop :=
  match o with
  | Read _ _ idx => 0 <= idx <= U64_MAX
  | Fetch now writes path first blocks _ => 0 <= first <= U64_MAX /\ fetched remote path first blocks /\
      forall promote, all_noticed now writes promote path m first blocks
  | Write _ _ => True
  end.

Lemma populate_coh remote now writes promote path m idx blocks :
  coherent remote m -> 0 <= idx <= U64_MAX -> fetched remote path idx blocks ->
  all_noticed now writes promote path m idx blocks ->
  coherent remote (populate_from salt now writes promote path (inof path) m idx blocks).
Proof.
  revert m idx. induction blocks as [|d blocks IH]; intros m idx [H1 H2] Hi Hf Hn; [done|].
  cbn in Hf, Hn. destruct Hf as (Hd & Hl & Hf), Hn as [Hn1 Hn2]. cbn [populate_from].
  apply IH; [|apply wrap64_range|done|done]. split; cbn.
  - destruct promote; [by apply l1_put_coh|done].
  - by apply l2_put_coh.
Qed.

Lemma read_coh remote now m path idx m' r :
  coherent remote m -> 0 <= idx <= U64_MAX ->
  read_block salt now m path (inof path) idx = (m', r) ->
  coherent remote m' /\ (forall d, r = Some d -> remote path idx = Some d).
Proof.
  intros [H1 H2] Hi. unfold read_block.
  destruct (mc_get (l1 m) (inof path) idx) as [c1 r1] eqn:E1.
  destruct (l1_get_coh _ _ _ _ _ _ H1 E1) as [H1' Hd1].
  destruct r1 as [d|]; [intros E; simplify_eq; split; [by split|eauto]|].
  destruct (l2_get_block salt now (l2 m) path idx) as [c2 r2] eqn:E2.
  destruct (l2_get_coh _ _ _ _ _ _ _ H2 Hi E2) as [H2' Hd2].
  destruct r2 as [d|]; intros E; simplify_eq; (split; [|eauto]); split; cbn; auto.
  apply l1_put_coh; auto.
Qed.

Lemma run_op_coh remote m o : coherent remote m -> op_ok remote m o ->
  coherent (remote_after remote o) (run_op m o).
Proof.
  intros Hc Hok. destruct o as [now path idx|now writes path first blocks adm|path content]; cbn in *.
  - destruct (read_block salt now m path (inof path) idx) as [m' r] eqn:E. by eapply read_coh in E as [? _].
  - destruct Hok as (? & ? & ?). by apply populate_coh.
  - destruct Hc as [H1 H2]. split; cbn.
    + eapply l1_invalidate_coh; [exact H1|]. intros q Hq. by rewrite bool_decide_false.
    + eapply l2_invalidate_coh; [exact H2|]. intros q Hq. by rewrite bool_decide_false.
Qed.

(** A run, each operation well formed for the backend at its time. *)
Inductive run : remote_t -> MultiLevelCache C -> remote_t -> MultiLevelCache C -> Prop :=
| run_nil remote m : run remote m remote m
| run_cons remote m o remote' m' :
    op_ok remote m o -> run (remote_after remote o) (run_op m o) remote' m' -> run remote m remote' m'.

Lemma run_coh remote m remote' m' : run remote m remote' m' -> coherent remote m -> coherent remote' m'.
Proof. induction 1 as [|remote m o remote' m' Hok _ IH]; [done|]. intros Hc. by apply IH, run_op_coh. Qed.

(** C9: coherence of the two-level cache.  Over any L1 that keeps the
    interface's laws, starting from an empty cache, index and cache directory,
    no sequence of reads, fetches (at any admission policy) and writes, with age
    expiry, path-hash collisions and block writes that fail, makes a lookup
    return anything but the bytes the backend holds now.  Each change of an
    object is followed by [invalidate], whose removals of files succeed, and a
    block write that fails leaves what was there or a file that the reader
    rejects; [torn_block_served] is about the others. *)
Theorem multi_level_never_stale remote0 c0 gens dio age remote m now path idx d :
  mc_ok c0 -> mc_contents c0 = ∅ ->
  run remote0 (mk_mlc c0 (mk_l2 ∅ ∅ gens dio age)) remote m ->
  0 <= idx <= U64_MAX ->
  snd (read_block salt now m path (inof path) idx) = Some d -> remote path idx = Some d.
Proof.
  intros Hok Hemp Hrun Hi Hr.
  assert (coherent remote m) as Hc.
  { eapply run_coh; [exact Hrun|]. split; cbn.
    - split; [done|]. intros i j e He. by rewrite Hemp in He.
    - intros n f Hn. done. }
  destruct (read_block salt now m path (inof path) idx) as [m' r] eqn:E. cbn in Hr. subst r.
  eapply read_coh in E as [_ E]; eauto.
Qed.

(** A block L2 has just written is found there. *)
Lemma l2_put_get now now' l path idx d :
  l2_direct_io l = false -> l2_cache_max_age l = 0 -> utf8_valid (as_bytes path) = true ->
  lenZ (as_bytes path) <= MAX_PATH_LEN -> lenZ d <= CACHE_BLOCK_SIZE ->
  snd (l2_get_block salt now' (fst (l2_put_block salt now WriteDone l path idx d)) path idx) = Some d.
Proof.
  intros Hdio Hage Hu Hp Hd. unfold l2_put_block. rewrite Hdio.
  destruct (serialize_v3_block path d) as [buf|] eqn:Es; cycle 1.
  { rewrite serialize_v3_layout in Es. case_if Es as Hc; [lia|done]. }
  cbn. rewrite BlockJobs.set_len_exact. unfold l2_get_block. cbn. rewrite lookup_insert_eq, Hage.
  cbn. rewrite (read_serialized _ _ _ _ _ _ path Es Hd (lookup_insert_eq _ _ _)) by done.
  by rewrite Hu, String.eqb_refl.
Qed.

(** A fetched block is cached.  In a coherent cache with the disk level on
    and no expiry, a block that has just been populated from the backend is
    returned by the next lookup, whatever the admission policy. *)
Theorem fetch_then_read_hits remote now now' writes m path idx d adm :
  coherent remote m -> writes idx = WriteDone -> remote path idx = Some d -> 0 <= idx <= U64_MAX ->
  l2_direct_io (l2 m) = false -> l2_cache_max_age (l2 m) = 0 ->
  utf8_valid (as_bytes path) = true -> lenZ (as_bytes path) <= MAX_PATH_LEN ->
  lenZ d <= CACHE_BLOCK_SIZE ->
  snd (read_block salt now' (populate salt now writes m path (inof path) idx [d] adm) path (inof path) idx)
    = Some d.
Proof.
  intros Hc Hw Hrem Hi Hdio Hage Hu Hp Hd. unfold populate. cbn [populate_from]. rewrite Hw.
  set (promote := match adm with AdmitAll => _ | _ => _ end).
  assert (coherent remote (populate_one salt now WriteDone promote path (inof path) m idx d)) as Hc'.
  { apply (populate_coh remote now (fun _ => WriteDone) promote path m idx [d]); done. }
  set (m' := populate_one _ _ _ _ _ _ _ _ _) in *.
  destruct (read_block salt now' m' path (inof path) idx) as [m2 r] eqn:E. cbn.
  destruct (read_coh remote now' m' path idx m2 r Hc' Hi E) as [_ Hr].
  destruct r as [e|]; [rewrite (Hr e eq_refl) in Hrem; congruence|exfalso].
  unfold read_block in E. destruct (mc_get (l1 m') (inof path) idx) as [c1 [e|]]; [done|].
  pose proof (l2_put_get now now' (l2 m) path idx d Hdio Hage Hu Hp Hd) as Hg.
  change (fst (l2_put_block salt now WriteDone (l2 m) path idx d)) with (l2 m') in Hg.
  destruct (l2_get_block salt now' (l2 m') path idx) as [c2 [e|]]; [done|]. done.
Qed.

(** A header without room for its checksum is rejected. *)
Lemma torn_rejected path d buf k :
  serialize_v3_block path d = Some buf -> 8 <= k < 12 -> rejected (takeZ k buf).
Proof.
  intros Hs Hk fs n q t [] Hf.
  - by rewrite (proj2 (Blocks.v3_torn_header fs n _ path q d buf k Hs Hf eq_refl eq_refl) Hk).
  - unfold read_block_cached. rewrite Hf. cbn [file_data file_readable negb]. by case_test.
Qed.

(** A torn block file.  When the write of a new block file stops within its
    first eight bytes, the next lookup serves those bytes as the block. *)
Theorem torn_block_served now now' k l path idx d buf :
  l2_direct_io l = false -> l2_cache_max_age l = 0 -> serialize_v3_block path d = Some buf ->
  l2_fs l !! PathHash.disk_cache_block_path salt path idx = None -> 0 <= k < 8 ->
  snd (l2_get_block salt now' (fst (l2_put_block salt now (WriteShort k) l path idx d)) path idx) = Some (takeZ k buf).
Proof.
  intros Hdio Hage Hs Hn Hk. unfold l2_put_block. rewrite Hdio, Hs. cbn [write_block]. rewrite Hn.
  unfold l2_get_block. cbn. rewrite lookup_insert_eq, Hage. cbn.
  assert (FileIO.pwrite 0 (takeZ k buf) [] = takeZ k buf) as -> by (by rewrite FileIO.pwrite_empty).
  set (n := PathHash.disk_cache_block_path salt path idx). set (f := mk_file (takeZ k buf) now true).
  destruct (Blocks.v3_torn_header (<[n := f]> (l2_fs l)) n f path path d buf k Hs (lookup_insert_eq _ _ _)) as [H _]; [done|done|].
  by rewrite H.
Qed.

(** Blocks of an earlier mount.  After a restart the index is empty while
    the block files are still there.  A write then invalidates the path
    without finding its old block file, and the next lookup serves the bytes
    from before the write. *)
Theorem stale_block_after_restart c gens age now m path idx old f :
  mc_ok c -> mc_contents c = ∅ -> age = 0 -> 0 <= idx <= U64_MAX ->
  utf8_valid (as_bytes path) = true -> lenZ old <= CACHE_BLOCK_SIZE ->
  m = mk_mlc c (mk_l2 {[ PathHash.disk_cache_block_path salt path idx := f ]} ∅ gens false age) ->
  serialize_v3_block path old = Some (file_data f) -> file_readable f = true ->
  snd (read_block salt now (invalidate salt gen_cap m path (inof path)) path (inof path) idx) = Some old.
Proof.
  intros Hok Hemp -> Hi Hu Hd -> Hs Hr. unfold invalidate, read_block. cbn [l1 l2].
  destruct (mc_invalidate_contents c (inof path) Hok) as [_ Hnone].
  pose proof (mc_get_result (mc_invalidate_ino c (inof path)) (inof path) idx (mc_invalidate_ok c _ Hok)) as Hg.
  rewrite Hnone in Hg. destruct (mc_get _ (inof path) idx) as [c1 r1]. cbn in Hg. subst r1.
  unfold l2_invalidate_path, drop_block_cache_for_path. cbn. rewrite map_to_list_empty. cbn.
  unfold l2_get_block. cbn. rewrite lookup_singleton_eq. cbn.
  rewrite (read_serialized _ _ _ _ _ _ path Hs Hd (lookup_singleton_eq _ _)) by done.
  by rewrite Hu, String.eqb_refl.
Qed.

End Coherence.

(** ** Witnesses: the DashMap cache as L1, concrete crates, one inode per path. *)
#[local] Existing Instance soft_crc32c.
#[local] Existing Instance soft_crc32c_laws.
#[local] Existing Instance stored_lz4.
#[local] Existing Instance stored_lz4_laws.
#[local] Instance l1_ops : MemCache DashMapCache.DashMapMemCache := DashMapCache.dashmap_MemCache 9.
#[local] Instance l1_laws : MemCacheLaws DashMapCache.DashMapMemCache :=
  DashMapCache.dashmap_MemCacheLaws 9.

Definition inode_of (p : string) : Z := Z.pos (encode p).
Lemma inode_of_inj p q : inode_of p = inode_of q -> p = q.
Proof. unfold inode_of. intros E. injection E as E. by apply encode_inj in E. Qed.

Definition hello_remote (p : string) (idx : Z) : option bytes :=
  if String.eqb p "a" && (idx =? 3) then Some (as_bytes "hello") else None.
Definition empty_mlc : MultiLevelCache DashMapCache.DashMapMemCache :=
  mk_mlc (DashMapCache.new 100) (mk_l2 ∅ ∅ ∅ false 0).

(** The first write of the block stops after its header, the second is whole. *)
Lemma multi_level_never_stale_witness :
  let torn := run_op 0 9 inode_of empty_mlc (Fetch 1 (fun _ => WriteShort 8) "a" 3 [as_bytes "hello"] AdmitNone) in
  let m := run_op 0 9 inode_of torn (Fetch 1 (fun _ => WriteDone) "a" 3 [as_bytes "hello"] AdmitNone) in
  snd (read_block 0 2 m "a" (inode_of "a") 3) = Some (as_bytes "hello") /\
  hello_remote "a" 3 = Some (as_bytes "hello").
Proof.
  intros torn m. assert (Hr : snd (read_block 0 2 m "a" (inode_of "a") 3)
    = Some (as_bytes "hello")) by (vm_compute; reflexivity).
  split; [exact Hr|].
  apply (multi_level_never_stale 0 9 inode_of inode_of_inj
    hello_remote (DashMapCache.new 100) ∅ false 0 hello_remote m 2 "a" 3 (as_bytes "hello")).
  - apply DashMapCache.wf_new.
  - reflexivity.
  - refine (run_cons 0 9 inode_of _ _ (Fetch 1 (fun _ => WriteShort 8) "a" 3 [as_bytes "hello"] AdmitNone) _ _ _ _).
    + split; [unfold U64_MAX; lia|]. split; [vm_compute; repeat split; discriminate|].
      intros promote. split; [|exact I]. intros buf Hb. left.
      change (rejected (FileIO.pwrite 0 (takeZ 8 buf) [])).
      rewrite FileIO.pwrite_empty. apply (torn_rejected "a" (as_bytes "hello")); [exact Hb|lia].
    + refine (run_cons 0 9 inode_of _ _ (Fetch 1 (fun _ => WriteDone) "a" 3 [as_bytes "hello"] AdmitNone) _ _ _ _).
      * split; [unfold U64_MAX; lia|]. split; [vm_compute; repeat split; discriminate|].
        intros promote. split; exact I.
      * apply run_nil.
  - unfold U64_MAX. lia.
  - exact Hr.
Defined.

Lemma fetch_then_read_hits_witness :
  snd (read_block 0 2
    (populate 0 1 (fun _ => WriteDone) empty_mlc "a" (inode_of "a") 3
       [as_bytes "hello"] SingleBlockOnly) "a" (inode_of "a") 3) = Some (as_bytes "hello").
Proof.
  apply (fetch_then_read_hits 0 inode_of inode_of_inj
    hello_remote 1 2 (fun _ => WriteDone) empty_mlc "a" 3 (as_bytes "hello") SingleBlockOnly).
  - split; [split; [apply DashMapCache.wf_new|by intros i j e He]|by intros n f Hn].
  - reflexivity.
  - reflexivity.
  - unfold U64_MAX. lia.
  - reflexivity.
  - reflexivity.
  - by vm_compute.
  - by vm_compute.
  - by vm_compute.
Defined.

Definition old_file : file :=
  mk_file (match serialize_v3_block "a" (as_bytes "old") with Some b => b | None => [] end) 0 true.

Lemma stale_block_after_restart_witness :
  let m := mk_mlc (DashMapCache.new 100)
    (mk_l2 {[ PathHash.disk_cache_block_path 0 "a" 3 := old_file ]} ∅ ∅ false 0) in
  snd (read_block 0 7
    (invalidate 0 9 m "a" (inode_of "a")) "a" (inode_of "a") 3)
    = Some (as_bytes "old").
Proof.
  intros m.
  apply (stale_block_after_restart 0 9 inode_of
    (DashMapCache.new 100) ∅ 0 7 m "a" 3 (as_bytes "old") old_file).
  - apply DashMapCache.wf_new.
  - reflexivity.
  - reflexivity.
  - unfold U64_MAX. lia.
  - by vm_compute.
  - by vm_compute.
  - reflexivity.
  - by vm_compute.
  - reflexivity.
Defined.

End Coherence.
