(* ===== verification/Prefetcher.v ===== *)
(** * Prefetcher: src/src/prefetcher.rs

    [Queue] is the bounded part queue, [Download] the loop of the download
    thread.  What the loop gets from outside at each iteration (the adaptive
    window, the answers of the memory limiter, the outcome of the range read
    and push) is an [env]; [None] results are panics. *)

From Stdlib Require Import ZArith Lia Strings.String.
From S2P Require Import Prelude.

Module Queue.

Record Part := mk_part { offset : Z; data : bytes }.

Record PartQueue := mk_queue {
  parts : list Part;
  max_bytes : Z;
  current_bytes : Z;
  finished : bool;
  error : option string;
  cancelled : bool
}.

Definition new (max_bytes : Z) : PartQueue := mk_queue [] max_bytes 0 false None false.

Inductive PushOutcome := PushOk | PushCancelled | PushFull | PushOverlap (back_end : Z).

Definition is_terminal (q : PartQueue) : bool :=
  finished q || (match error q with Some _ => true | None => false end) || cancelled q.
Definition is_full_for (q : PartQueue) (len : Z) : bool :=
  max_bytes q <? wrap64 (current_bytes q + len).

(** The end of a part, [offset + data.len()]. *)
Definition part_end (p : Part) : Z := wrap64 (offset p + lenZ (data p)).

Definition push (q : PartQueue) (p : Part) : PartQueue * PushOutcome :=
  if is_terminal q then (q, PushCancelled)
  else if is_full_for q (lenZ (data p)) then (q, PushFull)
  else
    let insert :=
      (mk_queue (parts q ++ [p]) (max_bytes q) (wrap64 (current_bytes q + lenZ (data p)))
         (finished q) (error q) (cancelled q), PushOk) in
    match last (parts q) with
    | Some back =>
        if offset p <? part_end back then (q, PushOverlap (part_end back)) else insert
    | None => insert
    end.

(** The [while let Some(front)] loop of [pop]. *)
Fixpoint pop_loop (off : Z) (ps : list Part) (bytes : Z) : list Part * Z * option Part :=
  match ps with
  | [] => ([], bytes, None)
  | front :: rest =>
      if (offset front <=? off) && (off <? part_end front)
      then (rest, wrap64 (bytes - lenZ (data front)), Some front)
      else if part_end front <=? off
      then pop_loop off rest (wrap64 (bytes - lenZ (data front)))
      else (ps, bytes, None)
  end.
Definition pop (q : PartQueue) (off : Z) : PartQueue * option Part :=
  let '(ps, bytes, r) := pop_loop off (parts q) (current_bytes q) in
  (mk_queue ps (max_bytes q) bytes (finished q) (error q) (cancelled q), r).

Definition set_finished (q : PartQueue) : PartQueue :=
  mk_queue (parts q) (max_bytes q) (current_bytes q) true (error q) (cancelled q).
Definition set_error (q : PartQueue) (e : string) : PartQueue :=
  mk_queue (parts q) (max_bytes q) (current_bytes q) (finished q) (Some e) (cancelled q).
Definition cancel (q : PartQueue) : PartQueue :=
  mk_queue (parts q) (max_bytes q) (current_bytes q) (finished q) (error q) true.

(** What [read_and_push] does with one read result under the queue lock;
    [Parked] when it waits on the condition variable. *)
Inductive read_result := ReadOk (buf : bytes) | ReadTransient | ReadFailed (e : string).
Inductive ReadAndPushOutcome := RpOk | RpCancelled | RpOverlap (back_end : Z) | RpTransient | Parked.
Definition read_and_push (q : PartQueue) (off part_len : Z) (r : read_result)
    : PartQueue * ReadAndPushOutcome :=
  match r with
  | ReadTransient => (q, RpTransient)
  | ReadFailed e => (set_error q e, RpCancelled)
  | ReadOk buf =>
      if is_terminal q then (q, RpCancelled)
      else if is_full_for q part_len then (q, Parked)
      else match push q (mk_part off buf) with
           | (q', PushOk) => (q', RpOk)
           | (q', PushCancelled) => (q', RpCancelled)
           | (q', PushFull) => (q', Parked)
           | (q', PushOverlap back_end) => (q', RpOverlap back_end)
           end
  end.

(** ** Invariant: the byte counter is the sum of the parts and within the
    bound; parts are in order and do not overlap. *)
Definition total (ps : list Part) : Z := sumZ ((fun p => lenZ (data p)) <$> ps).

Fixpoint ordered (from : Z) (ps : list Part) : Prop :=
  match ps with
  | [] => True
  | p :: rest => from <= offset p /\ offset p + lenZ (data p) <= U64_MAX /\
                 ordered (offset p + lenZ (data p)) rest
  end.

Record wf (q : PartQueue) : Prop := {
  wf_bytes : current_bytes q = total (parts q);
  wf_bound : total (parts q) <= max_bytes q;
  wf_max : max_bytes q <= I64_MAX;
  wf_ordered : ordered 0 (parts q)
}.

Lemma parts_total_nonneg ps : 0 <= total ps.
Proof. apply sumZ_fmap_nonneg, Forall_true. intros. apply lenZ_nonneg. Qed.

Lemma total_cons p ps : total (p :: ps) = lenZ (data p) + total ps.
Proof. done. Qed.

Lemma total_app ps ps' : total (ps ++ ps') = total ps + total ps'.
Proof. unfold total. by rewrite fmap_app, sumZ_app. Qed.

Lemma total_snoc ps p : total (ps ++ [p]) = total ps + lenZ (data p).
Proof. unfold total. rewrite fmap_app, sumZ_app. cbn. lia. Qed.

Lemma ordered_weaken a b ps : a <= b -> ordered b ps -> ordered a ps.
Proof. destruct ps; cbn; [done|]. intros ? (? & ? & ?). split; [lia|done]. Qed.

Lemma part_end_ordered from p ps : 0 <= from -> ordered from (p :: ps) ->
  part_end p = offset p + lenZ (data p).
Proof.
  intros Hf (H1 & H2 & _). unfold part_end. apply wrap64_small.
  pose proof (lenZ_nonneg (data p)). unfold is_u64. lia.
Qed.

(** The last part of an ordered queue ends after its start. *)
Lemma ordered_last ps from back : 0 <= from -> ordered from ps -> last ps = Some back ->
  from <= part_end back.
Proof.
  revert from. induction ps as [|z ps IH]; [done|]. intros from Hf Ho Hb.
  pose proof (part_end_ordered from z ps Hf Ho) as Ez. destruct Ho as (? & ? & Ho).
  pose proof (lenZ_nonneg (data z)). destruct ps as [|w ps]; [cbn in Hb; simplify_eq; lia|].
  specialize (IH (offset z + lenZ (data z)) ltac:(lia) Ho Hb). lia.
Qed.

Lemma ordered_snoc from ps p : 0 <= from -> ordered from ps -> from <= offset p ->
  (forall back, last ps = Some back -> part_end back <= offset p) ->
  offset p + lenZ (data p) <= U64_MAX -> ordered from (ps ++ [p]).
Proof.
  revert from. induction ps as [|x ps IH]; intros from Hf Ho Hp Hl He; [by cbn|].
  pose proof (part_end_ordered from x ps Hf Ho) as Ee. destruct Ho as (H1 & H2 & H3).
  pose proof (lenZ_nonneg (data x)). cbn [app ordered]. split; [done|]. split; [done|].
  apply IH; [lia|done| |by intros back Hb; apply Hl; destruct ps|done].
  destruct (last ps) as [b|] eqn:Eb.
  - pose proof (ordered_last ps (offset x + lenZ (data x)) b ltac:(lia) H3 Eb). specialize (Hl b).
    destruct ps; [done|]. specialize (Hl Eb). lia.
  - apply last_None in Eb as ->. specialize (Hl x eq_refl). lia.
Qed.

(** A part as the download thread builds it: a Rust buffer is at most
    [isize::MAX] long. *)
Definition part_ok (p : Part) : Prop :=
  0 <= offset p /\ offset p + lenZ (data p) <= U64_MAX /\ lenZ (data p) <= I64_MAX.

Lemma not_full q len : wf q -> 0 <= len <= I64_MAX -> is_full_for q len = false ->
  total (parts q) + len <= max_bytes q.
Proof.
  intros [Hb Hm Hx _] Hl Hf. unfold is_full_for in Hf. bool_props. rewrite Hb in Hf.
  pose proof (parts_total_nonneg (parts q)). rewrite wrap64_small in Hf; [done|].
  unfold is_u64, U64_MAX, I64_MAX in *. lia.
Qed.

Lemma push_wf q p : wf q -> part_ok p -> wf (fst (push q p)).
Proof.
  intros Hw (Hp & He & Hl). unfold push.
  destruct (is_terminal q); [done|]. destruct (is_full_for q (lenZ (data p))) eqn:Hf; [done|].
  pose proof (lenZ_nonneg (data p)). pose proof (parts_total_nonneg (parts q)).
  apply not_full in Hf; [|done|lia]. pose proof Hw as [Hb Hm Hx Ho].
  assert (Hins : (forall back, last (parts q) = Some back -> part_end back <= offset p) ->
    wf (mk_queue (parts q ++ [p]) (max_bytes q) (wrap64 (current_bytes q + lenZ (data p)))
         (finished q) (error q) (cancelled q))).
  { intros Hback. split; cbn [current_bytes parts max_bytes]; rewrite ?total_snoc; try done.
    - rewrite Hb, wrap64_small; [done|]. unfold is_u64, U64_MAX, I64_MAX in *. lia.
    - by apply ordered_snoc. }
  destruct (last (parts q)) as [back|] eqn:Eb; [|by apply Hins].
  case_test; bool_props; [exact Hw|]. apply Hins. intros b E. by simplify_eq.
Qed.

(** Everything [pop] does, on an ordered list. *)
Lemma pop_loop_spec off ps from b : 0 <= from -> ordered from ps -> b = total ps -> b <= I64_MAX ->
  let '(ps', b', r) := pop_loop off ps b in
  b' = total ps' /\ ordered from ps' /\
  exists stale, Forall (fun p => offset p + lenZ (data p) <= off) stale /\
    match r with
    | Some p => ps = stale ++ p :: ps' /\ offset p <= off < offset p + lenZ (data p)
    | None => ps = stale ++ ps' /\ Forall (fun p => off < offset p) ps'
    end.
Proof.
  revert from b. induction ps as [|p ps IH]; intros from b Hf Ho Hb Hx; cbn [pop_loop].
  - split; [done|]. split; [done|]. exists []. by repeat constructor.
  - pose proof (part_end_ordered from p ps Hf Ho) as Ee. rewrite Ee.
    pose proof (lenZ_nonneg (data p)). pose proof (parts_total_nonneg ps). rewrite total_cons in Hb.
    pose proof Ho as (H1 & H2 & H3).
    assert (wrap64 (b - lenZ (data p)) = total ps) as Ew.
    { rewrite wrap64_small; [lia|]. unfold is_u64, U64_MAX, I64_MAX in *. lia. }
    destruct ((offset p <=? off) && (off <? offset p + lenZ (data p))) eqn:Hm.
    { bool_props. rewrite Ew. split; [done|]. split; [eapply ordered_weaken; [|exact H3]; lia|].
      exists []. split; [constructor|]. split; [done|lia]. }
    destruct (Z.leb_spec (offset p + lenZ (data p)) off) as [Hst|Hst].
    + specialize (IH (offset p + lenZ (data p)) (wrap64 (b - lenZ (data p))) ltac:(lia) H3 Ew ltac:(lia)).
      destruct (pop_loop off ps _) as [[ps' b'] r]. destruct IH as (E1 & E2 & stale & Hs & Hr).
      split; [done|]. split; [eapply ordered_weaken; [|exact E2]; lia|].
      exists (p :: stale). split; [by constructor|]. destruct r; destruct Hr as [-> ?]; by split.
    + apply andb_false_iff in Hm as [Hm|Hm]; bool_props; [|lia].
      split; [done|]. split; [done|]. exists []. split; [constructor|]. split; [done|].
      constructor; [done|]. clear -H3 Hm H. revert H3.
      assert (off < offset p + lenZ (data p)) as Hlt by lia. revert Hlt.
      generalize (offset p + lenZ (data p)). induction ps as [|y ps IH]; intros z Hz Ho; [constructor|].
      destruct Ho as (? & ? & Ho). pose proof (lenZ_nonneg (data y)).
      constructor; [lia|]. eapply IH; [|exact Ho]. lia.
Qed.

Lemma pop_wf q off : wf q -> wf (fst (pop q off)).
Proof.
  intros [Hb Hm Hx Ho]. unfold pop.
  pose proof (pop_loop_spec off (parts q) 0 (current_bytes q) ltac:(lia) Ho Hb ltac:(lia)) as H.
  destruct (pop_loop off (parts q) (current_bytes q)) as [[ps b] r].
  destruct H as (E1 & E2 & stale & _ & Hr). split; cbn [fst current_bytes parts max_bytes]; try done.
  assert (total (parts q) = total stale + match r with Some p => lenZ (data p) | None => 0 end + total ps) as Et.
  { destruct r as [p|]; destruct Hr as [-> _]; rewrite total_app, ?total_cons; lia. }
  pose proof (parts_total_nonneg stale). destruct r as [p|]; [pose proof (lenZ_nonneg (data p))|]; lia.
Qed.

(** The part queue.  Pushing keeps the queue within its byte bound, in
    order and free of overlaps, and reports why when it refuses: terminal,
    full, or overlapping with the exact end of what is already queued. *)
Theorem push_spec q p :
  wf q -> part_ok p ->
  let '(q', r) := push q p in
  wf q' /\
  match r with
  | PushOk => parts q' = parts q ++ [p] /\ current_bytes q' = current_bytes q + lenZ (data p)
  | PushCancelled => q' = q /\ is_terminal q = true
  | PushFull => q' = q /\ max_bytes q < current_bytes q + lenZ (data p)
  | PushOverlap back_end =>
      q' = q /\ offset p < back_end /\ exists back, last (parts q) = Some back /\
        back_end = offset back + lenZ (data back)
  end.
Proof.
  intros Hw Hp. pose proof (push_wf q p Hw Hp) as Hw'. destruct Hp as (H1 & H2 & H3).
  pose proof (lenZ_nonneg (data p)). pose proof (parts_total_nonneg (parts q)).
  pose proof (wf_bytes q Hw) as Hb. pose proof (wf_max q Hw). pose proof (wf_bound q Hw).
  unfold push in *. destruct (is_terminal q) eqn:Ht; [done|].
  destruct (is_full_for q (lenZ (data p))) eqn:Hf.
  { split; [done|]. split; [done|]. unfold is_full_for in Hf. bool_props.
    rewrite wrap64_small in Hf; [lia|]. unfold is_u64, U64_MAX, I64_MAX in *. lia. }
  assert (wrap64 (current_bytes q + lenZ (data p)) = current_bytes q + lenZ (data p)) as Ew.
  { apply wrap64_small. unfold is_u64, U64_MAX, I64_MAX in *. lia. }
  destruct (last (parts q)) as [back|] eqn:Eb; [|split; [done|]; split; [done|exact Ew]].
  case_test; bool_props; [|split; [done|]; split; [done|exact Ew]].
  split; [done|]. split; [done|]. split; [done|]. exists back. split; [done|].
  apply last_Some in Eb as (l & El). pose proof (wf_ordered q Hw) as Ho. rewrite El in Ho.
  assert (exists from, 0 <= from /\ ordered from [back]) as (from & Hfr & Hob).
  { clear -Ho. revert Ho. assert (0 <= 0) as H0 by lia. revert H0. generalize 0 at 2 3.
    induction l as [|x l IH]; intros z Hz Ho; [by exists z|]. destruct Ho as (? & ? & Ho).
    pose proof (lenZ_nonneg (data x)). eapply IH; [|exact Ho]. lia. }
  by eapply part_end_ordered.
Qed.

Lemma Forall_after off from ps : ordered from ps -> off < from -> Forall (fun p => off < offset p) ps.
Proof.
  revert from. induction ps as [|p ps IH]; intros from Ho Hf; [constructor|].
  destruct Ho as (H1 & H2 & Ho). pose proof (lenZ_nonneg (data p)).
  constructor; [lia|]. eapply IH; [exact Ho|lia].
Qed.

(** Popping for an offset drops exactly the parts that end at or before
    it and returns the part that covers it; when there is none it returns
    nothing and no queued part covers the offset.  The byte counter follows. *)
Theorem pop_spec q off :
  wf q ->
  let '(q', r) := pop q off in
  wf q' /\
  exists stale, Forall (fun p => offset p + lenZ (data p) <= off) stale /\
    match r with
    | Some p => parts q = stale ++ p :: parts q' /\ offset p <= off < offset p + lenZ (data p)
    | None => parts q = stale ++ parts q' /\ Forall (fun p => off < offset p) (parts q')
    end.
Proof.
  intros Hw. pose proof (pop_wf q off Hw) as Hw'. pose proof Hw as [Hb Hm Hx Ho]. unfold pop in *.
  pose proof (pop_loop_spec off (parts q) 0 (current_bytes q) ltac:(lia) Ho Hb ltac:(lia)) as H.
  destruct (pop_loop off (parts q) (current_bytes q)) as [[ps b] r].
  destruct H as (_ & _ & stale & Hs & Hr). split; [exact Hw'|]. by exists stale.
Qed.

(** A part longer than the queue's bound can never be queued: the
    download thread waits for room in every state, the empty queue included,
    until the handle is cancelled. *)
Theorem oversized_part_parks q off buf :
  wf q -> is_terminal q = false -> lenZ buf <= I64_MAX -> max_bytes q < lenZ buf ->
  read_and_push q off (lenZ buf) (ReadOk buf) = (q, Parked) /\
  (forall off', let q' := fst (pop q off') in
     read_and_push q' off (lenZ buf) (ReadOk buf) = (q', Parked)) /\
  read_and_push (cancel q) off (lenZ buf) (ReadOk buf) = (cancel q, RpCancelled).
Proof.
  intros Hw Ht Hl Hm.
  assert (Hpark : forall q', wf q' -> is_terminal q' = false -> max_bytes q' = max_bytes q ->
    read_and_push q' off (lenZ buf) (ReadOk buf) = (q', Parked)).
  { intros q' Hw' Ht' Hm'. unfold read_and_push. rewrite Ht'.
    destruct (is_full_for q' (lenZ buf)) eqn:Hf; [done|]. pose proof (lenZ_nonneg buf).
    apply not_full in Hf; [|done|lia]. pose proof (parts_total_nonneg (parts q')). lia. }
  split; [by apply Hpark|]. split.
  - intros off' q'. subst q'. apply Hpark; [by apply pop_wf| |].
    + unfold pop. by destruct (pop_loop off' (parts q) (current_bytes q)) as [[ps b] r].
    + unfold pop. by destruct (pop_loop off' (parts q) (current_bytes q)) as [[ps b] r].
  - unfold read_and_push, is_terminal. cbn. by rewrite orb_true_r.
Qed.

Definition sample : PartQueue :=
  mk_queue [mk_part 0 (to_le 4 1); mk_part 4 (to_le 4 2); mk_part 10 (to_le 2 3)] 16 10 false None false.
Lemma sample_wf : wf sample.
Proof. split; cbn; unfold I64_MAX, U64_MAX, lenZ; cbn; lia. Qed.

Lemma push_spec_witness :
  wf (fst (push sample (mk_part 11 (to_le 4 7)))) /\
  snd (push sample (mk_part 11 (to_le 4 7))) = PushOverlap 12.
Proof.
  pose proof (push_spec sample (mk_part 11 (to_le 4 7)) sample_wf) as H.
  assert (part_ok (mk_part 11 (to_le 4 7))) as Hp by (by vm_compute).
  specialize (H Hp). destruct (push sample _) as [q' r] eqn:E. destruct H as [Hw _].
  split; [exact Hw|]. vm_compute in E. injection E as _ <-. reflexivity.
Defined.

Lemma pop_spec_witness :
  snd (pop sample 5) = Some (mk_part 4 (to_le 4 2)) /\ wf (fst (pop sample 5)).
Proof.
  pose proof (pop_spec sample 5 sample_wf) as H. split; [reflexivity|].
  destruct (pop sample 5) as [q' r]. exact (proj1 H).
Defined.

Lemma oversized_part_parks_witness :
  read_and_push (new 3) 0 4 (ReadOk (to_le 4 1)) = (new 3, Parked).
Proof.
  apply (oversized_part_parks (new 3) 0 (to_le 4 1)); [|reflexivity|by vm_compute|reflexivity].
  split; cbn; unfold I64_MAX; lia.
Defined.

End Queue.

(** ** The download loop *)
Module Download.

Definition MAX_CONSECUTIVE_TRANSIENT_READ_ERRORS : Z := 5.

Definition apply_sticky_floor (current : option Z) (new_window : Z) : option Z :=
  match current with Some floor => Some (Z.min floor new_window) | None => Some new_window end.

(** Fixed for the thread: file size, first chunk, the controller's floor. *)
Record config := mk_config { file_size : Z; first_chunk : Z; bp_min_window : Z }.

(** The thread's locals, with the bytes it holds reserved for queued parts. *)
Record state := mk_state {
  offset : Z;
  consecutive_successes : Z;
  consecutive_transient : Z;
  local_window_override : option Z;
  sticky_max_window : option Z;
  inflight : Z;
  mem_pressure_set : option bool (* last [set_mem_pressure] of this thread *)
}.

Inductive outcome := ROk | RCancelled | ROverlap (back_end : Z) | RTransient.

(** One iteration's environment: [current_window()], the two [try_reserve]
    answers, what [read_and_push] returned, and the cancel flag. *)
Record env := mk_env {
  e_window : Z;
  e_reserve1 : bool;
  e_reserve2 : bool;
  e_outcome : outcome;
  e_cancelled : bool
}.

Inductive next := Continue (s : state) | Exit (s : state).

(** After [read_and_push] of [len] reserved bytes from [s]; [end_] is the end of
    the range. *)
Definition after_read (cfg : config) (s : state) (len end_ : Z) (o : outcome) : option next :=
  let released := mk_state (offset s) (consecutive_successes s) (consecutive_transient s)
    (local_window_override s) (sticky_max_window s) (wrap64 (inflight s - len)) (mem_pressure_set s) in
  match o with
  | ROk => Some (Continue (mk_state end_ (consecutive_successes s) 0 (local_window_override s)
             (sticky_max_window s) (inflight s) (mem_pressure_set s)))
  | RCancelled => Some (Exit released)
  | ROverlap back_end => Some (Continue (mk_state back_end (consecutive_successes s) 0
      (local_window_override s) (sticky_max_window s) (inflight released) (mem_pressure_set s)))
  | RTransient =>
      let n := consecutive_transient s + 1 in
      let s' := mk_state (offset s) (consecutive_successes s) n (local_window_override s)
                  (sticky_max_window s) (inflight released) (mem_pressure_set s) in
      if MAX_CONSECUTIVE_TRANSIENT_READ_ERRORS <? n then Some (Exit s')
      else
        match clamp (len / 2) (bp_min_window cfg) len with
        | None => None
        | Some new_window =>
            Some (Continue (mk_state (offset s) (consecutive_successes s) n (Some new_window)
              (apply_sticky_floor (sticky_max_window s) new_window) (inflight s') (mem_pressure_set s)))
        end
  end.

(** The window of an iteration and the override it consumes. *)
Definition window_of (cfg : config) (s : state) (e : env) : Z :=
  match local_window_override s with
  | Some w => w
  | None =>
      let w := if offset s =? 0 then first_chunk cfg else e_window e in
      match sticky_max_window s with Some floor => Z.min w floor | None => w end
  end.

(** One iteration of ['download], entered with [offset < file_size]. *)
Definition iteration (cfg : config) (s : state) (e : env) : option next :=
  if e_cancelled e then Some (Exit s)
  else
  let window := window_of cfg s e in
  let end_ := Z.min (wrap64 (offset s + window)) (file_size cfg) in
  let chunk := wrap64 (end_ - offset s) in
  if negb (e_reserve1 e) then
    match clamp (chunk / 2) (bp_min_window cfg) chunk with
    | None => None
    | Some shrunk =>
        let s := mk_state (offset s) 0 (consecutive_transient s) None (sticky_max_window s)
                   (inflight s) (Some true) in
        if negb (e_reserve2 e) then
          Some (Continue (mk_state (wrap64 (offset s + shrunk)) 0 (consecutive_transient s) None
            (sticky_max_window s) (inflight s) (Some true)))
        else
          let s := mk_state (offset s) 0 (consecutive_transient s) None (sticky_max_window s)
                     (wrap64 (inflight s + shrunk)) (Some true) in
          after_read cfg s shrunk (Z.min (wrap64 (offset s + shrunk)) (file_size cfg)) (e_outcome e)
    end
  else
    let successes := consecutive_successes s + 1 in
    let s := mk_state (offset s) successes (consecutive_transient s) None (sticky_max_window s)
               (wrap64 (inflight s + chunk))
               (if 4 <=? successes then Some false else mem_pressure_set s) in
    after_read cfg s chunk end_ (e_outcome e).

(** The loop over a stream of environments; [RunOutOfFuel] marks a run that
    needs more iterations. *)
Inductive run_result := Finished (s : state) | Panicked | RunOutOfFuel.
Fixpoint run (fuel : nat) (cfg : config) (s : state) (envs : nat -> env) : run_result :=
  if file_size cfg <=? offset s then Finished s
  else match fuel with
  | O => RunOutOfFuel
  | S fuel' =>
      match iteration cfg s (envs O) with
      | None => Panicked
      | Some (Exit s') => Finished s'
      | Some (Continue s') => run fuel' cfg s' (fun n => envs (S n))
      end
  end.

Definition init : state := mk_state 0 0 0 None None 0 None.

(** ** Well-formed configurations, environments and states *)
Section Progress.
Context (cfg : config) (M : Z).

(** [M] bounds every window the controller can give. *)
Definition cfg_ok : Prop :=
  0 <= file_size cfg /\ 1 <= bp_min_window cfg /\ bp_min_window cfg <= first_chunk cfg <= M /\
  file_size cfg + M <= U64_MAX.
(** The controller's window is within its bounds; an overlap reported by the
    queue ends beyond the part's offset (see [Queue.push_spec]). *)
Definition env_ok (s : state) (e : env) : Prop :=
  bp_min_window cfg <= e_window e <= M /\
  match e_outcome e with ROverlap back_end => offset s < back_end <= U64_MAX | _ => True end.
Record st_ok (s : state) : Prop := {
  st_offset : 0 <= offset s;
  st_transient : 0 <= consecutive_transient s <= MAX_CONSECUTIVE_TRANSIENT_READ_ERRORS;
  st_override : forall w, local_window_override s = Some w -> sticky_max_window s = Some w;
  st_sticky : forall f, sticky_max_window s = Some f -> bp_min_window cfg <= f <= M
}.

Definition floor_of (s : state) : Z := default M (sticky_max_window s).

Context (Hcfg : cfg_ok).

Lemma window_range s e : st_ok s -> env_ok s e ->
  bp_min_window cfg <= window_of cfg s e <= floor_of s /\ floor_of s <= M.
Proof.
  intros [H1 H2 Hov Hst] [He _]. destruct Hcfg as (Hfs & Hm & Hfc & Hsum). unfold window_of, floor_of.
  destruct (local_window_override s) as [w|].
  - specialize (Hov w eq_refl). rewrite Hov. specialize (Hst w Hov). cbn. lia.
  - destruct (sticky_max_window s) as [f|]; cbn.
    + specialize (Hst f eq_refl). case_test; lia.
    + case_test; lia.
Qed.

(** The chunk of an iteration: at least one byte, within the window and within
    the file. *)
Lemma chunk_range s e : st_ok s -> env_ok s e -> offset s < file_size cfg ->
  let end_ := Z.min (wrap64 (offset s + window_of cfg s e)) (file_size cfg) in
  wrap64 (end_ - offset s) = end_ - offset s /\ 1 <= end_ - offset s /\
  end_ - offset s <= window_of cfg s e /\
  (end_ - offset s = window_of cfg s e \/ end_ = file_size cfg).
Proof.
  intros Hs He Hlt end_. pose proof (window_range s e Hs He). destruct Hs as [H1 _ _ _].
  destruct Hcfg as (Hfs & Hm & Hfc & Hsum). subst end_.
  rewrite (wrap64_small (offset s + window_of cfg s e)) by (unfold is_u64; lia).
  rewrite wrap64_small by (unfold is_u64, U64_MAX in *; lia). lia.
Qed.

(** What one iteration that goes on has done. *)
Definition progress (s s' : state) : Prop :=
  (offset s < offset s' \/
   (offset s' = offset s /\ consecutive_transient s' = consecutive_transient s + 1)) /\
  floor_of s' <= floor_of s.

Lemma after_read_progress s s0 len end_ o s' :
  st_ok s -> bp_min_window cfg <= floor_of s ->
  offset s = offset s0 -> local_window_override s = None ->
  (match o with ROverlap b => offset s < b <= U64_MAX | _ => True end) ->
  offset s < end_ -> 1 <= len <= floor_of s ->
  after_read cfg s len end_ o = Some (Continue s') -> st_ok s' /\ progress s s'.
Proof.
  intros [H1 H2 H3 H4] Hmin Eo Eov Hob Hend Hlen. unfold after_read, progress, floor_of in *.
  destruct o as [| |b|]; intros E; simplify_eq/=.
  - split; [split; cbn; auto; [lia|unfold MAX_CONSECUTIVE_TRANSIENT_READ_ERRORS; lia]|]. lia.
  - split; [split; cbn; auto; [lia|unfold MAX_CONSECUTIVE_TRANSIENT_READ_ERRORS; lia]|]. lia.
  - case_if E as Hn; [done|]. destruct (clamp (len / 2) (bp_min_window cfg) len) as [w|] eqn:Ec; [|done].
    simplify_eq/=. apply clamp_range in Ec.
    assert (apply_sticky_floor (sticky_max_window s) w = Some w) as Es.
    { unfold apply_sticky_floor. destruct (sticky_max_window s); cbn in *; f_equal; lia. }
    rewrite Es. split; [|cbn; lia]. split; cbn; [done|lia|done|].
    intros f Hf. simplify_eq. destruct (sticky_max_window s) as [g|] eqn:Eg; cbn in *.
    + specialize (H4 g eq_refl). lia.
    + lia.
Qed.

Lemma st_ok_restart s n k p : st_ok s ->
  st_ok (mk_state (offset s) n (consecutive_transient s) None (sticky_max_window s) k p).
Proof. intros []. by split. Qed.

Lemma iteration_progress s e s' : st_ok s -> env_ok s e -> offset s < file_size cfg ->
  iteration cfg s e = Some (Continue s') -> st_ok s' /\ progress s s'.
Proof.
  intros Hs He Hlt. destruct (chunk_range s e Hs He Hlt) as (Ec & H1 & Hw & _).
  destruct (window_range s e Hs He) as [Hwin Hfl]. pose proof Hcfg as (Hfs & Hm & Hfc & Hsum).
  pose proof He as [_ Hov]. pose proof (st_offset s Hs) as Hoff. unfold iteration.
  case_test; [done|]. rewrite Ec. case_test.
  - destruct (clamp _ _ _) as [shrunk|] eqn:Hsh; [|done]. apply clamp_range in Hsh.
    cbn [offset inflight sticky_max_window consecutive_transient].
    rewrite (wrap64_small (offset s + shrunk)) by (unfold is_u64; lia).
    case_test.
    + intros E. injection E as <-. destruct Hs as [? ? ? ?]. split.
      * split; cbn; [lia|done|done|done].
      * split; [left; cbn; lia|unfold floor_of; cbn; lia].
    + intros E. eapply (after_read_progress _ s) in E; [exact E|by apply st_ok_restart|..];
        cbn; auto; unfold floor_of in *; cbn; lia.
  - intros E. eapply (after_read_progress _ s) in E; [exact E|by apply st_ok_restart|..];
      cbn; auto; unfold floor_of in *; cbn; lia.
Qed.

(** Remaining iterations: six per byte left, and the transient retries left. *)
Definition budget (s : state) : Z :=
  6 * Z.max 0 (file_size cfg - offset s)
  + (MAX_CONSECUTIVE_TRANSIENT_READ_ERRORS - consecutive_transient s).

Lemma progress_budget s s' : st_ok s -> st_ok s' -> offset s < file_size cfg -> progress s s' ->
  budget s' < budget s.
Proof.
  intros [? ? _ _] [? ? _ _] Hlt [Hp _]. unfold budget, MAX_CONSECUTIVE_TRANSIENT_READ_ERRORS in *. lia.
Qed.

(** Environments that stay within their contract along a run. *)
Fixpoint envs_ok (fuel : nat) (s : state) (envs : nat -> env) : Prop :=
  match fuel with
  | O => True
  | S f => env_ok s (envs O) /\
           match iteration cfg s (envs O) with
           | Some (Continue s') => envs_ok f s' (fun n => envs (S n))
           | _ => True
           end
  end.

Lemma run_terminates fuel s envs : st_ok s -> envs_ok fuel s envs ->
  budget s < Z.of_nat fuel -> run fuel cfg s envs <> RunOutOfFuel.
Proof.
  revert s envs. induction fuel as [|fuel IH]; intros s envs Hs He Hb.
  - pose proof Hs as [? ? _ _]. unfold budget, MAX_CONSECUTIVE_TRANSIENT_READ_ERRORS in *. lia.
  - cbn [run]. destruct (Z.leb_spec (file_size cfg) (offset s)); [done|].
    destruct He as [He0 He]. destruct (iteration cfg s (envs O)) as [[s'|s']|] eqn:E; [|done|done].
    destruct (iteration_progress s (envs O) s' Hs He0 ltac:(lia) E) as [Hs' Hp].
    apply IH; [done|done|]. pose proof (progress_budget s s' Hs Hs' ltac:(lia) Hp). lia.
Qed.

End Progress.

(** C36: the download thread ends.  Whatever the windows, refusals, overlaps and
    transient errors, it leaves its loop within six iterations per byte of the
    file (it advances, or retries at most five times in a row). *)
Theorem download_terminates cfg M envs :
  cfg_ok cfg M -> envs_ok cfg M (Z.to_nat (6 * file_size cfg + 6)) init envs ->
  run (Z.to_nat (6 * file_size cfg + 6)) cfg init envs <> RunOutOfFuel.
Proof.
  intros Hc He. pose proof Hc as (Hfs & Hm & Hfc & Hsum). eapply run_terminates; [exact Hc| |exact He|].
  - split; cbn; [lia|unfold MAX_CONSECUTIVE_TRANSIENT_READ_ERRORS; lia|done|done].
  - unfold budget. cbn. unfold MAX_CONSECUTIVE_TRANSIENT_READ_ERRORS. lia.
Qed.

Definition small_cfg : config := mk_config 10 4 1.
Definition flaky (n : nat) : env :=
  mk_env 4 true true (if (n <? 3)%nat then RTransient else ROk) false.

Lemma envs_ok_const cfg M fuel s envs :
  (forall n, bp_min_window cfg <= e_window (envs n) <= M /\
     match e_outcome (envs n) with ROverlap _ => False | _ => True end) ->
  envs_ok cfg M fuel s envs.
Proof.
  revert s envs. induction fuel as [|fuel IH]; intros s envs H; [done|]. cbn. split.
  - destruct (H O) as [? Ho]. split; [done|]. by destruct (e_outcome (envs O)).
  - destruct (iteration cfg s (envs O)) as [[]|]; [|done|done]. apply IH. intros n. apply (H (S n)).
Qed.

Lemma download_terminates_witness :
  run 66 small_cfg init flaky <> RunOutOfFuel /\
  exists s, run 66 small_cfg init flaky = Finished s /\ offset s = 10 /\ sticky_max_window s = Some 1.
Proof.
  split; [|by eexists; vm_compute].
  refine (download_terminates small_cfg 4 flaky _ _).
  - unfold cfg_ok, U64_MAX. cbn. lia.
  - apply envs_ok_const. intros n. unfold flaky. destruct (n <? 3)%nat; cbn; split; try lia; done.
Defined.

(** The pin is never lifted. *)
Lemma after_read_sticky cfg s len end_ o s' f :
  after_read cfg s len end_ o = Some (Continue s') -> sticky_max_window s = Some f ->
  exists f', sticky_max_window s' = Some f'.
Proof.
  intros E Hf. unfold after_read in E. destruct o; simplify_eq/=; eauto.
  case_if E as Hn; [done|]. destruct (clamp _ _ _); simplify_eq/=. rewrite Hf. cbn. eauto.
Qed.

Lemma iteration_sticky cfg s e s' f :
  iteration cfg s e = Some (Continue s') -> sticky_max_window s = Some f ->
  exists f', sticky_max_window s' = Some f'.
Proof.
  intros E Hf. unfold iteration in E. case_if E as Hcan; [done|]. case_if E as Hr.
  - destruct (clamp _ _ _) as [shrunk|]; [|done]. case_if E as Hr2; [simplify_eq/=; eauto|].
    by eapply after_read_sticky in E.
  - by eapply after_read_sticky in E.
Qed.

(** The window ratchet.  Once a transient error has pinned the window, no
    later iteration asks for more than the pinned size, and the pin is never
    lifted and only goes down. *)
Theorem window_ratchet cfg M s e s' e' :
  cfg_ok cfg M -> st_ok cfg M s -> env_ok cfg M s e -> env_ok cfg M s' e' -> offset s < file_size cfg ->
  iteration cfg s e = Some (Continue s') ->
  window_of cfg s' e' <= floor_of M s' /\
  (forall f, sticky_max_window s = Some f ->
     exists f', sticky_max_window s' = Some f' /\ f' <= f /\ window_of cfg s' e' <= f').
Proof.
  intros Hc Hs He He' Hlt E. destruct (iteration_progress cfg M Hc s e s' Hs He Hlt E) as [Hs' [_ Hfl]].
  destruct (window_range cfg M Hc s' e' Hs' He') as [Hw _]. split; [lia|].
  intros f Hf. unfold floor_of in *. rewrite Hf in Hfl. cbn in Hfl.
  destruct (iteration_sticky cfg s e s' f E Hf) as (f' & Hf'). rewrite Hf' in *. cbn in *.
  exists f'. split; [done|]. lia.
Qed.

Lemma window_ratchet_witness :
  let s := mk_state 4 1 0 None (Some 2) 0 None in
  let e := mk_env 4 true true ROk false in
  exists s', iteration small_cfg s e = Some (Continue s') /\ window_of small_cfg s' e <= 2.
Proof.
  eexists. split; [reflexivity|].
  assert (cfg_ok small_cfg 4) as Hc by (unfold cfg_ok, U64_MAX; cbn; lia).
  refine (proj1 (window_ratchet small_cfg 4 (mk_state 4 1 0 None (Some 2) 0 None)
    (mk_env 4 true true ROk false) _ (mk_env 4 true true ROk false) Hc _ _ _ _ eq_refl)).
  - split; cbn; [lia|unfold MAX_CONSECUTIVE_TRANSIENT_READ_ERRORS; lia|done|intros f Hf; injection Hf as <-; lia].
  - split; cbn; [lia|done].
  - split; cbn; [lia|done].
  - cbn. lia.
Defined.

(** The tail of a file.  When fewer bytes are left than the controller's
    minimum window, a refused reservation or a transient error panics the
    download thread ([clamp] with its bounds crossed). *)
Theorem short_tail_panics cfg M s e :
  cfg_ok cfg M -> st_ok cfg M s -> env_ok cfg M s e -> e_cancelled e = false ->
  0 < file_size cfg - offset s < bp_min_window cfg ->
  e_reserve1 e = false \/
  (e_reserve1 e = true /\ e_outcome e = RTransient /\
   consecutive_transient s < MAX_CONSECUTIVE_TRANSIENT_READ_ERRORS) ->
  iteration cfg s e = None.
Proof.
  intros Hc Hs He Hcan Htail Hcase.
  destruct (chunk_range cfg M Hc s e Hs He ltac:(lia)) as (Ec & H1 & Hw & Hend).
  destruct (window_range cfg M Hc s e Hs He) as [Hwin _].
  unfold iteration. rewrite Hcan, Ec.
  assert (Hpan : forall x, clamp x (bp_min_window cfg)
    (Z.min (wrap64 (offset s + window_of cfg s e)) (file_size cfg) - offset s) = None)
    by (intros; apply clamp_panics; lia).
  destruct Hcase as [Hr|(Hr & Ho & Ht)]; rewrite Hr; cbn [negb].
  - by rewrite Hpan.
  - unfold after_read. rewrite Ho. cbn [consecutive_transient]. case_test; bool_props; [lia|].
    by rewrite Hpan.
Qed.

Lemma short_tail_panics_witness :
  iteration (mk_config (16777216 + 1) 16777216 131072)
    (mk_state 16777216 1 0 None None 16777216 None)
    (mk_env 131072 true true RTransient false) = None.
Proof.
  apply (short_tail_panics (mk_config (16777216 + 1) 16777216 131072) 67108864
    (mk_state 16777216 1 0 None None 16777216 None) (mk_env 131072 true true RTransient false)).
  - unfold cfg_ok, U64_MAX. cbn. lia.
  - split; cbn; [lia|unfold MAX_CONSECUTIVE_TRANSIENT_READ_ERRORS; lia|done|done].
  - split; cbn; [lia|done].
  - reflexivity.
  - cbn. lia.
  - right. cbn. unfold MAX_CONSECUTIVE_TRANSIENT_READ_ERRORS. repeat split; lia.
Defined.

End Download.
