(* ===== verification/PrefetchBudget.v ===== *)
(** * PrefetchBudget: the memory budget of a prefetcher

    [HandlePrefetcher] of src/src/prefetcher.rs as its threads see it: the
    download thread (whose arithmetic is [Prefetcher.Download]), the readers that
    pop parts ([Prefetcher.Queue]), the owner that drops it, and the rest of the
    mount, all on one [MemoryLimiter].  An [action] is one access to a shared
    object: a reservation, a release, the queue under its lock, one atomic access
    to [in_flight_reserved].  [act] is what it does, [None] when it is not
    possible; the adaptive window and the answer of the range read are part of
    the action. *)

From Stdlib Require Import ZArith Lia Strings.Byte Strings.String.
From S2P Require Import Prelude MemLimiter Prefetcher.

Module Budget.
Import MemLimiter.Limiter.
Import Prefetcher.Queue(Part, PartQueue, parts, cancelled, read_result, ReadOk, ReadTransient, ReadFailed,
  RpOk, RpCancelled, RpOverlap, RpTransient, Parked, total, is_terminal).
Import Prefetcher.Download(config, file_size, bp_min_window, outcome, ROk, RCancelled, ROverlap, RTransient,
  Continue, Exit).

Definition PREFETCH : string := "prefetch".

(** Where the download thread is: at the head of its loop; asleep before the
    second reservation; holding a reservation of [len] bytes, not yet counted;
    in the range read; waiting for the queue; about to uncount the reservation;
    about to release it; past the loop; past [set_finished]; gone, or gone by a
    panic. *)
Inductive tpc :=
| Top (d : Download.state)
| Retry (d : Download.state) (shrunk : Z)
| Reserved (d : Download.state) (len end_ : Z)
| Reading (d : Download.state) (len end_ : Z)
| Pushing (d : Download.state) (len end_ : Z) (buf : bytes)
| Unreserve (d : Download.state) (len end_ : Z) (o : outcome)
| Releasing (d : Download.state) (len end_ : Z) (o : outcome)
| Finishing
| Stored
| Done
| Dead.

(** A reader inside [HandlePrefetcher::pop] that got a part of [n] bytes. *)
Inductive ppc := PopRelease (n : Z) | PopSub (n : Z).

(** The owner: before [Drop]; waiting for the thread; having loaded the
    residual; having released it; gone. *)
Inductive opc := Alive | Waiting | Residual (r : Z) | Zeroing | Gone.

(** [others] and [overdue] are ghosts: the bytes the rest of the mount has
    reserved, and whether the residual was loaded while the thread was between
    counting and uncounting a reservation. *)
Record state := mk_state {
  lim : MemoryLimiter;
  queue : PartQueue;
  in_flight_reserved : Z;
  thread : tpc;
  pops : list ppc;
  owner : opc;
  others : Z;
  overdue : bool
}.

Definition set_lim (m : MemoryLimiter) (s : state) : state :=
  mk_state m (queue s) (in_flight_reserved s) (thread s) (pops s) (owner s) (others s) (overdue s).
Definition set_queue (q : PartQueue) (s : state) : state :=
  mk_state (lim s) q (in_flight_reserved s) (thread s) (pops s) (owner s) (others s) (overdue s).
Definition set_inflight (n : Z) (s : state) : state :=
  mk_state (lim s) (queue s) (wrap64 n) (thread s) (pops s) (owner s) (others s) (overdue s).
Definition set_thread (t : tpc) (s : state) : state :=
  mk_state (lim s) (queue s) (in_flight_reserved s) t (pops s) (owner s) (others s) (overdue s).
Definition set_pops (ps : list ppc) (s : state) : state :=
  mk_state (lim s) (queue s) (in_flight_reserved s) (thread s) ps (owner s) (others s) (overdue s).
Definition set_owner (o : opc) (s : state) : state :=
  mk_state (lim s) (queue s) (in_flight_reserved s) (thread s) (pops s) o (others s) (overdue s).
Definition set_others (n : Z) (s : state) : state :=
  mk_state (lim s) (queue s) (in_flight_reserved s) (thread s) (pops s) (owner s) n (overdue s).

(** [HandlePrefetcher::new]: the first chunk within the controller's bounds, an
    empty queue, and the thread at the head of its loop. *)
Definition new_config (size chunk_size bp_min bp_max : Z) : option config :=
  match clamp chunk_size bp_min bp_max with
  | Some first_chunk => Some (Download.mk_config size first_chunk bp_min)
  | None => None
  end.
Definition new (m : MemoryLimiter) (max_queue_bytes : Z) (others : Z) : state :=
  mk_state m (Queue.new max_queue_bytes) 0 (Top Download.init) [] Alive others false.

(** The thread's locals once it holds a first or a second reservation. *)
Definition taken (d : Download.state) (len : Z) : Download.state :=
  let n := Download.consecutive_successes d + 1 in
  Download.mk_state (Download.offset d) n (Download.consecutive_transient d) None (Download.sticky_max_window d)
    (wrap64 (Download.inflight d + len))
    (if 4 <=? n then Some false else Download.mem_pressure_set d).
Definition pressed (d : Download.state) : Download.state :=
  Download.mk_state (Download.offset d) 0 (Download.consecutive_transient d) None (Download.sticky_max_window d)
    (Download.inflight d) (Some true).
Definition taken_shrunk (d : Download.state) (len : Z) : Download.state :=
  Download.mk_state (Download.offset d) 0 (Download.consecutive_transient d) None (Download.sticky_max_window d)
    (wrap64 (Download.inflight d + len)) (Some true).

(** The head of the loop, with the window of the controller. *)
Definition at_top (cfg : config) (d : Download.state) (w : Z) (s : state) : state :=
  if (file_size cfg <=? Download.offset d) || cancelled (queue s) then set_thread Finishing s
  else
    let window := Download.window_of cfg d (Download.mk_env w true true ROk false) in
    let end_ := Z.min (wrap64 (Download.offset d + window)) (file_size cfg) in
    let chunk := wrap64 (end_ - Download.offset d) in
    match try_reserve (lim s) PREFETCH chunk with
    | Ok m => set_thread (Reserved (taken d chunk) chunk end_) (set_lim m s)
    | Err _ =>
        match clamp (chunk / 2) (bp_min_window cfg) chunk with
        | Some shrunk => set_thread (Retry (pressed d) shrunk) s
        | None => set_thread Dead s
        end
    end.
Definition at_retry (cfg : config) (d : Download.state) (shrunk : Z) (s : state) : state :=
  let end_ := wrap64 (Download.offset d + shrunk) in
  match try_reserve (lim s) PREFETCH shrunk with
  | Ok m => set_thread (Reserved (taken_shrunk d shrunk) shrunk (Z.min end_ (file_size cfg))) (set_lim m s)
  | Err _ =>
      set_thread (Top (Download.mk_state end_ 0 (Download.consecutive_transient d) None (Download.sticky_max_window d)
        (Download.inflight d) (Some true))) s
  end.
(** The range read answers, with no more than the range. *)
Definition at_read (d : Download.state) (len end_ : Z) (r : read_result) (s : state) : option state :=
  match r with
  | ReadOk buf => if lenZ buf <=? len then Some (set_thread (Pushing d len end_ buf) s) else None
  | ReadTransient => Some (set_thread (Unreserve d len end_ RTransient) s)
  | ReadFailed e => Some (set_thread (Unreserve d len end_ RCancelled) (set_queue (Queue.set_error (queue s) e) s))
  end.
(** Where [after_read] leads; giving up sets the error of the queue. *)
Definition goto (cfg : config) (d : Download.state) (len end_ : Z) (o : outcome) (s : state) : state :=
  match Download.after_read cfg d len end_ o with
  | Some (Continue d') => set_thread (Top d') s
  | Some (Exit _) =>
      set_thread Finishing
        (match o with RTransient => set_queue (Queue.set_error (queue s) "prefetch gave up"%string) s | _ => s end)
  | None => set_thread Dead s
  end.
(** Under the queue lock; no action while the queue is full. *)
Definition at_push (cfg : config) (d : Download.state) (len end_ : Z) (buf : bytes) (s : state) : option state :=
  let '(q, o) := Queue.read_and_push (queue s) (Download.offset d) len (ReadOk buf) in
  match o with
  | RpOk => Some (goto cfg d len end_ ROk (set_queue q s))
  | RpCancelled => Some (set_thread (Unreserve d len end_ RCancelled) (set_queue q s))
  | RpOverlap b => Some (set_thread (Unreserve d len end_ (ROverlap b)) (set_queue q s))
  | RpTransient => Some (set_thread (Unreserve d len end_ RTransient) (set_queue q s))
  | Parked => None
  end.
Definition thread_act (cfg : config) (w : Z) (r : read_result) (s : state) : option state :=
  match thread s with
  | Top d => Some (at_top cfg d w s)
  | Retry d shrunk => Some (at_retry cfg d shrunk s)
  | Reserved d len end_ => Some (set_thread (Reading d len end_) (set_inflight (in_flight_reserved s + len) s))
  | Reading d len end_ => at_read d len end_ r s
  | Pushing d len end_ buf => at_push cfg d len end_ buf s
  | Unreserve d len end_ o => Some (set_thread (Releasing d len end_ o) (set_inflight (in_flight_reserved s - len) s))
  | Releasing d len end_ o => Some (goto cfg d len end_ o (set_lim (release (lim s) PREFETCH len) s))
  | Finishing => Some (set_thread Stored (set_queue (Queue.set_finished (queue s)) s))
  | Stored => Some (set_thread Done s)
  | Done | Dead => None
  end.

(** Whether the thread's reservation is counted in [in_flight_reserved]. *)
Definition counted (t : tpc) : bool :=
  match t with Reading _ _ _ | Pushing _ _ _ _ | Unreserve _ _ _ _ => true | _ => false end.

Inductive action :=
| Thread (w : Z) (r : read_result)
| Pop (off : Z)
| PopReleases (i : nat)
| PopSubs (i : nat)
| Cancel
| Drop
| Load
| ReleaseResidual
| StoreZero
| OtherReserve (label : string) (n : Z)
| OtherRelease (label : string) (n : Z).

(** [Drop] needs the last reference, so no reader is inside [pop]; [Load] ends
    the wait, with the thread done or the deadline past. *)
Definition act (cfg : config) (a : action) (s : state) : option state :=
  match a with
  | Thread w r => thread_act cfg w r s
  | Pop off =>
      match owner s with
      | Alive =>
          let '(q, r) := Queue.pop (queue s) off in
          Some (set_queue q (match r with
                             | Some p => set_pops (PopRelease (lenZ (Queue.data p)) :: pops s) s
                             | None => s
                             end))
      | _ => None
      end
  | PopReleases i =>
      match pops s !! i with
      | Some (PopRelease n) => Some (set_pops (<[i := PopSub n]> (pops s)) (set_lim (release (lim s) PREFETCH n) s))
      | _ => None
      end
  | PopSubs i =>
      match pops s !! i with
      | Some (PopSub n) => Some (set_pops (delete i (pops s)) (set_inflight (in_flight_reserved s - n) s))
      | _ => None
      end
  | Cancel => match owner s with Alive => Some (set_queue (Queue.cancel (queue s)) s) | _ => None end
  | Drop =>
      match owner s, pops s with
      | Alive, [] => Some (set_owner Waiting (set_queue (Queue.cancel (queue s)) s))
      | _, _ => None
      end
  | Load =>
      match owner s with
      | Waiting => Some (mk_state (lim s) (queue s) (in_flight_reserved s) (thread s) (pops s)
                           (Residual (in_flight_reserved s)) (others s) (counted (thread s)))
      | _ => None
      end
  | ReleaseResidual =>
      match owner s with
      | Residual r => Some (if 0 <? r then set_owner Zeroing (set_lim (release (lim s) PREFETCH r) s) else set_owner Gone s)
      | _ => None
      end
  | StoreZero => match owner s with Zeroing => Some (set_owner Gone (set_inflight 0 s)) | _ => None end
  | OtherReserve label n =>
      if (0 <=? n) && (n <=? U64_MAX) then
        match try_reserve (lim s) label n with
        | Ok m => Some (set_others (others s + n) (set_lim m s))
        | Err _ => None
        end
      else None
  | OtherRelease label n =>
      if (0 <=? n) && (n <=? others s) then Some (set_others (others s - n) (set_lim (release (lim s) label n) s)) else None
  end.

Definition step (cfg : config) (s s' : state) : Prop := exists a, act cfg a s = Some s'.
Fixpoint run (cfg : config) (actions : list action) (s : state) : option state :=
  match actions with
  | [] => Some s
  | a :: rest => match act cfg a s with Some s' => run cfg rest s' | None => None end
  end.

Lemma run_rtc cfg actions : forall s s', run cfg actions s = Some s' -> rtc (step cfg) s s'.
Proof.
  induction actions as [|a rest IH]; intros s s' H; cbn in H; [by simplify_eq|].
  destruct (act cfg a s) as [s1|] eqn:E; [|done]. eapply rtc_l; [by exists a|by apply IH].
Qed.

(** ** The limiter, as far as [used] goes *)
Lemma used_record m l d : used (record m l d) = used m.
Proof. done. Qed.
Lemma cap_record m l d : cap (record m l d) = cap m.
Proof. done. Qed.

Lemma reserve_used m m' l n : 0 < cap m <= I64_MAX -> 0 <= used m -> 0 <= n ->
  try_reserve m l n = Ok m' -> used m' = used m + n /\ cap m' = cap m /\ used m' <= cap m.
Proof.
  intros Hc Hu Hn. unfold try_reserve. assert ((cap m =? 0) = false) as -> by lia. unfold cas_iter.
  destruct (Z.ltb_spec (cap m) (saturating_add (used m) n)) as [|Hle]; [done|]. rewrite Z.eqb_refl.
  intros E. simplify_eq. rewrite used_record, cap_record. cbn [set_used used cap].
  unfold saturating_add, U64_MAX, I64_MAX in *. lia.
Qed.

Lemma release_spec m l n : used (release m l n) = Z.max 0 (used m - n) /\ cap (release m l n) = cap m.
Proof. unfold release. rewrite used_record, cap_record. cbn. unfold saturating_sub. lia. Qed.

(** ** The invariant *)

(** What the thread has reserved and not released; what of it is not counted. *)
Definition owes (t : tpc) : Z :=
  match t with
  | Reserved _ len _ | Reading _ len _ | Pushing _ len _ _ | Unreserve _ len _ _ | Releasing _ len _ _ => len
  | _ => 0
  end.
Definition sane (t : tpc) : Prop := match t with Retry _ n => 0 <= n | _ => 0 <= owes t end.
Definition uncounted (t : tpc) : Z := if counted t then 0 else owes t.
Definition unreleased (p : ppc) : Z := match p with PopRelease n => n | PopSub _ => 0 end.
Definition unsubbed (p : ppc) : Z := match p with PopRelease _ => 0 | PopSub n => n end.
(** The bytes of the limiter that are this prefetcher's. *)
Definition mine (s : state) : Z := used (lim s) - others s.

Definition shares (s : state) : Prop :=
  match owner s with
  | Alive | Waiting =>
      (owner s = Waiting -> pops s = []) /\
      total (parts (queue s)) + owes (thread s) + sumZ (unreleased <$> pops s) <= mine s /\
      in_flight_reserved s = wrap64 (mine s - uncounted (thread s) + sumZ (unsubbed <$> pops s))
  | Residual r => pops s = [] /\ 0 <= r /\ mine s = r + owes (thread s)
  | Zeroing | Gone => pops s = [] /\ mine s = owes (thread s)
  end.
Record inv (c : Z) (s : state) : Prop := {
  inv_cap : cap (lim s) = c;
  inv_used : 0 <= used (lim s) <= c;
  inv_others : 0 <= others s;
  inv_sane : sane (thread s);
  inv_pops : Forall (fun p => 0 <= unreleased p) (pops s);
  inv_cancelled : owner s <> Alive -> cancelled (queue s) = true;
  inv_shares : shares s
}.

(** ** The queue, as far as its bytes go *)
Lemma pop_loop_total off ps : forall b,
  let '(ps', _, r) := Queue.pop_loop off ps b in
  total ps' + match r with Some p => lenZ (Queue.data p) | None => 0 end <= total ps.
Proof.
  induction ps as [|p ps IH]; intros b; cbn [Queue.pop_loop]; [done|]. rewrite Queue.total_cons.
  pose proof (lenZ_nonneg (Queue.data p)). case_test; [lia|]. case_test.
  - specialize (IH (wrap64 (b - lenZ (Queue.data p)))). destruct (Queue.pop_loop _ _ _) as [[ps' b'] r]. lia.
  - rewrite Queue.total_cons. lia.
Qed.

Lemma pop_total q off :
  let '(q', r) := Queue.pop q off in
  total (parts q') + match r with Some p => lenZ (Queue.data p) | None => 0 end <= total (parts q) /\
  cancelled q' = cancelled q.
Proof.
  unfold Queue.pop. pose proof (pop_loop_total off (parts q) (Queue.current_bytes q)) as H.
  by destruct (Queue.pop_loop _ _ _) as [[ps' b'] r].
Qed.

Lemma push_total q off len buf :
  let '(q', o) := Queue.read_and_push q off len (ReadOk buf) in
  cancelled q' = cancelled q /\
  match o with
  | RpOk => total (parts q') = total (parts q) + lenZ buf /\ cancelled q = false
  | _ => q' = q
  end.
Proof.
  cbn [Queue.read_and_push]. destruct (is_terminal q) eqn:Ht; [done|]. case_test; [done|].
  assert (cancelled q = false) as Hcn.
  { unfold Queue.is_terminal in Ht. by apply orb_false_iff in Ht as [_ ?]. }
  unfold Queue.push. rewrite Ht. case_test; [done|].
  destruct (last (parts q)); [case_test; [done|]|]; (split_and!; [done|apply Queue.total_snoc|done]).
Qed.

(** ** One action of the thread *)

(** What it leaves alone, and what it moves: its debt follows the limiter up to
    what it queues, and the counter follows what of the debt is counted. *)
Record effect (c : Z) (s s' : state) : Prop := {
  ef_same : pops s' = pops s /\ owner s' = owner s /\ others s' = others s /\ overdue s' = overdue s;
  ef_cap : cap (lim s') = c;
  ef_used : 0 <= used (lim s') <= c;
  ef_sane : sane (thread s');
  ef_cancelled : cancelled (queue s) = true -> cancelled (queue s') = true;
  ef_debt : mine s - owes (thread s) - total (parts (queue s)) <= mine s' - owes (thread s') - total (parts (queue s'));
  ef_exact : cancelled (queue s) = true -> mine s' - owes (thread s') = mine s - owes (thread s);
  ef_counter : in_flight_reserved s' = in_flight_reserved s /\ mine s' - uncounted (thread s') = mine s - uncounted (thread s) \/
    in_flight_reserved s' = wrap64 (in_flight_reserved s + (mine s' - uncounted (thread s') - (mine s - uncounted (thread s))))
}.

Section Thread.
Context (cfg : config) (c : Z) (Hc : 0 < c <= I64_MAX).

Definition base (s : state) : Prop :=
  cap (lim s) = c /\ 0 <= used (lim s) <= c /\ 0 <= others s /\ sane (thread s) /\ owes (thread s) <= mine s.

Lemma sane_owes t : sane t -> 0 <= owes t.
Proof using. by destruct t. Qed.

Lemma goto_same d len end_ o s :
  let s' := goto cfg d len end_ o s in
  lim s' = lim s /\ in_flight_reserved s' = in_flight_reserved s /\
  (pops s' = pops s /\ owner s' = owner s /\ others s' = others s /\ overdue s' = overdue s) /\
  (sane (thread s') /\ owes (thread s') = 0 /\ uncounted (thread s') = 0) /\
  parts (queue s') = parts (queue s) /\ cancelled (queue s') = cancelled (queue s).
Proof using.
  unfold goto. destruct (Download.after_read cfg d len end_ o) as [[d'|d']|]; [done| |done]. by destruct o.
Qed.

(** A move that touches neither the limiter nor the counter. *)
Lemma effect_move s s' : base s -> lim s' = lim s -> in_flight_reserved s' = in_flight_reserved s ->
  pops s' = pops s /\ owner s' = owner s /\ others s' = others s /\ overdue s' = overdue s ->
  sane (thread s') -> uncounted (thread s') = uncounted (thread s) ->
  cancelled (queue s') = cancelled (queue s) ->
  total (parts (queue s')) + owes (thread s') <= total (parts (queue s)) + owes (thread s) ->
  (cancelled (queue s) = true -> owes (thread s') = owes (thread s)) -> effect c s s'.
Proof using.
  clear Hc. intros (Hcap & Hu & Hot & Hsn & Hw) El Ei Hs Ho Eu Ec Ht Hx. pose proof Hs as (_ & _ & E3 & _).
  assert (mine s' = mine s) as Em by (unfold mine; by rewrite El, E3).
  split; rewrite ?El, ?Em, ?Ec; try done; [lia| |left; by rewrite Eu]. intros Hcn. rewrite (Hx Hcn). done.
Qed.

Lemma reserve_effect s m n d end_ : base s -> owes (thread s) = 0 -> 0 <= n ->
  try_reserve (lim s) PREFETCH n = Ok m ->
  effect c s (set_thread (Reserved d n end_) (set_lim m s)).
Proof using Hc.
  intros (Hcap & Hu & Hot & Hsn & Hw) E0 Hn Hr. apply reserve_used in Hr as (E1 & E2 & E3); [|lia..].
  assert (uncounted (thread s) = 0) as Eu by (unfold uncounted; by destruct (counted _)).
  split; unfold mine in *; cbn; rewrite ?E1, ?E0, ?Eu; try done; lia.
Qed.

Lemma top_effect s d w : base s -> thread s = Top d -> effect c s (at_top cfg d w s).
Proof using Hc.
  intros Hb Et. unfold at_top. assert (owes (thread s) = 0 /\ uncounted (thread s) = 0) as [E0 E1] by by rewrite Et.
  case_test; [apply effect_move; rewrite ?E0, ?E1; done|].
  destruct (try_reserve _ _ _) as [m|e] eqn:Er.
  - eapply reserve_effect; [done|done| |done]. apply wrap64_range.
  - match type of Er with try_reserve _ _ (wrap64 ?x) = _ => pose proof (wrap64_range x) as Hch end. unfold is_u64 in Hch.
    destruct (clamp _ _ _) as [x|] eqn:Ex; apply effect_move; rewrite ?E0, ?E1; try done.
    unfold clamp in Ex. case_if Ex as Hm; [|done]. simplify_eq. cbn. lia.
Qed.

Lemma retry_effect s d n : base s -> thread s = Retry d n -> effect c s (at_retry cfg d n s).
Proof using Hc.
  intros Hb Et. assert (0 <= n) as Hn by (destruct Hb as (_ & _ & _ & Hs & _); by rewrite Et in Hs).
  unfold at_retry. assert (owes (thread s) = 0 /\ uncounted (thread s) = 0) as [E0 E1] by by rewrite Et.
  destruct (try_reserve _ _ _) as [m|e] eqn:Er; [by eapply reserve_effect|].
  apply effect_move; rewrite ?E0, ?E1; done.
Qed.

Lemma goto_effect s s0 d len end_ o : base s -> lim s0 = lim s -> in_flight_reserved s0 = in_flight_reserved s ->
  pops s0 = pops s /\ owner s0 = owner s /\ others s0 = others s /\ overdue s0 = overdue s ->
  uncounted (thread s) = 0 -> cancelled (queue s0) = cancelled (queue s) -> cancelled (queue s) = false ->
  total (parts (queue s0)) <= total (parts (queue s)) + owes (thread s) ->
  effect c s (goto cfg d len end_ o s0).
Proof using.
  clear Hc. intros Hb El Ei Hs Eu Ec Hcf Ht.
  destruct (goto_same d len end_ o s0) as (G1 & G2 & G3 & (G4 & G5 & G6) & G7 & G8).
  apply effect_move; rewrite ?G1, ?G2, ?G5, ?G6, ?G7, ?G8, ?Eu; try done; [|lia|congruence].
  destruct Hs as (H1 & H2 & H3 & H4), G3 as (-> & -> & -> & ->). done.
Qed.

Lemma push_effect s s' d len end_ buf : base s -> lenZ buf <= len -> thread s = Pushing d len end_ buf ->
  at_push cfg d len end_ buf s = Some s' -> effect c s s'.
Proof using.
  clear Hc. intros Hb Hl Et. assert (0 <= len) as Hn by (destruct Hb as (_ & _ & _ & Hs & _); by rewrite Et in Hs).
  assert (owes (thread s) = len /\ uncounted (thread s) = 0) as [E0 E1] by by rewrite Et.
  unfold at_push. pose proof (push_total (queue s) (Download.offset d) len buf) as Hp.
  destruct (Queue.read_and_push _ _ _ _) as [q [| |b| |]]; destruct Hp as [Hcn Hp]; intros E; simplify_eq.
  - destruct Hp as [Hp Hcf]. apply goto_effect; cbn; try done. lia.
  - apply effect_move; rewrite ?E0, ?E1; done.
  - apply effect_move; rewrite ?E0, ?E1; done.
  - apply effect_move; rewrite ?E0, ?E1; done.
Qed.

Lemma read_effect s s' d len end_ r : base s -> thread s = Reading d len end_ ->
  at_read d len end_ r s = Some s' -> effect c s s'.
Proof using.
  clear Hc. intros Hb Et. assert (0 <= len) as Hn by (destruct Hb as (_ & _ & _ & Hs & _); by rewrite Et in Hs).
  assert (owes (thread s) = len /\ uncounted (thread s) = 0) as [E0 E1] by by rewrite Et.
  unfold at_read. destruct r as [buf| |e]; [case_test; [|done]| |]; intros E; simplify_eq;
    apply effect_move; rewrite ?E0, ?E1; done.
Qed.

Lemma release_effect s d len end_ o : base s -> thread s = Releasing d len end_ o ->
  effect c s (goto cfg d len end_ o (set_lim (release (lim s) PREFETCH len) s)).
Proof using.
  clear Hc. intros (Hcap & Hu & Hot & Hsn & Hw) Et. rewrite Et in Hsn, Hw. cbn in Hsn, Hw. unfold mine in Hw.
  destruct (goto_same d len end_ o (set_lim (release (lim s) PREFETCH len) s)) as (G1 & G2 & G3 & (G4 & G5 & G6) & G7 & G8).
  destruct (release_spec (lim s) PREFETCH len) as [R1 R2]. pose proof G3 as (_ & _ & G3' & _).
  split; [exact G3|..]; unfold mine; rewrite ?G1, ?G2, ?G3', ?G5, ?G6, ?G7, ?G8, ?Et;
    cbn [lim set_lim others queue in_flight_reserved]; rewrite ?R1, ?R2; unfold uncounted; cbn [owes counted]; try done; lia.
Qed.

(** A buffer that waits to be pushed is no longer than its reservation. *)
Definition fits (t : tpc) : Prop := match t with Pushing _ len _ buf => lenZ buf <= len | _ => True end.

Lemma thread_effect s s' w r : base s -> fits (thread s) -> thread_act cfg w r s = Some s' -> effect c s s'.
Proof using Hc.
  intros Hb Hf. unfold thread_act. pose proof Hb as (Hcap & Hu & Hot & Hsn & Hw).
  destruct (thread s) eqn:Et; intros E; simplify_eq.
  - by apply top_effect.
  - by apply retry_effect.
  - split; cbn; rewrite ?Et; cbn in *; try done; try lia. right. unfold uncounted, mine. cbn. f_equal. lia.
  - by eapply read_effect.
  - by eapply push_effect.
  - split; cbn; rewrite ?Et; cbn in *; try done; try lia. right. unfold uncounted, mine. cbn. f_equal. lia.
  - by apply release_effect.
  - apply effect_move; rewrite ?Et; done.
  - apply effect_move; rewrite ?Et; done.
Qed.

Lemma thread_fits s s' w r : thread_act cfg w r s = Some s' -> fits (thread s').
Proof using.
  clear Hc. unfold thread_act, at_top, at_retry, at_read, at_push, goto.
  destruct (thread s) as [d|d n|d len e|d len e|d len e b|d len e o|d len e o| | | |]; intros E; simplify_eq; try done.
  - repeat case_match; done.
  - by case_match.
  - destruct r; [case_if E as Hb; [|done]| |]; simplify_eq; cbn; try done.
  - destruct (Queue.read_and_push _ _ _ _) as [q [| |b'| |]]; simplify_eq; try done; by repeat case_match.
  - by repeat case_match.
Qed.

(** ** The invariant is kept *)

Lemma inv_base s : inv c s -> base s.
Proof using.
  clear Hc. intros [H1 H2 H3 H4 H5 H6 H7]. split_and!; try done; try lia. unfold shares in H7.
  pose proof (Queue.parts_total_nonneg (parts (queue s))). pose proof (sumZ_fmap_nonneg unreleased (pops s) H5).
  destruct (owner s); [lia|lia|lia|lia|lia].
Qed.

Lemma thread_inv s s' w r : inv c s -> fits (thread s) -> thread_act cfg w r s = Some s' -> inv c s'.
Proof using Hc.
  intros Hi Hf Ha. destruct (thread_effect s s' w r (inv_base s Hi) Hf Ha) as [(E1 & E2 & E3 & E4) F1 F2 F3 F4 F5 F6 F7].
  destruct Hi as [H1 H2 H3 H4 H5 H6 H7]. split; rewrite ?E1, ?E2, ?E3; try done.
  { intros Ho. by apply F4, H6. }
  unfold shares in *. rewrite E2, E1. destruct (owner s).
  1,2: destruct H7 as (A1 & A2 & A3); split_and!; [done|lia|];
    destruct F7 as [[-> E]| ->]; [rewrite A3; f_equal; lia|]; rewrite A3, wrap64_add_l; f_equal; lia.
  all: specialize (F6 ltac:(by apply H6)).
  - destruct H7 as (A1 & A2 & A3). split_and!; [done|done|lia].
  - destruct H7 as (A1 & A2). split_and!; [done|lia].
  - destruct H7 as (A1 & A2). split_and!; [done|lia].
Qed.

(** A change of the limiter by another user moves its share and nothing else. *)
Lemma others_inv s m n : inv c s -> cap m = c -> 0 <= used m <= c -> 0 <= n -> used m - n = mine s ->
  inv c (set_others n (set_lim m s)).
Proof using.
  clear Hc. intros [H1 H2 H3 H4 H5 H6 H7] E1 E2 E3 E4. split; try done.
  unfold shares in *. cbn [owner pops queue thread in_flight_reserved set_others set_lim].
  assert (mine (set_others n (set_lim m s)) = mine s) as -> by (unfold mine at 1; cbn; lia). done.
Qed.

Lemma pop_inv s s' off : inv c s -> act cfg (Pop off) s = Some s' -> inv c s'.
Proof using.
  clear Hc. intros [H1 H2 H3 H4 H5 H6 H7]. cbn [act]. unfold shares in H7. destruct (owner s) eqn:Eo; try done.
  pose proof (pop_total (queue s) off) as Hp. destruct (Queue.pop (queue s) off) as [q r]. destruct Hp as [Hp Hcn].
  destruct H7 as (A1 & A2 & A3). intros E. simplify_eq.
  destruct r as [p|]; split; cbn; try done; rewrite ?Eo; try done.
  - constructor; [cbn; apply lenZ_nonneg|done].
  - unfold shares, mine in *. cbn. rewrite Eo. split_and!; [done|lia|]. rewrite A3. f_equal; lia.
  - unfold shares, mine in *. cbn. rewrite Eo. split_and!; [done|lia|done].
Qed.

Lemma owner_after_pop s i p : inv c s -> pops s !! i = Some p -> owner s = Alive.
Proof using.
  clear Hc. intros [_ _ _ _ _ _ H7] Hi. unfold shares in H7. destruct (owner s); [done|..];
    exfalso; destruct H7 as [A _]; [specialize (A eq_refl)|..]; by rewrite A in Hi.
Qed.

Lemma pop_releases_inv s s' i : inv c s -> act cfg (PopReleases i) s = Some s' -> inv c s'.
Proof using.
  clear Hc. intros Hi. cbn [act]. destruct (pops s !! i) as [[n|n]|] eqn:Ei; [|done|done].
  pose proof (owner_after_pop s i _ Hi Ei) as Eo. destruct Hi as [H1 H2 H3 H4 H5 H6 H7]. unfold shares in H7. rewrite Eo in H7.
  destruct H7 as (A1 & A2 & A3). intros E. simplify_eq. destruct (release_spec (lim s) PREFETCH n) as [R1 R2].
  pose proof (sumZ_fmap_insert unreleased (pops s) i (PopRelease n) (PopSub n) Ei) as S1.
  pose proof (sumZ_fmap_insert unsubbed (pops s) i (PopRelease n) (PopSub n) Ei) as S2. cbn in S1, S2.
  pose proof (Forall_lookup_1 _ _ _ _ H5 Ei) as Hn. cbn in Hn.
  assert (Forall (fun p => 0 <= unreleased p) (<[i := PopSub n]> (pops s))) as H5' by (by apply Forall_insert).
  pose proof (sumZ_fmap_nonneg unreleased _ H5'). pose proof (Queue.parts_total_nonneg (parts (queue s))).
  pose proof (sane_owes _ H4). unfold mine in *.
  split; cbn [lim set_lim set_pops others thread pops owner queue]; rewrite ?R1, ?R2; try done; try lia.
  unfold shares, mine. cbn [lim set_lim set_pops others thread pops owner queue in_flight_reserved]. rewrite Eo, R1, S2.
  split_and!; [done|lia|]. rewrite A3. f_equal. lia.
Qed.

Lemma pop_subs_inv s s' i : inv c s -> act cfg (PopSubs i) s = Some s' -> inv c s'.
Proof using.
  clear Hc. intros Hi. cbn [act]. destruct (pops s !! i) as [[n|n]|] eqn:Ei; [done| |done].
  pose proof (owner_after_pop s i _ Hi Ei) as Eo. destruct Hi as [H1 H2 H3 H4 H5 H6 H7]. unfold shares in H7. rewrite Eo in H7.
  destruct H7 as (A1 & A2 & A3). intros E. simplify_eq. pose proof (delete_Permutation _ _ _ Ei) as Hd.
  assert (forall f : ppc -> Z, sumZ (f <$> pops s) = f (PopSub n) + sumZ (f <$> delete i (pops s))) as Hsum.
  { intros f. by rewrite Hd at 1. }
  split; cbn [lim set_inflight set_pops others thread pops owner queue]; try done.
  - by apply Forall_delete.
  - unfold shares, mine in *. cbn [lim set_inflight set_pops others thread pops owner queue in_flight_reserved]. rewrite Eo.
    pose proof (Hsum unreleased) as S1. pose proof (Hsum unsubbed) as S2. cbn in S1, S2.
    split_and!; [done|lia|]. rewrite A3, wrap64_sub_l. f_equal. lia.
Qed.

Lemma load_inv s s' : inv c s -> act cfg Load s = Some s' -> overdue s' = false -> inv c s'.
Proof using Hc.
  intros [H1 H2 H3 H4 H5 H6 H7]. cbn [act]. unfold shares in H7. destruct (owner s) eqn:Eo; try done.
  destruct H7 as (A1 & A2 & A3). intros E. simplify_eq. cbn [overdue]. intros Hn. specialize (A1 eq_refl).
  split; cbn; try done; [intros _; apply H6; congruence|].
  unfold uncounted in A3. rewrite Hn, A1 in A3. rewrite A1 in A2. cbn [fmap list_fmap sumZ] in A2, A3.
  pose proof (Queue.parts_total_nonneg (parts (queue s))). pose proof (sane_owes _ H4). unfold shares, mine in *.
  cbn [owner lim others thread pops].
  rewrite wrap64_small in A3 by (unfold is_u64, U64_MAX, I64_MAX in *; lia). split_and!; [done|lia|lia].
Qed.

Lemma residual_inv s s' : inv c s -> act cfg ReleaseResidual s = Some s' -> inv c s'.
Proof using.
  clear Hc. intros [H1 H2 H3 H4 H5 H6 H7]. cbn [act]. unfold shares in H7. destruct (owner s) as [| |r| |] eqn:Eo; try done.
  destruct H7 as (A1 & A2 & A3). intros E. simplify_eq. pose proof (sane_owes _ H4). unfold mine in A3.
  assert (cancelled (queue s) = true) as Hcn by (apply H6; congruence).
  destruct (release_spec (lim s) PREFETCH r) as [R1 R2]. destruct (Z.ltb_spec 0 r).
  - split; cbn [lim set_lim set_owner others thread pops owner queue]; rewrite ?R1, ?R2; try done; try lia.
    unfold shares, mine. cbn [lim set_lim set_owner others thread pops owner queue]. rewrite R1. split; [done|lia].
  - split; cbn [lim set_owner others thread pops owner queue]; try done.
    unfold shares, mine. cbn [lim set_owner others thread pops owner queue]. split; [done|lia].
Qed.

Lemma owner_inv s s' a : a = Cancel \/ a = Drop \/ a = StoreZero -> inv c s -> act cfg a s = Some s' -> inv c s'.
Proof using.
  clear Hc. intros Ha [H1 H2 H3 H4 H5 H6 H7]. unfold shares in H7.
  destruct Ha as [->|[->| ->]]; cbn [act]; destruct (owner s) eqn:Eo; try done.
  - intros E. simplify_eq. split; cbn; rewrite ?Eo; try done. unfold shares, mine in *. cbn. by rewrite Eo.
  - destruct (pops s) as [|? ?] eqn:Ep; [|done]. intros E. simplify_eq.
    split; cbn; rewrite ?Ep; try done. unfold shares, mine in *. cbn. rewrite ?Ep. by destruct H7 as (_ & A2 & A3).
  - intros E. simplify_eq. split; cbn; try done. intros _. apply H6. congruence.
Qed.

Lemma other_reserve_inv s s' l n : inv c s -> act cfg (OtherReserve l n) s = Some s' -> inv c s'.
Proof using Hc.
  intros Hi. cbn [act]. case_test; [|done]. bool_props. destruct (try_reserve _ _ _) as [m|] eqn:Er; [|done].
  intros E. simplify_eq. pose proof Hi as [H1 H2 H3 _ _ _ _]. apply reserve_used in Er as (E1 & E2 & E3); [|lia..].
  apply others_inv; unfold mine; try done; lia.
Qed.

Lemma other_release_inv s s' l n : inv c s -> act cfg (OtherRelease l n) s = Some s' -> inv c s'.
Proof using.
  clear Hc. intros Hi. cbn [act]. case_test; [|done]. bool_props. intros E. simplify_eq.
  destruct (inv_base s Hi) as (H1 & H2 & H3 & H4 & H5). pose proof (sane_owes _ H4). unfold mine in H5.
  destruct (release_spec (lim s) l n) as [R1 R2]. apply others_inv; unfold mine; rewrite ?R1; try done; lia.
Qed.

Lemma act_inv s s' a : inv c s -> fits (thread s) -> act cfg a s = Some s' -> overdue s' = false -> inv c s'.
Proof using Hc.
  intros Hi Hf Ha Hov. destruct a.
  - by eapply thread_inv.
  - by eapply pop_inv.
  - by eapply pop_releases_inv.
  - by eapply pop_subs_inv.
  - eapply (owner_inv s s' Cancel); auto.
  - eapply (owner_inv s s' Drop); auto.
  - by eapply load_inv.
  - by eapply residual_inv.
  - eapply (owner_inv s s' StoreZero); auto.
  - by eapply other_reserve_inv.
  - by eapply other_release_inv.
Qed.

(** The ghost is set by [Load] alone, and the thread only by the thread. *)
Definition before_load (o : opc) : Prop := match o with Alive | Waiting => True | _ => False end.
Lemma goto_ghost d len end_ o s : overdue (goto cfg d len end_ o s) = overdue s /\ owner (goto cfg d len end_ o s) = owner s.
Proof using. destruct (goto_same d len end_ o s) as (_ & _ & (_ & H1 & _ & H2) & _). by split. Qed.
Lemma thread_ghost s s' w r : thread_act cfg w r s = Some s' -> overdue s' = overdue s /\ owner s' = owner s.
Proof using.
  clear Hc. unfold thread_act, at_top, at_retry, at_read, at_push.
  destruct (thread s) as [d|d n|d len e|d len e|d len e b|d len e o|d len e o| | | |]; intros E; simplify_eq; try done.
  - by repeat case_match.
  - by case_match.
  - destruct r; [case_if E as Hb; [|done]| |]; by simplify_eq.
  - destruct (Queue.read_and_push _ _ _ _) as [q [| |b'| |]]; simplify_eq; done.
  - apply (goto_ghost d len e o (set_lim (release (lim s) PREFETCH len) s)).
Qed.

Definition good (s : state) : Prop :=
  fits (thread s) /\ (before_load (owner s) -> overdue s = false) /\ (overdue s = false -> inv c s).

Lemma act_ghost s s' a : act cfg a s = Some s' -> fits (thread s) ->
  fits (thread s') /\
  (a = Load /\ owner s = Waiting /\ ~ before_load (owner s') \/
   overdue s' = overdue s /\ (before_load (owner s') -> before_load (owner s))).
Proof using.
  clear Hc. destruct a; cbn [act].
  1: intros E _; split; [by eapply thread_fits|]; right; apply thread_ghost in E as [-> ->]; done.
  all: intros E Hf; repeat (case_match; try done); simplify_eq; (split; [done|]); cbn in *; by auto.
Qed.

Lemma step_good s s' : good s -> step cfg s s' -> good s'.
Proof using Hc.
  intros (Hf & Hb & Hi) [a Ha]. destruct (act_ghost s s' a Ha Hf) as [Hf' H]. split; [done|].
  destruct H as [(-> & Ho & Hn)|[Eo Hbl]].
  - split; [done|]. intros Hov. eapply (act_inv s); [|done|exact Ha|done]. apply Hi, Hb. by rewrite Ho.
  - split; [intros B; rewrite Eo; auto|]. intros Hov. eapply (act_inv s); [|done|exact Ha|done]. apply Hi. congruence.
Qed.

Lemma new_good m q o : cap m = c -> 0 <= used m <= c -> used m = o -> good (new m q o).
Proof using.
  clear Hc. intros E1 E2 <-. split; [done|]. split; [done|]. intros _. split; cbn; try done; try lia.
  unfold shares, mine. cbn. split_and!; [done|lia|]. by rewrite Z.sub_diag.
Qed.
End Thread.

(** C22: the memory of a prefetcher is accounted for and given back.  However the
    download thread, the readers, the owner and the other users of the limiter
    interleave: while the prefetcher is open every queued byte and every byte in
    the thread's hands is reserved, on top of what the others reserved, and the
    cap holds; and once it is dropped and its thread has ended, what is left is
    what the others reserved, provided the wait of [Drop] did not run out while
    the thread was between counting and uncounting a reservation. *)
Theorem budget_returned cfg c m max_queue s :
  0 < c <= I64_MAX -> cap m = c -> 0 <= used m <= c ->
  rtc (step cfg) (new m max_queue (used m)) s -> overdue s = false ->
  used (lim s) <= c /\
  (before_load (owner s) -> others s + total (parts (queue s)) + owes (thread s) <= used (lim s)) /\
  (owner s = Gone -> thread s = Done \/ thread s = Dead -> used (lim s) = others s).
Proof.
  intros Hc E1 E2 Hr Hov.
  assert (good c s) as (_ & _ & Hi).
  { eapply rtc_invariant; [|intros; by eapply step_good|exact Hr]. by apply new_good. }
  destruct (Hi Hov) as [_ Hu _ _ Hp _ Hs]. pose proof (sumZ_fmap_nonneg unreleased _ Hp).
  unfold shares, mine in Hs. split_and!; [lia|..].
  - destruct (owner s); cbn; try done; intros _; lia.
  - intros Eo Ht. rewrite Eo in Hs. destruct Hs as [_ Hs]. destruct Ht as [Ht|Ht]; rewrite Ht in Hs; cbn in Hs; lia.
Qed.

(** ** The thread runs the download loop *)

(** The states at the head of the loop that iterations of [Download] lead to. *)
Inductive passes (cfg : config) : Download.state -> Prop :=
| passes_init : passes cfg Download.init
| passes_next d e d' : passes cfg d -> Download.offset d < file_size cfg ->
    Download.iteration cfg d e = Some (Continue d') -> passes cfg d'.

(** In the middle of an iteration from [d0]: whatever the outcome of the read,
    what follows it is what the iteration does. *)
Definition amid (cfg : config) (d : Download.state) (len end_ : Z) : Prop :=
  exists d0, passes cfg d0 /\ Download.offset d0 < file_size cfg /\
    forall o, exists e, Download.iteration cfg d0 e = Download.after_read cfg d len end_ o.
Definition on_track (cfg : config) (t : tpc) : Prop :=
  match t with
  | Top d => passes cfg d
  | Retry d n => exists d0, passes cfg d0 /\ Download.offset d0 < file_size cfg /\
      forall ok o, exists e, Download.iteration cfg d0 e =
        if ok : bool then Download.after_read cfg (taken_shrunk d n) n (Z.min (wrap64 (Download.offset d + n)) (file_size cfg)) o
        else Some (Continue (Download.mk_state (wrap64 (Download.offset d + n)) 0 (Download.consecutive_transient d) None
               (Download.sticky_max_window d) (Download.inflight d) (Some true)))
  | Reserved d len end_ | Reading d len end_ | Pushing d len end_ _
  | Unreserve d len end_ _ | Releasing d len end_ _ => amid cfg d len end_
  | _ => True
  end.

Lemma goto_on_track cfg d len end_ o s : amid cfg d len end_ -> on_track cfg (thread (goto cfg d len end_ o s)).
Proof.
  intros (d0 & Hp & Ho & H). destruct (H o) as [e He]. unfold goto.
  destruct (Download.after_read cfg d len end_ o) as [[d'|d']|]; [|done|done]. by eapply passes_next.
Qed.

Lemma window_env cfg d w b1 b2 o :
  Download.window_of cfg d (Download.mk_env w b1 b2 o false) = Download.window_of cfg d (Download.mk_env w true true ROk false).
Proof. done. Qed.

Lemma top_on_track cfg d w s : passes cfg d -> on_track cfg (thread (at_top cfg d w s)).
Proof.
  intros Hp. unfold at_top. case_test; [done|]. bool_props.
  set (win := Download.window_of _ _ _). set (end_ := Z.min _ _). set (chunk := wrap64 _).
  destruct (try_reserve _ _ _).
  - exists d. split_and!; [done|lia|]. intros o. exists (Download.mk_env w true true o false). reflexivity.
  - destruct (clamp _ _ _) as [n|] eqn:Ec; [|done].
    exists d. split_and!; [done|lia|]. intros ok o. exists (Download.mk_env w false ok o false).
    unfold Download.iteration. cbn [Download.e_cancelled Download.e_reserve1 Download.e_reserve2 Download.e_outcome negb].
    rewrite window_env. fold win. fold end_. fold chunk.
    rewrite Ec. by destruct ok.
Qed.

Lemma retry_on_track cfg d n s : on_track cfg (Retry d n) -> on_track cfg (thread (at_retry cfg d n s)).
Proof.
  intros (d0 & Hp & Ho & H). unfold at_retry. destruct (try_reserve _ _ _).
  - exists d0. split_and!; [done|done|]. apply (H true).
  - destruct (H false ROk) as [e0 He]. by eapply passes_next.
Qed.

Lemma act_on_track cfg a s s' : on_track cfg (thread s) -> act cfg a s = Some s' -> on_track cfg (thread s').
Proof.
  intros Ht. destruct a; cbn [act]; [|intros E; repeat (case_match; try done); by simplify_eq..].
  unfold thread_act. destruct (thread s) as [d|d n|d len e|d len e|d len e b|d len e o|d len e o| | | |] eqn:Et;
    intros E; simplify_eq; try done.
  - by apply top_on_track.
  - by apply retry_on_track.
  - unfold at_read in E. destruct r; [case_if E as Hb; [|done]| |]; by simplify_eq.
  - unfold at_push in E. destruct (Queue.read_and_push _ _ _ _) as [q [| |b'| |]]; simplify_eq; try done.
    by apply (goto_on_track cfg d len e ROk).
  - by apply goto_on_track.
Qed.

(** The locals of the thread, each time it is at the head of its loop, are those
    of a run of [Download]. *)
Theorem thread_runs_download cfg m max_queue others s d :
  rtc (step cfg) (new m max_queue others) s -> thread s = Top d -> passes cfg d.
Proof.
  intros Hr Et. enough (on_track cfg (thread s)) as H by by rewrite Et in H.
  eapply (rtc_invariant (step cfg) (fun s => on_track cfg (thread s))); [| |exact Hr]; [constructor|].
  intros s1 s2 H1 [a Ha]. by eapply act_on_track.
Qed.

(** ** A cancelled thread ends *)

Definition rank (t : tpc) : nat :=
  match t with
  | Done | Dead => 0
  | Stored => 1
  | Finishing => 2
  | Top _ => 3
  | Releasing _ _ _ _ => 4
  | Unreserve _ _ _ _ => 5
  | Pushing _ _ _ _ => 6
  | Reading _ _ _ => 7
  | Reserved _ _ _ => 8
  | Retry _ _ => 9
  end.
Definition is_thread (a : action) : nat := match a with Thread _ _ => 1 | _ => 0 end.
Definition thread_actions (actions : list action) : nat := foldr (fun a n => is_thread a + n)%nat 0%nat actions.

Lemma goto_rank cfg d len end_ o s : (rank (thread (goto cfg d len end_ o s)) <= 3)%nat.
Proof. unfold goto. destruct (Download.after_read _ _ _ _ _) as [[]|]; cbn; lia. Qed.

Lemma push_cancelled q off len buf : cancelled q = true -> Queue.read_and_push q off len (ReadOk buf) = (q, RpCancelled).
Proof. intros Hcn. cbn. unfold Queue.is_terminal. by rewrite Hcn, orb_true_r. Qed.

Lemma thread_rank cfg w r s s' : cancelled (queue s) = true -> thread_act cfg w r s = Some s' ->
  (rank (thread s') < rank (thread s))%nat /\ cancelled (queue s') = true.
Proof.
  intros Hcn. unfold thread_act. destruct (thread s) as [d|d n|d len e|d len e|d len e b|d len e o|d len e o| | | |] eqn:Et;
    intros E; simplify_eq.
  - unfold at_top. rewrite Hcn, orb_true_r. cbn. split; [lia|done].
  - unfold at_retry. destruct (try_reserve _ _ _); cbn; split; [lia|done|lia|done].
  - cbn. split; [lia|done].
  - unfold at_read in E. destruct r; [case_if E as Hb; [|done]| |]; simplify_eq; cbn; split; (lia || done).
  - unfold at_push in E. rewrite push_cancelled in E by done. simplify_eq. cbn. split; [lia|done].
  - cbn. split; [lia|done].
  - set (s0 := set_lim _ s). pose proof (goto_rank cfg d len e o s0).
    destruct (goto_same cfg d len e o s0) as (_ & _ & _ & _ & _ & ->). cbn [rank]. split; [lia|done].
  - cbn. split; [lia|done].
  - cbn. split; [lia|done].
Qed.

Lemma other_rank cfg a s s' : is_thread a = 0%nat -> cancelled (queue s) = true -> act cfg a s = Some s' ->
  thread s' = thread s /\ cancelled (queue s') = true.
Proof.
  intros Hn Hcn. destruct a; cbn [act]; [done|..]; intros E; [|repeat (case_match; try done); by simplify_eq..].
  destruct (owner s); try done. pose proof (pop_total (queue s) off) as Hp. destruct (Queue.pop (queue s) off) as [q r].
  destruct Hp as [_ Hp]. simplify_eq. cbn. rewrite Hp. split; [by destruct r|done].
Qed.

(** C30: cancelling stops the download.  From the moment a prefetcher is
    cancelled, in whatever state its thread is and whatever else happens, the
    thread makes at most nine more accesses, and until it has ended it can always
    make the next one: it never waits for room in the queue again. *)
Theorem cancelled_thread_ends cfg s :
  cancelled (queue s) = true ->
  (forall actions s', run cfg actions s = Some s' -> (thread_actions actions <= 9)%nat) /\
  (thread s = Done \/ thread s = Dead \/ forall w, exists r s', thread_act cfg w r s = Some s').
Proof.
  intros Hcn. split.
  - intros actions s' Hr. enough (thread_actions actions <= rank (thread s))%nat as H.
    { etrans; [exact H|]. destruct (thread s); cbn; lia. }
    revert s Hcn Hr. induction actions as [|a rest IH]; intros s Hcn Hr; cbn in *; [lia|].
    destruct (act cfg a s) as [s1|] eqn:Ea; [|done]. destruct (is_thread a) eqn:Et; cbn.
    + destruct (other_rank cfg a s s1 Et Hcn Ea) as [<- Hc1]. by apply IH.
    + destruct a; try done. cbn in Et. simplify_eq. destruct (thread_rank cfg w r s s1 Hcn Ea) as [Hlt Hc1].
      specialize (IH s1 Hc1 Hr). unfold thread_actions in IH. lia.
  - unfold thread_act. destruct (thread s) as [d|d n|d len e|d len e|d len e b|d len e o|d len e o| | | |];
      [right; right; intros w; exists ReadTransient; eexists; try done..|by left|by right; left].
    unfold at_push. by rewrite push_cancelled.
Qed.
End Budget.

(** ** Runs *)
Module BudgetRuns.
Import MemLimiter.Limiter Budget Prefetcher.Queue(ReadOk, ReadTransient, parts, cancelled, total).

(** A file of eight bytes in two parts, on a limiter of which others have ten. *)
Definition cfg : Prefetcher.Download.config := Prefetcher.Download.mk_config 8 4 1.
Definition limiter : MemoryLimiter := mk_MemoryLimiter 100 10 ∅.
Definition start : state := new limiter 64 10.
Definition four : bytes := [x61; x62; x63; x64].
Definition go : action := Thread 4 (ReadOk four).
(** Reserve, count, read, push. *)
Definition fetch : list action := [go; go; go; go].

Definition whole : list action :=
  fetch ++ [Pop 0; PopReleases 0; PopSubs 0] ++ fetch ++ [Drop; go; go; go; Load; ReleaseResidual; StoreZero].
Definition at_end : state := default start (run cfg whole start).

(** The second part is still queued when the handle goes; its four bytes are
    the residual. *)
Lemma whole_reaches : run cfg whole start = Some at_end.
Proof. vm_compute. reflexivity. Qed.

Lemma budget_returned_witness : used (lim at_end) = 10 /\ others at_end = 10 /\ total (parts (queue at_end)) = 4.
Proof.
  split; [|vm_compute; done].
  apply (budget_returned cfg 100 limiter 64 at_end ltac:(done) ltac:(done) ltac:(done) (run_rtc _ _ _ _ whole_reaches));
    [vm_compute; reflexivity|vm_compute; reflexivity|left; vm_compute; reflexivity].
Defined.

Definition cancelled_early : state := default start (run cfg [go; go; Cancel] start).
Lemma cancelled_thread_ends_witness : (thread_actions [go; go; go; go; go; go] <= 9)%nat.
Proof.
  apply (proj1 (cancelled_thread_ends cfg cancelled_early ltac:(vm_compute; reflexivity)) _
    (default start (run cfg [go; go; go; go; go; go] cancelled_early))).
  vm_compute. reflexivity.
Defined.

(** The handle is dropped during a range read that takes longer than the wait of
    [Drop]: the reservation of the thread is in the residual, and is released a
    second time by the thread.  Bytes of other users are then uncounted, and the
    limiter lets them pass its cap. *)
Theorem slow_read_released_twice :
  exists s s', rtc (step cfg) start s /\ owner s = Gone /\ thread s = Done /\
    used (lim s) = 6 /\ others s = 10 /\
    step cfg s s' /\ others s' = 104 /\ used (lim s') <= 100 /\ cap (lim s') = 100.
Proof.
  eexists _, _. split.
  { apply (run_rtc cfg ([go; go; Drop; Load; ReleaseResidual; StoreZero] ++ [go; go; go; go; go; go])). vm_compute. reflexivity. }
  split; [done|]. split; [done|]. split; [done|]. split; [done|].
  split; [exists (OtherReserve "mem_cache"%string 94); vm_compute; reflexivity|]. vm_compute. done.
Qed.

(** A reader that skips a part: [pop] drops it from the queue and nobody
    releases its four bytes before the handle goes. *)
Theorem skipped_part_stays_reserved :
  exists s, rtc (step cfg) start s /\ owner s = Alive /\ thread s = Done /\ pops s = [] /\
    parts (queue s) = [] /\ others s = 10 /\ used (lim s) = 14.
Proof.
  eexists. split.
  { apply (run_rtc cfg (fetch ++ fetch ++ [go; go; go; Pop 4; PopReleases 0; PopSubs 0])). vm_compute. reflexivity. }
  split_and!; done.
Qed.
End BudgetRuns.
