(* ===== verification/FileOps.v ===== *)
(** * FileOps: the write path of src/src/lib.rs ([MntrsFs::write])

    What one FUSE write does to the local copy of a file: the gap fetched from
    the backend, the splice into the off-mode pending buffer, the write through
    the cache file's descriptor, the logical size kept in the inode table and
    the size kept in the cache index, and the delay chosen for its upload.

    The backend's range read is a parameter; a file's logical content is
    compared with [FileIO.pwrite]. *)

From Stdlib Require Import ZArith Lia Strings.Byte Strings.String Strings.Ascii.
From S2P Require Import Prelude Util BlockFormat DiskPool.

Module FileOps.
Import FileIO.

Inductive read_error := NotFound | ReadFailed.

Definition GAP_BACKFILL_MAX : Z := 64 * 1024 * 1024.

(** The backfill of [write]: [read_range] is [op.read_with(path).range(a..b)],
    [local_len] the length of the cache file or of the pending buffer.  [Err]
    is the early return that rejects the write. *)
Definition gap_data (read_range : Z -> Z -> result bytes read_error) (has_fd off_mode : bool)
    (local_len offset : Z) : result (option bytes) unit :=
  if 0 <? offset then
    if has_fd then
      if local_len <? offset then
        let gap := offset - local_len in
        if gap <=? GAP_BACKFILL_MAX then
          match read_range local_len offset with
          | Ok buf => Ok (Some buf)
          | Err _ => Err tt
          end
        else Ok None
      else Ok None
    else if off_mode then
      if local_len <? offset then
        let gap := offset - local_len in
        if gap <=? GAP_BACKFILL_MAX then
          match read_range local_len offset with
          | Ok buf => Ok (Some buf)
          | Err NotFound => Ok (Some [])
          | Err ReadFailed => Err tt
          end
        else Ok None
      else Ok None
    else Ok None
  else Ok None.

(** [Vec::resize(n, 0)] towards a longer vector. *)
Definition resize (n : Z) (v : bytes) : bytes := v ++ zeros (n - lenZ v).

(** The off-mode branch: [refetch] is what [fetch_backend_bytes] answers.  The
    subtraction [_offset - gap_start] wraps. *)
Definition off_mode_splice (known_size : Z) (refetch gap : option bytes) (offset : Z)
    (data v : bytes) : bytes :=
  let end_ := offset + lenZ data in
  let v :=
    if (lenZ v =? 0) && ((0 <? known_size) || (0 <? offset)) then
      match refetch with
      | Some body => if known_size <=? lenZ body then body else v
      | None => v
      end
    else v in
  let v :=
    if lenZ v <? end_ then
      let v :=
        match gap with
        | Some g => v ++ takeZ (Z.min (lenZ g) (wrap64 (offset - lenZ v))) g
        | None => v
        end in
      if lenZ v <? end_ then resize end_ v else v
    else v in
  takeZ offset v ++ data ++ dropZ end_ v.

(** The descriptor branch: [Err] and the file left behind when the backfill or
    the final write fails; the result of [set_len] is ignored. *)
Definition disk_fd_write (gap_fault : bool) (set_len_ok : bool) (write_fault : option Z)
    (gap : option bytes) (offset : Z) (data buf : bytes) : bytes * result unit unit :=
  let actual_len := lenZ buf in
  let backfill :=
    match gap with
    | Some g => if actual_len <? offset then Some g else None
    | None => None
    end in
  match backfill with
  | Some g =>
      if gap_fault then (set_len actual_len buf, Err tt)
      else
        let buf := pwrite actual_len g buf in
        let end_ := offset + lenZ data in
        let buf := if set_len_ok then set_len end_ buf else buf in
        match write_fault with
        | Some n => (pwrite offset (takeZ n data) buf, Err tt)
        | None => (pwrite offset data buf, Ok tt)
        end
  | None =>
      let end_ := offset + lenZ data in
      let buf := if set_len_ok then set_len end_ buf else buf in
      match write_fault with
      | Some n => (pwrite offset (takeZ n data) buf, Err tt)
      | None => (pwrite offset data buf, Ok tt)
      end
  end.

(** The inode's logical size and the index entry after a write ([Some] of the
    old value, [None] when there was no entry). *)
Definition write_inode_size (old : option Z) (offset len : Z) : Z :=
  let end_ := offset + len in
  match old with
  | Some size => if size <? end_ then end_ else size
  | None => end_
  end.
Definition write_index_entry (now : Z) (old : option (Z * Z)) (offset len : Z) : Z * Z :=
  let new_end := offset + len in
  match old with
  | Some (size, atime) => (Z.max size new_end, atime)
  | None => (new_end, now)
  end.

(** [per_task_writeback_delay]; times are in nanoseconds. *)
Definition per_task_writeback_delay (threshold write_back_delay write_wait now : Z)
    (inode_size : option Z) (last_write_at : option Z) : Z :=
  if threshold =? 0 then write_back_delay
  else if default false (option_map (fun size => size <? threshold) inode_size) then 0
  else
    let last_write_at := default now last_write_at in
    let elapsed := saturating_sub now last_write_at in
    let wait := saturating_sub write_wait elapsed in
    Z.min wait write_back_delay.

(** ** Specifications *)

(** The backend answers a range read with the part of the object in range. *)
Definition range_of (body : bytes) (read_range : Z -> Z -> result bytes read_error) : Prop :=
  forall a b, 0 <= a -> a < b -> read_range a b = Ok (takeZ (b - a) (dropZ a body)).

(** The content a write at [offset] applies to: the local copy, completed by
    the backend's bytes up to the offset. *)
Definition completed (body : bytes) (offset : Z) (local : bytes) : bytes :=
  if lenZ local <? offset then local ++ takeZ (offset - lenZ local) (dropZ (lenZ local) body)
  else local.

Lemma lenZ_completed body offset v : lenZ v <= lenZ (completed body offset v).
Proof.
  unfold completed. case_test; bool_props; [|lia]. rewrite lenZ_app.
  pose proof (lenZ_nonneg (takeZ (offset - lenZ v) (dropZ (lenZ v) body))). lia.
Qed.

Lemma lenZ_completed_le body offset v : lenZ (completed body offset v) <= Z.max (lenZ v) offset.
Proof.
  unfold completed. case_test; bool_props; [|lia]. rewrite lenZ_app, lenZ_takeZ by lia. lia.
Qed.

(** Zeros that a write overwrites or that precede it change nothing. *)
Lemma pwrite_zeros off d v k : 0 <= off -> lenZ v + k <= off + lenZ d ->
  pwrite off d (v ++ zeros k) = pwrite off d v.
Proof.
  intros Ho Hk. pose proof (lenZ_nonneg d). pose proof (lenZ_nonneg v). apply byte_at_ext.
  - rewrite !lenZ_pwrite, lenZ_app, lenZ_zeros by done. lia.
  - intros i Hi. rewrite !byte_at_pwrite by lia. case_test; [done|].
    rewrite byte_at_app, byte_at_zeros by lia. case_test; bool_props; [done|].
    symmetry. apply byte_at_end. lia.
Qed.

Lemma pwrite_inside off d v : 0 <= off <= lenZ v ->
  pwrite off d v = takeZ off v ++ d ++ dropZ (off + lenZ d) v.
Proof.
  intros Ho. unfold pwrite. rewrite Z.max_r by lia. do 2 f_equal.
  unfold set_len. rewrite Z.sub_diag. unfold zeros. cbn [Z.to_nat replicate].
  rewrite app_nil_r. unfold takeZ, lenZ. by rewrite Nat2Z.id, firstn_all.
Qed.

(** The tail of the off-mode branch: resize when needed, then copy. *)
Lemma resize_copy offset data v : 0 <= offset ->
  let end_ := offset + lenZ data in
  let v' := if lenZ v <? end_ then resize end_ v else v in
  takeZ offset v' ++ data ++ dropZ end_ v' = pwrite offset data v.
Proof.
  intros Ho end_ v'. pose proof (lenZ_nonneg data). pose proof (lenZ_nonneg v).
  assert (Hl : lenZ v' = Z.max (lenZ v) end_).
  { unfold v', resize. case_test; bool_props; [rewrite lenZ_app, lenZ_zeros|]; lia. }
  assert (pwrite offset data v' = pwrite offset data v) as <-.
  { unfold v', resize. case_test; bool_props; [|done]. apply pwrite_zeros; lia. }
  symmetry. apply pwrite_inside. lia.
Qed.

(** The gap that [gap_data] fetches completes the local copy. *)
Lemma gap_data_completed body read_range has_fd local_len offset gap :
  range_of body read_range -> 0 <= local_len ->
  offset - local_len <= GAP_BACKFILL_MAX ->
  gap_data read_range has_fd (negb has_fd) local_len offset = Ok gap ->
  gap = if local_len <? offset then Some (takeZ (offset - local_len) (dropZ local_len body)) else None.
Proof.
  intros Hr Hl Hg. unfold gap_data. destruct (Z.ltb_spec 0 offset).
  - destruct (Z.ltb_spec local_len offset).
    + rewrite (proj2 (Z.leb_le _ _) Hg).
      destruct has_fd; cbn [negb]; rewrite Hr by done; by intros [= <-].
    + by destruct has_fd; cbn [negb]; intros [= <-].
  - intros [= <-]. case_test; bool_props; [lia|done].
Qed.

(** The buffer is used as it stands: it has bytes, or the fetch gave nothing. *)
Definition not_reseeded (refetch : option bytes) (v : bytes) : Prop := v <> [] \/ refetch = None.

Lemma no_reseed known_size refetch offset v : not_reseeded refetch v ->
  (if (lenZ v =? 0) && ((0 <? known_size) || (0 <? offset)) then
     match refetch with
     | Some body => if known_size <=? lenZ body then body else v
     | None => v
     end
   else v) = v.
Proof.
  intros [Hv| ->]; [|by case_test].
  destruct (Z.eqb_spec (lenZ v) 0) as [E|]; [|done].
  exfalso. apply Hv, nil_length_inv. unfold lenZ in E. lia.
Qed.

(** Without the re-seed, the splice is a [pwrite] on the completed buffer. *)
Lemma splice_spec body known_size refetch gap offset data v :
  0 <= offset -> is_u64 offset -> not_reseeded refetch v ->
  gap = (if lenZ v <? offset then Some (takeZ (offset - lenZ v) (dropZ (lenZ v) body)) else None) ->
  off_mode_splice known_size refetch gap offset data v =
    pwrite offset data (completed body offset v).
Proof.
  intros Ho Hu Hn ->. pose proof (lenZ_nonneg v). pose proof (lenZ_nonneg data).
  unfold off_mode_splice. rewrite no_reseed by done. unfold completed.
  destruct (Z.ltb_spec (lenZ v) offset).
  - rewrite (proj2 (Z.ltb_lt (lenZ v) _)) by lia.
    rewrite (wrap64_small (offset - lenZ v)) by (unfold is_u64 in *; lia).
    set (g := takeZ (offset - lenZ v) _).
    assert (Hg : lenZ g <= offset - lenZ v) by (unfold g; rewrite lenZ_takeZ; lia).
    rewrite Z.min_l by lia.
    replace (takeZ (lenZ g) g) with g
      by (unfold takeZ, lenZ; by rewrite Nat2Z.id, firstn_all).
    by apply resize_copy.
  - assert (E : (if lenZ v <? offset + lenZ data then
        if lenZ v <? offset + lenZ data then resize (offset + lenZ data) v else v else v)
      = if lenZ v <? offset + lenZ data then resize (offset + lenZ data) v else v)
      by (by repeat case_test).
    rewrite E. by apply resize_copy.
Qed.

(** An off-mode write that fetches its gap and does not re-seed turns the
    pending buffer into exactly what POSIX [pwrite] makes of it: bytes between
    the end of the buffer and the offset come from the backend object as far
    as that goes, the rest of the hole is zero, and bytes after the write
    survive. *)
Theorem off_mode_write_spec body read_range known_size refetch gap offset data v :
  range_of body read_range -> is_u64 offset -> not_reseeded refetch v ->
  offset - lenZ v <= GAP_BACKFILL_MAX ->
  gap_data read_range false true (lenZ v) offset = Ok gap ->
  off_mode_splice known_size refetch gap offset data v =
    pwrite offset data (completed body offset v).
Proof.
  intros Hr Hu Hn Hg Hgap. apply splice_spec; [apply Hu|done|done|].
  eapply (gap_data_completed body read_range false); [done|apply lenZ_nonneg|done|done].
Qed.

Definition object_range (body : bytes) (a b : Z) : result bytes read_error :=
  Ok (takeZ (b - a) (dropZ a body)).
Lemma object_range_ok body : range_of body (object_range body).
Proof. by intros a b _ _. Qed.

Lemma off_mode_write_spec_witness :
  off_mode_splice 8 None (Some (as_bytes "cd")) 4 (as_bytes "X") (as_bytes "ab") = as_bytes "abcdX"
  /\ pwrite 4 (as_bytes "X") (completed (as_bytes "abcdefgh") 4 (as_bytes "ab")) = as_bytes "abcdX".
Proof.
  rewrite (off_mode_write_spec (as_bytes "abcdefgh") (object_range (as_bytes "abcdefgh")) 8 None
    (Some (as_bytes "cd")) 4 (as_bytes "X") (as_bytes "ab"));
    [by vm_compute|apply object_range_ok|vm_compute; split; discriminate|by right|
     vm_compute; discriminate|reflexivity].
Defined.

(** When the buffer was empty because its seed failed and the re-fetch
    succeeds, a write past the end of the object appends the object's own
    prefix a second time: the gap was fetched for the empty buffer.  The first
    byte of the hole is the first byte of the object, where [pwrite] leaves a
    zero. *)
Theorem off_mode_reseed_duplicates body known_size data offset :
  known_size <= lenZ body -> 0 < lenZ body -> lenZ body < offset -> is_u64 offset ->
  0 <= known_size -> offset <= GAP_BACKFILL_MAX ->
  let gap := Some (takeZ offset body) in
  gap_data (object_range body) false true 0 offset = Ok gap /\
  byte_at (off_mode_splice known_size (Some body) gap offset data []) (lenZ body) = byte_at body 0 /\
  byte_at (pwrite offset data body) (lenZ body) = Byte.x00.
Proof.
  intros Hk Hb Ho Hu Hk0 Hg gap. pose proof (lenZ_nonneg data). split_and!.
  - unfold gap_data. rewrite (proj2 (Z.ltb_lt 0 offset)) by lia.
    rewrite Z.sub_0_r, (proj2 (Z.leb_le _ _) Hg). unfold object_range, gap.
    rewrite Z.sub_0_r. done.
  - unfold off_mode_splice, gap. rewrite (proj2 (Z.ltb_lt 0 offset)), orb_true_r by lia.
    change (lenZ (A := Byte.byte) [] =? 0) with true. cbn [andb].
    rewrite (proj2 (Z.leb_le known_size _)) by lia.
    rewrite (proj2 (Z.ltb_lt (lenZ body) _)) by lia.
    rewrite (wrap64_small (offset - lenZ body)) by (unfold is_u64 in *; lia).
    set (n := Z.min _ _). set (v := body ++ takeZ n (takeZ offset body)).
    assert (Hn : 0 < n) by (unfold n; rewrite lenZ_takeZ; lia).
    rewrite resize_copy, byte_at_pwrite by lia.
    rewrite (proj2 (Z.leb_gt offset _)) by lia. cbn [andb]. unfold v.
    rewrite byte_at_app, Z.ltb_irrefl, Z.sub_diag, !byte_at_takeZ by lia.
    rewrite (proj2 (Z.ltb_lt 0 n)), (proj2 (Z.ltb_lt 0 offset)) by lia. done.
  - rewrite byte_at_pwrite by lia. rewrite (proj2 (Z.leb_gt offset _)) by lia.
    cbn [andb]. apply byte_at_end. lia.
Qed.

Lemma off_mode_reseed_duplicates_witness :
  byte_at (off_mode_splice 2 (Some (as_bytes "ab")) (Some (takeZ 3 (as_bytes "ab"))) 3
    (as_bytes "X") []) 2 = Byte.x61.
Proof.
  destruct (off_mode_reseed_duplicates (as_bytes "ab") 2 (as_bytes "X") 3) as (_ & H & _);
    [vm_compute; first [discriminate|reflexivity|split; discriminate]..|exact H].
Defined.

(** The same fallback with a write inside the object that extends it: the
    subtraction wraps and the object grows by bytes nobody wrote. *)
Example off_mode_reseed_wraps :
  off_mode_splice 5 (Some (as_bytes "hello")) (Some (as_bytes "hel")) 3 (as_bytes "WXYZ") []
  = as_bytes "helWXYZl".
Proof. by vm_compute. Qed.

Lemma pwrite_cut offset data buf : 0 <= offset ->
  pwrite offset data (set_len (offset + lenZ data) buf)
  = takeZ (offset + lenZ data) (pwrite offset data buf).
Proof.
  intros Ho. pose proof (lenZ_nonneg data). pose proof (lenZ_nonneg buf). apply byte_at_ext.
  - rewrite lenZ_takeZ, !lenZ_pwrite, lenZ_set_len by lia. lia.
  - rewrite lenZ_pwrite, lenZ_set_len by lia. intros i Hi.
    rewrite byte_at_takeZ, !byte_at_pwrite, byte_at_set_len by lia.
    repeat case_test; bool_props; try done; lia.
Qed.

Lemma pwrite_append g buf : pwrite (lenZ buf) g buf = buf ++ g.
Proof.
  rewrite pwrite_inside by (pose proof (lenZ_nonneg buf); lia).
  unfold takeZ, dropZ, lenZ. rewrite Nat2Z.id, firstn_all, skipn_all2, app_nil_r by lia. done.
Qed.

(** A write through the cache file's descriptor leaves the file cut at the
    end of the write: it is [pwrite]'s result truncated to [offset + len].  It
    agrees with [pwrite] when the write reaches the end of the file, and
    otherwise the rest of the file is lost. *)
Theorem disk_fd_write_spec body read_range gap offset data buf :
  range_of body read_range -> 0 <= offset -> offset - lenZ buf <= GAP_BACKFILL_MAX ->
  gap_data read_range true false (lenZ buf) offset = Ok gap ->
  let end_ := offset + lenZ data in
  let expected := pwrite offset data (completed body offset buf) in
  let '(after, r) := disk_fd_write false true None gap offset data buf in
  r = Ok tt /\ after = takeZ end_ expected /\
  (lenZ buf <= end_ -> after = expected) /\
  (end_ < lenZ buf -> lenZ after = end_ /\ lenZ expected = lenZ buf).
Proof.
  intros Hr Ho Hg Hgap end_ expected. pose proof (lenZ_nonneg data). pose proof (lenZ_nonneg buf).
  assert (E : disk_fd_write false true None gap offset data buf = (takeZ end_ expected, Ok tt)).
  { apply (gap_data_completed body read_range true) in Hgap as ->; [|done..].
    unfold disk_fd_write, expected, completed, end_.
    destruct (Z.ltb_spec (lenZ buf) offset).
    - by rewrite pwrite_cut, pwrite_append.
    - by rewrite pwrite_cut. }
  rewrite E. pose proof (lenZ_completed body offset buf). pose proof (lenZ_completed_le body offset buf).
  assert (Hl : lenZ expected = Z.max (lenZ (completed body offset buf)) end_)
    by (unfold expected; by rewrite lenZ_pwrite).
  split_and!; [done|done| |].
  - intros Hle. unfold takeZ. apply take_ge. unfold lenZ in *. lia.
  - intros Hlt. rewrite lenZ_takeZ by lia. lia.
Qed.

Lemma disk_fd_write_spec_witness :
  disk_fd_write false true None None 2 (as_bytes "XY") (as_bytes "abcdefgh") = (as_bytes "abXY", Ok tt)
  /\ lenZ (pwrite 2 (as_bytes "XY") (as_bytes "abcdefgh")) = 8.
Proof.
  pose proof (disk_fd_write_spec (as_bytes "abcdefgh") (object_range (as_bytes "abcdefgh")) None 2
    (as_bytes "XY") (as_bytes "abcdefgh") (object_range_ok _)) as H.
  destruct H as (_ & _ & _ & H);
    [vm_compute; discriminate|vm_compute; discriminate|reflexivity|].
  split; [by vm_compute|]. apply H. by vm_compute.
Defined.

(** The delay never exceeds the batching delay, is zero for small files and is
    the batching delay when the threshold is off. *)
Lemma per_task_writeback_delay_spec threshold wbd wait now size last :
  0 <= wbd ->
  let d := per_task_writeback_delay threshold wbd wait now size last in
  0 <= d <= wbd /\ (threshold = 0 -> d = wbd) /\
  (forall s, threshold <> 0 -> size = Some s -> s < threshold -> d = 0).
Proof.
  intros Hw d. unfold d, per_task_writeback_delay, saturating_sub.
  destruct (Z.eqb_spec threshold 0) as [->|]; [split_and!; try lia; done|].
  split_and!; try lia.
  - case_test; lia.
  - case_test; lia.
  - intros s _ -> Hs. cbn. by rewrite (proj2 (Z.ltb_lt _ _) Hs).
Qed.

End FileOps.
