(* ===== verification/Writeback.v ===== *)
(** * Writeback: src/src/writeback.rs, and [flush]/[release]/[write] of lib.rs
    as far as they feed it

    The asynchronous upload of dirty files: the task, the delay queue, the
    five-attempt retry loop with its re-enqueue cycles, the completion with the
    off-mode pending buffer, the crash recovery over [.dirty] sidecars, and the
    FUSE handlers that enqueue.

    [Sidecar] models the recovery scan, [Worker] the worker's state and its
    operations, [OffMode] the interleaving of FUSE threads and worker as a
    labelled step relation. *)

From Stdlib Require Import ZArith Lia Strings.Byte Strings.String Strings.Ascii.
From S2P Require Import Prelude Util BlockFormat DiskPool FileOps.

(** ** Tasks *)
Record WritebackTask := mk_task {
  ino : Z;
  remote_path : string;
  task_buffer_path : string;
  in_memory_payload : option bytes;
  task_delete_cache : bool;
  retry_cycle : Z;
  per_task_delay : Z;
  buffer_size : Z
}.

Definition INO_RECOVERY_SENTINEL : Z := 0.
Definition MAX_REENQUEUE_CYCLES : Z := 10.
Definition NANOS : Z := 1000000000.
Definition REENQUEUE_COOLDOWN : Z := 60 * NANOS.
Definition DURATION_MAX : Z := U64_MAX * NANOS + 999999999.
Definition S3_MIN_MULTIPART_PART : Z := 5 * 1024 * 1024.
Definition multipart_chunk_size (buffer_size : Z) : Z :=
  if S3_MIN_MULTIPART_PART <=? buffer_size then buffer_size else S3_MIN_MULTIPART_PART.

Module Sidecar.

Definition DOT : ascii := "."%char.

(** [Path::extension] and [Path::with_extension] on a file name. *)
Definition extension (name : string) : option string :=
  match Str.rfind DOT name with
  | None | Some O => None
  | Some i => Some (String.substring (S i) (String.length name) name)
  end.
Definition file_stem (name : string) : string :=
  match Str.rfind DOT name with
  | None | Some O => name
  | Some i => Str.truncate i name
  end.
Definition with_extension (name ext : string) : string :=
  if String.eqb ext EmptyString then file_stem name else file_stem name +:+ String DOT ext.

(** [str::trim]: the code points of [White_Space], in UTF-8. *)
Definition white_space : list bytes :=
  map (fun z => to_le 1 z) [0x09; 0x0A; 0x0B; 0x0C; 0x0D; 0x20] ++
  [[Byte.xc2; Byte.x85]; [Byte.xc2; Byte.xa0]; [Byte.xe1; Byte.x9a; Byte.x80]] ++
  map (fun z => [Byte.xe2; Byte.x80; byte_of_Z z])
    [0x80; 0x81; 0x82; 0x83; 0x84; 0x85; 0x86; 0x87; 0x88; 0x89; 0x8A; 0xA8; 0xA9; 0xAF] ++
  [[Byte.xe2; Byte.x81; Byte.x9f]; [Byte.xe3; Byte.x80; Byte.x80]].
Fixpoint is_prefix (p l : bytes) : bool :=
  match p, l with
  | [], _ => true
  | a :: p', b :: l' => Byte.eqb a b && is_prefix p' l'
  | _, [] => false
  end.
Fixpoint trim_start (fuel : nat) (pats : list bytes) (l : bytes) : bytes :=
  match fuel with
  | O => l
  | S f =>
      match List.find (fun p => is_prefix p l) pats with
      | Some p => trim_start f pats (drop (length p) l)
      | None => l
      end
  end.
Definition trim (l : bytes) : bytes :=
  let l := trim_start (length l) white_space l in
  reverse (trim_start (length l) (map reverse white_space) (reverse l)).

Record RecoveryStats := mk_stats {
  recovered : Z;
  orphan_sidecars_removed : Z;
  send_failed : Z;
  no_sender : Z;
  read_failed : Z
}.
Definition stats_default : RecoveryStats := mk_stats 0 0 0 0 0.
Definition total (s : RecoveryStats) : Z :=
  recovered s + orphan_sidecars_removed s + send_failed s + no_sender s + read_failed s.
Definition stuck (s : RecoveryStats) : Z := send_failed s + no_sender s + read_failed s.

Record scan := mk_scan {
  s_fs : gmap string file;
  s_stats : RecoveryStats;
  s_sent : list WritebackTask
}.

(** [std::fs::read_to_string]. *)
Definition read_to_string (fs : gmap string file) (name : string) : option string :=
  match fs !! name with
  | Some f => if file_readable f then from_utf8 (file_data f) else None
  | None => None
  end.

Section Recovery.
(** [tx]: the sender, if any, and whether its [send] succeeds for a task. *)
Context (tx : option (WritebackTask -> bool)).
Context (delete_cache : bool) (write_back_delay bsize : Z).

Definition recovery_task (remote buffer : string) : WritebackTask :=
  mk_task INO_RECOVERY_SENTINEL remote buffer None delete_cache 0 write_back_delay bsize.

Definition is_sidecar (name : string) : bool :=
  bool_decide (extension name = Some "dirty"%string).

Definition recover_one (s : scan) (p : string) : scan :=
  let '(mk_stats r o sf ns rf) := s_stats s in
  if negb (is_sidecar p) then s
  else
    let buffer := with_extension p EmptyString in
    match s_fs s !! buffer with
    | None => mk_scan (remove_file p (s_fs s)) (mk_stats r (o + 1) sf ns rf) (s_sent s)
    | Some _ =>
        match read_to_string (s_fs s) p with
        | Some remote =>
            let remote := String.string_of_list_byte (trim (as_bytes remote)) in
            match tx with
            | None => mk_scan (s_fs s) (mk_stats r o sf (ns + 1) rf) (s_sent s)
            | Some send =>
                let t := recovery_task remote buffer in
                if send t then mk_scan (s_fs s) (mk_stats (r + 1) o sf ns rf) (s_sent s ++ [t])
                else mk_scan (s_fs s) (mk_stats r o (sf + 1) ns rf) (s_sent s)
            end
        | None => mk_scan (s_fs s) (mk_stats r o sf ns (rf + 1)) (s_sent s)
        end
    end.

(** [entries]: the names [read_dir] lists, [None] when it fails. *)
Definition recover_dirty_sidecars (entries : option (list string)) (fs : gmap string file) : scan :=
  match entries with
  | None => mk_scan fs stats_default []
  | Some names => foldl recover_one (mk_scan fs stats_default []) names
  end.

(** What one entry leads to, on the directory as it was found. *)
Definition sent_of (fs : gmap string file) (p : string) : option WritebackTask :=
  if is_sidecar p then
    match fs !! with_extension p EmptyString, read_to_string fs p, tx with
    | Some _, Some remote, Some send =>
        let t := recovery_task (String.string_of_list_byte (trim (as_bytes remote)))
                   (with_extension p EmptyString) in
        if send t then Some t else None
    | _, _, _ => None
    end
  else None.
Definition is_orphan (fs : gmap string file) (p : string) : bool :=
  is_sidecar p && bool_decide (fs !! with_extension p EmptyString = None).

(** The scan after a list of entries, from a directory that agrees with [fs]
    on everything but orphans already removed. *)
Definition agrees (fs : gmap string file) (removed : list string) (s : scan) : Prop :=
  forall q, s_fs s !! q = if bool_decide (q ∈ removed) && is_orphan fs q then None else fs !! q.

Lemma agrees_buffer fs removed s q : agrees fs removed s -> is_sidecar q = false ->
  s_fs s !! q = fs !! q.
Proof. intros Ha Hq. rewrite Ha. unfold is_orphan. by rewrite Hq, andb_false_r. Qed.

Lemma recover_one_spec fs removed s p :
  agrees fs removed s -> p ∉ removed ->
  (is_sidecar p = true -> is_sidecar (with_extension p EmptyString) = false) ->
  let s' := recover_one s p in
  agrees fs (p :: removed) s' /\
  s_sent s' = s_sent s ++ option_list (sent_of fs p) /\
  total (s_stats s') = total (s_stats s) + (if is_sidecar p then 1 else 0) /\
  recovered (s_stats s') = recovered (s_stats s) + lenZ (option_list (sent_of fs p)) /\
  stuck (s_stats s') + (if is_sidecar p then (if is_orphan fs p then 1 else 0) else 0)
    + lenZ (option_list (sent_of fs p)) = stuck (s_stats s) + (if is_sidecar p then 1 else 0).
Proof.
  intros Ha Hp Hb s'. unfold s', recover_one, sent_of, lenZ.
  assert (Hkeep : is_orphan fs p = false -> agrees fs (p :: removed) s).
  { intros Ho q. rewrite Ha. destruct (decide (q = p)) as [->|Hne].
    - rewrite Ho, !andb_false_r. done.
    - by rewrite (bool_decide_ext (q ∈ removed) (q ∈ p :: removed)) by set_solver. }
  destruct (s_stats s) as [r o sf ns rf] eqn:Es. unfold total, stuck; cbn [recovered
    orphan_sidecars_removed send_failed no_sender read_failed].
  destruct (is_sidecar p) eqn:Ep; cbn [negb].
  2:{ cbn. rewrite app_nil_r, Es. cbn. split_and!; try lia; try done.
      apply Hkeep. unfold is_orphan. by rewrite Ep. }
  rewrite (agrees_buffer fs removed s (with_extension p EmptyString)) by auto.
  assert (Hread : read_to_string (s_fs s) p = read_to_string fs p).
  { unfold read_to_string. rewrite Ha. by rewrite bool_decide_eq_false_2. }
  destruct (fs !! with_extension p EmptyString) as [f|] eqn:Ef.
  - assert (Ho : is_orphan fs p = false)
      by (unfold is_orphan; rewrite Ef; by rewrite andb_false_r).
    rewrite Ho, Hread. specialize (Hkeep Ho).
    destruct (read_to_string fs p) as [remote|]; [destruct tx as [send|]; [case_test|]|];
      cbn; rewrite ?app_nil_r; split_and!; try done; lia.
  - assert (Ho : is_orphan fs p = true) by (unfold is_orphan; by rewrite Ef, Ep).
    rewrite Ho. cbn. rewrite ?app_nil_r. split_and!; try done; try lia.
    intros q. unfold remove_file. cbn. destruct (decide (q = p)) as [->|Hne].
    + rewrite lookup_delete_eq, Ho, bool_decide_eq_true_2; [done|by left].
    + rewrite lookup_delete_ne by done. rewrite Ha.
      by rewrite (bool_decide_ext (q ∈ removed) (q ∈ p :: removed)) by set_solver.
Qed.

Lemma foldl_recover fs names : forall removed s,
  agrees fs removed s -> NoDup names -> (forall p, p ∈ names -> p ∉ removed) ->
  (forall p, p ∈ names -> is_sidecar p = true -> is_sidecar (with_extension p EmptyString) = false) ->
  let s' := foldl recover_one s names in
  agrees fs (reverse names ++ removed) s' /\
  s_sent s' = s_sent s ++ omap (sent_of fs) names /\
  total (s_stats s') = total (s_stats s) + lenZ (List.filter is_sidecar names) /\
  recovered (s_stats s') = recovered (s_stats s) + lenZ (omap (sent_of fs) names).
Proof.
  induction names as [|p names IH]; intros removed s Ha Hnd Hr Hs; cbn [foldl].
  - unfold lenZ. cbn. rewrite app_nil_r. split_and!; try done; lia.
  - apply NoDup_cons in Hnd as [Hp Hnd].
    destruct (recover_one_spec fs removed s p) as (H1 & H2 & H3 & H4 & _);
      [done|apply Hr; by left|apply Hs; by left|].
    destruct (IH (p :: removed) (recover_one s p)) as (I1 & I2 & I3 & I4); [done|done| | |].
    { intros q Hq. specialize (Hr q (list_elem_of_further _ _ _ Hq)). set_solver. }
    { intros q Hq. apply Hs. by right. }
    split_and!.
    + intros q. rewrite I1, reverse_cons.
      by rewrite (bool_decide_ext (q ∈ reverse names ++ p :: removed)
        (q ∈ (reverse names ++ [p]) ++ removed)) by set_solver.
    + rewrite I2, H2, <- app_assoc. f_equal. cbn. by destruct (sent_of fs p).
    + rewrite I3, H3. cbn. destruct (is_sidecar p); unfold lenZ; cbn; lia.
    + rewrite I4, H4. cbn. destruct (sent_of fs p); unfold lenZ; cbn; lia.
Qed.

(** C20: the recovery scan is exact.  Every [.dirty] sidecar falls in exactly
    one bucket; the tasks sent are one per sidecar whose cache file exists,
    whose content is readable and whose send succeeds, in directory order; and
    the only files removed are sidecars whose cache file is missing. *)
Theorem recover_dirty_sidecars_spec names fs :
  NoDup names ->
  (forall p, p ∈ names -> is_sidecar p = true -> is_sidecar (with_extension p EmptyString) = false) ->
  let s := recover_dirty_sidecars (Some names) fs in
  total (s_stats s) = lenZ (List.filter is_sidecar names) /\
  s_sent s = omap (sent_of fs) names /\
  recovered (s_stats s) = lenZ (s_sent s) /\
  (forall q, s_fs s !! q =
     if bool_decide (q ∈ names) && is_sidecar q && bool_decide (fs !! with_extension q EmptyString = None)
     then None else fs !! q).
Proof.
  intros Hnd Hs s.
  destruct (foldl_recover fs names [] (mk_scan fs stats_default [])) as (H1 & H2 & H3 & H4);
    [by intros q; rewrite bool_decide_eq_false_2 by set_solver|done|set_solver|done|].
  unfold s, recover_dirty_sidecars. split_and!.
  - rewrite H3. apply Z.add_0_l.
  - by rewrite H2.
  - rewrite H4, H2. apply Z.add_0_l.
  - intros q. rewrite H1. unfold is_orphan. rewrite andb_assoc.
    by rewrite (bool_decide_ext (q ∈ reverse names ++ []) (q ∈ names)) by set_solver.
Qed.

End Recovery.

(** ** Names of sidecars *)
Definition sidecar_of (salt : Z) (path : string) : string :=
  with_extension (PathHash.write_buffer_path salt path) "dirty".

Lemma write_buffer_free salt path : Str.free_of DOT (PathHash.write_buffer_path salt path).
Proof. apply Str.fmt_hex_free. auto. Qed.

Lemma sidecar_name salt path :
  sidecar_of salt path = PathHash.write_buffer_path salt path +:+ ".dirty".
Proof.
  unfold sidecar_of, with_extension, file_stem. simpl.
  by rewrite Path.rfind_free by apply write_buffer_free.
Qed.

Lemma length_zeros n : String.length (Str.zeros n) = n.
Proof. induction n; simpl; congruence. Qed.

Lemma sidecar_rfind salt path : exists n,
  Str.rfind DOT (sidecar_of salt path) = Some (S n) /\
  S n = String.length (PathHash.write_buffer_path salt path).
Proof.
  rewrite sidecar_name.
  change ".dirty"%string with (String DOT "dirty"). rewrite Path.rfind_app by done.
  destruct (PathHash.write_buffer_path salt path) eqn:E; [|simpl; by eauto].
  exfalso. apply (f_equal String.length) in E. revert E.
  unfold PathHash.write_buffer_path, PathHash.cache_path_block. simpl.
  unfold Str.fmt_hex. rewrite Str.length_append, length_zeros. lia.
Qed.

Lemma sidecar_extension salt path : extension (sidecar_of salt path) = Some "dirty"%string.
Proof.
  destruct (sidecar_rfind salt path) as (n & E & Hn). unfold extension. rewrite E, sidecar_name, Hn.
  replace (PathHash.write_buffer_path salt path +:+ ".dirty")
    with ((PathHash.write_buffer_path salt path +:+ ".") +:+ "dirty") by (by rewrite Str.append_assoc).
  f_equal. rewrite <- (Path.substring_app (PathHash.write_buffer_path salt path +:+ ".") "dirty"
    (String.length ((PathHash.write_buffer_path salt path +:+ ".") +:+ "dirty"))) at 3.
  - f_equal. rewrite Str.length_append. simpl. lia.
  - rewrite !Str.length_append. simpl. lia.
Qed.

Lemma sidecar_stem salt path :
  with_extension (sidecar_of salt path) EmptyString = PathHash.write_buffer_path salt path.
Proof.
  destruct (sidecar_rfind salt path) as (n & E & Hn). unfold with_extension, file_stem. simpl.
  rewrite E, Hn, sidecar_name. apply Path.truncate_app.
Qed.

Lemma write_buffer_not_sidecar salt path : is_sidecar (PathHash.write_buffer_path salt path) = false.
Proof.
  unfold is_sidecar, extension. by rewrite Path.rfind_free by apply write_buffer_free.
Qed.

(** After a crash, the sidecar that [flush] wrote for a path leads the scan
    to send one upload of that path's write buffer; its target is the path
    itself exactly when the path neither starts nor ends with white space,
    since the scan trims the sidecar's content. *)
Theorem sidecar_roundtrip send dc delay bs salt path fs bf mtime :
  utf8_valid (as_bytes path) = true ->
  fs !! PathHash.write_buffer_path salt path = Some bf ->
  fs !! sidecar_of salt path = Some (mk_file (as_bytes path) mtime true) ->
  (forall t, send t = true) ->
  exists t,
    s_sent (recover_dirty_sidecars (Some send) dc delay bs (Some [sidecar_of salt path]) fs) = [t] /\
    task_buffer_path t = PathHash.write_buffer_path salt path /\ in_memory_payload t = None /\
    (remote_path t = path <-> trim (as_bytes path) = as_bytes path).
Proof.
  intros Hu Hb Hsc Hsend.
  exists (recovery_task dc delay bs (String.string_of_list_byte (trim (as_bytes path)))
       (PathHash.write_buffer_path salt path)).
  split_and!; [|done|done|].
  - cbn [recover_dirty_sidecars foldl]. unfold recover_one. cbn [s_stats s_fs s_sent stats_default].
    unfold is_sidecar. rewrite sidecar_extension, bool_decide_eq_true_2 by done. cbn [negb].
    rewrite sidecar_stem, Hb. unfold read_to_string. rewrite Hsc. cbn [file_readable file_data].
    unfold from_utf8. rewrite Hu. unfold as_bytes. rewrite String.list_byte_of_string_of_list_byte.
    by rewrite Hsend.
  - cbn [remote_path recovery_task]. split; intros E.
    + rewrite <- E at 2. unfold as_bytes. by rewrite String.list_byte_of_string_of_list_byte.
    + rewrite E. apply String.string_of_list_byte_of_string.
Qed.

Lemma sidecar_roundtrip_witness :
  let fs : gmap string file :=
    {[ PathHash.write_buffer_path 7 "a " := mk_file [] 0 true;
       sidecar_of 7 "a " := mk_file (as_bytes "a ") 0 true ]} in
  exists t,
    s_sent (recover_dirty_sidecars (Some (fun _ => true)) false 0 0 (Some [sidecar_of 7 "a "]) fs) = [t] /\
    remote_path t <> "a "%string.
Proof.
  destruct (sidecar_roundtrip (fun _ => true) false 0 0 7 "a "
    {[ PathHash.write_buffer_path 7 "a " := mk_file [] 0 true;
       sidecar_of 7 "a " := mk_file (as_bytes "a ") 0 true ]} (mk_file [] 0 true) 0)
    as (t & H1 & _ & _ & H2); [by vm_compute..|done|].
  exists t. split; [exact H1|]. intros E. apply H2 in E. by vm_compute in E.
Defined.

Lemma recover_dirty_sidecars_spec_witness :
  let names := ["b.dirty"; "a"; "a.dirty"]%string in
  let fs : gmap string file :=
    {[ "a" := mk_file [] 0 true; "a.dirty" := mk_file (as_bytes "x") 0 true;
       "b.dirty" := mk_file (as_bytes "y") 0 true ]}%string in
  let s := recover_dirty_sidecars (Some (fun _ => true)) false 0 0 (Some names) fs in
  total (s_stats s) = 2 /\ recovered (s_stats s) = lenZ (s_sent s).
Proof.
  intros names fs s.
  destruct (recover_dirty_sidecars_spec (Some (fun _ => true)) false 0 0 names fs)
    as (H1 & _ & H2 & _).
  - by apply (bool_decide_unpack _); vm_compute.
  - intros p Hp. unfold names in Hp.
    rewrite !elem_of_cons, elem_of_nil in Hp. by destruct Hp as [->|[->|[->|[]]]]; vm_compute.
  - split; [exact H1|exact H2].
Defined.

End Sidecar.

(** ** The worker and the handlers that feed it *)
Module Worker.
Import Sidecar.

(** An upload task of the runtime: the next attempt to make, or [Confirmed]
    between the comparison with the pending buffer and the removals. *)
Inductive phase := Attempt (n : Z) | Confirmed.
Record upload := mk_upload { u_task : WritebackTask; u_data : bytes; u_phase : phase }.

(** [FileHandleState::Write]; a pending buffer is an index in the heap of
    shared buffers ([Arc<Mutex<Vec<u8>>>]). *)
Record handle := mk_handle {
  h_ino : Z;
  h_path : string;
  h_has_fd : bool;
  h_buffer : option Z;
  h_dirty : bool
}.

Record world := mk_world {
  chan : list WritebackTask;
  queue : list (Z * WritebackTask);
  uploads : list upload;
  PENDING_COUNT : Z;
  writeback_pending : gset string;
  heap : gmap Z bytes;
  off_mode_buffers : gmap string Z;
  handles : gmap Z handle;
  w_fs : gmap string file;
  w_index : gmap (string * option Z) (Z * Z);
  backend : gmap string bytes;
  mtimes : gmap Z Z
}.

(** The pipeline, and everything else. *)
Definition set_pipe (c : list WritebackTask) (q : list (Z * WritebackTask)) (u : list upload)
    (w : world) : world :=
  mk_world c q u (PENDING_COUNT w) (writeback_pending w) (heap w) (off_mode_buffers w) (handles w)
    (w_fs w) (w_index w) (backend w) (mtimes w).
Definition set_count (n : Z) (w : world) : world :=
  mk_world (chan w) (queue w) (uploads w) n (writeback_pending w) (heap w) (off_mode_buffers w)
    (handles w) (w_fs w) (w_index w) (backend w) (mtimes w).
Definition set_pending (p : gset string) (w : world) : world :=
  mk_world (chan w) (queue w) (uploads w) (PENDING_COUNT w) p (heap w) (off_mode_buffers w)
    (handles w) (w_fs w) (w_index w) (backend w) (mtimes w).
Definition set_buffers (hp : gmap Z bytes) (b : gmap string Z) (w : world) : world :=
  mk_world (chan w) (queue w) (uploads w) (PENDING_COUNT w) (writeback_pending w) hp b
    (handles w) (w_fs w) (w_index w) (backend w) (mtimes w).
Definition set_handles (h : gmap Z handle) (w : world) : world :=
  mk_world (chan w) (queue w) (uploads w) (PENDING_COUNT w) (writeback_pending w) (heap w)
    (off_mode_buffers w) h (w_fs w) (w_index w) (backend w) (mtimes w).
Definition set_disk (fs : gmap string file) (ix : gmap (string * option Z) (Z * Z)) (w : world) : world :=
  mk_world (chan w) (queue w) (uploads w) (PENDING_COUNT w) (writeback_pending w) (heap w)
    (off_mode_buffers w) (handles w) fs ix (backend w) (mtimes w).
Definition set_backend (b : gmap string bytes) (mt : gmap Z Z) (w : world) : world :=
  mk_world (chan w) (queue w) (uploads w) (PENDING_COUNT w) (writeback_pending w) (heap w)
    (off_mode_buffers w) (handles w) (w_fs w) (w_index w) b mt.

Section Mount.
Context (mode : PathHash.CacheMode) (salt : Z) (spawn_delay : Z) (bsize : Z).

(** *** The worker loop *)
Definition enqueue_at (now : Z) (t : WritebackTask) : Z :=
  if retry_cycle t =? 0 then
    now + (if per_task_delay t =? DURATION_MAX then spawn_delay else per_task_delay t)
  else now + REENQUEUE_COOLDOWN.

(** The [while let Ok(task) = rx.try_recv()] loop. *)
Definition drain (now : Z) (w : world) : world :=
  set_count (PENDING_COUNT w + lenZ (chan w))
    (set_pipe [] (queue w ++ map (fun t => (enqueue_at now t, t)) (chan w)) (uploads w) w).

(** [rx.recv().await] when the delay queue is empty. *)
Definition recv_idle (now : Z) (w : world) : world :=
  match queue w, chan w with
  | [], t :: rest =>
      set_count (PENDING_COUNT w + 1) (set_pipe rest [(enqueue_at now t, t)] (uploads w) w)
  | _, _ => w
  end.

(** The bytes of a task: the payload, or the write-buffer file. *)
Definition load (w : world) (t : WritebackTask) : option bytes :=
  match in_memory_payload t with
  | Some payload => Some payload
  | None =>
      match w_fs w !! task_buffer_path t with
      | Some f => if file_readable f then Some (file_data f) else None
      | None => None
      end
  end.
Definition remove_nth {A} (k : nat) (l : list A) : list A := take k l ++ drop (S k) l.
Definition remove_sidecar (t : WritebackTask) (w : world) : world :=
  set_disk (remove_file (with_extension (task_buffer_path t) "dirty") (w_fs w)) (w_index w) w.

(** [queue.next().await]: the [k]-th entry has expired; the upload is spawned
    or the task dropped. *)
Definition dequeue (now : Z) (k : nat) (w : world) : world :=
  match queue w !! k with
  | None => w
  | Some (deadline, t) =>
      if deadline <=? now then
        let q := remove_nth k (queue w) in
        match load w t with
        | Some data => set_pipe (chan w) q (uploads w ++ [mk_upload t data (Attempt 0)]) w
        | None => remove_sidecar t (set_count (PENDING_COUNT w - 1) (set_pipe (chan w) q (uploads w) w))
        end
      else w
  end.

(** *** One attempt of the retry loop *)
Definition next_cycle_task (t : WritebackTask) : WritebackTask :=
  mk_task (ino t) (remote_path t) (task_buffer_path t) (in_memory_payload t) (task_delete_cache t)
    (retry_cycle t + 1) REENQUEUE_COOLDOWN (buffer_size t).
Definition reupload_task (t : WritebackTask) (current : bytes) : WritebackTask :=
  mk_task (ino t) (remote_path t) (task_buffer_path t) (Some current) (task_delete_cache t)
    0 0 (buffer_size t).
(** Seconds slept after a failed attempt; a timeout goes on at once. *)
Definition backoff_secs (timed_out : bool) (attempt : Z) : Z :=
  if timed_out then 0 else if attempt <? 4 then Z.shiftl 1 attempt else 0.

Definition put (p : string) (data : bytes) (w : world) : world :=
  set_backend (<[p := data]> (backend w)) (mtimes w) w.

(** A failed or timed-out attempt; [landed] says whether the object changed
    all the same. *)
Definition attempt_failed (landed : bool) (k : nat) (w : world) : world :=
  match uploads w !! k with
  | Some (mk_upload t data (Attempt n)) =>
      let w := if landed then put (remote_path t) data w else w in
      if n <? 4 then
        set_pipe (chan w) (queue w) (<[k := mk_upload t data (Attempt (n + 1))]> (uploads w)) w
      else
        let next_cycle := retry_cycle t + 1 in
        let rest := remove_nth k (uploads w) in
        if MAX_REENQUEUE_CYCLES <? next_cycle then
          set_pending (writeback_pending w ∖ {[remote_path t]})
            (set_count (PENDING_COUNT w - 1) (set_pipe (chan w) (queue w) rest w))
        else set_pipe (chan w ++ [next_cycle_task t]) (queue w) rest w
  | _ => w
  end.

(** The pending buffer when it differs from what was uploaded. *)
Definition moved_on (w : world) (p : string) (data : bytes) : option bytes :=
  match off_mode_buffers w !! p with
  | Some i =>
      match heap w !! i with
      | Some v => if bool_decide (v = data) then None else Some v
      | None => None
      end
  | None => None
  end.
Definition drop_blocks (p : string) (w : world) : world :=
  let '(fs, ix) := drop_block_cache_for_path salt (w_fs w) (w_index w) p in set_disk fs ix w.

Definition touch_mtime (now i : Z) (w : world) : world :=
  if i =? INO_RECOVERY_SENTINEL then w
  else set_backend (backend w) (alter (fun _ => now) i (mtimes w)) w.
Definition clean_disk (t : WritebackTask) (w : world) : world :=
  match in_memory_payload t with
  | Some _ => w
  | None =>
      let w := remove_sidecar t w in
      if task_delete_cache t then set_disk (remove_file (task_buffer_path t) (w_fs w)) (w_index w) w
      else w
  end.

(** A successful attempt, up to the comparison with the pending buffer; when
    the buffer moved on the task ends by sending the new content. *)
Definition attempt_ok (now : Z) (k : nat) (w : world) : world :=
  match uploads w !! k with
  | Some (mk_upload t data (Attempt _)) =>
      let p := remote_path t in
      let w := touch_mtime now (ino t) (put p data w) in
      let w := clean_disk t (set_count (PENDING_COUNT w - 1) w) in
      match moved_on w p data with
      | Some current =>
          drop_blocks p
            (set_pipe (chan w ++ [reupload_task t current]) (queue w) (remove_nth k (uploads w)) w)
      | None => set_pipe (chan w) (queue w) (<[k := mk_upload t data Confirmed]> (uploads w)) w
      end
  | _ => w
  end.

(** The removals that follow. *)
Definition confirm (k : nat) (w : world) : world :=
  match uploads w !! k with
  | Some (mk_upload t data Confirmed) =>
      let p := remote_path t in
      drop_blocks p
        (set_pipe (chan w) (queue w) (remove_nth k (uploads w))
          (set_pending (writeback_pending w ∖ {[p]})
            (set_buffers (heap w) (delete p (off_mode_buffers w)) w)))
  | _ => w
  end.

(** *** The FUSE handlers *)
Definition off_mode : bool := negb (PathHash.disk_write_buffer mode).

(** [writeback_pending.insert] and [tx.send], with the entry taken back when
    the send fails; the flag says whether the bytes are accounted for. *)
Definition enqueue (alive : bool) (t : WritebackTask) (w : world) : world * bool :=
  if bool_decide (remote_path t ∈ writeback_pending w) then (w, true)
  else if alive then
    (set_pipe (chan w ++ [t]) (queue w) (uploads w)
       (set_pending (writeback_pending w ∪ {[remote_path t]}) w), true)
  else (w, false).
Definition fresh_task (i : Z) (p : string) (payload : option bytes) (delay : Z) : WritebackTask :=
  mk_task i p (PathHash.write_buffer_path salt p) payload (PathHash.delete_cache_on_success mode)
    0 delay bsize.
Definition cache_exists (w : world) (p : string) : bool :=
  bool_decide (is_Some (w_fs w !! PathHash.write_buffer_path salt p)).
Definition write_sidecar (ok : bool) (now : Z) (p : string) (w : world) : world :=
  if ok then set_disk (<[sidecar_of salt p := mk_file (as_bytes p) now true]> (w_fs w)) (w_index w) w
  else w.

(** [off_mode_buffer]: the registered buffer, or a new one seeded with what
    [fetch_backend_bytes] answers; [id] is the new allocation. *)
Definition off_mode_buffer (fetch : option bytes) (id : Z) (p : string) (w : world) : world * Z :=
  match off_mode_buffers w !! p with
  | Some i => (w, i)
  | None =>
      (set_buffers (<[id := default [] fetch]> (heap w)) (<[p := id]> (off_mode_buffers w)) w, id)
  end.
Definition off_mode_open (fetch : option bytes) (id i h : Z) (p : string) (w : world) : world :=
  let '(w, b) := off_mode_buffer fetch id p w in
  set_handles (<[h := mk_handle i p false (Some b) false]> (handles w)) w.

Definition set_dirty (d : bool) (h : Z) (w : world) : world :=
  set_handles (alter (fun hd => mk_handle (h_ino hd) (h_path hd) (h_has_fd hd) (h_buffer hd) d) h
                 (handles w)) w.

(** Answers of the world to one [write]: the backend's, the disk's, the
    sender's, and the delay of [per_task_writeback_delay]. *)
Record write_env := mk_write_env {
  e_now : Z;
  e_alive : bool;
  e_delay : Z;
  e_known_size : Z;
  e_refetch : option bytes;
  e_gap : option bytes;
  e_gap_fault : bool;
  e_set_len_ok : bool;
  e_write_fault : option Z
}.

(** The local copy after the write, and whether the handler goes on. *)
Definition write_local (e : write_env) (hd : handle) (offset : Z) (data : bytes) (w : world)
    : world * bool :=
  let p := h_path hd in
  if off_mode then
    match h_buffer hd with
    | None => (w, true)
    | Some i =>
        match heap w !! i with
        | None => (w, true)
        | Some v =>
            let v := FileOps.off_mode_splice (e_known_size e) (e_refetch e) (e_gap e) offset data v in
            let b := default i (off_mode_buffers w !! p) in
            (set_buffers (<[i := v]> (heap w)) (<[p := b]> (off_mode_buffers w)) w, true)
        end
    end
  else if h_has_fd hd then
    let cpath := PathHash.write_buffer_path salt p in
    match w_fs w !! cpath with
    | None => (w, true)
    | Some f =>
        let '(after, r) := FileOps.disk_fd_write (e_gap_fault e) (e_set_len_ok e) (e_write_fault e)
                             (e_gap e) offset data (file_data f) in
        (set_disk (<[cpath := mk_file after (e_now e) (file_readable f)]> (w_fs w)) (w_index w) w,
         match r with Ok _ => true | Err _ => false end)
    end
  else (w, true).

(** The cache index entry of the write buffer. *)
Definition index_write (now : Z) (p : string) (offset len : Z) (w : world) : world :=
  set_disk (w_fs w)
    (<[(p, None) := FileOps.write_index_entry now (w_index w !! (p, None)) offset len]> (w_index w)) w.

(** [write].  The eviction and the invalidation of cached blocks that follow
    act on the cache directory and the index only. *)
Definition write (e : write_env) (h offset : Z) (data : bytes) (w : world) : world :=
  match handles w !! h with
  | None => w
  | Some hd =>
      let '(w, continue) := write_local e hd offset data w in
      if continue then
        let w :=
          if cache_exists w (h_path hd)
          then fst (enqueue (e_alive e) (fresh_task (h_ino hd) (h_path hd) None (e_delay e)) w)
          else w in
        set_dirty true h (index_write (e_now e) (h_path hd) offset (lenZ data) w)
      else w
  end.

(** The bytes of the handle's pending buffer, packed into the task. *)
Definition payload_of (hd : handle) (w : world) : option bytes :=
  if off_mode then i ← h_buffer hd; heap w !! i else None.

(** [flush]: [sync_ok] and [sidecar_ok] are the outcomes of [fdatasync] and of
    writing the sidecar; [false] as the result is the [Err] reply. *)
Definition flush (now : Z) (alive sync_ok sidecar_ok : bool) (delay h : Z) (w : world) : world * bool :=
  match handles w !! h with
  | None => (w, true)
  | Some hd =>
      if h_dirty hd then
        if h_has_fd hd && negb sync_ok then (w, false)
        else
          let p := h_path hd in
          let payload := payload_of hd w in
          let should_enqueue :=
            if off_mode then bool_decide (is_Some payload) else cache_exists w p in
          if should_enqueue then
            let w := if off_mode then w else write_sidecar sidecar_ok now p w in
            let '(w, handed) := enqueue alive (fresh_task (h_ino hd) p payload delay) w in
            (if handed then set_dirty false h w else w, true)
          else (set_dirty false h w, true)
      else (w, true)
  end.

(** [release]; [caching] is [handle_caching > 0]. *)
Definition release (now : Z) (alive sync_ok sidecar_ok caching : bool) (delay h : Z) (w : world)
    : world * bool :=
  match handles w !! h with
  | None => (w, true)
  | Some hd =>
      if h_dirty hd then
        if h_has_fd hd && negb sync_ok then (w, false)
        else
          let p := h_path hd in
          let payload := payload_of hd w in
          let no_payload := bool_decide (payload = None) in
          let w := if no_payload && cache_exists w p then write_sidecar sidecar_ok now p w else w in
          let should_enqueue := negb no_payload || cache_exists w p in
          let w :=
            if should_enqueue then fst (enqueue alive (fresh_task (h_ino hd) p payload delay) w)
            else w in
          (set_handles (delete h (handles w)) w, true)
      else if caching then (w, true)
      else (set_handles (delete h (handles w)) w, true)
  end.

(** What [forget] of the last reference does here: the path's handles and its
    pending mark go. *)
Definition forget_path (p : string) (w : world) : world :=
  set_pending (writeback_pending w ∖ {[p]})
    (set_handles (filter (fun kv => h_path (snd kv) <> p) (handles w)) w).

(** The local clean-up of [unlink] and its backend delete; [size] is the size
    the inode table has for the path. *)
Definition unlink_path (deleted : bool) (size : Z) (p : string) (w : world) : world :=
  let w := if deleted then set_backend (delete p (backend w)) (mtimes w) w else w in
  let cpath := PathHash.write_buffer_path salt p in
  let was_dirty := bool_decide (p ∈ writeback_pending w) in
  let fs := if was_dirty then remove_file (with_extension cpath "dirty") (w_fs w) else w_fs w in
  let fs := remove_file cpath fs in
  let n_blocks := (size + CACHE_BLOCK_SIZE - 1) / CACHE_BLOCK_SIZE in
  let fs := if 0 <? size then remove_block_cache_files salt fs p size else fs in
  let ix := if 0 <? size then foldl (fun ix b => delete (p, Some b) ix) (w_index w) (seqZ 0 n_blocks)
            else w_index w in
  set_pending (writeback_pending w ∖ {[p]}) (set_disk fs (delete (p, None) ix) w).

End Mount.
End Worker.

(** ** Off mode: FUSE threads and worker interleaved *)
Module OffMode.
Import Sidecar Worker.

Section OffMode.
Context (salt spawn_delay bsize : Z).
Local Abbreviation mode := PathHash.Off.

(** What is recorded beside the program's state: the content each path has for
    the application since the last write that was not [raced], unless the path
    was opened later without the object's content; the paths written since their
    last [flush]/[release]; the paths whose retries were given up or whose task
    was dropped; and the path each shared buffer was allocated for. *)
Record ghost := mk_ghost {
  written : gmap string bytes;
  unflushed : gset string;
  gave_up : gset string;
  vanished : gset string;
  owner : gmap Z string
}.
Record sys := mk_sys { wd : world; gh : ghost }.

Definition tasks (w : world) : list WritebackTask :=
  chan w ++ map snd (queue w) ++ map u_task (uploads w).

Definition g_open (p : string) (id : Z) (w : world) (g : ghost) : ghost :=
  mk_ghost (written g) (unflushed g) (gave_up g) (vanished g)
    (match off_mode_buffers w !! p with Some _ => owner g | None => <[id := p]> (owner g) end).
Definition g_write (p : string) (v : bytes) (g : ghost) : ghost :=
  mk_ghost (<[p := v]> (written g)) (unflushed g ∪ {[p]}) (gave_up g) (vanished g) (owner g).
Definition g_forget (p : string) (g : ghost) : ghost :=
  mk_ghost (delete p (written g)) (unflushed g) (gave_up g) (vanished g) (owner g).
(** [enqueued]: a fresh task was sent; [handed]: the bytes are accounted for. *)
Definition g_flush (p : string) (enqueued handed : bool) (g : ghost) : ghost :=
  mk_ghost (written g) (if handed then unflushed g ∖ {[p]} else unflushed g)
    (if enqueued then gave_up g ∖ {[p]} else gave_up g) (vanished g) (owner g).
Definition g_vanish (p : string) (g : ghost) : ghost :=
  mk_ghost (written g) (unflushed g) (gave_up g) (vanished g ∪ {[p]}) (owner g).
Definition g_give_up (p : string) (g : ghost) : ghost :=
  mk_ghost (written g) (unflushed g) (gave_up g ∪ {[p]}) (vanished g) (owner g).

(** An upload of [p] sits between comparison and removal. *)
Definition confirming (p : string) (w : world) : Prop :=
  exists u, u ∈ uploads w /\ u_phase u = Confirmed /\ remote_path (u_task u) = p.

(** The steps.  A path has at most one open handle, and is neither forgotten by
    the kernel nor unlinked.  An open that does not get the object, and a write
    that lands while an upload of its path is between comparison and removal
    ([step_write_raced]), end the record of the path's content. *)
Inductive step : sys -> sys -> Prop :=
| step_open w g h id i p :
    handles w !! h = None -> heap w !! id = None ->
    (forall h' hd, handles w !! h' = Some hd -> h_path hd <> p) ->
    step (mk_sys w g) (mk_sys (off_mode_open (backend w !! p) id i h p w) (g_open p id w g))
| step_open_unseeded w g h id i p seed :
    handles w !! h = None -> heap w !! id = None ->
    (forall h' hd, handles w !! h' = Some hd -> h_path hd <> p) ->
    step (mk_sys w g) (mk_sys (off_mode_open seed id i h p w) (g_open p id w (g_forget p g)))
| step_write w g e h hd b v offset data :
    handles w !! h = Some hd -> h_buffer hd = Some b -> heap w !! b = Some v ->
    ~ confirming (h_path hd) w ->
    step (mk_sys w g)
      (mk_sys (write mode salt bsize e h offset data w)
         (g_write (h_path hd)
            (FileOps.off_mode_splice (e_known_size e) (e_refetch e) (e_gap e) offset data v) g))
| step_write_raced w g e h hd b v offset data :
    handles w !! h = Some hd -> h_buffer hd = Some b -> heap w !! b = Some v -> confirming (h_path hd) w ->
    step (mk_sys w g) (mk_sys (write mode salt bsize e h offset data w) (g_forget (h_path hd) g))
| step_flush w g now alive ok1 ok2 delay h hd :
    handles w !! h = Some hd -> h_dirty hd = true ->
    let waiting := bool_decide (h_path hd ∈ writeback_pending w) in
    step (mk_sys w g)
      (mk_sys (fst (flush mode salt bsize now alive ok1 ok2 delay h w))
         (g_flush (h_path hd) (negb waiting && alive) (waiting || alive) g))
| step_release w g now alive ok1 ok2 caching delay h hd :
    handles w !! h = Some hd -> h_dirty hd = true ->
    let waiting := bool_decide (h_path hd ∈ writeback_pending w) in
    step (mk_sys w g)
      (mk_sys (fst (release mode salt bsize now alive ok1 ok2 caching delay h w))
         (g_flush (h_path hd) (negb waiting && alive) (waiting || alive) g))
| step_close w g now alive ok1 ok2 caching delay h hd :
    handles w !! h = Some hd -> h_dirty hd = false ->
    step (mk_sys w g)
      (mk_sys (fst (release mode salt bsize now alive ok1 ok2 caching delay h w)) g)
| step_pool w g name f :
    step (mk_sys w g) (mk_sys (set_disk (<[name := f]> (w_fs w)) (w_index w) w) g)
| step_drain w g now :
    step (mk_sys w g) (mk_sys (drain spawn_delay now w) g)
| step_recv w g now :
    step (mk_sys w g) (mk_sys (recv_idle spawn_delay now w) g)
| step_dequeue w g now k deadline t data :
    queue w !! k = Some (deadline, t) -> deadline <= now -> load w t = Some data ->
    step (mk_sys w g) (mk_sys (dequeue now k w) g)
| step_vanish w g now k deadline t :
    queue w !! k = Some (deadline, t) -> deadline <= now -> load w t = None ->
    step (mk_sys w g) (mk_sys (dequeue now k w) (g_vanish (remote_path t) g))
| step_failed w g landed k t data n :
    uploads w !! k = Some (mk_upload t data (Attempt n)) ->
    step (mk_sys w g)
      (mk_sys (attempt_failed landed k w)
         (if negb (n <? 4) && (MAX_REENQUEUE_CYCLES <? retry_cycle t + 1)
          then g_give_up (remote_path t) g else g))
| step_ok w g now k t data n :
    uploads w !! k = Some (mk_upload t data (Attempt n)) ->
    step (mk_sys w g) (mk_sys (attempt_ok salt now k w) g)
| step_confirm w g k t data :
    uploads w !! k = Some (mk_upload t data Confirmed) ->
    step (mk_sys w g) (mk_sys (confirm salt k w) g).

(** ** The invariant *)
Record Inv (ts : list WritebackTask) (us : list upload) (pend : gset string) (hp : gmap Z bytes)
    (bufs : gmap string Z) (hs : gmap Z handle) (bk : gmap string bytes) (g : ghost) : Prop := {
  inv_nodup : NoDup (map remote_path ts);
  inv_pending : forall t, t ∈ ts -> remote_path t ∈ pend;
  inv_task : forall p, p ∈ pend -> p ∉ vanished g -> exists t, t ∈ ts /\ remote_path t = p;
  inv_uploads : forall u, u ∈ us -> u_task u ∈ ts;
  inv_uniq : NoDup (map (fun u => remote_path (u_task u)) us);
  inv_data : forall u d, u ∈ us -> in_memory_payload (u_task u) = Some d -> u_data u = d;
  inv_owner : forall i, is_Some (hp !! i) <-> is_Some (owner g !! i);
  inv_buffer : forall p i, bufs !! p = Some i -> owner g !! i = Some p;
  inv_current : forall p i d, bufs !! p = Some i -> written g !! p = Some d -> hp !! i = Some d;
  inv_dropped : forall p d, bufs !! p = None -> written g !! p = Some d ->
    bk !! p = Some d /\ forall t, t ∈ ts -> remote_path t = p -> in_memory_payload t = Some d;
  inv_confirmed : forall u d, u ∈ us -> u_phase u = Confirmed ->
    written g !! remote_path (u_task u) = Some d -> bk !! remote_path (u_task u) = Some d;
  inv_landed : forall p d, written g !! p = Some d -> p ∉ unflushed g -> p ∉ pend ->
    p ∉ gave_up g -> bk !! p = Some d;
  inv_handle : forall h hd, hs !! h = Some hd ->
    exists i, h_buffer hd = Some i /\ owner g !! i = Some (h_path hd) /\ h_has_fd hd = false /\
      (forall j, bufs !! h_path hd = Some j -> j = i) /\
      (forall d, written g !! h_path hd = Some d -> hp !! i = Some d);
  inv_single : forall h h' hd hd', hs !! h = Some hd -> hs !! h' = Some hd' ->
    h_path hd = h_path hd' -> h = h'
}.

Definition sys_inv (s : sys) : Prop :=
  let w := wd s in
  Inv (tasks w) (uploads w) (writeback_pending w) (heap w) (off_mode_buffers w) (handles w)
    (backend w) (gh s).

Lemma NoDup_map_inj {A B} (f : A -> B) (l : list A) x y :
  NoDup (map f l) -> x ∈ l -> y ∈ l -> f x = f y -> x = y.
Proof.
  induction l as [|z l IH]; cbn; [by rewrite elem_of_nil|].
  rewrite NoDup_cons, !elem_of_cons. intros [Hz Hnd] [->|Hx] [->|Hy] E; try done; [| |by apply IH];
    exfalso; apply Hz; [rewrite E|rewrite <- E]; by apply (list_elem_of_fmap_2 f).
Qed.

Section Transitions.
Context {ts : list WritebackTask} {us : list upload} {pend : gset string} {hp : gmap Z bytes}.
Context {bufs : gmap string Z} {hs : gmap Z handle} {bk : gmap string bytes} {g : ghost}.
Hypothesis HI : Inv ts us pend hp bufs hs bk g.

Lemma inv_perm ts' : ts ≡ₚ ts' -> Inv ts' us pend hp bufs hs bk g.
Proof.
  intros E. destruct HI. constructor; try done.
  - by rewrite <- E.
  - intros t. rewrite <- E. auto.
  - intros p H1 H2. setoid_rewrite <- E. auto.
  - intros u Hu. rewrite <- E. auto.
  - intros p d H1 H2. setoid_rewrite <- E. auto.
Qed.

(** A new upload of a queued task. *)
Lemma inv_spawn u : u_task u ∈ ts -> u_phase u <> Confirmed ->
  remote_path (u_task u) ∉ map (fun u => remote_path (u_task u)) us ->
  (forall d, in_memory_payload (u_task u) = Some d -> u_data u = d) ->
  Inv ts (us ++ [u]) pend hp bufs hs bk g.
Proof.
  intros Ht Hp Hu Hd. destruct HI. constructor; try done.
  - intros u' [H|H]%elem_of_app; [auto|]. by apply list_elem_of_singleton in H as ->.
  - rewrite map_app. apply NoDup_app. split_and!; [done| |apply NoDup_singleton].
    intros x Hx. cbn. rewrite list_elem_of_singleton. congruence.
  - intros u' d [H|H]%elem_of_app; [eauto|]. apply list_elem_of_singleton in H as ->. auto.
  - intros u' d [H|H]%elem_of_app; [eauto|]. apply list_elem_of_singleton in H as ->. done.
Qed.

(** An upload moves to another phase. *)
Lemma inv_phase k t data n ph : us !! k = Some (mk_upload t data (Attempt n)) ->
  (ph = Confirmed -> forall d, written g !! remote_path t = Some d -> bk !! remote_path t = Some d) ->
  Inv ts (<[k := mk_upload t data ph]> us) pend hp bufs hs bk g.
Proof.
  intros Hk Hc. destruct HI.
  assert (Hin : forall u, u ∈ <[k := mk_upload t data ph]> us -> u ∈ us \/ u = mk_upload t data ph).
  { intros u [j Hj]%list_elem_of_lookup. apply list_lookup_insert_Some in Hj as [(_ & -> & _)|[_ Hj]].
    - by right.
    - left. by eapply list_elem_of_lookup_2. }
  assert (Hold : mk_upload t data (Attempt n) ∈ us) by (by eapply list_elem_of_lookup_2).
  constructor; try done.
  - intros u [Hu| ->]%Hin; [auto|]. apply (inv_uploads0 _ Hold).
  - replace (map _ (<[k:=_]> us)) with (map (fun u => remote_path (u_task u)) us); [done|].
    change (map ?f ?l) with (f <$> l). rewrite list_fmap_insert. cbn.
    symmetry. apply list_insert_id. by rewrite list_lookup_fmap, Hk.
  - intros u d [Hu| ->]%Hin; [eauto|]. apply (inv_data0 _ _ Hold).
  - intros u d [Hu| ->]%Hin; [eauto|]. cbn. intros ->. auto.
Qed.

(** Two tasks of the pipeline with one path are the same task. *)
Lemma inv_same_task t t' : t ∈ ts -> t' ∈ ts -> remote_path t = remote_path t' -> t = t'.
Proof. apply NoDup_map_inj, HI. Qed.

Lemma inv_same_upload u u' : u ∈ us -> u' ∈ us ->
  remote_path (u_task u) = remote_path (u_task u') -> u = u'.
Proof. apply (NoDup_map_inj (fun u => remote_path (u_task u))), HI. Qed.

(** An upload's bytes reach the backend. *)
Lemma inv_put u n : u ∈ us -> u_phase u = Attempt n ->
  Inv ts us pend hp bufs hs (<[remote_path (u_task u) := u_data u]> bk) g.
Proof.
  intros Hu Hph. pose proof (inv_same_upload u) as Hsame. destruct HI.
  set (q := remote_path (u_task u)). constructor; try done.
  - intros p d Hb Hw. destruct (inv_dropped0 p d Hb Hw) as [H1 H2]. split; [|done].
    destruct (decide (q = p)) as [<-|]; [|by rewrite lookup_insert_ne].
    rewrite lookup_insert_eq. f_equal. eauto.
  - intros u' d Hu' Hph' Hw. rewrite lookup_insert_ne; [eauto|].
    intros E. rewrite (Hsame u') in Hph by done. congruence.
  - intros p d Hw H1 H2 H3. rewrite lookup_insert_ne; [eauto|]. intros <-. apply H2, inv_pending0; auto.
Qed.

(** [us'] are uploads of the tasks other than [t]. *)
Definition without (t : WritebackTask) (rest : list WritebackTask) (us' : list upload) : Prop :=
  ts ≡ₚ t :: rest /\ (forall u, u ∈ us' -> u ∈ us /\ remote_path (u_task u) <> remote_path t) /\
  NoDup (map (fun u => remote_path (u_task u)) us').

Lemma without_rest t rest us' : without t rest us' ->
  NoDup (map remote_path rest) /\ (remote_path t ∉ map remote_path rest) /\
  (forall t', t' ∈ rest -> t' ∈ ts /\ remote_path t' <> remote_path t) /\
  (forall u, u ∈ us' -> u_task u ∈ rest).
Proof.
  intros (E & Hu & _). destruct HI.
  assert (Hnd : NoDup (map remote_path (t :: rest))) by (by rewrite <- E).
  cbn in Hnd. apply NoDup_cons in Hnd as [Hn Hnd]. split_and!; [done|done| |].
  - intros t' Ht'. rewrite E. split; [by right|]. intros Heq. apply Hn. rewrite <- Heq.
    by apply (list_elem_of_fmap_2 remote_path).
  - intros u Hin. destruct (Hu u Hin) as [Hus Hne]. specialize (inv_uploads0 u Hus).
    rewrite E, elem_of_cons in inv_uploads0. destruct inv_uploads0 as [Heq|]; [|done]. by rewrite Heq in Hne.
Qed.

Lemma inv_vanish t rest us' : without t rest us' ->
  Inv rest us' pend hp bufs hs bk (g_vanish (remote_path t) g).
Proof.
  intros Hw. destruct (without_rest t rest us' Hw) as (H1 & H2 & H3 & H4).
  destruct Hw as (E & Hu & Hnd), HI. constructor; try done; cbn.
  - intros t' Ht'. apply inv_pending0. by apply H3.
  - intros p Hp Hv. destruct (inv_task0 p) as (t' & Ht' & <-); [done|set_solver|].
    exists t'. split; [|done]. rewrite E, elem_of_cons in Ht'. destruct Ht' as [->|]; [set_solver|done].
  - intros u d Hin. apply inv_data0. by apply Hu.
  - intros p d Hb Hwr. destruct (inv_dropped0 p d Hb Hwr) as [? Hp]. split; [done|].
    intros t' Ht'. apply Hp. by apply H3.
  - intros u d Hin. apply inv_confirmed0. by apply Hu.
Qed.

Lemma inv_give_up t rest us' : without t rest us' ->
  Inv rest us' (pend ∖ {[remote_path t]}) hp bufs hs bk (g_give_up (remote_path t) g).
Proof.
  intros Hw. destruct (without_rest t rest us' Hw) as (H1 & H2 & H3 & H4).
  destruct Hw as (E & Hu & Hnd), HI. constructor; try done; cbn.
  - intros t' [Ht' Hne]%H3. specialize (inv_pending0 t' Ht'). set_solver.
  - intros p Hp Hv. destruct (inv_task0 p) as (t' & Ht' & <-); [set_solver|done|].
    exists t'. split; [|done]. rewrite E, elem_of_cons in Ht'. destruct Ht' as [->|]; [set_solver|done].
  - intros u d Hin. apply inv_data0. by apply Hu.
  - intros p d Hb Hwr. destruct (inv_dropped0 p d Hb Hwr) as [? Hp]. split; [done|].
    intros t' Ht'. apply Hp. by apply H3.
  - intros u d Hin. apply inv_confirmed0. by apply Hu.
  - intros p d Hwr H5 H6 H7. apply inv_landed0; [done|done|set_solver|set_solver].
Qed.

Lemma inv_confirm t rest us' : without t rest us' ->
  (forall d, written g !! remote_path t = Some d -> bk !! remote_path t = Some d) ->
  Inv rest us' (pend ∖ {[remote_path t]}) hp (delete (remote_path t) bufs) hs bk g.
Proof.
  intros Hw Hc. destruct (without_rest t rest us' Hw) as (H1 & H2 & H3 & H4).
  destruct Hw as (E & Hu & Hnd), HI. constructor; try done; cbn.
  - intros t' [Ht' Hne]%H3. specialize (inv_pending0 t' Ht'). set_solver.
  - intros p Hp Hv. destruct (inv_task0 p) as (t' & Ht' & <-); [set_solver|done|].
    exists t'. split; [|done]. rewrite E, elem_of_cons in Ht'. destruct Ht' as [->|]; [set_solver|done].
  - intros u d Hin. apply inv_data0. by apply Hu.
  - intros p i [_ Hb]%lookup_delete_Some. auto.
  - intros p i d [_ Hb]%lookup_delete_Some. eauto.
  - intros p d Hb Hwr. destruct (decide (remote_path t = p)) as [<-|Hne].
    + split; [auto|]. intros t' [_ Ht']%H3 Heq. congruence.
    + rewrite lookup_delete_ne in Hb by done. destruct (inv_dropped0 p d Hb Hwr) as [? Hp].
      split; [done|]. intros t' Ht'. apply Hp. by apply H3.
  - intros u d Hin. apply inv_confirmed0. by apply Hu.
  - intros p d Hwr H5 H6 H7. destruct (decide (remote_path t = p)) as [<-|Hne]; [auto|].
    apply inv_landed0; [done|done|set_solver|done].
  - intros h hd Hh. destruct (inv_handle0 h hd Hh) as (i & ? & ? & ? & Hj & ?). exists i.
    split_and!; [done..| |done]. intros j [_ Hb]%lookup_delete_Some. auto.
Qed.

(** A task goes back to the channel, as itself or with newer bytes. *)
Lemma inv_resend t t' rest us' : without t rest us' -> remote_path t' = remote_path t ->
  (bufs !! remote_path t = None -> in_memory_payload t' = in_memory_payload t) ->
  Inv (t' :: rest) us' pend hp bufs hs bk g.
Proof.
  intros Hw Hp Hpl. destruct (without_rest t rest us' Hw) as (H1 & H2 & H3 & H4).
  destruct Hw as (E & Hu & Hnd), HI.
  assert (Ht : t ∈ ts) by (rewrite E; by left). constructor; try done; cbn.
  - rewrite Hp. by apply NoDup_cons.
  - intros t'' [->|Hin]%elem_of_cons; [rewrite Hp; auto|]. apply inv_pending0. by apply H3.
  - intros p Hin Hv. destruct (inv_task0 p Hin Hv) as (t'' & Ht'' & <-).
    rewrite E, elem_of_cons in Ht''. destruct Ht'' as [->|Ht''].
    + exists t'. split; [by left|done].
    + exists t''. split; [by right|done].
  - intros u Hin. right. auto.
  - intros u d Hin. apply inv_data0. by apply Hu.
  - intros p d Hb Hwr. destruct (inv_dropped0 p d Hb Hwr) as [? Hq]. split; [done|].
    intros t'' [->|Hin]%elem_of_cons Heq; [|apply Hq; [by apply H3|done]].
    rewrite Hpl by congruence. apply Hq; congruence.
  - intros u d Hin. apply inv_confirmed0. by apply Hu.
Qed.

(** A fresh task for a path that has none. *)
Lemma inv_enqueue t : remote_path t ∉ pend ->
  (forall d, bufs !! remote_path t = None -> written g !! remote_path t = Some d ->
     in_memory_payload t = Some d) ->
  Inv (t :: ts) us (pend ∪ {[remote_path t]}) hp bufs hs bk g.
Proof.
  intros Hp Hpl. destruct HI. constructor; try done; cbn.
  - apply NoDup_cons. split; [|done]. intros (t' & Heq & Ht')%list_elem_of_fmap.
    apply Hp. rewrite Heq. auto.
  - intros t' [->|Hin]%elem_of_cons; [set_solver|]. specialize (inv_pending0 t' Hin). set_solver.
  - intros p Hin Hv. destruct (decide (p = remote_path t)) as [->|Hne].
    + exists t. split; [by left|done].
    + destruct (inv_task0 p) as (t' & ? & ?); [set_solver|done|]. exists t'. split; [by right|done].
  - intros u Hin. right. auto.
  - intros p d Hb Hw. destruct (inv_dropped0 p d Hb Hw) as [? Hq]. split; [done|].
    intros t' [->|Hin]%elem_of_cons Heq; [|by apply Hq]. subst p. auto.
  - intros p d Hw H1 H2 H3. apply inv_landed0; [done|done|set_solver|done].
Qed.

(** Bytes are accounted for once the path is pending. *)
Lemma inv_handed p enq handed : (handed = true -> p ∈ pend) -> (enq = true -> p ∈ pend) ->
  Inv ts us pend hp bufs hs bk (g_flush p enq handed g).
Proof.
  intros H1 H2. destruct HI. constructor; try done; cbn.
  intros q d Hw Hq1 Hq2 Hq3. apply inv_landed0; [done| |done|].
  - destruct handed; [|done]. specialize (H1 eq_refl). set_solver.
  - destruct enq; [|done]. specialize (H2 eq_refl). set_solver.
Qed.

(** Changes of the handle table that keep paths and buffers. *)
Lemma inv_handles hs' :
  (forall h hd, hs' !! h = Some hd -> exists hd0, hs !! h = Some hd0 /\
     h_path hd = h_path hd0 /\ h_buffer hd = h_buffer hd0 /\ h_has_fd hd = h_has_fd hd0) ->
  Inv ts us pend hp bufs hs' bk g.
Proof.
  intros Hs. destruct HI. constructor; try done.
  - intros h hd (hd0 & Hh & E1 & E2 & E3)%Hs. rewrite E1, E2, E3. eauto.
  - intros h h' hd hd' (hd0 & Hh & E1 & _)%Hs (hd0' & Hh' & E1' & _)%Hs E. eapply inv_single0; eauto. congruence.
Qed.

(** Nothing is claimed of a path whose content is not recorded. *)
Lemma inv_forget p : Inv ts us pend hp bufs hs bk (g_forget p g).
Proof.
  destruct HI. constructor; try done; cbn.
  - intros q i d Hb [_ Hw]%lookup_delete_Some. eauto.
  - intros q d Hb [_ Hw]%lookup_delete_Some. auto.
  - intros u d Hu Hph [_ Hw]%lookup_delete_Some. auto.
  - intros q d [_ Hw]%lookup_delete_Some. auto.
  - intros h hd Hh. destruct (inv_handle0 h hd Hh) as (i & ? & ? & ? & ? & Hd). exists i.
    split_and!; [done..|]. intros d [_ Hw]%lookup_delete_Some. auto.
Qed.

(** A write to the buffer of a path whose content is not recorded. *)
Lemma inv_write_unrecorded h hd i v : hs !! h = Some hd -> h_buffer hd = Some i ->
  written g !! h_path hd = None ->
  Inv ts us pend (<[i := v]> hp) (<[h_path hd := i]> bufs) hs bk g.
Proof.
  intros Hh Hi Hn. destruct HI. set (p := h_path hd) in *.
  destruct (inv_handle0 h hd Hh) as (i' & Hi' & Ho & Hfd & Hj & _).
  assert (i' = i) as -> by congruence. fold p in Ho, Hj.
  constructor; try done; cbn.
  - intros j. destruct (decide (i = j)) as [<-|]; [|rewrite lookup_insert_ne by done; auto].
    rewrite lookup_insert_eq, Ho. split; eauto.
  - intros q j [[<- <-]|[_ Hb]]%lookup_insert_Some; auto.
  - intros q j d Hb Hw. destruct (decide (p = q)) as [<-|Hne]; [congruence|].
    rewrite lookup_insert_ne in Hb by done. rewrite lookup_insert_ne; [eauto|].
    intros <-. specialize (inv_buffer0 q i Hb). congruence.
  - intros q d [Hb Hne]%lookup_insert_None Hw. auto.
  - intros h' hd' Hh'. destruct (inv_handle0 h' hd' Hh') as (j & Hjb & Hjo & Hjf & Hjj & Hjw).
    exists j. destruct (decide (h_path hd' = p)) as [E|Hne].
    + assert (h' = h) as -> by (eapply inv_single0; eauto).
      assert (hd' = hd) as -> by congruence. assert (j = i) as -> by congruence.
      split_and!; [done..| |].
      * intros j. fold p. rewrite lookup_insert_eq. congruence.
      * intros d. fold p. rewrite Hn. done.
    + rewrite !lookup_insert_ne by done. split_and!; [done..|].
      intros d Hd. rewrite lookup_insert_ne; [auto|]. intros ->. congruence.
Qed.

Lemma inv_write h hd i v : hs !! h = Some hd -> h_buffer hd = Some i ->
  (forall u, u ∈ us -> u_phase u = Confirmed -> remote_path (u_task u) <> h_path hd) ->
  Inv ts us pend (<[i := v]> hp) (<[h_path hd := i]> bufs) hs bk (g_write (h_path hd) v g).
Proof.
  intros Hh Hi Hc. destruct HI. set (p := h_path hd).
  destruct (inv_handle0 h hd Hh) as (i' & Hi' & Ho & Hfd & Hj & _).
  assert (i' = i) as -> by congruence. fold p in Ho, Hj.
  constructor; try done; cbn.
  - intros j. destruct (decide (i = j)) as [<-|]; [|rewrite lookup_insert_ne by done; auto].
    rewrite lookup_insert_eq, Ho. split; eauto.
  - intros q j [[<- <-]|[_ Hb]]%lookup_insert_Some; auto.
  - intros q j d Hb Hw. destruct (decide (p = q)) as [<-|Hne].
    + rewrite lookup_insert_eq in Hw. rewrite lookup_insert_eq in Hb. injection Hb as <-. by rewrite lookup_insert_eq.
    + rewrite lookup_insert_ne in Hw by done. rewrite lookup_insert_ne in Hb by done.
      rewrite lookup_insert_ne; [eauto|].
      intros <-. specialize (inv_buffer0 q i Hb). congruence.
  - intros q d [Hb Hne]%lookup_insert_None Hw. rewrite lookup_insert_ne in Hw by done. auto.
  - intros u d Hu Hph Hw. rewrite lookup_insert_ne in Hw; [auto|]. intros E. by apply (Hc u Hu Hph).
  - intros q d Hw H1 H2 H3. rewrite lookup_insert_ne in Hw by set_solver.
    apply inv_landed0; [done|set_solver|done|done].
  - intros h' hd' Hh'. destruct (inv_handle0 h' hd' Hh') as (j & Hjb & Hjo & Hjf & Hjj & Hjw).
    exists j. destruct (decide (h_path hd' = p)) as [E|Hne].
    + assert (h' = h) as -> by (eapply inv_single0; eauto).
      assert (hd' = hd) as -> by congruence. assert (j = i) as -> by congruence.
      split_and!; [done..| |].
      * intros j. fold p. rewrite lookup_insert_eq. congruence.
      * intros d. fold p. rewrite !lookup_insert_eq. congruence.
    + rewrite !lookup_insert_ne by done. split_and!; [done..|].
      intros d Hd. rewrite lookup_insert_ne; [auto|]. intros ->. congruence.
Qed.

Lemma inv_open_new h i id p seed : hs !! h = None -> hp !! id = None -> bufs !! p = None ->
  (forall h' hd, hs !! h' = Some hd -> h_path hd <> p) ->
  (written g !! p = None \/ seed = bk !! p) ->
  Inv ts us pend (<[id := default [] seed]> hp) (<[p := id]> bufs)
    (<[h := mk_handle i p false (Some id) false]> hs) bk
    (mk_ghost (written g) (unflushed g) (gave_up g) (vanished g) (<[id := p]> (owner g))).
Proof.
  intros Hh Hid Hb Hp Hse. destruct HI.
  assert (Hno : owner g !! id = None).
  { apply eq_None_not_Some. rewrite <- inv_owner0, Hid. by apply is_Some_None. }
  assert (Hcur : forall d, written g !! p = Some d -> default [] seed = d).
  { intros d Hd. destruct Hse as [Hse| ->]; [congruence|]. by destruct (inv_dropped0 p d Hb Hd) as [-> _]. }
  constructor; try done; cbn.
  - intros j. destruct (decide (id = j)) as [<-|]; [|rewrite !lookup_insert_ne by done; auto].
    rewrite !lookup_insert_eq. split; eauto.
  - intros q j [[<- <-]|[_ Hq]]%lookup_insert_Some; [by rewrite lookup_insert_eq|].
    rewrite lookup_insert_ne; [auto|]. intros ->. specialize (inv_buffer0 _ _ Hq). congruence.
  - intros q j d [[<- <-]|[_ Hq]]%lookup_insert_Some Hw; [rewrite lookup_insert_eq; f_equal; auto|].
    rewrite lookup_insert_ne; [eauto|]. intros ->. specialize (inv_buffer0 _ _ Hq). congruence.
  - intros q d [Hq _]%lookup_insert_None Hw. auto.
  - intros h' hd [[<- <-]|[_ Hh']]%lookup_insert_Some.
    + exists id. cbn. rewrite !lookup_insert_eq. split_and!; try done; [congruence|].
      intros d Hd. f_equal. auto.
    + destruct (inv_handle0 h' hd Hh') as (j & Hjb & Hjo & Hjf & Hjj & Hjw). exists j.
      assert (Hne : id <> j) by congruence. specialize (Hp h' hd Hh').
      rewrite !lookup_insert_ne by done. done.
  - intros h1 h2 hd1 hd2 [[<- <-]|[_ H1]]%lookup_insert_Some [[<- <-]|[_ H2]]%lookup_insert_Some E;
      try done; [|  |by eapply inv_single0]; exfalso; [by apply (Hp h2 hd2)|by apply (Hp h1 hd1)].
Qed.

Lemma inv_open_shared h i id p : hs !! h = None -> bufs !! p = Some id ->
  (forall h' hd, hs !! h' = Some hd -> h_path hd <> p) ->
  Inv ts us pend hp bufs (<[h := mk_handle i p false (Some id) false]> hs) bk g.
Proof.
  intros Hh Hb Hp. destruct HI. constructor; try done.
  - intros h' hd [[<- <-]|[_ Hh']]%lookup_insert_Some; [|by eapply inv_handle0].
    exists id. cbn. split_and!; try done; [auto|congruence|]. intros d. by apply inv_current0.
  - intros h1 h2 hd1 hd2 [[<- <-]|[_ H1]]%lookup_insert_Some [[<- <-]|[_ H2]]%lookup_insert_Some E;
      try done; [|  |by eapply inv_single0]; exfalso; [by apply (Hp h2 hd2)|by apply (Hp h1 hd1)].
Qed.

End Transitions.

(** ** The operations keep it *)
Lemma remove_nth_perm {A} (l : list A) k x : l !! k = Some x -> l ≡ₚ x :: remove_nth k l.
Proof. intros E. unfold remove_nth. rewrite <- delete_take_drop. by apply delete_Permutation. Qed.

Lemma drop_blocks_set p w : exists fs ix, drop_blocks salt p w = set_disk fs ix w.
Proof. unfold drop_blocks. destruct (drop_block_cache_for_path _ _ _ _). eauto. Qed.

Definition inv (w : world) (g : ghost) : Prop := sys_inv (mk_sys w g).

Lemma inv_unfold w g : inv w g =
  Inv (tasks w) (uploads w) (writeback_pending w) (heap w) (off_mode_buffers w) (handles w) (backend w) g.
Proof. done. Qed.

(** Removing an upload leaves the other tasks. *)
Lemma upload_without w g k u : inv w g -> uploads w !! k = Some u ->
  without (ts := tasks w) (us := uploads w) (u_task u)
    (chan w ++ map snd (queue w) ++ map u_task (remove_nth k (uploads w)))
    (remove_nth k (uploads w)).
Proof.
  intros Hinv Hk. pose proof (remove_nth_perm _ _ _ Hk) as E.
  assert (Hnd : NoDup (map (fun u => remote_path (u_task u)) (u :: remove_nth k (uploads w)))).
  { rewrite <- (Permutation_map (fun u => remote_path (u_task u)) E).
    apply (inv_uniq _ _ _ _ _ _ _ _ Hinv). }
  apply NoDup_cons in Hnd as [Hn Hnd]. split_and!.
  - unfold tasks. pose proof (Permutation_map u_task E) as E'. cbn in E'.
    rewrite E'. by rewrite !app_assoc, Permutation_middle.
  - intros u' Hu'. split; [apply (elem_of_Permutation_proper u' _ _ E); by right|].
    intros Heq. apply Hn. rewrite <- Heq. by apply (list_elem_of_fmap_2 (fun u => remote_path (u_task u))).
  - done.
Qed.

Lemma queue_without w g k deadline t : inv w g -> queue w !! k = Some (deadline, t) ->
  without (ts := tasks w) (us := uploads w) t
    (chan w ++ map snd (remove_nth k (queue w)) ++ map u_task (uploads w)) (uploads w).
Proof.
  intros Hinv Hk. pose proof (remove_nth_perm _ _ _ Hk) as E.
  assert (Ets : tasks w ≡ₚ t :: chan w ++ map snd (remove_nth k (queue w)) ++ map u_task (uploads w)).
  { unfold tasks. pose proof (Permutation_map snd E) as E'. cbn in E'.
    rewrite E'. cbn. symmetry. apply Permutation_middle. }
  split_and!; [done| |apply (inv_uniq _ _ _ _ _ _ _ _ Hinv)].
  intros u Hu. split; [done|]. pose proof (inv_nodup _ _ _ _ _ _ _ _ Hinv) as Hnd. cbn in Hnd.
  rewrite (Permutation_map remote_path Ets) in Hnd. cbn in Hnd. apply NoDup_cons in Hnd as [Hn _].
  intros Heq. apply Hn. rewrite <- Heq. apply (list_elem_of_fmap_2 remote_path).
  rewrite !elem_of_app. right. right. by apply (list_elem_of_fmap_2 u_task).
Qed.

Lemma map_snd_stamp (f : WritebackTask -> Z) l : map snd (map (fun t => (f t, t)) l) = l.
Proof. induction l; cbn; congruence. Qed.

Lemma drain_inv now w g : inv w g -> inv (drain spawn_delay now w) g.
Proof.
  intros Hi. apply (inv_perm Hi). unfold tasks, drain. cbn.
  rewrite map_app, map_snd_stamp, !app_assoc. f_equiv. apply Permutation_app_comm.
Qed.

Lemma recv_inv now w g : inv w g -> inv (recv_idle spawn_delay now w) g.
Proof.
  intros Hi. unfold recv_idle. destruct (queue w) eqn:Eq, (chan w) eqn:Ec; try done.
  apply (inv_perm Hi). unfold tasks. cbn. rewrite Eq, Ec. cbn. apply Permutation_middle.
Qed.

Lemma dequeue_inv now k deadline t data w g : inv w g ->
  queue w !! k = Some (deadline, t) -> deadline <= now -> load w t = Some data ->
  inv (dequeue now k w) g.
Proof.
  intros Hi Hk Hd Hl. unfold dequeue. rewrite Hk, (proj2 (Z.leb_le _ _) Hd), Hl.
  destruct (queue_without w g k deadline t Hi Hk) as (E & Hu & _).
  assert (Hi' : Inv (tasks w) (uploads w ++ [mk_upload t data (Attempt 0)]) (writeback_pending w)
    (heap w) (off_mode_buffers w) (handles w) (backend w) g).
  { apply (inv_spawn Hi); cbn; [rewrite E; by left|done| |].
    - intros (u & Heq & Hin)%list_elem_of_fmap. by apply (Hu u Hin).
    - intros d Hp. unfold load in Hl. rewrite Hp in Hl. congruence. }
  apply (inv_perm Hi'). rewrite E. unfold tasks. cbn.
  rewrite map_app, !app_assoc. cbn. apply Permutation_cons_append.
Qed.

Lemma vanish_inv now k deadline t w g : inv w g ->
  queue w !! k = Some (deadline, t) -> deadline <= now -> load w t = None ->
  inv (dequeue now k w) (g_vanish (remote_path t) g).
Proof.
  intros Hi Hk Hd Hl. unfold dequeue. rewrite Hk, (proj2 (Z.leb_le _ _) Hd), Hl.
  exact (inv_vanish Hi t _ _ (queue_without w g k deadline t Hi Hk)).
Qed.

Lemma map_insert_task (us : list upload) k t data ph0 ph :
  us !! k = Some (mk_upload t data ph0) ->
  map u_task (<[k := mk_upload t data ph]> us) = map u_task us.
Proof.
  intros Hk. change (map u_task ?l) with (u_task <$> l). rewrite list_fmap_insert. cbn.
  apply list_insert_id. by rewrite list_lookup_fmap, Hk.
Qed.

Lemma put_inv k t data n w g : inv w g -> uploads w !! k = Some (mk_upload t data (Attempt n)) ->
  inv (put (remote_path t) data w) g.
Proof.
  intros Hi Hk. apply (inv_put Hi (mk_upload t data (Attempt n)) n); [|done].
  by eapply list_elem_of_lookup_2.
Qed.

Lemma phase_inv k t data n ph w g : inv w g -> uploads w !! k = Some (mk_upload t data (Attempt n)) ->
  (ph = Confirmed -> forall d, written g !! remote_path t = Some d -> backend w !! remote_path t = Some d) ->
  inv (set_pipe (chan w) (queue w) (<[k := mk_upload t data ph]> (uploads w)) w) g.
Proof.
  intros Hi Hk Hc. rewrite inv_unfold. unfold tasks. cbn.
  rewrite (map_insert_task _ _ _ _ _ _ Hk). by apply (inv_phase Hi k t data n).
Qed.

(** The task of upload [k] goes back to the channel as [t']. *)
Lemma resend_inv k u t' w g : inv w g -> uploads w !! k = Some u ->
  remote_path t' = remote_path (u_task u) ->
  (off_mode_buffers w !! remote_path (u_task u) = None ->
     in_memory_payload t' = in_memory_payload (u_task u)) ->
  inv (set_pipe (chan w ++ [t']) (queue w) (remove_nth k (uploads w)) w) g.
Proof.
  intros Hi Hk Hp Hpl.
  apply (inv_perm (inv_resend Hi _ t' _ _ (upload_without w g k u Hi Hk) Hp Hpl)).
  unfold tasks. cbn. rewrite <- app_assoc. apply Permutation_middle.
Qed.

Lemma failed_inv landed k t data n w g : inv w g ->
  uploads w !! k = Some (mk_upload t data (Attempt n)) ->
  inv (attempt_failed landed k w)
    (if negb (n <? 4) && (MAX_REENQUEUE_CYCLES <? retry_cycle t + 1)
     then g_give_up (remote_path t) g else g).
Proof.
  intros Hi Hk. unfold attempt_failed. rewrite Hk.
  set (w1 := if landed then put (remote_path t) data w else w).
  assert (Hi1 : inv w1 g) by (unfold w1; destruct landed; [by eapply put_inv|done]).
  assert (Hk1 : uploads w1 !! k = Some (mk_upload t data (Attempt n)))
    by (unfold w1; by destruct landed).
  destruct (n <? 4); cbn [negb andb]; [by eapply phase_inv|].
  destruct (MAX_REENQUEUE_CYCLES <? retry_cycle t + 1).
  - exact (inv_give_up Hi1 t _ _ (upload_without w1 g k _ Hi1 Hk1)).
  - by apply (resend_inv k _ (next_cycle_task t) w1 g Hi1 Hk1).
Qed.

(** The part of the state the invariant reads. *)
Definition core (w : world) :=
  (tasks w, uploads w, writeback_pending w, heap w, off_mode_buffers w, handles w, backend w).

Lemma inv_core w w' g : core w = core w' -> inv w g -> inv w' g.
Proof. rewrite !inv_unfold. by intros [= -> -> -> -> -> -> ->]. Qed.

Lemma core_drop_blocks p w : core (drop_blocks salt p w) = core w.
Proof. by destruct (drop_blocks_set p w) as (fs & ix & ->). Qed.

Lemma core_clean now i t n w : core (clean_disk t (set_count n (touch_mtime now i w))) = core w.
Proof.
  unfold clean_disk, touch_mtime. destruct (in_memory_payload t), (i =? INO_RECOVERY_SENTINEL); try done;
    by destruct (task_delete_cache t).
Qed.

(** The comparison with the pending buffer says whether the backend holds the
    path's content. *)
Lemma moved_on_None k t data n w g : inv w g ->
  uploads w !! k = Some (mk_upload t data (Attempt n)) ->
  moved_on w (remote_path t) data = None ->
  forall d, written g !! remote_path t = Some d -> data = d.
Proof.
  intros Hi Hk Hm d Hd. apply list_elem_of_lookup_2 in Hk. unfold moved_on in Hm.
  destruct (off_mode_buffers w !! remote_path t) as [i|] eqn:Eb.
  - pose proof (inv_current _ _ _ _ _ _ _ _ Hi _ i d Eb Hd) as Hh. cbn in Hh. rewrite Hh in Hm.
    by case_bool_decide.
  - destruct (inv_dropped _ _ _ _ _ _ _ _ Hi _ d Eb Hd) as [_ Hp].
    apply (inv_data _ _ _ _ _ _ _ _ Hi _ d Hk). apply Hp; [|done].
    apply (inv_uploads _ _ _ _ _ _ _ _ Hi _ Hk).
Qed.

Lemma ok_inv now k t data n w g : inv w g ->
  uploads w !! k = Some (mk_upload t data (Attempt n)) -> inv (attempt_ok salt now k w) g.
Proof.
  intros Hi Hk. unfold attempt_ok. rewrite Hk. set (w1 := put (remote_path t) data w).
  set (w2 := clean_disk t _). assert (Hc : core w1 = core w2) by (unfold w2; by rewrite core_clean).
  assert (Hi1 : inv w1 g) by (by eapply put_inv).
  pose proof (inv_core w1 w2 g Hc Hi1) as Hi2. injection Hc as _ Hu _ _ _ _ Hb.
  assert (Hk2 : uploads w2 !! k = Some (mk_upload t data (Attempt n))) by (by rewrite <- Hu).
  destruct (moved_on w2 (remote_path t) data) as [current|] eqn:Em.
  - eapply inv_core; [symmetry; apply core_drop_blocks|].
    apply (resend_inv k _ (reupload_task t current) w2 g Hi2 Hk2); [done|].
    intros Hn. unfold moved_on in Em. cbn in Hn. by rewrite Hn in Em.
  - eapply phase_inv; [done|done|]. intros _ d Hd.
    rewrite <- Hb, (moved_on_None k t data n w2 g Hi2 Hk2 Em d Hd). apply lookup_insert_eq.
Qed.

Lemma confirm_inv k t data w g : inv w g ->
  uploads w !! k = Some (mk_upload t data Confirmed) -> inv (confirm salt k w) g.
Proof.
  intros Hi Hk. unfold confirm. rewrite Hk.
  eapply inv_core; [symmetry; apply core_drop_blocks|].
  apply (inv_confirm Hi t _ _ (upload_without w g k _ Hi Hk)). intros d Hd.
  apply list_elem_of_lookup_2 in Hk. exact (inv_confirmed _ _ _ _ _ _ _ _ Hi _ d Hk eq_refl Hd).
Qed.

Lemma enqueue_inv alive t w g : inv w g ->
  (forall d, off_mode_buffers w !! remote_path t = None -> written g !! remote_path t = Some d ->
     in_memory_payload t = Some d) ->
  inv (fst (enqueue alive t w)) g.
Proof.
  intros Hi Hp. unfold enqueue. case_bool_decide as Hin; [done|]. destruct alive; [|done].
  apply (inv_perm (inv_enqueue Hi t Hin Hp)). unfold tasks. cbn. rewrite <- app_assoc.
  apply Permutation_middle.
Qed.

Lemma alter_handles_inv (f : handle -> handle) h w g : inv w g ->
  (forall hd, h_path (f hd) = h_path hd /\ h_buffer (f hd) = h_buffer hd /\ h_has_fd (f hd) = h_has_fd hd) ->
  inv (set_handles (alter f h (handles w)) w) g.
Proof.
  intros Hi Hf. apply (inv_handles Hi). intros h' hd. cbn [wd handles set_handles].
  destruct (decide (h = h')) as [<-|]; [|rewrite lookup_alter_ne by done; eauto 6].
  rewrite lookup_alter_eq. destruct (handles w !! h) as [hd0|]; [|done]. intros [= <-].
  exists hd0. split; [done|apply Hf].
Qed.

Lemma delete_handle_inv h w g : inv w g -> inv (set_handles (delete h (handles w)) w) g.
Proof.
  intros Hi. apply (inv_handles Hi). intros h' hd. cbn [wd handles set_handles].
  intros [_ Hh]%lookup_delete_Some. eauto 6.
Qed.

Lemma open_inv h id i p seed w g : inv w g -> handles w !! h = None -> heap w !! id = None ->
  (forall h' hd, handles w !! h' = Some hd -> h_path hd <> p) ->
  written g !! p = None \/ seed = backend w !! p ->
  inv (off_mode_open seed id i h p w) (g_open p id w g).
Proof.
  intros Hi Hh Hid Hp Hse. unfold off_mode_open, off_mode_buffer, g_open.
  destruct (off_mode_buffers w !! p) as [b|] eqn:Eb.
  - destruct g. by apply (inv_open_shared Hi).
  - by apply (inv_open_new Hi).
Qed.

(** A write, with whatever record of its content the invariant has after the
    buffer was changed. *)
Lemma write_inv e h hd b v offset data w g g1 : inv w g ->
  handles w !! h = Some hd -> h_buffer hd = Some b -> heap w !! b = Some v ->
  (let v' := FileOps.off_mode_splice (e_known_size e) (e_refetch e) (e_gap e) offset data v in
   Inv (tasks w) (uploads w) (writeback_pending w) (<[b := v']> (heap w)) (<[h_path hd := b]> (off_mode_buffers w))
     (handles w) (backend w) g1) ->
  inv (write mode salt bsize e h offset data w) g1.
Proof.
  intros Hi Hh Hb Hv Hi1. unfold write. rewrite Hh. unfold write_local.
  change (off_mode mode) with true. rewrite Hb, Hv.
  set (v' := FileOps.off_mode_splice _ _ _ _ _ _) in *.
  assert (default b (off_mode_buffers w !! h_path hd) = b) as ->.
  { destruct (inv_handle _ _ _ _ _ _ _ _ Hi h hd Hh) as (i & Hi' & _ & _ & Hj & _).
    assert (i = b) as -> by congruence.
    destruct (off_mode_buffers w !! h_path hd) as [j|] eqn:Ej; [by apply Hj|done]. }
  apply alter_handles_inv; [|by intros].
  set (w1 := set_buffers _ _ w). assert (inv w1 g1) as Hw1 by exact Hi1.
  case_test; [|done]. apply enqueue_inv; [done|]. cbn. by rewrite lookup_insert_eq.
Qed.

Lemma enqueue_pending alive t w :
  bool_decide (remote_path t ∈ writeback_pending w) || alive = true ->
  remote_path t ∈ writeback_pending (fst (enqueue alive t w)).
Proof.
  unfold enqueue. case_bool_decide; [done|]. destruct alive; cbn; [set_solver|done].
Qed.

(** What [flush] and [release] find in a dirty off-mode handle. *)
Lemma handle_payload w g h hd : inv w g -> handles w !! h = Some hd ->
  h_has_fd hd = false /\ exists d, payload_of mode hd w = Some d /\
    forall d', written g !! h_path hd = Some d' -> d = d'.
Proof.
  intros Hi Hh. destruct (inv_handle _ _ _ _ _ _ _ _ Hi h hd Hh) as (i & Hb & Ho & Hf & _ & Hw).
  split; [done|]. unfold payload_of. change (off_mode mode) with true. rewrite Hb. cbn.
  destruct (proj2 (inv_owner _ _ _ _ _ _ _ _ Hi i)) as [d Hd]; [by eauto|]. cbn in Hd.
  exists d. split; [done|]. intros d' Hd'. specialize (Hw d' Hd'). cbn in Hw. congruence.
Qed.

(** The shared half of [flush] and [release]. *)
Lemma hand_over_inv alive i p d delay w g : inv w g ->
  (forall d', written g !! p = Some d' -> d = d') ->
  let waiting := bool_decide (p ∈ writeback_pending w) in
  inv (fst (enqueue alive (fresh_task mode salt bsize i p (Some d) delay) w))
    (g_flush p (negb waiting && alive) (waiting || alive) g).
Proof.
  intros Hi Hd waiting. set (t := fresh_task _ _ _ _ _ _ _).
  apply (inv_handed (enqueue_inv alive t w g Hi ltac:(intros d' _ Hd'; cbn; f_equal; auto))).
  - exact (enqueue_pending alive t w).
  - intros H. apply (enqueue_pending alive t w). change (waiting || alive = true).
    by destruct waiting, alive.
Qed.

Lemma flush_inv now alive ok1 ok2 delay h hd w g : inv w g ->
  handles w !! h = Some hd -> h_dirty hd = true ->
  let waiting := bool_decide (h_path hd ∈ writeback_pending w) in
  inv (fst (flush mode salt bsize now alive ok1 ok2 delay h w))
    (g_flush (h_path hd) (negb waiting && alive) (waiting || alive) g).
Proof.
  intros Hi Hh Hd waiting. unfold flush. rewrite Hh, Hd.
  destruct (handle_payload w g h hd Hi Hh) as (-> & d & -> & Hw). cbn [andb].
  change (off_mode mode) with true. cbn [negb]. rewrite bool_decide_eq_true_2 by eauto.
  pose proof (hand_over_inv alive (h_ino hd) (h_path hd) d delay w g Hi Hw) as H.
  destruct (enqueue _ _ _) as [w' handed]. cbn in H |- *. destruct handed; [|done].
  apply alter_handles_inv; [done|by intros].
Qed.

Lemma release_handle_inv now alive ok1 ok2 caching delay h hd w g : inv w g ->
  handles w !! h = Some hd -> h_dirty hd = true ->
  let waiting := bool_decide (h_path hd ∈ writeback_pending w) in
  inv (fst (release mode salt bsize now alive ok1 ok2 caching delay h w))
    (g_flush (h_path hd) (negb waiting && alive) (waiting || alive) g).
Proof.
  intros Hi Hh Hd waiting. unfold release. rewrite Hh, Hd.
  destruct (handle_payload w g h hd Hi Hh) as (-> & d & -> & Hw). cbn [andb].
  rewrite bool_decide_eq_false_2 by done. cbn [andb negb orb fst].
  apply delete_handle_inv. by apply hand_over_inv.
Qed.

Lemma step_inv_off s s' : step s s' -> sys_inv s -> sys_inv s'.
Proof.
  intros [] Hi; change (sys_inv (mk_sys ?w ?g)) with (inv w g) in *.
  - apply open_inv; auto.
  - apply open_inv; [by apply (inv_forget Hi)|done..|]. left. apply lookup_delete_eq.
  - eapply write_inv; [done..|]. apply (inv_write Hi h); [done|done|]. intros u Hu Hph Hp. apply H2. by exists u.
  - eapply write_inv; [done..|]. apply (inv_write_unrecorded (inv_forget Hi (h_path hd)) h); [done|done|]. apply lookup_delete_eq.
  - by apply flush_inv.
  - by apply release_handle_inv.
  - unfold release. rewrite H, H0. destruct caching; [done|]. by apply delete_handle_inv.
  - done.
  - by apply drain_inv.
  - by apply recv_inv.
  - by eapply dequeue_inv.
  - by eapply vanish_inv.
  - by eapply failed_inv.
  - by eapply ok_inv.
  - by eapply confirm_inv.
Qed.

(** A fresh mount over an arbitrary backend. *)
Definition init (bk : gmap string bytes) (fs : gmap string file) : sys :=
  mk_sys (mk_world [] [] [] 0 ∅ ∅ ∅ ∅ fs ∅ bk ∅) (mk_ghost ∅ ∅ ∅ ∅ ∅).

Lemma off_init_inv bk fs : sys_inv (init bk fs).
Proof.
  constructor; cbn; try (by intros; set_solver); try (by apply NoDup_nil_2); intros *;
    rewrite ?lookup_empty; done.
Qed.

Lemma reachable_inv bk fs s : rtc step (init bk fs) s -> sys_inv s.
Proof. apply rtc_invariant; [apply off_init_inv|]. intros s1 s2 H1 H2. by eapply step_inv_off. Qed.


End OffMode.

(** A handle is opened on a missing object, written and flushed. *)
Definition demo_env : write_env := mk_write_env 0 true 0 0 None None false true None.
Definition demo_open : sys :=
  let s := init ∅ ∅ in
  mk_sys (off_mode_open None 0 7 1 "f" (wd s)) (g_open "f" 0 (wd s) (gh s)).
Definition demo_written : sys :=
  mk_sys (write PathHash.Off 0 0 demo_env 1 0 (as_bytes "hi") (wd demo_open))
    (g_write "f" (as_bytes "hi") (gh demo_open)).
Definition demo_flushed : sys :=
  mk_sys (fst (flush PathHash.Off 0 0 0 true true true 0 1 (wd demo_written)))
    (g_flush "f" true true (gh demo_written)).


End OffMode.

(** ** Any mode: arbitrary interleavings as lists of operations *)
Module Traces.
Import Sidecar Worker.

Section Traces.
Context (mode : PathHash.CacheMode) (salt spawn_delay bsize : Z).

(** [OHandle] stands for [open]/[create], [ODisk] for the disk pool, eviction
    and anything else that touches the cache directory. *)
Inductive op :=
| OHandle (h : Z) (hd : handle)
| OOpen (fetch : option bytes) (id i h : Z) (p : string)
| OWrite (e : write_env) (h offset : Z) (data : bytes)
| OFlush (now : Z) (alive ok1 ok2 : bool) (delay h : Z)
| ORelease (now : Z) (alive ok1 ok2 caching : bool) (delay h : Z)
| ODisk (fs : gmap string file) (ix : gmap (string * option Z) (Z * Z))
| ODrain (now : Z)
| ORecv (now : Z)
| ODequeue (now : Z) (k : nat)
| OFailed (landed : bool) (k : nat)
| OOk (now : Z) (k : nat)
| OConfirm (k : nat)
| OForget (p : string)
| OUnlink (deleted : bool) (size : Z) (p : string).

Definition apply (w : world) (o : op) : world :=
  match o with
  | OHandle h hd => set_handles (<[h := hd]> (handles w)) w
  | OOpen fetch id i h p => off_mode_open fetch id i h p w
  | OWrite e h offset data => write mode salt bsize e h offset data w
  | OFlush now alive ok1 ok2 delay h => fst (flush mode salt bsize now alive ok1 ok2 delay h w)
  | ORelease now alive ok1 ok2 caching delay h =>
      fst (release mode salt bsize now alive ok1 ok2 caching delay h w)
  | ODisk fs ix => set_disk fs ix w
  | ODrain now => drain spawn_delay now w
  | ORecv now => recv_idle spawn_delay now w
  | ODequeue now k => dequeue now k w
  | OFailed landed k => attempt_failed landed k w
  | OOk now k => attempt_ok salt now k w
  | OConfirm k => confirm salt k w
  | OForget p => forget_path p w
  | OUnlink deleted size p => unlink_path salt deleted size p w
  end.
Definition run (w : world) (ops : list op) : world := foldl apply w ops.

Definition tasks (w : world) : list WritebackTask :=
  chan w ++ map snd (queue w) ++ map u_task (uploads w).

(** *** What an operation may do to the pipeline

    Every task after an operation was there before, is a copy for the same
    path of one that was, or is for a path that was not pending; and the
    backend changes only at paths of uploads. *)
Definition pipeline_ok (w w' : world) : Prop :=
  (forall t', t' ∈ tasks w' ->
     (exists t, t ∈ tasks w /\ remote_path t = remote_path t') \/ remote_path t' ∉ writeback_pending w) /\
  (forall p, p ∈ writeback_pending w ->
     p ∈ writeback_pending w' \/ exists t, t ∈ tasks w /\ remote_path t = p) /\
  (forall p, backend w' !! p = backend w !! p \/ exists t, t ∈ tasks w /\ remote_path t = p).

(** The components of the world [pipeline_ok] reads. *)
Definition pipe (w : world) := (chan w, queue w, uploads w, writeback_pending w, backend w).

Lemma pipeline_ok_pipe w w' w'' : pipe w' = pipe w'' -> pipeline_ok w w' -> pipeline_ok w w''.
Proof. unfold pipeline_ok, tasks. by intros [= -> -> -> -> ->]. Qed.

Lemma pipeline_ok_refl w : pipeline_ok w w.
Proof. split_and!; eauto. Qed.

Lemma pipeline_ok_trivial w w' : pipe w = pipe w' -> pipeline_ok w w'.
Proof. intros E. apply (pipeline_ok_pipe w w); [done|]. apply pipeline_ok_refl. Qed.

Lemma pipeline_ok_enqueue alive t w w1 : pipe w = pipe w1 -> pipeline_ok w (fst (enqueue alive t w1)).
Proof.
  intros E. unfold enqueue. injection E as Ec Eq Eu Ep Eb.
  case_bool_decide as Hp; [|destruct alive]; cbn [fst].
  - apply pipeline_ok_trivial. unfold pipe. congruence.
  - unfold pipeline_ok, tasks. cbn. rewrite <- Ec, <- Eq, <- Eu, <- Ep, <- Eb. rewrite <- Ep in Hp.
    split_and!; [|set_solver|eauto]. intros t'. rewrite !elem_of_app, list_elem_of_singleton.
    intros [[H| ->]|[H|H]]; [left; exists t'; rewrite !elem_of_app; auto|by right| |];
      left; exists t'; rewrite !elem_of_app; auto.
  - apply pipeline_ok_trivial. unfold pipe. congruence.
Qed.

(** Tasks only move, or come back as copies. *)
Lemma pipeline_ok_tasks w w' :
  (forall t', t' ∈ tasks w' -> exists t, t ∈ tasks w /\ remote_path t = remote_path t') ->
  (forall p, p ∈ writeback_pending w -> p ∈ writeback_pending w' \/ exists t, t ∈ tasks w /\ remote_path t = p) ->
  (forall p, backend w' !! p = backend w !! p \/ exists t, t ∈ tasks w /\ remote_path t = p) ->
  pipeline_ok w w'.
Proof. intros H1 H2 H3. split_and!; [|done|done]. intros t' Ht'. left. auto. Qed.

Lemma write_local_pipe e hd offset data w : pipe (fst (write_local mode salt e hd offset data w)) = pipe w.
Proof.
  unfold write_local. repeat first [case_match|done].
Qed.

Lemma write_pipeline e h offset data w : pipeline_ok w (write mode salt bsize e h offset data w).
Proof.
  unfold write. destruct (handles w !! h) as [hd|]; [|apply pipeline_ok_refl].
  pose proof (write_local_pipe e hd offset data w) as E.
  destruct (write_local mode salt e hd offset data w) as [w1 continue]. cbn [fst] in E.
  destruct continue; [|by apply pipeline_ok_trivial].
  eapply (pipeline_ok_pipe w (if cache_exists salt w1 (h_path hd) then _ else _)); [reflexivity|].
  case_test; [by apply pipeline_ok_enqueue|by apply pipeline_ok_trivial].
Qed.

Lemma flush_pipeline now alive ok1 ok2 delay h w :
  pipeline_ok w (fst (flush mode salt bsize now alive ok1 ok2 delay h w)).
Proof.
  unfold flush. destruct (handles w !! h) as [hd|]; [|apply pipeline_ok_refl].
  destruct (h_dirty hd); [|apply pipeline_ok_refl]. case_test; [apply pipeline_ok_refl|].
  destruct (if off_mode mode then _ else _); [|by apply pipeline_ok_trivial].
  set (w1 := if off_mode mode then w else _). set (t := fresh_task _ _ _ _ _ _ _).
  assert (E : pipe w = pipe w1) by (unfold w1, write_sidecar; by repeat case_match).
  pose proof (pipeline_ok_enqueue alive t w w1 E) as H. destruct (enqueue alive t w1) as [w2 handed].
  cbn [fst] in *. destruct handed; [|done]. by apply (pipeline_ok_pipe w w2).
Qed.

Lemma release_pipeline now alive ok1 ok2 caching delay h w :
  pipeline_ok w (fst (release mode salt bsize now alive ok1 ok2 caching delay h w)).
Proof.
  unfold release. destruct (handles w !! h) as [hd|]; [|apply pipeline_ok_refl].
  destruct (h_dirty hd).
  - case_test; [apply pipeline_ok_refl|]. cbn [fst].
    set (w1 := if bool_decide _ && _ then _ else w). set (t := fresh_task _ _ _ _ _ _ _).
    assert (E : pipe w = pipe w1) by (unfold w1, write_sidecar; by repeat case_match).
    eapply (pipeline_ok_pipe w (if _ : bool then fst (enqueue alive t w1) else w1)); [reflexivity|].
    case_test; [by apply pipeline_ok_enqueue|by apply pipeline_ok_trivial].
  - destruct caching; by apply pipeline_ok_trivial.
Qed.

Lemma elem_of_remove_nth {A} (l : list A) k x : x ∈ remove_nth k l -> x ∈ l.
Proof.
  unfold remove_nth. rewrite elem_of_app. intros [H|H].
  - rewrite <- (take_drop k l). rewrite elem_of_app. by left.
  - rewrite <- (take_drop (S k) l). rewrite elem_of_app. by right.
Qed.

Lemma elem_of_map {A B} (f : A -> B) (l : list A) y : y ∈ map f l <-> exists x, y = f x /\ x ∈ l.
Proof. apply list_elem_of_fmap. Qed.

Lemma upload_task k u w : uploads w !! k = Some u -> u_task u ∈ tasks w.
Proof.
  intros H. unfold tasks. rewrite !elem_of_app, !elem_of_map. right. right. exists u.
  split; [done|]. by eapply list_elem_of_lookup_2.
Qed.

(** Removing one upload and sending copies of its task. *)
Lemma tasks_removed k u new w c t' : uploads w !! k = Some u ->
  (forall t, t ∈ new -> remote_path t = remote_path (u_task u)) ->
  c = chan w ++ new ->
  t' ∈ c ++ map snd (queue w) ++ map u_task (remove_nth k (uploads w)) ->
  exists t, t ∈ tasks w /\ remote_path t = remote_path t'.
Proof.
  intros Hk Hn ->. unfold tasks. rewrite !elem_of_app, !elem_of_map.
  intros [[H|H]|[H|(u' & -> & Hu)]].
  - exists t'. rewrite !elem_of_app. auto.
  - exists (u_task u). split; [by eapply upload_task|]. symmetry. auto.
  - exists t'. rewrite !elem_of_app, !elem_of_map. auto.
  - exists (u_task u'). rewrite !elem_of_app, !elem_of_map. split; [|done].
    right. right. exists u'. split; [done|]. by eapply elem_of_remove_nth.
Qed.

Lemma put_lookup p q data w : backend (put p data w) !! q = backend w !! q \/ p = q.
Proof.
  cbn. destruct (decide (p = q)); [by right|left]. by apply lookup_insert_ne.
Qed.

Lemma failed_pipeline landed k w : pipeline_ok w (attempt_failed landed k w).
Proof.
  unfold attempt_failed. destruct (uploads w !! k) as [[t data [n|]]|] eqn:Hk;
    [|apply pipeline_ok_refl..].
  set (w1 := if landed then _ else w).
  assert (E : (chan w1, queue w1, uploads w1, writeback_pending w1)
    = (chan w, queue w, uploads w, writeback_pending w)) by (unfold w1; by destruct landed).
  injection E as Ec Eq Eu Ep.
  assert (Hb : forall p, backend w1 !! p = backend w !! p \/ exists t, t ∈ tasks w /\ remote_path t = p).
  { intros p. unfold w1. destruct landed; [|by left].
    destruct (put_lookup (remote_path t) p data w) as [H|<-]; [by left|right].
    exists t. split; [by eapply (upload_task k _ w Hk)|done]. }
  case_test; [|case_test]; apply pipeline_ok_tasks; cbn; rewrite ?Ec, ?Eq, ?Eu, ?Ep; try done.
  - unfold tasks. cbn. rewrite ?Ec, ?Eq, ?Eu, (OffMode.map_insert_task _ _ _ _ _ _ Hk). eauto.
  - auto.
  - intros t'. unfold tasks at 1. cbn. rewrite ?Ec, ?Eq, ?Eu.
    by apply (tasks_removed k _ [] w _ _ Hk); [intros ? ?%elem_of_nil|rewrite app_nil_r].
  - intros p Hp. destruct (decide (p = remote_path t)) as [->|]; [|set_solver].
    right. exists t. split; [by eapply (upload_task k _ w Hk)|done].
  - intros t'. unfold tasks at 1. cbn. rewrite ?Ec, ?Eq, ?Eu.
    apply (tasks_removed k _ [next_cycle_task t] w _ _ Hk); [|done].
    intros t'' ->%list_elem_of_singleton. done.
  - auto.
Qed.

Lemma ok_pipeline now k w : pipeline_ok w (attempt_ok salt now k w).
Proof.
  unfold attempt_ok. destruct (uploads w !! k) as [[t data [n|]]|] eqn:Hk; [|apply pipeline_ok_refl..].
  set (w1 := put (remote_path t) data w). set (w2 := clean_disk t _).
  assert (E : pipe w2 = pipe w1).
  { unfold w2, clean_disk, touch_mtime. by repeat case_match. }
  injection E as Ec Eq Eu Ep Eb.
  assert (Hb : forall p, backend w2 !! p = backend w !! p \/ exists t, t ∈ tasks w /\ remote_path t = p).
  { intros p. rewrite Eb. destruct (put_lookup (remote_path t) p data w) as [H|<-]; [by left|right].
    exists t. split; [by eapply (upload_task k _ w Hk)|done]. }
  destruct (moved_on w2 (remote_path t) data) as [current|].
  - destruct (OffMode.drop_blocks_set salt (remote_path t) (set_pipe (chan w2 ++ [reupload_task t current])
      (queue w2) (remove_nth k (uploads w2)) w2)) as (fs & ix & ->).
    apply pipeline_ok_tasks; cbn; rewrite ?Ec, ?Eq, ?Eu, ?Ep; try done; [|auto].
    intros t'. unfold tasks at 1. cbn. rewrite ?Ec, ?Eq, ?Eu.
    apply (tasks_removed k _ [reupload_task t current] w _ _ Hk); [|done].
    intros t'' ->%list_elem_of_singleton. done.
  - apply pipeline_ok_tasks; cbn; rewrite ?Ec, ?Eq, ?Eu, ?Ep; try done; [|auto].
    unfold tasks. cbn. rewrite ?Ec, ?Eq, ?Eu. cbn. rewrite (OffMode.map_insert_task _ _ _ _ _ _ Hk). eauto.
Qed.

Lemma confirm_pipeline k w : pipeline_ok w (confirm salt k w).
Proof.
  unfold confirm. destruct (uploads w !! k) as [[t data [n|]]|] eqn:Hk; [apply pipeline_ok_refl| |
    apply pipeline_ok_refl].
  edestruct (OffMode.drop_blocks_set salt (remote_path t)) as (fs & ix & ->).
  apply pipeline_ok_tasks; cbn; [| |by left].
  - intros t'. unfold tasks at 1. cbn.
    by apply (tasks_removed k _ [] w _ _ Hk); [intros ? ?%elem_of_nil|rewrite app_nil_r].
  - intros p Hp. destruct (decide (p = remote_path t)) as [->|]; [|set_solver].
    right. exists t. split; [by eapply (upload_task k _ w Hk)|done].
Qed.

Lemma dequeue_pipeline now k w : pipeline_ok w (dequeue now k w).
Proof.
  unfold dequeue. destruct (queue w !! k) as [[deadline t]|] eqn:Hk; [|apply pipeline_ok_refl].
  case_test; [|apply pipeline_ok_refl].
  assert (Hq : forall t', t' ∈ map snd (remove_nth k (queue w)) -> t' ∈ map snd (queue w)).
  { intros t'. rewrite !elem_of_map. intros (x & -> & Hx). exists x. split; [done|].
    by eapply elem_of_remove_nth. }
  assert (Ht : t ∈ map snd (queue w)).
  { apply elem_of_map. exists (deadline, t). split; [done|]. by eapply list_elem_of_lookup_2. }
  case_match; apply pipeline_ok_tasks; cbn; auto; unfold tasks; cbn; intros t';
    rewrite ?map_app, ?elem_of_app; cbn; rewrite ?list_elem_of_singleton; intros H';
    exists t'; rewrite ?elem_of_app; (split; [|done]).
  - destruct H' as [?|[?|[?| ->]]]; auto.
  - destruct H' as [?|[?|?]]; auto.
Qed.

(** The path whose pending mark an operation removes from outside. *)
Definition unmarks (o : op) : option string :=
  match o with OForget p | OUnlink _ _ p => Some p | _ => None end.

Lemma apply_pipeline w o : unmarks o = None -> pipeline_ok w (apply w o).
Proof.
  destruct o; intros Ho; try done; clear Ho; cbn [apply]; try by apply pipeline_ok_trivial.
  - unfold off_mode_open, off_mode_buffer. by destruct (off_mode_buffers w !! p); apply pipeline_ok_trivial.
  - apply write_pipeline.
  - apply flush_pipeline.
  - apply release_pipeline.
  - apply pipeline_ok_tasks; cbn; auto. unfold tasks, drain. cbn. intros t'. exists t'.
    rewrite map_app, OffMode.map_snd_stamp, !elem_of_app in *. tauto.
  - unfold recv_idle. destruct (queue w) eqn:Eq, (chan w) eqn:Ec; try apply pipeline_ok_refl.
    apply pipeline_ok_tasks; cbn; auto. unfold tasks. cbn. rewrite Eq, Ec. cbn. intros t'. exists t'.
    rewrite !elem_of_cons, !elem_of_app, !elem_of_cons in *. tauto.
  - apply dequeue_pipeline.
  - apply failed_pipeline.
  - apply ok_pipeline.
  - apply confirm_pipeline.
Qed.

(** A path marked pending that no task serves. *)
Definition blocked (p : string) (w : world) : Prop :=
  p ∈ writeback_pending w /\ forall t, t ∈ tasks w -> remote_path t <> p.

Lemma apply_blocked p w o : unmarks o <> Some p -> blocked p w ->
  blocked p (apply w o) /\ backend (apply w o) !! p = backend w !! p.
Proof.
  intros Ho [Hp Hn]. destruct (unmarks o) as [q|] eqn:Eo.
  - assert (Hne : q <> p) by congruence.
    destruct o; cbn in Eo; try done; injection Eo as ->; cbn [apply]; unfold blocked, tasks.
    + cbn. split; [|done]. split; [set_solver|done].
    + unfold unlink_path. split; [|by destruct deleted; cbn; rewrite ?lookup_delete_ne by done].
      split; [destruct deleted; cbn; set_solver|by destruct deleted].
  - destruct (apply_pipeline w o Eo) as (H1 & H2 & H3). split; [split|].
    + destruct (H2 p Hp) as [|(t & Ht & E)]; [done|]. by destruct (Hn t Ht).
    + intros t' Ht' E. destruct (H1 t' Ht') as [(t & Ht & E')|Hnp]; [|congruence].
      apply (Hn t Ht). congruence.
    + destruct (H3 p) as [|(t & Ht & E)]; [done|]. by destruct (Hn t Ht).
Qed.

Lemma run_blocked p ops : forall w, Forall (fun o => unmarks o <> Some p) ops -> blocked p w ->
  blocked p (run w ops) /\ backend (run w ops) !! p = backend w !! p.
Proof.
  induction ops as [|o ops IH]; intros w Ho Hb; [done|]. inversion_clear Ho.
  destruct (apply_blocked p w o) as [Hb' E]; [done|done|]. destruct (IH (apply w o)) as [Hb'' E']; [done|done|].
  split; [done|]. unfold run in *. cbn. congruence.
Qed.

(** When the worker takes a task whose write-buffer file is gone, it drops
    the task but leaves the path marked pending: whatever happens afterwards,
    in any mode and interleaving, no task for that path is ever created again
    and its object never changes again, until the path is unlinked or its
    inode forgotten. *)
Theorem vanished_path_blocked w now k deadline t ops :
  queue w !! k = Some (deadline, t) -> deadline <= now -> load w t = None ->
  remote_path t ∈ writeback_pending w -> NoDup (map remote_path (tasks w)) ->
  Forall (fun o => unmarks o <> Some (remote_path t)) ops ->
  let w' := run (dequeue now k w) ops in
  remote_path t ∈ writeback_pending w' /\
  (forall t', t' ∈ tasks w' -> remote_path t' <> remote_path t) /\
  backend w' !! remote_path t = backend w !! remote_path t.
Proof.
  intros Hk Hd Hl Hp Hnd Ho w'. pose proof (OffMode.remove_nth_perm _ _ _ Hk) as E.
  assert (Hb : blocked (remote_path t) (dequeue now k w) /\
    backend (dequeue now k w) = backend w).
  { unfold dequeue. rewrite Hk, (proj2 (Z.leb_le _ _) Hd), Hl. split; [split; [done|]|done].
    unfold tasks. cbn. intros t' Ht' Heq.
    assert (Hnd' : NoDup (map remote_path (t :: chan w ++ map snd (remove_nth k (queue w))
      ++ map u_task (uploads w)))).
    { eapply NoDup_Permutation_proper; [|exact Hnd]. apply Permutation_map. unfold tasks.
      rewrite Permutation_middle. f_equiv.
      rewrite app_comm_cons. f_equiv. symmetry. apply (Permutation_map snd E). }
    cbn in Hnd'. apply NoDup_cons in Hnd' as [Hn _]. apply Hn. rewrite <- Heq.
    by apply (list_elem_of_fmap_2 remote_path). }
  destruct Hb as [Hb Eb]. destruct (run_blocked _ ops _ Ho Hb) as [[H1 H2] H3].
  split_and!; [done|done|]. unfold w'. by rewrite H3, Eb.
Qed.

(** *** The gauge *)
Definition is_active (u : upload) : Z := match u_phase u with Attempt _ => 1 | Confirmed => 0 end.
Definition active (us : list upload) : Z := sumZ (is_active <$> us).
(** What [PENDING_COUNT] counts too much. *)
Definition excess (w : world) : Z := PENDING_COUNT w - lenZ (queue w) - active (uploads w).
(** Re-enqueues after a cycle of five failed attempts. *)
Definition requeues (w : world) (o : op) : Z :=
  match o with
  | OFailed _ k =>
      match uploads w !! k with
      | Some (mk_upload t _ (Attempt n)) =>
          if negb (n <? 4) && negb (MAX_REENQUEUE_CYCLES <? retry_cycle t + 1) then 1 else 0
      | _ => 0
      end
  | _ => 0
  end.
Fixpoint total_requeues (w : world) (ops : list op) : Z :=
  match ops with
  | [] => 0
  | o :: ops' => requeues w o + total_requeues (apply w o) ops'
  end.

Lemma remove_nth_sum {A} (f : A -> Z) (l : list A) k x : l !! k = Some x ->
  sumZ (f <$> remove_nth k l) = sumZ (f <$> l) - f x.
Proof.
  intros Hk. unfold remove_nth. rewrite <- (take_drop_middle l k x Hk) at 3.
  rewrite !fmap_app, !sumZ_app. cbn. lia.
Qed.

Lemma remove_nth_len {A} (l : list A) k x : l !! k = Some x -> lenZ (remove_nth k l) = lenZ l - 1.
Proof.
  intros Hk. rewrite <- (take_drop_middle l k x Hk) at 2. unfold remove_nth.
  rewrite !lenZ_app. unfold lenZ. cbn. lia.
Qed.

Definition gauge (w : world) := (PENDING_COUNT w, queue w, uploads w).

Lemma excess_gauge w w' : gauge w = gauge w' -> excess w' = excess w.
Proof. unfold excess. by intros [= -> -> ->]. Qed.

Lemma gauge_enqueue alive t w : gauge (fst (enqueue alive t w)) = gauge w.
Proof. unfold enqueue. by repeat case_match. Qed.

Lemma gauge_write_local e hd offset data w :
  gauge (fst (write_local mode salt e hd offset data w)) = gauge w.
Proof. unfold write_local. repeat first [case_match|done]. Qed.

Lemma gauge_handlers w o :
  match o with
  | OWrite _ _ _ _ | OFlush _ _ _ _ _ _ | ORelease _ _ _ _ _ _ _ | OHandle _ _ | OOpen _ _ _ _ _
  | ODisk _ _ | OForget _ | OUnlink _ _ _ => gauge (apply w o) = gauge w
  | _ => True
  end.
Proof.
  destruct o; try done; cbn [apply].
  - unfold off_mode_open, off_mode_buffer. by destruct (off_mode_buffers w !! p).
  - unfold write. destruct (handles w !! h) as [hd|]; [|done].
    pose proof (gauge_write_local e hd offset data w) as E.
    destruct (write_local mode salt e hd offset data w) as [w1 []]; [|done]. cbn [fst] in E.
    case_match; [|done]. change (gauge (fst (enqueue (e_alive e)
      (fresh_task mode salt bsize (h_ino hd) (h_path hd) None (e_delay e)) w1)) = gauge w).
    by rewrite gauge_enqueue.
  - unfold flush. destruct (handles w !! h) as [hd|]; [|done].
    destruct (h_dirty hd); [|done]. case_test; [done|]. destruct (if off_mode mode then _ else _); [|done].
    set (w1 := if off_mode mode then w else _).
    assert (E : gauge w1 = gauge w) by (unfold w1, write_sidecar; by repeat case_match).
    rewrite <- E, <- (gauge_enqueue alive (fresh_task mode salt bsize (h_ino hd) (h_path hd)
      (payload_of mode hd w) delay) w1).
    destruct (enqueue _ _ _) as [w2 []]; done.
  - unfold release. destruct (handles w !! h) as [hd|]; [|done].
    destruct (h_dirty hd); [|by destruct caching]. case_test; [done|]. cbn [fst].
    set (w1 := if bool_decide _ && _ then _ else w).
    assert (E : gauge w1 = gauge w) by (unfold w1, write_sidecar; by repeat case_match).
    rewrite <- E. case_match; [|done]. change (gauge (set_handles ?h ?x)) with (gauge x).
    apply gauge_enqueue.
  - by destruct deleted.
Qed.

Lemma gauge_drop_blocks p w : gauge (drop_blocks salt p w) = gauge w.
Proof. by destruct (OffMode.drop_blocks_set salt p w) as (fs & ix & ->). Qed.

Lemma apply_excess w o : excess (apply w o) = excess w + requeues w o.
Proof.
  pose proof (gauge_handlers w o) as G.
  destruct o; try (cbn [requeues]; rewrite Z.add_0_r; by apply excess_gauge); cbn [apply requeues]; clear G.
  - unfold excess, drain. cbn [PENDING_COUNT queue uploads set_count set_pipe].
    rewrite lenZ_app. unfold lenZ. rewrite length_map. lia.
  - unfold excess, recv_idle. destruct (queue w) eqn:Eq, (chan w) eqn:Ec; rewrite ?Eq; try lia.
    cbn [PENDING_COUNT queue uploads set_count set_pipe]. unfold lenZ. cbn [length]. lia.
  - unfold dequeue. destruct (queue w !! k) as [[deadline t]|] eqn:Hk; [|lia]. case_test; [|lia].
    case_match; unfold excess, active; cbn [PENDING_COUNT queue uploads set_count set_pipe remove_sidecar
      set_disk]; rewrite (remove_nth_len _ _ _ Hk), ?fmap_app, ?sumZ_app; cbn [fmap list_fmap sumZ is_active u_phase]; lia.
  - unfold attempt_failed. destruct (uploads w !! k) as [[t data [n|]]|] eqn:Hk; [|lia..].
    set (w1 := if landed then _ else w).
    assert (E : gauge w1 = gauge w) by (unfold w1; by destruct landed). injection E as E1 E2 E3.
    assert (Hk1 : uploads w1 !! k = Some (mk_upload t data (Attempt n))) by congruence.
    destruct (n <? 4); [|destruct (MAX_REENQUEUE_CYCLES <? retry_cycle t + 1)]; cbn [negb andb];
      unfold excess, active; cbn [PENDING_COUNT queue uploads set_count set_pipe set_pending];
      rewrite ?(sumZ_fmap_insert _ _ _ _ _ Hk1), ?(remove_nth_sum _ _ _ _ Hk1), E1, E2, E3;
      cbn [is_active u_phase]; lia.
  - unfold attempt_ok. destruct (uploads w !! k) as [[t data [n|]]|] eqn:Hk; [|lia..].
    set (w2 := clean_disk t _).
    assert (E : gauge w2 = (PENDING_COUNT w - 1, queue w, uploads w)).
    { unfold w2, clean_disk, touch_mtime. by repeat case_match. }
    injection E as E1 E2 E3.
    assert (Hk2 : uploads w2 !! k = Some (mk_upload t data (Attempt n))) by congruence.
    case_match; [erewrite excess_gauge by (symmetry; apply gauge_drop_blocks)|];
      unfold excess, active; cbn [PENDING_COUNT queue uploads set_count set_pipe];
      rewrite ?(sumZ_fmap_insert _ _ _ _ _ Hk2), ?(remove_nth_sum _ _ _ _ Hk2), E1, E2, E3;
      cbn [is_active u_phase]; lia.
  - unfold confirm. destruct (uploads w !! k) as [[t data [n|]]|] eqn:Hk; [lia| |lia].
    erewrite excess_gauge by (symmetry; apply gauge_drop_blocks).
    unfold excess, active. cbn [PENDING_COUNT queue uploads set_count set_pipe set_pending set_buffers].
    rewrite (remove_nth_sum _ _ _ _ Hk). cbn [is_active u_phase]. lia.
Qed.

(** The counter [PENDING_COUNT] equals the number of queued and uploading tasks plus
    the number of re-enqueues made so far, in every interleaving: each retry
    cycle adds one that is never taken back, so after a retry the gauge of an
    idle worker stays above zero. *)
Theorem pending_count_drifts ops bk fs :
  let w0 := mk_world [] [] [] 0 ∅ ∅ ∅ ∅ fs ∅ bk ∅ in
  let w := run w0 ops in
  PENDING_COUNT w = lenZ (queue w) + active (uploads w) + total_requeues w0 ops.
Proof.
  intros w0 w. assert (H : forall ops w, excess (run w ops) = excess w + total_requeues w ops).
  { clear. induction ops as [|o ops IH]; intros w; cbn [run foldl total_requeues]; [unfold run; cbn; lia|].
    change (foldl apply (apply w o) ops) with (run (apply w o) ops). rewrite IH, apply_excess. lia. }
  specialize (H ops w0). fold w in H.
  change (excess w0) with 0 in H. unfold excess in H. lia.
Qed.

End Traces.
(** The retries left to an upload: five per cycle, cycles 0 to 10. *)
Definition retries_left (t : WritebackTask) (n : Z) : Z :=
  5 * (MAX_REENQUEUE_CYCLES - retry_cycle t) + (5 - n).

(** Every failed attempt uses up exactly one of the 55 attempts of a task
    (eleven cycles of five): the same upload goes to its next attempt, or its
    task is re-sent for the next cycle, until the last failure removes the
    upload, re-sends nothing and clears the pending mark. *)
Theorem attempt_failed_budget landed k t data n w :
  uploads w !! k = Some (mk_upload t data (Attempt n)) ->
  0 <= n < 5 -> 0 <= retry_cycle t <= MAX_REENQUEUE_CYCLES ->
  let w' := attempt_failed landed k w in
  (retries_left t n = 1 /\ chan w' = chan w /\ lenZ (uploads w') = lenZ (uploads w) - 1 /\
   remote_path t ∉ writeback_pending w') \/
  (uploads w' !! k = Some (mk_upload t data (Attempt (n + 1))) /\ chan w' = chan w /\
   retries_left t (n + 1) = retries_left t n - 1) \/
  (chan w' = chan w ++ [next_cycle_task t] /\ lenZ (uploads w') = lenZ (uploads w) - 1 /\
   retries_left (next_cycle_task t) 0 = retries_left t n - 1).
Proof.
  intros Hk Hn Hc w'. unfold w', attempt_failed, retries_left. rewrite Hk.
  set (w1 := if landed then _ else w).
  assert (E : (chan w1, uploads w1) = (chan w, uploads w)) by (unfold w1; by destruct landed).
  injection E as Ec Eu. unfold MAX_REENQUEUE_CYCLES in *.
  destruct (Z.ltb_spec n 4); [|destruct (Z.ltb_spec 10 (retry_cycle t + 1))];
    cbn [chan uploads set_pipe set_count set_pending writeback_pending retry_cycle next_cycle_task];
    rewrite ?Ec, ?Eu, ?(remove_nth_len _ _ _ Hk).
  - right. left. split_and!; [|done|lia]. apply list_lookup_insert_eq. by eapply lookup_lt_Some.
  - left. split_and!; [lia|done|done|set_solver].
  - right. right. split_and!; [done|done|lia].
Qed.

Definition demo_task : WritebackTask := mk_task 7 "f" "buf" (Some []) false 0 0 0.
Lemma attempt_failed_budget_witness :
  let w := mk_world [] [] [mk_upload demo_task [] (Attempt 4)] 1 {["f"%string]} ∅ ∅ ∅ ∅ ∅ ∅ ∅ in
  retries_left demo_task 4 = 51 /\ chan (attempt_failed false 0 w) = [next_cycle_task demo_task].
Proof.
  intros w. split; [done|].
  destruct (attempt_failed_budget false 0 demo_task [] 4 w) as [(H & _)|[(H & _)|(H & _)]];
    [reflexivity|lia|vm_compute; split; discriminate|vm_compute in H; discriminate H
    |vm_compute in H; discriminate H|exact H].
Defined.

(** *** Interleavings that lose bytes *)
Definition idle (bk : gmap string bytes) (fs : gmap string file) : world :=
  mk_world [] [] [] 0 ∅ ∅ ∅ ∅ fs ∅ bk ∅.
Definition env0 : write_env := mk_write_env 0 true 0 0 None None false true None.
Definition upload_cycle : list op := [ODrain 0; ODequeue 0 0; OOk 0 0; OConfirm 0].

(** Off mode.  A write and flush that land between the worker's comparison
    with the pending buffer and its removal of the pending mark are lost: both
    calls succeed, the handle is clean, nothing is left to upload, and the
    object still holds the older bytes. *)
Theorem completion_race_loses_write :
  let w := run PathHash.Off 0 0 0 (idle ∅ ∅)
    ([OOpen None 0 7 1 "f"; OWrite env0 1 0 (as_bytes "A"); OFlush 0 true true true 0 1;
      ODrain 0; ODequeue 0 0; OOk 0 0;
      OWrite env0 1 0 (as_bytes "B"); OFlush 0 true true true 0 1;
      OConfirm 0]) in
  heap w !! 0 = Some (as_bytes "B") /\ h_dirty <$> handles w !! 1 = Some false /\
  tasks w = [] /\ writeback_pending w = ∅ /\ backend w !! "f"%string = Some (as_bytes "A").
Proof. vm_compute. done. Qed.

(** Off mode, two handles.  After an upload completed, the first handle
    keeps a buffer that is no longer registered; a second [open] registers a
    new one.  A write through the first handle is uploaded, found to differ
    from the second handle's untouched buffer, and overwritten with the old
    content. *)
Theorem split_buffer_reverts :
  let w := run PathHash.Off 0 0 0 (idle ∅ ∅)
    ([OOpen None 0 7 1 "f"; OWrite env0 1 0 (as_bytes "A"); OFlush 0 true true true 0 1]
     ++ upload_cycle
     ++ [OOpen (Some (as_bytes "A")) 1 7 2 "f";
         OWrite env0 1 0 (as_bytes "X"); OFlush 0 true true true 0 1;
         ODrain 0; ODequeue 0 0; OOk 0 0]
     ++ upload_cycle) in
  heap w !! 0 = Some (as_bytes "X") /\ h_dirty <$> handles w !! 1 = Some false /\
  tasks w = [] /\ writeback_pending w = ∅ /\ backend w !! "f"%string = Some (as_bytes "A").
Proof. vm_compute. done. Qed.

(** Disk modes.  A write and flush while an older upload of the path is in
    flight enqueue nothing, and the completion of that upload removes the
    sidecar: the handle is clean, the newer bytes are only in the cache file,
    nothing will upload them and a restart does not recover them. *)
Theorem disk_mode_loses_update :
  let cpath := PathHash.write_buffer_path 0 "f" in
  let w := run PathHash.Writes 0 0 0
    (idle ∅ {[ cpath := mk_file [] 0 true ]})
    ([OHandle 1 (mk_handle 7 "f" true None false);
      OWrite env0 1 0 (as_bytes "A"); ODrain 0; ODequeue 0 0;
      OWrite env0 1 1 (as_bytes "B"); OFlush 0 true true true 0 1;
      OOk 0 0; OConfirm 0]) in
  file_data <$> w_fs w !! cpath = Some (as_bytes "AB") /\
  w_fs w !! sidecar_of 0 "f" = None /\ h_dirty <$> handles w !! 1 = Some false /\
  tasks w = [] /\ writeback_pending w = ∅ /\ backend w !! "f"%string = Some (as_bytes "A").
Proof. vm_compute. done. Qed.

(** [forget] removes the pending mark of a path whose upload is in flight.
    The next write is then uploaded beside the old upload; when the old one
    finishes last, the object ends with the old bytes although both were
    flushed in order. *)
Theorem forget_reorders_uploads :
  let w := run PathHash.Off 0 0 0 (idle ∅ ∅)
    ([OOpen None 0 7 1 "f"; OWrite env0 1 0 (as_bytes "A"); OFlush 0 true true true 0 1;
      ORelease 0 true true true false 0 1; ODrain 0; ODequeue 0 0;
      OForget "f"; OOpen None 1 8 2 "f"; OWrite env0 2 0 (as_bytes "B"); OFlush 0 true true true 0 2;
      ODrain 0; ODequeue 0 0; OOk 0 1; OConfirm 1; OOk 0 0; OConfirm 0]) in
  heap w !! 0 = Some (as_bytes "B") /\ h_dirty <$> handles w !! 2 = Some false /\
  tasks w = [] /\ writeback_pending w = ∅ /\ backend w !! "f"%string = Some (as_bytes "A").
Proof. vm_compute. done. Qed.

(** Off mode.  [unlink] of a file whose upload is queued does not cancel
    it: the task carries its bytes and the object reappears after the delete. *)
Theorem unlink_resurrects_object :
  let w0 := run PathHash.Off 0 0 0 (idle ∅ ∅)
    [OOpen None 0 7 1 "f"; OWrite env0 1 0 (as_bytes "A"); OFlush 0 true true true 0 1;
     ORelease 0 true true true false 0 1; OUnlink true 1 "f"] in
  let w := run PathHash.Off 0 0 0 w0 upload_cycle in
  backend w0 !! "f"%string = None /\ writeback_pending w0 = ∅ /\
  backend w !! "f"%string = Some (as_bytes "A").
Proof. vm_compute. done. Qed.

Lemma vanished_path_blocked_witness :
  let t := mk_task 7 "f" "buf" None false 0 0 0 in
  let w := mk_world [] [(0, t)] [] 1 {["f"%string]} ∅ ∅ ∅ ∅ ∅ ∅ ∅ in
  let ops := [OHandle 1 (mk_handle 7 "f" true None true); OFlush 0 true true true 0 1] in
  "f"%string ∈ writeback_pending (run PathHash.Writes 0 0 0 (dequeue 0 0 w) ops).
Proof.
  intros t w ops.
  destruct (vanished_path_blocked PathHash.Writes 0 0 0 w 0 0 0 t ops) as (H & _ & _);
    [reflexivity|lia|reflexivity| | | |exact H].
  - cbn. by apply elem_of_singleton.
  - cbn. apply NoDup_singleton.
  - by repeat constructor.
Defined.

End Traces.
