(* ===== verification/Inodes.v ===== *)
(** * Inodes: the inode table of src/src/lib.rs

    The map from inode numbers to entries, the reverse map from paths, the
    mirrored kernel reference counts, and the operations that maintain them:
    [alloc_ino], [alloc_ino_with_mtime], [find_ino_by_path],
    [bump_lookup_count], [forget], and the inode parts of [unlink]/[rmdir] and
    [rename].

    Calls from different threads interleave as sequences of operations. *)

From Stdlib Require Import ZArith Lia Strings.String Strings.Ascii.
From S2P Require Import Prelude Util.

Module Inodes.

Inductive FileType := RegularFile | Directory | Symlink.
#[export] Instance FileType_eq_dec : EqDecision FileType.
Proof. solve_decision. Defined.

Record InodeEntry := mk_inode { path : string; kind : FileType; size : Z; mtime : option Z }.

Record table := mk_table {
  inodes : gmap Z InodeEntry;
  path_to_ino : gmap string Z;
  lookup_count : gmap Z Z;
  NEXT_INO : Z
}.
Definition empty_table : table := mk_table ∅ ∅ ∅ 2.

Definition resolve (t : table) (ino : Z) : option InodeEntry := inodes t !! ino.

(** [alloc_ino] ([mtime = None]) and [alloc_ino_with_mtime]. *)
Definition alloc (mt : option Z) (p : string) (k : FileType) (sz : Z) (t : table) : table * Z :=
  match path_to_ino t !! p with
  | Some existing =>
      if bool_decide (is_Some (inodes t !! existing)) then (t, existing)
      else
        let ino := NEXT_INO t in
        (mk_table
           (match inodes t !! ino with
            | Some v => <[ino := mk_inode (path v) (kind v) sz (mtime v)]> (inodes t)
            | None => <[ino := mk_inode p k sz mt]> (inodes t)
            end)
           (<[p := ino]> (delete p (path_to_ino t))) (lookup_count t) (wrap64 (ino + 1)), ino)
  | None =>
      let ino := NEXT_INO t in
      (mk_table
         (match inodes t !! ino with
          | Some v => <[ino := mk_inode (path v) (kind v) sz (mtime v)]> (inodes t)
          | None => <[ino := mk_inode p k sz mt]> (inodes t)
          end)
         (<[p := ino]> (path_to_ino t)) (lookup_count t) (wrap64 (ino + 1)), ino)
  end.
Definition alloc_ino (p : string) (k : FileType) (sz : Z) : table -> table * Z := alloc None p k sz.
Definition alloc_ino_with_mtime (p : string) (k : FileType) (sz mt : Z) : table -> table * Z :=
  alloc (Some mt) p k sz.

Definition set_reverse (m : gmap string Z) (t : table) : table :=
  mk_table (inodes t) m (lookup_count t) (NEXT_INO t).
Definition set_inodes (m : gmap Z InodeEntry) (t : table) : table :=
  mk_table m (path_to_ino t) (lookup_count t) (NEXT_INO t).
Definition set_counts (m : gmap Z Z) (t : table) : table :=
  mk_table (inodes t) (path_to_ino t) m (NEXT_INO t).

(** [find_ino_by_path]: the reverse map, else a scan that repairs it. *)
Definition has_path (p : string) (kv : Z * InodeEntry) : bool := bool_decide (path (snd kv) = p).
Definition find_ino_by_path (p : string) (t : table) : table * option Z :=
  let fast :=
    match path_to_ino t !! p with
    | Some ino =>
        match inodes t !! ino with
        | Some e => if bool_decide (path e = p) then Some ino else None
        | None => None
        end
    | None => None
    end in
  match fast with
  | Some ino => (t, Some ino)
  | None =>
      match List.find (has_path p) (map_to_list (inodes t)) with
      | Some (ino, _) => (set_reverse (<[p := ino]> (path_to_ino t)) t, Some ino)
      | None => (set_reverse (delete p (path_to_ino t)) t, None)
      end
  end.

Definition bump_lookup_count (ino : Z) (t : table) : table :=
  if ino =? 1 then t
  else
    set_counts
      (<[ino := match lookup_count t !! ino with Some c => saturating_add c 1 | None => 1 end]>
         (lookup_count t)) t.

(** The reference count half of [forget]: the new table and whether the inode
    state is dropped. *)
Definition forget_count (ino nlookup : Z) (t : table) : table * bool :=
  match lookup_count t !! ino with
  | Some cur =>
      if nlookup <? cur then (set_counts (<[ino := cur - nlookup]> (lookup_count t)) t, false)
      else (set_counts (delete ino (lookup_count t)) t, true)
  | None => (t, true)
  end.
Definition drop_state (ino : Z) (t : table) : table :=
  match resolve t ino with
  | Some e =>
      let t := set_inodes (delete ino (inodes t)) t in
      if bool_decide (kind e = Symlink) then t
      else
        match path_to_ino t !! path e with
        | Some current => if current =? ino then set_reverse (delete (path e) (path_to_ino t)) t else t
        | None => t
        end
  | None => t
  end.
Definition forget (ino nlookup : Z) (t : table) : table :=
  if ino =? 1 then t
  else
    let '(t, drop) := forget_count ino nlookup t in
    if drop then drop_state ino t else t.

(** The inode part of [unlink] and [rmdir]. *)
Definition remove_path (p : string) (t : table) : table :=
  let '(t, found) := find_ino_by_path p t in
  let t := match found with Some ino => set_inodes (delete ino (inodes t)) t | None => t end in
  set_reverse (delete p (path_to_ino t)) t.

(** The inode part of [rename]. *)
Definition rename_inode (src dst : string) (t : table) : table :=
  let '(t, found) := find_ino_by_path src t in
  match found with
  | Some ino =>
      let t := set_inodes (alter (fun v => mk_inode dst (kind v) (size v) (mtime v)) ino (inodes t)) t in
      set_reverse (<[dst := ino]> (delete src (path_to_ino t))) t
  | None => t
  end.

(** ** Sequences of operations *)
Inductive op :=
| OAlloc (mt : option Z) (p : string) (k : FileType) (sz : Z)
| OFind (p : string)
| OBump (ino : Z)
| OForget (ino nlookup : Z)
| ORemove (p : string)
| ORename (src dst : string).
Definition apply (t : table) (o : op) : table :=
  match o with
  | OAlloc mt p k sz => fst (alloc mt p k sz t)
  | OFind p => fst (find_ino_by_path p t)
  | OBump ino => bump_lookup_count ino t
  | OForget ino n => forget ino n t
  | ORemove p => remove_path p t
  | ORename src dst => rename_inode src dst t
  end.
Definition run (t : table) (ops : list op) : table := foldl apply t ops.

(** Every number handed out lies below [NEXT_INO], the reverse map points at
    entries of its path, and fewer than 2^64 numbers have been handed out. *)
Record wf (bound : Z) (t : table) : Prop := {
  wf_next : 2 <= NEXT_INO t <= bound;
  wf_bound : bound <= U64_MAX;
  wf_inodes : forall i e, inodes t !! i = Some e -> 2 <= i < NEXT_INO t;
  wf_reverse_range : forall p i, path_to_ino t !! p = Some i -> 2 <= i < NEXT_INO t;
  wf_reverse : forall p i e, path_to_ino t !! p = Some i -> inodes t !! i = Some e -> path e = p
}.

Lemma wf_empty bound : 2 <= bound <= U64_MAX -> wf bound empty_table.
Proof. intros H. constructor; cbn; try lia; intros *; by rewrite lookup_empty. Qed.

(** A fresh allocation. *)
Lemma alloc_cases mt p k sz t bound : wf bound t ->
  (exists i e, alloc mt p k sz t = (t, i) /\ path_to_ino t !! p = Some i /\ inodes t !! i = Some e) \/
  ((forall i, path_to_ino t !! p = Some i -> inodes t !! i = None) /\ inodes t !! NEXT_INO t = None /\
   alloc mt p k sz t =
     (mk_table (<[NEXT_INO t := mk_inode p k sz mt]> (inodes t)) (<[p := NEXT_INO t]> (path_to_ino t))
        (lookup_count t) (wrap64 (NEXT_INO t + 1)), NEXT_INO t)).
Proof.
  intros []. assert (Hn : inodes t !! NEXT_INO t = None).
  { destruct (inodes t !! NEXT_INO t) eqn:E; [|done]. apply wf_inodes0 in E. lia. }
  unfold alloc. destruct (path_to_ino t !! p) as [i|] eqn:Ep.
  - case_bool_decide as Hi.
    + left. destruct Hi as [e He]. eauto 6.
    + right. apply eq_None_not_Some in Hi. rewrite Hn. split_and!; [congruence|done|].
      by rewrite insert_delete_eq.
  - right. rewrite Hn. split_and!; [done|done|done].
Qed.

Lemma wf_weaken b b' t : b <= b' <= U64_MAX -> wf b t -> wf b' t.
Proof. intros H []. constructor; try done; lia. Qed.

Lemma wf_alloc mt p k sz t b : wf b t -> b + 1 <= U64_MAX -> wf (b + 1) (fst (alloc mt p k sz t)).
Proof.
  intros Hw Hb. pose proof (alloc_cases mt p k sz t b Hw) as [(i & e & -> & _)|(Hs & Hn & ->)].
  - apply (wf_weaken b); [lia|done].
  - destruct Hw. assert (Ew : wrap64 (NEXT_INO t + 1) = NEXT_INO t + 1)
      by (apply wrap64_small; unfold is_u64; lia).
    constructor; cbn; rewrite ?Ew; try lia.
    + intros i e [[<- <-]|[_ He]]%lookup_insert_Some; [lia|]. apply wf_inodes0 in He. lia.
    + intros q i [[<- <-]|[_ Hi]]%lookup_insert_Some; [lia|]. apply wf_reverse_range0 in Hi. lia.
    + intros q i e [[<- <-]|[Hq Hi]]%lookup_insert_Some He.
      * rewrite lookup_insert_eq in He. by injection He as <-.
      * specialize (wf_reverse_range0 q i Hi). rewrite lookup_insert_ne in He by lia. eauto.
Qed.

Lemma find_has_path p l x : List.find (has_path p) l = Some x -> x ∈ l /\ path (snd x) = p.
Proof.
  intros E. apply find_some in E as [Hin Hp]. split; [by apply list_elem_of_In|].
  unfold has_path in Hp. by case_bool_decide.
Qed.

(** What [find_ino_by_path] returns and leaves behind. *)
Lemma find_cases p t :
  let '(t', r) := find_ino_by_path p t in
  inodes t' = inodes t /\ lookup_count t' = lookup_count t /\ NEXT_INO t' = NEXT_INO t /\
  match r with
  | Some i => (exists e, inodes t !! i = Some e /\ path e = p) /\
              path_to_ino t' = <[p := i]> (path_to_ino t)
  | None => (forall i e, inodes t !! i = Some e -> path e <> p) /\
            path_to_ino t' = delete p (path_to_ino t)
  end.
Proof.
  unfold find_ino_by_path.
  set (fast := match path_to_ino t !! p with Some _ => _ | None => _ end).
  destruct fast as [i|] eqn:Ef.
  - split_and!; try done.
    + unfold fast in Ef. destruct (path_to_ino t !! p) as [j|]; [|done].
      destruct (inodes t !! j) as [e|] eqn:Ej; [|done]. case_bool_decide; [|done].
      injection Ef as ->. eauto.
    + unfold fast in Ef. destruct (path_to_ino t !! p) as [j|] eqn:Ep; [|done].
      destruct (inodes t !! j) as [e|]; [|done]. case_bool_decide; [|done]. injection Ef as ->.
      symmetry. by apply insert_id.
  - destruct (List.find _ _) as [[i e]|] eqn:E.
    + apply find_has_path in E as [Hin Hp]. apply elem_of_map_to_list in Hin.
      split_and!; try done. eauto.
    + split_and!; try done. intros i e He Hp.
      assert (Hf : has_path p (i, e) = false).
      { apply (find_none _ _ E). apply list_elem_of_In. by apply elem_of_map_to_list. }
      unfold has_path in Hf. by case_bool_decide.
Qed.

Lemma wf_find p t b : wf b t -> wf b (fst (find_ino_by_path p t)).
Proof.
  intros []. pose proof (find_cases p t) as H. destruct (find_ino_by_path p t) as [t' r].
  destruct H as (Ei & Ec & En & Hr). cbn [fst]. constructor; rewrite ?Ei, ?En; try done.
  - destruct r as [i|]; [destruct Hr as [(e & He & Hp) ->]|destruct Hr as [_ ->]]; intros q j.
    + intros [[<- <-]|[_ Hj]]%lookup_insert_Some; eauto.
    + intros [_ Hj]%lookup_delete_Some. eauto.
  - destruct r as [i|]; [destruct Hr as [(e & He & Hp) ->]|destruct Hr as [_ ->]]; intros q j e'.
    + intros [[<- <-]|[_ Hj]]%lookup_insert_Some He'; [congruence|eauto].
    + intros [_ Hj]%lookup_delete_Some. eauto.
Qed.

(** Removing entries keeps the table well-formed. *)
Lemma wf_shrink b t m r c : wf b t -> m ⊆ inodes t -> r ⊆ path_to_ino t ->
  wf b (mk_table m r c (NEXT_INO t)).
Proof.
  intros [] Hm Hr. constructor; cbn; try done.
  - intros i e He. eapply wf_inodes0, lookup_weaken; eauto.
  - intros p i Hi. eapply wf_reverse_range0, lookup_weaken; eauto.
  - intros p i e Hi He. eapply wf_reverse0; eapply lookup_weaken; eauto.
Qed.

Lemma wf_forget ino n t b : wf b t -> wf b (forget ino n t).
Proof.
  intros Hw. unfold forget. case_test; [done|].
  assert (Hcnt : exists c, fst (forget_count ino n t) = set_counts c t).
  { unfold forget_count. destruct (lookup_count t !! ino); [case_test|]; eauto.
    exists (lookup_count t). by destruct t. }
  destruct (forget_count ino n t) as [t1 drop]. destruct Hcnt as [c Ec]. cbn [fst] in Ec.
  assert (Hw1 : wf b t1) by (rewrite Ec; by apply wf_shrink).
  destruct drop; [|done]. unfold drop_state. destruct (resolve t1 ino) as [e|]; [|done].
  assert (Hd : delete ino (inodes t1) ⊆ inodes t1) by apply delete_subseteq.
  case_bool_decide; [by apply (wf_shrink b t1)|]. cbn [path_to_ino set_inodes].
  destruct (path_to_ino t1 !! path e); [case_test|]; apply (wf_shrink b t1); try done.
  apply delete_subseteq.
Qed.

Lemma wf_remove p t b : wf b t -> wf b (remove_path p t).
Proof.
  intros Hw. unfold remove_path. pose proof (wf_find p t b Hw) as Hf.
  destruct (find_ino_by_path p t) as [t1 found]. cbn [fst] in Hf.
  destruct found; apply (wf_shrink b t1); try done; apply delete_subseteq.
Qed.

Lemma wf_rename src dst t b : wf b t -> wf b (rename_inode src dst t).
Proof.
  intros Hw. unfold rename_inode. pose proof (wf_find src t b Hw) as Hf.
  pose proof (find_cases src t) as Hc. destruct (find_ino_by_path src t) as [t1 [ino|]]; [|done].
  cbn [fst] in Hf. destruct Hc as (Ei & _ & _ & (e & He & Hp) & Er). rewrite <- Ei in He.
  destruct Hf. constructor; cbn; try done.
  - intros i e' Hi. apply lookup_alter_Some in Hi as [(-> & e0 & He0 & _)|[_ Hi]]; eauto.
  - intros q i [[<- <-]|[_ [_ Hq]%lookup_delete_Some]]%lookup_insert_Some; eauto.
  - intros q i e' [[<- <-]|[_ [Hne Hq]%lookup_delete_Some]]%lookup_insert_Some Hi.
    + apply lookup_alter_Some in Hi as [(_ & e0 & _ & ->)|[? _]]; done.
    + apply lookup_alter_Some in Hi as [(<- & e0 & He0 & ->)|[_ Hi]]; [|eauto].
      exfalso. apply Hne. rewrite <- Hp. eapply wf_reverse0; eauto.
Qed.

Lemma wf_apply t o b : wf b t -> b + 1 <= U64_MAX -> wf (b + 1) (apply t o).
Proof.
  intros Hw Hb. destruct o; cbn [apply]; [by apply wf_alloc|..]; apply (wf_weaken b); try lia.
  - by apply wf_find.
  - unfold bump_lookup_count. case_test; [done|]. by apply wf_shrink.
  - by apply wf_forget.
  - by apply wf_remove.
  - by apply wf_rename.
Qed.

Lemma wf_run ops : forall t b, wf b t -> b + lenZ ops <= U64_MAX -> wf (b + lenZ ops) (run t ops).
Proof.
  induction ops as [|o ops IH]; intros t b Hw Hb.
  - unfold lenZ. cbn. by rewrite Z.add_0_r.
  - unfold lenZ in *. cbn [length] in *. rewrite Nat2Z.inj_succ in *.
    replace (b + Z.succ (Z.of_nat (length ops))) with (b + 1 + Z.of_nat (length ops)) by lia.
    apply IH; [|lia]. apply wf_apply; [done|lia].
Qed.

(** C23: after any sequence of allocations, lookups, forgets, removals and
    renames, the reverse map is consistent: it only names numbers that were
    handed out, never 0 or the root, and an entry it points to carries exactly
    that path; [find_ino_by_path] returns a number precisely when some live
    inode has the path, and that inode has it. *)
Theorem inode_table_sound ops p :
  2 + lenZ ops <= U64_MAX ->
  let t := run empty_table ops in
  (forall i, path_to_ino t !! p = Some i -> 2 <= i < NEXT_INO t) /\
  (forall i e, path_to_ino t !! p = Some i -> inodes t !! i = Some e -> path e = p) /\
  match snd (find_ino_by_path p t) with
  | Some i => exists e, inodes t !! i = Some e /\ path e = p
  | None => forall i e, inodes t !! i = Some e -> path e <> p
  end.
Proof.
  intros Hb t.
  assert (Hw : wf (2 + lenZ ops) t).
  { apply wf_run; [|done]. apply wf_empty. pose proof (lenZ_nonneg ops). lia. }
  destruct Hw. split_and!; [eauto|eauto|].
  pose proof (find_cases p t) as H. destruct (find_ino_by_path p t) as [t' [i|]]; cbn [snd]; apply H.
Qed.

Lemma inode_table_sound_witness :
  let t := run empty_table [OAlloc None "a" RegularFile 1; ORename "a" "b"] in
  snd (find_ino_by_path "b" t) = Some 2 /\ exists e, inodes t !! 2 = Some e /\ path e = "b"%string.
Proof.
  split; [reflexivity|].
  destruct (inode_table_sound [OAlloc None "a" RegularFile 1; ORename "a" "b"] "b")
    as (_ & _ & H); [vm_compute; discriminate|]. exact H.
Defined.

(** [alloc_ino] and [alloc_ino_with_mtime] give a path one number: the
    live one if it has one, else the next unused number; they register it in
    both maps, touch no other inode, and asking again returns the same number
    and changes nothing. *)
Theorem alloc_ino_spec b t mt p k sz :
  wf b t -> b + 1 <= U64_MAX ->
  let '(t', i) := alloc mt p k sz t in
  path_to_ino t' !! p = Some i /\
  (exists e, inodes t' !! i = Some e /\ path e = p) /\
  (forall j, j <> i -> inodes t' !! j = inodes t !! j) /\
  (inodes t !! i = None -> i = NEXT_INO t) /\
  (forall mt' k' sz', alloc mt' p k' sz' t' = (t', i)).
Proof.
  intros Hw Hb. pose proof (wf_alloc mt p k sz t b Hw Hb) as Hw'.
  assert (Hagain : forall t' i e, path_to_ino t' !! p = Some i -> inodes t' !! i = Some e ->
    forall mt' k' sz', alloc mt' p k' sz' t' = (t', i)).
  { intros t' i e H1 H2 mt' k' sz'. unfold alloc. rewrite H1, bool_decide_eq_true_2; [done|]. eauto. }
  pose proof (alloc_cases mt p k sz t b Hw) as [(i & e & -> & Hp & He)|(Hs & Hn & E)].
  - destruct Hw. split_and!; try done; [eauto|congruence|eauto].
  - rewrite E. cbn [path_to_ino inodes].
    assert (Hl : forall m : gmap Z InodeEntry, <[NEXT_INO t := mk_inode p k sz mt]> m !! NEXT_INO t
      = Some (mk_inode p k sz mt)) by (intros; apply lookup_insert_eq).
    split_and!; [apply lookup_insert_eq|by eauto| |done|].
    + intros j Hj. by rewrite lookup_insert_ne.
    + eapply Hagain; cbn; [apply lookup_insert_eq|apply Hl].
Qed.

Lemma alloc_ino_spec_witness :
  alloc_ino "a" RegularFile 5 (fst (alloc_ino "a" Directory 0 empty_table))
  = (fst (alloc_ino "a" Directory 0 empty_table), 2).
Proof.
  pose proof (alloc_ino_spec 2 empty_table None "a" Directory 0
    (wf_empty 2 ltac:(vm_compute; split; discriminate))) as H.
  destruct H as (_ & _ & _ & _ & H); [vm_compute; discriminate|]. apply H.
Defined.

(** *** Reference counts

    The kernel's count of an inode: one per entry returned, minus what it
    forgets; it never forgets more than it holds. *)
Fixpoint refs (i n : Z) (ops : list op) : Z :=
  match ops with
  | [] => n
  | OBump j :: ops' => refs i (if j =? i then n + 1 else n) ops'
  | OForget j m :: ops' => refs i (if j =? i then n - m else n) ops'
  | _ :: ops' => refs i n ops'
  end.
Fixpoint protocol (i n : Z) (ops : list op) : Prop :=
  match ops with
  | [] => True
  | OBump j :: ops' => protocol i (if j =? i then n + 1 else n) ops'
  | OForget j m :: ops' => (j = i -> 0 < m <= n) /\ protocol i (if j =? i then n - m else n) ops'
  | _ :: ops' => protocol i n ops'
  end.

Definition counted (i n : Z) (t : table) : Prop :=
  0 <= n /\ lookup_count t !! i = if n =? 0 then None else Some n.

Lemma drop_state_count i t : lookup_count (drop_state i t) = lookup_count t.
Proof.
  unfold drop_state. destruct (resolve t i); [|done]. case_bool_decide; [done|].
  destruct (path_to_ino _ !! _); [|done]. by case_test.
Qed.

Lemma forget_lookup_count i m t : i <> 1 ->
  lookup_count (forget i m t) =
    match lookup_count t !! i with
    | Some cur => if m <? cur then <[i := cur - m]> (lookup_count t) else delete i (lookup_count t)
    | None => lookup_count t
    end.
Proof.
  intros Hi. unfold forget. rewrite (proj2 (Z.eqb_neq i 1) Hi). unfold forget_count.
  destruct (lookup_count t !! i) as [cur|]; [case_test|]; by rewrite ?drop_state_count.
Qed.

Lemma other_counts t o : (forall i, o <> OBump i) -> (forall i m, o <> OForget i m) ->
  lookup_count (apply t o) = lookup_count t.
Proof.
  intros H1 H2. destruct o; try (by destruct (H1 ino)); try (by destruct (H2 ino nlookup)); cbn [apply].
  - unfold alloc. destruct (path_to_ino t !! p); [case_test|]; done.
  - pose proof (find_cases p t) as H. destruct (find_ino_by_path p t). by destruct H as (_ & H & _).
  - unfold remove_path. pose proof (find_cases p t) as H.
    destruct (find_ino_by_path p t) as [t1 []]; by destruct H as (_ & H & _).
  - unfold rename_inode. pose proof (find_cases src t) as H.
    destruct (find_ino_by_path src t) as [t1 []]; by destruct H as (_ & H & _).
Qed.

Lemma counted_run i ops : i <> 1 -> forall n t, counted i n t -> n + lenZ ops <= U64_MAX ->
  protocol i n ops -> counted i (refs i n ops) (run t ops).
Proof.
  intros Hi1. induction ops as [|o ops IH]; intros n t [Hn Hc] Hb Hp; [done|].
  assert (Hlen : lenZ (o :: ops) = lenZ ops + 1) by (unfold lenZ; cbn [length]; lia).
  pose proof (lenZ_nonneg ops) as Hpos. rewrite Hlen in Hb.
  assert (Hskip : (forall j, o <> OBump j) -> (forall j m, o <> OForget j m) ->
    protocol i n ops -> counted i (refs i n ops) (run (apply t o) ops)).
  { intros H1 H2 H3. apply IH; [|lia|done]. split; [done|]. by rewrite other_counts. }
  destruct o; cbn [refs protocol] in *; try (by apply Hskip).
  - apply (IH (if ino =? i then n + 1 else n)); [|case_test; lia|done]. cbn [apply].
    destruct (Z.eqb_spec ino i) as [->|Hne].
    + split; [lia|]. unfold bump_lookup_count. rewrite (proj2 (Z.eqb_neq i 1) Hi1). cbn.
      rewrite lookup_insert_eq, Hc, (proj2 (Z.eqb_neq (n + 1) 0)) by lia.
      destruct (Z.eqb_spec n 0) as [->|]; [done|]. f_equal. unfold saturating_add. lia.
    + split; [done|]. unfold bump_lookup_count. case_test; [done|]. cbn. by rewrite lookup_insert_ne.
  - destruct Hp as [Hm Hp]. apply (IH (if ino =? i then n - nlookup else n)); [|case_test; bool_props; lia|done].
    cbn [apply]. destruct (Z.eqb_spec ino i) as [->|Hne].
    + specialize (Hm eq_refl). split; [lia|]. rewrite forget_lookup_count by done.
      rewrite Hc, (proj2 (Z.eqb_neq n 0)) by lia.
      destruct (Z.ltb_spec nlookup n).
      * rewrite lookup_insert_eq, (proj2 (Z.eqb_neq (n - nlookup) 0)) by lia. done.
      * replace (n - nlookup) with 0 by lia. apply lookup_delete_eq.
    + split; [done|]. destruct (decide (ino = 1)) as [->|]; [done|].
      rewrite forget_lookup_count by done. destruct (lookup_count t !! ino); [case_test|done];
        [by rewrite lookup_insert_ne|by rewrite lookup_delete_ne].
Qed.

(** The mirrored count is the kernel's.  For a kernel that never forgets
    more references of an inode than it holds, [forget] keeps the inode and
    the reverse map untouched while references remain, and removes the inode
    and its counter exactly when the last one goes. *)
Theorem forget_exact ops i n :
  i <> 1 -> lenZ ops <= U64_MAX -> protocol i 0 ops -> 0 < n <= refs i 0 ops ->
  let t := run empty_table ops in
  let t' := forget i n t in
  (n < refs i 0 ops ->
     inodes t' = inodes t /\ path_to_ino t' = path_to_ino t /\
     lookup_count t' !! i = Some (refs i 0 ops - n)) /\
  (n = refs i 0 ops -> inodes t' !! i = None /\ lookup_count t' !! i = None).
Proof.
  intros Hi Hb Hp Hn t t'.
  assert (Hc : counted i (refs i 0 ops) t) by (apply counted_run; [done|done|lia|done]).
  destruct Hc as [_ Hc]. rewrite (proj2 (Z.eqb_neq (refs i 0 ops) 0)) in Hc by lia.
  unfold t', forget. rewrite (proj2 (Z.eqb_neq i 1) Hi). unfold forget_count. rewrite Hc. split.
  - intros Hlt. rewrite (proj2 (Z.ltb_lt _ _) Hlt). cbn. split_and!; [done|done|apply lookup_insert_eq].
  - intros ->. rewrite Z.ltb_irrefl. split; [|rewrite drop_state_count; apply lookup_delete_eq].
    unfold drop_state, resolve. cbn [inodes set_counts]. destruct (inodes t !! i) as [e|] eqn:E; [|done].
    case_bool_decide; [apply lookup_delete_eq|]. cbn [path_to_ino set_inodes set_counts].
    destruct (path_to_ino t !! path e); [case_test|]; apply lookup_delete_eq.
Qed.

Lemma forget_exact_witness :
  let ops := [OAlloc None "a" RegularFile 1; OBump 2; OBump 2] in
  inodes (forget 2 1 (run empty_table ops)) = inodes (run empty_table ops) /\
  inodes (forget 2 2 (run empty_table ops)) !! 2 = None.
Proof.
  intros ops. split.
  - destruct (forget_exact ops 2 1) as [H _]; [lia|vm_compute; discriminate|done|cbn; lia|].
    apply H. cbn. lia.
  - destruct (forget_exact ops 2 2) as [_ H]; [lia|vm_compute; discriminate|done|cbn; lia|].
    by apply H.
Defined.

End Inodes.
