(* ===== verification/Evict.v ===== *)
(** * Evict: [MntrsFs::evict_if_needed] of src/src/lib.rs

    Cache eviction on the write path: the space to free, the sweep of entries
    older than the configured age, and the drain of the least recently used
    entries from a heap ordered by [LruHeapEntry].

    The last section composes the drain with the upload worker of
    [Writeback]. *)

From Stdlib Require Import ZArith Lia Strings.Byte Strings.String Strings.Ascii.
From stdpp Require Import sorting.
From S2P Require Import Prelude Util BlockFormat DiskPool FileOps Writeback.

Module Evict.

(** ** The heap's order *)
Record LruHeapEntry := mk_lru { atime : Z; key : string * option Z; lru_size : Z }.

Definition then_with (a b : comparison) : comparison := match a with Eq => b | _ => a end.
Definition option_cmp (a b : option Z) : comparison :=
  match a, b with
  | None, None => Eq
  | None, Some _ => Lt
  | Some _, None => Gt
  | Some x, Some y => Z.compare x y
  end.
Definition key_cmp (a b : string * option Z) : comparison :=
  then_with (String.compare (fst a) (fst b)) (option_cmp (snd a) (snd b)).
Definition cmp (a b : LruHeapEntry) : comparison :=
  then_with (Z.compare (atime a) (atime b))
    (then_with (key_cmp (key a) (key b)) (Z.compare (lru_size a) (lru_size b))).
Definition lru_le (a b : LruHeapEntry) : Prop := cmp a b <> Gt.
#[export] Instance lru_le_dec a b : Decision (lru_le a b).
Proof. unfold lru_le. apply _. Defined.

Section Evict.
Context (salt : Z).

Record config := mk_config {
  cache_max_size : Z;
  cache_min_free_space : Z;
  cache_max_age : Z
}.

(** The cache directory and the index of what it holds. *)
Abbreviation disk_state := (gmap string file * gmap (string * option Z) (Z * Z))%type.

Definition cpath_of (k : string * option Z) : string :=
  match snd k with
  | Some idx => PathHash.disk_cache_block_path salt (fst k) idx
  | None => PathHash.write_buffer_path salt (fst k)
  end.

(** The scan that sums the entries' sizes. *)
Definition total (index : gmap (string * option Z) (Z * Z)) : Z := wrap64 (msum fst index).

(** [free]: what [statvfs] reports, [None] when it fails. *)
Definition to_free (cfg : config) (free : option Z) (index : gmap (string * option Z) (Z * Z)) : Z :=
  let need_free :=
    if 0 <? cache_min_free_space cfg then
      match free with
      | Some f => if f <? cache_min_free_space cfg then Some (cache_min_free_space cfg - f) else None
      | None => None
      end
    else None in
  let size_limit :=
    if 0 <? cache_max_size cfg then saturating_sub (total index) (cache_max_size cfg) else 0 in
  Z.max size_limit (default 0 need_free).

(** Removing one entry: its file, the [.meta] beside a write buffer, the index
    entry. *)
Definition remove_entry (st : disk_state) (k : string * option Z) : disk_state :=
  let fs := remove_file (cpath_of k) (fst st) in
  let fs := match snd k with
            | Some _ => fs
            | None => remove_file (Sidecar.with_extension (cpath_of k) "meta") fs
            end in
  (fs, delete k (snd st)).

Definition is_dirty (fs : gmap string file) (k : string * option Z) : bool :=
  bool_decide (snd k = None) &&
  bool_decide (is_Some (fs !! Sidecar.with_extension (cpath_of k) "dirty")).
Definition age_victim (now : Z) (cfg : config) (fs : gmap string file) (k : string * option Z) : bool :=
  match fs !! cpath_of k with
  | None => true
  | Some f =>
      if is_dirty fs k then false
      else PathHash.is_cache_file_expired now (Some (file_mtime f)) (cache_max_age cfg)
  end.
Definition age_sweep (now : Z) (cfg : config) (st : disk_state) : disk_state :=
  if cache_max_age cfg =? 0 then st
  else foldl remove_entry st (List.filter (age_victim now cfg (fst st)) (map fst (map_to_list (snd st)))).

(** The heap, as the sequence of its pops. *)
Definition heap_of (index : gmap (string * option Z) (Z * Z)) : list LruHeapEntry :=
  merge_sort lru_le (map (fun '(k, (sz, at_)) => mk_lru at_ k sz) (map_to_list index)).

(** The [while let Some(..) = heap.pop()] loop. *)
Fixpoint lru_drain (heap : list LruHeapEntry) (remaining : Z) (st : disk_state) : disk_state :=
  match heap with
  | [] => st
  | e :: heap' =>
      if remaining =? 0 then st
      else lru_drain heap' (saturating_sub remaining (lru_size e)) (remove_entry st (key e))
  end.

Definition evict_if_needed (now : Z) (free : option Z) (cfg : config) (st : disk_state) : disk_state :=
  if (cache_max_size cfg =? 0) && (cache_min_free_space cfg =? 0) && (cache_max_age cfg =? 0) then st
  else
    let target := to_free cfg free (snd st) in
    let st := age_sweep now cfg st in
    if target =? 0 then st else lru_drain (heap_of (snd st)) target st.

(** ** The order *)
Lemma then_with_opp a b a' b' : a = CompOpp a' -> b = CompOpp b' -> then_with a b = CompOpp (then_with a' b').
Proof. intros -> ->. by destruct a'. Qed.

Lemma cmp_antisym a b : cmp a b = CompOpp (cmp b a).
Proof.
  apply then_with_opp; [apply Z.compare_antisym|].
  apply then_with_opp; [apply then_with_opp; [apply String.compare_antisym|]|apply Z.compare_antisym].
  destruct (snd (key a)), (snd (key b)); try done. apply Z.compare_antisym.
Qed.

#[export] Instance lru_le_total : Total lru_le.
Proof.
  intros a b. unfold lru_le. rewrite (cmp_antisym b a). destruct (cmp a b); [by left|by left|by right].
Qed.

Lemma lru_le_atime a b : lru_le a b -> atime a <= atime b.
Proof.
  unfold lru_le, cmp. destruct (Z.compare_spec (atime a) (atime b)); cbn; [lia|lia|done].
Qed.

Definition older (a b : LruHeapEntry) : Prop := atime a <= atime b.
#[export] Instance older_trans : Transitive older.
Proof. intros a b c. unfold older. lia. Qed.

Lemma heap_sorted index : StronglySorted older (heap_of index).
Proof.
  apply Sorted_StronglySorted; [apply _|].
  pose proof (Sorted_merge_sort lru_le (map (fun '(k, (sz, at_)) => mk_lru at_ k sz) (map_to_list index))) as H.
  fold (heap_of index) in H. revert H. generalize (heap_of index). induction 1 as [|x l Hs IH Hh]; [constructor|].
  constructor; [done|]. destruct Hh; constructor. by apply lru_le_atime.
Qed.

(** ** Removing a list of entries *)
Lemma remove_all_index ks st :
  snd (foldl remove_entry st ks) = foldl (fun m k => delete k m) (snd st) ks.
Proof. revert st. induction ks as [|k ks IH]; intros st; cbn; [done|]. by rewrite IH. Qed.

Lemma remove_entry_shrinks st k : fst (remove_entry st k) ⊆ fst st.
Proof.
  unfold remove_entry, remove_file. cbn [fst]. destruct (snd k); [apply delete_subseteq|].
  etrans; apply delete_subseteq.
Qed.

Lemma remove_all_shrinks ks st : fst (foldl remove_entry st ks) ⊆ fst st.
Proof.
  revert st. induction ks as [|k ks IH]; intros st; cbn [foldl]; [done|].
  etrans; [apply IH|apply remove_entry_shrinks].
Qed.

Lemma remove_entry_gone st k : fst (remove_entry st k) !! cpath_of k = None.
Proof.
  unfold remove_entry, remove_file. cbn [fst]. destruct (snd k); [apply lookup_delete_eq|].
  apply lookup_delete_None. right. apply lookup_delete_eq.
Qed.

Lemma remove_all_gone ks st k : k ∈ ks -> fst (foldl remove_entry st ks) !! cpath_of k = None.
Proof.
  revert st. induction ks as [|k' ks IH]; intros st; cbn [foldl]; [by rewrite elem_of_nil|].
  rewrite elem_of_cons. intros [->|Hk]; [|auto].
  destruct (_ !! cpath_of k') as [f|] eqn:E; [|done]. exfalso.
  pose proof (lookup_weaken _ _ _ _ E (remove_all_shrinks ks (remove_entry st k'))) as H.
  by rewrite remove_entry_gone in H.
Qed.

Lemma remove_all_lookup ks st k :
  snd (foldl remove_entry st ks) !! k = if bool_decide (k ∈ ks) then None else snd st !! k.
Proof. rewrite remove_all_index. apply lookup_foldl_delete. Qed.

Lemma remove_all_sub ks st : snd (foldl remove_entry st ks) ⊆ snd st.
Proof.
  apply map_subseteq_spec. intros k e. rewrite remove_all_lookup. by case_bool_decide.
Qed.

(** ** The drain as a prefix of the heap *)
Lemma lru_drain_prefix heap n st :
  Forall (fun e => 0 <= lru_size e) heap -> 0 <= n ->
  exists k, lru_drain heap n st = foldl remove_entry st (key <$> take k heap) /\
    (n <= sumZ (lru_size <$> take k heap) \/ drop k heap = []) /\
    (forall l e, take k heap = l ++ [e] -> sumZ (lru_size <$> l) < n).
Proof.
  intros HF. revert n st. induction HF as [|e heap He HF IH]; intros n st Hn; cbn [lru_drain].
  - exists 0%nat. split_and!; [done|by right|]. intros l e'. by destruct l.
  - case_test.
    + exists 0%nat. split_and!; [done|left; cbn; lia|]. intros l e'. by destruct l.
    + destruct (IH (saturating_sub n (lru_size e)) (remove_entry st (key e))) as (k & E & Hsum & Hmin);
        [unfold saturating_sub; lia|].
      exists (S k). rewrite E. split_and!; [done| |].
      * destruct Hsum as [Hsum|Hsum]; [left|right; cbn; by rewrite Hsum].
        unfold saturating_sub in Hsum. cbn. lia.
      * intros [|e0 l] e' Heq; cbn [take] in Heq; [cbn; lia|]. injection Heq as <- Heq.
        specialize (Hmin _ _ Heq). rewrite fmap_cons. cbn [sumZ]. unfold saturating_sub in Hmin.
        assert (0 <= sumZ (lru_size <$> l)); [|lia]. apply sumZ_fmap_nonneg.
        apply (Forall_take _ k) in HF. rewrite Heq in HF. by apply Forall_app in HF as [? _].
Qed.

(** ** The heap and the index *)
Lemma sumZ_perm l k : l ≡ₚ k -> sumZ l = sumZ k.
Proof. induction 1; cbn; lia. Qed.

Lemma heap_elem index e :
  e ∈ heap_of index <-> index !! key e = Some (lru_size e, atime e).
Proof.
  unfold heap_of. rewrite merge_sort_Permutation, list_elem_of_fmap. split.
  - intros ([k [sz a]] & -> & Hk). by apply elem_of_map_to_list in Hk.
  - intros H. exists (key e, (lru_size e, atime e)). destruct e. split; [done|].
    by apply elem_of_map_to_list.
Qed.

Lemma heap_keys index : NoDup (key <$> heap_of index).
Proof.
  unfold heap_of. rewrite merge_sort_Permutation. change (map ?f ?l) with (f <$> l).
  rewrite <-list_fmap_compose. erewrite list_fmap_ext; [apply (NoDup_fst_map_to_list index)|].
  by intros i [k [sz a]].
Qed.

Lemma heap_total index : sumZ (lru_size <$> heap_of index) = msum fst index.
Proof.
  unfold heap_of, msum. rewrite (sumZ_perm _ _ (fmap_Permutation lru_size _ _ (merge_sort_Permutation _ _))).
  change (map ?f ?l) with (f <$> l). rewrite <-list_fmap_compose. f_equal.
  apply list_fmap_ext. by intros i [k [sz a]].
Qed.

(** Deleting entries of the index takes their sizes off its total. *)
Lemma msum_remove_all l st :
  NoDup (key <$> l) -> (forall e, e ∈ l -> snd st !! key e = Some (lru_size e, atime e)) ->
  msum fst (snd (foldl remove_entry st (key <$> l))) = msum fst (snd st) - sumZ (lru_size <$> l).
Proof.
  revert st. induction l as [|e l IH]; intros st HN Hin; cbn [fmap list_fmap foldl sumZ]; [lia|].
  apply NoDup_cons in HN as [Hnot HN']. rewrite IH; [|done|].
  - cbn [remove_entry snd]. rewrite (msum_delete _ _ _ _ (Hin e (list_elem_of_here _ _))). cbn [fst]. lia.
  - intros e' He'. cbn [remove_entry snd]. rewrite lookup_delete_ne; [apply Hin; by right|].
    intros Heq. apply Hnot. rewrite Heq. by apply list_elem_of_fmap_2.
Qed.

Definition sizes_ok (index : gmap (string * option Z) (Z * Z)) : Prop :=
  (forall k e, index !! k = Some e -> 0 <= fst e) /\ msum fst index <= U64_MAX.

Section Drained.
(** The heap split into what leaves and what stays. *)
Context (st : disk_state) (ev kept : list LruHeapEntry).
Hypothesis Hsplit : heap_of (snd st) = ev ++ kept.
Abbreviation after := (foldl remove_entry st (key <$> ev)).

Lemma evicted_elem e : e ∈ ev -> snd st !! key e = Some (lru_size e, atime e).
Proof. intros He. apply heap_elem. rewrite Hsplit, elem_of_app. by left. Qed.

Lemma drained_msum : msum fst (snd after) = msum fst (snd st) - sumZ (lru_size <$> ev).
Proof.
  apply msum_remove_all; [|apply evicted_elem].
  pose proof (heap_keys (snd st)) as HN. rewrite Hsplit, fmap_app in HN. by apply NoDup_app in HN as [? _].
Qed.

Lemma drained_gone k e : snd st !! k = Some e -> snd after !! k = None -> mk_lru (snd e) k (fst e) ∈ ev.
Proof.
  intros Hk. rewrite remove_all_lookup. case_bool_decide as Hin; [intros _|congruence].
  apply list_elem_of_fmap in Hin as (e' & -> & He'). rewrite (evicted_elem _ He') in Hk.
  simplify_eq. by destruct e'.
Qed.

Lemma drained_kept k e : snd after !! k = Some e -> mk_lru (snd e) k (fst e) ∈ kept.
Proof.
  rewrite remove_all_lookup. case_bool_decide as Hin; [done|]. intros Hk.
  assert (H : mk_lru (snd e) k (fst e) ∈ heap_of (snd st)) by (apply heap_elem; by destruct e).
  rewrite Hsplit, elem_of_app in H. destruct H as [H|H]; [|done]. exfalso. apply Hin.
  apply list_elem_of_fmap. by exists (mk_lru (snd e) k (fst e)).
Qed.

Lemma drained_order a b : a ∈ ev -> b ∈ kept -> atime a <= atime b.
Proof.
  pose proof (heap_sorted (snd st)) as HS. rewrite Hsplit in HS. clear Hsplit.
  induction ev as [|x l IH]; [by rewrite elem_of_nil|]. cbn in HS. apply StronglySorted_inv in HS as [HS HF].
  rewrite elem_of_cons. intros [->|Ha] Hb; [|by apply IH].
  rewrite Forall_forall in HF. apply HF. rewrite elem_of_app. by right.
Qed.

Lemma drained_all : kept = [] -> snd after = ∅.
Proof.
  intros Hk. apply map_empty. intros k. destruct (snd after !! k) eqn:E; [|done].
  apply drained_kept in E. rewrite Hk in E. by apply elem_of_nil in E.
Qed.
End Drained.

(** The drain: what leaves is a shortest prefix, in order of access, that
    frees the target. *)
Lemma lru_drain_spec n st :
  (forall k e, snd st !! k = Some e -> 0 <= fst e) -> 0 <= n ->
  let ix := snd st in
  let ix' := snd (lru_drain (heap_of ix) n st) in
  ix' ⊆ ix /\
  (ix' = ∅ \/ n <= msum fst ix - msum fst ix') /\
  (forall k e k' e', ix !! k = Some e -> ix' !! k = None -> ix' !! k' = Some e' -> snd e <= snd e') /\
  (ix' <> ix -> exists k e, ix !! k = Some e /\ ix' !! k = None /\ msum fst ix - msum fst ix' - fst e < n) /\
  (forall k, is_Some (ix !! k) -> ix' !! k = None ->
     fst (lru_drain (heap_of ix) n st) !! cpath_of k = None).
Proof.
  intros Hsz Hn ix ix'.
  assert (HF : Forall (fun e => 0 <= lru_size e) (heap_of ix)).
  { apply Forall_forall. intros e He. apply heap_elem, Hsz in He. done. }
  destruct (lru_drain_prefix (heap_of ix) n st HF Hn) as (c & E & Hsum & Hmin).
  pose proof (eq_sym (take_drop c (heap_of ix))) as Hsplit. revert E Hsum Hmin Hsplit.
  generalize (take c (heap_of ix)) (drop c (heap_of ix)). intros ev kept E Hsum Hmin Hsplit.
  pose proof (drained_msum st ev kept Hsplit) as Hm. unfold ix'. rewrite E. split_and!.
  - apply remove_all_sub.
  - destruct Hsum as [Hsum|Hall]; [right; fold ix in Hm; lia|left; by eapply drained_all].
  - intros k e k' e' Hk Hgone Hk'.
    apply (drained_order st ev kept Hsplit _ _ (drained_gone st ev kept Hsplit _ _ Hk Hgone)
             (drained_kept st ev kept Hsplit _ _ Hk')).
  - intros Hne. destruct ev as [|e l _] using rev_ind; [done|].
    assert (He : e ∈ l ++ [e]) by (rewrite elem_of_app, list_elem_of_singleton; by right).
    exists (key e), (lru_size e, atime e). specialize (Hmin l e eq_refl).
    rewrite (fmap_app lru_size), sumZ_app in Hm. cbn [sumZ fmap list_fmap] in Hm. split_and!.
    + by apply (evicted_elem st (l ++ [e]) kept).
    + rewrite remove_all_lookup, bool_decide_true; [done|]. by apply list_elem_of_fmap_2.
    + cbn [fst]. fold ix in Hm. lia.
  - intros k [e Hk] Hgone. apply remove_all_gone.
    apply (list_elem_of_fmap_2 key _ _ (drained_gone st ev kept Hsplit _ _ Hk Hgone)).
Qed.

(** ** The age sweep *)
Definition sweep_keys (now : Z) (cfg : config) (st : disk_state) : list (string * option Z) :=
  if cache_max_age cfg =? 0 then []
  else List.filter (age_victim now cfg (fst st)) (map fst (map_to_list (snd st))).

Lemma age_sweep_keys now cfg st : age_sweep now cfg st = foldl remove_entry st (sweep_keys now cfg st).
Proof. unfold age_sweep, sweep_keys. by case_test. Qed.

Lemma sweep_keys_victim now cfg st k :
  k ∈ sweep_keys now cfg st <->
  cache_max_age cfg <> 0 /\ is_Some (snd st !! k) /\ age_victim now cfg (fst st) k = true.
Proof.
  unfold sweep_keys. case_test.
  - rewrite elem_of_nil. split; [done|]. intros [H _]. bool_props. lia.
  - rewrite list_elem_of_In, filter_In, <-list_elem_of_In, list_elem_of_fmap. split.
    + intros [([k' e] & -> & Hk) Hv]. apply elem_of_map_to_list in Hk. bool_props.
      split_and!; [lia|by exists e|done].
    + intros (_ & [e Hk] & Hv). split; [|done]. exists (k, e). by rewrite elem_of_map_to_list.
Qed.

Lemma msum_sub (m m' : gmap (string * option Z) (Z * Z)) :
  m' ⊆ m -> (forall k e, m !! k = Some e -> 0 <= fst e) -> msum fst m' <= msum fst m.
Proof.
  revert m. induction m' as [|k e m' Hk IH] using map_ind; intros m Hsub Hsz.
  - rewrite msum_empty. apply sumZ_fmap_nonneg. apply Forall_forall. intros [k e] Hk.
    apply elem_of_map_to_list in Hk. by apply Hsz in Hk.
  - assert (Hm : m !! k = Some e) by (eapply lookup_weaken; [|done]; apply lookup_insert_eq).
    rewrite msum_insert_new by done. pose proof (msum_delete fst m k e Hm) as Hd.
    assert (msum fst m' <= msum fst (delete k m)); [|lia]. apply IH.
    + rewrite <-(delete_insert_id m' k e Hk). by apply delete_mono.
    + intros k' e' Hk'. apply lookup_delete_Some in Hk' as [_ Hk']. eauto.
Qed.

Lemma sweep_none now cfg st : cache_max_age cfg = 0 -> age_sweep now cfg st = st.
Proof. unfold age_sweep. intros ->. done. Qed.

Lemma lru_drain_shrinks heap n st : fst (lru_drain heap n st) ⊆ fst st.
Proof.
  revert n st. induction heap as [|e heap IH]; intros n st; cbn [lru_drain]; [done|].
  case_test; [done|]. etrans; [apply IH|apply remove_entry_shrinks].
Qed.

Lemma evict_unfold now free cfg st :
  evict_if_needed now free cfg st =
  if to_free cfg free (snd st) =? 0 then age_sweep now cfg st
  else lru_drain (heap_of (snd (age_sweep now cfg st))) (to_free cfg free (snd st)) (age_sweep now cfg st).
Proof.
  unfold evict_if_needed. case_test; [|done]. bool_props.
  assert (to_free cfg free (snd st) = 0) as ->; [|by rewrite sweep_none].
  unfold to_free. destruct cfg; cbn in *; subst. reflexivity.
Qed.

Lemma evict_shrinks now free cfg st : fst (evict_if_needed now free cfg st) ⊆ fst st.
Proof.
  rewrite evict_unfold, !age_sweep_keys. case_test; [apply remove_all_shrinks|].
  etrans; [apply lru_drain_shrinks|apply remove_all_shrinks].
Qed.

Lemma to_free_size cfg free ix : sizes_ok ix -> 0 < cache_max_size cfg ->
  msum fst ix - cache_max_size cfg <= to_free cfg free ix.
Proof.
  intros [Hsz Hmax] Hpos. unfold to_free, total, wrap64, saturating_sub.
  assert (0 <= msum fst ix).
  { change 0 with (msum fst (∅ : gmap (string * option Z) (Z * Z))).
    apply msum_sub; [apply map_empty_subseteq|done]. }
  rewrite Z.mod_small by (unfold U64_MAX in Hmax; lia). case_test; bool_props; lia.
Qed.

Lemma to_free_nonneg cfg free ix : 0 <= to_free cfg free ix.
Proof. unfold to_free, saturating_sub. case_test; lia. Qed.

(** An entry the sweep removed has no file any more. *)
Lemma sweep_gone now cfg st k e :
  snd st !! k = Some e -> snd (age_sweep now cfg st) !! k = None ->
  fst (age_sweep now cfg st) !! cpath_of k = None.
Proof.
  rewrite age_sweep_keys. intros Hk. rewrite remove_all_lookup. case_bool_decide; [|congruence].
  intros _. by apply remove_all_gone.
Qed.

(** C31: eviction.  The age sweep only removes entries.  After it, when the
    configured size is positive the index holds at most that many bytes, what
    the drain freed reaches the target unless the index is empty, no kept
    entry was used before an evicted one, the last evicted entry was needed
    for the target, and the files of all removed entries are gone. *)
Theorem evict_if_needed_spec now free cfg st :
  sizes_ok (snd st) -> 0 <= cache_max_size cfg -> 0 <= cache_min_free_space cfg ->
  let target := to_free cfg free (snd st) in
  let swept := snd (age_sweep now cfg st) in
  let st' := evict_if_needed now free cfg st in
  snd st' ⊆ swept /\ swept ⊆ snd st /\
  (0 < cache_max_size cfg -> msum fst (snd st') <= cache_max_size cfg) /\
  (snd st' = ∅ \/ target <= msum fst swept - msum fst (snd st')) /\
  (forall k e k' e', swept !! k = Some e -> snd st' !! k = None -> snd st' !! k' = Some e' ->
     snd e <= snd e') /\
  (snd st' <> swept -> exists k e, swept !! k = Some e /\ snd st' !! k = None /\
     msum fst swept - msum fst (snd st') - fst e < target) /\
  (forall k, is_Some (snd st !! k) -> snd st' !! k = None -> fst st' !! cpath_of k = None).
Proof.
  intros Hok Hs Hf target swept st'.
  assert (Hsub : swept ⊆ snd st) by (unfold swept; rewrite age_sweep_keys; apply remove_all_sub).
  pose proof (msum_sub _ _ Hsub (proj1 Hok)) as Hle.
  pose proof (to_free_size cfg free (snd st) Hok) as Hsize. fold target in Hsize.
  assert (Hpos : forall k e, swept !! k = Some e -> 0 <= fst e).
  { intros k e Hk. eapply (proj1 Hok), lookup_weaken; eauto. }
  unfold st'. rewrite evict_unfold. fold target swept. case_test; bool_props.
  - split_and!; try done; [intros; fold swept; lia|right; fold swept; lia| |].
    + intros k e k' e' Hk Hgone. fold swept in Hgone. congruence.
    + intros k [e Hk] Hgone. by eapply sweep_gone.
  - destruct (lru_drain_spec target (age_sweep now cfg st) Hpos (to_free_nonneg _ _ _))
      as (H1 & H2 & H3 & H4 & H5). fold swept in H1, H2, H3, H4, H5.
    split_and!; [done|done| |done|done|done|].
    + intros Hmax. destruct H2 as [->|H2]; [rewrite msum_empty; lia|]. lia.
    + intros k [e Hk] Hgone. destruct (swept !! k) as [e'|] eqn:Es; [by apply H5; [exists e'|]|].
      eapply lookup_weaken_None; [by eapply sweep_gone|apply lru_drain_shrinks].
Qed.

(** ** Names of the cache directory *)
Lemma dot_extension (s e : string) :
  s <> EmptyString -> Str.free_of Sidecar.DOT e ->
  Sidecar.extension (s +:+ String Sidecar.DOT e) = Some e.
Proof.
  intros Hs He. unfold Sidecar.extension. rewrite Path.rfind_app by done.
  destruct (String.length s) as [|n] eqn:El; [by destruct s|]. f_equal. rewrite <-El.
  replace (s +:+ String Sidecar.DOT e) with ((s +:+ ".") +:+ e) by (by rewrite Str.append_assoc).
  rewrite <-(Path.substring_app (s +:+ ".") e (String.length ((s +:+ ".") +:+ e))) at 3.
  - f_equal. rewrite Str.length_append. simpl. lia.
  - rewrite !Str.length_append. simpl. lia.
Qed.

Lemma write_buffer_extension q : Sidecar.extension (PathHash.write_buffer_path salt q) = None.
Proof. unfold Sidecar.extension. by rewrite Path.rfind_free by apply Sidecar.write_buffer_free. Qed.

Lemma hex_nonempty w n : (0 < w)%nat -> Str.fmt_hex w n <> EmptyString.
Proof.
  intros Hw E. apply (f_equal String.length) in E. unfold Str.fmt_hex in E.
  rewrite Str.length_append, Sidecar.length_zeros in E. simpl in E. lia.
Qed.

Lemma meta_extension q :
  Sidecar.extension (Sidecar.with_extension (cpath_of (q, None)) "meta") = Some "meta"%string.
Proof.
  unfold cpath_of. cbn [fst snd].
  unfold Sidecar.with_extension, Sidecar.file_stem. cbn [String.eqb].
  rewrite Path.rfind_free by apply Sidecar.write_buffer_free.
  apply dot_extension; [by apply hex_nonempty; lia|]. reflexivity.
Qed.

Lemma block_extension q i : Sidecar.extension (PathHash.disk_cache_block_path salt q i) = Some "block"%string.
Proof.
  unfold PathHash.disk_cache_block_path. rewrite <-Str.append_assoc, <-Str.append_assoc.
  apply dot_extension; [|reflexivity].
  intros E. apply (f_equal String.length) in E. rewrite !Str.length_append in E. simpl in E. lia.
Qed.

Lemma cpath_extension k :
  Sidecar.extension (cpath_of k) = match snd k with None => None | Some _ => Some "block"%string end.
Proof. unfold cpath_of. destruct (snd k); [apply block_extension|apply write_buffer_extension]. Qed.

(** A name that no removed entry uses keeps its file. *)
Lemma remove_all_untouched ks st n :
  (forall k, k ∈ ks -> n <> cpath_of k /\
     (snd k = None -> n <> Sidecar.with_extension (cpath_of k) "meta")) ->
  fst (foldl remove_entry st ks) !! n = fst st !! n.
Proof.
  revert st. induction ks as [|k ks IH]; intros st Hn; cbn [foldl]; [done|].
  rewrite IH by (intros k' Hk'; apply Hn; by right).
  destruct (Hn k (list_elem_of_here _ _)) as [H1 H2]. unfold remove_entry, remove_file. cbn [fst].
  destruct (snd k); [by rewrite lookup_delete_ne|].
  rewrite !lookup_delete_ne; [done|..]; intros E; subst; [by apply H1|by apply H2].
Qed.

(** The age sweep leaves unsynced data alone: a write buffer with a sidecar
    keeps its file, its sidecar and its index entry, whatever its age, and
    also when another path shares its hash. *)
Theorem age_sweep_keeps_dirty now cfg st p e f d :
  snd st !! (p, None) = Some e ->
  fst st !! PathHash.write_buffer_path salt p = Some f ->
  fst st !! Sidecar.sidecar_of salt p = Some d ->
  let st' := age_sweep now cfg st in
  snd st' !! (p, None) = Some e /\
  fst st' !! PathHash.write_buffer_path salt p = Some f /\
  fst st' !! Sidecar.sidecar_of salt p = Some d.
Proof.
  intros He Hf Hd st'.
  assert (Hvic : forall q, PathHash.write_buffer_path salt q = PathHash.write_buffer_path salt p ->
                 (q, None) ∉ sweep_keys now cfg st).
  { intros q Hq Hin. apply sweep_keys_victim in Hin as (_ & _ & Hv). revert Hv.
    unfold age_victim, is_dirty, cpath_of. cbn [fst snd]. rewrite Hq, Hf.
    rewrite bool_decide_true by done. rewrite bool_decide_true; [done|by exists d]. }
  unfold st'. rewrite age_sweep_keys. split_and!.
  - rewrite remove_all_lookup, bool_decide_false by (by apply Hvic). done.
  - rewrite remove_all_untouched; [done|]. intros [q o] Hk. split.
    + intros E. destruct o as [i|]; [|by apply (Hvic q)].
      apply (f_equal Sidecar.extension) in E. by rewrite write_buffer_extension, cpath_extension in E.
    + cbn [snd]. intros -> E. apply (f_equal Sidecar.extension) in E.
      by rewrite write_buffer_extension, meta_extension in E.
  - rewrite remove_all_untouched; [done|]. intros [q o] Hk. split.
    + intros E. apply (f_equal Sidecar.extension) in E.
      rewrite Sidecar.sidecar_extension, cpath_extension in E. by destruct o.
    + cbn [snd]. intros -> E. apply (f_equal Sidecar.extension) in E.
      by rewrite Sidecar.sidecar_extension, meta_extension in E.
Qed.

End Evict.

(** ** Concrete runs *)

(** The sweep removes an expired block, which alone brings the cache within
    its limit; the target was computed before the sweep, so a fresh entry is
    drained as well. *)
Example age_sweep_double_counts :
  let cfg := mk_config 1 0 10 in
  let ix : gmap (string * option Z) (Z * Z) :=
    {[ ("a"%string, Some 0) := (1, 0); ("b"%string, Some 0) := (1, 100) ]} in
  let fs := {[ PathHash.disk_cache_block_path 0 "a" 0 := mk_file [Byte.x00] 0 true;
               PathHash.disk_cache_block_path 0 "b" 0 := mk_file [Byte.x00] 100 true ]} in
  msum fst (snd (age_sweep 0 100 cfg (fs, ix))) = 1 /\
  snd (evict_if_needed 0 100 None cfg (fs, ix)) = ∅.
Proof. vm_compute. done. Qed.

(** Two files in [Full] mode.  The first is written and flushed: its handle is
    clean, its sidecar is on disk and its upload is queued.  Writing the second
    exceeds the cache's size; the drain removes the first file's write buffer
    although it has a sidecar.  The worker then finds no file and drops the
    task, and removes the sidecar: no copy of the flushed bytes is left. *)
Theorem eviction_loses_flushed_write :
  let cpath := PathHash.write_buffer_path 0 in
  let w1 := Traces.run PathHash.Full 0 0 0
    (Traces.idle ∅ {[ cpath "a"%string := mk_file [] 0 true; cpath "b"%string := mk_file [] 0 true ]})
    [Traces.OHandle 1 (Worker.mk_handle 7 "a" true None false);
     Traces.OHandle 2 (Worker.mk_handle 8 "b" true None false);
     Traces.OWrite Traces.env0 1 0 (as_bytes "A"); Traces.OFlush 0 true true true 0 1;
     Traces.OWrite Traces.env0 2 0 (as_bytes "B")] in
  let st := evict_if_needed 0 1 None (mk_config 1 0 0) (Worker.w_fs w1, Worker.w_index w1) in
  let w2 := Traces.run PathHash.Full 0 0 0 w1
    [Traces.ODisk (fst st) (snd st); Traces.ODrain 1; Traces.ODequeue 1 0; Traces.ODequeue 1 0;
     Traces.OOk 1 0; Traces.OConfirm 0] in
  Worker.h_dirty <$> Worker.handles w1 !! 1 = Some false /\
  is_Some (Worker.w_fs w1 !! Sidecar.sidecar_of 0 "a") /\
  Worker.w_fs w2 !! cpath "a"%string = None /\ Worker.w_fs w2 !! Sidecar.sidecar_of 0 "a" = None /\
  Traces.tasks w2 = [] /\ Worker.backend w2 !! "a"%string = None /\
  Worker.backend w2 !! "b"%string = Some (as_bytes "B").
Proof. vm_compute. split_and!; try done. by eexists. Qed.

Lemma evict_if_needed_spec_witness :
  let ix : gmap (string * option Z) (Z * Z) :=
    {[ ("a"%string, Some 0) := (3, 5); ("b"%string, None) := (4, 2) ]} in
  msum fst (snd (evict_if_needed 0 9 None (mk_config 5 0 0) (∅, ix))) <= 5.
Proof.
  intros ix.
  destruct (evict_if_needed_spec 0 9 None (mk_config 5 0 0) (∅, ix)) as (_ & _ & H & _).
  - split; [|vm_compute; congruence]. intros k e Hk. cbn [snd] in Hk. unfold ix in Hk.
    apply lookup_insert_Some in Hk as [[_ <-]|[_ Hk]]; [done|].
    apply lookup_singleton_Some in Hk as [_ <-]. done.
  - vm_compute. congruence.
  - vm_compute. congruence.
  - apply H. reflexivity.
Defined.

Lemma age_sweep_keeps_dirty_witness :
  let fs := {[ PathHash.write_buffer_path 0 "a" := mk_file [Byte.x00] 0 true;
               Sidecar.sidecar_of 0 "a" := mk_file (as_bytes "a") 0 true ]} in
  let ix : gmap (string * option Z) (Z * Z) := {[ ("a"%string, None) := (1, 0) ]} in
  let st' := age_sweep 0 100 (mk_config 0 0 10) (fs, ix) in
  snd st' !! ("a"%string, None) = Some (1, 0).
Proof.
  intros fs ix st'.
  apply (age_sweep_keeps_dirty 0 100 (mk_config 0 0 10) (fs, ix) "a" (1, 0)
           (mk_file [Byte.x00] 0 true) (mk_file (as_bytes "a") 0 true)); vm_compute; reflexivity.
Defined.

End Evict.
