(* ===== verification/ConcDelete.v ===== *)
(** * ConcDelete: the batched deletion of src/src/concurrent_delete.rs

    A pool of pump tasks takes deletions from a shared queue, feeds them to
    opendal deleters and acknowledges each one.  The state is what the tasks
    and the FUSE threads share; an action is one critical section of one of
    them, so a list of actions is an interleaving.

    The opendal deleter is a class: what its documentation says of [delete] and
    [close] is in [DeleterLaws]. *)

From Stdlib Require Import ZArith Lia Strings.Byte Strings.String Strings.Ascii.
From S2P Require Import Prelude.

Module ConcDelete.

(** ** The deleter *)

(** [answer] is what the backend does during one call.  [d_buffer] holds the
    keys accepted and not yet sent; a call returns the keys it sent and
    whether it succeeded.  [d_gone a keys] are those of the keys sent that the
    backend removed: a call that succeeds may leave some of them. *)
Class Deleter (answer D : Type) := {
  d_new : D;
  d_buffer : D -> gset string;
  d_delete : answer -> D -> string -> D * gset string * bool;
  d_close : answer -> D -> D * gset string * bool;
  d_gone : answer -> gset string -> gset string
}.

Class DeleterLaws (answer D : Type) `{!Deleter answer D} := {
  new_empty : d_buffer d_new = ∅;
  delete_ok a d p d' sent : d_delete a d p = (d', sent, true) ->
    d_buffer d' ∪ sent = {[p]} ∪ d_buffer d;
  delete_err a d p d' sent : d_delete a d p = (d', sent, false) ->
    d_buffer d ⊆ d_buffer d' ∪ sent /\ d_buffer d' ∪ sent ⊆ {[p]} ∪ d_buffer d;
  close_ok a d d' sent : d_close a d = (d', sent, true) ->
    d_buffer d' = ∅ /\ sent = d_buffer d;
  close_err a d d' sent : d_close a d = (d', sent, false) ->
    d_buffer d' ∪ sent = d_buffer d;
  gone_sent a keys : d_gone a keys ⊆ keys
}.

(** ** Data *)
Record PendingDelete := mk_job { result_tx : Z; relative_path : string }.

#[export] Instance job_eq_dec : EqDecision PendingDelete.
Proof. solve_decision. Defined.

(** What a receiver gets. *)
Inductive reply := ReplyOk | ReplyInterrupted | ReplyBrokenPipe | ReplyFailed.
#[export] Instance reply_eq_dec : EqDecision reply.
Proof. solve_decision. Defined.

(** Where a pump task stands in [pump_loop] and [flush_with_retry]. *)
Inductive pc :=
| Drain
| Hand (job : PendingDelete)
| Deleted (job : PendingDelete)
| CheckLedger
| FlushTop (attempt : Z)
| InClose (attempt : Z) (to_flush : list PendingDelete)
| Acking (r : reply) (k : Z) (to_flush : list PendingDelete)
| LoadEpoch
| StoreAck (epoch : Z)
| ToWait
| Waiting.
#[export] Instance pc_eq_dec : EqDecision pc.
Proof. solve_decision. Defined.

Record counters := mk_counters {
  flushes_total : Z;
  keys_total : Z;
  failures_total : Z;
  shutdown_lost_total : Z;
  batch_retry_total : Z
}.

Definition DEFAULT_MAX_RETRIES : Z := 3.
Definition DEFAULT_DELETE_WORKER_COUNT : Z := 8.
Definition MAX_DELETE_WORKER_COUNT : Z := 16.
(** [WorkerConfig::from_operator]: the environment variable, when it parses. *)
Definition worker_count (env : option Z) : Z :=
  Z.max 1 (Z.min (default DEFAULT_DELETE_WORKER_COUNT env) MAX_DELETE_WORKER_COUNT).

Section Pump.
Context {answer D : Type} `{!Deleter answer D} (max_retries : Z).

Record DeleterSlot := mk_slot {
  deleter : D;
  ledger : list PendingDelete;
  barrier_ack : Z;
  last_flush_count : Z;
  slot_pc : pc
}.

(** [Shared], with the tokio [Notify] as its stored permit and its waiters;
    [taken] are jobs a shutdown has taken and not yet failed, [next_tx] the
    next channel, [replies] what was sent on the channels.  [objects] is the
    backend, [requested] the keys it was asked to delete and [refused] the keys
    whose [delete] call failed. *)
Record Shared := mk_shared {
  pending : list PendingDelete;
  accepting : bool;
  permit : bool;
  waiters : list nat;
  tombs : gset string;
  slots : list DeleterSlot;
  barrier_epoch : Z;
  taken : list PendingDelete;
  next_tx : Z;
  replies : list (PendingDelete * reply);
  objects : gset string;
  requested : gset string;
  refused : gset string;
  stats : counters
}.

Definition new_slot : DeleterSlot := mk_slot d_new [] 0 0 Drain.
(** [spawn]. *)
Definition spawn (worker_count : Z) (objs tombstones : gset string) : Shared :=
  mk_shared [] true false [] tombstones (replicate (Z.to_nat (Z.max worker_count 1)) new_slot)
    0 [] 0 [] objs ∅ ∅ (mk_counters 0 0 0 0 0).

(** ** Field updates *)
Definition set_pending (l : list PendingDelete) (s : Shared) : Shared :=
  mk_shared l (accepting s) (permit s) (waiters s) (tombs s) (slots s) (barrier_epoch s) (taken s)
    (next_tx s) (replies s) (objects s) (requested s) (refused s) (stats s).
Definition set_notify (b : bool) (ws : list nat) (s : Shared) : Shared :=
  mk_shared (pending s) (accepting s) b ws (tombs s) (slots s) (barrier_epoch s) (taken s)
    (next_tx s) (replies s) (objects s) (requested s) (refused s) (stats s).
Definition set_tombs (t : gset string) (s : Shared) : Shared :=
  mk_shared (pending s) (accepting s) (permit s) (waiters s) t (slots s) (barrier_epoch s) (taken s)
    (next_tx s) (replies s) (objects s) (requested s) (refused s) (stats s).
Definition set_slots (l : list DeleterSlot) (s : Shared) : Shared :=
  mk_shared (pending s) (accepting s) (permit s) (waiters s) (tombs s) l (barrier_epoch s) (taken s)
    (next_tx s) (replies s) (objects s) (requested s) (refused s) (stats s).
Definition set_taken (l : list PendingDelete) (s : Shared) : Shared :=
  mk_shared (pending s) (accepting s) (permit s) (waiters s) (tombs s) (slots s) (barrier_epoch s) l
    (next_tx s) (replies s) (objects s) (requested s) (refused s) (stats s).
Definition set_backend (o r f : gset string) (s : Shared) : Shared :=
  mk_shared (pending s) (accepting s) (permit s) (waiters s) (tombs s) (slots s) (barrier_epoch s)
    (taken s) (next_tx s) (replies s) o r f (stats s).
Definition set_stats (c : counters) (s : Shared) : Shared :=
  mk_shared (pending s) (accepting s) (permit s) (waiters s) (tombs s) (slots s) (barrier_epoch s)
    (taken s) (next_tx s) (replies s) (objects s) (requested s) (refused s) c.
Definition send (job : PendingDelete) (r : reply) (s : Shared) : Shared :=
  mk_shared (pending s) (accepting s) (permit s) (waiters s) (tombs s) (slots s) (barrier_epoch s)
    (taken s) (next_tx s) (replies s ++ [(job, r)]) (objects s) (requested s) (refused s) (stats s).
Definition set_epoch (e : Z) (s : Shared) : Shared :=
  mk_shared (pending s) (accepting s) (permit s) (waiters s) (tombs s) (slots s) e (taken s)
    (next_tx s) (replies s) (objects s) (requested s) (refused s) (stats s).
Definition stop_accepting (s : Shared) : Shared :=
  mk_shared (pending s) false (permit s) (waiters s) (tombs s) (slots s) (barrier_epoch s) (taken s)
    (next_tx s) (replies s) (objects s) (requested s) (refused s) (stats s).
Definition put_slot (i : nat) (sl : DeleterSlot) (s : Shared) : Shared :=
  set_slots (<[i := sl]> (slots s)) s.
Definition with_pc (p : pc) (sl : DeleterSlot) : DeleterSlot :=
  mk_slot (deleter sl) (ledger sl) (barrier_ack sl) (last_flush_count sl) p.
Definition with_ledger (l : list PendingDelete) (p : pc) (sl : DeleterSlot) : DeleterSlot :=
  mk_slot (deleter sl) l (barrier_ack sl) (last_flush_count sl) p.
Definition with_deleter (d : D) (p : pc) (sl : DeleterSlot) : DeleterSlot :=
  mk_slot d (ledger sl) (barrier_ack sl) (last_flush_count sl) p.

(** The backend receives a set of keys and removes some of them. *)
Definition request (a : answer) (keys : gset string) (s : Shared) : Shared :=
  set_backend (objects s ∖ d_gone a keys) (requested s ∪ keys) (refused s) s.

(** ** [tokio::sync::Notify] *)
Definition wake (i : nat) (s : Shared) : Shared :=
  set_slots (alter (with_pc Drain) i (slots s)) s.
Definition notify_one (s : Shared) : Shared :=
  match waiters s with
  | [] => set_notify true [] s
  | i :: ws => wake i (set_notify (permit s) ws s)
  end.
Definition notify_waiters (s : Shared) : Shared :=
  foldr wake (set_notify (permit s) [] s) (waiters s).

(** ** The pump: one critical section of [pump_loop] or [flush_with_retry] *)
Definition add_stats (f k x l r : Z) (s : Shared) : Shared :=
  let c := stats s in
  set_stats (mk_counters (flushes_total c + f) (keys_total c + k) (failures_total c + x)
               (shutdown_lost_total c + l) (batch_retry_total c + r)) s.

Definition push_key (a : answer) (job : PendingDelete) (i : nat) (sl : DeleterSlot) (s : Shared) : Shared :=
  let '(d, sent, ok) := d_delete a (deleter sl) (relative_path job) in
  let s := request a sent (put_slot i (with_deleter d (Deleted job) sl) s) in
  if ok then s
  else add_stats 0 0 1 0 0
         (set_backend (objects s) (requested s) (refused s ∪ {[relative_path job]}) s).

(** [tokio::time::timeout(.., deleter.close())] and its outcome. *)
Definition close_batch (a : answer) (timed_out : bool) (attempt : Z) (to_flush : list PendingDelete)
    (i : nat) (sl : DeleterSlot) (s : Shared) : Shared :=
  let '(d, sent, ok) := d_close a (deleter sl) in
  let s := request a sent s in
  let k := lenZ to_flush in
  if ok && negb timed_out then
    add_stats 1 k 0 0 0 (put_slot i (with_deleter d (Acking ReplyOk k to_flush) sl) s)
  else if attempt <? max_retries then
    add_stats 0 0 0 0 1
      (put_slot i (with_deleter d (FlushTop (attempt + 1)) (with_ledger (ledger sl ++ to_flush) Drain sl)) s)
  else add_stats 1 0 k 0 0 (put_slot i (with_deleter d (Acking ReplyFailed k to_flush) sl) s).

Definition pump_slot (a : answer) (timed_out : bool) (i : nat) (sl : DeleterSlot) (s : Shared) : Shared :=
  match slot_pc sl with
  | Drain =>
      match pending s with
      | [] => put_slot i (with_pc CheckLedger sl) s
      | job :: rest => put_slot i (with_pc (Hand job) sl) (set_pending rest s)
      end
  | Hand job => push_key a job i sl s
  | Deleted job => put_slot i (with_ledger (ledger sl ++ [job]) Drain sl) s
  | CheckLedger =>
      put_slot i (with_pc (match ledger sl with [] => LoadEpoch | _ => FlushTop 0 end) sl) s
  | FlushTop attempt =>
      match ledger sl with
      | [] => put_slot i (with_pc LoadEpoch sl) s
      | l => put_slot i (with_ledger [] (InClose attempt l) sl) s
      end
  | InClose attempt l => close_batch a timed_out attempt l i sl s
  | Acking r k (job :: l) =>
      put_slot i (with_pc (Acking r k l) sl)
        (send job r (set_tombs (tombs s ∖ {[relative_path job]}) s))
  | Acking r k [] =>
      put_slot i (mk_slot (deleter sl) (ledger sl) (barrier_ack sl)
                    (if bool_decide (r = ReplyOk) then k else last_flush_count sl) LoadEpoch) s
  | LoadEpoch => put_slot i (with_pc (StoreAck (barrier_epoch s)) sl) s
  | StoreAck e =>
      put_slot i (mk_slot (deleter sl) (ledger sl)
                    (if barrier_ack sl <? e then e else barrier_ack sl) (last_flush_count sl) ToWait) s
  | ToWait =>
      if permit s then put_slot i (with_pc Drain sl) (set_notify false (waiters s) s)
      else put_slot i (with_pc Waiting sl) (set_notify false (waiters s ++ [i]) s)
  | Waiting => s
  end.
Definition pump (a : answer) (timed_out : bool) (i : nat) (s : Shared) : Shared :=
  match slots s !! i with Some sl => pump_slot a timed_out i sl s | None => s end.

(** ** The API of [ConcurrentDeleter] *)
Definition push_job (p : string) (s : Shared) : Shared :=
  mk_shared (pending s ++ [mk_job (next_tx s) p]) (accepting s) (permit s) (waiters s) (tombs s)
    (slots s) (barrier_epoch s) (taken s) (next_tx s + 1) (replies s) (objects s) (requested s)
    (refused s) (stats s).
Definition enqueue (p : string) (s : Shared) : Shared * option Z :=
  if accepting s then
    let was_empty := match pending s with [] => true | _ => false end in
    let id := next_tx s in
    let s := push_job p s in
    (if was_empty then notify_one s else s, Some id)
  else (s, None).

Definition matches (p : string) (job : PendingDelete) : bool := String.eqb (relative_path job) p.
Definition reply_all (r : reply) (jobs : list PendingDelete) (s : Shared) : Shared :=
  foldl (fun s job => send job r s) s jobs.
Definition cancel_queue (p : string) (s : Shared) : Shared :=
  reply_all ReplyInterrupted (List.filter (matches p) (pending s))
    (set_pending (List.filter (fun j => negb (matches p j)) (pending s)) s).
Definition cancel_ledger (p : string) (i : nat) (s : Shared) : Shared :=
  match slots s !! i with
  | None => s
  | Some sl =>
      reply_all ReplyInterrupted (List.filter (matches p) (ledger sl))
        (put_slot i (with_ledger (List.filter (fun j => negb (matches p j)) (ledger sl)) (slot_pc sl) sl) s)
  end.
Definition clear_tomb (p : string) (s : Shared) : Shared := set_tombs (tombs s ∖ {[p]}) s.
Definition cancel_pending (p : string) (s : Shared) : Shared :=
  clear_tomb p (foldl (fun s i => cancel_ledger p i s) (cancel_queue p s) (seq 0 (length (slots s)))).

(** [flush]: the barrier, the polled condition and the result. *)
Definition bump_epoch (s : Shared) : Shared := set_epoch (barrier_epoch s + 1) s.
Definition flush_start (s : Shared) : Shared * Z :=
  (notify_waiters (bump_epoch s), barrier_epoch s + 1).
Definition flush_done (epoch : Z) (s : Shared) : bool :=
  forallb (fun sl => epoch <=? barrier_ack sl) (slots s).
Definition flush_total (s : Shared) : Z := sumZ (last_flush_count <$> slots s).

(** [fail_all_pending]: the best-effort close (not while the pump holds the
    deleter's lock), the two takes, and the failing of what was taken. *)
Definition shutdown_close (a : answer) (i : nat) (s : Shared) : Shared :=
  match slots s !! i with
  | Some sl =>
      match slot_pc sl with
      | Deleted _ => s
      | p => let '(d, sent, _) := d_close a (deleter sl) in request a sent (put_slot i (with_deleter d p sl) s)
      end
  | None => s
  end.
Definition take_pending (s : Shared) : Shared := set_taken (taken s ++ pending s) (set_pending [] s).
Definition take_ledger (i : nat) (s : Shared) : Shared :=
  match slots s !! i with
  | Some sl => set_taken (taken s ++ ledger sl) (put_slot i (with_ledger [] (slot_pc sl) sl) s)
  | None => s
  end.
Definition fail_taken (s : Shared) : Shared :=
  match taken s with
  | [] => s
  | job :: l =>
      add_stats 0 0 0 1 0
        (send job ReplyBrokenPipe (set_tombs (tombs s ∖ {[relative_path job]}) (set_taken l s)))
  end.

(** [create] puts an object; [unlink] inserts a tombstone. *)
Definition put_object (p : string) (s : Shared) : Shared :=
  set_backend (objects s ∪ {[p]}) (requested s) (refused s) s.
Definition insert_tomb (p : string) (s : Shared) : Shared := set_tombs (tombs s ∪ {[p]}) s.

(** ** Interleavings *)
Inductive action :=
| APump (a : answer) (timed_out : bool) (i : nat)
| APush (p : string)
| ANotifyOne
| ANotifyWaiters
| ACancelQueue (p : string)
| ACancelLedger (p : string) (i : nat)
| AClearTomb (p : string)
| ABump
| AStop
| AShutdownClose (a : answer) (i : nat)
| ATakePending
| ATakeLedger (i : nat)
| AFailTaken
| APut (p : string)
| ATomb (p : string).

Definition act (s : Shared) (x : action) : Shared :=
  match x with
  | APump a timed_out i => pump a timed_out i s
  | APush p => push_job p s
  | ANotifyOne => notify_one s
  | ANotifyWaiters => notify_waiters s
  | ACancelQueue p => cancel_queue p s
  | ACancelLedger p i => cancel_ledger p i s
  | AClearTomb p => clear_tomb p s
  | ABump => bump_epoch s
  | AStop => stop_accepting s
  | AShutdownClose a i => shutdown_close a i s
  | ATakePending => take_pending s
  | ATakeLedger i => take_ledger i s
  | AFailTaken => fail_taken s
  | APut p => put_object p s
  | ATomb p => insert_tomb p s
  end.
Definition acts (s : Shared) (l : list action) : Shared := foldl act s l.

(** ** Every job is in one place *)
Definition jobs_at (p : pc) : list PendingDelete :=
  match p with
  | Hand job | Deleted job => [job]
  | InClose _ l | Acking _ _ l => l
  | _ => []
  end.
Definition slot_jobs (sl : DeleterSlot) : list PendingDelete := jobs_at (slot_pc sl) ++ ledger sl.
Definition live (s : Shared) : list PendingDelete :=
  pending s ++ concat (slot_jobs <$> slots s) ++ taken s.
Definition all_jobs (s : Shared) : list PendingDelete := live s ++ (fst <$> replies s).

Abbreviation count := (count_occ job_eq_dec).
Lemma count_cons j l x : count (j :: l) x = (count [j] x + count l x)%nat.
Proof. change (j :: l) with ([j] ++ l). apply count_occ_app. Qed.
Lemma count_nil x : count [] x = 0%nat.
Proof. done. Qed.

(** Equality of the two sides as bags of jobs. *)
Ltac bag :=
  apply (Permutation_count_occ job_eq_dec);
  let x := fresh "x" in intros x;
  repeat match goal with
  | H : Permutation _ _ |- _ =>
      let H' := fresh in
      pose proof (proj1 (Permutation_count_occ job_eq_dec _ _) H x) as H'; clear H
  end;
  rewrite ?fmap_app, ?count_occ_app in *;
  repeat match goal with
  | H : context [count (?j :: ?l)] |- _ =>
      lazymatch l with [] => fail | _ => rewrite (count_cons j l) in H end
  | |- context [count (?j :: ?l)] =>
      lazymatch l with [] => fail | _ => rewrite (count_cons j l) end
  end;
  rewrite ?count_occ_app, ?count_nil in *; lia.

Lemma slots_split (l : list DeleterSlot) i sl : l !! i = Some sl ->
  exists rest, concat (slot_jobs <$> l) ≡ₚ slot_jobs sl ++ rest /\
    forall sl', concat (slot_jobs <$> <[i := sl']> l) ≡ₚ slot_jobs sl' ++ rest.
Proof.
  revert i. induction l as [|a l IH]; intros [|i] Hi; cbn in Hi; [done|done| |].
  - injection Hi as ->. exists (concat (slot_jobs <$> l)). split; [done|]. intros sl'. done.
  - destruct (IH i Hi) as (rest & E1 & E2). exists (slot_jobs a ++ rest).
    split; [rewrite fmap_cons; cbn [concat]; bag|]. intros sl'. specialize (E2 sl').
    change (<[S i := sl']> (a :: l)) with (a :: <[i := sl']> l). rewrite fmap_cons. cbn [concat]. bag.
Qed.

(** Moving jobs between a slot and elsewhere. *)
Lemma put_slot_jobs i sl sl' s : slots s !! i = Some sl ->
  slot_jobs sl ++ all_jobs (put_slot i sl' s) ≡ₚ slot_jobs sl' ++ all_jobs s.
Proof.
  intros Hi. destruct (slots_split _ _ _ Hi) as (rest & E1 & E2). specialize (E2 sl').
  unfold all_jobs, live. cbn [pending slots taken replies put_slot set_slots]. bag.
Qed.

Lemma alter_with_pc (l : list DeleterSlot) i : (forall sl, l !! i = Some sl -> jobs_at (slot_pc sl) = []) ->
  concat (slot_jobs <$> alter (with_pc Drain) i l) = concat (slot_jobs <$> l).
Proof.
  revert i. induction l as [|a l IH]; intros [|i] H; [done|done| |].
  - cbn. f_equal. unfold slot_jobs. cbn. by rewrite (H a eq_refl).
  - cbn. f_equal. apply IH. intros sl Hsl. by apply H.
Qed.

(** Updates of the other fields. *)
Lemma all_jobs_eq s s' :
  pending s' = pending s -> slots s' = slots s -> taken s' = taken s -> replies s' = replies s ->
  all_jobs s' = all_jobs s.
Proof. unfold all_jobs, live. by intros -> -> -> ->. Qed.

Lemma send_jobs job r s : all_jobs (send job r s) ≡ₚ job :: all_jobs s.
Proof.
  unfold all_jobs, live. cbn [pending slots taken replies send]. rewrite fmap_app. cbn [fmap list_fmap fst]. bag.
Qed.

Lemma reply_all_jobs r l s : all_jobs (reply_all r l s) ≡ₚ l ++ all_jobs s.
Proof.
  revert s. induction l as [|j l IH]; intros s; [done|]. cbn [reply_all foldl].
  change (foldl _ (send j r s) l) with (reply_all r l (send j r s)). rewrite IH, send_jobs. bag.
Qed.

Lemma set_pending_jobs l s : pending s ++ all_jobs (set_pending l s) ≡ₚ l ++ all_jobs s.
Proof. unfold all_jobs, live. cbn [pending slots taken replies set_pending]. bag. Qed.

Lemma set_taken_jobs l s : taken s ++ all_jobs (set_taken l s) ≡ₚ l ++ all_jobs s.
Proof. unfold all_jobs, live. cbn [pending slots taken replies set_taken]. bag. Qed.

(** A slot keeps its jobs. *)
Lemma put_slot_same i sl sl' s : slots s !! i = Some sl -> slot_jobs sl' ≡ₚ slot_jobs sl ->
  all_jobs (put_slot i sl' s) ≡ₚ all_jobs s.
Proof. intros Hi E. pose proof (put_slot_jobs i sl sl' s Hi). bag. Qed.

Lemma filter_split p (l : list PendingDelete) :
  List.filter (matches p) l ++ List.filter (fun j => negb (matches p j)) l ≡ₚ l.
Proof.
  induction l as [|j l IH]; [done|]. cbn [List.filter]. destruct (matches p j); cbn [negb app].
  - by rewrite IH.
  - rewrite <-Permutation_middle. by rewrite IH.
Qed.

Lemma close_batch_jobs a t n l i sl s : slots s !! i = Some sl -> jobs_at (slot_pc sl) = l ->
  all_jobs (close_batch a t n l i sl s) ≡ₚ all_jobs s.
Proof.
  intros Hi Hl. unfold close_batch. destruct (d_close a (deleter sl)) as [[d sent] ok].
  assert (Hj : forall sl', slot_jobs sl' ≡ₚ slot_jobs sl ->
                all_jobs (put_slot i sl' (request a sent s)) ≡ₚ all_jobs s).
  { intros sl' E. by rewrite (put_slot_same i sl sl' (request a sent s) Hi E). }
  case_test; [|case_test]; apply Hj; unfold slot_jobs; rewrite Hl; cbn; [done|bag|done].
Qed.

Lemma pump_slot_jobs a t i sl s : slots s !! i = Some sl ->
  all_jobs (pump_slot a t i sl s) ≡ₚ all_jobs s.
Proof.
  intros Hi. unfold pump_slot.
  assert (Hsame : forall sl', slot_jobs sl' ≡ₚ slot_jobs sl -> all_jobs (put_slot i sl' s) ≡ₚ all_jobs s)
    by (intros; by eapply put_slot_same).
  destruct (slot_pc sl) as [|job|job| |n|n l|r k [|job l]| |e| |] eqn:Epc.
  - destruct (pending s) as [|job rest] eqn:Ep.
    + apply Hsame. unfold slot_jobs. by rewrite Epc.
    + pose proof (put_slot_jobs i sl (with_pc (Hand job) sl) (set_pending rest s) Hi) as H1.
      pose proof (set_pending_jobs rest s) as H2. unfold slot_jobs in H1. rewrite Epc in H1. rewrite Ep in H2.
      cbn [jobs_at slot_pc ledger with_pc] in H1. bag.
  - unfold push_key. destruct (d_delete a (deleter sl) (relative_path job)) as [[d sent] ok].
    assert (H : all_jobs (put_slot i (with_deleter d (Deleted job) sl) s) ≡ₚ all_jobs s).
    { apply Hsame. unfold slot_jobs. by rewrite Epc. }
    by destruct ok.
  - apply Hsame. unfold slot_jobs. rewrite Epc. cbn. bag.
  - apply Hsame. unfold slot_jobs. rewrite Epc. cbn. by destruct (ledger sl).
  - destruct (ledger sl) as [|j l] eqn:El; apply Hsame; unfold slot_jobs; rewrite Epc; cbn; rewrite ?El; [done|bag].
  - apply close_batch_jobs; [done|by rewrite Epc].
  - apply Hsame. unfold slot_jobs. by rewrite Epc.
  - pose proof (put_slot_jobs i sl (with_pc (Acking r k l) sl)
      (send job r (set_tombs (tombs s ∖ {[relative_path job]}) s)) Hi) as H1.
    pose proof (send_jobs job r (set_tombs (tombs s ∖ {[relative_path job]}) s)) as H2.
    change (all_jobs (set_tombs _ s)) with (all_jobs s) in H2.
    unfold slot_jobs in H1. rewrite Epc in H1. cbn [jobs_at slot_pc ledger with_pc] in H1. bag.
  - apply Hsame. unfold slot_jobs. by rewrite Epc.
  - apply Hsame. unfold slot_jobs. by rewrite Epc.
  - destruct (permit s).
    + rewrite (put_slot_same i sl _ (set_notify false (waiters s) s) Hi); [done|]. unfold slot_jobs. by rewrite Epc.
    + rewrite (put_slot_same i sl _ (set_notify false (waiters s ++ [i]) s) Hi); [done|].
      unfold slot_jobs. by rewrite Epc.
  - done.
Qed.

(** ** Well-formed states *)

(** A pump past its flush has an empty ledger; what it acknowledges was
    announced; retries are bounded. *)
Definition slot_ok (epoch : Z) (sl : DeleterSlot) : Prop :=
  barrier_ack sl <= epoch /\
  match slot_pc sl with
  | Acking _ _ _ | LoadEpoch | ToWait | Waiting => ledger sl = []
  | StoreAck e => ledger sl = [] /\ e <= epoch
  | FlushTop n => 0 <= n <= Z.max 0 max_retries
  | InClose n _ => ledger sl = [] /\ 0 <= n <= Z.max 0 max_retries
  | _ => True
  end.
Definition waiters_ok (s : Shared) : Prop :=
  NoDup (waiters s) /\ forall i, i ∈ waiters s -> slot_pc <$> slots s !! i = Some Waiting.
Definition wf (s : Shared) : Prop :=
  Forall (slot_ok (barrier_epoch s)) (slots s) /\ waiters_ok s /\
  0 <= next_tx s /\ result_tx <$> all_jobs s ≡ₚ seqZ 0 (next_tx s).

(** *** Actions other than the pump's only shrink queues and wake sleepers *)
Definition slot_mild (sl sl' : DeleterSlot) : Prop :=
  ledger sl' `sublist_of` ledger sl /\ barrier_ack sl' = barrier_ack sl /\
  (slot_pc sl' = slot_pc sl \/ slot_pc sl = Waiting /\ slot_pc sl' = Drain).
Record mild (s s' : Shared) : Prop := {
  mild_pending : pending s' ⊆ pending s;
  mild_slots : Forall2 slot_mild (slots s) (slots s');
  mild_epoch : barrier_epoch s <= barrier_epoch s';
  mild_next : next_tx s' = next_tx s
}.

Lemma filter_sublist {A} (f : A -> bool) (l : list A) : List.filter f l `sublist_of` l.
Proof. induction l as [|x l IH]; [constructor|]. cbn. destruct (f x); by constructor. Qed.

Lemma sublist_sub {A} (l l' : list A) : l' `sublist_of` l -> l' ⊆ l.
Proof. induction 1; intros y; set_solver. Qed.

Lemma slot_mild_refl sl : slot_mild sl sl.
Proof. split_and!; [done|done|by left]. Qed.

Lemma slots_mild_refl (l : list DeleterSlot) : Forall2 slot_mild l l.
Proof. induction l; constructor; [apply slot_mild_refl|done]. Qed.

Lemma slots_mild_insert (l : list DeleterSlot) i sl sl' :
  l !! i = Some sl -> slot_mild sl sl' -> Forall2 slot_mild l (<[i := sl']> l).
Proof.
  revert i. induction l as [|a l IH]; intros [|i] Hi Hm; cbn in Hi; [done|done| |].
  - injection Hi as ->. constructor; [done|apply slots_mild_refl].
  - constructor; [apply slot_mild_refl|by apply IH].
Qed.

Lemma slots_mild_wake (l l' : list DeleterSlot) i :
  Forall2 slot_mild l l' -> (forall sl, l !! i = Some sl -> slot_pc sl = Waiting) ->
  Forall2 slot_mild l (alter (with_pc Drain) i l').
Proof.
  intros H. revert i. induction H as [|a b l l' Hab H IH]; intros i Hi; [constructor|].
  destruct i as [|i]; cbn; constructor; [|done|done|].
  - destruct Hab as (H1 & H2 & H3). specialize (Hi a eq_refl). split_and!; [done|done|by right].
  - apply IH. intros sl Hsl. by apply Hi.
Qed.

Lemma slot_mild_ok e e' sl sl' : e <= e' -> slot_mild sl sl' -> slot_ok e sl -> slot_ok e' sl'.
Proof.
  intros He (Hl & Ha & Hp) [H1 H2]. split; [lia|].
  assert (Hnil : ledger sl = [] -> ledger sl' = []).
  { intros E. rewrite E in Hl. by apply sublist_nil_r in Hl. }
  destruct Hp as [->|[E ->]]; [|done]. destruct (slot_pc sl); auto; destruct H2; split; (auto || lia).
Qed.

Lemma mild_ok s s' : mild s s' ->
  Forall (slot_ok (barrier_epoch s)) (slots s) -> Forall (slot_ok (barrier_epoch s')) (slots s').
Proof.
  intros [_ Hs He _]. revert He. generalize (barrier_epoch s) (barrier_epoch s'). intros e e' He H.
  induction Hs as [|sl sl' l l' Hm Hs IH]; [done|]. apply Forall_cons in H as [H1 H2].
  constructor; [by eapply slot_mild_ok|auto].
Qed.

Lemma mild_put i sl sl' s : slots s !! i = Some sl -> slot_mild sl sl' -> mild s (put_slot i sl' s).
Proof. intros Hi Hm. split; cbn; [done|by eapply slots_mild_insert|done|done]. Qed.

Lemma reply_all_fields r l s :
  let s' := reply_all r l s in
  pending s' = pending s /\ slots s' = slots s /\ waiters s' = waiters s /\ taken s' = taken s /\
  barrier_epoch s' = barrier_epoch s /\ next_tx s' = next_tx s /\
  requested s' = requested s /\ refused s' = refused s /\
  replies s' = replies s ++ ((fun j => (j, r)) <$> l).
Proof.
  revert s. induction l as [|j l IH]; intros s; cbn [reply_all foldl]; [split_and!; try done; by rewrite app_nil_r|].
  change (foldl _ (send j r s) l) with (reply_all r l (send j r s)).
  destruct (IH (send j r s)) as (-> & -> & -> & -> & -> & -> & -> & -> & ->). cbn.
  split_and!; try done. by rewrite <-app_assoc.
Qed.

Lemma mild_same s s' : pending s' ⊆ pending s -> slots s' = slots s ->
  barrier_epoch s <= barrier_epoch s' -> next_tx s' = next_tx s -> mild s s'.
Proof. intros H1 H2 H3 H4. split; [done|rewrite H2; apply slots_mild_refl|done|done]. Qed.

Lemma mild_ext s s' s'' : pending s'' = pending s' -> slots s'' = slots s' ->
  barrier_epoch s'' = barrier_epoch s' -> next_tx s'' = next_tx s' -> mild s s' -> mild s s''.
Proof. intros E1 E2 E3 E4 [M1 M2 M3 M4]. split; rewrite ?E1, ?E2, ?E3, ?E4; done. Qed.

(** The waiters stay asleep when their slots' counters do not move. *)
Lemma waiters_put i sl sl' s : waiters_ok s -> slots s !! i = Some sl ->
  slot_pc sl = slot_pc sl' \/ slot_pc sl <> Waiting -> waiters_ok (put_slot i sl' s).
Proof.
  intros [HN HW] Hi Hpc. split; [done|]. intros k Hk. cbn [put_slot set_slots slots waiters] in *.
  specialize (HW k Hk). destruct (decide (i = k)) as [->|Hne]; [|by rewrite list_lookup_insert_ne].
  rewrite list_lookup_insert_eq by (by eapply lookup_lt_Some). cbn. rewrite Hi in HW. cbn in HW.
  destruct Hpc as [<-|Hpc]; [done|congruence].
Qed.

Lemma waiters_same s s' : waiters s' = waiters s -> slots s' = slots s -> waiters_ok s -> waiters_ok s'.
Proof. unfold waiters_ok. by intros -> ->. Qed.

(** *** Waking *)
Definition asleep (l : list DeleterSlot) (i : nat) : Prop :=
  forall sl, l !! i = Some sl -> slot_pc sl = Waiting.

Lemma waiter_asleep s i : waiters_ok s -> i ∈ waiters s -> asleep (slots s) i.
Proof. intros [_ HW] Hi sl Hsl. specialize (HW i Hi). rewrite Hsl in HW. cbn in HW. congruence. Qed.

Lemma wake_concat (l : list DeleterSlot) i :
  asleep l i \/ (exists sl, l !! i = Some sl /\ slot_pc sl = Drain) ->
  concat (slot_jobs <$> alter (with_pc Drain) i l) = concat (slot_jobs <$> l).
Proof.
  intros H. apply alter_with_pc. intros sl Hsl.
  destruct H as [H|(sl' & E & H)]; [by rewrite (H sl Hsl)|]. assert (sl = sl') as -> by congruence. by rewrite H.
Qed.

Lemma notify_one_facts s : waiters_ok s ->
  mild s (notify_one s) /\ waiters_ok (notify_one s) /\ all_jobs (notify_one s) = all_jobs s.
Proof.
  intros Hw. unfold notify_one. destruct (waiters s) as [|i ws] eqn:Ew.
  - split_and!; [by apply mild_same|split; cbn; [constructor|set_solver]|done].
  - assert (Ha : asleep (slots s) i) by (apply (waiter_asleep s i Hw); rewrite Ew; by left).
    destruct Hw as [HN HW]. rewrite Ew in HN, HW. apply NoDup_cons in HN as [Hni HN]. split_and!.
    + split; cbn; [done| |done|done]. apply slots_mild_wake; [apply slots_mild_refl|done].
    + split; cbn; [done|]. intros k Hk. rewrite list_lookup_alter_ne by (by intros ->). apply HW. by right.
    + unfold all_jobs, live. cbn. by rewrite wake_concat by (by left).
Qed.

Lemma foldr_wake_fields ws s :
  let s' := foldr wake s ws in
  pending s' = pending s /\ waiters s' = waiters s /\ taken s' = taken s /\ replies s' = replies s /\
  barrier_epoch s' = barrier_epoch s /\ next_tx s' = next_tx s /\
  slots s' = foldr (alter (with_pc Drain)) (slots s) ws.
Proof.
  induction ws as [|i ws IH]; [done|]. cbn. destruct IH as (H1 & H2 & H3 & H4 & H5 & H6 & H7).
  by rewrite H7.
Qed.

Lemma wake_all (l : list DeleterSlot) ws : (forall i, i ∈ ws -> asleep l i) ->
  Forall2 slot_mild l (foldr (alter (with_pc Drain)) l ws) /\
  concat (slot_jobs <$> foldr (alter (with_pc Drain)) l ws) = concat (slot_jobs <$> l).
Proof.
  induction ws as [|i ws IH]; intros H; [split; [apply slots_mild_refl|done]|].
  destruct IH as [IH1 IH2]; [intros k Hk; apply H; by right|]. cbn [foldr]. split.
  - apply slots_mild_wake; [done|]. apply H. by left.
  - rewrite wake_concat; [done|]. set (l' := foldr _ _ _) in *.
    destruct (l' !! i) as [sl'|] eqn:E; [|left; intros sl; congruence].
    destruct (Forall2_lookup_r _ _ _ _ _ IH1 E) as (sl & E' & _ & _ & Hpc).
    pose proof (H i (list_elem_of_here _ _) sl E') as Hs.
    destruct Hpc as [Hpc|[_ Hpc]]; [left|right; by exists sl'].
    intros sl'' E''. assert (sl'' = sl') as -> by congruence. congruence.
Qed.

Lemma notify_waiters_facts s : waiters_ok s ->
  mild s (notify_waiters s) /\ waiters_ok (notify_waiters s) /\ all_jobs (notify_waiters s) = all_jobs s.
Proof.
  intros Hw. unfold notify_waiters.
  destruct (foldr_wake_fields (waiters s) (set_notify (permit s) [] s)) as (H1 & H2 & H3 & H4 & H5 & H6 & H7).
  destruct (wake_all (slots s) (waiters s)) as [Hm Hc]; [intros k Hk; by apply (waiter_asleep s k Hw)|].
  split_and!.
  - split; rewrite ?H1, ?H5, ?H6, ?H7; done.
  - split; rewrite H2; cbn; [constructor|set_solver].
  - unfold all_jobs, live. rewrite H1, H3, H4, H7. cbn. by rewrite Hc.
Qed.

(** *** The remaining actions *)
Definition is_mild (x : action) : bool :=
  match x with APump _ _ _ | APush _ => false | _ => true end.

Lemma cancel_ledger_facts p i s : waiters_ok s ->
  mild s (cancel_ledger p i s) /\ waiters_ok (cancel_ledger p i s) /\
  all_jobs (cancel_ledger p i s) ≡ₚ all_jobs s.
Proof.
  intros Hw. unfold cancel_ledger.
  destruct (slots s !! i) as [sl|] eqn:Hi; [|split_and!; [by apply mild_same|done|done]].
  set (sl' := with_ledger _ _ sl). set (l := List.filter (matches p) (ledger sl)).
  destruct (reply_all_fields ReplyInterrupted l (put_slot i sl' s)) as (E1 & E2 & E3 & E4 & E5 & E6 & _).
  assert (Hm : mild s (put_slot i sl' s)).
  { apply (mild_put i sl sl' s Hi). split_and!; [apply filter_sublist|done|by left]. }
  split_and!.
  - by apply (mild_ext s (put_slot i sl' s)).
  - apply (waiters_same (put_slot i sl' s)); [done|done|]. apply (waiters_put i sl sl' s Hw Hi). by left.
  - rewrite reply_all_jobs. pose proof (put_slot_jobs i sl sl' s Hi) as H.
    unfold slot_jobs in H. cbn [sl' with_ledger ledger slot_pc] in H.
    pose proof (filter_split p (ledger sl)) as Hf. fold l in Hf. bag.
Qed.

Lemma act_mild x s : waiters_ok s -> is_mild x = true ->
  mild s (act s x) /\ waiters_ok (act s x) /\ all_jobs (act s x) ≡ₚ all_jobs s.
Proof.
  intros Hw Hx. destruct x as [a t i|p| | |p|p i|p| | |a i| |i| |p|p]; cbn [act]; try done;
    try (split_and!; [by apply mild_same|by apply (waiters_same s)|done]).
  - destruct (notify_one_facts s Hw) as (H1 & H2 & ->). done.
  - destruct (notify_waiters_facts s Hw) as (H1 & H2 & ->). done.
  - unfold cancel_queue. set (l := List.filter (matches p) (pending s)).
    destruct (reply_all_fields ReplyInterrupted l
      (set_pending (List.filter (fun j => negb (matches p j)) (pending s)) s)) as (E1 & E2 & E3 & E4 & E5 & E6 & _).
    split_and!; [apply mild_same|by apply (waiters_same s)|].
    + rewrite E1. apply sublist_sub, filter_sublist.
    + by rewrite E2.
    + by rewrite E5.
    + by rewrite E6.
    + rewrite reply_all_jobs. pose proof (set_pending_jobs (List.filter (fun j => negb (matches p j)) (pending s)) s).
      pose proof (filter_split p (pending s)) as Hf. fold l in Hf. bag.
  - by apply cancel_ledger_facts.
  - split_and!; [apply mild_same; cbn; (done || lia)|by apply (waiters_same s)|done].
  - unfold shutdown_close. destruct (slots s !! i) as [sl|] eqn:Hi; [|split_and!; [by apply mild_same|done|done]].
    assert (Hd : forall d sent, let s' := request a sent (put_slot i (with_deleter d (slot_pc sl) sl) s) in
      mild s s' /\ waiters_ok s' /\ all_jobs s' ≡ₚ all_jobs s).
    { intros d sent s'. split_and!.
      - apply (mild_ext s (put_slot i (with_deleter d (slot_pc sl) sl) s)); [done..|].
        apply (mild_put i sl _ s Hi). split_and!; [done|done|by left].
      - apply (waiters_put i sl (with_deleter d (slot_pc sl) sl) s Hw Hi). by left.
      - apply (put_slot_same i sl (with_deleter d (slot_pc sl) sl) s Hi). done. }
    destruct (slot_pc sl); try (destruct (d_close a (deleter sl)) as [[d sent] ok]; apply Hd).
    split_and!; [by apply mild_same|done|done].
  - split_and!; [apply mild_same; cbn; [set_solver|done|done|done]|by apply (waiters_same s)|].
    unfold take_pending. pose proof (set_taken_jobs (taken s ++ pending s) (set_pending [] s)) as H1.
    pose proof (set_pending_jobs [] s) as H2. cbn [taken set_pending] in H1. bag.
  - unfold take_ledger. destruct (slots s !! i) as [sl|] eqn:Hi; [|split_and!; [by apply mild_same|done|done]].
    split_and!.
    + apply (mild_ext s (put_slot i (with_ledger [] (slot_pc sl) sl) s)); [done..|].
      apply (mild_put i sl _ s Hi). split_and!; [apply sublist_nil_l|done|by left].
    + apply (waiters_put i sl (with_ledger [] (slot_pc sl) sl) s Hw Hi). by left.
    + pose proof (put_slot_jobs i sl (with_ledger [] (slot_pc sl) sl) s Hi) as H1.
      pose proof (set_taken_jobs (taken s ++ ledger sl) (put_slot i (with_ledger [] (slot_pc sl) sl) s)) as H2.
      unfold slot_jobs in H1. cbn [with_ledger ledger slot_pc taken put_slot set_slots] in H1, H2. bag.
  - unfold fail_taken. destruct (taken s) as [|job l] eqn:Et; [split_and!; [by apply mild_same|done|done]|].
    split_and!; [by apply mild_same|by apply (waiters_same s)|].
    pose proof (send_jobs job ReplyBrokenPipe
      (set_tombs (tombs s ∖ {[relative_path job]}) (set_taken l s))) as H1.
    change (all_jobs (set_tombs _ (set_taken l s))) with (all_jobs (set_taken l s)) in H1.
    pose proof (set_taken_jobs l s) as H2. rewrite Et in H2.
    change (all_jobs (add_stats _ _ _ _ _ ?s)) with (all_jobs s). bag.
Qed.

(** *** The pump *)

(** Between seeing the queue empty and loading the epoch. *)
Definition post_drain (sl : DeleterSlot) : bool :=
  match slot_pc sl with
  | CheckLedger | FlushTop _ | InClose _ _ | Acking _ _ _ | LoadEpoch => true
  | _ => false
  end.
(** The slot has acknowledged the barrier, or is about to. *)
Definition past (e : Z) (sl : DeleterSlot) : bool :=
  (e <=? barrier_ack sl) || match slot_pc sl with StoreAck e' => e <=? e' | _ => false end.

(** What one step does to its slot and to the shared fields. *)
Record pump_step (e : Z) (i : nat) (sl : DeleterSlot) (s s' : Shared) (sl' : DeleterSlot) : Prop := {
  ps_slots : slots s' = <[i := sl']> (slots s);
  ps_ok : slot_ok (barrier_epoch s) sl';
  ps_pending : pending s' ⊆ pending s;
  ps_jobs : slot_jobs sl' ⊆ slot_jobs sl ++ pending s;
  ps_post : post_drain sl' = true -> post_drain sl = true \/ pending s = [];
  ps_past : past e sl' = true -> past e sl = true \/ slot_pc sl = LoadEpoch;
  ps_epoch : barrier_epoch s' = barrier_epoch s;
  ps_next : next_tx s' = next_tx s;
  ps_waiters : waiters s' = waiters s \/ waiters s' = waiters s ++ [i] /\ slot_pc sl' = Waiting
}.

Ltac pump_fields := cbn [slots pending barrier_epoch next_tx waiters put_slot set_slots set_pending
  set_notify set_tombs send request set_backend add_stats set_stats with_pc with_ledger with_deleter
  deleter ledger barrier_ack last_flush_count slot_pc].
Ltac pump_case Epc Hok := econstructor; pump_fields;
  [reflexivity
  |destruct Hok as [? Hok']; rewrite ?Epc in *; split; [try done|cbn in *; try done; try lia; try (split; (done || lia))]
  |try set_solver
  |unfold slot_jobs; rewrite Epc; cbn; try set_solver
  |unfold post_drain; rewrite Epc; cbn; try (by left); try done
  |unfold past; rewrite Epc; cbn; rewrite ?orb_false_r; try (by left)
  |done|done|try (by left)].

Lemma pump_slot_step a t i sl s e : slots s !! i = Some sl -> slot_ok (barrier_epoch s) sl ->
  slot_pc sl <> Waiting -> exists sl', pump_step e i sl s (pump_slot a t i sl s) sl'.
Proof.
  intros Hi Hok Hnw. unfold pump_slot.
  destruct (slot_pc sl) as [|job|job| |n|n l|r k [|job l]| |e'| |] eqn:Epc; [..|done].
  - destruct (pending s) as [|job rest] eqn:Ep; eexists; pump_case Epc Hok; rewrite ?Ep; set_solver.
  - unfold push_key. destruct (d_delete a (deleter sl) (relative_path job)) as [[d sent] ok].
    exists (with_deleter d (Deleted job) sl). destruct ok; pump_case Epc Hok.
  - eexists; pump_case Epc Hok.
  - destruct (ledger sl) as [|j l] eqn:El; eexists; pump_case Epc Hok; rewrite ?El; try done; lia.
  - destruct (ledger sl) as [|j l] eqn:El; eexists; pump_case Epc Hok; rewrite ?El; try done; set_solver.
  - unfold close_batch. destruct (d_close a (deleter sl)) as [[d sent] ok].
    case_test; [|case_test]; eexists; pump_case Epc Hok; tauto.
  - eexists; pump_case Epc Hok.
  - eexists; pump_case Epc Hok.
  - eexists; pump_case Epc Hok. by right.
  - eexists; pump_case Epc Hok; [destruct Hok'; cbn; case_test; lia|tauto|].
    intros He. left. apply orb_true_iff. revert He. case_test; auto.
  - destruct (permit s); eexists; pump_case Epc Hok. by right.
Qed.

Lemma pump_waiters a t i s : Forall (slot_ok (barrier_epoch s)) (slots s) -> waiters_ok s ->
  waiters_ok (pump a t i s).
Proof.
  intros HF Hw. unfold pump. destruct (slots s !! i) as [sl|] eqn:Hi; [|done].
  destruct (decide (slot_pc sl = Waiting)) as [E|Hnw]; [unfold pump_slot; by rewrite E|].
  destruct (pump_slot_step a t i sl s 0 Hi (Forall_lookup_1 _ _ _ _ HF Hi) Hnw) as [sl' H].
  destruct Hw as [HN HW].
  assert (Hni : i ∉ waiters s).
  { intros Hin. specialize (HW i Hin). rewrite Hi in HW. cbn in HW. congruence. }
  assert (Hold : forall k, k ∈ waiters s -> slot_pc <$> slots (pump_slot a t i sl s) !! k = Some Waiting).
  { intros k Hk. rewrite (ps_slots _ _ _ _ _ _ H). rewrite list_lookup_insert_ne by (by intros ->). auto. }
  destruct (ps_waiters _ _ _ _ _ _ H) as [E|[E Hpc]].
  - split; rewrite E; auto.
  - split; rewrite E.
    + apply NoDup_app. split_and!; [done|set_solver|apply NoDup_singleton].
    + intros k. rewrite elem_of_app, list_elem_of_singleton. intros [Hk| ->]; [auto|].
      rewrite (ps_slots _ _ _ _ _ _ H), list_lookup_insert_eq by (by eapply lookup_lt_Some). cbn. by rewrite Hpc.
Qed.

Lemma pump_ok a t i s : Forall (slot_ok (barrier_epoch s)) (slots s) ->
  Forall (slot_ok (barrier_epoch (pump a t i s))) (slots (pump a t i s)) /\
  next_tx (pump a t i s) = next_tx s.
Proof.
  intros HF. unfold pump. destruct (slots s !! i) as [sl|] eqn:Hi; [|done].
  destruct (decide (slot_pc sl = Waiting)) as [E|Hnw]; [unfold pump_slot; by rewrite E|].
  destruct (pump_slot_step a t i sl s 0 Hi (Forall_lookup_1 _ _ _ _ HF Hi) Hnw) as [sl' H].
  rewrite (ps_slots _ _ _ _ _ _ H), (ps_epoch _ _ _ _ _ _ H). split; [|apply H].
  apply Forall_insert; [done|apply H].
Qed.

Lemma pump_jobs a t i s : all_jobs (pump a t i s) ≡ₚ all_jobs s.
Proof. unfold pump. destruct (slots s !! i) eqn:Hi; [by apply pump_slot_jobs|done]. Qed.

Lemma act_wf x s : wf s -> wf (act s x).
Proof.
  intros (Hok & Hw & Hn & Hp). destruct (is_mild x) eqn:Hx.
  - destruct (act_mild x s Hw Hx) as (Hm & Hw' & Hj). split_and!; [by apply (mild_ok s)|done| |].
    + by rewrite (mild_next _ _ Hm).
    + rewrite (mild_next _ _ Hm), <-Hp. by apply fmap_Permutation.
  - destruct x as [a t i|p| | | | | | | | | | | | |]; try done; cbn [act].
    + destruct (pump_ok a t i s Hok) as [Hok' Hnx]. split_and!; [done|by apply pump_waiters|by rewrite Hnx|].
      rewrite Hnx, <-Hp. apply fmap_Permutation, pump_jobs.
    + split_and!; [done|done|cbn; lia|]. cbn [push_job next_tx].
      rewrite seqZ_app by lia. change (seqZ (0 + next_tx s) 1) with [next_tx s]. rewrite <-Hp.
      assert (E : all_jobs (push_job p s) ≡ₚ all_jobs s ++ [mk_job (next_tx s) p]).
      { unfold all_jobs, live. cbn [push_job pending slots taken replies]. bag. }
      rewrite E, fmap_app. done.
Qed.

Lemma spawn_wf n objs t : wf (spawn n objs t).
Proof.
  split_and!; [|split; [constructor|cbn; set_solver]|done|].
  - cbn. apply Forall_replicate. split; done.
  - unfold all_jobs, live. cbn [spawn pending slots taken replies].
    induction (Z.to_nat (Z.max n 1)) as [|k IH]; [done|]. done.
Qed.

Lemma acts_wf l s : wf s -> wf (acts s l).
Proof. revert s. induction l as [|x l IH]; intros s Hs; [done|]. apply IH, act_wf, Hs. Qed.

(** C8: in every interleaving of pumps, callers, cancellations, barriers and
    shutdowns, each channel handed out by [enqueue] belongs to exactly one
    job that is still queued, held or in a ledger, or has received exactly one
    reply. *)
Theorem replies_exactly_once n objs t l :
  let s := acts (spawn n objs t) l in
  result_tx <$> (live s ++ (fst <$> replies s)) ≡ₚ seqZ 0 (next_tx s) /\
  NoDup (result_tx <$> (live s ++ (fst <$> replies s))).
Proof.
  intros s. destruct (acts_wf l _ (spawn_wf n objs t)) as (_ & _ & _ & H). fold s in H.
  split; [done|]. rewrite H. apply NoDup_seqZ.
Qed.

(** ** The barrier *)
Section Barrier.
(** [e] is the epoch of a [flush], [n] the number of channels handed out when
    it started. *)
Context (e n : Z).
Definition young (job : PendingDelete) : Prop := n <= result_tx job.
Definition barrier_inv (s : Shared) : Prop :=
  n <= next_tx s /\
  (Exists (fun sl => post_drain sl = true \/ past e sl = true) (slots s) -> Forall young (pending s)) /\
  Forall (fun sl => past e sl = true -> Forall young (slot_jobs sl)) (slots s).

Lemma Forall_sub (l l' : list PendingDelete) : l' ⊆ l -> Forall young l -> Forall young l'.
Proof. rewrite !Forall_forall. intros H HF x Hx. apply HF. set_solver. Qed.

Lemma slot_mild_flags sl sl' : slot_mild sl sl' ->
  (post_drain sl' = true -> post_drain sl = true) /\ (past e sl' = true -> past e sl = true) /\
  slot_jobs sl' ⊆ slot_jobs sl.
Proof.
  intros (Hl & Ha & Hp). apply sublist_sub in Hl. unfold post_drain, past, slot_jobs. rewrite Ha.
  destruct Hp as [->|[-> ->]]; split_and!; auto; set_solver.
Qed.

Lemma barrier_mild s s' : mild s s' -> barrier_inv s -> barrier_inv s'.
Proof.
  intros [M1 M2 M3 M4] (Hn & Hp & Hj). split_and!; [lia| |].
  - intros Hex. apply (Forall_sub _ _ M1), Hp. clear -M2 Hex.
    induction M2 as [|sl sl' l l' Hm M2 IH]; [done|].
    destruct (slot_mild_flags _ _ Hm) as (F1 & F2 & _).
    apply Exists_cons in Hex as [[H|H]|H]; apply Exists_cons; auto.
  - clear -M2 Hj. induction M2 as [|sl sl' l l' Hm M2 IH]; [done|].
    apply Forall_cons in Hj as [H1 H2]. destruct (slot_mild_flags _ _ Hm) as (_ & F2 & F3).
    constructor; [|auto]. intros H. apply (Forall_sub _ _ F3). auto.
Qed.

Lemma barrier_pump a t i s : Forall (slot_ok (barrier_epoch s)) (slots s) ->
  barrier_inv s -> barrier_inv (pump a t i s).
Proof.
  intros HF (Hn & Hp & Hj). unfold pump. destruct (slots s !! i) as [sl|] eqn:Hi; [|done].
  destruct (decide (slot_pc sl = Waiting)) as [E|Hnw]; [unfold pump_slot; by rewrite E|].
  pose proof (Forall_lookup_1 _ _ _ _ HF Hi) as Hok.
  destruct (pump_slot_step a t i sl s e Hi Hok Hnw) as [sl' [E1 _ E3 E4 E5 E6 _ E8 _]].
  pose proof (Forall_lookup_1 _ _ _ _ Hj Hi) as Hsl.
  assert (Hflag : post_drain sl = true \/ past e sl = true -> Forall young (pending s)).
  { intros H. apply Hp, Exists_exists. exists sl. split; [|done]. by eapply list_elem_of_lookup_2. }
  assert (Hload : slot_pc sl = LoadEpoch -> slot_jobs sl = [] /\ post_drain sl = true).
  { intros El. destruct Hok as [_ Hok]. unfold slot_jobs, post_drain. rewrite El in *. by rewrite Hok. }
  split_and!; [lia| |].
  - intros Hex. apply (Forall_sub _ _ E3). rewrite E1 in Hex.
    apply Exists_exists in Hex as (sl0 & Hin & Hf). apply list_elem_of_lookup in Hin as [k Hk].
    apply list_lookup_insert_Some in Hk as [(-> & <- & _)|[_ Hk]].
    + destruct Hf as [Hf|Hf]; [destruct (E5 Hf) as [H|H]; [auto|by rewrite H]|].
      destruct (E6 Hf) as [H|H]; [auto|]. destruct (Hload H). auto.
    + apply Hp, Exists_exists. exists sl0. split; [|done]. by eapply list_elem_of_lookup_2.
  - rewrite E1. apply Forall_insert; [done|]. intros Hf. apply (Forall_sub _ _ E4), Forall_app.
    destruct (E6 Hf) as [H|H]; [auto|]. destruct (Hload H) as [-> Hpd]. auto.
Qed.

Lemma barrier_act x s : wf s -> barrier_inv s -> barrier_inv (act s x).
Proof.
  intros (Hok & Hw & _) Hb. destruct (is_mild x) eqn:Hx.
  - destruct (act_mild x s Hw Hx) as (Hm & _). by eapply barrier_mild.
  - destruct x as [a t i|p| | | | | | | | | | | | |]; try done; cbn [act]; [by apply barrier_pump|].
    destruct Hb as (Hn & Hp & Hj). split_and!; cbn [push_job next_tx pending slots]; [lia| |done].
    intros Hex. apply Forall_app. split; [auto|]. constructor; [done|constructor].
Qed.

Lemma barrier_acts l s : wf s -> barrier_inv s -> barrier_inv (acts s l).
Proof.
  revert s. induction l as [|x l IH]; intros s Hs Hb; [done|].
  apply IH; [by apply act_wf|by apply barrier_act].
Qed.
End Barrier.

Lemma act_slots x s : wf s -> length (slots (act s x)) = length (slots s).
Proof.
  intros (Hok & Hw & _). destruct (is_mild x) eqn:Hx.
  - destruct (act_mild x s Hw Hx) as (Hm & _). symmetry. by eapply Forall2_length, mild_slots.
  - destruct x as [a t i|p| | | | | | | | | | | | |]; try done; cbn [act].
    unfold pump. destruct (slots s !! i) as [sl|] eqn:Hi; [|done].
    destruct (decide (slot_pc sl = Waiting)) as [E|Hnw]; [unfold pump_slot; by rewrite E|].
    destruct (pump_slot_step a t i sl s 0 Hi (Forall_lookup_1 _ _ _ _ Hok Hi) Hnw) as [sl' [E1 _ _ _ _ _ _ _ _]].
    by rewrite E1, length_insert.
Qed.

Lemma acts_slots l s : wf s -> length (slots (acts s l)) = length (slots s).
Proof.
  revert s. induction l as [|x l IH]; intros s Hs; [done|].
  cbn [acts foldl]. change (foldl act (act s x) l) with (acts (act s x) l).
  by rewrite IH, act_slots by (try apply act_wf; done).
Qed.

Lemma barrier_start s : wf s -> Forall (fun sl => post_drain sl = false) (slots s) ->
  barrier_inv (barrier_epoch s + 1) (next_tx s) (bump_epoch s).
Proof.
  intros (Hok & _) Hpre.
  assert (Hnp : Forall (fun sl => past (barrier_epoch s + 1) sl = false) (slots s)).
  { eapply Forall_impl; [exact Hok|]. intros sl [H1 H2]. unfold past. apply orb_false_iff.
    split; [lia|]. destruct (slot_pc sl); try done. destruct H2. lia. }
  split_and!; [done| |].
  - intros Hex. exfalso. cbn in Hex. apply Exists_exists in Hex as (sl & Hin & H).
    rewrite Forall_forall in Hpre, Hnp. specialize (Hpre sl Hin). specialize (Hnp sl Hin).
    destruct H; congruence.
  - cbn. eapply Forall_impl; [exact Hnp|]. intros sl H. congruence.
Qed.

Lemma flush_done_young e n s : barrier_inv e n s -> (0 < length (slots s))%nat -> flush_done e s = true ->
  Forall (young n) (pending s) /\ Forall (young n) (concat (slot_jobs <$> slots s)).
Proof.
  intros (_ & Hp & Hj) Hlen Hd. unfold flush_done in Hd. rewrite forallb_forall in Hd.
  assert (Hpast : forall sl, sl ∈ slots s -> past e sl = true).
  { intros sl Hsl. unfold past. rewrite (Hd sl); [done|]. by apply list_elem_of_In. }
  split.
  - apply Hp. destruct (slots s) as [|sl l] eqn:E; [cbn in Hlen; lia|]. apply Exists_cons. left. right.
    apply Hpast. by left.
  - apply Forall_forall. intros j Hin. apply list_elem_of_In, in_concat in Hin as (l & Hl & Hjl).
    apply list_elem_of_In, list_elem_of_fmap in Hl as (sl & -> & Hsl).
    rewrite Forall_forall in Hj. specialize (Hj sl Hsl (Hpast sl Hsl)). rewrite Forall_forall in Hj.
    apply Hj. by apply list_elem_of_In.
Qed.

(** C29: the rmdir barrier.  If no pump is between emptying the queue and loading
    the epoch when [flush] starts, then once [flush] sees every slot
    acknowledge, each job enqueued before has its reply, or was taken by a
    shutdown. *)
Theorem flush_barrier n objs t l l' :
  let s := acts (spawn n objs t) l in
  let s1 := fst (flush_start s) in
  let s2 := acts s1 l' in
  Forall (fun sl => post_drain sl = false) (slots s) ->
  flush_done (snd (flush_start s)) s2 = true ->
  forall id, 0 <= id < next_tx s -> id ∈ result_tx <$> (taken s2 ++ (fst <$> replies s2)).
Proof.
  intros s s1 s2 Hpre Hd id Hid.
  assert (Hs : wf s) by apply acts_wf, spawn_wf.
  assert (H1 : wf s1) by (apply (act_wf ANotifyWaiters), (act_wf ABump), Hs).
  assert (H2 : wf s2) by (apply acts_wf, H1).
  assert (Hb : barrier_inv (barrier_epoch s + 1) (next_tx s) s2).
  { apply barrier_acts; [done|]. apply (barrier_act _ _ ANotifyWaiters); [by apply (act_wf ABump)|].
    by apply barrier_start. }
  assert (Hlen : (0 < length (slots s2))%nat).
  { unfold s2. rewrite acts_slots by done. change s1 with (acts s [ABump; ANotifyWaiters]).
    rewrite acts_slots by done. unfold s. rewrite acts_slots by apply spawn_wf.
    cbn. rewrite length_replicate. lia. }
  destruct (flush_done_young _ _ _ Hb Hlen Hd) as [Hp Hj].
  assert (Hin : id ∈ result_tx <$> all_jobs s2).
  { destruct H2 as (_ & _ & _ & ->). apply elem_of_seqZ. destruct Hb. lia. }
  apply list_elem_of_fmap in Hin as (job & -> & Hin). apply list_elem_of_fmap. exists job. split; [done|].
  unfold all_jobs, live in Hin. rewrite !elem_of_app in Hin. rewrite elem_of_app.
  rewrite Forall_forall in Hp, Hj. unfold young in Hp, Hj.
  destruct Hin as [[Hin|[Hin|Hin]]|Hin]; [|specialize (Hj _ Hin); lia|by left|by right].
  specialize (Hp _ Hin). lia.
Qed.

(** ** [flush_with_retry] ends *)

(** A bound on the steps the pump still needs; [None] outside the flush. *)
Definition flush_measure (sl : DeleterSlot) : option Z :=
  let jobs := lenZ (slot_jobs sl) in
  match slot_pc sl with
  | FlushTop n => Some (2 * (Z.max 0 max_retries - n) + jobs + 3)
  | InClose n _ => Some (2 * (Z.max 0 max_retries - n) + jobs + 2)
  | Acking _ _ l => Some (lenZ l + 1)
  | _ => None
  end.

Lemma flush_measure_pos sl m e : slot_ok e sl -> flush_measure sl = Some m -> 0 < m.
Proof.
  intros [_ Hok] Hm. unfold flush_measure in Hm. pose proof (lenZ_nonneg (slot_jobs sl)).
  destruct (slot_pc sl); simplify_eq; [lia|destruct Hok; lia|].
  pose proof (lenZ_nonneg to_flush). lia.
Qed.

Lemma pump_flush a t i sl s m : slots s !! i = Some sl -> slot_ok (barrier_epoch s) sl ->
  flush_measure sl = Some m -> exists sl', slots (pump a t i s) !! i = Some sl' /\
    (slot_pc sl' = LoadEpoch \/ exists m', flush_measure sl' = Some m' /\ m' < m).
Proof.
  intros Hi [_ Hok] Hm. unfold pump. rewrite Hi.
  assert (Hlt := lookup_lt_Some _ _ _ Hi).
  assert (Hput : forall s0 sl', slots s0 = <[i := sl']> (slots s) ->
    (slot_pc sl' = LoadEpoch \/ exists m', flush_measure sl' = Some m' /\ m' < m) ->
    exists sl', slots s0 !! i = Some sl' /\
      (slot_pc sl' = LoadEpoch \/ exists m', flush_measure sl' = Some m' /\ m' < m)).
  { intros s0 sl' E H. exists sl'. split; [rewrite E; by apply list_lookup_insert_eq|done]. }
  unfold flush_measure in Hm. unfold slot_jobs in Hm. unfold pump_slot.
  destruct (slot_pc sl) as [|job|job| |n|n l|r k [|job l]| |e'| |] eqn:Epc; simplify_eq.
  - destruct (ledger sl) as [|j l] eqn:El; (eapply Hput; [reflexivity|]); [by left|right].
    eexists. split; [reflexivity|]. unfold slot_jobs. cbn [slot_pc ledger with_ledger jobs_at].
    rewrite app_nil_r. cbn [jobs_at app]. lia.
  - unfold close_batch. destruct (d_close a (deleter sl)) as [[d keys] ok]. destruct Hok as [El Hn].
    case_test; [|case_test]; (eapply Hput; [reflexivity|]); right; (eexists; split; [reflexivity|]);
      unfold slot_jobs; cbn [slot_pc ledger with_ledger with_deleter jobs_at app];
      rewrite El; rewrite ?app_nil_r; cbn [app]; bool_props; lia.
  - eapply Hput; [reflexivity|by left].
  - eapply Hput; [reflexivity|right]. eexists. split; [reflexivity|]. change (job :: l) with ([job] ++ l). rewrite lenZ_app.
    change (lenZ [job]) with 1. lia.
Qed.

Lemma slot_mild_measure sl sl' m : slot_mild sl sl' -> flush_measure sl = Some m ->
  exists m', flush_measure sl' = Some m' /\ m' <= m.
Proof.
  intros (Hl & _ & Hp) Hm. apply sublist_length in Hl.
  assert (Hlen : lenZ (ledger sl') <= lenZ (ledger sl)) by (unfold lenZ; lia). unfold flush_measure in *. unfold slot_jobs in *.
  destruct Hp as [E|[E _]]; [|by rewrite E in Hm]. rewrite E, !lenZ_app in *.
  destruct (slot_pc sl); simplify_eq; eexists; (split; [reflexivity|lia]).
Qed.

(** What an action does to the flush of slot [i]. *)
Definition is_pump (i : nat) (x : action) : bool :=
  match x with APump _ _ k => bool_decide (k = i) | _ => false end.

Lemma act_flush x i sl s m : wf s -> slots s !! i = Some sl -> flush_measure sl = Some m ->
  exists sl', slots (act s x) !! i = Some sl' /\
    (slot_pc sl' = LoadEpoch \/
     exists m', flush_measure sl' = Some m' /\ m' + (if is_pump i x then 1 else 0) <= m).
Proof.
  intros (Hok & Hw & _) Hi Hm. pose proof (Forall_lookup_1 _ _ _ _ Hok Hi) as Hsl.
  destruct (is_mild x) eqn:Hx.
  - destruct (act_mild x s Hw Hx) as (Hmild & _).
    destruct (Forall2_lookup_l _ _ _ _ _ (mild_slots _ _ Hmild) Hi) as (sl' & Hi' & Hs).
    exists sl'. split; [done|right]. destruct (slot_mild_measure _ _ _ Hs Hm) as (m' & E & Hle).
    exists m'. split; [done|]. destruct x; cbn in *; (done || lia).
  - destruct x as [a t k|p| | | | | | | | | | | | |]; try done; cbn [act is_pump].
    + case_bool_decide as Hk.
      * subst k. destruct (pump_flush a t i sl s m Hi Hsl Hm) as (sl' & Hi' & [H|(m' & E & H)]);
          exists sl'; (split; [done|]); [by left|right]. exists m'. split; [done|lia].
      * exists sl. split; [|right; exists m; split; [done|lia]]. unfold pump.
        destruct (slots s !! k) as [slk|] eqn:Hik; [|done].
        destruct (decide (slot_pc slk = Waiting)) as [E|Hnw]; [unfold pump_slot; by rewrite E|].
        destruct (pump_slot_step a t k slk s 0 Hik (Forall_lookup_1 _ _ _ _ Hok Hik) Hnw)
          as [sl' [E1 _ _ _ _ _ _ _ _]].
        by rewrite E1, list_lookup_insert_ne.
    + exists sl. split; [done|]. right. exists m. split; [done|lia].
Qed.

(** However the other tasks interleave, and whatever the backend answers, a
    pump that enters [flush_with_retry] leaves it within a number of its own
    steps that is linear in the retry limit and the number of its jobs. *)
Theorem flush_with_retry_terminates n objs t l i sl l' :
  let s := acts (spawn n objs t) l in
  slots s !! i = Some sl -> slot_pc sl = FlushTop 0 ->
  2 * Z.max 0 max_retries + lenZ (slot_jobs sl) + 3 <= lenZ (List.filter (is_pump i) l') ->
  exists l1 l2, l' = l1 ++ l2 /\ slot_pc <$> slots (acts s l1) !! i = Some LoadEpoch.
Proof.
  intros s Hi Hpc Hlen. assert (Hs : wf s) by apply acts_wf, spawn_wf.
  assert (Hm : flush_measure sl = Some (2 * Z.max 0 max_retries + lenZ (slot_jobs sl) + 3)).
  { unfold flush_measure. rewrite Hpc. f_equal. lia. }
  revert Hs Hi Hm Hlen. clear Hpc.
  generalize (2 * Z.max 0 max_retries + lenZ (slot_jobs sl) + 3). clearbody s.
  revert s sl. induction l' as [|x l' IH]; intros s sl m Hs Hi Hm Hlen.
  - exfalso. pose proof (flush_measure_pos sl m _ (Forall_lookup_1 _ _ _ _ (proj1 Hs) Hi) Hm).
    change (lenZ (List.filter (is_pump i) [])) with 0 in Hlen. lia.
  - destruct (act_flush x i sl s m Hs Hi Hm) as (sl' & Hi' & [H|(m' & Hm' & Hle)]).
    + exists [x], l'. split; [done|]. cbn [acts foldl]. by rewrite Hi'; cbn; rewrite H.
    + destruct (IH (act s x) sl' m' (act_wf x s Hs) Hi' Hm') as (l1 & l2 & -> & H).
      * cbn [List.filter] in Hlen. destruct (is_pump i x); [|lia].
        change (x :: List.filter (is_pump i) l') with ([x] ++ List.filter (is_pump i) l') in Hlen.
        rewrite lenZ_app in Hlen. change (lenZ [x]) with 1 in Hlen. lia.
      * by exists (x :: l1), l2.
Qed.

(** ** An Ok reply means the key was sent *)
Section Sent.
Context `{!DeleterLaws answer D}.

(** Keys the backend was asked to delete, or whose [delete] call failed. *)
Definition seen (s : Shared) : gset string := requested s ∪ refused s.
(** Jobs already given to the slot's deleter. *)
Definition fed (p : pc) : list PendingDelete :=
  match p with Deleted job => [job] | InClose _ l => l | _ => [] end.
Definition confirmed (p : pc) : list PendingDelete :=
  match p with Acking ReplyOk _ l => l | _ => [] end.
Definition within (keys : gset string) (l : list PendingDelete) : Prop :=
  Forall (fun job => relative_path job ∈ keys) l.
Definition slot_sent (keys : gset string) (sl : DeleterSlot) : Prop :=
  within (d_buffer (deleter sl) ∪ keys) (fed (slot_pc sl) ++ ledger sl) /\
  within keys (confirmed (slot_pc sl)).
Definition ok_replies (s : Shared) : list PendingDelete :=
  fst <$> List.filter (fun jr => bool_decide (snd jr = ReplyOk)) (replies s).
Definition sent_inv (s : Shared) : Prop :=
  Forall (slot_sent (seen s)) (slots s) /\ within (seen s) (ok_replies s).

Lemma within_mono k k' l : k ⊆ k' -> within k l -> within k' l.
Proof. intros H Hl. eapply Forall_impl; [exact Hl|]. set_solver. Qed.

Lemma slot_sent_grow k k' sl : k ⊆ k' -> slot_sent k sl -> slot_sent k' sl.
Proof. intros H [H1 H2]. split; eapply within_mono; [|exact H1| |exact H2]; set_solver. Qed.

(** The keys of a slot's deleter may only move to the backend. *)
Lemma sent_slot k k' sl sl' :
  k ⊆ k' -> d_buffer (deleter sl) ⊆ d_buffer (deleter sl') ∪ k' ->
  fed (slot_pc sl') ++ ledger sl' ⊆ fed (slot_pc sl) ++ ledger sl ->
  confirmed (slot_pc sl') = confirmed (slot_pc sl) -> slot_sent k sl -> slot_sent k' sl'.
Proof.
  intros Hk Hd Hl Hc [H1 H2]. split.
  - unfold within in *. rewrite Forall_forall in *. intros job Hj. specialize (H1 job (Hl job Hj)). set_solver.
  - rewrite Hc. by eapply within_mono.
Qed.

Lemma sent_put i sl sl' s s' : Forall (slot_sent (seen s)) (slots s) -> slots s !! i = Some sl ->
  slots s' = <[i := sl']> (slots s) -> seen s ⊆ seen s' -> slot_sent (seen s') sl' ->
  Forall (slot_sent (seen s')) (slots s').
Proof.
  intros HF Hi -> Hsub Hs. apply Forall_insert; [|done].
  eapply Forall_impl; [exact HF|]. intros sl0. by apply slot_sent_grow.
Qed.

Lemma ok_replies_send job r s :
  ok_replies (send job r s) = ok_replies s ++ (if bool_decide (r = ReplyOk) then [job] else []).
Proof.
  unfold ok_replies. cbn [replies send]. rewrite List.filter_app, fmap_app. f_equal. cbn. by case_bool_decide.
Qed.

Lemma ok_replies_all r l s : r <> ReplyOk -> ok_replies (reply_all r l s) = ok_replies s.
Proof.
  intros Hr. revert s. induction l as [|j l IH]; intros s; [done|]. cbn [reply_all foldl].
  change (foldl _ (send j r s) l) with (reply_all r l (send j r s)). rewrite IH, ok_replies_send.
  rewrite bool_decide_false by done. by rewrite app_nil_r.
Qed.

(** Fields outside of slots, replies and the sent keys do not matter. *)
Lemma sent_ext s s' : slots s' = slots s -> seen s' = seen s -> ok_replies s' = ok_replies s ->
  sent_inv s -> sent_inv s'.
Proof. unfold sent_inv. by intros -> -> ->. Qed.

Lemma sent_wake i s : sent_inv s -> sent_inv (wake i s).
Proof.
  intros [H1 H2]. split; [|done]. cbn. change (seen (wake i s)) with (seen s).
  apply Forall_alter; [done|]. intros sl Hsl [F1 F2]. split; [|constructor]. cbn.
  apply Forall_app in F1. tauto.
Qed.

Lemma sent_cancel_ledger p i s : sent_inv s -> sent_inv (cancel_ledger p i s).
Proof.
  intros [H1 H2]. unfold cancel_ledger. destruct (slots s !! i) as [sl|] eqn:Hi; [|done].
  set (l := List.filter (matches p) (ledger sl)). set (sl' := with_ledger _ _ sl).
  destruct (reply_all_fields ReplyInterrupted l (put_slot i sl' s)) as (_ & E2 & _ & _ & _ & _ & E7 & E8 & _).
  apply (sent_ext (put_slot i sl' s)); [done|by unfold seen; rewrite E7, E8|by apply ok_replies_all|].
  split; [|done]. apply (sent_put i sl sl' s _ H1 Hi); [done|done|].
  apply (sent_slot (seen s) _ sl); [done|set_solver| |done|by eapply Forall_lookup_1].
  cbn. pose proof (sublist_sub _ _ (filter_sublist (fun j => negb (matches p j)) (ledger sl))). set_solver.
Qed.

Lemma sent_close a i s : sent_inv s -> sent_inv (shutdown_close a i s).
Proof.
  intros [H1 H2]. unfold shutdown_close. destruct (slots s !! i) as [sl|] eqn:Hi; [|done].
  destruct (d_close a (deleter sl)) as [[d keys] ok] eqn:Ec.
  assert (Hb : d_buffer (deleter sl) ⊆ d_buffer d ∪ keys).
  { destruct ok; [apply close_ok in Ec as [-> ->]|apply close_err in Ec as <-]; set_solver. }
  assert (Hg : sent_inv (request a keys (put_slot i (with_deleter d (slot_pc sl) sl) s))).
  { assert (Hsub : seen s ⊆ seen (request a keys (put_slot i (with_deleter d (slot_pc sl) sl) s)))
      by (unfold seen; cbn; set_solver).
    split; [|by apply (within_mono (seen s))].
    apply (sent_put i sl (with_deleter d (slot_pc sl) sl) s _ H1 Hi); [done|done|].
    apply (sent_slot (seen s) _ sl); [done|unfold seen; cbn; set_solver|done|done|by eapply Forall_lookup_1]. }
  by destruct (slot_pc sl).
Qed.

Lemma sent_take i s : sent_inv s -> sent_inv (take_ledger i s).
Proof.
  intros [H1 H2]. unfold take_ledger. destruct (slots s !! i) as [sl|] eqn:Hi; [|done].
  split; [|done]. apply (sent_put i sl (with_ledger [] (slot_pc sl) sl) s _ H1 Hi); [done|done|].
  apply (sent_slot (seen s) _ sl); [done|set_solver| |done|by eapply Forall_lookup_1]. cbn. set_solver.
Qed.

Lemma sent_notify_waiters s : sent_inv s -> sent_inv (notify_waiters s).
Proof.
  intros H. unfold notify_waiters. assert (H0 : sent_inv (set_notify (permit s) [] s)) by done.
  induction (waiters s) as [|i ws IH]; [done|]. by apply sent_wake.
Qed.

Lemma sent_mild x s : is_mild x = true -> sent_inv s -> sent_inv (act s x).
Proof.
  intros Hx H. destruct x as [a t i|p| | |p|p i|p| | |a i| |i| |p|p]; cbn [act]; try done.
  - unfold notify_one. destruct (waiters s); [done|by apply sent_wake].
  - by apply sent_notify_waiters.
  - unfold cancel_queue. set (l := List.filter (matches p) (pending s)). set (s0 := set_pending _ s).
    destruct (reply_all_fields ReplyInterrupted l s0) as (_ & E2 & _ & _ & _ & _ & E7 & E8 & _).
    apply (sent_ext s); [done|by unfold seen; rewrite E7, E8|by rewrite ok_replies_all|done].
  - by apply sent_cancel_ledger.
  - by apply sent_close.
  - by apply sent_take.
  - unfold fail_taken. destruct (taken s) as [|job l]; [done|]. apply (sent_ext s); [done|done| |done].
    change (ok_replies (send job ReplyBrokenPipe (set_tombs (tombs s ∖ {[relative_path job]}) (set_taken l s)))
            = ok_replies s). by rewrite ok_replies_send, app_nil_r.
Qed.

Lemma sent_push_key a job i sl s : sent_inv s -> slots s !! i = Some sl -> slot_pc sl = Hand job ->
  sent_inv (push_key a job i sl s).
Proof.
  intros [H1 H2] Hi Epc. unfold push_key.
  destruct (d_delete a (deleter sl) (relative_path job)) as [[d keys] ok] eqn:Ed.
  set (sl' := with_deleter d (Deleted job) sl). set (s1 := request a keys (put_slot i sl' s)).
  set (s2 := if ok then s1 else _).
  assert (Hbuf : d_buffer (deleter sl) ⊆ d_buffer d ∪ keys /\
                 relative_path job ∈ d_buffer d ∪ seen s2).
  { unfold s2. destruct ok.
    - apply delete_ok in Ed. split; [set_solver|].
      assert (relative_path job ∈ d_buffer d ∪ keys) by set_solver. unfold seen. cbn. set_solver.
    - apply delete_err in Ed as [E1 E2]. split; [done|]. unfold seen. cbn. set_solver. }
  assert (Hsub : seen s ∪ keys ⊆ seen s2) by (unfold s2, seen; destruct ok; cbn; set_solver).
  assert (Hs2 : slots s2 = <[i := sl']> (slots s) /\ ok_replies s2 = ok_replies s) by (unfold s2; by destruct ok).
  destruct Hs2 as [E1 E2]. destruct Hbuf as [Hb Hp].
  pose proof (Forall_lookup_1 _ _ _ _ H1 Hi) as [F1 _]. rewrite Epc in F1. cbn in F1. split.
  - apply (sent_put i sl sl' s _ H1 Hi); [done|set_solver|]. split; [|constructor]. cbn. constructor; [done|].
    eapply within_mono; [|exact F1]. set_solver.
  - rewrite E2. eapply within_mono; [|exact H2]. set_solver.
Qed.

Lemma sent_close_batch a t n l i sl s : sent_inv s -> slots s !! i = Some sl -> slot_pc sl = InClose n l ->
  sent_inv (close_batch a t n l i sl s).
Proof.
  intros [H1 H2] Hi Epc. unfold close_batch.
  destruct (d_close a (deleter sl)) as [[d keys] ok] eqn:Ec.
  pose proof (Forall_lookup_1 _ _ _ _ H1 Hi) as [F1 _]. rewrite Epc in F1. cbn in F1. apply Forall_app in F1 as [Fl Fled].
  assert (Hb : d_buffer (deleter sl) ⊆ d_buffer d ∪ keys).
  { destruct ok; [apply close_ok in Ec as [-> ->]|apply close_err in Ec as <-]; set_solver. }
  assert (Hput : forall s0 sl', slots s0 = <[i := sl']> (slots s) -> seen s0 = seen s ∪ keys ->
            ok_replies s0 = ok_replies s -> slot_sent (seen s ∪ keys) sl' -> sent_inv s0).
  { intros s0 sl' E1 E2 E3 Hsl. split; [|rewrite E2, E3; eapply within_mono; [|exact H2]; set_solver].
    apply (sent_put i sl sl' s s0 H1 Hi E1); rewrite E2; [set_solver|done]. }
  assert (Hgrow : forall k, d_buffer (deleter sl) ∪ seen s ⊆ k -> within k l /\ within k (ledger sl)).
  { intros k Hk. split; by eapply within_mono. }
  assert (Hd := Hgrow (d_buffer d ∪ (seen s ∪ keys)) ltac:(set_solver)).
  case_test; [|case_test].
  - bool_props. subst ok. apply close_ok in Ec as [Ed ->].
    eapply Hput; [reflexivity|unfold seen; cbn; set_solver|done|]. split; cbn; [apply Hd|].
    apply (Hgrow (seen s ∪ d_buffer (deleter sl))). set_solver.
  - eapply Hput; [reflexivity|unfold seen; cbn; set_solver|done|]. split; cbn; [|constructor].
    apply Forall_app. tauto.
  - eapply Hput; [reflexivity|unfold seen; cbn; set_solver|done|]. split; cbn; [apply Hd|constructor].
Qed.

Lemma sent_pump a t i s : sent_inv s -> sent_inv (pump a t i s).
Proof.
  intros Hs. unfold pump. destruct (slots s !! i) as [sl|] eqn:Hi; [|done].
  pose proof Hs as [H1 H2]. pose proof (Forall_lookup_1 _ _ _ _ H1 Hi) as Hsl.
  assert (Hput : forall s0 sl', slots s0 = <[i := sl']> (slots s) -> seen s0 = seen s ->
            ok_replies s0 = ok_replies s -> deleter sl' = deleter sl ->
            fed (slot_pc sl') ++ ledger sl' ⊆ fed (slot_pc sl) ++ ledger sl ->
            confirmed (slot_pc sl') = confirmed (slot_pc sl) -> sent_inv s0).
  { intros s0 sl' E1 E2 E3 E4 E5 E6. split; [|by rewrite E2, E3].
    apply (sent_put i sl sl' s s0 H1 Hi E1); rewrite E2; [done|].
    apply (sent_slot (seen s) _ sl); [done|rewrite E4; set_solver|done|done|done]. }
  unfold pump_slot. destruct (slot_pc sl) as [|job|job| |n|n l|r k [|job l]| |e'| |] eqn:Epc.
  - destruct (pending s); (eapply Hput; [reflexivity|done|done|done|cbn; set_solver|done]).
  - by apply sent_push_key.
  - eapply Hput; [reflexivity|done|done|done|cbn; set_solver|done].
  - eapply Hput; [reflexivity|done|done|done|cbn; by destruct (ledger sl)|cbn; by destruct (ledger sl)].
  - destruct (ledger sl) eqn:El; (eapply Hput; [reflexivity|done|done|done|cbn; rewrite ?El; set_solver|done]).
  - by apply sent_close_batch.
  - eapply Hput; [reflexivity|done|done|done|done|by destruct r].
  - destruct (decide (r = ReplyOk)) as [->|Hr].
    + destruct Hsl as [F1 F2]. rewrite Epc in F1, F2. cbn in F1, F2. apply Forall_cons in F2 as [Fj Fl]. split.
      * apply (sent_put i sl (with_pc (Acking ReplyOk k l) sl) s _ H1 Hi); done.
      * change (seen _) with (seen s).
        change (ok_replies _) with (ok_replies (send job ReplyOk (set_tombs (tombs s ∖ {[relative_path job]}) s))).
        rewrite ok_replies_send. apply Forall_app. split; [done|]. by constructor.
    + eapply Hput; [reflexivity|done| |done|done|by destruct r].
      etrans; [apply (ok_replies_send job r (set_tombs (tombs s ∖ {[relative_path job]}) s))|].
      rewrite bool_decide_false by done. apply app_nil_r.
  - eapply Hput; [reflexivity|done|done|done|done|done].
  - eapply Hput; [reflexivity|done|done|done|done|done].
  - destruct (permit s); (eapply Hput; [reflexivity|done|done|done|done|done]).
  - done.
Qed.

Lemma sent_act x s : sent_inv s -> sent_inv (act s x).
Proof.
  intros H. destruct (is_mild x) eqn:Hx; [by apply sent_mild|].
  destruct x; try done. by apply sent_pump.
Qed.

Lemma sent_acts l s : sent_inv s -> sent_inv (acts s l).
Proof. revert s. induction l as [|x l IH]; intros s Hs; [done|]. apply IH, sent_act, Hs. Qed.

(** A receiver gets Ok only after the backend was asked to delete the key,
    unless the deleter had refused it. *)
Theorem reply_ok_requested n objs t l job :
  let s := acts (spawn n objs t) l in
  (job, ReplyOk) ∈ replies s -> relative_path job ∈ requested s ∪ refused s.
Proof.
  intros s Hin.
  assert (H : sent_inv s).
  { apply sent_acts. split; [|constructor]. cbn. apply Forall_replicate. split; constructor. }
  destruct H as [_ H]. unfold within in H. rewrite Forall_forall in H. apply H. unfold ok_replies.
  apply list_elem_of_fmap. exists (job, ReplyOk). split; [done|].
  apply list_elem_of_In, filter_In. split; [by apply list_elem_of_In|]. by apply bool_decide_true.
Qed.

End Sent.

(** ** What a pump can delete *)
Section Held.
Context `{!DeleterLaws answer D}.

Local Ltac keys :=
  repeat match goal with H : forall _, _ |- _ => clear H end; set_solver.

(** The keys on their way to the backend. *)
Definition keys_of (l : list PendingDelete) : gset string := list_to_set (relative_path <$> l).
#[local] Arguments keys_of : simpl never.
Definition slot_keys (sl : DeleterSlot) : gset string := keys_of (slot_jobs sl) ∪ d_buffer (deleter sl).
Definition held (s : Shared) : gset string := keys_of (pending s) ∪ ⋃ (slot_keys <$> slots s).

Lemma keys_of_app l l' : keys_of (l ++ l') = keys_of l ∪ keys_of l'.
Proof. unfold keys_of. by rewrite fmap_app, list_to_set_app_L. Qed.
Lemma keys_of_cons j l : keys_of (j :: l) = {[relative_path j]} ∪ keys_of l.
Proof. done. Qed.

Lemma elem_of_held k s : k ∈ held s <->
  k ∈ keys_of (pending s) \/ exists i sl, slots s !! i = Some sl /\ k ∈ slot_keys sl.
Proof.
  unfold held. rewrite elem_of_union, elem_of_union_list. split; (intros [H|H]; [by left|right]).
  - destruct H as (X & (sl & -> & [i Hi]%list_elem_of_lookup_1)%list_elem_of_fmap & Hk). eauto.
  - destruct H as (i & sl & Hi & Hk). exists (slot_keys sl). split; [|done].
    apply list_elem_of_fmap. exists sl. split; [done|]. by eapply list_elem_of_lookup_2.
Qed.

Lemma slot_held s i sl : slots s !! i = Some sl -> slot_keys sl ⊆ held s.
Proof. intros Hi k Hk. apply elem_of_held. eauto. Qed.

Lemma held_put i sl sl' s s0 : slots s !! i = Some sl -> slots s0 = <[i := sl']> (slots s) ->
  keys_of (pending s0) ∪ slot_keys sl' ⊆ keys_of (pending s) ∪ slot_keys sl -> held s0 ⊆ held s.
Proof.
  intros Hi E Hsub k [Hk|(j & sj & Hj & Hk)]%elem_of_held; apply elem_of_held.
  - assert (k ∈ keys_of (pending s) ∪ slot_keys sl) as [?|?]%elem_of_union by set_solver; eauto.
  - rewrite E in Hj. apply list_lookup_insert_Some in Hj as [(-> & -> & _)|[_ Hj]]; [|eauto].
    assert (k ∈ keys_of (pending s) ∪ slot_keys sl) as [?|?]%elem_of_union by set_solver; eauto.
Qed.

Lemma sub_difference (X Y Z : gset string) : Y ⊆ Z -> X ⊆ X ∖ Y ∪ Z.
Proof. intros H k Hk. destruct (decide (k ∈ Y)); set_solver. Qed.

(** A critical section of the pump deletes keys that were held, and holds no
    others. *)
Definition only_held (s s' : Shared) : Prop :=
  held s' ⊆ held s /\ objects s' ⊆ objects s /\ objects s ⊆ objects s' ∪ held s.

Lemma pump_held a t i s : only_held s (pump a t i s).
Proof.
  unfold pump. destruct (slots s !! i) as [sl|] eqn:Hi; [|unfold only_held; keys].
  pose proof (gone_sent a) as Hg. pose proof (slot_held s i sl Hi) as Hsl.
  assert (Hput : forall s0 sl', slots s0 = <[i := sl']> (slots s) ->
            keys_of (pending s0) ∪ slot_keys sl' ⊆ keys_of (pending s) ∪ slot_keys sl ->
            objects s0 ⊆ objects s -> objects s ⊆ objects s0 ∪ slot_keys sl -> only_held s s0).
  { intros s0 sl' E Hk H1 H2. split_and!; [by eapply held_put|done|clear -H2 Hsl; set_solver]. }
  clear Hsl.
  assert (Hp : forall s0 p l', slots s0 = <[i := mk_slot (deleter sl) l' (barrier_ack sl) (last_flush_count sl) p]> (slots s) ->
            keys_of (pending s0) ∪ keys_of (jobs_at p ++ l') ⊆ keys_of (pending s) ∪ keys_of (slot_jobs sl) ->
            objects s0 = objects s -> only_held s s0).
  { intros s0 p l' E Hk Eo. eapply Hput; [exact E| |rewrite Eo; keys|rewrite Eo; keys].
    unfold slot_keys, slot_jobs in *. cbn. keys. }
  unfold slot_keys, slot_jobs in *.
  unfold pump_slot. destruct (slot_pc sl) as [|job|job| |n|n l|r k [|job l]| |e'| |] eqn:Epc; cbn [jobs_at] in *;
    rewrite ?keys_of_app, ?keys_of_cons in *.
  - destruct (pending s) as [|j rest] eqn:Ep; (eapply Hp; [reflexivity| |done]); cbn;
      rewrite ?Ep, ?keys_of_cons, ?keys_of_app; keys.
  - unfold push_key. destruct (d_delete a (deleter sl) (relative_path job)) as [[d sent] ok] eqn:Ed.
    assert (Hb : d_buffer d ∪ sent ⊆ {[relative_path job]} ∪ d_buffer (deleter sl)).
    { destruct ok; [apply delete_ok in Ed as ->|apply delete_err in Ed as [_ Ed]]; keys. }
    assert (Hs : forall s0, slots s0 = <[i := with_deleter d (Deleted job) sl]> (slots s) -> pending s0 = pending s ->
              objects s0 = objects s ∖ d_gone a sent -> only_held s s0).
    { intros s0 E1 E2 E3. eapply Hput; [exact E1| |rewrite E3; clear; set_solver
                                  |rewrite E3; apply sub_difference; clear -Hb Hg; set_solver].
      rewrite E2. clear -Hb. cbn. rewrite ?keys_of_app, ?keys_of_cons. keys. }
    by destruct ok; apply Hs.
  - eapply Hp; [reflexivity| |done]. cbn. rewrite keys_of_app, keys_of_cons. keys.
  - destruct (ledger sl) eqn:El; (eapply Hp; [reflexivity| |done]); cbn; rewrite ?El; keys.
  - destruct (ledger sl) eqn:El; (eapply Hp; [reflexivity| |done]); cbn; rewrite ?El, ?keys_of_app; keys.
  - unfold close_batch. destruct (d_close a (deleter sl)) as [[d sent] ok] eqn:Ec.
    assert (Hb : d_buffer d ∪ sent ⊆ d_buffer (deleter sl)).
    { destruct ok; [apply close_ok in Ec as [-> ->]|apply close_err in Ec as <-]; keys. }
    assert (Hs : forall s0 p l', slots s0 = <[i := mk_slot d l' (barrier_ack sl) (last_flush_count sl) p]> (slots s) ->
              keys_of (jobs_at p ++ l') ⊆ keys_of l ∪ keys_of (ledger sl) -> pending s0 = pending s ->
              objects s0 = objects s ∖ d_gone a sent -> only_held s s0).
    { intros s0 p l' E1 E2 E3 E4. eapply Hput; [exact E1| |rewrite E4; clear; set_solver
                                     |rewrite E4; apply sub_difference; clear -Hb Hg; set_solver].
      rewrite E3. clear -Hb E2. cbn [deleter jobs_at slot_pc ledger]. keys. }
    destruct (ok && negb t); [|destruct (n <? max_retries)]; (eapply Hs; [reflexivity| |done|done]); cbn;
      rewrite ?keys_of_app; keys.
  - eapply Hput; [reflexivity| |done|keys]. cbn. keys.
  - eapply Hp; [reflexivity| |done]. cbn. rewrite keys_of_app. keys.
  - eapply Hp; [reflexivity| |done]. cbn. keys.
  - eapply Hput; [reflexivity| |done|keys]. cbn. keys.
  - destruct (permit s); (eapply Hp; [reflexivity| |done]); cbn; keys.
  - unfold only_held. keys.
Qed.

Lemma acts_held l : forall s, Forall (fun x => match x with APump _ _ _ => True | _ => False end) l ->
  only_held s (acts s l).
Proof.
  induction l as [|x l IH]; intros s Hl; [unfold only_held; cbn; set_solver|].
  apply Forall_cons in Hl as [Hx Hl]. destruct x as [a t i| | | | | | | | | | | | | |]; try done.
  destruct (pump_held a t i s) as (A1 & A2 & A3). destruct (IH (pump a t i s) Hl) as (B1 & B2 & B3).
  unfold only_held. cbn [acts foldl act] in *. change (foldl act ?x l) with (acts x l) in *. split_and!; set_solver.
Qed.

Lemma held_wake i s : held (wake i s) ⊆ held s.
Proof.
  intros k Hk. apply elem_of_held in Hk as [Hk|(j & sl & Hj & Hk)]; apply elem_of_held; [by left|right].
  unfold wake in Hj. cbn in Hj. destruct (decide (i = j)) as [->|Hn].
  - rewrite list_lookup_alter_eq in Hj. destruct (slots s !! j) as [sl0|] eqn:E; [|done]. simplify_eq/=.
    exists j, sl0. split; [done|]. unfold slot_keys, slot_jobs in *. cbn in Hk. rewrite keys_of_app. set_solver.
  - rewrite list_lookup_alter_ne in Hj by done. eauto.
Qed.
Lemma held_notify_one s : held (notify_one s) ⊆ held s.
Proof. unfold notify_one. destruct (waiters s); [done|]. etrans; [apply held_wake|done]. Qed.
Lemma held_notify_waiters s : held (notify_waiters s) ⊆ held s.
Proof.
  unfold notify_waiters. induction (waiters s) as [|i ws IH]; [done|]. cbn [foldr].
  etrans; [apply held_wake|exact IH].
Qed.

End Held.
End Pump.

(** ** Concrete runs

    A deleter that sends everything on [close], or nothing when the answer is
    [false]. *)
#[export] Instance set_deleter : Deleter bool (gset string) := {
  d_new := ∅;
  d_buffer d := d;
  d_delete ok d p := (d ∪ {[p]}, ∅, ok);
  d_close ok d := if ok then (∅, d, true) else (d, ∅, false);
  d_gone _ keys := keys
}.
#[export] Instance set_deleter_laws : DeleterLaws bool (gset string).
Proof.
  split.
  - done.
  - intros a d p d' sent [= <- <- ->]. cbn. set_solver.
  - intros a d p d' sent [= <- <- ->]. cbn. set_solver.
  - intros [|] d d' sent; [intros [= <- <-]|done]. done.
  - intros [|] d d' sent; [done|intros [= <- <-]]. cbn. set_solver.
  - done.
Qed.

Definition steps (ok : bool) (n : nat) : list (action (answer := bool)) := replicate n (APump ok false 0).
Definition one_slot (objs : gset string) : Shared (D := gset string) := spawn 1 objs ∅.

(** While the pump waits for the answer to a first batch, a second deletion is
    enqueued and [flush] starts (this is [delete_backend_strict]).  The pump
    acknowledges the barrier without having looked at the queue again: [flush]
    returns and the second key was never sent. *)
Theorem flush_returns_early :
  let s := acts DEFAULT_MAX_RETRIES (one_slot {["a"; "b"]}) (APush "a" :: steps true 6) in
  let s1 := flush_start (fst (enqueue "b" s)) in
  let s2 := acts DEFAULT_MAX_RETRIES (fst s1) (steps true 5) in
  flush_done (snd s1) s2 = true /\
  replies s2 = [(mk_job 0 "a", ReplyOk)] /\ pending s2 = [mk_job 1 "b"] /\
  objects s2 = {["b"%string]}.
Proof. vm_compute. done. Qed.

(** [flush] starts after the pump loaded the epoch and before it waits:
    [notify_waiters] wakes nobody, the pump sleeps, and without another
    enqueue no step of it ever acknowledges the barrier. *)
Theorem flush_wakeup_lost (l : list bool) :
  let s := fst (flush_start (acts DEFAULT_MAX_RETRIES (one_slot ∅) (steps true 3))) in
  let s' := acts DEFAULT_MAX_RETRIES s (steps true 2) in
  acts DEFAULT_MAX_RETRIES s' ((fun ok => APump ok false 0) <$> l) = s' /\
  flush_done 1 s' = false.
Proof.
  intros s s'. split; [|reflexivity]. induction l as [|ok l IH]; [done|].
  cbn [fmap list_fmap acts foldl act]. replace (pump DEFAULT_MAX_RETRIES ok false 0 s') with s' by reflexivity.
  exact IH.
Qed.

(** The key of a cancelled deletion stays in the deleter: the object created
    after [cancel_pending] is deleted with the next batch, although the
    deletion was answered as interrupted. *)
Theorem cancelled_key_deleted :
  let s := acts DEFAULT_MAX_RETRIES (one_slot {["a"]}) (APush "a" :: steps true 3) in
  let s := put_object "a" (cancel_pending "a" s) in
  let s' := acts DEFAULT_MAX_RETRIES s (APush "b" :: steps true 8) in
  "a"%string ∈ objects s /\ replies s = [(mk_job 0 "a", ReplyInterrupted)] /\
  replies s' = [(mk_job 0 "a", ReplyInterrupted); (mk_job 1 "b", ReplyOk)] /\ objects s' = ∅.
Proof. vm_compute. done. Qed.

(** [unlink] inserts the tombstone after the enqueue: when the pump is faster,
    the tombstone stays although the deletion is complete. *)
Theorem tombstone_leaks :
  let s := insert_tomb "a" (acts DEFAULT_MAX_RETRIES (one_slot {["a"]}) (APush "a" :: steps true 9)) in
  replies s = [(mk_job 0 "a", ReplyOk)] /\ live s = [] /\ tombs s = {["a"%string]}.
Proof. vm_compute. done. Qed.

(** Every [close] fails: after four attempts the deletion is answered with an
    error, but the barrier is acknowledged, so [delete_backend_strict], which
    only waits for the barrier, reports success. *)
Theorem strict_delete_hides_failure :
  let s := flush_start (fst (enqueue "a" (one_slot {["a"]}))) in
  let s' := acts DEFAULT_MAX_RETRIES (fst s) (steps false 17) in
  flush_done (snd s) s' = true /\ replies s' = [(mk_job 0 "a", ReplyFailed)] /\
  objects s' = {["a"%string]} /\ batch_retry_total (stats s') = 3.
Proof. vm_compute. done. Qed.

(** A deleter whose [close] succeeds whatever becomes of each key: the answer is
    the set of keys that the backend fails to remove. *)
Definition lossy_deleter : Deleter (gset string) (gset string) := {|
  d_new := ∅;
  d_buffer d := d;
  d_delete _ d p := (d ∪ {[p]}, ∅, true);
  d_close _ d := (∅, d, true);
  d_gone failed keys := keys ∖ failed
|}.
Lemma lossy_deleter_laws : @DeleterLaws (gset string) (gset string) lossy_deleter.
Proof.
  split; cbn.
  - done.
  - intros a d p d' sent [= <- <-]. set_solver.
  - done.
  - by intros a d d' sent [= <- <-].
  - done.
  - set_solver.
Qed.

(** A key that fails within a [close] that succeeds is answered Ok, its
    tombstone is lifted, and the object stays. *)
Theorem failed_key_answered_ok :
  let run := acts (Deleter0 := lossy_deleter) DEFAULT_MAX_RETRIES in
  let s := run (spawn (Deleter0 := lossy_deleter) 1 {["a"; "b"]} {["a"; "b"]}%string)
             (APush "a" :: APush "b" :: replicate 14 (APump {["a"%string]} false 0)) in
  replies s = [(mk_job 0 "a", ReplyOk); (mk_job 1 "b", ReplyOk)] /\ tombs s = ∅ /\ objects s = {["a"%string]} /\
  failures_total (stats s) = 0.
Proof. vm_compute. done. Qed.

Lemma flush_barrier_witness :
  let s := acts DEFAULT_MAX_RETRIES (one_slot {["a"]}) [APush "a"] in
  let s2 := acts DEFAULT_MAX_RETRIES (fst (flush_start s)) (steps true 11) in
  0 ∈ result_tx <$> (taken s2 ++ (fst <$> replies s2)).
Proof.
  intros s s2.
  apply (flush_barrier DEFAULT_MAX_RETRIES 1 {["a"%string]} ∅ [APush "a"] (steps true 11)).
  - vm_compute. repeat constructor.
  - vm_compute. reflexivity.
  - vm_compute. split; congruence.
Defined.

Lemma flush_with_retry_terminates_witness :
  exists l1 l2, steps false 10 = l1 ++ l2 /\
    slot_pc <$> slots (acts DEFAULT_MAX_RETRIES (acts DEFAULT_MAX_RETRIES (one_slot {["a"]})
      (APush "a" :: steps true 5)) l1) !! 0%nat = Some LoadEpoch.
Proof.
  apply (flush_with_retry_terminates DEFAULT_MAX_RETRIES 1 {["a"%string]} ∅ (APush "a" :: steps true 5) 0
           (mk_slot {["a"%string]} [mk_job 0 "a"] 0 0 (FlushTop 0)) (steps false 10)).
  - vm_compute. reflexivity.
  - reflexivity.
  - vm_compute. congruence.
Defined.

Lemma reply_ok_requested_witness :
  let s := acts DEFAULT_MAX_RETRIES (one_slot {["a"]}) (APush "a" :: steps true 9) in
  relative_path (mk_job 0 "a") ∈ requested s ∪ refused s.
Proof.
  intros s. apply (reply_ok_requested DEFAULT_MAX_RETRIES 1 {["a"%string]} ∅ (APush "a" :: steps true 9)).
  vm_compute. left.
Defined.

End ConcDelete.
