(* ===== verification/Errors.v ===== *)
(** * Errors: how failures travel to the kernel

    The error kinds of opendal and of [std::io], the translation between them
    ([opendal_to_io_error] of src/src/util.rs), and their images as an errno
    ([io_err_to_fuse_errno] of src/src/core_fs/fuser.rs), as an NTSTATUS
    ([io_err_to_status] and [ea_io_error_to_status] of
    src/src/core_fs/winfsp.rs) and as a log record ([log_fuse_error] of
    src/src/error_log.rs). *)

From Stdlib Require Import ZArith Lia Strings.Byte Strings.String Strings.Ascii.
From S2P Require Import Prelude.

Module Errors.

(** [std::io::ErrorKind]: the kinds the program names, and the others. *)
Inductive ErrorKind :=
| NotFound | PermissionDenied | AlreadyExists | InvalidInput | NotADirectory | IsADirectory
| OutOfMemory | StorageFull | TimedOut | Interrupted | Unsupported | WouldBlock
| ConnectionReset | ConnectionAborted | ConnectionRefused | BrokenPipe | UnexpectedEof
| WriteZero | NetworkUnreachable | InvalidData | DirectoryNotEmpty | ReadOnlyFilesystem
| OtherKind.
#[export] Instance ErrorKind_eq_dec : EqDecision ErrorKind.
Proof. solve_decision. Defined.

(** An [io::Error] made by [new] or [other] has no OS code. *)
Record io_Error := mk_io { kind : ErrorKind; raw_os_error : option Z }.
Definition io_new (k : ErrorKind) : io_Error := mk_io k None.

(** [opendal::ErrorKind]. *)
Inductive OpendalKind :=
| Unexpected | OUnsupported | ConfigInvalid | ONotFound | OPermissionDenied | OIsADirectory
| ONotADirectory | OAlreadyExists | RateLimited | IsSameFile | ConditionNotMatch | RangeNotSatisfied.
#[export] Instance OpendalKind_eq_dec : EqDecision OpendalKind.
Proof. solve_decision. Defined.

Definition opendal_to_io_error (k : OpendalKind) : io_Error :=
  io_new match k with
         | ONotFound => NotFound
         | OAlreadyExists => AlreadyExists
         | OPermissionDenied => PermissionDenied
         | OIsADirectory => IsADirectory
         | ONotADirectory => NotADirectory
         | OUnsupported => Unsupported
         | RateLimited => WouldBlock
         | _ => OtherKind
         end.

(** ** errno *)
Definition EPERM : Z := 1.
Definition ENOENT : Z := 2.
Definition EINTR : Z := 4.
Definition EIO : Z := 5.
Definition ENOMEM : Z := 12.
Definition EACCES : Z := 13.
Definition EEXIST : Z := 17.
Definition ENOTDIR : Z := 20.
Definition EISDIR : Z := 21.
Definition EINVAL : Z := 22.
Definition ENOSPC : Z := 28.
Definition ENOSYS : Z := 38.
Definition ETIMEDOUT : Z := 110.

Definition io_err_to_fuse_errno (e : io_Error) : Z :=
  match kind e with
  | NotFound => ENOENT
  | PermissionDenied => EACCES
  | AlreadyExists => EEXIST
  | InvalidInput => EINVAL
  | NotADirectory => ENOTDIR
  | IsADirectory => EISDIR
  | OutOfMemory => ENOMEM
  | StorageFull => ENOSPC
  | TimedOut => ETIMEDOUT
  | Interrupted => EINTR
  | Unsupported => ENOSYS
  | _ =>
      let code := default 0 (raw_os_error e) in
      if 0 <? code then code else EIO
  end.

(** ** NTSTATUS, as the unsigned code *)
Definition STATUS_UNSUCCESSFUL : Z := 0xC0000001.
Definition STATUS_NOT_IMPLEMENTED : Z := 0xC0000002.
Definition STATUS_INVALID_PARAMETER : Z := 0xC000000D.
Definition STATUS_END_OF_FILE : Z := 0xC0000011.
Definition STATUS_ACCESS_DENIED : Z := 0xC0000022.
Definition STATUS_OBJECT_NAME_NOT_FOUND : Z := 0xC0000034.
Definition STATUS_OBJECT_NAME_COLLISION : Z := 0xC0000035.
Definition STATUS_DISK_FULL : Z := 0xC000007F.
Definition STATUS_PIPE_DISCONNECTED : Z := 0xC00000B0.
Definition STATUS_IO_TIMEOUT : Z := 0xC00000B5.
Definition STATUS_NETWORK_NAME_DELETED : Z := 0xC00000C9.
Definition STATUS_CANCELLED : Z := 0xC0000120.
Definition STATUS_CONNECTION_RESET : Z := 0xC000020D.
Definition STATUS_CONNECTION_REFUSED : Z := 0xC0000236.
Definition STATUS_CONNECTION_ABORTED : Z := 0xC0000241.

Definition io_err_to_status (e : io_Error) : Z :=
  match kind e with
  | NotFound => STATUS_OBJECT_NAME_NOT_FOUND
  | PermissionDenied => STATUS_ACCESS_DENIED
  | AlreadyExists => STATUS_OBJECT_NAME_COLLISION
  | InvalidInput => STATUS_INVALID_PARAMETER
  | StorageFull => STATUS_DISK_FULL
  | TimedOut => STATUS_IO_TIMEOUT
  | ConnectionReset => STATUS_CONNECTION_RESET
  | ConnectionAborted => STATUS_CONNECTION_ABORTED
  | ConnectionRefused => STATUS_CONNECTION_REFUSED
  | BrokenPipe => STATUS_PIPE_DISCONNECTED
  | Interrupted => STATUS_CANCELLED
  | UnexpectedEof => STATUS_END_OF_FILE
  | WriteZero => STATUS_DISK_FULL
  | NetworkUnreachable => STATUS_NETWORK_NAME_DELETED
  | _ => STATUS_UNSUCCESSFUL
  end.
Definition ea_io_error_to_status (e : io_Error) : Z :=
  match kind e with
  | Unsupported => STATUS_NOT_IMPLEMENTED
  | NotFound => STATUS_OBJECT_NAME_NOT_FOUND
  | InvalidInput => STATUS_INVALID_PARAMETER
  | PermissionDenied => STATUS_ACCESS_DENIED
  | _ => STATUS_UNSUCCESSFUL
  end.

(** ** The log record *)
Definition errno_names : list (Z * string) :=
  [(1, "EPERM"); (2, "ENOENT"); (5, "EIO"); (9, "EBADF"); (11, "EAGAIN"); (12, "ENOMEM");
   (13, "EACCES"); (14, "EFAULT"); (16, "EBUSY"); (17, "EEXIST"); (18, "EXDEV"); (19, "ENODEV");
   (20, "ENOTDIR"); (21, "EISDIR"); (22, "EINVAL"); (23, "ENFILE"); (24, "EMFILE"); (27, "EFBIG");
   (28, "ENOSPC"); (30, "EROFS"); (32, "EPIPE"); (36, "ENAMETOOLONG"); (38, "ENOSYS");
   (39, "ENOTEMPTY"); (40, "ELOOP"); (122, "EDQUOT")]%string.
Definition errno_name (raw : Z) : string :=
  match List.find (fun p => fst p =? raw) errno_names with
  | Some (_, name) => name
  | None => "UNKNOWN"
  end.
(** The code and the name that [log_fuse_error] records. *)
Definition log_fuse_error (e : io_Error) : Z * string :=
  let raw := default 0 (raw_os_error e) in (raw, errno_name raw).

(** ** Properties *)

(** A backend error reaches the kernel with its own errno exactly for the six
    kinds that have one; everything else, rate limiting included, is [EIO]. *)
Theorem backend_errno k :
  io_err_to_fuse_errno (opendal_to_io_error k) =
    match k with
    | ONotFound => ENOENT
    | OAlreadyExists => EEXIST
    | OPermissionDenied => EACCES
    | OIsADirectory => EISDIR
    | ONotADirectory => ENOTDIR
    | OUnsupported => ENOSYS
    | _ => EIO
    end /\
  log_fuse_error (opendal_to_io_error k) = (0, "UNKNOWN"%string).
Proof. by destruct k. Qed.

(** The errno sent to the kernel is positive whatever the error carries. *)
Theorem errno_positive e : 0 < io_err_to_fuse_errno e.
Proof. unfold io_err_to_fuse_errno. destruct (kind e); try done; case_test; lia || done. Qed.

(** Every status sent to WinFsp is an error code, and the two tables agree on
    the kinds extended attributes distinguish, except for [Unsupported]. *)
Theorem status_is_error e :
  0xC0000000 <= io_err_to_status e < 2 ^ 32 /\ 0xC0000000 <= ea_io_error_to_status e < 2 ^ 32 /\
  (kind e ∈ [NotFound; InvalidInput; PermissionDenied] ->
   ea_io_error_to_status e = io_err_to_status e).
Proof.
  unfold io_err_to_status, ea_io_error_to_status. split_and!; try (destruct (kind e); vm_compute; done).
  rewrite !elem_of_cons, elem_of_nil. intros [->|[->|[->|[]]]]; done.
Qed.

End Errors.
