(* ===== verification/ErrorLog.v ===== *)
(** * ErrorLog: the structured error log of src/src/error_log.rs

    [Calendar]: days since 1970 to a civil date, as written twice
    (src/src/error_log.rs and src/src/cmd/dirty.rs), against the calendar's
    own rule for the next day.  [Json]: escaping and the log line.  [Log]: the
    bounded channel. *)

From Stdlib Require Import ZArith Lia Strings.Byte Strings.String Strings.Ascii.
From stdpp Require Import pretty sorting.
From S2P Require Import Prelude Util BlockFormat Writeback Errors.

Module Calendar.

(** [as i32]. *)
Definition as_i32 (x : Z) : Z := (x + 2 ^ 31) mod 2 ^ 32 - 2 ^ 31.

(** [civil_from_days] of error_log.rs; [/] truncates. *)
Definition civil_from_days (days_since_epoch : Z) : Z * Z * Z :=
  let z := days_since_epoch + 719468 in
  let era := if 0 <=? z then Z.quot z 146097 else Z.quot (z - 146096) 146097 in
  let doe := z - era * 146097 in
  let yoe := Z.quot (doe - Z.quot doe 1460 + Z.quot doe 36524 - Z.quot doe 146096) 365 in
  let y := yoe + era * 400 in
  let doy := doe - (365 * yoe + Z.quot yoe 4 - Z.quot yoe 100) in
  let mp := Z.quot (5 * doy + 2) 153 in
  let day := doy - Z.quot (153 * mp + 2) 5 + 1 in
  let month := if mp <? 10 then mp + 3 else mp - 9 in
  let year := y + (if month <=? 2 then 1 else 0) in
  (as_i32 year, month, day).

(** [epoch_to_ymdhms] of dirty.rs. *)
Definition epoch_to_ymdhms (secs : Z) : Z * Z * Z * Z * Z * Z :=
  let days := secs / 86400 in
  let rem := secs mod 86400 in
  let hour := rem / 3600 in
  let min := (rem mod 3600) / 60 in
  let sec := rem mod 60 in
  let z := days + 719468 in
  let era := Z.quot (if 0 <=? z then z else z - 146096) 146097 in
  let doe := z - era * 146097 in
  let yoe := (doe - doe / 1460 + doe / 36524 - doe / 146096) / 365 in
  let y := yoe + era * 400 in
  let doy := doe - (365 * yoe + yoe / 4 - yoe / 100) in
  let mp := (5 * doy + 2) / 153 in
  let d := doy - (153 * mp + 2) / 5 + 1 in
  let m := if mp <? 10 then mp + 3 else mp - 9 in
  let y := if m <=? 2 then y + 1 else y in
  (as_i32 y, m, d, hour, min, sec).

(** The fields [rfc3339_utc_now] formats. *)
Definition rfc3339_fields (secs : Z) : Z * Z * Z * Z * Z * Z :=
  let days := secs / 86400 in
  let sod := secs mod 86400 in
  let '(year, month, day) := civil_from_days days in
  (year, month, day, sod / 3600, (sod / 60) mod 60, sod mod 60).

(** ** The Gregorian calendar *)
Definition leap (y : Z) : bool :=
  (y mod 4 =? 0) && (negb (y mod 100 =? 0) || (y mod 400 =? 0)).
Definition days_in_month (y m : Z) : Z :=
  if m =? 2 then (if leap y then 29 else 28)
  else if (m =? 4) || (m =? 6) || (m =? 9) || (m =? 11) then 30 else 31.
Definition next_day (d : Z * Z * Z) : Z * Z * Z :=
  let '(year, month, day) := d in
  if day <? days_in_month year month then (year, month, day + 1)
  else if month <? 12 then (year, month + 1, 1)
  else (year + 1, 1, 1).

(** ** A year that starts in March *)

(** Month, day, and the years to add, of a day of such a year. *)
Definition month_day (doy : Z) : Z * Z * Z :=
  let mp := (5 * doy + 2) / 153 in
  let day := doy - (153 * mp + 2) / 5 + 1 in
  let month := if mp <? 10 then mp + 3 else mp - 9 in
  (month, day, if month <=? 2 then 1 else 0).
(** The rule for the next day, given whether the February ahead is long. *)
Definition next_md (long : bool) (d : Z * Z * Z) : Z * Z * Z :=
  let '(month, day, off) := d in
  let len := if month =? 2 then (if long then 29 else 28) else days_in_month 1 month in
  if day <? len then (month, day + 1, off)
  else if month <? 12 then (month + 1, 1, off) else (1, 1, off + 1).
Definition month_start (y : Z) : Z := 365 * y + y / 4 - y / 100.
Definition yoe_of (doe : Z) : Z := (doe - doe / 1460 + doe / 36524 - doe / 146096) / 365.

Definition year_check (long : bool) : bool :=
  forallb (fun d => bool_decide (next_md long (month_day d) = month_day (d + 1)))
    (seqZ 0 (if long then 365 else 364)).
Lemma year_checked long : year_check long = true.
Proof. destruct long; vm_compute; reflexivity. Qed.

Lemma month_day_next (long : bool) d : 0 <= d -> d + 1 < (if long then 366 else 365) ->
  next_md long (month_day d) = month_day (d + 1).
Proof.
  intros H0 H1. pose proof (year_checked long) as H. unfold year_check in H.
  rewrite forallb_forall in H. assert (Hin : In d (seqZ 0 (if long then 365 else 364))).
  { apply list_elem_of_In, elem_of_seqZ. destruct long; lia. }
  specialize (H d Hin). by apply bool_decide_eq_true in H.
Qed.

Lemma month_day_last (long : bool) : let '(m, d, off) := month_day (if long then 365 else 364) in
  m = 2 /\ d = (if long then 29 else 28) /\ off = 1.
Proof. by destruct long. Qed.

Lemma month_day_off doy : snd (month_day doy) = if fst (fst (month_day doy)) <=? 2 then 1 else 0.
Proof. done. Qed.

(** The calendar's rule, in terms of the year that starts in March. *)
Lemma next_day_md y m d : 1 <= m ->
  next_day (y + (if m <=? 2 then 1 else 0), m, d) =
  let '(m', d', off') := next_md (leap (y + 1)) (m, d, if m <=? 2 then 1 else 0) in (y + off', m', d').
Proof.
  intros Hm. unfold next_day, next_md.
  assert (E : days_in_month (y + (if m <=? 2 then 1 else 0)) m
            = if m =? 2 then if leap (y + 1) then 29 else 28 else days_in_month 1 m).
  { unfold days_in_month. destruct (m =? 2) eqn:E; [|done]. apply Z.eqb_eq in E as ->. done. }
  rewrite E. repeat case_test; bool_props; try done; try lia; f_equal; f_equal; lia.
Qed.

(** ** An era of 400 such years *)
Lemma yoe_of_spec doe : 0 <= doe < 146097 ->
  0 <= yoe_of doe < 400 /\ month_start (yoe_of doe) <= doe /\
  doe <= month_start (yoe_of doe) + (if leap (yoe_of doe + 1) then 365 else 364).
Proof.
  intros H. unfold yoe_of, month_start, leap. split_and!; [lia|lia|lia|]. case_test; bool_props; lia.
Qed.

Lemma yoe_of_unique doe y : 0 <= doe < 146097 -> 0 <= y < 400 -> month_start y <= doe ->
  doe <= month_start y + (if leap (y + 1) then 365 else 364) -> yoe_of doe = y.
Proof.
  intros H Hy H1 H2. destruct (yoe_of_spec doe H) as (Hr & H3 & H4). revert Hr H3 H4. generalize (yoe_of doe).
  intros y' Hr H3 H4. unfold month_start, leap in *. revert H2 H4. repeat case_test; bool_props; lia.
Qed.

Definition era_date (doe : Z) : Z * Z * Z :=
  let '(m, d, off) := month_day (doe - month_start (yoe_of doe)) in (yoe_of doe + off, m, d).

Lemma month_day_pos doy : 0 <= doy -> 1 <= fst (fst (month_day doy)).
Proof. intros H. unfold month_day. cbn. case_test; bool_props; lia. Qed.

Lemma era_date_next_md doe : 0 <= doe < 146097 ->
  next_day (era_date doe) =
  let '(m, d, off) := next_md (leap (yoe_of doe + 1)) (month_day (doe - month_start (yoe_of doe))) in
  (yoe_of doe + off, m, d).
Proof.
  intros H. destruct (yoe_of_spec doe H) as (_ & H1 & _). unfold era_date.
  pose proof (month_day_off (doe - month_start (yoe_of doe))) as Ho.
  pose proof (month_day_pos (doe - month_start (yoe_of doe)) ltac:(lia)) as Hp.
  destruct (month_day _) as [[m d] off]. cbn [fst snd] in Ho, Hp. subst off. by apply next_day_md.
Qed.

Lemma era_date_next doe : 0 <= doe < 146096 -> next_day (era_date doe) = era_date (doe + 1).
Proof.
  intros H. rewrite era_date_next_md by lia. set (y := yoe_of doe).
  destruct (yoe_of_spec doe ltac:(lia)) as (Hy & H1 & H2). fold y in Hy, H1, H2.
  destruct (decide (doe < month_start y + (if leap (y + 1) then 365 else 364))) as [Hlt|Hge].
  - assert (yoe_of (doe + 1) = y) as E by (apply yoe_of_unique; lia).
    rewrite month_day_next; [|lia|destruct (leap (y + 1)); lia].
    unfold era_date. rewrite E. by replace (doe + 1 - month_start y) with (doe - month_start y + 1) by lia.
  - assert (Hnext : doe + 1 = month_start (y + 1) /\ y + 1 < 400).
    { revert Hge H1 H2. unfold month_start, leap. case_test; bool_props; lia. }
    destruct Hnext as [Hn Hy'].
    assert (yoe_of (doe + 1) = y + 1) as E.
    { apply yoe_of_unique; [lia|lia|lia|]. destruct (leap (y + 1 + 1)); lia. }
    replace (doe - month_start y) with (if leap (y + 1) then 365 else 364) by (destruct (leap (y + 1)); lia).
    unfold era_date. rewrite E, Hn, Z.sub_diag. change (month_day 0) with (3, 1, 0).
    cbv beta iota. rewrite Z.add_0_r. by destruct (leap (y + 1)).
Qed.

Lemma era_date_last : next_day (era_date 146096) = (400, 3, 1) /\ era_date 0 = (0, 3, 1).
Proof. by vm_compute. Qed.

(** ** All days *)
Definition shift (k : Z) (d : Z * Z * Z) : Z * Z * Z := let '(y, m, dd) := d in (y + 400 * k, m, dd).

Lemma leap_shift y k : leap (y + 400 * k) = leap y.
Proof. unfold leap. repeat (f_equal; try lia). Qed.

Lemma next_day_shift k d : next_day (shift k d) = shift k (next_day d).
Proof.
  destruct d as [[y m] dd]. unfold next_day, shift, days_in_month. rewrite leap_shift.
  repeat case_test; f_equal; f_equal; lia.
Qed.

Definition civil_date (z : Z) : Z * Z * Z := shift (z / 146097) (era_date (z mod 146097)).

Lemma civil_date_next z : next_day (civil_date z) = civil_date (z + 1).
Proof.
  unfold civil_date. rewrite next_day_shift. destruct (decide (z mod 146097 = 146096)) as [E|Hne].
  - assert ((z + 1) / 146097 = z / 146097 + 1 /\ (z + 1) mod 146097 = 0) as [-> ->] by lia.
    rewrite E. destruct era_date_last as [-> ->]. unfold shift. f_equal. f_equal. lia.
  - assert ((z + 1) / 146097 = z / 146097 /\ (z + 1) mod 146097 = z mod 146097 + 1) as [-> ->] by lia.
    rewrite era_date_next by lia. done.
Qed.

(** ** The two implementations *)
Definition cast_year (d : Z * Z * Z) : Z * Z * Z := let '(y, m, dd) := d in (as_i32 y, m, dd).

Lemma civil_from_days_date n : civil_from_days n = cast_year (civil_date (n + 719468)).
Proof.
  unfold civil_from_days, civil_date, era_date, month_day, yoe_of, month_start, shift, cast_year.
  set (z := n + 719468). set (era := if 0 <=? z then Z.quot z 146097 else Z.quot (z - 146096) 146097).
  assert (era = z / 146097) as -> by (unfold era; case_test; bool_props; lia).
  assert (E : z - z / 146097 * 146097 = z mod 146097) by lia. rewrite E.
  set (doe := z mod 146097). assert (Hdoe : 0 <= doe < 146097) by lia. clearbody doe.
  rewrite !(Z.quot_div_nonneg doe) by lia.
  rewrite (Z.quot_div_nonneg (doe - doe / 1460 + doe / 36524 - doe / 146096)) by lia.
  destruct (yoe_of_spec doe Hdoe) as (Hy & H1 & _). unfold yoe_of, month_start in Hy, H1.
  set (yoe := (doe - doe / 1460 + doe / 36524 - doe / 146096) / 365) in *. clearbody yoe.
  rewrite !(Z.quot_div_nonneg yoe) by lia. set (doy := doe - (365 * yoe + yoe / 4 - yoe / 100)).
  assert (0 <= doy) by lia. clearbody doy. rewrite !Z.quot_div_nonneg by lia.
  f_equal. f_equal. f_equal. lia.
Qed.

Lemma civil_date_year z : 0 <= z < 700000000000 -> cast_year (civil_date z) = civil_date z.
Proof.
  intros Hz. unfold civil_date, shift, era_date, cast_year.
  destruct (yoe_of_spec (z mod 146097) ltac:(lia)) as (Hy & _).
  pose proof (month_day_off (z mod 146097 - month_start (yoe_of (z mod 146097)))) as Ho.
  destruct (month_day _) as [[m d] off]. cbn [fst snd] in Ho. f_equal. f_equal.
  assert (0 <= off <= 1) by (subst off; case_test; lia). unfold as_i32. lia.
Qed.

Lemma iter_next_day n z : Nat.iter n next_day (civil_date z) = civil_date (z + Z.of_nat n).
Proof.
  induction n as [|n IH]; [by rewrite Z.add_0_r|].
  change (next_day (Nat.iter n next_day (civil_date z)) = civil_date (z + Z.of_nat (S n))).
  rewrite IH, civil_date_next.
  f_equal. lia.
Qed.

(** C40: the date of a day is the one reached from 1 January 1970 by as many steps
    of the calendar. *)
Theorem civil_from_days_calendar n : (Z.of_nat n < 600000000000)%Z ->
  civil_from_days (Z.of_nat n) = Nat.iter n next_day (1970, 1, 1).
Proof.
  intros Hn. rewrite civil_from_days_date, civil_date_year by lia.
  change (1970, 1, 1) with (civil_date 719468). rewrite iter_next_day. f_equal. lia.
Qed.

(** The two programs that turn seconds into a civil time agree on every input,
    and the time of day they give has exactly the seconds of the day. *)
Theorem ymdhms_equiv secs : 0 <= secs ->
  epoch_to_ymdhms secs = rfc3339_fields secs /\
  let '(_, _, _, h, m, s) := epoch_to_ymdhms secs in
  0 <= h < 24 /\ 0 <= m < 60 /\ 0 <= s < 60 /\ 3600 * h + 60 * m + s = secs mod 86400.
Proof.
  intros H. split.
  - unfold rfc3339_fields. rewrite civil_from_days_date. unfold epoch_to_ymdhms.
    set (z := secs / 86400 + 719468). assert (Hz : 0 <= z) by lia.
    rewrite (proj2 (Z.leb_le 0 z) Hz). rewrite (Z.quot_div_nonneg z) by lia.
    unfold civil_date, era_date, month_day, yoe_of, month_start, shift, cast_year.
    assert (E : z - z / 146097 * 146097 = z mod 146097) by lia. rewrite E.
    set (doe := z mod 146097). set (yoe := (doe - doe / 1460 + doe / 36524 - doe / 146096) / 365).
    set (doy := doe - (365 * yoe + yoe / 4 - yoe / 100)). set (m := if _ <? 10 then _ else _).
    f_equal. f_equal; [|lia]. f_equal. f_equal. f_equal. f_equal. case_test; lia.
  - unfold epoch_to_ymdhms. split_and!; lia.
Qed.

Lemma civil_from_days_calendar_witness :
  civil_from_days 59 = Nat.iter 59 next_day (1970, 1, 1) /\ civil_from_days 59 = (1970, 3, 1).
Proof. split; [apply (civil_from_days_calendar 59); lia|reflexivity]. Defined.

Lemma ymdhms_equiv_witness :
  epoch_to_ymdhms 951827696 = rfc3339_fields 951827696 /\
  epoch_to_ymdhms 951827696 = (2000, 2, 29, 12, 34, 56).
Proof. split; [apply (ymdhms_equiv 951827696); lia|reflexivity]. Defined.

End Calendar.

Module Json.

Definition QUOTE : ascii := "034"%char.
Definition BACKSLASH : ascii := "092"%char.
Definition LF : ascii := "010"%char.
Definition code (a : ascii) : Z := Z.of_nat (nat_of_ascii a).

(** [json_escape_into] on the UTF-8 bytes: only bytes below 0x80 are
    escaped, and those are characters of their own. *)
Definition escape_char (a : ascii) : string :=
  if ascii_dec a QUOTE then String BACKSLASH (String QUOTE EmptyString)
  else if ascii_dec a BACKSLASH then String BACKSLASH (String BACKSLASH EmptyString)
  else if ascii_dec a LF then String BACKSLASH "n"
  else if ascii_dec a "013"%char then String BACKSLASH "r"
  else if ascii_dec a "009"%char then String BACKSLASH "t"
  else if ascii_dec a "008"%char then String BACKSLASH "b"
  else if ascii_dec a "012"%char then String BACKSLASH "f"
  else if code a <? 0x20 then String BACKSLASH ("u" +:+ Str.fmt_hex 4 (code a))
  else String a EmptyString.
Fixpoint json_escape (s : string) : string :=
  match s with
  | EmptyString => EmptyString
  | String a s' => escape_char a +:+ json_escape s'
  end.

(** [i32::to_string] and the zero-padded decimal formats. *)
Fixpoint dec_go (fuel : nat) (z : Z) (acc : string) : string :=
  match fuel with
  | O => acc
  | S f =>
      let acc' := String (Str.hex_digit (z mod 10)) acc in
      if z <? 10 then acc' else dec_go f (z / 10) acc'
  end.
Definition digits (z : Z) : string := dec_go 20 z EmptyString.
Definition i32_to_string (z : Z) : string :=
  if z <? 0 then String "-"%char (digits (- z)) else digits z.
Definition fmt_dec (w : nat) (z : Z) : string :=
  Str.zeros (w - String.length (digits z)) +:+ digits z.

(** [rfc3339_utc_now]; [now] is the time since 1970 in nanoseconds. *)
Definition rfc3339_utc_now (now : Z) : string :=
  let '(year, month, day, h, m, s) := Calendar.rfc3339_fields (now / 1000000000) in
  let ms := (now mod 1000000000) / 1000000 in
  fmt_dec 4 year +:+ "-" +:+ fmt_dec 2 month +:+ "-" +:+ fmt_dec 2 day +:+ "T" +:+
  fmt_dec 2 h +:+ ":" +:+ fmt_dec 2 m +:+ ":" +:+ fmt_dec 2 s +:+ "." +:+ fmt_dec 3 ms +:+ "Z".

Record ErrorRecord := mk_record {
  operation : string;
  errno : Z;
  rec_errno_name : string;
  fields : list (string * string)
}.

(** A member [,"k":v] of the line. *)
Definition quoted (s : string) : string := String QUOTE (s +:+ String QUOTE EmptyString).
Definition member (key value : string) : string := quoted key +:+ ":" +:+ value.
Definition json_body (now : Z) (r : ErrorRecord) : string :=
  "{" +:+ member "version" "1" +:+ "," +:+ member "operation" (quoted (operation r)) +:+ "," +:+
  member "errno" (i32_to_string (errno r)) +:+ "," +:+
  member "errno_name" (quoted (rec_errno_name r)) +:+ "," +:+
  member "timestamp" (quoted (rfc3339_utc_now now)) +:+
  foldr (fun '(k, v) acc => "," +:+ member (json_escape k) (quoted (json_escape v)) +:+ acc)
    EmptyString (fields r) +:+ "}".
Definition to_json_line (now : Z) (r : ErrorRecord) : string :=
  json_body now r +:+ String LF EmptyString.

(** ** Reading a JSON string back (RFC 8259, section 7) *)
Definition hex4 (a b c d : ascii) : option Z :=
  Str.parse_loop 16 0 (String a (String b (String c (String d EmptyString)))).
Definition simple_escapes : list (ascii * ascii) :=
  [(QUOTE, QUOTE); (BACKSLASH, BACKSLASH); ("/", "/"); ("n", LF); ("r", "013"); ("t", "009");
   ("b", "008"); ("f", "012")]%char.
Definition simple_escape (b : ascii) : option ascii :=
  snd <$> List.find (fun p => Ascii.eqb (fst p) b) simple_escapes.
Fixpoint unescape (s : string) : option string :=
  match s with
  | EmptyString => Some EmptyString
  | String a s' =>
      if Ascii.eqb a BACKSLASH then
        match s' with
        | EmptyString => None
        | String b t =>
            match simple_escape b with
            | Some c => String c <$> unescape t
            | None =>
                match t with
                | String h1 (String h2 (String h3 (String h4 t'))) =>
                    if Ascii.eqb b "u" then
                      v ← hex4 h1 h2 h3 h4;
                      if v <? 0x80 then String (ascii_of_nat (Z.to_nat v)) <$> unescape t' else None
                    else None
                | _ => None
                end
            end
        end
      else if Ascii.eqb a QUOTE || (code a <? 0x20) then None
      else String a <$> unescape s'
  end.

Lemma unescape_simple b c t : simple_escape b = Some c ->
  unescape (String BACKSLASH (String b t)) = String c <$> unescape t.
Proof. intros H. cbn [unescape]. change (Ascii.eqb BACKSLASH BACKSLASH) with true. cbv iota. by rewrite H. Qed.

Lemma unescape_u c d v t : hex4 "0" "0" c d = Some v -> v < 0x80 ->
  unescape (String BACKSLASH (String "u" (String "0" (String "0" (String c (String d t)))))) =
  String (ascii_of_nat (Z.to_nat v)) <$> unescape t.
Proof.
  intros H Hv. cbn [unescape]. change (Ascii.eqb BACKSLASH BACKSLASH) with true.
  change (simple_escape "u") with (@None ascii). change (Ascii.eqb "u" "u") with true. cbv iota.
  rewrite H. cbn [mbind option_bind]. by rewrite (proj2 (Z.ltb_lt _ _) Hv).
Qed.

Definition hex_ok (v : Z) : bool :=
  let c := Str.hex_digit (v / 16) in
  let d := Str.hex_digit (v mod 16) in
  String.eqb (Str.fmt_hex 4 v) (String "0" (String "0" (String c (String d EmptyString)))) &&
  bool_decide (hex4 "0" "0" c d = Some v).
Lemma hex_ok_small : forallb hex_ok (seqZ 0 32) = true.
Proof. vm_compute. reflexivity. Qed.

Lemma hex_code v : 0 <= v < 0x20 -> exists c d,
  Str.fmt_hex 4 v = String "0" (String "0" (String c (String d EmptyString))) /\
  hex4 "0" "0" c d = Some v.
Proof.
  intros H. pose proof hex_ok_small as Hok. rewrite forallb_forall in Hok.
  specialize (Hok v (proj1 (list_elem_of_In _ _) (proj2 (elem_of_seqZ 0 32 v) ltac:(lia)))).
  unfold hex_ok in Hok. apply andb_true_iff in Hok as [H1 H2].
  apply String.eqb_eq in H1. apply bool_decide_eq_true in H2. eauto.
Qed.

(** One escaped character is read back, whatever follows. *)
Lemma unescape_char a t : unescape (escape_char a +:+ t) = String a <$> unescape t.
Proof.
  unfold escape_char.
  repeat match goal with
  | |- context [if ascii_dec a ?c then _ else _] =>
      destruct (ascii_dec a c) as [->|?];
      [rewrite ?Str.append_cons, ?Str.append_nil_l; by apply unescape_simple|]
  end.
  case_test; bool_props.
  - destruct (hex_code (code a) ltac:(unfold code in *; lia)) as (c & d & -> & Hv).
    rewrite !Str.append_cons, !Str.append_nil_l, !Str.append_cons, !Str.append_nil_l.
    rewrite (unescape_u c d (code a)) by (done || lia). unfold code. by rewrite Nat2Z.id, ascii_nat_embedding.
  - rewrite Str.append_cons, Str.append_nil_l. cbn [unescape].
    rewrite (proj2 (Ascii.eqb_neq a BACKSLASH)), (proj2 (Ascii.eqb_neq a QUOTE)) by done.
    by rewrite (proj2 (Z.ltb_ge (code a) 0x20)) by lia.
Qed.

(** Escaping keeps the text: a JSON reader gets the string back. *)
Theorem json_escape_roundtrip s : unescape (json_escape s) = Some s.
Proof.
  induction s as [|a s IH]; [done|]. cbn [json_escape]. by rewrite unescape_char, IH.
Qed.

Lemma fmt_hex_line w z : Str.free_of LF (Str.fmt_hex w z).
Proof.
  apply Str.free_of_app; [by apply Str.zeros_free|]. apply Str.hex_go_free; [|done].
  intros d Hd. pattern d. apply (small_cases _ 16 d Hd). by repeat constructor.
Qed.

Lemma escape_char_line a : Str.free_of LF (escape_char a).
Proof.
  unfold escape_char.
  repeat match goal with
  | |- context [if ascii_dec a ?c then _ else _] => destruct (ascii_dec a c) as [->|?]; [done|]
  end.
  case_test; [|by apply Str.free_of_cons].
  apply Str.free_of_cons. split; [done|]. apply Str.free_of_app; [done|apply fmt_hex_line].
Qed.

Lemma json_escape_line s : Str.free_of LF (json_escape s).
Proof.
  induction s as [|a s IH]; [done|]. cbn [json_escape]. by apply Str.free_of_app; [apply escape_char_line|].
Qed.

Lemma dec_go_line fuel z acc : Str.free_of LF acc -> Str.free_of LF (dec_go fuel z acc).
Proof.
  revert z acc. induction fuel as [|f IH]; intros z acc Ha; [done|]. cbn [dec_go].
  assert (Str.free_of LF (String (Str.hex_digit (z mod 10)) acc)); [|case_test; auto].
  apply Str.free_of_cons. split; [|done]. pattern (z mod 10). apply (small_cases _ 10); [lia|].
  by repeat constructor.
Qed.

Lemma fmt_dec_line w z : Str.free_of LF (fmt_dec w z).
Proof. apply Str.free_of_app; [by apply Str.zeros_free|by apply dec_go_line]. Qed.

Lemma i32_line z : Str.free_of LF (i32_to_string z).
Proof. unfold i32_to_string. case_test; [apply Str.free_of_cons; split; [done|]|]; by apply dec_go_line. Qed.

Lemma quoted_line s : Str.free_of LF s -> Str.free_of LF (quoted s).
Proof. intros H. apply Str.free_of_cons. split; [done|]. by apply Str.free_of_app. Qed.

Create HintDb line.
#[local] Hint Resolve Str.free_of_app fmt_dec_line i32_line quoted_line json_escape_line : line.

Lemma timestamp_line now : Str.free_of LF (rfc3339_utc_now now).
Proof.
  unfold rfc3339_utc_now. destruct (Calendar.rfc3339_fields _) as [[[[[y mo] d] h] m] s].
  repeat (apply Str.free_of_app; [first [apply fmt_dec_line|done]|]). done.
Qed.

Lemma member_line k v : Str.free_of LF k -> Str.free_of LF v -> Str.free_of LF (member k v).
Proof. intros Hk Hv. unfold member. auto with line. Qed.
#[local] Hint Resolve timestamp_line member_line : line.

Lemma fields_line l : Str.free_of LF
  (foldr (fun '(k, v) acc => "," +:+ member (json_escape k) (quoted (json_escape v)) +:+ acc) EmptyString l).
Proof.
  induction l as [|[k v] l IH]; [done|]. cbn [foldr]. apply Str.free_of_app; [done|]. auto 6 with line.
Qed.

(** A record is one line of the log, whatever the fields contain: no value can
    start a new record. *)
Theorem json_line_is_one_line now r :
  Str.free_of LF (operation r) -> Str.free_of LF (rec_errno_name r) ->
  to_json_line now r = json_body now r +:+ String LF EmptyString /\ Str.free_of LF (json_body now r).
Proof.
  intros Ho Hn. split; [done|]. unfold json_body. pose proof (fields_line (fields r)).
  repeat (apply Str.free_of_app; [first [assumption|apply member_line; [done|]; auto with line; done|done]|]).
  done.
Qed.

Lemma json_line_is_one_line_witness :
  let r := mk_record "read" 5 "EIO" [("path"%string, String LF "x")] in
  Str.free_of LF (json_body 0 r).
Proof. intros r. apply (json_line_is_one_line 0 r); reflexivity. Defined.

End Json.

(** ** The bounded channel of [ErrorLog] and its writer thread *)
Module Log.
Section Log.
Context {A : Type}.

Definition CAPACITY : Z := 1024.
(** The thread opens the file itself, after [start] has returned the handle;
    when that fails it returns, and the receiver is gone. *)
Inductive thread := Starting | Running | Gone.
(** [taken]: the records the thread took, each with whether its [write_all]
    succeeded (the result is ignored); [discarded]: the records that were in
    the channel when the receiver went. *)
Record error_log := mk_log {
  writer : thread;
  queue : list A;
  taken : list (A * bool);
  discarded : Z;
  drops : Z
}.
Definition start : error_log := mk_log Starting [] [] 0 0.

(** [log]: [try_send], an error when the channel is full or disconnected. *)
Definition try_send (r : A) (l : error_log) : option error_log :=
  match writer l with
  | Gone => None
  | w => if lenZ (queue l) <? CAPACITY
         then Some (mk_log w (queue l ++ [r]) (taken l) (discarded l) (drops l)) else None
  end.
Definition log (r : A) (l : error_log) : error_log :=
  match try_send r l with
  | Some l' => l'
  | None => mk_log (writer l) (queue l) (taken l) (discarded l) (drops l + 1)
  end.
(** The thread: the open, then one turn of [while let Ok(rec) = rx.recv()]. *)
Definition open_file (ok : bool) (l : error_log) : error_log :=
  match writer l with
  | Starting => if ok then mk_log Running (queue l) (taken l) (discarded l) (drops l)
                else mk_log Gone [] (taken l) (lenZ (queue l)) (drops l)
  | _ => l
  end.
Definition write_one (ok : bool) (l : error_log) : error_log :=
  match writer l, queue l with
  | Running, r :: q => mk_log Running q (taken l ++ [(r, ok)]) (discarded l) (drops l)
  | _, _ => l
  end.

Inductive op := OLog (r : A) | OOpen (ok : bool) | OWrite (ok : bool).
Definition run_op (l : error_log) (o : op) : error_log :=
  match o with OLog r => log r l | OOpen ok => open_file ok l | OWrite ok => write_one ok l end.
Definition run (l : error_log) (ops : list op) : error_log := foldl run_op l ops.
Definition logged (ops : list op) : list A :=
  flat_map (fun o => match o with OLog r => [r] | _ => [] end) ops.

Definition accounted (ops : list op) (l : error_log) : Prop :=
  (taken l).*1 ++ queue l `sublist_of` logged ops /\ lenZ (queue l) <= CAPACITY /\
  lenZ (taken l) + lenZ (queue l) + discarded l + drops l = lenZ (logged ops) /\
  (writer l <> Gone -> discarded l = 0).

Lemma logged_snoc ops o : logged (ops ++ [o]) = logged ops ++ match o with OLog r => [r] | _ => [] end.
Proof. unfold logged. rewrite flat_map_app. cbn. by rewrite app_nil_r. Qed.

Lemma log_accounted ops l r : accounted ops l -> accounted (ops ++ [OLog r]) (log r l).
Proof.
  intros (H1 & H2 & H3 & H4). unfold accounted. rewrite logged_snoc, lenZ_app.
  change (lenZ [r]) with 1. unfold log, try_send.
  assert (Hdrop : (taken l).*1 ++ queue l `sublist_of` logged ops ++ [r])
    by (by apply sublist_inserts_r).
  assert (Hput : (taken l).*1 ++ queue l ++ [r] `sublist_of` logged ops ++ [r])
    by (rewrite app_assoc; by apply sublist_app).
  destruct (writer l) eqn:E; [case_test|case_test|]; bool_props;
    cbn [writer queue taken discarded drops]; rewrite ?lenZ_app; try change (lenZ [r]) with 1;
    (split_and!; [done|lia|lia|by rewrite ?E in *]).
Qed.

Lemma step_accounted ops l o : accounted ops l -> accounted (ops ++ [o]) (run_op l o).
Proof.
  intros H. destruct o as [r|ok|ok]; [by apply log_accounted| |];
    destruct H as (H1 & H2 & H3 & H4); unfold accounted; rewrite logged_snoc, app_nil_r.
  - cbn [run_op]. unfold open_file. destruct (writer l) eqn:E; [|by rewrite E|by rewrite E].
    assert (discarded l = 0) by auto.
    destruct ok; cbn [writer queue taken discarded drops]; [by split_and!|].
    change (lenZ (@nil A)) with 0. split_and!; [|done|lia|done].
    rewrite app_nil_r. etrans; [|done]. by apply sublist_inserts_r.
  - cbn [run_op]. unfold write_one. destruct (writer l) eqn:E, (queue l) as [|r q] eqn:Eq;
      rewrite ?E, ?Eq in *; try done. cbn [writer queue taken discarded drops].
    rewrite fmap_app, <-app_assoc, lenZ_app. change (lenZ [(r, ok)]) with 1.
    change (r :: q) with ([r] ++ q) in H2, H3. rewrite lenZ_app in H2, H3. change (lenZ [r]) with 1 in *.
    split_and!; [done|lia|lia|auto].
Qed.

(** The writer takes the accepted records in the order they were logged, the
    channel stays within its capacity, and every record is taken, queued,
    discarded with the receiver or counted as dropped. *)
Theorem log_accounts ops : accounted ops (run start ops).
Proof.
  induction ops as [|o ops IH] using rev_ind; [by split_and!; [constructor| | |]|].
  unfold run. rewrite foldl_app. by apply step_accounted.
Qed.

Lemma log_gone r l : writer l = Gone ->
  log r l = mk_log Gone (queue l) (taken l) (discarded l) (drops l + 1).
Proof. intros E. unfold log, try_send. by rewrite !E. Qed.

Lemma run_gone rs l : writer l = Gone ->
  run l (OLog <$> rs) = mk_log Gone (queue l) (taken l) (discarded l) (drops l + lenZ rs).
Proof.
  revert l. induction rs as [|r rs IH]; intros l E.
  - unfold lenZ. cbn. destruct l; cbn in *. subst. by rewrite Z.add_0_r.
  - cbn. rewrite log_gone by done. unfold run in IH. rewrite IH by done. cbn. f_equal.
    change (r :: rs) with ([r] ++ rs). rewrite lenZ_app. change (lenZ [r]) with 1. lia.
Qed.

(** [start] hands out a log even when the file cannot be opened: from then on
    every record is dropped and none is written. *)
Theorem open_failure_drops_all rs :
  let l := run (open_file false start) (OLog <$> rs) in
  taken l = [] /\ queue l = [] /\ drops l = lenZ rs.
Proof. cbv zeta. by rewrite run_gone. Qed.
End Log.
End Log.
