(* ===== verification/Dirty.v ===== *)
(** The [list-dirty] command (src/src/cmd/dirty.rs): the rows it shows for the
    [.dirty] sidecars of a cache directory, and how they relate to what crash
    recovery ([Writeback.Sidecar]) does with the same directory. *)
From Stdlib Require Import ZArith Lia Strings.Byte Strings.String Strings.Ascii.
From stdpp Require Import sorting.
From S2P Require Import Prelude Util BlockFormat Writeback ErrorLog.

Module Dirty.
Import Sidecar.

Record DirtyRow := mk_row {
  sidecar_path : string;
  remote : string;
  write_buffer_path : string;
  cache_exists : bool;
  cache_size : Z;
  sidecar_mtime : Z
}.

(** [BufRead::lines().next()]: the bytes before the first LF, without a CR
    that ends them; [None] at the end of the file. *)
Fixpoint until_lf (l : bytes) : bytes :=
  match l with
  | [] => []
  | b :: l' => if Byte.eqb b Byte.x0a then [] else b :: until_lf l'
  end.
Definition has_lf (l : bytes) : bool := existsb (Byte.eqb Byte.x0a) l.
Definition strip_cr (l : bytes) : bytes :=
  match reverse l with
  | b :: l' => if Byte.eqb b Byte.x0d then reverse l' else l
  | [] => l
  end.
Definition first_line (l : bytes) : option bytes :=
  match l with
  | [] => None
  | _ => Some (if has_lf l then strip_cr (until_lf l) else l)
  end.

(** [None]: the open failed, or the line is not UTF-8. *)
Definition read_remote_path (fs : gmap string file) (sidecar : string) : option string :=
  match fs !! sidecar with
  | Some f =>
      if file_readable f then
        match first_line (file_data f) with
        | Some line =>
            match from_utf8 line with
            | Some s => Some (String.string_of_list_byte (trim (as_bytes s)))
            | None => None
            end
        | None => Some EmptyString
        end
      else None
  | None => None
  end.

Definition row_of (fs : gmap string file) (p : string) : DirtyRow :=
  let buffer := with_extension p EmptyString in
  mk_row p (default EmptyString (read_remote_path fs p)) buffer
    (match fs !! buffer with Some _ => true | None => false end)
    (match fs !! buffer with Some f => lenZ (file_data f) | None => 0 end)
    (match fs !! p with Some f => file_mtime f | None => 0 end).

(** [Path::cmp] on the entries of one directory: the file names, bytewise. *)
Definition path_le (a b : DirtyRow) : Prop :=
  String.leb (sidecar_path a) (sidecar_path b) = true.
#[export] Instance path_le_dec : RelDecision path_le.
Proof. intros a b. unfold path_le. apply _. Defined.

(** [read_dir]: the names, a missing directory, or another error. *)
Inductive dir_listing := Entries (names : list string) | NotFound | ReadDirError.
Definition scan_dirty_sidecars (d : dir_listing) (fs : gmap string file) : option (list DirtyRow) :=
  match d with
  | Entries names => Some (merge_sort path_le (map (row_of fs) (List.filter is_sidecar names)))
  | NotFound => Some []
  | ReadDirError => None
  end.

(** [truncate], on the characters of the string. *)
Definition truncate {A} (ellipsis : A) (s : list A) (max : Z) : list A :=
  if lenZ s <=? max then s else takeZ (saturating_sub max 1) s ++ [ellipsis].

(** [format_system_time]: nanoseconds since the epoch, clamped at it. *)
Definition format_system_time (nanos : Z) : string :=
  let '(year, month, day, hour, min, sec) := Calendar.epoch_to_ymdhms (Z.max nanos 0 / NANOS) in
  Json.fmt_dec 4 year +:+ "-" +:+ Json.fmt_dec 2 month +:+ "-" +:+ Json.fmt_dec 2 day +:+ " " +:+
  Json.fmt_dec 2 hour +:+ ":" +:+ Json.fmt_dec 2 min +:+ ":" +:+ Json.fmt_dec 2 sec.

(** One line of the table: the columns [list_dirty] prints, before padding. *)
Definition columns (r : DirtyRow) : string * Z * string * string * string :=
  (if String.eqb (remote r) EmptyString then "?"%string else remote r,
   cache_size r, format_system_time (sidecar_mtime r),
   if cache_exists r then "no"%string else "YES"%string, sidecar_path r).
Definition list_dirty (d : dir_listing) (fs : gmap string file)
    : option (list (string * Z * string * string * string)) :=
  match scan_dirty_sidecars d fs with
  | Some rows => Some (map columns rows)
  | None => None
  end.

Lemma path_le_total : Total path_le.
Proof. intros a b. apply String.leb_total. Qed.

(** A sidecar of one line shows the remote path recovery would upload to. *)
Lemma read_remote_one_line fs p f s :
  fs !! p = Some f -> has_lf (file_data f) = false -> read_to_string fs p = Some s ->
  read_remote_path fs p = Some (String.string_of_list_byte (trim (as_bytes s))).
Proof.
  unfold read_to_string, read_remote_path. intros -> Hl Hs. destruct (file_readable f); [|done].
  destruct (file_data f) as [|b l]; [by injection Hs as <-|]. unfold first_line. by rewrite Hl, Hs.
Qed.

Lemma row_in fs names r :
  r ∈ merge_sort path_le (map (row_of fs) (List.filter is_sidecar names)) <->
  exists p, r = row_of fs p /\ p ∈ names /\ is_sidecar p = true.
Proof.
  rewrite merge_sort_Permutation. rewrite list_elem_of_In, in_map_iff.
  setoid_rewrite filter_In. setoid_rewrite list_elem_of_In. naive_solver.
Qed.

(** What [list-dirty] shows is what recovery would find: one row per sidecar
    of the scan, sorted; the rows marked as orphans are the sidecars recovery
    removes; and the remote shown for a one-line sidecar with a buffer is the
    one of the task it sends. *)
Theorem list_dirty_matches_recovery tx dc delay bsize names fs :
  NoDup names -> (forall p, p ∈ names -> is_Some (fs !! p)) ->
  (forall p, p ∈ names -> is_sidecar p = true -> is_sidecar (with_extension p EmptyString) = false) ->
  let s := recover_dirty_sidecars tx dc delay bsize (Some names) fs in
  exists rows, scan_dirty_sidecars (Entries names) fs = Some rows /\ Sorted path_le rows /\
    lenZ rows = total (s_stats s) /\
    (forall r, r ∈ rows -> (cache_exists r = false <-> s_fs s !! sidecar_path r = None)) /\
    (forall t, t ∈ s_sent s -> exists r, r ∈ rows /\ write_buffer_path r = task_buffer_path t /\
       (forall f, fs !! sidecar_path r = Some f -> has_lf (file_data f) = false ->
        remote r = remote_path t)).
Proof.
  intros Hnd Hfs Hs s.
  destruct (foldl_recover tx dc delay bsize fs names [] (mk_scan fs stats_default []))
    as (H1 & H2 & H3 & H4);
    [by intros q; rewrite bool_decide_eq_false_2 by set_solver|done|set_solver|done|].
  eexists. split; [reflexivity|]. split_and!.
  - apply Sorted_merge_sort, path_le_total.
  - unfold lenZ in *. rewrite (Permutation_length (merge_sort_Permutation _ _)), length_map.
    unfold s, recover_dirty_sidecars. rewrite H3. done.
  - intros r (p & -> & Hp & Hd)%row_in. unfold s, recover_dirty_sidecars, row_of. cbn [cache_exists sidecar_path].
    rewrite H1, bool_decide_eq_true_2 by set_solver. unfold is_orphan. rewrite Hd. cbn [andb].
    destruct (Hfs p Hp) as [f Hf].
    destruct (fs !! with_extension p EmptyString); [|done].
    rewrite bool_decide_eq_false_2 by done. rewrite Hf. done.
  - intros t Ht. unfold s, recover_dirty_sidecars in Ht. rewrite H2 in Ht. cbn [s_sent app] in Ht.
    apply list_elem_of_omap in Ht as (p & Hp & Hsent). exists (row_of fs p).
    unfold sent_of in Hsent. destruct (is_sidecar p) eqn:Hd; [|done].
    destruct (fs !! with_extension p EmptyString); [|done].
    destruct (read_to_string fs p) eqn:Hr; [|done]. destruct tx as [send|]; [|done].
    case_test_in Hsent; simplify_eq. split; [apply row_in; eauto|]. split; [done|].
    intros g Hg Hl. unfold row_of. cbn [remote]. by erewrite read_remote_one_line.
Qed.

(** A sidecar, its buffer, and an orphan whose sidecar has two lines. *)
Definition cache_dir : gmap string file :=
  <["a"%string := mk_file [Byte.x61] 5 true]>
  (<["a.dirty"%string := mk_file (as_bytes "r/a") 7 true]>
  (<["b.dirty"%string := mk_file (as_bytes (String Json.LF "r/b")) 9 true]> ∅)).

Lemma list_dirty_matches_recovery_witness :
  let s := recover_dirty_sidecars (Some (fun _ => true)) true 0 0
             (Some ["b.dirty"; "a"; "a.dirty"]%string) cache_dir in
  exists rows, scan_dirty_sidecars (Entries ["b.dirty"; "a"; "a.dirty"]%string) cache_dir = Some rows /\
    lenZ rows = total (s_stats s).
Proof.
  intros s.
  destruct (list_dirty_matches_recovery (Some (fun _ => true)) true 0 0
              ["b.dirty"; "a"; "a.dirty"]%string cache_dir) as (rows & H1 & _ & H2 & _).
  - by apply (bool_decide_eq_true_1 (NoDup _)); vm_compute.
  - intros p Hp. repeat (apply elem_of_cons in Hp as [->|Hp]; [by eexists|]). by apply elem_of_nil in Hp.
  - intros p Hp. repeat (apply elem_of_cons in Hp as [->|Hp]; [done|]). by apply elem_of_nil in Hp.
  - exists rows. by split.
Defined.

(** A remote path with a line feed in it is shown cut at the line feed, while
    recovery uploads to the whole path. *)
Theorem list_dirty_cuts_at_lf :
  let path := ("r/x" +:+ String Json.LF "y")%string in
  let fs := <["c"%string := mk_file [] 0 true]>
            (<["c.dirty"%string := mk_file (as_bytes path) 0 true]> (∅ : gmap string file)) in
  (remote <$> scan_dirty_sidecars (Entries ["c.dirty"%string]) fs ≫= head) = Some "r/x"%string /\
  (remote_path <$> s_sent (recover_dirty_sidecars (Some (fun _ => true)) true 0 0
                             (Some ["c.dirty"%string]) fs)) = [path].
Proof. by vm_compute. Qed.

Lemma truncate_fits {A} (e : A) s max : 1 <= max -> lenZ (truncate e s max) <= max.
Proof.
  intros H. unfold truncate. case_test; bool_props; [done|]. rewrite lenZ_app, lenZ_takeZ by (unfold saturating_sub; lia).
  change (lenZ [e]) with 1. unfold saturating_sub. lia.
Qed.

End Dirty.
