(* ===== verification/Xattr.v ===== *)
(** Extended attributes: the [FILE_FULL_EA_INFORMATION] buffers of the Windows
    adapter (src/src/xattr_bridge_ea.rs), the names (src/src/xattr_bridge.rs), the
    POSIX handlers (src/src/lib.rs) and the Windows handlers on top of them
    (src/src/core_fs/winfsp.rs). *)
From Stdlib Require Import ZArith Lia Strings.Byte Strings.String Strings.Ascii.
From stdpp Require Import sorting.
From S2P Require Import Prelude Util BlockFormat Inodes Errors ErrorLog.

Module Ea.

Record EaEntry := mk_ea { name : string; value : bytes; flags : Z }.
Inductive EaWriteError := NameTooLong | ValueTooLong | BufferTooSmall.

(** [buffer[a..b]], and [copy_from_slice] into [buffer[off..]]. *)
Definition slice (a b : Z) (l : bytes) : bytes := takeZ (b - a) (dropZ a l).
Definition copy_from_slice (off : Z) (src l : bytes) : bytes :=
  takeZ off l ++ src ++ dropZ (off + lenZ src) l.

(** One call of the iterator's closure at [offset]: the entry, and the offset
    of the next one. *)
Definition parse_entry (buffer : bytes) (offset : Z) : option (EaEntry * Z) :=
  if lenZ buffer <? offset + 8 then None
  else
    let next_entry_offset := from_le (slice offset (offset + 4) buffer) in
    let flags := from_le (slice (offset + 4) (offset + 5) buffer) in
    let name_len := from_le (slice (offset + 5) (offset + 6) buffer) in
    let value_len := from_le (slice (offset + 6) (offset + 8) buffer) in
    let name_start := offset + 8 in
    let value_start := name_start + name_len in
    let value_end := value_start + value_len in
    if lenZ buffer <? value_end then None
    else
      let name := default EmptyString (from_utf8 (slice name_start value_start buffer)) in
      let value := slice value_start value_end buffer in
      Some (mk_ea name value flags,
            if next_entry_offset =? 0 then lenZ buffer + 1 else offset + next_entry_offset).
Fixpoint parse_from (fuel : nat) (buffer : bytes) (offset : Z) : list EaEntry :=
  match fuel with
  | O => []
  | S f =>
      match parse_entry buffer offset with
      | Some (e, next) => e :: parse_from f buffer next
      | None => []
      end
  end.
(** Every entry advances the offset, so the length of the buffer bounds the
    number of calls. *)
Definition parse_ea_entries (buffer : bytes) : list EaEntry :=
  parse_from (S (length buffer)) buffer 0.

Definition U32 : Z := 2 ^ 32.
Definition pad4 (n : Z) : Z := Z.land (n + 3) (Z.lnot 3).
Definition ea_entry_padded_size (name : string) (value : bytes) : Z :=
  pad4 (8 + lenZ (as_bytes name) + lenZ value).
Definition write_ea_entry (buffer : bytes) (cursor : Z) (name : string) (value : bytes) (flags : Z)
    : result (bytes * Z) EaWriteError :=
  let name_len := lenZ (as_bytes name) in
  if 255 <? name_len then Err NameTooLong
  else if 65535 <? lenZ value then Err ValueTooLong
  else
    let entry_size := 8 + name_len + lenZ value in
    let padded_size := pad4 entry_size in
    let next_offset := (cursor + padded_size) mod U32 in
    if lenZ buffer <? next_offset then Err BufferTooSmall
    else
      let b := copy_from_slice cursor (to_le 4 next_offset) buffer in
      let b := copy_from_slice (cursor + 4) (to_le 1 flags) b in
      let b := copy_from_slice (cursor + 5) (to_le 1 name_len) b in
      let b := copy_from_slice (cursor + 6) (to_le 2 (lenZ value)) b in
      let b := copy_from_slice (cursor + 8) (as_bytes name) b in
      let b := copy_from_slice (cursor + 8 + name_len) value b in
      let b := if entry_size <? padded_size
               then copy_from_slice (cursor + entry_size)
                      (replicate (Z.to_nat (padded_size - entry_size)) Byte.x00) b
               else b in
      Ok (b, next_offset).
Definition write_ea_terminator (buffer : bytes) (cursor : Z) : result (bytes * Z) EaWriteError :=
  if lenZ buffer <? cursor + 4 then Err BufferTooSmall
  else Ok (copy_from_slice cursor (to_le 4 0) buffer, cursor + 4).

(** ** The parser *)

Lemma from_le_slice_nonneg a b l : 0 <= from_le (slice a b l).
Proof. pose proof (from_le_range (slice a b l)). lia. Qed.

Lemma parse_entry_advances buffer offset e next : 0 <= offset ->
  parse_entry buffer offset = Some (e, next) -> offset < next /\ offset + 8 <= lenZ buffer.
Proof.
  intros Ho. unfold parse_entry. pose proof (from_le_slice_nonneg offset (offset + 4) buffer).
  intros H1. case_test_in H1; [done|]. case_test_in H1; [done|]. simplify_eq. bool_props.
  case_test; bool_props; lia.
Qed.

(** The number of calls the buffer allows is enough: more make no difference. *)
Theorem parse_fuel_enough buffer fuel : (S (length buffer) <= fuel)%nat ->
  parse_from fuel buffer 0 = parse_ea_entries buffer.
Proof.
  unfold parse_ea_entries.
  assert (Hg : forall f g offset, 0 <= offset -> lenZ buffer < offset + Z.of_nat f ->
            (f <= g)%nat -> parse_from g buffer offset = parse_from f buffer offset).
  { induction f as [|f IH]; intros g offset Ho Hf Hg.
    - destruct g as [|g]; [done|]. cbn [parse_from].
      destruct (parse_entry buffer offset) as [[e n]|] eqn:E; [|done].
      apply parse_entry_advances in E; lia.
    - destruct g as [|g]; [lia|]. cbn [parse_from].
      destruct (parse_entry buffer offset) as [[e n]|] eqn:E; [|done].
      apply parse_entry_advances in E; [|lia]. f_equal. apply IH; lia. }
  intros Hf. apply Hg; unfold lenZ; lia.
Qed.

(** ** The writer *)

Lemma slice_skip a b (x l : bytes) : lenZ x <= a ->
  slice a b (x ++ l) = slice (a - lenZ x) (b - lenZ x) l.
Proof.
  intros H. unfold slice, takeZ, dropZ, lenZ in *. rewrite drop_app_ge by lia. f_equal; [lia|f_equal; lia].
Qed.

Lemma slice_head a b (x l : bytes) : a = 0 -> b = lenZ x -> slice a b (x ++ l) = x.
Proof. intros -> ->. unfold slice. apply takeZ_app_exact. lia. Qed.

Lemma copy_copy off off' a b l : 0 <= off -> off' = off + lenZ a -> off' <= lenZ l ->
  copy_from_slice off' b (copy_from_slice off a l) = copy_from_slice off (a ++ b) l.
Proof.
  intros Ho -> Hl. unfold copy_from_slice.
  assert (Ht : lenZ (takeZ off l ++ a) = off + lenZ a).
  { pose proof (lenZ_nonneg a). rewrite lenZ_app, lenZ_takeZ by lia. lia. }
  pose proof (lenZ_nonneg a). pose proof (lenZ_nonneg b).
  rewrite !(app_assoc (takeZ off l) a). rewrite takeZ_app_exact by done.
  rewrite <-(dropZ_dropZ (off + lenZ a)) by lia. rewrite dropZ_app_exact by done.
  rewrite dropZ_dropZ by lia. rewrite lenZ_app, !Z.add_assoc, <-!app_assoc. done.
Qed.

(** The bytes of an entry, as the format lays them out. *)
Definition entry_bytes (next : Z) (e : EaEntry) : bytes :=
  to_le 4 next ++ to_le 1 (flags e) ++ to_le 1 (lenZ (as_bytes (name e))) ++
  to_le 2 (lenZ (value e)) ++ as_bytes (name e) ++ value e.
Definition padded (e : EaEntry) : Z := ea_entry_padded_size (name e) (value e).
Definition entry_size (e : EaEntry) : Z := 8 + lenZ (as_bytes (name e)) + lenZ (value e).
Definition padding (e : EaEntry) : bytes := replicate (Z.to_nat (padded e - entry_size e)) Byte.x00.

Lemma pad4_spec n : pad4 n mod 4 = 0 /\ n <= pad4 n < n + 4.
Proof.
  unfold pad4. replace (Z.lnot 3) with (Z.lnot (Z.ones 2)) by done.
  rewrite <-Z.ldiff_land, Z.ldiff_ones_r, Z.shiftl_mul_pow2, Z.shiftr_div_pow2 by lia.
  change (2 ^ 2) with 4. lia.
Qed.

Lemma padded_bounds e : padded e mod 4 = 0 /\ entry_size e <= padded e < entry_size e + 4.
Proof. apply pad4_spec. Qed.

Lemma entry_size_ge e : 8 <= entry_size e.
Proof. unfold entry_size. pose proof (lenZ_nonneg (as_bytes (name e))). pose proof (lenZ_nonneg (value e)). lia. Qed.

Lemma lenZ_entry_bytes next e : lenZ (entry_bytes next e) = entry_size e.
Proof. unfold entry_bytes, entry_size. rewrite !lenZ_app, !lenZ_to_le. lia. Qed.

Lemma lenZ_padding e : lenZ (padding e) = padded e - entry_size e.
Proof. unfold padding, lenZ. rewrite length_replicate. pose proof (padded_bounds e). lia. Qed.

(** What [EaNameLength] and [EaValueLength] can hold, and a byte of flags. *)
Definition fits (e : EaEntry) : Prop :=
  lenZ (as_bytes (name e)) <= 255 /\ lenZ (value e) <= 65535 /\ 0 <= flags e <= 255 /\
  utf8_valid (as_bytes (name e)) = true.

Definition write_entry (buffer : bytes) (cursor : Z) (e : EaEntry) : result (bytes * Z) EaWriteError :=
  write_ea_entry buffer cursor (name e) (value e) (flags e).

Lemma write_entry_ok buffer cursor e : fits e -> 0 <= cursor ->
  cursor + padded e <= lenZ buffer < U32 ->
  write_entry buffer cursor e =
  Ok (copy_from_slice cursor (entry_bytes (cursor + padded e) e ++ padding e) buffer, cursor + padded e).
Proof.
  intros (Hn & Hv & Hf & _) Hc Hb. unfold write_entry, write_ea_entry. fold (entry_size e).
  change (pad4 (entry_size e)) with (padded e). pose proof (padded_bounds e) as [_ Hp].
  pose proof (entry_size_ge e) as Hs. pose proof (lenZ_padding e) as Hpad.
  pose proof (lenZ_nonneg (as_bytes (name e))). pose proof (lenZ_nonneg (value e)).
  rewrite (Z.mod_small (cursor + padded e)) by lia.
  case_test; bool_props; [lia|]. case_test; bool_props; [lia|]. case_test; bool_props; [lia|].
  do 2 f_equal. unfold entry_size in *.
  do 5 (rewrite (copy_copy cursor) by (rewrite ?lenZ_app, ?lenZ_to_le; lia)).
  case_test; bool_props.
  - rewrite (copy_copy cursor) by (rewrite ?lenZ_app, ?lenZ_to_le; lia).
    unfold entry_bytes, padding. by rewrite <-!app_assoc.
  - assert (padding e = []) as -> by (apply lenZ_0_nil; lia).
    rewrite app_nil_r. unfold entry_bytes. by rewrite <-!app_assoc.
Qed.

Lemma from_utf8_as_bytes s : utf8_valid (as_bytes s) = true -> from_utf8 (as_bytes s) = Some s.
Proof.
  intros H. unfold from_utf8. rewrite H. unfold as_bytes.
  by rewrite String.string_of_list_byte_of_string.
Qed.

(** Skip the first [n] fields, then take the next one. *)
Tactic Notation "skip_fields" integer(n) :=
  do n (rewrite slice_skip by (rewrite ?lenZ_to_le; lia)); rewrite slice_head by (rewrite ?lenZ_to_le; lia).

Lemma parse_entry_at pre post next e : fits e -> 0 <= next < U32 ->
  parse_entry (pre ++ entry_bytes next e ++ post) (lenZ pre) =
  Some (e, if next =? 0 then lenZ (pre ++ entry_bytes next e ++ post) + 1 else lenZ pre + next).
Proof.
  intros (Hn & Hv & Hf & Hu) Hx. unfold parse_entry.
  pose proof (lenZ_nonneg (as_bytes (name e))). pose proof (lenZ_nonneg (value e)).
  pose proof (entry_size_ge e). pose proof (lenZ_nonneg post).
  assert (Hl : lenZ (pre ++ entry_bytes next e ++ post) = lenZ pre + (entry_size e + lenZ post))
    by (by rewrite !lenZ_app, lenZ_entry_bytes).
  rewrite Hl. case_test; bool_props; [lia|]. cbv zeta. unfold entry_bytes. rewrite <-!app_assoc.
  replace (slice (lenZ pre + 4) (lenZ pre + 5) _) with (to_le 1 (flags e)) by (by skip_fields 2).
  replace (slice (lenZ pre + 5) (lenZ pre + 6) _) with (to_le 1 (lenZ (as_bytes (name e))))
    by (by skip_fields 3).
  replace (slice (lenZ pre + 6) (lenZ pre + 8) _) with (to_le 2 (lenZ (value e))) by (by skip_fields 4).
  replace (slice (lenZ pre) (lenZ pre + 4) _) with (to_le 4 next) by (by skip_fields 1).
  rewrite !from_to_le_small by (cbn; unfold U32 in *; lia).
  replace (slice (lenZ pre + 8) _ _) with (as_bytes (name e)) by (by skip_fields 5).
  replace (slice (lenZ pre + 8 + _) _ _) with (value e) by (by skip_fields 6).
  case_test; bool_props; [unfold entry_size in *; lia|]. do 2 f_equal.
  rewrite from_utf8_as_bytes by done. by destruct e.
Qed.

(** ** Writing a list of entries *)
Fixpoint write_entries (buffer : bytes) (cursor : Z) (es : list EaEntry) : result (bytes * Z) EaWriteError :=
  match es with
  | [] => Ok (buffer, cursor)
  | e :: es' =>
      match write_entry buffer cursor e with
      | Ok (b, c) => write_entries b c es'
      | Err x => Err x
      end
  end.
(** The entries and the terminator, as the part of the buffer they fill. *)
Definition encode (buffer : bytes) (es : list EaEntry) : result bytes EaWriteError :=
  match write_entries buffer 0 es with
  | Ok (b, c) =>
      match write_ea_terminator b c with Ok (b, c) => Ok (takeZ c b) | Err x => Err x end
  | Err x => Err x
  end.

Fixpoint layout (c : Z) (es : list EaEntry) : bytes :=
  match es with
  | [] => []
  | e :: es' => entry_bytes (c + padded e) e ++ padding e ++ layout (c + padded e) es'
  end.
Definition total_size (es : list EaEntry) : Z := sumZ (map padded es).

Lemma padded_ge e : 8 <= padded e.
Proof. pose proof (padded_bounds e). pose proof (entry_size_ge e). lia. Qed.

Lemma total_size_cons e es : total_size (e :: es) = padded e + total_size es.
Proof. done. Qed.

Lemma total_size_nil : total_size [] = 0.
Proof. done. Qed.

Lemma total_size_nonneg es : 0 <= total_size es.
Proof. unfold total_size. induction es as [|e es IH]; cbn; [lia|]. pose proof (padded_ge e). lia. Qed.

Lemma lenZ_layout c es : lenZ (layout c es) = total_size es.
Proof.
  revert c. induction es as [|e es IH]; intros c; [done|].
  cbn [layout]. rewrite !lenZ_app, lenZ_entry_bytes, lenZ_padding, IH. unfold total_size. cbn. lia.
Qed.

Lemma lenZ_copy off src l : 0 <= off -> off + lenZ src <= lenZ l ->
  lenZ (copy_from_slice off src l) = lenZ l.
Proof.
  intros. unfold copy_from_slice. pose proof (lenZ_nonneg src).
  rewrite !lenZ_app, lenZ_takeZ, lenZ_dropZ by lia. lia.
Qed.

Lemma write_entries_ok es : forall buffer c, Forall fits es -> 0 <= c ->
  c + total_size es <= lenZ buffer < U32 ->
  write_entries buffer c es = Ok (copy_from_slice c (layout c es) buffer, c + total_size es).
Proof.
  induction es as [|e es IH]; intros buffer c Hf Hc Hb.
  - cbn [write_entries layout]. unfold copy_from_slice, total_size. cbn [app map sumZ foldr].
    f_equal. f_equal; [|lia]. change (lenZ (@nil Byte.byte)) with 0.
    by rewrite Z.add_0_r, takeZ_dropZ.
  - apply Forall_cons in Hf as [He Hf]. unfold total_size in *. cbn [map sumZ foldr] in *.
    cbn [write_entries layout]. pose proof (total_size_nonneg es). unfold total_size in *.
    fold (sumZ (map padded es)) in *. pose proof (padded_ge e).
    assert (Hlen : lenZ (entry_bytes (c + padded e) e ++ padding e) = padded e)
      by (rewrite lenZ_app, lenZ_entry_bytes, lenZ_padding; lia).
    rewrite write_entry_ok by (done || lia). rewrite IH by (rewrite ?lenZ_copy; (done || lia)).
    rewrite copy_copy by lia. rewrite <-app_assoc. by rewrite Z.add_assoc.
Qed.

Lemma encode_ok es buffer : Forall fits es -> total_size es + 4 <= lenZ buffer < U32 ->
  encode buffer es = Ok (layout 0 es ++ to_le 4 0).
Proof.
  intros Hf Hb. unfold encode. pose proof (total_size_nonneg es).
  rewrite write_entries_ok by (done || lia).
  unfold write_ea_terminator. rewrite lenZ_copy by (rewrite ?lenZ_layout; lia).
  case_test; bool_props; [lia|]. rewrite copy_copy by (rewrite ?lenZ_layout; lia).
  f_equal. unfold copy_from_slice. rewrite app_assoc. apply takeZ_app_exact.
  rewrite lenZ_app, lenZ_layout, lenZ_to_le. lia.
Qed.

(** ** Reading a list of entries back *)

Lemma parse_cons fuel buffer offset e next : parse_entry buffer offset = Some (e, next) ->
  parse_from (S fuel) buffer offset = e :: parse_from fuel buffer next.
Proof. intros H. cbn [parse_from]. by rewrite H. Qed.

Lemma parse_stop fuel buffer offset : lenZ buffer < offset + 8 -> parse_from fuel buffer offset = [].
Proof.
  intros H. destruct fuel; [done|]. cbn [parse_from]. unfold parse_entry.
  case_test; bool_props; [done|lia].
Qed.

(** The entry at the head of a layout that follows [pre]. *)
Lemma parse_head pre c e es post : fits e -> 0 <= c -> c + padded e < U32 ->
  parse_entry (pre ++ layout c (e :: es) ++ post) (lenZ pre) = Some (e, lenZ pre + (c + padded e)).
Proof.
  intros He Hc Hb. pose proof (padded_ge e). cbn [layout]. rewrite <-!app_assoc.
  rewrite parse_entry_at by (done || lia). case_test; bool_props; [lia|done].
Qed.

Lemma lenZ_encoding es : lenZ (layout 0 es ++ to_le 4 0) = total_size es + 4.
Proof. rewrite lenZ_app, lenZ_layout, lenZ_to_le. lia. Qed.

Lemma parse_two a b es fuel :
  fits a -> fits b -> total_size (a :: b :: es) < U32 ->
  parse_from (S (S fuel)) (layout 0 (a :: b :: es) ++ to_le 4 0) 0 =
  a :: b :: parse_from fuel (layout 0 (a :: b :: es) ++ to_le 4 0) (2 * padded a + padded b).
Proof.
  intros Ha Hb Ht. pose proof (total_size_nonneg es). pose proof (padded_ge a). pose proof (padded_ge b).
  unfold total_size in *. cbn [map sumZ foldr] in *. fold (sumZ (map padded es)) in *.
  assert (Hp : lenZ (entry_bytes (padded a) a ++ padding a) = padded a)
    by (rewrite lenZ_app, lenZ_entry_bytes, lenZ_padding; lia).
  erewrite (parse_cons _ _ 0); [|apply (parse_head [] 0); (done || lia)].
  f_equal. change (lenZ (@nil Byte.byte)) with 0. rewrite !Z.add_0_l.
  erewrite parse_cons.
  2: { change (layout 0 (a :: b :: es)) with
         (entry_bytes (padded a) a ++ padding a ++ layout (padded a) (b :: es)).
       rewrite app_assoc, <-app_assoc. rewrite <-Hp at 3. apply parse_head; (done || lia). }
  rewrite Hp. f_equal. f_equal. lia.
Qed.

Lemma parse_two_stop a b es :
  fits a -> fits b -> total_size (a :: b :: es) < U32 -> total_size es < padded a + 4 ->
  parse_ea_entries (layout 0 (a :: b :: es) ++ to_le 4 0) = [a; b].
Proof.
  intros Ha Hb Ht He. unfold parse_ea_entries. pose proof (lenZ_encoding (a :: b :: es)) as Hn.
  rewrite !total_size_cons in Hn. pose proof (total_size_nonneg es).
  pose proof (padded_ge a). pose proof (padded_ge b).
  destruct (length (layout _ _ ++ _)) as [|n] eqn:En; [unfold lenZ in Hn; lia|].
  rewrite parse_two by done. do 2 f_equal. apply parse_stop. lia.
Qed.

Lemma parse_encoding es : (length es <= 2)%nat -> Forall fits es -> total_size es < U32 ->
  parse_ea_entries (layout 0 es ++ to_le 4 0) = es.
Proof.
  intros Hl Hf Hb.
  destruct es as [|a [|b [|]]]; [done| | |cbn in Hl; lia]; apply Forall_cons in Hf as [Ha Hf];
    pose proof (padded_ge a).
  - unfold parse_ea_entries.
    erewrite parse_cons; [|apply (parse_head [] 0); unfold total_size in *; cbn in *; (done || lia)].
    f_equal. apply parse_stop. rewrite lenZ_encoding, total_size_cons, total_size_nil.
    change (lenZ (@nil Byte.byte)) with 0. lia.
  - apply Forall_cons in Hf as [Hb' _]. apply parse_two_stop; rewrite ?total_size_nil; (done || lia).
Qed.

(** One or two entries written to a buffer are read back from what was written. *)
Theorem ea_roundtrip es buffer : (length es <= 2)%nat -> Forall fits es ->
  total_size es + 4 <= lenZ buffer < U32 ->
  exists written, encode buffer es = Ok written /\ parse_ea_entries written = es.
Proof.
  intros Hl Hf Hb. exists (layout 0 es ++ to_le 4 0).
  split; [by apply encode_ok|apply parse_encoding; (done || lia)].
Qed.

Definition user_a : EaEntry := mk_ea "user.a" (as_bytes "1") 0.
Definition user_b : EaEntry := mk_ea "user.bb" (as_bytes "22") 0.
Lemma ea_roundtrip_witness :
  exists written, encode (replicate 64 Byte.x00) [user_a; user_b] = Ok written /\
    parse_ea_entries written = [user_a; user_b].
Proof.
  apply ea_roundtrip; [by vm_compute; repeat constructor| |by vm_compute].
  repeat constructor; by vm_compute.
Defined.

(** The writer stores the offset of the next entry from the start of the
    buffer, the parser adds it to the start of the entry: a third entry no
    larger than the first is not found again. *)
Theorem third_entry_lost a b c buffer : Forall fits [a; b; c] -> padded c <= padded a ->
  total_size [a; b; c] + 4 <= lenZ buffer < U32 ->
  exists written, encode buffer [a; b; c] = Ok written /\ parse_ea_entries written = [a; b].
Proof.
  intros Hf Hc Hb. exists (layout 0 [a; b; c] ++ to_le 4 0). split; [by apply encode_ok|].
  apply Forall_cons in Hf as [Ha Hf]. apply Forall_cons in Hf as [Hb' _].
  pose proof (padded_ge a). pose proof (padded_ge b). pose proof (padded_ge c).
  apply parse_two_stop; rewrite ?total_size_cons, ?total_size_nil in *; (done || lia).
Qed.

Lemma third_entry_lost_witness :
  exists written, encode (replicate 64 Byte.x00) [user_a; user_b; user_a] = Ok written /\
    parse_ea_entries written = [user_a; user_b].
Proof.
  apply third_entry_lost; [repeat constructor; by vm_compute|by vm_compute|by vm_compute].
Defined.

End Ea.

(** ** Names and the POSIX handlers *)
Module Xattr.
Import Errors.

Definition WELL_KNOWN_XATTRS : list string :=
  ["user.etag"; "user.mime_type"; "user.content-type"; "user.mtime"; "user.content_length";
   "s3.etag"; "s3.content-type"]%string.
Definition is_well_known_xattr (name : string) : bool :=
  existsb (fun w => String.eqb name w) WELL_KNOWN_XATTRS.
Definition is_user_xattr_name (name : string) : bool :=
  match Str.strip_prefix "user." name with
  | Some raw => negb (String.eqb raw EmptyString)
  | None => false
  end.

(** [opendal::Metadata]: the fields the handlers read; [last_modified] as its
    [Display] text. *)
Record Metadata := mk_meta {
  etag : option string;
  content_type : option string;
  last_modified : option string;
  content_length : Z;
  user_metadata : option (gmap string string)
}.
Definition user_map (m : Metadata) : gmap string string := default ∅ (user_metadata m).

(** The operations of [opendal::Operator] the handlers call; [None] and
    [false] are errors. *)
Class Operator (B : Type) := {
  stat : B -> string -> option Metadata;
  read : B -> string -> option bytes;
  write_with : B -> string -> bytes -> gmap string string -> option Z -> B * bool
}.
(** A write that succeeds replaces the object and its user metadata; no write
    touches another object. *)
Class OperatorLaws (B : Type) `{Operator B} := {
  write_stat b p d um c b' : write_with b p d um c = (b', true) ->
    exists m, stat b' p = Some m /\ user_map m = um /\ content_length m = lenZ d;
  write_read b p d um c b' : write_with b p d um c = (b', true) -> read b' p = Some d;
  write_other b p d um c q : q <> p ->
    stat (fst (write_with b p d um c)) q = stat b q /\ read (fst (write_with b p d um c)) q = read b q
}.

Definition QUOTE : ascii := "034"%char.
Definition strip_etag_quotes (s : string) : string :=
  match s with
  | String a s' =>
      if Ascii.eqb a QUOTE
      then match Str.strip_suffix (String QUOTE EmptyString) s' with Some t => t | None => s end
      else s
  | EmptyString => s
  end.

Definition name_le (a b : string) : Prop := String.leb a b = true.
#[export] Instance name_le_dec : RelDecision name_le.
Proof. intros a b. unfold name_le. apply _. Defined.

Definition xattr_names_for (m : Metadata) : list string :=
  merge_sort name_le
    ((match etag m with Some _ => ["user.etag"%string] | None => [] end) ++
     (match content_type m with Some _ => ["user.mime_type"%string] | None => [] end) ++
     (match last_modified m with Some _ => ["user.mtime"%string] | None => [] end) ++
     ["user.content_length"%string] ++
     map (fun kv => ("user." +:+ fst kv)%string) (map_to_list (user_map m))).

Section Handlers.
(** [str::to_lowercase], which for characters outside ASCII uses the Unicode
    tables. *)
Context (to_lowercase : string -> string).
Context {B : Type} `{Operator B} {A : Type}.

Definition normalize_user_meta_key (s : string) : string :=
  Str.replace_char "." "_" (to_lowercase s).
Definition parse_user_xattr_key (name : string) : option string :=
  if is_well_known_xattr name then None
  else match Str.strip_prefix "user." name with
       | None => None
       | Some raw => if String.eqb raw EmptyString then None else Some (normalize_user_meta_key raw)
       end.

Definition opt_value (o : option string) : result bytes io_Error :=
  match o with Some v => Ok (as_bytes v) | None => Err (io_new NotFound) end.
Definition xattr_value_for (m : Metadata) (name : string) : result bytes io_Error :=
  if existsb (String.eqb name) ["user.etag"; "s3.etag"]%string
  then opt_value (strip_etag_quotes <$> etag m)
  else if existsb (String.eqb name) ["user.mime_type"; "user.content-type"; "s3.content-type"]%string
  then opt_value (content_type m)
  else if String.eqb name "user.mtime" then opt_value (last_modified m)
  else if String.eqb name "user.content_length" then Ok (as_bytes (Json.digits (content_length m)))
  else match Str.strip_prefix "user." name with
       | Some raw =>
           match user_metadata m with
           | Some map => opt_value (map !! normalize_user_meta_key raw)
           | None => Err (io_new NotFound)
           end
       | None => Err (io_new NotFound)
       end.

(** The part of [MntrsFs] the handlers use. *)
Record fs := mk_fs {
  table : Inodes.table;
  metadata : bool;
  max_xattr_size : Z;
  buffer_size : Z;
  attr_cache : gmap string A;
  xattr_oversize_warn_count : Z;
  backend : B
}.
Definition set_backend (b : B) (s : fs) : fs :=
  mk_fs (table s) (metadata s) (max_xattr_size s) (buffer_size s) (attr_cache s)
    (xattr_oversize_warn_count s) b.
Definition drop_attrs (p : string) (s : fs) : fs :=
  mk_fs (table s) (metadata s) (max_xattr_size s) (buffer_size s) (delete p (attr_cache s))
    (xattr_oversize_warn_count s) (backend s).
Definition warn_oversize (value : bytes) (s : fs) : fs :=
  if (0 <? max_xattr_size s) && (max_xattr_size s <? lenZ value)
  then mk_fs (table s) (metadata s) (max_xattr_size s) (buffer_size s) (attr_cache s)
         (wrap64 (xattr_oversize_warn_count s + 1)) (backend s)
  else s.
Definition is_dir (e : Inodes.InodeEntry) : bool :=
  match Inodes.kind e with Inodes.Directory => true | _ => false end.

Definition getxattr (s : fs) (ino : Z) (name : string) : result bytes io_Error :=
  if negb (metadata s) then Err (io_new Unsupported)
  else match Inodes.resolve (table s) ino with
       | None => Err (io_new NotFound)
       | Some e =>
           match stat (backend s) (Inodes.path e) with
           | None => Err (io_new OtherKind)
           | Some m => xattr_value_for m name
           end
       end.
Definition listxattr (s : fs) (ino : Z) : result (list string) io_Error :=
  if negb (metadata s) then Ok []
  else match Inodes.resolve (table s) ino with
       | None => Err (io_new NotFound)
       | Some e =>
           if is_dir e then Ok []
           else match stat (backend s) (Inodes.path e) with
                | None => Err (io_new OtherKind)
                | Some m => Ok (xattr_names_for m)
                end
       end.

Definition chunk_of (s : fs) : option Z := if 0 <? buffer_size s then Some (buffer_size s) else None.
(** Steps 3 to 5 of both write handlers: read the object, write it back with
    the new map, drop_attrs the attributes. *)
Definition rewrite_object (s : fs) (p : string) (um : gmap string string) : fs * result unit io_Error :=
  match read (backend s) p with
  | None => (s, Err (io_new OtherKind))
  | Some bytes =>
      let '(b, ok) := write_with (backend s) p bytes um (chunk_of s) in
      if ok then (drop_attrs p (set_backend b s), Ok tt)
      else (set_backend b s, Err (io_new OtherKind))
  end.
Definition setxattr (s : fs) (ino : Z) (name : string) (value : bytes) : fs * result unit io_Error :=
  if negb (metadata s) then (s, Err (io_new Unsupported))
  else
    let s := warn_oversize value s in
    match parse_user_xattr_key name with
    | None => (s, Err (io_new Unsupported))
    | Some key =>
        match from_utf8 value with
        | None => (s, Err (io_new InvalidInput))
        | Some val =>
            match Inodes.resolve (table s) ino with
            | None => (s, Err (io_new NotFound))
            | Some e =>
                if is_dir e then (s, Err (io_new Unsupported))
                else match stat (backend s) (Inodes.path e) with
                     | None => (s, Err (io_new OtherKind))
                     | Some m => rewrite_object s (Inodes.path e) (<[key := val]> (user_map m))
                     end
            end
        end
    end.
Definition removexattr (s : fs) (ino : Z) (name : string) : fs * result unit io_Error :=
  if negb (metadata s) then (s, Err (io_new Unsupported))
  else
    match parse_user_xattr_key name with
    | None => (s, Err (io_new Unsupported))
    | Some key =>
        match Inodes.resolve (table s) ino with
        | None => (s, Err (io_new NotFound))
        | Some e =>
            if is_dir e then (s, Err (io_new Unsupported))
            else match stat (backend s) (Inodes.path e) with
                 | None => (s, Err (io_new OtherKind))
                 | Some m =>
                     if bool_decide (user_map m = ∅) then (s, Err (io_new NotFound))
                     else match user_map m !! key with
                          | None => (s, Err (io_new NotFound))
                          | Some _ => rewrite_object s (Inodes.path e) (delete key (user_map m))
                          end
                 end
        end
    end.
(** A name [getxattr] looks up in the user metadata, and the key it uses. *)
Definition user_key (name : string) : option string :=
  if is_well_known_xattr name then None
  else normalize_user_meta_key <$> Str.strip_prefix "user." name.

Lemma parse_user_key name k : parse_user_xattr_key name = Some k -> user_key name = Some k.
Proof.
  unfold parse_user_xattr_key, user_key. case_test; [done|]. destruct (Str.strip_prefix _ _); [|done].
  case_test; [done|]. by intros [= <-].
Qed.

Lemma not_well_known name : is_well_known_xattr name = false ->
  existsb (String.eqb name) ["user.etag"; "s3.etag"]%string = false /\
  existsb (String.eqb name) ["user.mime_type"; "user.content-type"; "s3.content-type"]%string = false /\
  String.eqb name "user.mtime" = false /\ String.eqb name "user.content_length" = false.
Proof. unfold is_well_known_xattr. cbn. rewrite !orb_false_iff. naive_solver. Qed.

(** The derived names apart, the value is the entry of the user metadata. *)
Lemma value_of_user_key m name k : user_key name = Some k ->
  xattr_value_for m name = opt_value (user_map m !! k).
Proof.
  unfold user_key. case_test; [done|]. destruct (Str.strip_prefix _ _) as [raw|] eqn:E; [|done].
  cbn. intros [= <-]. unfold xattr_value_for.
  destruct (not_well_known name) as (-> & -> & -> & ->); [done|]. rewrite E. unfold user_map.
  destruct (user_metadata m); [done|]. cbn. by rewrite lookup_empty.
Qed.

Context {Laws : OperatorLaws B}.

Lemma rewrite_object_ok s p um s' : rewrite_object s p um = (s', Ok tt) ->
  table s' = table s /\ metadata s' = metadata s /\ attr_cache s' !! p = None /\
  (exists m, stat (backend s') p = Some m /\ user_map m = um) /\
  read (backend s') p = read (backend s) p /\
  (forall q, q <> p -> stat (backend s') q = stat (backend s) q /\
                       read (backend s') q = read (backend s) q).
Proof.
  unfold rewrite_object. intros E. destruct (read (backend s) p) as [d|] eqn:Hr; [|done].
  destruct (write_with _ _ _ _ _) as [b ok] eqn:Hw. destruct ok; [|done]. simplify_eq.
  cbn [table metadata backend attr_cache drop_attrs set_backend].
  destruct (write_stat _ _ _ _ _ _ Hw) as (m & Hm & Hum & _). rewrite lookup_delete_eq.
  split_and!; [done|done|done|by exists m|by eapply write_read|].
  intros q Hq. pose proof (write_other (backend s) p d um (chunk_of s) q Hq) as Ho. by rewrite Hw in Ho.
Qed.

Lemma rewrite_object_err s p um s' e : rewrite_object s p um = (s', Err e) -> kind e = OtherKind.
Proof.
  unfold rewrite_object. intros E. destruct (read (backend s) p); [|by simplify_eq].
  destruct (write_with _ _ _ _ _) as [b []]; by simplify_eq.
Qed.

Lemma warn_oversize_same v s :
  table (warn_oversize v s) = table s /\ metadata (warn_oversize v s) = metadata s /\
  attr_cache (warn_oversize v s) = attr_cache s /\ backend (warn_oversize v s) = backend s.
Proof. unfold warn_oversize. by case_test. Qed.

(** A [setxattr] that succeeds: what it did. *)
Lemma setxattr_inv s ino name v s' : setxattr s ino name v = (s', Ok tt) ->
  exists key val e m, metadata s = true /\ parse_user_xattr_key name = Some key /\
    from_utf8 v = Some val /\ Inodes.resolve (table s) ino = Some e /\ is_dir e = false /\
    stat (backend s) (Inodes.path e) = Some m /\
    rewrite_object (warn_oversize v s) (Inodes.path e) (<[key := val]> (user_map m)) = (s', Ok tt).
Proof.
  unfold setxattr. destruct (warn_oversize_same v s) as (-> & _ & _ & ->). intros E.
  case_test_in E; [done|]. destruct (parse_user_xattr_key name) as [key|]; [|done].
  destruct (from_utf8 v) as [val|]; [|done]. destruct (Inodes.resolve _ _) as [e|]; [|done].
  case_test_in E; [done|]. destruct (stat _ _) as [m|] eqn:Hs; [|done]. apply negb_false_iff in Hc.
  by exists key, val, e, m.
Qed.

Lemma removexattr_inv s ino name s' : removexattr s ino name = (s', Ok tt) ->
  exists key e m, metadata s = true /\ parse_user_xattr_key name = Some key /\
    Inodes.resolve (table s) ino = Some e /\ is_dir e = false /\
    stat (backend s) (Inodes.path e) = Some m /\ is_Some (user_map m !! key) /\
    rewrite_object s (Inodes.path e) (delete key (user_map m)) = (s', Ok tt).
Proof.
  unfold removexattr. intros E. case_test_in E; [done|].
  destruct (parse_user_xattr_key name) as [key|]; [|done].
  destruct (Inodes.resolve _ _) as [e|]; [|done]. case_test_in E; [done|].
  destruct (stat _ _) as [m|] eqn:Hs; [|done]. case_test_in E; [done|]. destruct (user_map m !! key) eqn:Hk; [|done].
  apply negb_false_iff in Hc. exists key, e, m. rewrite Hk. split_and!; by eauto.
Qed.

Lemma getxattr_user s ino name k e m : metadata s = true -> Inodes.resolve (table s) ino = Some e ->
  stat (backend s) (Inodes.path e) = Some m -> user_key name = Some k ->
  getxattr s ino name = opt_value (user_map m !! k).
Proof. intros Hm He Hs Hk. unfold getxattr. rewrite Hm, He, Hs. by apply value_of_user_key. Qed.

(** Set, then get. *)
Theorem setxattr_getxattr s ino name v s' :
  setxattr s ino name v = (s', Ok tt) ->
  getxattr s' ino name = Ok v /\
  (forall name' k, user_key name' = Some k -> parse_user_xattr_key name <> Some k ->
     getxattr s' ino name' = getxattr s ino name') /\
  (forall e, Inodes.resolve (table s) ino = Some e ->
     read (backend s') (Inodes.path e) = read (backend s) (Inodes.path e) /\
     attr_cache s' !! Inodes.path e = None /\
     (forall q, q <> Inodes.path e -> stat (backend s') q = stat (backend s) q /\
                                      read (backend s') q = read (backend s) q)).
Proof.
  intros (key & val & e & m & Hmd & Hk & Hv & He & _ & Hs & Hr)%setxattr_inv.
  destruct (warn_oversize_same v s) as (Ht & Hm & _ & Hb).
  apply rewrite_object_ok in Hr as (Ht' & Hm' & Ha & (m' & Hs' & Hu) & Hd & Ho).
  rewrite Ht in Ht'. rewrite Hm in Hm'. rewrite Hb in *. split_and!.
  - rewrite (getxattr_user s' ino name key e m') by (congruence || by apply parse_user_key).
    rewrite Hu, lookup_insert_eq. apply from_utf8_Some in Hv as [_ ->]. done.
  - intros name' k Hk' Hne. rewrite (getxattr_user s' ino name' k e m') by congruence.
    rewrite (getxattr_user s ino name' k e m) by congruence.
    rewrite Hu, lookup_insert_ne by congruence. done.
  - intros e' He'. simplify_eq. done.
Qed.

(** Remove, then get. *)
Theorem removexattr_getxattr s ino name s' :
  removexattr s ino name = (s', Ok tt) ->
  getxattr s' ino name = Err (io_new NotFound) /\
  (exists v, getxattr s ino name = Ok v) /\
  (forall name' k, user_key name' = Some k -> parse_user_xattr_key name <> Some k ->
     getxattr s' ino name' = getxattr s ino name').
Proof.
  intros (key & e & m & Hmd & Hk & He & _ & Hs & [v Hv] & Hr)%removexattr_inv.
  apply rewrite_object_ok in Hr as (Ht & Hm & _ & (m' & Hs' & Hu) & _). apply parse_user_key in Hk as Hk'.
  split_and!.
  - rewrite (getxattr_user s' ino name key e m') by congruence. by rewrite Hu, lookup_delete_eq.
  - exists (as_bytes v). rewrite (getxattr_user s ino name key e m) by congruence. by rewrite Hv.
  - intros name' k Hkn Hne. rewrite (getxattr_user s' ino name' k e m') by congruence.
    rewrite (getxattr_user s ino name' k e m) by congruence. rewrite Hu, lookup_delete_ne by congruence. done.
Qed.

(** A refused request (not supported, not UTF-8, not found) leaves the backend
    and the attribute cache as they were. *)
Theorem refused_changes_nothing s ino name v s' e :
  setxattr s ino name v = (s', Err e) \/ removexattr s ino name = (s', Err e) ->
  kind e <> OtherKind ->
  backend s' = backend s /\ attr_cache s' = attr_cache s /\ table s' = table s.
Proof.
  assert (Hr : forall s0 p um, rewrite_object s0 p um = (s', Err e) -> kind e <> OtherKind -> False).
  { intros s0 p um E%rewrite_object_err. by intros []. }
  destruct (warn_oversize_same v s) as (Ht & _ & Ha & Hb).
  intros [E|E] Hk; [unfold setxattr in E; rewrite Ht, Hb in E|unfold removexattr in E];
    repeat case_test_in E; repeat case_match; simplify_eq; try done; try (exfalso; by eapply Hr).
Qed.
(** Keys as [setxattr] stores them, away from the derived names. *)
Definition plain_key (k : string) : Prop :=
  normalize_user_meta_key k = k /\ is_well_known_xattr ("user." +:+ k) = false.

Lemma user_key_plain k : plain_key k -> user_key ("user." +:+ k) = Some k.
Proof.
  intros [Hn Hw]. unfold user_key. rewrite Hw.
  change (Some (normalize_user_meta_key k) = Some k). by rewrite Hn.
Qed.

(** Every name [listxattr] reports has a value. *)
Theorem listed_names_resolve m name :
  (forall k, is_Some (user_map m !! k) -> plain_key k) -> name ∈ xattr_names_for m ->
  exists v, xattr_value_for m name = Ok v.
Proof.
  intros Hp. unfold xattr_names_for. rewrite merge_sort_Permutation, !elem_of_app.
  intros [H1|[H1|[H1|[H1|H1]]]].
  - destruct (etag m) eqn:E; [|by apply elem_of_nil in H1]. apply list_elem_of_singleton in H1 as ->.
    unfold xattr_value_for. rewrite E. by eexists.
  - destruct (content_type m) eqn:E; [|by apply elem_of_nil in H1]. apply list_elem_of_singleton in H1 as ->.
    unfold xattr_value_for. rewrite E. by eexists.
  - destruct (last_modified m) eqn:E; [|by apply elem_of_nil in H1]. apply list_elem_of_singleton in H1 as ->.
    unfold xattr_value_for. rewrite E. by eexists.
  - apply list_elem_of_singleton in H1 as ->. by eexists.
  - apply list_elem_of_In, in_map_iff in H1 as ([k v] & <- & Hk).
    apply list_elem_of_In, elem_of_map_to_list in Hk. exists (as_bytes v).
    rewrite (value_of_user_key _ _ k) by (apply user_key_plain, Hp; by eexists). by rewrite Hk.
Qed.

(** ** The FUSE adapter *)
Inductive reply := RSize (n : Z) | RData (d : bytes) | ROk | RError (errno : Z).
Definition ERANGE : Z := 34.
Definition reply_xattr (size : Z) (data : bytes) : reply :=
  if size =? 0 then RSize (lenZ data mod 2 ^ 32)
  else if size <? lenZ data then RError ERANGE
  else RData data.
Definition fuse_getxattr (s : fs) (ino : Z) (name : string) (size : Z) : reply :=
  match getxattr s ino name with
  | Ok data => reply_xattr size data
  | Err e => RError (io_err_to_fuse_errno e)
  end.
Definition flat_names (names : list string) : bytes :=
  foldr (fun n acc => as_bytes n ++ Byte.x00 :: acc) [] names.
Definition fuse_listxattr (s : fs) (ino : Z) (size : Z) : reply :=
  match listxattr s ino with
  | Ok names => reply_xattr size (flat_names names)
  | Err e => RError (io_err_to_fuse_errno e)
  end.
Definition reply_empty (r : result unit io_Error) : reply :=
  match r with Ok _ => ROk | Err e => RError (io_err_to_fuse_errno e) end.
Definition fuse_setxattr (s : fs) (ino : Z) (name : string) (value : bytes) : fs * reply :=
  let '(s', r) := setxattr s ino name value in (s', reply_empty r).
Definition fuse_removexattr (s : fs) (ino : Z) (name : string) : fs * reply :=
  let '(s', r) := removexattr s ino name in (s', reply_empty r).

(** The size a query reports is the size that fetches the data; a smaller one
    is refused. *)
Theorem size_query_protocol s ino name data : getxattr s ino name = Ok data ->
  0 < lenZ data < 2 ^ 32 ->
  exists n, fuse_getxattr s ino name 0 = RSize n /\ fuse_getxattr s ino name n = RData data /\
    (forall size, 0 < size < n -> fuse_getxattr s ino name size = RError ERANGE).
Proof.
  intros Hg Hd. exists (lenZ data). unfold fuse_getxattr. rewrite Hg. unfold reply_xattr.
  rewrite Z.mod_small by lia. split_and!; [done| |intros size Hs]; repeat (case_test; bool_props); (done || lia).
Qed.

(** An attribute that is not there is reported as [ENOENT], "no such file",
    by both [getxattr] and [removexattr]. *)
Theorem missing_xattr_is_enoent s ino name e m k size :
  metadata s = true -> Inodes.resolve (table s) ino = Some e -> is_dir e = false ->
  stat (backend s) (Inodes.path e) = Some m -> parse_user_xattr_key name = Some k ->
  user_map m !! k = None ->
  fuse_getxattr s ino name size = RError ENOENT /\ fuse_removexattr s ino name = (s, RError ENOENT).
Proof.
  intros Hm He Hd Hs Hk Hn. apply parse_user_key in Hk as Hk'. split.
  - unfold fuse_getxattr. rewrite (getxattr_user s ino name k e m) by done. by rewrite Hn.
  - unfold fuse_removexattr, removexattr. rewrite Hm, Hk, He, Hd, Hs, Hn. cbn [negb]. by case_test.
Qed.

(** ** The Windows adapter *)
Import Ea.

(** The loop of [get_extended_attributes]: [Err] carries the status. *)
Fixpoint fill_eas (s : fs) (ino : Z) (names : list string) (buffer : bytes) (cursor : Z)
    : result (bytes * Z) Z :=
  match names with
  | [] => Ok (buffer, cursor)
  | n :: rest =>
      match from_utf8 (as_bytes n) with
      | None => fill_eas s ino rest buffer cursor
      | Some name =>
          match getxattr s ino name with
          | Err e =>
              if bool_decide (kind e = NotFound) then fill_eas s ino rest buffer cursor
              else Err (ea_io_error_to_status e)
          | Ok v =>
              match write_ea_entry buffer cursor name v 0 with
              | Ok (b, c) => fill_eas s ino rest b c
              | Err _ => Ok (buffer, cursor)
              end
          end
      end
  end.
Definition get_extended_attributes (s : fs) (ino : Z) (buffer : bytes) : result (bytes * Z) Z :=
  match listxattr s ino with
  | Err e => Err (ea_io_error_to_status e)
  | Ok names =>
      match fill_eas s ino names buffer 0 with
      | Err st => Err st
      | Ok (b, c) =>
          match write_ea_terminator b c with
          | Ok (b', c') => Ok (b', c')
          | Err _ => Ok (b, c)
          end
      end
  end.

(** [set_extended_attributes]: an empty value deletes; a rejection of one
    entry is skipped, any other error ends the batch. *)
Definition apply_ea (s : fs) (ino : Z) (e : EaEntry) : fs * result unit io_Error :=
  match value e with
  | [] => removexattr s ino (name e)
  | v => setxattr s ino (name e) v
  end.
Definition skippable (e : EaEntry) (err : io_Error) : bool :=
  match kind err with
  | Unsupported => true
  | NotFound => match value e with [] => true | _ => false end
  | _ => false
  end.
Fixpoint apply_eas (s : fs) (ino : Z) (es : list EaEntry) : fs * result unit Z :=
  match es with
  | [] => (s, Ok tt)
  | e :: rest =>
      match apply_ea s ino e with
      | (s', Ok _) => apply_eas s' ino rest
      | (s', Err err) =>
          if skippable e err then apply_eas s' ino rest else (s', Err (ea_io_error_to_status err))
      end
  end.
Definition set_extended_attributes (s : fs) (ino : Z) (buffer : bytes) : fs * result unit Z :=
  apply_eas s ino (parse_ea_entries buffer).
(** An attribute set through a Windows buffer reads back through [getxattr]. *)
Theorem set_ea_getxattr s ino e buffer written s' :
  fits e -> value e <> [] -> padded e + 4 <= lenZ buffer < U32 ->
  encode buffer [e] = Ok written -> setxattr s ino (name e) (value e) = (s', Ok tt) ->
  set_extended_attributes s ino written = (s', Ok tt) /\ getxattr s' ino (name e) = Ok (value e).
Proof.
  intros Hf Hv Hb He Hs. rewrite encode_ok in He by (rewrite ?total_size_cons, ?total_size_nil; auto; lia).
  assert (written = layout 0 [e] ++ to_le 4 0) as -> by congruence. unfold set_extended_attributes.
  rewrite parse_encoding by (rewrite ?total_size_cons, ?total_size_nil; auto; cbn; lia).
  cbn [apply_eas]. unfold apply_ea. split.
  - destruct (value e); [done|]. by rewrite Hs.
  - apply setxattr_inv in Hs as (key & val & en & m & Hmd & Hk & Hu & Hr & _ & Hst & Hw).
    destruct (warn_oversize_same (value e) s) as (Ht & Hm & _ & _).
    apply rewrite_object_ok in Hw as (Ht' & Hm' & _ & (m' & Hs' & Hum) & _).
    rewrite (getxattr_user s' ino (name e) key en m') by (congruence || by apply parse_user_key).
    rewrite Hum, lookup_insert_eq. by apply from_utf8_Some in Hu as [_ ->].
Qed.
End Handlers.

(** ** A backend that keeps objects in a map *)
Import Ea.
Abbreviation store := (gmap string (bytes * Metadata)).
#[export] Instance store_operator : Operator store := {
  stat b p := snd <$> b !! p;
  read b p := fst <$> b !! p;
  write_with b p d um _ :=
    (<[p := (d, mk_meta (Some "e") None (Some "t") (lenZ d) (Some um))]> b, true)
}.
#[export] Instance store_laws : OperatorLaws store.
Proof.
  split.
  - intros b p d um c b' [= <-]. unfold stat. cbn [store_operator]. rewrite lookup_insert_eq. by eexists.
  - intros b p d um c b' [= <-]. unfold read. cbn [store_operator]. by rewrite lookup_insert_eq.
  - intros b p d um c q Hq. unfold stat, read, write_with. cbn [store_operator fst].
    by rewrite lookup_insert_ne.
Qed.

Definition lower_ascii (a : ascii) : ascii :=
  if (65 <=? Z.of_nat (nat_of_ascii a)) && (Z.of_nat (nat_of_ascii a) <=? 90)
  then ascii_of_nat (nat_of_ascii a + 32) else a.
Fixpoint ascii_lower (s : string) : string :=
  match s with
  | EmptyString => EmptyString
  | String a s' => String (lower_ascii a) (ascii_lower s')
  end.

Definition file_table : Inodes.table :=
  fst (Inodes.alloc_ino "f" Inodes.RegularFile 1 Inodes.empty_table).
Definition example : fs (B := store) (A := unit) :=
  mk_fs file_table true 0 0 ∅ 0
    {["f"%string := ([Byte.x61], mk_meta (Some "e") None (Some "t") 1 None)]}.
Definition example_set : fs (B := store) (A := unit) :=
  fst (setxattr ascii_lower example 2 "user.My.Key" (as_bytes "v")).

Lemma setxattr_getxattr_witness :
  getxattr ascii_lower example_set 2 "user.My.Key" = Ok (as_bytes "v").
Proof.
  apply (setxattr_getxattr ascii_lower example 2 "user.My.Key" (as_bytes "v") example_set).
  by vm_compute.
Defined.

Lemma removexattr_getxattr_witness :
  getxattr ascii_lower (fst (removexattr ascii_lower example_set 2 "user.my_key")) 2 "user.my_key"
  = Err (io_new NotFound).
Proof.
  apply (removexattr_getxattr ascii_lower example_set 2 "user.my_key"). by vm_compute.
Defined.

Lemma refused_changes_nothing_witness :
  backend (fst (setxattr ascii_lower example 2 "user.etag" [])) = backend example.
Proof.
  apply (refused_changes_nothing ascii_lower example 2 "user.etag" [] _ (io_new Unsupported)); [|done].
  left. by vm_compute.
Defined.

Lemma listed_names_resolve_witness :
  exists v, xattr_value_for ascii_lower (mk_meta None None None 7 (Some {["k"%string := "v"%string]})) "user.k" = Ok v.
Proof.
  apply listed_names_resolve.
  - intros k [v Hk]. unfold user_map in Hk. cbn in Hk. apply lookup_singleton_Some in Hk as [<- _].
    by vm_compute.
  - by apply (bool_decide_eq_true_1 _); vm_compute.
Defined.

Lemma size_query_protocol_witness :
  exists n, fuse_getxattr ascii_lower example_set 2 "user.my_key" 0 = RSize n /\
    fuse_getxattr ascii_lower example_set 2 "user.my_key" n = RData (as_bytes "v").
Proof.
  destruct (size_query_protocol ascii_lower example_set 2 "user.my_key" (as_bytes "v"))
    as (n & H1 & H2 & _); [by vm_compute|by vm_compute|by exists n].
Defined.

Lemma missing_xattr_is_enoent_witness :
  fuse_getxattr ascii_lower example 2 "user.k" 0 = RError ENOENT.
Proof.
  apply (missing_xattr_is_enoent ascii_lower example 2 "user.k"
           (Inodes.mk_inode "f" Inodes.RegularFile 1 None)
           (mk_meta (Some "e"%string) None (Some "t"%string) 1 None) "k"); by vm_compute.
Defined.

Lemma set_ea_getxattr_witness :
  exists written s', encode (replicate 32 Byte.x00) [user_a] = Ok written /\
    set_extended_attributes ascii_lower example 2 written = (s', Ok tt) /\
    getxattr ascii_lower s' 2 "user.a" = Ok (as_bytes "1").
Proof.
  exists (layout 0 [user_a] ++ to_le 4 0), (fst (setxattr ascii_lower example 2 "user.a" (as_bytes "1"))).
  split; [by vm_compute|].
  apply (set_ea_getxattr ascii_lower example 2 user_a (replicate 32 Byte.x00));
    [by vm_compute|by vm_compute|by vm_compute|by vm_compute|by vm_compute].
Defined.

(** [setxattr] accepts a spelling of a derived name that is not one of the
    well-known ones and stores it under the derived name's key: from then on
    [listxattr] lists that name twice, and the value set is not the value
    read under the listed name. *)
Theorem derived_name_shadows :
  let s' := fst (setxattr ascii_lower example 2 "user.ETag" (as_bytes "x")) in
  listxattr s' 2 = Ok ["user.content_length"; "user.etag"; "user.etag"; "user.mtime"]%string /\
  getxattr ascii_lower s' 2 "user.ETag" = Ok (as_bytes "x") /\
  getxattr ascii_lower s' 2 "user.etag" = Ok (as_bytes "e").
Proof. by vm_compute. Qed.

(** A key the backend reports in another spelling is listed as it is, and
    looked up normalized: the listed name has no value. *)
Theorem listed_name_without_value :
  let m := mk_meta None None None 0 (Some {["a.b"%string := "v"%string]}) in
  xattr_names_for m = ["user.a.b"; "user.content_length"]%string /\
  xattr_value_for ascii_lower m "user.a.b" = Err (io_new NotFound).
Proof. by vm_compute. Qed.

(** The buffer of a file with an etag, a length and a modification time: the
    parser finds two of the three attributes that were written. *)
Theorem ea_listing_loses_mtime :
  match get_extended_attributes ascii_lower example 2 (replicate 256 Byte.x00) with
  | Ok (b, c) => map name (parse_ea_entries (takeZ c b)) = ["user.content_length"; "user.etag"]%string
  | Err _ => False
  end.
Proof. by vm_compute. Qed.

End Xattr.
