(* ===== verification/Csi.v ===== *)
(** The Kubernetes CSI driver (csi/mntrs-csi/src/main.rs): volume identifiers,
    the request helpers, the controller's bookkeeping and the node service's
    stage, publish, unpublish and unstage handlers on the kernel's mount table. *)
From Stdlib Require Import ZArith Lia Strings.Byte Strings.String Strings.Ascii.
From S2P Require Import Prelude Util BlockFormat Utf8.

(** ** Volume identifiers *)
Module VolumeId.
Export Utf8.

Definition COLON : Z := 0x3a.
Definition SLASH : Z := 0x2f.
Definition UNDERSCORE : Z := 0x5f.
Definition encode_char (c : Z) : chars :=
  if c =? COLON then [UNDERSCORE; 0x33; 0x61]
  else if c =? SLASH then [UNDERSCORE; 0x32; 0x66]
  else if c =? UNDERSCORE then [UNDERSCORE; 0x35; 0x66]
  else [c].
Definition encode_volume_id (storage_url : chars) : chars := flat_map encode_char storage_url.

(** [hex.len() == 2] and [u8::from_str_radix(&hex, 16)] on the up to two
    characters taken. *)
Definition ascii_of_char (c : Z) : ascii := ascii_of_nat (Z.to_nat c).
Definition hex_byte (hex : chars) : option Z :=
  match hex with
  | [a; b] =>
      if (a <? 0x80) && (b <? 0x80)
      then Str.from_str_radix 16 (String (ascii_of_char a) (String (ascii_of_char b) EmptyString))
      else None
  | _ => None
  end.
Fixpoint decode_go (fuel : nat) (s : chars) : bytes :=
  match fuel, s with
  | S f, c :: s' =>
      if c =? UNDERSCORE then
        let hex := take 2 s' in
        match hex_byte hex with
        | Some b => byte_of_Z b :: decode_go f (drop 2 s')
        | None => byte_of_Z UNDERSCORE :: utf8 hex ++ decode_go f (drop 2 s')
        end
      else encode_utf8 c ++ decode_go f s'
  | _, _ => []
  end.
Definition decode_bytes (volume_id : chars) : bytes := decode_go (length volume_id) volume_id.
(** [lossy]: [String::from_utf8_lossy]. *)
Definition decode_volume_id (lossy : bytes -> string) (volume_id : chars) : string :=
  let bytes := decode_bytes volume_id in
  match from_utf8 bytes with Some s => s | None => lossy bytes end.

Lemma decode_go_encode s : forall fuel, (length (encode_volume_id s) <= fuel)%nat ->
  decode_go fuel (encode_volume_id s) = utf8 s.
Proof.
  induction s as [|c s IH]; intros fuel Hf; [by destruct fuel|].
  unfold encode_volume_id in *. cbn [flat_map] in *. rewrite length_app in Hf. cbn [utf8 flat_map].
  set (es := flat_map encode_char s) in *. unfold encode_char in *.
  assert (Hesc : forall a b, (3 + length es <= fuel)%nat ->
    forall x, hex_byte [a; b] = Some x -> encode_utf8 c = [byte_of_Z x] ->
    decode_go fuel ([UNDERSCORE; a; b] ++ es) = encode_utf8 c ++ utf8 s).
  { intros a b Hl x Hx Ex. destruct fuel as [|f]; [lia|]. cbn [app decode_go]. rewrite Z.eqb_refl.
    change (take 2 (a :: b :: es)) with [a; b].
    change (drop 2 (a :: b :: es)) with es.
    rewrite Hx, Ex. cbn [app]. f_equal. apply IH. lia. }
  case_test; bool_props; [subst c; by eapply Hesc|].
  case_test; bool_props; [subst c; by eapply Hesc|].
  case_test; bool_props; [subst c; by eapply Hesc|].
  destruct fuel as [|f]; [cbn in Hf; lia|]. cbn [app decode_go].
  case_test; bool_props; [done|]. f_equal. apply IH. cbn in Hf. lia.
Qed.

(** An identifier decodes to the URL it was made from. *)
Theorem volume_id_roundtrip lossy url : Forall scalar url ->
  decode_volume_id lossy (encode_volume_id url) = String.string_of_list_byte (utf8 url).
Proof.
  intros Hs. unfold decode_volume_id, decode_bytes. rewrite decode_go_encode by done.
  unfold from_utf8. by rewrite utf8_is_valid.
Qed.

Lemma volume_id_roundtrip_witness :
  decode_volume_id (fun _ => EmptyString) (encode_volume_id [0x73; 0x33; 0x3a; 0x2f; 0x2f; 0xe9; 0x5f])
  = String.string_of_list_byte (utf8 [0x73; 0x33; 0x3a; 0x2f; 0x2f; 0xe9; 0x5f]).
Proof. apply volume_id_roundtrip. repeat constructor; unfold scalar; lia. Defined.

(** An identifier is one path component: the characters of the escapes are
    never left in it. *)
Lemma volume_id_is_component url : Forall (fun c => c <> SLASH /\ c <> COLON) (encode_volume_id url).
Proof.
  unfold encode_volume_id. induction url as [|c url IH]; [constructor|]. cbn [flat_map].
  apply Forall_app. split; [|done]. unfold encode_char, SLASH, COLON, UNDERSCORE.
  repeat (case_test; bool_props); repeat constructor; lia.
Qed.

End VolumeId.

(** ** Request helpers *)
Module Helpers.
Import VolumeId.

(** A literal of the source, as characters. *)
Fixpoint str (s : string) : chars :=
  match s with EmptyString => [] | String a s' => Z.of_nat (nat_of_ascii a) :: str s' end.

Fixpoint strip_prefix (pre s : chars) : option chars :=
  match pre, s with
  | [], _ => Some s
  | a :: pre', b :: s' => if a =? b then strip_prefix pre' s' else None
  | _, [] => None
  end.
(** [str::replace] for a pattern that is not empty: matches from left to
    right, [skip] characters of the current match still to pass over. *)
Fixpoint replace_go (pat rep : chars) (skip : nat) (s : chars) : chars :=
  match s with
  | [] => []
  | c :: s' =>
      match skip with
      | S k => replace_go pat rep k s'
      | O =>
          match strip_prefix pat s with
          | Some _ => rep ++ replace_go pat rep (pred (length pat)) s'
          | None => c :: replace_go pat rep 0 s'
          end
      end
  end.
Definition replace (pat rep s : chars) : chars := replace_go pat rep 0 s.
Fixpoint trim_start_matches (c : Z) (s : chars) : chars :=
  match s with
  | a :: s' => if a =? c then trim_start_matches c s' else s
  | [] => []
  end.
Definition trim_end_matches (c : Z) (s : chars) : chars := reverse (trim_start_matches c (reverse s)).

Definition PVC_NAMESPACE : chars := str "${.PVC.namespace}".
Definition PVC_NAME : chars := str "${.PVC.name}".
Definition expand_path_pattern (pattern pvc_name pvc_namespace : chars) : chars :=
  replace (PVC_NAMESPACE ++ [SLASH] ++ PVC_NAME) (pvc_namespace ++ [SLASH] ++ pvc_name)
    (replace PVC_NAME pvc_name (replace PVC_NAMESPACE pvc_namespace pattern)).

(** The codes of [tonic::Status] the handlers return. *)
Inductive code := InvalidArgument | AlreadyExists | Internal | DeadlineExceeded.

Abbreviation context := (gmap string chars).
Definition or_else {A} (a b : option A) : option A := match a with Some _ => a | None => b end.
Definition is_reserved (k : string) : bool :=
  existsb (String.eqb k) ["storage"; "storageUrl"; "storage-url"; "readOnly"; "prefix"; "path"]%string.
Definition parse_volume_context (ctx : context) : result (chars * bool * context) code :=
  match or_else (ctx !! "storage"%string)
          (or_else (ctx !! "storageUrl"%string) (ctx !! "storage-url"%string)) with
  | None => Err InvalidArgument
  | Some storage =>
      let read_only := match ctx !! "readOnly"%string with
                       | Some v => bool_decide (v = str "true") | None => false end in
      Ok (storage, read_only, filter (fun kv => is_reserved (fst kv) = false) ctx)
  end.

(** [resolve_socket_path]. *)
Definition DEFAULT_DIR : string := "/run/csi".
Definition join (socket_dir : option string) (file : string) : string :=
  Str.trim_end Str.SLASH (default DEFAULT_DIR socket_dir) +:+ String Str.SLASH file.
Definition resolve_socket_path (endpoint : string) (socket_dir : option string) : string :=
  match or_else (Str.strip_prefix "unix://" endpoint) (Str.strip_prefix "unix:" endpoint) with
  | Some p => if Str.contains_char Str.SLASH p then p else join socket_dir p
  | None => if Str.contains_char Str.SLASH endpoint then endpoint else join socket_dir endpoint
  end.

(** [drain_timeout], in seconds; [env] is the variable's value. *)
Definition drain_timeout (env : option string) : Z :=
  Z.min (default 60 (s ← env; Str.from_str_radix 10 s)) 300.

(** [access_mode_is_read_only], on the numbers of csi.proto. *)
Definition SINGLE_NODE_READER_ONLY : Z := 2.
Definition MULTI_NODE_READER_ONLY : Z := 3.
Definition MULTI_NODE_SINGLE_WRITER : Z := 4.
Definition access_mode_is_read_only (mode : Z) : bool :=
  (mode =? SINGLE_NODE_READER_ONLY) || (mode =? MULTI_NODE_READER_ONLY) ||
  (mode =? MULTI_NODE_SINGLE_WRITER).

(** [node_get_volume_stats]: the [statvfs] fields, u64, into i64. *)
Definition saturating_mul (a b : Z) : Z := Z.min (a * b) U64_MAX.
Definition as_i64 (z : Z) : Z := (z + 2 ^ 63) mod 2 ^ 64 - 2 ^ 63.
Record statvfs := mk_statvfs { f_frsize : Z; f_blocks : Z; f_bfree : Z; f_bavail : Z }.
Record usage := mk_usage { available : Z; total : Z; used : Z }.
Definition node_get_volume_stats (st : option statvfs) : result usage code :=
  match st with
  | None => Err Internal
  | Some st =>
      let block_size := f_frsize st in
      let total := saturating_mul (f_blocks st) block_size in
      let free_bytes := saturating_mul (f_bfree st) block_size in
      Ok (mk_usage (as_i64 (saturating_mul (f_bavail st) block_size)) (as_i64 total)
            (as_i64 (saturating_sub total free_bytes)))
  end.

(** ** Expanding a path pattern *)

Definition DOLLAR : Z := 0x24.
Definition no_dollar (s : chars) : Prop := Forall (fun c => c <> DOLLAR) s.
(** A pattern as a sequence of literals and placeholders. *)
Inductive token := Lit (s : chars) | Namespace | Name.
Definition render (t : token) : chars :=
  match t with Lit s => s | Namespace => PVC_NAMESPACE | Name => PVC_NAME end.
Definition subst_ns (ns : chars) (t : token) : chars :=
  match t with Lit s => s | Namespace => ns | Name => PVC_NAME end.
Definition subst (name ns : chars) (t : token) : chars :=
  match t with Lit s => s | Namespace => ns | Name => name end.
Definition literal_ok (t : token) : Prop := match t with Lit s => no_dollar s | _ => True end.

Lemma replace_literal pat rep l s : no_dollar l ->
  replace (DOLLAR :: pat) rep (l ++ s) = l ++ replace (DOLLAR :: pat) rep s.
Proof.
  unfold replace. induction 1 as [|c l Hc Hl IH]; [done|]. cbn [app replace_go strip_prefix].
  case_test; bool_props; [congruence|]. by rewrite IH.
Qed.

Lemma replace_none pat rep s : no_dollar s -> replace (DOLLAR :: pat) rep s = s.
Proof. intros H. rewrite <-(app_nil_r s) at 1. rewrite replace_literal by done. apply app_nil_r. Qed.

Lemma replace_namespace rep s : replace PVC_NAMESPACE rep (PVC_NAMESPACE ++ s) = rep ++ replace PVC_NAMESPACE rep s.
Proof. done. Qed.

Lemma replace_name rep s : replace PVC_NAME rep (PVC_NAME ++ s) = rep ++ replace PVC_NAME rep s.
Proof. done. Qed.

Lemma replace_namespace_name rep s :
  replace PVC_NAMESPACE rep (PVC_NAME ++ s) = PVC_NAME ++ replace PVC_NAMESPACE rep s.
Proof. done. Qed.

(** A pattern of literals and placeholders expands to the pattern with the
    names in place. *)
Theorem expand_path_pattern_spec toks name ns :
  Forall literal_ok toks -> no_dollar name -> no_dollar ns ->
  expand_path_pattern (flat_map render toks) name ns = flat_map (subst name ns) toks.
Proof.
  intros Ht Hn Hs. unfold expand_path_pattern.
  assert (H1 : replace PVC_NAMESPACE ns (flat_map render toks) = flat_map (subst_ns ns) toks).
  { induction Ht as [|t toks Hok Ht IH]; [done|]. destruct t; cbn [flat_map render subst_ns].
    - unfold PVC_NAMESPACE. cbn [str]. rewrite replace_literal by done. by rewrite <-IH.
    - rewrite replace_namespace. by rewrite IH.
    - rewrite replace_namespace_name. by rewrite IH. }
  assert (H2 : replace PVC_NAME name (flat_map (subst_ns ns) toks) = flat_map (subst name ns) toks).
  { clear H1. induction Ht as [|t toks Hok Ht IH]; [done|]. destruct t; cbn [flat_map subst subst_ns].
    - unfold PVC_NAME. cbn [str]. rewrite replace_literal by done. by rewrite <-IH.
    - unfold PVC_NAME. cbn [str]. rewrite replace_literal by done. by rewrite <-IH.
    - rewrite replace_name. by rewrite IH. }
  rewrite H1, H2. apply replace_none.
  clear H1 H2. induction Ht as [|t toks Hok Ht IH]; [constructor|]. cbn [flat_map].
  apply Forall_app. split; [|done]. by destruct t.
Qed.

Lemma expand_path_pattern_spec_witness :
  expand_path_pattern (str "a/${.PVC.namespace}-${.PVC.name}") (str "data") (str "prod") = str "a/prod-data".
Proof.
  apply (expand_path_pattern_spec [Lit (str "a/"); Namespace; Lit (str "-"); Name] (str "data") (str "prod"));
    repeat constructor; done.
Defined.

Lemma contains_app_r c s t : Str.contains_char c t = true -> Str.contains_char c (s +:+ t) = true.
Proof.
  intros Ht. induction s as [|a s IH]; [by rewrite Str.append_nil_l|].
  rewrite Str.append_cons. cbn [Str.contains_char]. by rewrite IH, orb_true_r.
Qed.

(** Whatever the flags, the socket path names a directory. *)
Theorem socket_path_has_slash endpoint socket_dir :
  Str.contains_char Str.SLASH (resolve_socket_path endpoint socket_dir) = true.
Proof.
  assert (Hj : forall f, Str.contains_char Str.SLASH (join socket_dir f) = true)
    by (intros f; by apply contains_app_r).
  unfold resolve_socket_path. destruct (or_else _ _); by case_test.
Qed.

(** The volume statistics add up while the size fits an i64. *)
Theorem volume_stats_consistent st :
  0 <= f_bfree st <= f_blocks st -> 0 <= f_bavail st <= f_blocks st -> 0 <= f_frsize st ->
  f_blocks st * f_frsize st < 2 ^ 63 ->
  node_get_volume_stats (Some st) =
  Ok (mk_usage (f_bavail st * f_frsize st) (f_blocks st * f_frsize st)
        (f_blocks st * f_frsize st - f_bfree st * f_frsize st)).
Proof.
  intros Hf Ha Hs Hb. unfold node_get_volume_stats.
  assert (Hm : forall x, 0 <= x <= f_blocks st -> 0 <= x * f_frsize st <= f_blocks st * f_frsize st) by nia.
  pose proof (Hm _ Hf). pose proof (Hm _ Ha).
  assert (Hi : forall z, 0 <= z < 2 ^ 63 -> as_i64 z = z)
    by (intros z Hz; unfold as_i64; rewrite Z.mod_small by lia; lia).
  unfold saturating_mul, U64_MAX, saturating_sub. rewrite !Z.min_l, Z.max_l, !Hi by lia. done.
Qed.

Lemma volume_stats_consistent_witness :
  node_get_volume_stats (Some (mk_statvfs 4096 100 40 30)) = Ok (mk_usage 122880 409600 245760).
Proof. apply (volume_stats_consistent (mk_statvfs 4096 100 40 30)); by vm_compute. Defined.

(** A file system of 2^63 bytes or more is reported with a negative size. *)
Theorem volume_stats_negative :
  node_get_volume_stats (Some (mk_statvfs 4096 (2 ^ 51) 0 0)) = Ok (mk_usage 0 (- 2 ^ 63) (- 2 ^ 63)).
Proof. by vm_compute. Qed.

(** The options passed on are the keys of the context that are not the
    driver's own. *)
Theorem parse_volume_context_spec ctx :
  (parse_volume_context ctx = Err InvalidArgument <->
   ctx !! "storage"%string = None /\ ctx !! "storageUrl"%string = None /\
   ctx !! "storage-url"%string = None) /\
  (forall storage ro opts, parse_volume_context ctx = Ok (storage, ro, opts) ->
     forall k, opts !! k = if is_reserved k then None else ctx !! k).
Proof.
  unfold parse_volume_context, or_else. split.
  - split; [|by intros (-> & -> & ->)]. repeat case_match; simplify_eq; naive_solver.
  - intros storage ro opts E k.
    assert (opts = filter (fun kv => is_reserved (fst kv) = false) ctx) as -> by (repeat case_match; by simplify_eq).
    rewrite map_lookup_filter. destruct (ctx !! k); [|by case_test].
    cbn -[is_reserved]. case_guard as Hg; by destruct (is_reserved k).
Qed.

End Helpers.

(** ** The controller service *)
Module Controller.
Import VolumeId Helpers.

Record volume := mk_volume { vol_id : chars; capacity_bytes : Z; volume_context : context }.
Definition create_volume (name : chars) (required_bytes : option Z) (params : context) : volume :=
  let pvc_name := default name (params !! "csi.storage.k8s.io/pvc/name"%string) in
  let pvc_ns := default (str "default") (params !! "csi.storage.k8s.io/pvc/namespace"%string) in
  let storage := default (str "memory://" ++ name)
                   (or_else (params !! "storage"%string) (params !! "storageUrl"%string)) in
  let storage_url :=
    match params !! "pathPattern"%string with
    | Some ((_ :: _) as pattern) =>
        trim_end_matches SLASH storage ++ [SLASH] ++
        trim_start_matches SLASH (expand_path_pattern pattern pvc_name pvc_ns)
    | _ => storage
    end in
  mk_volume (encode_volume_id storage_url) (default 0 required_bytes)
    (<["storage"%string := storage_url]> params).

(** [CONTROLLER_PUBLISHES]. *)
Abbreviation publishes := (gmap chars (list chars)).
Definition controller_publish_volume (vol node : chars) (m : publishes) : publishes :=
  <[vol := default [] (m !! vol) ++ [node]]> m.
Definition controller_unpublish_volume (vol node : chars) (m : publishes) : publishes :=
  match m !! vol with
  | Some nodes => <[vol := List.filter (fun n => negb (bool_decide (n = node))) nodes]> m
  | None => m
  end.

(** What the node service reads from a created volume is what the identifier
    names. *)
Theorem created_volume_context name cap params :
  let v := create_volume name cap params in
  exists url ro opts, parse_volume_context (volume_context v) = Ok (url, ro, opts) /\
    vol_id v = encode_volume_id url.
Proof. cbv zeta. unfold create_volume, parse_volume_context. cbn [volume_context vol_id].
  rewrite lookup_insert_eq. cbn [or_else]. by do 3 eexists.
Qed.

(** Publishes and unpublishes, the latest first, as kubelet retries them. *)
Inductive event := Publish (vol node : chars) | Unpublish (vol node : chars).
Definition on_event (m : publishes) (e : event) : publishes :=
  match e with
  | Publish v n => controller_publish_volume v n m
  | Unpublish v n => controller_unpublish_volume v n m
  end.
Fixpoint published (v n : chars) (es : list event) : bool :=
  match es with
  | [] => false
  | Publish v' n' :: rest => if bool_decide (v' = v /\ n' = n) then true else published v n rest
  | Unpublish v' n' :: rest => if bool_decide (v' = v /\ n' = n) then false else published v n rest
  end.

Lemma in_after_publish v n v' n' m :
  n ∈ default [] (controller_publish_volume v' n' m !! v) <->
  n ∈ default [] (m !! v) \/ (v' = v /\ n' = n).
Proof.
  unfold controller_publish_volume. destruct (decide (v' = v)) as [->|Hv].
  - rewrite lookup_insert_eq. cbn. rewrite elem_of_app, list_elem_of_singleton. naive_solver.
  - rewrite lookup_insert_ne by done. naive_solver.
Qed.

Lemma in_after_unpublish v n v' n' m :
  n ∈ default [] (controller_unpublish_volume v' n' m !! v) <->
  n ∈ default [] (m !! v) /\ ~ (v' = v /\ n' = n).
Proof.
  unfold controller_unpublish_volume. destruct (m !! v') as [nodes|] eqn:E.
  - destruct (decide (v' = v)) as [->|Hv].
    + rewrite lookup_insert_eq, E. cbn. rewrite !list_elem_of_In, filter_In, negb_true_iff, bool_decide_eq_false.
      naive_solver.
    + rewrite lookup_insert_ne by done. naive_solver.
  - split; [|naive_solver]. intros H. split; [done|]. intros [-> ->]. rewrite E in H. by apply elem_of_nil in H.
Qed.

(** A node is recorded for a volume iff its last request was a publish. *)
Theorem publishes_track_last es v n :
  n ∈ default [] (foldr (fun e m => on_event m e) (∅ : publishes) es !! v) <-> published v n es = true.
Proof.
  induction es as [|e es IH]; cbn [foldr published].
  - rewrite lookup_empty. cbn. split; [by intros H%elem_of_nil|done].
  - destruct e as [v' n'|v' n']; cbn [on_event].
    + rewrite in_after_publish, IH. case_bool_decide; naive_solver.
    + rewrite in_after_unpublish, IH. case_bool_decide; naive_solver.
Qed.

End Controller.

(** ** The node service *)
Module Node.
Import VolumeId Helpers.

Record MountState := mk_mount { mountpoint : string; read_only : bool }.
(** A mount of the kernel's table: the storage it shows, and its ro flag. *)
Record kmount := mk_kmount { k_url : chars; k_ro : bool }.
(** The driver's map, the mount table, the objects of each storage, and the
    cache directories with the number of dirty buffers in each. *)
Record node := mk_node {
  mounts : gmap chars MountState;
  kernel : gmap string kmount;
  objects : gmap chars (gset string);
  caches : gmap chars Z
}.
Definition set_mounts m (s : node) := mk_node m (kernel s) (objects s) (caches s).
Definition set_kernel k (s : node) := mk_node (mounts s) k (objects s) (caches s).
Definition set_objects o (s : node) := mk_node (mounts s) (kernel s) o (caches s).
Definition set_caches c (s : node) := mk_node (mounts s) (kernel s) (objects s) c.

(** [is_mount_point] of the mount command, on canonical paths. *)
Definition is_mountpoint (p : string) (s : node) : bool :=
  match kernel s !! p with Some _ => true | None => false end.

(** A command that could not be started, or ended with a status. *)
Inductive cmd := SpawnError | Exit (success : bool).
Definition succeeds (c : cmd) : bool := match c with Exit true => true | _ => false end.

Definition umount (c : cmd) (p : string) (s : node) : node :=
  if succeeds c then set_kernel (delete p (kernel s)) s else s.
(** [remove_dir_all] follows a mount: it deletes the files the mount shows,
    unless it is read-only. *)
Definition remove_dir_all (p : string) (s : node) : node :=
  match kernel s !! p with
  | Some m => if k_ro m then s else set_objects (<[k_url m := ∅]> (objects s)) s
  | None => s
  end.

Record publish_env := mk_penv {
  create_dir_ok : bool; bind_cmd : cmd; remount_cmd : cmd; teardown_cmd : cmd }.
Definition node_publish_volume (env : publish_env) (volume_id : chars)
    (target staging : string) (capability : option (option Z)) (s : node) : node * result unit code :=
  if bool_decide (volume_id = []) then (s, Err InvalidArgument)
  else if String.eqb target EmptyString then (s, Err InvalidArgument)
  else if String.eqb staging EmptyString then (s, Err InvalidArgument)
  else match capability with
  | None => (s, Err InvalidArgument)
  | Some access_mode =>
      if is_mountpoint target s
      then (set_mounts (<[volume_id := mk_mount target false]> (mounts s)) s, Ok tt)
      else match mounts s !! volume_id with
      | Some prev =>
          if negb (String.eqb (mountpoint prev) target) then (s, Err AlreadyExists) else (s, Ok tt)
      | None =>
          match kernel s !! staging with
          | None => (s, Err Internal)
          | Some src =>
              if negb (create_dir_ok env) then (s, Err Internal)
              else if negb (succeeds (bind_cmd env)) then (s, Err Internal)
              else
                let s := set_kernel (<[target := mk_kmount (k_url src) (k_ro src)]> (kernel s)) s in
                let ro := match access_mode with Some m => access_mode_is_read_only m | None => false end in
                let record s := set_mounts (<[volume_id := mk_mount target ro]> (mounts s)) s in
                if ro then
                  match remount_cmd env with
                  | SpawnError => (s, Err Internal)
                  | Exit false => (remove_dir_all target (umount (teardown_cmd env) target s), Err Internal)
                  | Exit true =>
                      (record (set_kernel (<[target := mk_kmount (k_url src) true]> (kernel s)) s), Ok tt)
                  end
                else (record s, Ok tt)
          end
      end
  end.

(** [umount], then [umount -l] when it ran and failed. *)
Definition unmount_target (first lazy : cmd) (target : string) (s : node) : node :=
  match first with
  | SpawnError => s
  | Exit true => umount first target s
  | Exit false => umount lazy target s
  end.
Definition node_unpublish_volume (first lazy : cmd) (volume_id : chars) (target : string) (s : node)
    : node * result unit code :=
  if bool_decide (volume_id = []) then (s, Err InvalidArgument)
  else if String.eqb target EmptyString then (s, Err InvalidArgument)
  else
    let s := remove_dir_all target (unmount_target first lazy target s) in
    (set_mounts (delete volume_id (mounts s)) s, Ok tt).

(** One turn of the wait for the mount thread: what its channel holds, whether
    the mount point is there, whether the deadline has passed. *)
Inductive msg := Empty | MountReturned | MountFailed | Disconnected.
Record poll := mk_poll { p_msg : msg; p_mounted : bool; p_late : bool }.
Fixpoint wait_for_mount (polls : list poll) : option (result unit code) :=
  match polls with
  | [] => None
  | p :: rest =>
      match p_msg p with
      | MountFailed | Disconnected => Some (Err Internal)
      | _ =>
          if p_mounted p then Some (Ok tt)
          else if p_late p then Some (Err DeadlineExceeded)
          else wait_for_mount rest
      end
  end.
Definition vol_cache (cache_base id : chars) : chars := cache_base ++ [SLASH] ++ id.
Definition stage_opts (cache_base : option chars) (url : chars) (opts : context) : context :=
  match cache_base with
  | Some base => <["cache-dir"%string := vol_cache base (encode_volume_id url)]> opts
  | None => opts
  end.
(** The mount the thread makes: the mount point, and the cache directory. *)
Definition mount_internal (url : chars) (staging : string) (opts : context) (ro : bool) (s : node) : node :=
  let s := set_kernel (<[staging := mk_kmount url ro]> (kernel s)) s in
  match opts !! "cache-dir"%string with
  | Some d => set_caches (<[d := default 0 (caches s !! d)]> (caches s)) s
  | None => s
  end.
(** [None]: still waiting. A mount that comes up after an error was returned
    is not in the result. *)
Definition node_stage_volume (cache_base : option chars) (polls : list poll) (volume_id : chars)
    (staging : string) (ctx : context) (s : node) : option (node * result unit code) :=
  if bool_decide (volume_id = []) then Some (s, Err InvalidArgument)
  else if String.eqb staging EmptyString then Some (s, Err InvalidArgument)
  else if is_mountpoint staging s then Some (s, Ok tt)
  else match parse_volume_context ctx with
  | Err c => Some (s, Err c)
  | Ok (url, ro, opts) =>
      match wait_for_mount polls with
      | None => None
      | Some (Err c) => Some (s, Err c)
      | Some (Ok _) => Some (mount_internal url staging (stage_opts cache_base url opts) ro s, Ok tt)
      end
  end.

(** [drain_writebacks]: the pending count and the deadline at each turn; the
    count it returns with. *)
Fixpoint drain_writebacks (polls : list (Z * bool)) : option Z :=
  match polls with
  | [] => None
  | (pending, late) :: rest =>
      if pending =? 0 then Some 0
      else if late then Some pending
      else drain_writebacks rest
  end.
(** [remove_dir_all] of a cache directory: it and what is below it. *)
Definition is_below (dir p : chars) : bool :=
  bool_decide (p = dir) ||
  match strip_prefix (trim_end_matches SLASH dir ++ [SLASH]) p with Some _ => true | None => false end.
Definition remove_cache (dir : chars) (c : gmap chars Z) : gmap chars Z :=
  filter (fun kv => is_below dir (fst kv) = false) c.
Definition node_unstage_volume (cache_base : option chars) (timeout : Z) (polls : list (Z * bool))
    (unmount_ok : bool) (volume_id : chars) (staging : string) (s : node)
    : option (node * result unit code) :=
  if String.eqb staging EmptyString then Some (s, Err InvalidArgument)
  else
    let clean s := match cache_base with
                   | Some base => set_caches (remove_cache (vol_cache base volume_id) (caches s)) s
                   | None => s
                   end in
    if is_mountpoint staging s then
      match (if timeout =? 0 then Some 0 else drain_writebacks polls) with
      | None => None
      | Some _ =>
          if unmount_ok then Some (clean (set_kernel (delete staging (kernel s)) s), Ok tt)
          else Some (s, Err Internal)
      end
    else Some (clean s, Ok tt).

(** ** Publishing *)

Definition wants_ro (access_mode : option Z) : bool :=
  match access_mode with Some m => access_mode_is_read_only m | None => false end.

(** The three ways a publish succeeds. *)
Lemma publish_ok_cases env vol target staging cap s s' :
  node_publish_volume env vol target staging cap s = (s', Ok tt) ->
  (is_mountpoint target s = true /\ kernel s' = kernel s /\
   mounts s' = <[vol := mk_mount target false]> (mounts s)) \/
  (is_mountpoint target s = false /\ s' = s /\
   exists ro, mounts s !! vol = Some (mk_mount target ro)) \/
  (is_mountpoint target s = false /\ mounts s !! vol = None /\
   exists src mode, cap = Some mode /\ kernel s !! staging = Some src /\
     kernel s' = <[target := mk_kmount (k_url src) (wants_ro mode || k_ro src)]> (kernel s) /\
     mounts s' = <[vol := mk_mount target (wants_ro mode)]> (mounts s)).
Proof.
  unfold node_publish_volume. intros E. do 3 (case_test_in E; [done|]). destruct cap as [mode|]; [|done].
  case_test_in E; [simplify_eq; by left|]. right.
  destruct (mounts s !! vol) as [prev|]; [|right].
  - left. destruct (String.eqb (mountpoint prev) target) eqn:Et; [|done]. cbn in E. simplify_eq.
    apply String.eqb_eq in Et. subst. split_and!; [done|done|]. exists (read_only prev). by destruct prev.
  - destruct (kernel s !! staging) as [src|] eqn:Es; [|done]. do 2 (case_test_in E; [done|]).
    fold (wants_ro mode) in E. split_and!; [done|done|]. exists src, mode. split_and!; [done|done| |].
    + destruct (wants_ro mode); [destruct (remount_cmd env) as [|[]]|]; simplify_eq; [|done].
      cbn. by rewrite insert_insert_eq.
    + destruct (wants_ro mode); [destruct (remount_cmd env) as [|[]]|]; by simplify_eq.
Qed.

(** A publish that succeeds leaves the target mounted, except when the driver
    already had the volume at this target; when the target was not mounted
    before, a read-only request leaves a read-only mount of the staged volume. *)
Theorem publish_mounts env vol target staging cap s s' :
  node_publish_volume env vol target staging cap s = (s', Ok tt) ->
  (is_mountpoint target s' = true \/ exists ro, mounts s !! vol = Some (mk_mount target ro)) /\
  (forall mode, is_mountpoint target s = false -> mounts s !! vol = None -> cap = Some (Some mode) ->
     access_mode_is_read_only mode = true ->
     exists src, kernel s !! staging = Some src /\ kernel s' !! target = Some (mk_kmount (k_url src) true)).
Proof.
  intros [(H1 & H2 & H3)|[(H1 & -> & ro & H2)|(H1 & H2 & src & mode & -> & H3 & H4 & H5)]]%publish_ok_cases.
  - split; [left; unfold is_mountpoint in *; by rewrite H2|congruence].
  - split; [right; by exists ro|congruence].
  - unfold is_mountpoint. rewrite H4, lookup_insert_eq. split; [by left|].
    intros mode' _ _ [= ->] Hro. exists src. split; [done|]. cbn [wants_ro]. by rewrite Hro.
Qed.

(** A volume is at one target at a time: another target is refused. *)
Theorem publish_other_target_refused env vol target staging mode s prev :
  vol <> [] -> target <> EmptyString -> staging <> EmptyString ->
  is_mountpoint target s = false -> mounts s !! vol = Some prev -> mountpoint prev <> target ->
  node_publish_volume env vol target staging (Some mode) s = (s, Err AlreadyExists).
Proof.
  intros Hv Ht Hs Hm Hp Hne. unfold node_publish_volume. rewrite bool_decide_eq_false_2 by done.
  apply String.eqb_neq in Ht, Hs, Hne. by rewrite Ht, Hs, Hm, Hp, Hne.
Qed.

(** ** Unpublishing *)

(** When the unmount worked, the files of the volume are untouched and the
    target is free again. *)
Theorem unpublish_keeps_objects first lazy vol target s :
  succeeds first = true \/ (first = Exit false /\ succeeds lazy = true) ->
  vol <> [] -> target <> EmptyString ->
  exists s', node_unpublish_volume first lazy vol target s = (s', Ok tt) /\
    objects s' = objects s /\ is_mountpoint target s' = false /\ mounts s' !! vol = None.
Proof.
  intros Hc Hv Ht. unfold node_unpublish_volume. rewrite bool_decide_eq_false_2 by done.
  apply String.eqb_neq in Ht. rewrite Ht. eexists. split; [reflexivity|].
  assert (Hu : unmount_target first lazy target s = set_kernel (delete target (kernel s)) s).
  { destruct Hc as [Hc|[-> Hc]]; [destruct first as [|[]]; try done|]; cbn; unfold umount; by rewrite Hc. }
  rewrite Hu. unfold remove_dir_all. cbn [kernel set_kernel]. rewrite lookup_delete_eq.
  unfold is_mountpoint. cbn. by rewrite !lookup_delete_eq.
Qed.

(** When the unmount did not work, the removal of the target directory goes
    through the mount: every object of the volume is deleted, and the request
    succeeds. *)
Theorem unpublish_deletes_objects first lazy vol target s m :
  succeeds first = false -> (first = SpawnError \/ succeeds lazy = false) ->
  vol <> [] -> target <> EmptyString -> kernel s !! target = Some m -> k_ro m = false ->
  exists s', node_unpublish_volume first lazy vol target s = (s', Ok tt) /\
    objects s' !! k_url m = Some ∅.
Proof.
  intros Hf Hl Hv Ht Hk Hro. unfold node_unpublish_volume. rewrite bool_decide_eq_false_2 by done.
  apply String.eqb_neq in Ht. rewrite Ht. eexists. split; [reflexivity|].
  assert (unmount_target first lazy target s = s) as ->.
  { destruct first as [|[]]; [done|done|]. destruct Hl as [|Hl]; [done|]. cbn. unfold umount. by rewrite Hl. }
  unfold remove_dir_all. rewrite Hk, Hro. cbn. by rewrite lookup_insert_eq.
Qed.

(** ** Staging and unstaging *)

(** Staging succeeds only once the mount point was seen, and the wait ends at
    the latest when the deadline has passed. *)
Theorem wait_for_mount_sound polls :
  (wait_for_mount polls = Some (Ok tt) -> exists p, p ∈ polls /\ p_mounted p = true) /\
  (forall p, p ∈ polls -> p_late p = true -> is_Some (wait_for_mount polls)).
Proof.
  induction polls as [|p rest [IH1 IH2]]; [split; [done|by intros p H%elem_of_nil]|].
  assert (Hr : wait_for_mount rest = Some (Ok tt) -> exists q, q ∈ p :: rest /\ p_mounted q = true).
  { intros H. destruct (IH1 H) as (q & Hq & Hm). exists q. split; [by right|done]. }
  split; cbn [wait_for_mount].
  - destruct (p_msg p); try done; (case_test; [intros _; exists p; split; [left|]; done|]); by case_test.
  - intros q [->|Hq]%elem_of_cons Hl; destruct (p_msg _); try by eexists; cbn.
    all: case_test; [by eexists|]. 1, 2: by rewrite Hl. all: case_test; [by eexists|]; by eapply IH2.
Qed.

Lemma strip_prefix_app p s : strip_prefix p (p ++ s) = Some s.
Proof. induction p as [|a p IH]; [done|]. cbn. by rewrite Z.eqb_refl. Qed.

Lemma strip_prefix_Some p s r : strip_prefix p s = Some r -> s = p ++ r.
Proof.
  revert s. induction p as [|a p IH]; intros s; [by intros [= ->]|]. destruct s as [|b s]; [done|]. cbn.
  case_test; [|done]. bool_props. subst. intros H. by rewrite (IH _ H).
Qed.

Lemma remove_cache_lookup dir c d :
  remove_cache dir c !! d = if is_below dir d then None else c !! d.
Proof.
  unfold remove_cache. rewrite map_lookup_filter. destruct (c !! d); [|by case_test].
  cbn -[is_below]. case_guard as Hg; by destruct (is_below dir d).
Qed.

Lemma trim_end_component base id : id <> [] -> Forall (fun c => c <> SLASH) id ->
  trim_end_matches SLASH (vol_cache base id) = vol_cache base id.
Proof.
  intros Hne Hf. unfold trim_end_matches.
  assert (trim_start_matches SLASH (reverse (vol_cache base id)) = reverse (vol_cache base id)) as ->;
    [|apply reverse_involutive].
  apply Forall_reverse in Hf. unfold vol_cache. rewrite !reverse_app.
  destruct (reverse id) as [|c r] eqn:E.
  - apply (f_equal reverse) in E. rewrite reverse_involutive in E. done.
  - apply Forall_cons in Hf as [Hc _]. cbn [app trim_start_matches]. case_test; bool_props; done.
Qed.

(** The cache directories of two volumes are apart. *)
Lemma volume_caches_apart base id id' : id <> [] -> Forall (fun c => c <> SLASH) id ->
  Forall (fun c => c <> SLASH) id' -> id' <> id ->
  is_below (vol_cache base id) (vol_cache base id') = false.
Proof.
  intros Hne Hf Hf' Hd. unfold is_below. apply orb_false_iff. split.
  - apply bool_decide_eq_false. unfold vol_cache. intros E%app_inv_head. by simplify_eq.
  - rewrite trim_end_component by done. destruct (strip_prefix _ _) as [r|] eqn:E; [|done].
    apply strip_prefix_Some in E. unfold vol_cache in E. rewrite <-!app_assoc in E.
    apply app_inv_head in E. cbn in E. simplify_eq. apply Forall_app in Hf' as [_ Hf'].
    by apply Forall_cons in Hf' as [? _].
Qed.

Lemma encoded_no_slash url : Forall (fun c => c <> SLASH) (encode_volume_id url).
Proof. eapply Forall_impl; [apply volume_id_is_component|]. by intros c []. Qed.

(** A volume made by [create_volume] that was staged and is unstaged: its
    cache directory is removed, and no other volume's is touched. *)
Theorem unstage_cleans_own_cache base name cap params staging url ro opts timeout polls ok s s' :
  let v := Controller.create_volume name cap params in
  Controller.vol_id v <> [] ->
  parse_volume_context (Controller.volume_context v) = Ok (url, ro, opts) ->
  node_unstage_volume (Some base) timeout polls ok (Controller.vol_id v) staging s = Some (s', Ok tt) ->
  exists dir, stage_opts (Some base) url opts !! "cache-dir"%string = Some dir /\
    caches s' !! dir = None /\
    (forall url', encode_volume_id url' <> Controller.vol_id v ->
       caches s' !! vol_cache base (encode_volume_id url') = caches s !! vol_cache base (encode_volume_id url')).
Proof.
  intros v Hne Hp E.
  assert (Hid : Controller.vol_id v = encode_volume_id url).
  { unfold v, Controller.create_volume, parse_volume_context in *. cbn in Hp |- *.
    rewrite lookup_insert_eq in Hp. cbn in Hp. by simplify_eq. }
  exists (vol_cache base (encode_volume_id url)). unfold stage_opts. rewrite lookup_insert_eq.
  assert (Hc : caches s' = remove_cache (vol_cache base (Controller.vol_id v)) (caches s)).
  { unfold node_unstage_volume in E. repeat case_test_in E; repeat case_match; by simplify_eq. }
  rewrite Hc, Hid in *. split_and!; [done| |].
  - rewrite remove_cache_lookup. unfold is_below. by rewrite bool_decide_eq_true_2.
  - intros url' Hu. rewrite remove_cache_lookup.
    rewrite volume_caches_apart by (done || apply encoded_no_slash). done.
Qed.

(** An unstage whose drain ran out of time still removes the cache directory,
    with the dirty buffers that were not uploaded. *)
Theorem unstage_discards_dirty base timeout vol staging s n :
  timeout <> 0 -> staging <> EmptyString -> is_mountpoint staging s = true -> 0 < n ->
  caches s !! vol_cache base vol = Some n ->
  exists s', node_unstage_volume (Some base) timeout [(n, true)] true vol staging s = Some (s', Ok tt) /\
    caches s' !! vol_cache base vol = None.
Proof.
  intros Ht Hs Hm Hn Hc. unfold node_unstage_volume. apply String.eqb_neq in Hs. rewrite Hs, Hm.
  apply Z.eqb_neq in Ht. rewrite Ht. cbn [drain_writebacks].
  assert ((n =? 0) = false) as -> by lia. eexists. split; [reflexivity|]. cbn.
  rewrite remove_cache_lookup. unfold is_below. by rewrite bool_decide_eq_true_2.
Qed.

(** ** A node with one staged volume *)
Definition url : chars := str "s3://b".
Definition other : chars := str "s3://c".
Definition staged : node :=
  mk_node ∅ {["/stage"%string := mk_kmount url false]} {[url := {["o"%string]}]}
    (<[vol_cache (str "/c") (encode_volume_id url) := 2]>
     {[vol_cache (str "/c") (encode_volume_id other) := 1]}).
Definition all_ok : publish_env := mk_penv true (Exit true) (Exit true) (Exit true).
Definition vid : chars := encode_volume_id url.
Definition published_node : node := fst (node_publish_volume all_ok vid "/t" "/stage" (Some (Some 1)) staged).

Lemma publish_mounts_witness :
  exists src, kernel staged !! "/stage"%string = Some src /\
    kernel (fst (node_publish_volume all_ok vid "/t" "/stage" (Some (Some 3)) staged)) !! "/t"%string
    = Some (mk_kmount (k_url src) true).
Proof.
  apply (publish_mounts all_ok vid "/t" "/stage" (Some (Some 3)) staged _) with (mode := 3); by vm_compute.
Defined.

Lemma publish_other_target_refused_witness :
  node_publish_volume all_ok vid "/u" "/stage" (Some None) published_node = (published_node, Err AlreadyExists).
Proof.
  apply (publish_other_target_refused all_ok vid "/u" "/stage" None published_node (mk_mount "/t" false));
    by vm_compute.
Defined.

Lemma unpublish_keeps_objects_witness :
  exists s', node_unpublish_volume (Exit false) (Exit true) vid "/t" published_node = (s', Ok tt) /\
    objects s' = objects published_node.
Proof.
  destruct (unpublish_keeps_objects (Exit false) (Exit true) vid "/t" published_node) as (s' & H1 & H2 & _);
    [by right|by vm_compute|done|by exists s'].
Defined.

Lemma unpublish_deletes_objects_witness :
  exists s', node_unpublish_volume (Exit false) (Exit false) vid "/t" published_node = (s', Ok tt) /\
    objects s' !! url = Some ∅.
Proof.
  apply (unpublish_deletes_objects (Exit false) (Exit false) vid "/t" published_node (mk_kmount url false));
    [done|by right|by vm_compute|done|by vm_compute|done].
Defined.

Lemma unstage_cleans_own_cache_witness :
  exists dir, stage_opts (Some (str "/c")) url ∅ !! "cache-dir"%string = Some dir.
Proof.
  destruct (unstage_cleans_own_cache (str "/c") (str "n") None {["storage"%string := url]} "/stage" url false ∅
              60 [(0, false)] true staged
              (mk_node ∅ ∅ (objects staged) {[vol_cache (str "/c") (encode_volume_id other) := 1]}))
    as (dir & H1 & _); [by vm_compute|by vm_compute|by vm_compute|by exists dir].
Defined.

Lemma unstage_discards_dirty_witness :
  exists s', node_unstage_volume (Some (str "/c")) 60 [(2, true)] true vid "/stage" staged = Some (s', Ok tt) /\
    caches s' !! vol_cache (str "/c") vid = None.
Proof. apply unstage_discards_dirty; by vm_compute. Defined.

(** A read-only request whose remount command cannot be started leaves the
    writable bind mount behind; the retry finds the target mounted and
    succeeds, writable. *)
Theorem ro_request_published_rw :
  let env := mk_penv true (Exit true) SpawnError (Exit true) in
  let '(s1, r1) := node_publish_volume env vid "/t" "/stage" (Some (Some 3)) staged in
  let '(s2, r2) := node_publish_volume all_ok vid "/t" "/stage" (Some (Some 3)) s1 in
  r1 = Err Internal /\ r2 = Ok tt /\ kernel s2 !! "/t"%string = Some (mk_kmount url false).
Proof. by vm_compute. Qed.

(** A failed remount whose teardown cannot unmount deletes the objects of the
    volume it was to protect from writes. *)
Theorem teardown_deletes_objects :
  let env := mk_penv true (Exit true) (Exit false) (Exit false) in
  let '(s', r) := node_publish_volume env vid "/t" "/stage" (Some (Some 3)) staged in
  r = Err Internal /\ objects s' !! url = Some ∅.
Proof. by vm_compute. Qed.

(** A target unmounted behind the driver's back stays unmounted: the retried
    publish is answered from the map. *)
Theorem publish_ok_not_mounted :
  let s := set_kernel (delete "/t"%string (kernel published_node)) published_node in
  let '(s', r) := node_publish_volume all_ok vid "/t" "/stage" (Some (Some 1)) s in
  r = Ok tt /\ is_mountpoint "/t" s' = false.
Proof. by vm_compute. Qed.

(** An unstage without a volume identifier is not refused, and removes the
    caches of every volume. *)
Theorem unstage_empty_id_removes_all :
  match node_unstage_volume (Some (str "/c")) 60 [(0, false)] true [] "/stage" staged with
  | Some (s', Ok _) => caches s' = ∅
  | _ => False
  end.
Proof. by vm_compute. Qed.

(** A volume whose identifier is not the encoded URL: unstage looks for the
    cache under another name than stage used. *)
Theorem static_volume_cache_leaks :
  let ctx := {["storage"%string := url]} : context in
  let polls := [mk_poll Empty true false] in
  match node_stage_volume (Some (str "/c")) polls (str "my-pv") "/s" ctx (mk_node ∅ ∅ ∅ ∅) with
  | Some (s1, Ok _) =>
      match node_unstage_volume (Some (str "/c")) 60 [(0, false)] true (str "my-pv") "/s" s1 with
      | Some (s2, Ok _) => caches s2 !! vol_cache (str "/c") (encode_volume_id url) = Some 0
      | _ => False
      end
  | _ => False
  end.
Proof. by vm_compute. Qed.

End Node.
