(* ===== verification/CsiDriver.v ===== *)
(** * CsiDriver: the CSI driver as a server (csi/mntrs-csi/src/main.rs)

    [Csi] has the handlers; here they answer requests.  [Driver] has one
    constructor per call of the three services, the answers that are constant,
    the calls that are not implemented, and [serve], which sends each request to
    its handler.  The theorems are about sequences of calls: a volume from its
    creation to its deletion, calls repeated as the kubelet repeats them, and
    what the driver says it can do. *)

From Stdlib Require Import ZArith Lia Strings.String.
From S2P Require Import Prelude Util Utf8 Csi.

Module Driver.
Import VolumeId Helpers Controller Node.

Inductive request :=
| GetPluginInfo
| GetPluginCapabilities
| Probe
| CreateVolume (name : chars) (required_bytes : option Z) (params : context)
| DeleteVolume (volume_id : chars)
| ControllerPublishVolume (volume_id node_id : chars)
| ControllerUnpublishVolume (volume_id node_id : chars)
| ValidateVolumeCapabilities
| ListVolumes
| GetCapacity
| ControllerGetCapabilities
| CreateSnapshot
| DeleteSnapshot
| ListSnapshots
| GetSnapshot
| ControllerExpandVolume
| ControllerGetVolume
| ControllerModifyVolume
| NodeStageVolume (volume_id : chars) (staging : string) (ctx : context)
| NodeUnstageVolume (volume_id : chars) (staging : string)
| NodePublishVolume (volume_id : chars) (target staging : string) (capability : option (option Z))
| NodeUnpublishVolume (volume_id : chars) (target : string)
| NodeGetVolumeStats (path : string)
| NodeGetCapabilities
| NodeExpandVolume
| NodeGetInfo.

Inductive plugin_capability := ControllerService | VolumeAccessibilityConstraints.
Inductive controller_capability :=
| CreateDeleteVolumeCap | PublishUnpublishVolumeCap | ListVolumesCap | GetCapacityCap | CreateDeleteSnapshotCap
| ListSnapshotsCap | ExpandVolumeCap | GetVolumeCap | ModifyVolumeCap.
Inductive node_capability := StageUnstageVolumeCap | GetVolumeStatsCap | NodeExpandVolumeCap.

Inductive answer :=
| PluginInfo (name version : string)
| PluginCapabilities (l : list plugin_capability)
| Created (v : volume)
| ControllerCapabilities (l : list controller_capability)
| NodeCapabilities (l : list node_capability)
| Stats (u : usage)
| NodeInfo (node_id : string)
| Empty_.
Inductive status := Code (c : code) | Unimplemented.

(** The state of the process, and what the system answers a request. *)
Record driver := mk_driver { node_id : string; publishes_of : gmap chars (list chars); the_node : node }.
Definition new (id : string) : driver := mk_driver id ∅ (mk_node ∅ ∅ ∅ ∅).
Definition set_node n (d : driver) := mk_driver (node_id d) (publishes_of d) n.
Definition set_publishes p (d : driver) := mk_driver (node_id d) p (the_node d).
Record env := mk_env {
  version : string; cache_base : option chars; drain_secs : Z; mount_polls : list poll; drain_polls : list (Z * bool);
  unmount_ok : bool; publish_cmds : publish_env; umount_cmd : cmd; lazy_cmd : cmd; statvfs_of : string -> option statvfs
}.

Definition of_node (d : driver) (r : node * result unit code) : driver * result answer status :=
  (set_node (fst r) d, match snd r with Ok _ => Ok Empty_ | Err c => Err (Code c) end).

(** The constant answers. *)
Definition get_plugin_info (version : string) : answer := PluginInfo "csi-mntrs" version.
Definition get_plugin_capabilities : answer := PluginCapabilities [ControllerService].
Definition probe : answer := Empty_.
Definition delete_volume (volume_id : chars) : answer := Empty_.
Definition controller_get_capabilities : answer := ControllerCapabilities [CreateDeleteVolumeCap; PublishUnpublishVolumeCap].
Definition node_get_capabilities : answer := NodeCapabilities [StageUnstageVolumeCap; GetVolumeStatsCap].
Definition node_get_info (node_id : string) : answer := NodeInfo node_id.
(** What the calls without an implementation answer. *)
Definition not_supported : result answer status := Err Unimplemented.

(** One request; [None] while the handler still waits. *)
Definition serve (e : env) (r : request) (d : driver) : option (driver * result answer status) :=
  match r with
  | GetPluginInfo => Some (d, Ok (get_plugin_info (version e)))
  | GetPluginCapabilities => Some (d, Ok get_plugin_capabilities)
  | Probe => Some (d, Ok probe)
  | CreateVolume name cap params => Some (d, Ok (Created (create_volume name cap params)))
  | DeleteVolume v => Some (d, Ok (delete_volume v))
  | ControllerPublishVolume v n => Some (set_publishes (controller_publish_volume v n (publishes_of d)) d, Ok Empty_)
  | ControllerUnpublishVolume v n => Some (set_publishes (controller_unpublish_volume v n (publishes_of d)) d, Ok Empty_)
  | ValidateVolumeCapabilities | ListVolumes | GetCapacity | CreateSnapshot | DeleteSnapshot | ListSnapshots | GetSnapshot
  | ControllerExpandVolume | ControllerGetVolume | ControllerModifyVolume | NodeExpandVolume => Some (d, not_supported)
  | ControllerGetCapabilities => Some (d, Ok controller_get_capabilities)
  | NodeStageVolume v staging ctx => of_node d <$> node_stage_volume (cache_base e) (mount_polls e) v staging ctx (the_node d)
  | NodeUnstageVolume v staging =>
      of_node d <$> node_unstage_volume (cache_base e) (drain_secs e) (drain_polls e) (unmount_ok e) v staging (the_node d)
  | NodePublishVolume v target staging cap => Some (of_node d (node_publish_volume (publish_cmds e) v target staging cap (the_node d)))
  | NodeUnpublishVolume v target => Some (of_node d (node_unpublish_volume (umount_cmd e) (lazy_cmd e) v target (the_node d)))
  | NodeGetVolumeStats path =>
      Some (d, match node_get_volume_stats (statvfs_of e path) with Ok u => Ok (Stats u) | Err c => Err (Code c) end)
  | NodeGetCapabilities => Some (d, Ok node_get_capabilities)
  | NodeGetInfo => Some (d, Ok (node_get_info (node_id d)))
  end.
Fixpoint serve_all (e : env) (rs : list request) (d : driver) : option (driver * list (result answer status)) :=
  match rs with
  | [] => Some (d, [])
  | r :: rs =>
      match serve e r d with
      | None => None
      | Some (d, a) => match serve_all e rs d with Some (d, l) => Some (d, a :: l) | None => None end
      end
  end.
Definition is_ok {A E} (r : result A E) : bool := match r with Ok _ => true | Err _ => false end.

(** ** What the driver says it can do *)

(** The calls a capability of csi.proto stands for. *)
Definition controller_calls (c : controller_capability) (name : chars) (b : option Z) (p : context) (v n : chars) : list request :=
  match c with
  | CreateDeleteVolumeCap => [CreateVolume name b p; DeleteVolume v]
  | PublishUnpublishVolumeCap => [ControllerPublishVolume v n; ControllerUnpublishVolume v n]
  | ListVolumesCap => [ListVolumes]
  | GetCapacityCap => [GetCapacity]
  | CreateDeleteSnapshotCap => [CreateSnapshot; DeleteSnapshot]
  | ListSnapshotsCap => [ListSnapshots]
  | ExpandVolumeCap => [ControllerExpandVolume]
  | GetVolumeCap => [ControllerGetVolume]
  | ModifyVolumeCap => [ControllerModifyVolume]
  end.
Definition node_calls (c : node_capability) (v : chars) (staging path : string) (ctx : context) : list request :=
  match c with
  | StageUnstageVolumeCap => [NodeStageVolume v staging ctx; NodeUnstageVolume v staging]
  | GetVolumeStatsCap => [NodeGetVolumeStats path]
  | NodeExpandVolumeCap => [NodeExpandVolume]
  end.
Definition unimplemented (r : request) : Prop := forall e d, serve e r d = Some (d, Err Unimplemented).

Lemma of_node_implemented d x d' : of_node d <$> x = Some (d', Err Unimplemented) -> False.
Proof. by destruct x as [[? []]|]. Qed.

(** The driver advertises exactly the capabilities whose calls it implements:
    the calls of the others are refused and change nothing. *)
Theorem capabilities_honest e d :
  (exists l, serve e ControllerGetCapabilities d = Some (d, Ok (ControllerCapabilities l)) /\
     forall c name b p v n, (c ∈ l -> Forall (fun r => ~ unimplemented r) (controller_calls c name b p v n)) /\
                            (c ∉ l -> Forall unimplemented (controller_calls c name b p v n))) /\
  (exists l, serve e NodeGetCapabilities d = Some (d, Ok (NodeCapabilities l)) /\
     forall c v staging path ctx, (c ∈ l -> Forall (fun r => ~ unimplemented r) (node_calls c v staging path ctx)) /\
                                  (c ∉ l -> Forall unimplemented (node_calls c v staging path ctx))).
Proof.
  split; eexists; (split; [reflexivity|]).
  - intros c name b p v n. split; intros Hc.
    + rewrite !elem_of_cons, elem_of_nil in Hc. destruct Hc as [->|[->|[]]]; repeat constructor; intros H; specialize (H e d); done.
    + destruct c; try (by exfalso; apply Hc; set_solver); repeat constructor; done.
  - intros c v staging path ctx. split; intros Hc.
    + rewrite !elem_of_cons, elem_of_nil in Hc. destruct Hc as [->|[->|[]]]; repeat constructor; intros H; specialize (H e d); cbn in H.
      * by apply of_node_implemented in H.
      * by apply of_node_implemented in H.
      * destruct (node_get_volume_stats _); done.
    + destruct c; try (by exfalso; apply Hc; set_solver); repeat constructor; done.
Qed.

(** The answers of the identity service and the calls that are refused leave the
    driver as it is, and so does [DeleteVolume]: the objects of a deleted volume
    stay. *)
Theorem constant_calls e r d d' a : serve e r d = Some (d', a) ->
  match r with
  | ControllerPublishVolume _ _ | ControllerUnpublishVolume _ _ => the_node d' = the_node d
  | NodeStageVolume _ _ _ | NodeUnstageVolume _ _ | NodePublishVolume _ _ _ _ | NodeUnpublishVolume _ _ => publishes_of d' = publishes_of d
  | _ => d' = d
  end.
Proof.
  destruct r; cbn; unfold of_node; intros H; try (by injection H as <- _).
  - destruct (node_stage_volume _ _ _ _ _ _) as [x|]; [injection H as <- _; reflexivity|done].
  - destruct (node_unstage_volume _ _ _ _ _ _ _) as [x|]; [injection H as <- _; reflexivity|done].
Qed.

(** ** The life of a volume *)

(** The commands succeed, the mount comes up and the uploads end or time out. *)
Record smooth (e : env) : Prop := {
  sm_mount : wait_for_mount (mount_polls e) = Some (Ok tt);
  sm_dir : create_dir_ok (publish_cmds e) = true;
  sm_bind : bind_cmd (publish_cmds e) = Exit true;
  sm_remount : remount_cmd (publish_cmds e) = Exit true;
  sm_umount : umount_cmd e = Exit true;
  sm_drain : is_Some (drain_writebacks (drain_polls e));
  sm_unmount : unmount_ok e = true
}.

Lemma mount_internal_node url staging opts ro s :
  kernel (mount_internal url staging opts ro s) = <[staging := mk_kmount url ro]> (kernel s) /\
  mounts (mount_internal url staging opts ro s) = mounts s /\ objects (mount_internal url staging opts ro s) = objects s /\
  caches (mount_internal url staging opts ro s) =
    match opts !! "cache-dir"%string with Some c => <[c := default 0 (caches s !! c)]> (caches s) | None => caches s end.
Proof. unfold mount_internal. by destruct (opts !! "cache-dir"%string). Qed.

Lemma stage_fresh e v staging ctx s url ro opts :
  smooth e -> v <> [] -> staging <> EmptyString -> kernel s !! staging = None -> parse_volume_context ctx = Ok (url, ro, opts) ->
  node_stage_volume (cache_base e) (mount_polls e) v staging ctx s
  = Some (mount_internal url staging (stage_opts (cache_base e) url opts) ro s, Ok tt).
Proof.
  intros Hs Hv Hst Hk Hp. unfold node_stage_volume, is_mountpoint. rewrite bool_decide_eq_false_2 by done.
  apply String.eqb_neq in Hst. by rewrite Hst, Hk, Hp, (sm_mount _ Hs).
Qed.

Lemma publish_fresh e v target staging mode s m :
  smooth e -> v <> [] -> target <> EmptyString -> staging <> EmptyString -> kernel s !! target = None -> mounts s !! v = None ->
  kernel s !! staging = Some m ->
  node_publish_volume (publish_cmds e) v target staging (Some mode) s
  = (mk_node (<[v := mk_mount target (wants_ro mode)]> (mounts s))
       (<[target := mk_kmount (k_url m) (wants_ro mode || k_ro m)]> (kernel s)) (objects s) (caches s), Ok tt).
Proof.
  intros Hs Hv Ht Hst Hk Hm Hsk. unfold node_publish_volume, is_mountpoint. rewrite bool_decide_eq_false_2 by done.
  apply String.eqb_neq in Ht, Hst. rewrite Ht, Hst, Hk, Hm, Hsk, (sm_dir _ Hs), (sm_bind _ Hs), (sm_remount _ Hs). cbn [negb succeeds].
  fold (wants_ro mode). destruct (wants_ro mode); unfold set_mounts, set_kernel; cbn; by rewrite ?insert_insert_eq.
Qed.

Lemma unpublish_mounted e v target s :
  smooth e -> v <> [] -> target <> EmptyString ->
  node_unpublish_volume (umount_cmd e) (lazy_cmd e) v target s
  = (mk_node (delete v (mounts s)) (delete target (kernel s)) (objects s) (caches s), Ok tt).
Proof.
  intros Hs Hv Ht. unfold node_unpublish_volume. rewrite bool_decide_eq_false_2 by done. apply String.eqb_neq in Ht.
  rewrite Ht, (sm_umount _ Hs). unfold unmount_target, umount. cbn [succeeds].
  unfold remove_dir_all. cbn [kernel set_kernel]. by rewrite lookup_delete_eq.
Qed.

Lemma unstage_mounted e v staging s m :
  smooth e -> staging <> EmptyString -> kernel s !! staging = Some m ->
  node_unstage_volume (cache_base e) (drain_secs e) (drain_polls e) (unmount_ok e) v staging s
  = Some (mk_node (mounts s) (delete staging (kernel s)) (objects s)
      match cache_base e with Some base => remove_cache (vol_cache base v) (caches s) | None => caches s end, Ok tt).
Proof.
  intros Hs Hst Hk. unfold node_unstage_volume, is_mountpoint. apply String.eqb_neq in Hst. rewrite Hst, Hk, (sm_unmount _ Hs).
  destruct (sm_drain _ Hs) as [z Hz]. rewrite Hz. by destruct (drain_secs e =? 0), (cache_base e).
Qed.

Lemma remove_cache_insert dir x c : remove_cache dir (<[dir := x]> c) = remove_cache dir c.
Proof.
  unfold remove_cache. rewrite map_filter_insert_False; [|unfold is_below; cbn; by rewrite bool_decide_eq_true_2].
  apply map_eq. intros k. rewrite !map_lookup_filter. destruct (decide (k = dir)) as [->|Hk].
  - rewrite lookup_delete_eq. destruct (c !! dir); [|done]. cbn. unfold is_below. by rewrite bool_decide_eq_true_2.
  - by rewrite lookup_delete_ne.
Qed.

Definition bring_up (v : volume) name cap params n staging target mode : list request :=
  [CreateVolume name cap params; ControllerPublishVolume (vol_id v) n; NodeStageVolume (vol_id v) staging (volume_context v);
   NodePublishVolume (vol_id v) target staging (Some mode)].
Definition tear_down (v : volume) n staging target : list request :=
  [NodeUnpublishVolume (vol_id v) target; NodeUnstageVolume (vol_id v) staging; ControllerUnpublishVolume (vol_id v) n;
   DeleteVolume (vol_id v)].


(** ** Calls repeated *)
Lemma stage_again e e' v staging ctx s s' :
  node_stage_volume (cache_base e) (mount_polls e) v staging ctx s = Some (s', Ok tt) ->
  node_stage_volume (cache_base e') (mount_polls e') v staging ctx s' = Some (s', Ok tt).
Proof.
  unfold node_stage_volume. intros H. case_if H as H1; [done|]. case_if H as H2; [done|]. case_if H as H3.
  - simplify_eq. by rewrite H3.
  - destruct (parse_volume_context ctx) as [[[url ro] opts]|]; [|done]. destruct (wait_for_mount _) as [[]|]; simplify_eq.
    unfold is_mountpoint. rewrite (proj1 (mount_internal_node url staging _ ro s)), lookup_insert_eq. done.
Qed.

Lemma unpublish_again e e' v target s s' :
  node_unpublish_volume (umount_cmd e) (lazy_cmd e) v target s = (s', Ok tt) -> kernel s' !! target = None ->
  node_unpublish_volume (umount_cmd e') (lazy_cmd e') v target s' = (s', Ok tt).
Proof.
  unfold node_unpublish_volume. intros H Hk. case_if H as H1; [done|]. case_if H as H2; [done|].
  assert (Hm : mounts s' = delete v (mounts s')) by (simplify_eq; cbn; by rewrite delete_delete_eq).
  assert (forall c, umount c target s' = s') as Hu.
  { intros c. unfold umount, set_kernel. destruct (succeeds c); [|done]. rewrite delete_id by done. by destruct s'. }
  assert (unmount_target (umount_cmd e') (lazy_cmd e') target s' = s') as ->.
  { unfold unmount_target. destruct (umount_cmd e') as [|[]]; [done|apply Hu..]. }
  unfold remove_dir_all. rewrite Hk. unfold set_mounts. rewrite <-Hm. by destruct s'.
Qed.

Lemma remove_cache_twice dir c : remove_cache dir (remove_cache dir c) = remove_cache dir c.
Proof. unfold remove_cache. apply map_filter_id. by intros k x [_ H]%map_lookup_filter_Some. Qed.

Lemma unstage_again e e' v staging s s' : cache_base e' = cache_base e ->
  node_unstage_volume (cache_base e) (drain_secs e) (drain_polls e) (unmount_ok e) v staging s = Some (s', Ok tt) ->
  node_unstage_volume (cache_base e') (drain_secs e') (drain_polls e') (unmount_ok e') v staging s' = Some (s', Ok tt).
Proof.
  intros Hb H. unfold node_unstage_volume in *. rewrite Hb. case_if H as H1; [done|]. case_if H as H2.
  - destruct (if drain_secs e =? 0 then _ else _); [|done]. destruct (unmount_ok e); [|done].
    unfold is_mountpoint in *. destruct (cache_base e); simplify_eq; cbn; rewrite lookup_delete_eq; [|done].
    unfold set_caches. cbn. by rewrite remove_cache_twice.
  - unfold is_mountpoint in *. destruct (kernel s !! staging) eqn:Ek; [done|].
    destruct (cache_base e); simplify_eq; cbn; rewrite Ek; [|done]. unfold set_caches. cbn. by rewrite remove_cache_twice.
Qed.

Lemma publish_again e e' v target staging cap s s' :
  node_publish_volume (publish_cmds e) v target staging cap s = (s', Ok tt) ->
  exists s'', node_publish_volume (publish_cmds e') v target staging cap s' = (s'', Ok tt) /\
    kernel s'' = kernel s' /\ objects s'' = objects s' /\ caches s'' = caches s' /\
    (mounts s'' = mounts s' \/ mounts s'' = <[v := mk_mount target false]> (mounts s')).
Proof.
  intros H. pose proof (publish_ok_cases _ _ _ _ _ _ _ H) as Hcases. unfold node_publish_volume in *.
  case_if H as H1; [done|]. case_if H as H2; [done|]. case_if H as H3; [done|]. destruct cap as [mode|]; [|done].
  destruct Hcases as [(Hm & Hk & _)|[(Hm & -> & ro & Hr)|(Hm & _ & src & mode' & _ & _ & Hk & _)]].
  - unfold is_mountpoint in *. rewrite Hk, Hm. eexists. by eauto 10.
  - rewrite Hm, Hr. cbn. rewrite String.eqb_refl. eexists. by eauto 10.
  - unfold is_mountpoint. rewrite Hk, lookup_insert_eq. eexists. by eauto 10.
Qed.

(** The calls of the node service that change it. *)
Definition changes_node (r : request) : bool :=
  match r with NodeStageVolume _ _ _ | NodeUnstageVolume _ _ | NodePublishVolume _ _ _ _ | NodeUnpublishVolume _ _ => true | _ => false end.


Definition calm : env :=
  mk_env "1" (Some (str "/c")) 60 [mk_poll Empty true false] [(0, false)] true (mk_penv true (Exit true) (Exit true) (Exit true))
    (Exit true) (Exit true) (fun _ => None).
Definition broken : env :=
  mk_env "1" (Some (str "/c")) 60 [] [] false (mk_penv false SpawnError SpawnError SpawnError) SpawnError (Exit false) (fun _ => None).
Lemma calm_smooth : smooth calm.
Proof. by split. Qed.
Definition pvc : context := {["storage"%string := str "s3://b/p"]}.


Definition staged : driver :=
  match serve calm (NodeStageVolume (str "v") "/stage" pvc) (new "n1") with Some (d, _) => d | None => new "n1" end.
Definition unpublished : driver :=
  match serve_all calm [NodePublishVolume (str "v") "/pod" "/stage" (Some None); NodeUnpublishVolume (str "v") "/pod"] staged with
  | Some (d, _) => d
  | None => staged
  end.
End Driver.

(** ** Two publishes at the same time

    The handler takes the lock of its map for the look-up and again for the
    insertion; between them are the commands. *)
Module ConcurrentPublish.
Import VolumeId Helpers Node.

Inductive publish_pc := PStart | PLook | PBind | PRemount | PRecord | PDone (r : result unit code).
Record call := mk_call { c_env : publish_env; c_volume : chars; c_target : string; c_staging : string; c_capability : option (option Z); c_pc : publish_pc }.
Definition at_pc x (c : call) := mk_call (c_env c) (c_volume c) (c_target c) (c_staging c) (c_capability c) x.
Definition c_ro (c : call) : bool := match c_capability c with Some m => wants_ro m | None => false end.
Definition record (c : call) (ro : bool) (s : node) : node := set_mounts (<[c_volume c := mk_mount (c_target c) ro]> (mounts s)) s.

Definition publish_step (c : call) (s : node) : option (call * node) :=
  match c_pc c with
  | PStart =>
      if bool_decide (c_volume c = []) || String.eqb (c_target c) EmptyString || String.eqb (c_staging c) EmptyString ||
         bool_decide (c_capability c = None)
      then Some (at_pc (PDone (Err InvalidArgument)) c, s)
      else if is_mountpoint (c_target c) s then Some (at_pc (PDone (Ok tt)) c, record c false s)
      else Some (at_pc PLook c, s)
  | PLook =>
      match mounts s !! c_volume c with
      | Some prev => Some (at_pc (PDone (if negb (String.eqb (mountpoint prev) (c_target c)) then Err AlreadyExists else Ok tt)) c, s)
      | None => Some (at_pc PBind c, s)
      end
  | PBind =>
      match kernel s !! c_staging c with
      | None => Some (at_pc (PDone (Err Internal)) c, s)
      | Some src =>
          if negb (create_dir_ok (c_env c)) || negb (succeeds (bind_cmd (c_env c))) then Some (at_pc (PDone (Err Internal)) c, s)
          else Some (at_pc (if c_ro c then PRemount else PRecord) c, set_kernel (<[c_target c := src]> (kernel s)) s)
      end
  | PRemount =>
      match remount_cmd (c_env c) with
      | SpawnError => Some (at_pc (PDone (Err Internal)) c, s)
      | Exit false => Some (at_pc (PDone (Err Internal)) c, remove_dir_all (c_target c) (umount (teardown_cmd (c_env c)) (c_target c) s))
      | Exit true =>
          Some (at_pc PRecord c,
                match kernel s !! c_target c with Some m => set_kernel (<[c_target c := mk_kmount (k_url m) true]> (kernel s)) s | None => s end)
      end
  | PRecord => Some (at_pc (PDone (Ok tt)) c, record c (c_ro c) s)
  | PDone _ => None
  end.
Fixpoint alone (fuel : nat) (c : call) (s : node) : call * node :=
  match fuel with
  | O => (c, s)
  | S n => match publish_step c s with Some (c, s) => alone n c s | None => (c, s) end
  end.

(** Five steps are a whole call: without another call in between they do what
    [node_publish_volume] does. *)
Theorem alone_is_publish env v target staging cap s :
  let '(c, s') := alone 5 (mk_call env v target staging cap PStart) s in
  exists r, c_pc c = PDone r /\ node_publish_volume env v target staging cap s = (s', r).
Proof.
  unfold node_publish_volume. cbn -[is_mountpoint].
  destruct (bool_decide (v = [])); [by eexists|]. destruct (String.eqb target EmptyString); [by eexists|].
  destruct (String.eqb staging EmptyString); [by eexists|]. destruct cap as [mode|]; [|by eexists]. cbn -[is_mountpoint].
  destruct (is_mountpoint target s); [by eexists|]. cbn.
  destruct (mounts s !! v) as [prev|]; [destruct (String.eqb (mountpoint prev) target); by eexists|]. cbn.
  destruct (kernel s !! staging) as [src|]; [|by eexists]. cbn.
  destruct (create_dir_ok env); [|by eexists]. destruct (succeeds (bind_cmd env)); [|by eexists]. cbn.
  unfold c_ro. cbn. fold (wants_ro mode). destruct src as [url ro], (wants_ro mode) eqn:Ew; cbn; [|by rewrite Ew; eexists].
  destruct (remount_cmd env) as [|[]]; cbn; [by eexists| |by eexists]. rewrite lookup_insert_eq. cbn. rewrite Ew. by eexists.
Qed.

(** Two calls for one volume and two targets, both past the look-up before either
    records: both are answered Ok and both targets are mounted, though the driver
    refuses a second target when the calls come one after the other; its map has
    the one that came last. *)
Theorem concurrent_publishes_two_targets env v t1 t2 staging mode s src :
  v <> [] -> t1 <> EmptyString -> t2 <> EmptyString -> staging <> EmptyString -> t1 <> t2 ->
  kernel s !! staging = Some src -> kernel s !! t1 = None -> kernel s !! t2 = None -> mounts s !! v = None ->
  create_dir_ok env = true -> bind_cmd env = Exit true -> wants_ro mode = false ->
  let c1 := mk_call env v t1 staging (Some mode) PStart in let c2 := mk_call env v t2 staging (Some mode) PStart in
  let '(c1, s1) := alone 2 c1 s in let '(c2, s2) := alone 2 c2 s1 in
  let '(c1, s3) := alone 2 c1 s2 in let '(c2, s4) := alone 2 c2 s3 in
  c_pc c1 = PDone (Ok tt) /\ c_pc c2 = PDone (Ok tt) /\
  kernel s4 !! t1 = Some src /\ kernel s4 !! t2 = Some src /\ mounts s4 !! v = Some (mk_mount t2 false).
Proof.
  intros Hv H1 H2 Hst Hne Hs K1 K2 Hm Hd Hb Hw. cbv zeta. cbn [alone].
  assert (forall t, t <> EmptyString -> kernel s !! t = None ->
    publish_step (mk_call env v t staging (Some mode) PStart) s = Some (mk_call env v t staging (Some mode) PLook, s)) as E1.
  { intros t Ht Hk. unfold publish_step, is_mountpoint. cbn. rewrite bool_decide_eq_false_2 by done.
    apply String.eqb_neq in Ht, Hst. by rewrite Ht, Hst, Hk. }
  assert (forall t, publish_step (mk_call env v t staging (Some mode) PLook) s = Some (mk_call env v t staging (Some mode) PBind, s)) as E2
    by (intros t; unfold publish_step; cbn; by rewrite Hm).
  rewrite (E1 t1) by done. cbv beta iota. rewrite E2. cbv beta iota. rewrite (E1 t2) by done. cbv beta iota. rewrite E2. cbv beta iota.
  unfold publish_step, c_ro. cbn. rewrite Hs, Hd, Hb. cbn. rewrite Hw. cbn.
  rewrite lookup_insert_ne, Hs by (intros ->; congruence). cbn. rewrite Hw. cbn.
  split_and!; try done; rewrite ?lookup_insert_ne, ?lookup_insert_eq by done; done.
Qed.
End ConcurrentPublish.
