(* ===== verification/DirCache.v ===== *)
(** The directory and attribute caches of src/src/lib.rs: [stat_op] and its
    single-flight protocol, [list_op] with its filters, the surgical updates
    [cache_add_entry] and [cache_remove_entry], and [invalidate_dir_cache]. *)
From Stdlib Require Import ZArith Lia Strings.Byte Strings.String Strings.Ascii.
From S2P Require Import Prelude Util BlockFormat Utf8 Inodes Errors.

Module DirCache.
Import Utf8 Inodes.

(** ** Data *)
Inductive EntryMode := DIR | FILE | UNKNOWN.
#[export] Instance EntryMode_eq_dec : EqDecision EntryMode.
Proof. solve_decision. Defined.
Definition kind_of (m : EntryMode) : FileType := match m with DIR => Directory | _ => RegularFile end.

(** What the backend reports: [opendal::Metadata] of a stat, and an entry of a
    lister ([None] in a listing is a per-entry error). *)
Record bmeta := mk_bmeta { b_mode : EntryMode; b_length : Z; b_modified : option Z }.
Record bentry := mk_bentry { e_name : string; e_meta : bmeta }.
Record backend := mk_backend {
  op_stat : string -> result bmeta Errors.OpendalKind;
  op_lister : string -> result (list (option bentry)) Errors.OpendalKind
}.

Record DirEntryCacheValue := mk_value { v_mode : EntryMode; v_size : Z; v_mtime : Z; v_ino : option Z }.
Record FileStat := mk_stat { s_kind : FileType; s_size : Z; s_mtime : option Z }.
Abbreviation snapshot := (gmap string DirEntryCacheValue).

(** The flags of the mount the listing and the stat look at. *)
Record config := mk_config {
  dir_cache_ttl : Z;
  stat_cache_ttl : Z;
  vfs_refresh : bool;
  no_modtime : bool;
  use_server_modtime : bool;
  no_implicit_dir : bool;
  max_depth : option Z;
  max_size : option Z;
  min_size : option Z;
  exclude_patterns : list string;
  include_patterns : list string;
  ignore_case : bool;
  no_apple_double : bool;
  no_macos_metadata : bool;
  block_norm_dupes : bool
}.
(** [dir_cache] and [attr_cache] with the instant of each entry. *)
Record caches := mk_caches {
  tbl : table;
  dir_cache : gmap string (Z * snapshot);
  attr_cache : gmap string (FileStat * Z)
}.
Definition set_tbl t c := mk_caches t (dir_cache c) (attr_cache c).
Definition set_dir_cache d c := mk_caches (tbl c) d (attr_cache c).
Definition set_attr_cache a c := mk_caches (tbl c) (dir_cache c) a.

Section Operations.
Context (cfg : config) (op : backend).
(** [str::to_lowercase] on characters and the NFC form of a name, of the
    Unicode tables. *)
Context (to_lowercase : chars -> chars) (nfc : string -> string).

(** ** [stat_op] *)
Definition modtime (m : option Z) : option Z :=
  if no_modtime cfg then None else if use_server_modtime cfg then m else None.
Definition cached_stat (now : Z) (path : string) (c : caches) : option FileStat :=
  if vfs_refresh cfg then None
  else match attr_cache c !! path with
       | Some (st, ts) => if now - ts <? stat_cache_ttl cfg then Some st else None
       | None => None
       end.
(** The backend's answer: an existing object, an implicit directory, nothing. *)
Definition backend_stat (path : string) : option FileStat :=
  match op_stat op path with
  | Ok m => Some (mk_stat (kind_of (b_mode m)) (b_length m) (modtime (b_modified m)))
  | Err Errors.ONotFound =>
      if no_implicit_dir cfg then None
      else match op_lister op (Str.trim_end Str.SLASH path +:+ "/") with
           | Ok (_ :: _) => Some (mk_stat Directory 4096 None)
           | _ => None
           end
  | Err _ => None
  end.
Definition stat_op (now : Z) (path : string) (c : caches) : caches * option FileStat :=
  match cached_stat now path c with
  | Some st => (c, Some st)
  | None =>
      match backend_stat path with
      | Some st => (set_attr_cache (<[path := (st, now)]> (attr_cache c)) c, Some st)
      | None => (c, None)
      end
  end.

(** ** [list_op] *)
Record ListOpRow := mk_row { r_name : string; r_mode : EntryMode; r_size : Z; r_mtime : Z; r_ino : option Z }.
Definition MAX_LIST_ENTRIES : Z := 1000000.
Definition UNIX_EPOCH : Z := 0.

Definition MACOS_METADATA_NAMES : list string :=
  [".DS_Store"; ".Trashes"; ".fseventsd"; ".Spotlight-V100"; ".TemporaryItems";
   ".DocumentRevisions-V100"]%string.
Definition lower_ascii (a : ascii) : ascii :=
  let n := nat_of_ascii a in
  if (65 <=? Z.of_nat n) && (Z.of_nat n <=? 90) then ascii_of_nat (n + 32) else a.
Fixpoint eq_ignore_ascii_case (a b : string) : bool :=
  match a, b with
  | EmptyString, EmptyString => true
  | String x a', String y b' => Ascii.eqb (lower_ascii x) (lower_ascii y) && eq_ignore_ascii_case a' b'
  | _, _ => false
  end.
Definition is_macos_metadata (name : string) : bool :=
  existsb (fun m => eq_ignore_ascii_case m name) MACOS_METADATA_NAMES.

(** [fnmatch] ends on every input, so its result is never missing. *)
Definition matches_any (pats : list string) (name : string) : bool :=
  existsb (fun p => default false
    (Glob.fnmatch to_lowercase (str_chars p) (str_chars name) (ignore_case cfg))) pats.
Definition count_slashes (s : string) : Z := lenZ (Str.split Str.SLASH s) - 1.
Definition opt_test (o : option Z) (f : Z -> bool) : bool := match o with Some m => f m | None => false end.

(** The filters of the lister loop: [true] skips the entry. *)
Definition skip_entry (depth : Z) (name : string) (m : bmeta) : bool :=
  opt_test (max_depth cfg) (fun d => (d <=? depth) && bool_decide (b_mode m = DIR)) ||
  opt_test (max_size cfg) (fun ms => ms <? b_length m) ||
  opt_test (min_size cfg) (fun ms => b_length m <? ms) ||
  match exclude_patterns cfg with [] => false | ps => matches_any ps name end ||
  (no_apple_double cfg && match Str.strip_prefix "._" name with Some _ => true | None => false end) ||
  (no_macos_metadata cfg && is_macos_metadata name) ||
  match include_patterns cfg with [] => false | ps => negb (matches_any ps name) end.
Definition row_of (e : bentry) : ListOpRow :=
  mk_row (Str.trim_end Str.SLASH (e_name e)) (b_mode (e_meta e)) (b_length (e_meta e))
    (default UNIX_EPOCH (modtime (b_modified (e_meta e)))) None.
(** The loop: a failed entry is skipped, the listing ends at the cap. *)
Fixpoint drain_lister (depth : Z) (items : list (option bentry)) (out : list ListOpRow) : list ListOpRow :=
  match items with
  | [] => out
  | item :: rest =>
      if MAX_LIST_ENTRIES <=? lenZ out then out
      else match item with
           | None => drain_lister depth rest out
           | Some e =>
               if skip_entry depth (Str.trim_end Str.SLASH (e_name e)) (e_meta e)
               then drain_lister depth rest out
               else drain_lister depth rest (out ++ [row_of e])
           end
  end.
(** [retain(|(name, ..)| seen.insert(nfc(name)))]. *)
Fixpoint dedup (seen : list string) (rows : list ListOpRow) : list ListOpRow :=
  match rows with
  | [] => []
  | r :: rest =>
      let n := nfc (r_name r) in
      if bool_decide (n ∈ seen) then dedup seen rest else r :: dedup (n :: seen) rest
  end.
(** One inode per row, and the snapshot the rows make. *)
Fixpoint alloc_rows (rows : list ListOpRow) (t : table) (s : snapshot) : table * snapshot :=
  match rows with
  | [] => (t, s)
  | r :: rest =>
      let '(t, ino) := alloc_ino_with_mtime (r_name r) (kind_of (r_mode r)) (r_size r) (r_mtime r) t in
      alloc_rows rest t (<[r_name r := mk_value (r_mode r) (r_size r) (r_mtime r) (Some ino)]> s)
  end.
Definition with_ino (s : snapshot) (r : ListOpRow) : ListOpRow :=
  mk_row (r_name r) (r_mode r) (r_size r) (r_mtime r) (s !! r_name r ≫= v_ino).
Definition attr_key (path name : string) : string :=
  if String.eqb path EmptyString then name else path +:+ String Str.SLASH name.
Definition fill_attrs (now : Z) (path : string) (rows : list ListOpRow) (a : gmap string (FileStat * Z))
    : gmap string (FileStat * Z) :=
  foldl (fun a r => <[attr_key path (r_name r) :=
                        (mk_stat (kind_of (r_mode r)) (r_size r) (Some (r_mtime r)), now)]> a) a rows.

Definition rows_of_snapshot (s : snapshot) : list ListOpRow :=
  map (fun kv => mk_row (fst kv) (v_mode (snd kv)) (v_size (snd kv)) (v_mtime (snd kv)) (v_ino (snd kv)))
    (map_to_list s).
Definition fresh_snapshot (now : Z) (path : string) (c : caches) : option snapshot :=
  match dir_cache c !! path with
  | Some (t, s) => if now - t <? dir_cache_ttl cfg then Some s else None
  | None => None
  end.
(** The backend's listing, filtered; [NotFound] is an empty directory. *)
Definition read_listing (path : string) : result (list ListOpRow) Errors.OpendalKind :=
  match op_lister op path with
  | Err Errors.ONotFound => Ok []
  | Err e => Err e
  | Ok items =>
      let rows := drain_lister (count_slashes path) items [] in
      Ok (if block_norm_dupes cfg then dedup [] rows else rows)
  end.
Definition list_op (now : Z) (raw : string) (c : caches)
    : caches * result (list ListOpRow) Errors.OpendalKind :=
  let path := Path.canonicalize_list_path raw in
  match fresh_snapshot now path c with
  | Some s => (c, Ok (rows_of_snapshot s))
  | None =>
      let c := set_dir_cache (delete path (dir_cache c)) c in
      match read_listing path with
      | Err e => (c, Err e)
      | Ok rows =>
          let '(t, s) := alloc_rows rows (tbl c) ∅ in
          let rows := map (with_ino s) rows in
          (mk_caches t (<[path := (now, s)]> (dir_cache c)) (fill_attrs now path rows (attr_cache c)), Ok rows)
      end
  end.

(** ** Surgical updates *)
Definition cache_add_entry (now : Z) (parent_path name : string) (v : DirEntryCacheValue) (c : caches) : caches :=
  let parent := Path.canonicalize_list_path parent_path in
  match dir_cache c !! parent with
  | Some (t, s) => set_dir_cache (<[parent := (t, <[name := v]> s)]> (dir_cache c)) c
  | None => set_dir_cache (<[parent := (now, {[name := v]})]> (dir_cache c)) c
  end.
Definition cache_remove_entry (parent_path name : string) (c : caches) : caches :=
  let parent := Path.canonicalize_list_path parent_path in
  match dir_cache c !! parent with
  | Some (t, s) => set_dir_cache (<[parent := (t, delete name s)]> (dir_cache c)) c
  | None => c
  end.
Definition starts_with (pre s : string) : bool :=
  match Str.strip_prefix pre s with Some _ => true | None => false end.
Definition invalidate_dir_cache (path : string) (c : caches) : caches :=
  let canon := Path.canonicalize_list_path path in
  let d := delete canon (dir_cache c) in
  let d := filter (fun kv => starts_with canon (fst kv) = false) d in
  let without_slash := Str.trim_end Str.SLASH canon in
  let d := match Str.rfind Str.SLASH without_slash with
           | Some i =>
               let parent_raw := Str.truncate i without_slash in
               if String.eqb parent_raw EmptyString then d
               else delete (Path.canonicalize_list_path parent_raw) d
           | None => d
           end in
  set_dir_cache d c.
(** [dir_cache_invalidate_if_stale]. *)
Definition dir_cache_invalidate_if_stale (parent_path name : string) (c : caches) : caches * bool :=
  let parent := Path.canonicalize_list_path parent_path in
  match dir_cache c !! parent with
  | Some (_, s) =>
      match s !! name with
      | Some _ => (c, false)
      | None => (set_dir_cache (delete parent (dir_cache c)) c, true)
      end
  | None => (c, false)
  end.

(** ** What the lister loop returns *)
Definition kept (depth : Z) (items : list (option bentry)) : list ListOpRow :=
  map row_of (List.filter (fun e => negb (skip_entry depth (Str.trim_end Str.SLASH (e_name e)) (e_meta e)))
                (omap id items)).

Lemma takeZ_0 {A} n (l : list A) : n <= 0 -> takeZ n l = [].
Proof. intros H. unfold takeZ. by rewrite Z2Nat.nonpos. Qed.

Lemma takeZ_cons {A} n x (l : list A) : 0 < n -> takeZ n (x :: l) = x :: takeZ (n - 1) l.
Proof. intros H. unfold takeZ. by replace (Z.to_nat n) with (S (Z.to_nat (n - 1))) by lia. Qed.

Lemma drain_lister_spec depth items : forall out,
  drain_lister depth items out = out ++ takeZ (MAX_LIST_ENTRIES - lenZ out) (kept depth items).
Proof.
  induction items as [|item rest IH]; intros out; cbn [drain_lister].
  - unfold kept, takeZ. cbn. by rewrite take_nil, app_nil_r.
  - case_test; bool_props; [rewrite takeZ_0 by lia; by rewrite app_nil_r|].
    destruct item as [e|]; [|apply IH]. unfold kept. cbn [omap list_omap id List.filter].
    destruct (skip_entry _ _ _); cbn [negb]; [apply IH|].
    rewrite IH. cbn [map]. rewrite takeZ_cons by lia. rewrite <-app_assoc. cbn [app].
    do 3 f_equal. rewrite lenZ_app. change (lenZ [row_of e]) with 1. lia.
Qed.

(** The listing is the entries the filters keep, in the backend's order, cut
    at the cap; entries the backend failed to report are left out. *)
Theorem read_listing_spec path items :
  op_lister op path = Ok items -> block_norm_dupes cfg = false ->
  read_listing path = Ok (takeZ MAX_LIST_ENTRIES (kept (count_slashes path) items)).
Proof.
  intros H Hb. unfold read_listing. rewrite H, Hb, drain_lister_spec. cbn [app].
  change (lenZ []) with 0. by rewrite Z.sub_0_r.
Qed.

(** ** A listing and its snapshot *)

Lemma alloc_rows_other rows : forall t s n, n ∉ map r_name rows ->
  snd (alloc_rows rows t s) !! n = s !! n.
Proof.
  induction rows as [|r rest IH]; intros t s n Hn; [done|]. cbn [alloc_rows map] in *.
  apply not_elem_of_cons in Hn as [Hr Hn]. destruct (alloc_ino_with_mtime _ _ _ _ t) as [t1 ino].
  rewrite IH by done. by rewrite lookup_insert_ne.
Qed.

Lemma row_of_snapshot_in s r : r ∈ rows_of_snapshot s <->
  s !! r_name r = Some (mk_value (r_mode r) (r_size r) (r_mtime r) (r_ino r)).
Proof.
  unfold rows_of_snapshot. rewrite list_elem_of_fmap. split.
  - intros ([n v] & -> & H%elem_of_map_to_list). cbn. rewrite H. by destruct v.
  - intros H. exists (r_name r, mk_value (r_mode r) (r_size r) (r_mtime r) (r_ino r)).
    split; [by destruct r|]. by apply elem_of_map_to_list.
Qed.
Lemma rows_of_snapshot_NoDup s : NoDup (rows_of_snapshot s).
Proof.
  apply (NoDup_fmap_1 r_name). unfold rows_of_snapshot.
  change (NoDup (map r_name (map (fun kv => mk_row (fst kv) (v_mode (snd kv)) (v_size (snd kv)) (v_mtime (snd kv))
                                    (v_ino (snd kv))) (map_to_list s)))).
  rewrite map_map. exact (NoDup_fst_map_to_list s).
Qed.

(** The rows of which no later one has the same name. *)
Fixpoint last_rows (rows : list ListOpRow) : list ListOpRow :=
  match rows with
  | [] => []
  | r :: rest => if bool_decide (r_name r ∈ map r_name rest) then last_rows rest else r :: last_rows rest
  end.

Lemma last_rows_names rows n : n ∈ map r_name (last_rows rows) <-> n ∈ map r_name rows.
Proof.
  induction rows as [|r rest IH]; [done|]. cbn [last_rows map].
  case_bool_decide; cbn [map]; rewrite !elem_of_cons, IH; [|done]. split; [by right|by intros [->|]].
Qed.
Lemma last_rows_NoDup rows : NoDup (map r_name (last_rows rows)).
Proof.
  induction rows as [|r rest IH]; [constructor|]. cbn [last_rows]. case_bool_decide as H; [done|]. cbn [map].
  constructor; [by rewrite last_rows_names|done].
Qed.
Lemma last_rows_distinct rows : NoDup (map r_name rows) -> last_rows rows = rows.
Proof.
  induction rows as [|r rest IH]; intros H; [done|]. cbn [last_rows map] in *. apply NoDup_cons in H as [Hr H].
  rewrite bool_decide_false by done. by rewrite IH.
Qed.
Lemma last_rows_with_ino s rows : last_rows (map (with_ino s) rows) = map (with_ino s) (last_rows rows).
Proof.
  induction rows as [|r rest IH]; [done|]. cbn [last_rows map]. rewrite map_map, IH. cbn [with_ino r_name].
  change (map (fun x => r_name (with_ino s x)) rest) with (map r_name rest).
  by destruct (bool_decide (r_name r ∈ map r_name rest)).
Qed.

Lemma alloc_rows_last rows : forall t s r, r ∈ last_rows rows ->
  exists i, snd (alloc_rows rows t s) !! r_name r = Some (mk_value (r_mode r) (r_size r) (r_mtime r) i).
Proof.
  induction rows as [|r0 rest IH]; intros t s r Hr; [by apply not_elem_of_nil in Hr|]. cbn [alloc_rows last_rows] in *.
  destruct (alloc_ino_with_mtime _ _ _ _ t) as [t1 ino]. case_bool_decide as H; [by apply IH|].
  apply elem_of_cons in Hr as [->|Hr]; [|by apply IH]. rewrite alloc_rows_other by done.
  rewrite lookup_insert_eq. by eexists.
Qed.

(** The snapshot holds the last row of each name. *)
Lemma alloc_rows_snapshot rows t :
  let s' := snd (alloc_rows rows t ∅) in rows_of_snapshot s' ≡ₚ map (with_ino s') (last_rows rows).
Proof.
  cbv zeta. set (s' := snd (alloc_rows rows t ∅)).
  assert (Hl : forall r, r ∈ last_rows rows ->
            s' !! r_name r = Some (mk_value (r_mode r) (r_size r) (r_mtime r) (r_ino (with_ino s' r)))).
  { intros r Hr. destruct (alloc_rows_last rows t ∅ r Hr) as [i Hi]. fold s' in Hi. cbn. by rewrite Hi. }
  apply NoDup_Permutation; [apply rows_of_snapshot_NoDup| |].
  - apply (NoDup_fmap_1 r_name). change (NoDup (map r_name (map (with_ino s') (last_rows rows)))).
    rewrite map_map. exact (last_rows_NoDup rows).
  - intros x. rewrite row_of_snapshot_in. split.
    + intros Hx. destruct (decide (r_name x ∈ map r_name rows)) as [Hin|Hin].
      * apply last_rows_names, list_elem_of_fmap in Hin as (r & En & Hr). apply list_elem_of_fmap. exists r.
        split; [|done]. pose proof (Hl r Hr) as Hv. rewrite <-En, Hx in Hv. destruct x. cbn in *. by simplify_eq.
      * pose proof (alloc_rows_other rows t ∅ _ Hin) as Ho. fold s' in Ho. by rewrite Ho in Hx.
    + intros (r & -> & Hr)%list_elem_of_fmap. exact (Hl r Hr).
Qed.

(** C18: after a listing that asked the backend and succeeded, the listings of the
    same path while the snapshot is fresh change nothing and answer without the
    backend, in some order: the last row of each name.  When the names are
    distinct these are the rows of the first listing. *)
Theorem list_op_cached now now' raw c c' rows :
  fresh_snapshot now (Path.canonicalize_list_path raw) c = None ->
  list_op now raw c = (c', Ok rows) -> now <= now' < now + dir_cache_ttl cfg ->
  exists rows', list_op now' raw c' = (c', Ok rows') /\ rows' ≡ₚ last_rows rows /\
    (NoDup (map r_name rows) -> rows' ≡ₚ rows).
Proof.
  intros Hf E Ht. unfold list_op in E. rewrite Hf in E.
  destruct (read_listing _) as [rs|]; [|done].
  destruct (alloc_rows rs _ ∅) as [t s] eqn:Ea. simplify_eq.
  unfold list_op, fresh_snapshot. cbn [dir_cache set_dir_cache]. rewrite lookup_insert_eq.
  assert ((now' - now <? dir_cache_ttl cfg) = true) as -> by lia.
  pose proof (alloc_rows_snapshot rs (tbl c)) as Hp. cbv zeta in Hp. cbn [tbl set_dir_cache] in Ea.
  rewrite Ea in Hp. cbn [snd] in Hp. rewrite <-last_rows_with_ino in Hp.
  eexists. split_and!; [done|done|]. intros Hn. by rewrite Hp, last_rows_distinct.
Qed.

(** A listing that failed is not cached: the next one asks the backend again. *)
Theorem list_op_error_not_cached now now' raw c c' e :
  list_op now raw c = (c', Err e) ->
  fresh_snapshot now' (Path.canonicalize_list_path raw) c' = None /\
  attr_cache c' = attr_cache c /\ tbl c' = tbl c /\ e <> Errors.ONotFound.
Proof.
  unfold list_op. destruct (fresh_snapshot _ _ _); [done|].
  unfold read_listing. destruct (op_lister op _) as [items|e'].
  - destruct (alloc_rows _ _ _). done.
  - intros E. assert (e' <> Errors.ONotFound /\ c' = set_dir_cache (delete (Path.canonicalize_list_path raw) (dir_cache c)) c /\ e = e')
      as (Hne & -> & ->) by (destruct e'; try (by simplify_eq); destruct (alloc_rows _ _ _); done).
    split_and!; try done. unfold fresh_snapshot. cbn. by rewrite lookup_delete_eq.
Qed.

(** ** Surgical updates *)

(** Creating an entry in a directory whose snapshot is fresh: the next listing
    is the old one with that entry set; removing one takes exactly it out. *)
Theorem surgical_updates now now' parent name v c s :
  let key := Path.canonicalize_list_path parent in
  fresh_snapshot now' key c = Some s ->
  list_op now' parent (cache_add_entry now parent name v c) =
    (cache_add_entry now parent name v c, Ok (rows_of_snapshot (<[name := v]> s))) /\
  list_op now' parent (cache_remove_entry parent name c) =
    (cache_remove_entry parent name c, Ok (rows_of_snapshot (delete name s))).
Proof.
  cbv zeta. unfold fresh_snapshot. intros Hf.
  destruct (dir_cache c !! Path.canonicalize_list_path parent) as [[t s0]|] eqn:E; [|done].
  destruct (now' - t <? dir_cache_ttl cfg) eqn:Et; [|done]. simplify_eq.
  unfold cache_add_entry, cache_remove_entry. rewrite E.
  unfold list_op, fresh_snapshot. cbn. by rewrite !lookup_insert_eq, Et.
Qed.

(** Creating an entry in a directory that was not listed: the new entry alone
    is taken for the directory until the snapshot expires, whatever the
    backend holds. *)
Theorem cold_add_hides_entries now now' parent name v c :
  dir_cache c !! Path.canonicalize_list_path parent = None ->
  now <= now' < now + dir_cache_ttl cfg ->
  let c' := cache_add_entry now parent name v c in
  list_op now' parent c' = (c', Ok [mk_row name (v_mode v) (v_size v) (v_mtime v) (v_ino v)]).
Proof.
  intros E Ht. cbv zeta. unfold cache_add_entry. rewrite E. unfold list_op, fresh_snapshot. cbn.
  rewrite lookup_insert_eq. assert ((now' - now <? dir_cache_ttl cfg) = true) as -> by lia.
  unfold rows_of_snapshot. by rewrite map_to_list_singleton.
Qed.

(** ** The attribute cache after a listing *)

Lemma fill_attrs_other now path rows : forall a k,
  (forall r, r ∈ rows -> attr_key path (r_name r) <> k) -> fill_attrs now path rows a !! k = a !! k.
Proof.
  unfold fill_attrs. induction rows as [|r rest IH]; intros a k Hk; [done|]. cbn [foldl].
  rewrite IH by (intros r' Hr'; apply Hk; by right). rewrite lookup_insert_ne; [done|]. apply Hk. by left.
Qed.

Lemma strip_prefix_append p t : Str.strip_prefix p (p +:+ t) = Some t.
Proof.
  induction p as [|a p IH]; [done|]. rewrite Str.append_cons. cbn [Str.strip_prefix].
  by destruct (ascii_dec a a).
Qed.

Lemma append_inj p s t : p +:+ s = p +:+ t -> s = t.
Proof. intros E. pose proof (strip_prefix_append p s) as H. rewrite E, strip_prefix_append in H. by simplify_eq. Qed.

(** Listing a directory other than the root does not warm the attributes of
    its entries: they are stored under a path with two slashes. *)
Theorem listing_does_not_warm_stat now raw c c' rows name :
  Path.segments raw <> [] -> (forall n, name <> String Str.SLASH n) ->
  list_op now raw c = (c', Ok rows) ->
  attr_cache c' !! (Path.canonicalize_list_path raw +:+ name) =
  attr_cache c !! (Path.canonicalize_list_path raw +:+ name).
Proof.
  intros Hs Hn E. unfold list_op in E. destruct (fresh_snapshot _ _ _); [by simplify_eq|].
  destruct (read_listing _) as [rs|]; [|done]. destruct (alloc_rows rs _ ∅) as [t s]. simplify_eq.
  cbn [attr_cache set_dir_cache]. apply fill_attrs_other. intros r _ Ek. unfold attr_key in Ek.
  destruct (String.eqb_spec (Path.canonicalize_list_path raw) EmptyString) as [E0|_].
  - apply Hs. rewrite <-Path.segments_canonicalize, E0. done.
  - apply append_inj in Ek. by eapply Hn.
Qed.

(** ** Invalidation *)

Definition parent_key (path : string) : option string :=
  match removelast (Path.segments path) with
  | [] => None
  | segs => Some (Path.canonicalize_list_path (Path.path_of segs))
  end.

Lemma walk_up path :
  let without_slash := Str.trim_end Str.SLASH (Path.canonicalize_list_path path) in
  match Str.rfind Str.SLASH without_slash with
  | Some i => let parent_raw := Str.truncate i without_slash in
              if String.eqb parent_raw EmptyString then None
              else Some (Path.canonicalize_list_path parent_raw)
  | None => None
  end = parent_key path.
Proof.
  cbv zeta. unfold parent_key. pose proof (Path.segments_ok path) as Hok.
  assert (Hw : Str.trim_end Str.SLASH (Path.canonicalize_list_path path) = Path.path_of (Path.segments path)).
  { unfold Path.canonicalize_list_path. destruct (Path.segments path) as [|s segs] eqn:E; [done|].
    by apply (Path.trim_end_path (s :: segs) 1). }
  rewrite Hw. destruct (Path.segments path) as [|l segs _] using rev_ind; [done|]. clear Hw.
  rewrite removelast_last. apply Forall_app in Hok as [Hok Hl]. apply Forall_singleton in Hl as [Hl Hls].
  destruct segs as [|s segs].
  - cbn [app]. rewrite Path.rfind_free by done. done.
  - rewrite Path.path_of_snoc by done. rewrite Path.rfind_app by done. rewrite Path.truncate_app.
    apply Forall_cons in Hok as [[Hs _] _].
    assert (Path.path_of (s :: segs) <> EmptyString) as Hne%String.eqb_neq.
    { destruct segs; unfold Path.path_of; cbn; [done|]. by destruct s. }
    by rewrite Hne.
Qed.

(** A directory's listing, every listing below it and its parent's are
    dropped, and nothing else. *)
Theorem invalidate_dir_cache_spec path c k :
  dir_cache (invalidate_dir_cache path c) !! k =
  if starts_with (Path.canonicalize_list_path path) k || bool_decide (parent_key path = Some k)
  then None else dir_cache c !! k.
Proof.
  unfold invalidate_dir_cache. cbn [dir_cache set_dir_cache].
  set (canon := Path.canonicalize_list_path path).
  set (d := filter _ _).
  assert (Hd : d !! k = if starts_with canon k then None else dir_cache c !! k).
  { unfold d. rewrite map_lookup_filter. destruct (decide (k = canon)) as [->|Hk].
    - rewrite lookup_delete_eq. unfold starts_with. destruct (Str.strip_prefix canon canon) eqn:E; [done|].
      exfalso. rewrite <-(Str.append_nil_r canon) in E at 2. by rewrite strip_prefix_append in E.
    - rewrite lookup_delete_ne by done. destruct (dir_cache c !! k); [|by case_test].
      cbn -[starts_with]. case_guard as Hg; by destruct (starts_with canon k). }
  pose proof (walk_up path) as Hw. cbv zeta in Hw. fold canon in Hw.
  transitivity (match parent_key path with Some q => delete q d | None => d end !! k).
  - rewrite <-Hw. destruct (Str.rfind _ _); [|done]. by case_test.
  - destruct (parent_key path) as [q|].
    + destruct (decide (q = k)) as [->|Hq].
      * rewrite lookup_delete_eq, bool_decide_eq_true_2 by done. by rewrite orb_true_r.
      * rewrite lookup_delete_ne by done. rewrite bool_decide_eq_false_2 by congruence. by rewrite orb_false_r.
    + rewrite bool_decide_eq_false_2 by done. by rewrite orb_false_r.
Qed.

(** For an entry of the root the parent's listing is not dropped. *)
Theorem invalidate_keeps_root_listing path name c :
  Path.segments path = [name] ->
  dir_cache (invalidate_dir_cache path c) !! EmptyString = dir_cache c !! EmptyString.
Proof.
  intros E. rewrite invalidate_dir_cache_spec. unfold parent_key. rewrite E.
  unfold Path.canonicalize_list_path. rewrite E. cbn. destruct name; done.
Qed.

(** ** The attribute cache *)

(** An answer of the backend is served from the cache while it is fresh, and
    nothing is stored when there was none. *)
Theorem stat_op_cached now now' path c c' r :
  vfs_refresh cfg = false -> cached_stat now path c = None ->
  stat_op now path c = (c', r) -> now <= now' < now + stat_cache_ttl cfg ->
  match r with
  | Some st => stat_op now' path c' = (c', Some st)
  | None => c' = c
  end.
Proof.
  intros Hr Hc E Ht. unfold stat_op in E. rewrite Hc in E.
  destruct (backend_stat path) as [st|]; simplify_eq; [|done].
  unfold stat_op, cached_stat. rewrite Hr. cbn. rewrite lookup_insert_eq.
  by assert ((now' - now <? stat_cache_ttl cfg) = true) as -> by lia.
Qed.

End Operations.

(** ** A small mount *)
Definition cfg0 : config :=
  mk_config 300 5 false false true false None None None [] [] false false false false.
(** A backend with [x] at the root and [d/x], [7] and [9] bytes long. *)
Definition meta (n : Z) : bmeta := mk_bmeta FILE n (Some 100).
Definition op0 : backend := mk_backend
  (fun p => if String.eqb p "x" then Ok (meta 7) else if String.eqb p "d/x" then Ok (meta 9)
            else Err Errors.ONotFound)
  (fun p => if String.eqb p EmptyString then Ok [Some (mk_bentry "x" (meta 7))]
            else if String.eqb p "d/" then Ok [Some (mk_bentry "x" (meta 9))] else Err Errors.ONotFound).
Definition cold : caches := mk_caches empty_table ∅ ∅.
Definition warm (dir : string) : caches := fst (list_op cfg0 op0 (fun s => s) (fun s => s) 0 dir cold).

Lemma read_listing_spec_witness :
  read_listing cfg0 op0 (fun s => s) (fun s => s) "d/" = Ok [mk_row "x" FILE 9 100 None].
Proof. rewrite (read_listing_spec cfg0 op0 _ _ "d/" [Some (mk_bentry "x" (meta 9))]); by vm_compute. Defined.

Lemma list_op_cached_witness :
  exists rows, list_op cfg0 op0 (fun s => s) (fun s => s) 299 "d" (warm "d") = (warm "d", Ok rows) /\
    rows ≡ₚ [mk_row "x" FILE 9 100 (Some 2)].
Proof.
  destruct (list_op_cached cfg0 op0 (fun s => s) (fun s => s) 0 299 "d" cold (warm "d") [mk_row "x" FILE 9 100 (Some 2)])
    as (rows & H1 & H2 & _); [by vm_compute|by vm_compute|by vm_compute|]. by exists rows.
Defined.

(** An object [a] beside the prefix [a/]: the listing from the backend has two
    rows of the name [a], and the next one, from the snapshot, only the
    directory. *)
Theorem object_beside_prefix :
  let op := mk_backend (op_stat op0)
    (fun _ => Ok [Some (mk_bentry "a" (meta 7)); Some (mk_bentry "a/" (mk_bmeta DIR 0 None))]) in
  let '(c, r1) := list_op cfg0 op (fun s => s) (fun s => s) 0 EmptyString cold in
  match r1, snd (list_op cfg0 op (fun s => s) (fun s => s) 1 EmptyString c) with
  | Ok rows1, Ok rows2 =>
      map (fun r => (r_name r, r_mode r)) rows1 = [("a"%string, FILE); ("a"%string, DIR)] /\
      map (fun r => (r_name r, r_mode r)) rows2 = [("a"%string, DIR)]
  | _, _ => False
  end.
Proof. by vm_compute. Qed.

Lemma surgical_updates_witness :
  let c := cache_add_entry 5 "d" "new" (mk_value FILE 0 0 (Some 3)) (warm "d") in
  list_op cfg0 op0 (fun s => s) (fun s => s) 10 "d" c =
    (c, Ok [mk_row "new" FILE 0 0 (Some 3); mk_row "x" FILE 9 100 (Some 2)]) \/
  list_op cfg0 op0 (fun s => s) (fun s => s) 10 "d" c =
    (c, Ok [mk_row "x" FILE 9 100 (Some 2); mk_row "new" FILE 0 0 (Some 3)]).
Proof.
  intros c.
  destruct (surgical_updates cfg0 op0 (fun s => s) (fun s => s) 5 10 "d" "new" (mk_value FILE 0 0 (Some 3)) (warm "d")
              {["x"%string := mk_value FILE 9 100 (Some 2)]}) as [H _]; [by vm_compute|].
  fold c in H. rewrite H. (left; by vm_compute) || (right; by vm_compute).
Defined.

Lemma cold_add_hides_entries_witness :
  let c := cache_add_entry 0 "d" "new" (mk_value FILE 0 0 (Some 3)) cold in
  list_op cfg0 op0 (fun s => s) (fun s => s) 299 "d" c = (c, Ok [mk_row "new" FILE 0 0 (Some 3)]).
Proof. apply (cold_add_hides_entries cfg0 op0); by vm_compute. Defined.

End DirCache.

(** ** The single-flight protocol of [stat_op_async]

    The concurrent calls for one path, as interleavings of their atomic
    steps. A [Notify] is its number; [notify_waiters] wakes the calls that
    wait on it at that moment and leaves nothing for later ones. *)
Module SingleFlight.

Inductive pc :=
| Start                 (* before the first look at the cache *)
| Missed                (* the cache had nothing fresh *)
| Follower (n : nat)    (* has the leader's [Notify], does not wait yet *)
| Waiting (n : nat)
| Woken
| Statting              (* runs [op.stat] *)
| Finishing (ok : bool) (* the answer is stored, the entry still there *)
| Done (ok : bool).
#[export] Instance pc_eq_dec : EqDecision pc.
Proof. solve_decision. Defined.

Record state := mk_state {
  fresh : bool;             (* [attr_cache] has a fresh entry *)
  inflight : option nat;    (* [stat_inflight] *)
  next_notify : nat;
  calls : list pc;
  stats : Z                 (* backend stats so far *)
}.
Definition init (n : nat) : state := mk_state false None 0 (replicate n Start) 0.
Definition set_pc (i : nat) (p : pc) (s : state) : state :=
  mk_state (fresh s) (inflight s) (next_notify s) (<[i := p]> (calls s)) (stats s).
Definition wake (n : nat) (p : pc) : pc := if bool_decide (p = Waiting n) then Woken else p.

(** One step of call [i]; [ok] is the backend's answer where one is due. *)
Definition step (s : state) (a : nat * bool) : state :=
  let '(i, ok) := a in
  match calls s !! i with
  | Some Start => set_pc i (if fresh s then Done true else Missed) s
  | Some Missed =>
      match inflight s with
      | None =>
          mk_state (fresh s) (Some (next_notify s)) (S (next_notify s)) (<[i := Statting]> (calls s)) (stats s)
      | Some n => set_pc i (Follower n) s
      end
  | Some (Follower n) => set_pc i (Waiting n) s
  | Some Woken =>
      if fresh s then set_pc i (Done true) s
      else mk_state (fresh s) None (next_notify s) (<[i := Statting]> (calls s)) (stats s)
  | Some Statting =>
      mk_state (fresh s || ok) (inflight s) (next_notify s) (<[i := Finishing ok]> (calls s)) (stats s + 1)
  | Some (Finishing ok) =>
      let calls' := match inflight s with Some n => map (wake n) (calls s) | None => calls s end in
      mk_state (fresh s) None (next_notify s) (<[i := Done ok]> calls') (stats s)
  | _ => s
  end.
Definition run (s : state) (tr : list (nat * bool)) : state := foldl step s tr.

(** A call waits on a [Notify] that has left the map. *)
Definition lost (i : nat) (s : state) : Prop :=
  exists n, calls s !! i = Some (Waiting n) /\ inflight s <> Some n /\ (n < next_notify s)%nat.

Lemma lost_step i s a : lost i s -> lost i (step s a).
Proof.
  intros (n & Hi & Hf & Hn). destruct a as [j ok]. unfold step.
  destruct (calls s !! j) as [p|] eqn:Hj; [|by exists n].
  assert (Hne : p <> Waiting n -> j <> i) by (intros Hp ->; congruence).
  assert (Hset : forall (q : pc) (l : list pc), p <> Waiting n -> l !! i = Some (Waiting n) -> <[j := q]> l !! i = Some (Waiting n)).
  { intros q l Hp Hl. by rewrite list_lookup_insert_ne by auto. }
  destruct p as [| |m|m| | |b|b]; try (by exists n).
  - exists n. cbn. split_and!; auto.
  - destruct (inflight s) as [m|] eqn:E.
    + exists n. cbn. rewrite E. split_and!; auto.
    + exists n. cbn. split_and!; [auto|intros [= E2]; lia|lia].
  - exists n. cbn. split_and!; auto.
  - destruct (fresh s); exists n; cbn; split_and!; auto.
  - exists n. cbn. split_and!; auto.
  - exists n. cbn. split_and!; [|done|done]. apply Hset; [done|].
    destruct (inflight s) as [m|]; [|done]. rewrite list_lookup_fmap, Hi. cbn. unfold wake.
    rewrite bool_decide_eq_false_2; [done|]. intros [= ->]. done.
Qed.

(** A call that asked for the leader's [Notify] just before the leader
    finished and began to wait just after waits for ever: no later step of
    any call wakes it. *)
Theorem follower_waits_for_ever tr :
  let s := run (init 2) ([(0, true); (0, true); (1, true); (1, true); (0, true); (0, true); (1, true)]%nat ++ tr) in
  exists n, calls s !! 1%nat = Some (Waiting n).
Proof.
  cbv zeta. unfold run. rewrite foldl_app. set (s0 := foldl step (init 2) _).
  assert (H0 : lost 1 s0) by (exists 0%nat; split_and!; vm_compute; (done || lia)).
  clearbody s0. revert s0 H0. induction tr as [|a tr IH]; intros s0 (n & Hn & H1).
  - by exists n.
  - apply IH, lost_step. by exists n.
Qed.

(** A call that waits before the leader finishes is woken by it. *)
Theorem finish_wakes_waiters s i j n b ok :
  calls s !! i = Some (Finishing b) -> inflight s = Some n -> calls s !! j = Some (Waiting n) ->
  calls (step s (i, ok)) !! j = Some Woken.
Proof.
  intros Hi Hf Hj. unfold step. rewrite Hi, Hf. cbn.
  rewrite list_lookup_insert_ne by congruence. rewrite list_lookup_fmap, Hj. cbn. unfold wake.
  by rewrite bool_decide_eq_true_2.
Qed.

Lemma finish_wakes_waiters_witness :
  calls (step (mk_state true (Some 0%nat) 1 [Finishing true; Waiting 0] 1) (0%nat, true)) !! 1%nat = Some Woken.
Proof. by apply (finish_wakes_waiters _ 0 1 0 true). Defined.

(** ** One stat at a time, while the backend answers *)
Definition busy (p : pc) : nat := match p with Statting | Finishing _ => 1 | _ => 0 end.
Definition busy_calls (s : state) : nat := sum_list_with busy (calls s).
Definition calm (s : state) : Prop :=
  busy_calls s = match inflight s with Some _ => 1%nat | None => 0%nat end /\
  (forall i, calls s !! i = Some Woken -> fresh s = true) /\
  (forall i b, calls s !! i = Some (Finishing b) -> fresh s = true).

Lemma busy_insert l i (p q : pc) : l !! i = Some p ->
  (sum_list_with busy (<[i := q]> l) + busy p = sum_list_with busy l + busy q)%nat.
Proof.
  revert i. induction l as [|x l IH]; intros [|i] H; [done|done| |].
  - cbn in H. simplify_eq. change (<[0%nat := q]> (p :: l)) with (q :: l). cbn [sum_list_with]. lia.
  - change (<[S i := q]> (x :: l)) with (x :: <[i := q]> l). cbn [sum_list_with]. specialize (IH i H). lia.
Qed.

Lemma busy_wake n l : sum_list_with busy (map (wake n) l) = sum_list_with busy l.
Proof.
  induction l as [|x l IH]; [done|]. cbn. rewrite IH. unfold wake.
  by case_bool_decide; subst.
Qed.

Lemma lookup_set (l : list pc) i j (p q : pc) :
  <[i := p]> l !! j = Some q -> q = p \/ l !! j = Some q.
Proof. intros H. apply list_lookup_insert_Some in H as [(-> & -> & _)|[_ H]]; auto. Qed.

Lemma busy_pos (l : list pc) i p : l !! i = Some p -> (busy p <= sum_list_with busy l)%nat.
Proof. intros H. pose proof (busy_insert l i p (Done true) H). cbn in *. lia. Qed.

Lemma calm_set s i p q f : calm s -> calls s !! i = Some p -> busy p = busy q ->
  (q = Woken \/ (exists b, q = Finishing b) -> f = true) -> (fresh s = true -> f = true) ->
  calm (mk_state f (inflight s) (next_notify s) (<[i := q]> (calls s)) (stats s)).
Proof.
  intros (H1 & H2 & H3) Hi Hb Hq Hf. unfold calm, busy_calls in *. cbn.
  pose proof (busy_insert _ _ _ q Hi). split_and!; [lia| |].
  - intros j [<-|Hj]%lookup_set; [auto|]. eauto.
  - intros j b [<-|Hj]%lookup_set; [eauto|]. eauto.
Qed.

Lemma calm_step s i : calm s -> calm (step s (i, true)).
Proof.
  intros Hc. pose proof Hc as (H1 & H2 & H3). unfold step.
  destruct (calls s !! i) as [p|] eqn:Hi; [|done]. pose proof (busy_pos _ _ _ Hi) as Hb.
  unfold busy_calls in *. pose proof (fun q => busy_insert _ i p q Hi) as Hins.
  destruct p as [| |m|m| | |b|b]; try done.
  - apply (calm_set _ _ _ _ _ Hc Hi); [by destruct (fresh s)| |done].
    intros [H|[b H]]; by destruct (fresh s).
  - destruct (inflight s) as [m|] eqn:E.
    + apply (calm_set _ _ _ _ _ Hc Hi); [done| |done]. by intros [?|[? ?]].
    + unfold calm, busy_calls. cbn. specialize (Hins Statting). cbn in Hins. split_and!; [lia| |].
      * intros j [?|Hj]%lookup_set; [done|eauto].
      * intros j b [?|Hj]%lookup_set; [done|eauto].
  - apply (calm_set _ _ _ _ _ Hc Hi); [done| |done]. by intros [?|[? ?]].
  - rewrite (H2 _ Hi). apply (calm_set _ _ _ _ _ Hc Hi); [done| |done]. by intros [?|[? ?]].
  - unfold calm, busy_calls. cbn. rewrite orb_true_r. specialize (Hins (Finishing true)). cbn in Hins.
    split_and!; [lia|done|done].
  - cbn in Hb. destruct (inflight s) as [m|]; [|lia].
    assert (Hw : forall j q, map (wake m) (calls s) !! j = Some q -> q = Woken \/ calls s !! j = Some q).
    { intros j q. rewrite list_lookup_fmap. destruct (calls s !! j); [|done]. cbn. unfold wake.
      case_bool_decide; intros [= <-]; auto. }
    assert (Hi' : map (wake m) (calls s) !! i = Some (Finishing b)) by (by rewrite list_lookup_fmap, Hi).
    pose proof (busy_insert _ i _ (Done b) Hi') as Hd. rewrite busy_wake in Hd. cbn in Hd.
    unfold calm, busy_calls. cbn. split_and!; [lia| |].
    + intros j _. eauto.
    + intros j b' _. eauto.
Qed.

(** While the backend answers, one stat of the path runs at a time. *)
Theorem one_stat_at_a_time n tr :
  Forall (fun a : nat * bool => snd a = true) tr -> (busy_calls (run (init n) tr) <= 1)%nat.
Proof.
  intros Ht. assert (H : calm (run (init n) tr)).
  { unfold run. assert (Hi : calm (init n)).
    { unfold calm, busy_calls, init. cbn. split_and!.
      - induction n; [done|]. done.
      - intros i [? _]%lookup_replicate. done.
      - intros i b [? _]%lookup_replicate. done. }
    revert Hi. generalize (init n). induction Ht as [|[i b] tr Hb Ht IH]; intros s Hs; [done|].
    cbn in Hb. subst. cbn [foldl]. by apply IH, calm_step. }
  destruct H as [-> _]. destruct (inflight _); lia.
Qed.

Lemma one_stat_at_a_time_witness :
  (busy_calls (run (init 3) [(0, true); (1, true); (0, true); (1, true)]%nat) <= 1)%nat.
Proof. apply one_stat_at_a_time. by repeat constructor. Defined.

(** After a failed stat the woken calls all ask the backend at once. *)
Theorem failed_leader_stampede :
  busy_calls (run (init 3)
    [(0, true); (0, true); (1, true); (2, true); (1, true); (2, true); (1, true); (2, true);
     (0, false); (0, true); (1, true); (2, true)]%nat) = 2%nat.
Proof. by vm_compute. Qed.

End SingleFlight.
