(* ===== verification/Lookup.v ===== *)
(** Names to attributes (src/src/lib.rs): the symlink table and its
    case-insensitive index, [lookup], the batched lookup of readdirplus,
    [getattr] and [setattr]. *)
From Stdlib Require Import ZArith Lia Strings.Byte Strings.String Strings.Ascii.
From S2P Require Import Prelude Util BlockFormat Utf8 Inodes Errors DirCache.

Module Lookup.
Import Inodes DirCache.

(** ** Attributes *)
Record CoreFileAttr := mk_attr {
  a_ino : Z; a_size : Z; a_blocks : Z; a_mtime : Z; a_kind : FileType;
  a_perm : Z; a_nlink : Z; a_uid : Z; a_gid : Z
}.
Record attr_config := mk_attr_config {
  dir_perms : Z; file_perms : Z; umask : option Z; uid : option Z; gid : option Z
}.
Definition make_attr (ac : attr_config) (ino size : Z) (kind : FileType) (mtime : Z) : CoreFileAttr :=
  let base_perm := if bool_decide (kind = Directory) then dir_perms ac else file_perms ac in
  let perm := match umask ac with
              | Some m => Z.land base_perm (Z.lnot (m mod 2 ^ 16) mod 2 ^ 16)
              | None => base_perm
              end in
  mk_attr ino size ((size + 4095) / 4096) mtime kind perm
    (if bool_decide (kind = Directory) then 2 else 1) (default 1000 (uid ac)) (default 1000 (gid ac)).

(** ** State *)
(** [buffers]: the write buffer files by name, with length and modification
    time; [write_fds]: the buffer file a write handle has open; [dropped]: the
    invalidations of the block caches. *)
Record fs := mk_fs {
  cs : caches;
  delete_tombstones : gset string;
  symlinks : gmap string string;
  symlinks_lower : gmap string string;
  symlink_scan_count : Z;
  buffers : gmap string (Z * Z);
  write_fds : gmap Z string;
  dropped : list (string * Z)
}.
Definition set_cs c (s : fs) :=
  mk_fs c (delete_tombstones s) (symlinks s) (symlinks_lower s) (symlink_scan_count s) (buffers s)
    (write_fds s) (dropped s).
Definition set_links l low n (s : fs) :=
  mk_fs (cs s) (delete_tombstones s) l low n (buffers s) (write_fds s) (dropped s).
Definition set_buffers b (s : fs) :=
  mk_fs (cs s) (delete_tombstones s) (symlinks s) (symlinks_lower s) (symlink_scan_count s) b
    (write_fds s) (dropped s).
Definition set_dropped d (s : fs) :=
  mk_fs (cs s) (delete_tombstones s) (symlinks s) (symlinks_lower s) (symlink_scan_count s) (buffers s)
    (write_fds s) d.
Definition table_of (s : fs) : table := tbl (cs s).
Definition set_table t (s : fs) := set_cs (set_tbl t (cs s)) s.
Definition path_of_ino (s : fs) (ino : Z) : string :=
  match resolve (table_of s) ino with Some e => path e | None => EmptyString end.

Definition not_found : Errors.io_Error := Errors.io_new Errors.NotFound.
Definition enoent : Errors.io_Error := Errors.mk_io Errors.NotFound (Some Errors.ENOENT).

Section Operations.
Context (cfg : config) (ac : attr_config) (op : backend) (salt : Z).
(** [str::to_lowercase]. *)
Context (lower : string -> string).

(** [std::fs::metadata(write_buffer_path(..))]. *)
Definition buffer_meta (s : fs) (p : string) : option (Z * Z) :=
  buffers s !! PathHash.write_buffer_path salt p.
Definition buffer_len (s : fs) (p : string) : Z := match buffer_meta s p with Some (n, _) => n | None => 0 end.

(** ** Symlinks *)
Definition symlink_attr (now ino : Z) (target : string) : CoreFileAttr :=
  make_attr ac ino (Z.of_nat (String.length target)) Symlink now.

(** The scan of [symlinks] both look-ups fall back to. *)
Definition scan_symlinks (target_lower : string) (s : fs) : option (string * string) :=
  List.find (fun kv => String.eqb (lower (fst kv)) target_lower) (map_to_list (symlinks s)).
Definition index_found (target_lower canonical : string) (s : fs) : fs :=
  set_links (symlinks s) (<[target_lower := canonical]> (symlinks_lower s)) (wrap64 (symlink_scan_count s + 1)) s.
Definition lookup_symlink_key_case_insensitive (full_path : string) (s : fs) : fs * option string :=
  if bool_decide (symlinks s = ∅) then (s, None)
  else
    let target_lower := lower full_path in
    match symlinks_lower s !! target_lower with
    | Some canonical => (s, Some canonical)
    | None =>
        match scan_symlinks target_lower s with
        | Some (canonical, _) => (index_found target_lower canonical s, Some canonical)
        | None => (s, None)
        end
    end.
Definition lookup_symlink_entry_case_insensitive (full_path : string) (s : fs) : fs * option (string * string) :=
  if bool_decide (symlinks s = ∅) then (s, None)
  else
    let target_lower := lower full_path in
    let indexed := canonical ← symlinks_lower s !! target_lower;
                   target ← symlinks s !! canonical; Some (canonical, target) in
    match indexed with
    | Some e => (s, Some e)
    | None =>
        match scan_symlinks target_lower s with
        | Some (canonical, target) => (index_found target_lower canonical s, Some (canonical, target))
        | None => (s, None)
        end
    end.

(** ** Paths *)
Definition child_path (parent_path name : string) : string :=
  if String.eqb parent_path EmptyString then name else parent_path +:+ String Str.SLASH name.
(** One leading slash of the name is dropped under the root. *)
Definition root_name (parent_path name : string) : string :=
  match name with
  | String a rest => if String.eqb parent_path EmptyString && Ascii.eqb a Str.SLASH then rest else name
  | EmptyString => name
  end.
(** [Path::parent] and [Path::file_name]. *)
Definition path_parent (p : string) : string :=
  let p := Str.trim_end Str.SLASH p in
  match Str.rfind Str.SLASH p with Some i => Str.truncate i p | None => EmptyString end.
Definition path_file_name (p : string) : string :=
  let p := Str.trim_end Str.SLASH p in
  let base := match Str.rfind Str.SLASH p with
              | Some i => String.substring (S i) (String.length p) p | None => p end in
  if String.eqb base ".." then EmptyString else base.

(** [symlink], [readlink]. *)
Definition symlink (now parent : Z) (name target : string) (s : fs) : fs * result CoreFileAttr Errors.io_Error :=
  let parent_path := path_of_ino s parent in
  let full_path := child_path parent_path (root_name parent_path name) in
  match symlinks s !! full_path with
  | Some _ => (s, Err (Errors.io_new Errors.AlreadyExists))
  | None =>
      let s := set_links (<[full_path := target]> (symlinks s))
                 (<[lower full_path := full_path]> (symlinks_lower s)) (symlink_scan_count s) s in
      let '(t, ino) := alloc_ino full_path Symlink (Z.of_nat (String.length target)) (table_of s) in
      (set_table (bump_lookup_count ino t) s, Ok (symlink_attr now ino target))
  end.
Definition readlink (ino : Z) (s : fs) : result string Errors.io_Error :=
  match resolve (table_of s) ino with
  | None => Err not_found
  | Some e =>
      match symlinks s !! path e with
      | Some target => Ok target
      | None => Err (Errors.io_new Errors.InvalidInput)
      end
  end.
(** [attach_symlink_to_ino]. *)
Definition attach_symlink_to_ino (now ino : Z) (target : string) (s : fs) : fs * result CoreFileAttr Errors.io_Error :=
  match resolve (table_of s) ino with
  | None => (s, Err not_found)
  | Some e =>
      match kind e with
      | Symlink => (s, Err (Errors.io_new Errors.AlreadyExists))
      | Directory => (s, Err (Errors.io_new Errors.InvalidInput))
      | RegularFile =>
          let s := set_links (<[path e := target]> (symlinks s))
                     (<[lower (path e) := path e]> (symlinks_lower s)) (symlink_scan_count s) s in
          let t := set_inodes (alter (fun v => mk_inode (path v) Symlink (Z.of_nat (String.length target)) (mtime v))
                                 ino (inodes (table_of s))) (table_of s) in
          (set_table (bump_lookup_count ino t) s, Ok (symlink_attr now ino target))
      end
  end.

(** ** [lookup] *)
(** The inode of a path, allocated if there is none, with its count bumped. *)
Definition ino_for (p : string) (k : FileType) (size mt : Z) (s : fs) : fs * Z :=
  let '(t, found) := find_ino_by_path p (table_of s) in
  let '(t, ino) := match found with
                   | Some ino => (t, ino)
                   | None => alloc_ino_with_mtime p k size mt t
                   end in
  (set_table t s, ino).
Definition bump (ino : Z) (s : fs) : fs := set_table (bump_lookup_count ino (table_of s)) s.

Definition cached_entry (s : fs) (parent_path name : string) : option DirEntryCacheValue :=
  match dir_cache (cs s) !! Path.canonicalize_list_path parent_path with
  | Some (_, snap) => snap !! name
  | None => None
  end.
(** The size of a cached entry: a buffer not yet uploaded can be longer. *)
Definition entry_size (s : fs) (p : string) (k : FileType) (size : Z) : Z :=
  if bool_decide (k = Directory) then 0 else Z.max size (buffer_len s p).

(** The stat answered: the parent's listing is dropped when it lacks the name. *)
Definition drop_stale_parent (full_path : string) (s : fs) : fs :=
  let basename := path_file_name full_path in
  if String.eqb basename EmptyString then s
  else set_cs (fst (dir_cache_invalidate_if_stale (path_parent full_path) basename (cs s))) s.
(** Kind, size and time of a name the listing cache does not have. *)
Definition resolve_name (now : Z) (parent_path name full_path : string) (s : fs)
    : fs * option (FileType * Z * option Z) :=
  let '(c, st) := stat_op cfg op now full_path (cs s) in
  let s := set_cs c s in
  match st with
  | Some st =>
      (drop_stale_parent full_path s,
       Some (s_kind st, Z.max (s_size st) (buffer_len s full_path), s_mtime st))
  | None =>
      match cached_entry s parent_path name with
      | Some v =>
          let k := kind_of (v_mode v) in
          (s, Some (k, entry_size s full_path k (v_size v), Some (v_mtime v)))
      | None =>
          (s, match buffer_meta s full_path with
              | Some (len, mt) => Some (RegularFile, len, Some mt)
              | None => None
              end)
      end
  end.
Definition lookup (now parent : Z) (name : string) (s : fs) : fs * result CoreFileAttr Errors.io_Error :=
  if String.eqb name "." || String.eqb name ".." then
    let p := if String.eqb name "." then parent else 1 in
    (bump p s, Ok (make_attr ac p 4096 Directory UNIX_EPOCH))
  else
    let parent_path := path_of_ino s parent in
    let name := root_name parent_path name in
    let full_path := child_path parent_path name in
    if bool_decide (full_path ∈ delete_tombstones s) then (s, Err enoent)
    else
      let '(s, link) := lookup_symlink_entry_case_insensitive full_path s in
      match link with
      | Some (stored, target) =>
          let '(t, ino) := alloc_ino stored Symlink (Z.of_nat (String.length target)) (table_of s) in
          (bump ino (set_table t s), Ok (symlink_attr now ino target))
      | None =>
          match cached_entry s parent_path name with
          | Some v =>
              let k := kind_of (v_mode v) in
              let size := entry_size s full_path k (v_size v) in
              let '(s, ino) := ino_for full_path k size (v_mtime v) s in
              (bump ino s, Ok (make_attr ac ino size k (v_mtime v)))
          | None =>
              let '(s, found) := resolve_name now parent_path name full_path s in
              match found with
              | None => (s, Err not_found)
              | Some (k, size, mt) =>
                  let '(s, ino) := ino_for full_path k size (default now mt) s in
                  (bump ino s, Ok (make_attr ac ino size k (default UNIX_EPOCH mt)))
              end
          end
      end.

(** ** The batched look-up *)
(** The first pass over one name: an answer, or nothing on a snapshot miss. *)
Definition batch_one (now parent : Z) (parent_path : string) (snap : option snapshot) (name : string) (s : fs)
    : fs * option CoreFileAttr :=
  if String.eqb name "." || String.eqb name ".." then
    (s, Some (make_attr ac (if String.eqb name "." then parent else 1) 4096 Directory UNIX_EPOCH))
  else
    let full_path := parent_path +:+ String Str.SLASH name in
    match snap ≫= (fun m => m !! name) with
    | None => (s, None)
    | Some v =>
        let '(s, link) := lookup_symlink_key_case_insensitive full_path s in
        match link with
        | Some stored =>
            let target := default EmptyString (symlinks s !! stored) in
            let '(t, ino) := alloc_ino stored Symlink (Z.of_nat (String.length target)) (table_of s) in
            (set_table t s, Some (symlink_attr now ino target))
        | None =>
            let k := kind_of (v_mode v) in
            let '(t, ino) := alloc_ino_with_mtime full_path k (v_size v) (v_mtime v) (table_of s) in
            (set_table t s, Some (make_attr ac ino (v_size v) k (v_mtime v)))
        end
    end.
Abbreviation slots := (list (option (result CoreFileAttr Errors.io_Error))).
Fixpoint batch_pass (now parent : Z) (parent_path : string) (snap : option snapshot)
    (idx : nat) (names : list string) (s : fs) : fs * slots * list (nat * string) :=
  match names with
  | [] => (s, [], [])
  | name :: rest =>
      let '(s, r) := batch_one now parent parent_path snap name s in
      let '(s, out, miss) := batch_pass now parent parent_path snap (S idx) rest s in
      match r with
      | Some a => (s, Some (Ok a) :: out, miss)
      | None => (s, None :: out, (idx, name) :: miss)
      end
  end.
(** The misses, in the order their futures complete. *)
Fixpoint batch_misses (now parent : Z) (miss : list (nat * string)) (s : fs) (out : slots) : fs * slots :=
  match miss with
  | [] => (s, out)
  | (idx, name) :: rest =>
      let '(s, r) := lookup now parent name s in
      batch_misses now parent rest s (<[idx := Some r]> out)
  end.
(** [None]: a slot stayed empty, which panics. [order] is the completion order
    of the unordered stream. *)
Definition batch_lookup_from_dir_cache (order : list (nat * string) -> list (nat * string))
    (now parent : Z) (names : list string) (s : fs)
    : fs * option (list (result CoreFileAttr Errors.io_Error)) :=
  let parent_path := path_of_ino s parent in
  let snap := snd <$> dir_cache (cs s) !! Path.canonicalize_list_path parent_path in
  let '(s, out, miss) := batch_pass now parent parent_path snap 0 names s in
  let '(s, out) := batch_misses now parent (order miss) s out in
  (s, mapM id out).

(** ** [getattr] *)
Definition getattr (now ino : Z) (s : fs) : fs * result CoreFileAttr Errors.io_Error :=
  if ino =? 1 then (s, Ok (make_attr ac 1 4096 Directory UNIX_EPOCH))
  else match resolve (table_of s) ino with
  | None => (s, Err not_found)
  | Some e =>
      if bool_decide (kind e = Symlink) then
        (s, match symlinks s !! path e with
            | Some target => Ok (symlink_attr now ino target)
            | None => Err (Errors.io_new Errors.InvalidInput)
            end)
      else if bool_decide (path e ∈ delete_tombstones s) then (s, Err enoent)
      else match mtime e with
      | Some mt => (s, Ok (make_attr ac ino (Z.max (size e) (buffer_len s (path e))) (kind e) mt))
      | None =>
          let '(c, st) := stat_op cfg op now (path e) (cs s) in
          let st := default (mk_stat (kind e) (size e) None) st in
          let sz := Z.max (Z.max (size e) (s_size st)) (buffer_len s (path e)) in
          (set_cs c s, Ok (make_attr ac ino sz (kind e) (default UNIX_EPOCH (s_mtime st))))
      end
  end.

(** ** [setattr] *)
(** [fd_ok], [path_ok]: whether [set_len] on the handle's descriptor, or on the
    reopened file, succeeds. *)
Definition set_len (name : string) (n : Z) (b : gmap string (Z * Z)) : gmap string (Z * Z) :=
  alter (fun lm => (n, snd lm)) name b.
Definition truncate_buffer (fd_ok path_ok : bool) (fh n : Z) (p : string) (s : fs) : fs :=
  let by_fd := match write_fds s !! fh with Some f => if fd_ok then Some f else None | None => None end in
  match by_fd with
  | Some f => set_buffers (set_len f n (buffers s)) s
  | None => if path_ok then set_buffers (set_len (PathHash.write_buffer_path salt p) n (buffers s)) s else s
  end.
Definition set_inode (ino : Z) (f : InodeEntry -> InodeEntry) (s : fs) : fs :=
  set_table (set_inodes (alter f ino (inodes (table_of s))) (table_of s)) s.
Definition setattr (fd_ok path_ok : bool) (now ino : Z) (size mt fh : option Z) (s : fs)
    : fs * result CoreFileAttr Errors.io_Error :=
  match resolve (table_of s) ino with
  | None => (s, Err not_found)
  | Some e =>
      let s := match size, fh with
               | Some n, Some h =>
                   truncate_buffer fd_ok path_ok h n (path e)
                     (set_inode ino (fun v => mk_inode (path v) (kind v) n (mtime v)) s)
               | _, _ => s
               end in
      let s := match size with Some _ => set_dropped (dropped s ++ [(path e, ino)]) s | None => s end in
      let current := Inodes.size <$> resolve (table_of s) ino in
      let reported := match size, fh with
                      | Some n, Some _ => n
                      | Some n, None => Z.max (default n current) n
                      | None, _ => default 0 current
                      end in
      let effective := default now (match mt with Some _ => mt | None => resolve (table_of s) ino ≫= mtime end) in
      let s := match mt with
               | Some m => set_inode ino (fun v => mk_inode (path v) (kind v) (Inodes.size v) (Some m)) s
               | None => s
               end in
      (s, Ok (make_attr ac ino reported (kind e) effective))
  end.

(** ** The symlink index *)

(** The index maps the lower case of a stored path to that path. *)
Definition index_ok (s : fs) : Prop :=
  forall l k, symlinks_lower s !! l = Some k -> lower k = l /\ is_Some (symlinks s !! k).

Lemma scan_symlinks_spec l s :
  match scan_symlinks l s with
  | Some (k, target) => symlinks s !! k = Some target /\ lower k = l
  | None => forall k target, symlinks s !! k = Some target -> lower k <> l
  end.
Proof.
  unfold scan_symlinks. destruct (List.find _ _) as [[k target]|] eqn:E.
  - apply find_some in E as [Hin Hk]. apply list_elem_of_In, elem_of_map_to_list in Hin.
    split; [done|]. by apply String.eqb_eq in Hk.
  - intros k target Hk Hl. apply elem_of_map_to_list, list_elem_of_In in Hk.
    pose proof (find_none _ _ E _ Hk) as Hf. cbn in Hf. by apply String.eqb_neq in Hf.
Qed.

Lemma index_ok_found s l k target : index_ok s -> symlinks s !! k = Some target -> lower k = l ->
  index_ok (index_found l k s).
Proof.
  intros Hok Hk Hl l' k'. unfold index_found. cbn.
  intros [[<- <-]|[_ H]]%lookup_insert_Some; [split; [done|by eexists]|by apply Hok].
Qed.

(** A look-up that ignores case finds a link with that spelling whenever there
    is one, and keeps the index right. *)
Theorem symlink_lookup_spec full s : index_ok s ->
  let '(s', r) := lookup_symlink_entry_case_insensitive full s in
  index_ok s' /\ symlinks s' = symlinks s /\ cs s' = cs s /\
  match r with
  | Some (k, target) => symlinks s !! k = Some target /\ lower k = lower full
  | None => forall k target, symlinks s !! k = Some target -> lower k <> lower full
  end.
Proof.
  intros Hok. unfold lookup_symlink_entry_case_insensitive. case_bool_decide as He.
  { split_and!; try done. intros k target. by rewrite He, lookup_empty. }
  destruct (canonical ← symlinks_lower s !! lower full; _) as [[k target]|] eqn:Ei.
  - apply bind_Some in Ei as (c & Hc & Ei). apply bind_Some in Ei as (t & Ht & [= <- <-]).
    split_and!; try done. by destruct (Hok _ _ Hc).
  - pose proof (scan_symlinks_spec (lower full) s) as Hs.
    destruct (scan_symlinks (lower full) s) as [[k target]|]; [|by split_and!].
    destruct Hs as [Hk Hl]. split_and!; try done. by eapply index_ok_found.
Qed.

(** ** The inode a look-up answers with *)

Lemma alloc_path mt p k sz t b : wf b t ->
  exists e, inodes (fst (alloc mt p k sz t)) !! snd (alloc mt p k sz t) = Some e /\ path e = p.
Proof.
  intros Hw. destruct (alloc_cases mt p k sz t b Hw) as [(i & e & -> & Hp & He)|(_ & _ & ->)]; cbn.
  - exists e. split; [done|]. by eapply wf_reverse.
  - exists (mk_inode p k sz mt). by rewrite lookup_insert_eq.
Qed.

Lemma ino_for_path p k size mt s b : wf b (table_of s) ->
  exists e, resolve (table_of (fst (ino_for p k size mt s))) (snd (ino_for p k size mt s)) = Some e /\ path e = p.
Proof.
  intros Hw. unfold ino_for. pose proof (find_cases p (table_of s)) as Hf.
  pose proof (wf_find p _ _ Hw) as Hw'. destruct (find_ino_by_path p (table_of s)) as [t r].
  destruct Hf as (Hi & _ & _ & Hr). destruct r as [i|].
  - destruct Hr as [(e & He & Hp) _]. exists e. cbn. unfold resolve. by rewrite Hi.
  - destruct (alloc_path (Some mt) p k size t b Hw') as (e & He & Hp).
    unfold alloc_ino_with_mtime. destruct (alloc (Some mt) p k size t) as [t' ino]. by exists e.
Qed.

Lemma bump_inodes ino t : inodes (bump_lookup_count ino t) = inodes t.
Proof. unfold bump_lookup_count. by case_test. Qed.

Lemma stat_op_table now p c : tbl (fst (stat_op cfg op now p c)) = tbl c.
Proof. unfold stat_op. destruct (cached_stat _ _ _ _); [done|]. by destruct (backend_stat _ _ _). Qed.

Lemma drop_stale_table p s : table_of (drop_stale_parent p s) = table_of s.
Proof.
  unfold drop_stale_parent. case_test; [done|]. unfold dir_cache_invalidate_if_stale.
  destruct (dir_cache _ !! _) as [[]|]; [|done]. by destruct (_ !! path_file_name p).
Qed.

Lemma resolve_name_table now pp name full s :
  table_of (fst (resolve_name now pp name full s)) = table_of s.
Proof.
  unfold resolve_name. pose proof (stat_op_table now full (cs s)) as Ht.
  destruct (stat_op cfg op now full (cs s)) as [c st]. cbn in Ht.
  destruct st; [cbn; rewrite drop_stale_table; done|]. by destruct (cached_entry _ _ _).
Qed.

(** The inode of a path that has one is found again. *)
Lemma ino_for_known p k sz mt s i e : path_to_ino (table_of s) !! p = Some i ->
  inodes (table_of s) !! i = Some e -> path e = p -> ino_for p k sz mt s = (set_table (table_of s) s, i).
Proof.
  intros Hp Hi He. unfold ino_for, find_ino_by_path. rewrite Hp, Hi. by rewrite bool_decide_true.
Qed.

Lemma no_symlinks full s : symlinks s = ∅ ->
  lookup_symlink_entry_case_insensitive full s = (s, None) /\ lookup_symlink_key_case_insensitive full s = (s, None).
Proof.
  intros Hl. unfold lookup_symlink_entry_case_insensitive, lookup_symlink_key_case_insensitive.
  by rewrite Hl, bool_decide_true.
Qed.

Lemma not_dots name : name <> "."%string -> name <> ".."%string ->
  String.eqb name "." || String.eqb name ".." = false.
Proof. intros H1 H2. by destruct (String.eqb_spec name "."), (String.eqb_spec name ".."). Qed.

Lemma lookup_known_inode now parent name s s' a i e :
  let pp := path_of_ino s parent in
  let full := child_path pp (root_name pp name) in
  symlinks s = ∅ -> name <> "."%string -> name <> ".."%string ->
  path_to_ino (table_of s) !! full = Some i -> inodes (table_of s) !! i = Some e -> path e = full ->
  lookup now parent name s = (s', Ok a) -> a_ino a = i.
Proof.
  intros pp full Hl H1 H2 Hp Hi He E. unfold lookup in E. rewrite not_dots in E by done.
  fold pp full in E. case_bool_decide; [done|]. destruct (no_symlinks full s Hl) as [Hs _]. rewrite Hs in E.
  destruct (cached_entry s pp _) as [v|].
  - rewrite (ino_for_known _ _ _ _ s i e) in E by done. by simplify_eq.
  - pose proof (resolve_name_table now pp (root_name pp name) full s) as Ht.
    destruct (resolve_name now pp _ full s) as [s1 [[[k sz] mt]|]]; [|done]. cbn [fst] in Ht.
    rewrite (ino_for_known _ _ _ _ s1 i e) in E by (rewrite ?Ht; done). by simplify_eq.
Qed.

(** A name whose path has an inode, no tombstone and an object is found. *)
Lemma lookup_known now parent name s i e :
  let pp := path_of_ino s parent in
  let full := child_path pp (root_name pp name) in
  symlinks s = ∅ -> name <> "."%string -> name <> ".."%string -> full ∉ delete_tombstones s ->
  path_to_ino (table_of s) !! full = Some i -> inodes (table_of s) !! i = Some e -> path e = full ->
  is_Some (backend_stat cfg op full) ->
  exists s' a, lookup now parent name s = (s', Ok a) /\ a_ino a = i.
Proof.
  intros pp full Hl H1 H2 Ht Hp Hi He [st Hst].
  destruct (lookup now parent name s) as [s' [a|err]] eqn:E;
    [exists s', a; split; [done|]; by eapply lookup_known_inode|].
  exfalso. unfold lookup in E. rewrite not_dots in E by done. fold pp full in E.
  rewrite bool_decide_false in E by done. destruct (no_symlinks full s Hl) as [Hs _]. rewrite Hs in E.
  destruct (cached_entry s pp _) as [v|]; [by destruct (ino_for _ _ _ _ s)|].
  unfold resolve_name, stat_op in E.
  destruct (cached_stat cfg now full (cs s)); [|rewrite Hst in E]; by destruct (ino_for _ _ _ _ _).
Qed.

(** C13: the inode returned for a name is registered under the path of that child,
    or under the spelling a link was stored with. *)
Theorem lookup_inode_path now parent name s s' a b :
  wf b (table_of s) -> index_ok s -> name <> "."%string -> name <> ".."%string ->
  lookup now parent name s = (s', Ok a) ->
  let pp := path_of_ino s parent in
  let full := child_path pp (root_name pp name) in
  exists e, resolve (table_of s') (a_ino a) = Some e /\
    (path e = full \/ (lower (path e) = lower full /\ is_Some (symlinks s !! path e))).
Proof.
  intros Hw Hok Hd1 Hd2 E. cbv zeta. unfold lookup in E.
  apply String.eqb_neq in Hd1, Hd2. rewrite Hd1, Hd2 in E. cbn [orb] in E.
  set (pp := path_of_ino s parent) in *. set (full := child_path pp (root_name pp name)) in *.
  case_test_in E; [done|]. pose proof (symlink_lookup_spec full s Hok) as Hl.
  destruct (lookup_symlink_entry_case_insensitive full s) as [s1 link].
  destruct Hl as (_ & _ & Hcs & Hl). assert (Hw1 : wf b (table_of s1)) by (unfold table_of; by rewrite Hcs).
  destruct link as [[stored target]|].
  - destruct (alloc_path None stored Symlink (Z.of_nat (String.length target)) (table_of s1) b Hw1) as (e & He & Hp).
    unfold alloc_ino in E. destruct (alloc None stored _ _ _) as [t ino]. simplify_eq. exists e.
    unfold resolve, bump, table_of. cbn. rewrite bump_inodes. split; [done|]. right.
    destruct Hl as [Hs1 Hs2]. by rewrite Hs1.
  - assert (Hfin : forall s2 k size mt, wf b (table_of s2) ->
      exists e, resolve (table_of (bump (snd (ino_for full k size mt s2)) (fst (ino_for full k size mt s2))))
                  (snd (ino_for full k size mt s2)) = Some e /\ path e = full).
    { intros s2 k size mt H2. destruct (ino_for_path full k size mt s2 b H2) as (e & He & Hp).
      exists e. unfold resolve, bump, table_of in *. cbn. by rewrite bump_inodes. }
    destruct (cached_entry s1 pp (root_name pp name)) as [v|].
    + specialize (Hfin s1 (kind_of (v_mode v)) (entry_size s1 full (kind_of (v_mode v)) (v_size v)) (v_mtime v) Hw1).
      destruct (ino_for _ _ _ _ _) as [s2 ino]. simplify_eq. destruct Hfin as (e & ? & ?). exists e. auto.
    + pose proof (resolve_name_table now pp (root_name pp name) full s1) as Ht.
      destruct (resolve_name _ _ _ _ s1) as [s2 [[[k size] mt]|]]; [|done]. cbn in Ht.
      specialize (Hfin s2 k size (default now mt)). rewrite Ht in Hfin. specialize (Hfin Hw1).
      destruct (ino_for _ _ _ _ _) as [s3 ino]. simplify_eq. destruct Hfin as (e & ? & ?). exists e. auto.
Qed.

(** ** Sizes *)

Lemma symlink_lookup_buffers full s :
  buffers (fst (lookup_symlink_entry_case_insensitive full s)) = buffers s.
Proof.
  unfold lookup_symlink_entry_case_insensitive. case_test; [done|].
  destruct (canonical ← symlinks_lower s !! lower full; _) as [[]|]; [done|].
  by destruct (scan_symlinks _ _) as [[]|].
Qed.

Lemma resolve_name_size now pp name full s k size mt :
  snd (resolve_name now pp name full s) = Some (k, size, mt) -> k <> Directory ->
  buffer_len s full <= size.
Proof.
  unfold resolve_name. destruct (stat_op cfg op now full (cs s)) as [c st].
  assert (Hb : forall c', buffer_len (set_cs c' s) full = buffer_len s full) by done.
  destruct st as [st|]; cbn [snd].
  - intros [= <- <- <-] _. rewrite Hb. lia.
  - destruct (cached_entry _ _ _) as [v|]; cbn [snd].
    + intros [= <- <- <-] Hk. unfold entry_size. rewrite bool_decide_eq_false_2 by done. rewrite Hb. lia.
    + unfold buffer_len. change (buffer_meta (set_cs c s) full) with (buffer_meta s full).
      destruct (buffer_meta s full) as [[len m]|]; [|done]. intros [= <- <- <-] _. lia.
Qed.

(** C16: a look-up never reports a file shorter than its write buffer: data that
    was not uploaded yet can be read to its end. *)
Theorem lookup_size_covers_buffer now parent name s s' a :
  name <> "."%string -> name <> ".."%string ->
  lookup now parent name s = (s', Ok a) -> a_kind a = RegularFile ->
  let pp := path_of_ino s parent in
  buffer_len s (child_path pp (root_name pp name)) <= a_size a.
Proof.
  intros Hd1 Hd2 E Hk. cbv zeta. unfold lookup in E.
  apply String.eqb_neq in Hd1, Hd2. rewrite Hd1, Hd2 in E. cbn [orb] in E.
  set (pp := path_of_ino s parent) in *. set (full := child_path pp (root_name pp name)) in *.
  case_test_in E; [done|]. pose proof (symlink_lookup_buffers full s) as Hb.
  destruct (lookup_symlink_entry_case_insensitive full s) as [s1 link]. cbn in Hb.
  assert (Hl : buffer_len s full = buffer_len s1 full) by (unfold buffer_len, buffer_meta; by rewrite Hb).
  rewrite Hl. destruct link as [[stored target]|].
  - destruct (alloc_ino _ _ _ _) as [t ino]. by simplify_eq.
  - destruct (cached_entry s1 pp (root_name pp name)) as [v|].
    + destruct (ino_for _ _ _ _ _) as [s2 ino]. simplify_eq. cbn in Hk |- *. unfold entry_size.
      rewrite Hk. rewrite bool_decide_eq_false_2 by done. lia.
    + pose proof (resolve_name_size now pp (root_name pp name) full s1) as Hr.
      destruct (resolve_name _ _ _ _ s1) as [s2 [[[k size] mt]|]]; [|done].
      destruct (ino_for _ _ _ _ _) as [s3 ino]. simplify_eq. cbn in Hk |- *. subst k.
      by apply (Hr _ _ _ eq_refl).
Qed.

(** ** The batch fills every slot *)

Lemma batch_pass_spec now parent pp snap names : forall idx s,
  let '(s', out, miss) := batch_pass now parent pp snap idx names s in
  length out = length names /\
  (forall k, out !! k = Some None -> exists n, ((idx + k)%nat, n) ∈ miss) /\
  (forall j n, (j, n) ∈ miss -> (idx <= j < idx + length names)%nat).
Proof.
  induction names as [|name rest IH]; intros idx s; cbn [batch_pass].
  - split_and!; [done|done|]. by intros j n H%elem_of_nil.
  - destruct (batch_one now parent pp snap name s) as [s1 r]. specialize (IH (S idx) s1).
    destruct (batch_pass now parent pp snap (S idx) rest s1) as [[s2 out] miss].
    destruct IH as (Hl & Hn & Hm). destruct r as [a|]; (split_and!; [cbn; lia| |]).
    + intros [|k] Hk; [done|]. destruct (Hn k Hk) as [n Hin]. exists n. by replace (idx + S k)%nat with (S idx + k)%nat by lia.
    + intros j n Hj. apply Hm in Hj. cbn. lia.
    + intros [|k] Hk; [exists name; rewrite Nat.add_0_r; by left|].
      destruct (Hn k Hk) as [n Hin]. exists n. right. by replace (idx + S k)%nat with (S idx + k)%nat by lia.
    + intros j n [[= -> ->]|Hj]%elem_of_cons; [cbn; lia|]. apply Hm in Hj. cbn. lia.
Qed.

Lemma batch_misses_spec now parent miss : forall s (out : slots),
  (forall j n, (j, n) ∈ miss -> (j < length out)%nat) ->
  let '(s', out') := batch_misses now parent miss s out in
  length out' = length out /\
  (forall k, out' !! k = Some None -> out !! k = Some None /\ forall n, (k, n) ∉ miss).
Proof.
  induction miss as [|[idx name] rest IH]; intros s out Hm; cbn [batch_misses].
  - split; [done|]. intros k Hk. split; [done|]. intros n. apply not_elem_of_nil.
  - destruct (lookup now parent name s) as [s1 r]. specialize (IH s1 (<[idx := Some r]> out)).
    destruct (batch_misses now parent rest s1 _) as [s2 out']. rewrite length_insert in IH.
    destruct IH as [Hl Hk]; [intros j n Hj; apply (Hm j n); by right|]. split; [done|].
    intros k Hn. destruct (Hk k Hn) as [Ho Hr].
    apply list_lookup_insert_Some in Ho as [(_ & ? & _)|[Hne Ho]]; [done|].
    split; [done|]. intros n [[= -> ->]|Hin]%elem_of_cons; [done|]. by apply (Hr n).
Qed.

(** C39: whatever the order in which the backend answers, every requested name gets
    an answer: the bookkeeping never panics. *)
Theorem batch_lookup_total order now parent names s :
  (forall l, order l ≡ₚ l) ->
  exists s' rs, batch_lookup_from_dir_cache order now parent names s = (s', Some rs) /\
    length rs = length names.
Proof.
  intros Ho. unfold batch_lookup_from_dir_cache.
  set (pp := path_of_ino s parent). set (snap := snd <$> _).
  pose proof (batch_pass_spec now parent pp snap names 0 s) as Hp.
  destruct (batch_pass now parent pp snap 0 names s) as [[s1 out] miss]. destruct Hp as (Hl & Hn & Hm).
  pose proof (batch_misses_spec now parent (order miss) s1 out) as Hb.
  destruct (batch_misses now parent (order miss) s1 out) as [s2 out'].
  destruct Hb as [Hl' Hk]; [intros j n Hj; rewrite Ho in Hj; apply Hm in Hj; lia|].
  assert (Hall : Forall (fun o => is_Some o) out').
  { apply Forall_lookup. intros k [r|] Hr; [done|]. exfalso. destruct (Hk k Hr) as [Hr' Hno].
    destruct (Hn k Hr') as [n Hin]. apply (Hno n). by rewrite Ho. }
  destruct (mapM_is_Some_2 id out' Hall) as [rs Hrs]. exists s2, rs. rewrite Hrs.
  split; [done|]. apply length_mapM in Hrs. lia.
Qed.

(** ** Symlinks *)

Lemma index_ok_link s l low k target n :
  index_ok s -> l = <[k := target]> (symlinks s) -> low = <[lower k := k]> (symlinks_lower s) ->
  index_ok (set_links l low n s).
Proof.
  intros Hok -> -> l' k'. cbn. intros [[<- <-]|[_ H]]%lookup_insert_Some.
  - split; [done|]. by rewrite lookup_insert_eq.
  - destruct (Hok _ _ H) as [? [t Ht]]. split; [done|].
    destruct (decide (k = k')) as [->|Hne]; [by rewrite lookup_insert_eq|].
    rewrite lookup_insert_ne by done. by rewrite Ht.
Qed.

(** A link that was made reads back as its target, by its inode and by any
    spelling of its name. *)
Theorem symlink_readlink now parent name target s s' a b :
  wf b (table_of s) -> index_ok s -> symlink now parent name target s = (s', Ok a) ->
  readlink (a_ino a) s' = Ok target /\ index_ok s' /\
  (forall spelling, lower spelling = lower (child_path (path_of_ino s parent) (root_name (path_of_ino s parent) name)) ->
     exists k t, snd (lookup_symlink_entry_case_insensitive spelling s') = Some (k, t)).
Proof.
  intros Hw Hok E. unfold symlink in E.
  set (full := child_path _ _) in *. destruct (symlinks s !! full) eqn:El; [done|].
  set (s1 := set_links _ _ _ s) in *.
  assert (Hok1 : index_ok s1) by (by eapply index_ok_link).
  destruct (alloc_path None full Symlink (Z.of_nat (String.length target)) (table_of s1) b Hw) as (e & He & Hp).
  unfold alloc_ino in E. destruct (alloc None full _ _ (table_of s1)) as [t ino]. injection E as <- <-.
  split_and!.
  - unfold readlink, resolve, table_of. cbn. rewrite bump_inodes. cbn in He. rewrite He, Hp.
    by rewrite lookup_insert_eq.
  - exact Hok1.
  - intros sp Hsp. pose proof (symlink_lookup_spec sp (set_table (bump_lookup_count ino t) s1)) as Hl.
    destruct (lookup_symlink_entry_case_insensitive sp _) as [s2 r].
    destruct Hl as (_ & _ & _ & Hl); [exact Hok1|]. destruct r as [[k t']|]; [by eauto|].
    exfalso. apply (Hl full target); [cbn; by rewrite lookup_insert_eq|done].
Qed.

(** ** [setattr] *)

Lemma set_inode_resolve ino f s e : resolve (table_of s) ino = Some e ->
  resolve (table_of (set_inode ino f s)) ino = Some (f e).
Proof. intros He. unfold resolve, set_inode, table_of in *. cbn. by rewrite lookup_alter_eq, He. Qed.

(** Truncation through a handle: the new size is the one reported from then
    on, and the cached blocks of the file are dropped. *)
Theorem setattr_truncates fd_ok path_ok now ino n h s e :
  ino <> 1 -> 0 <= n -> resolve (table_of s) ino = Some e -> kind e = RegularFile ->
  is_Some (mtime e) -> path e ∉ delete_tombstones s ->
  (write_fds s !! h = Some (PathHash.write_buffer_path salt (path e)) \/ write_fds s !! h = None) ->
  fd_ok = true -> path_ok = true ->
  let '(s', r) := setattr fd_ok path_ok now ino (Some n) None (Some h) s in
  (exists a, r = Ok a /\ a_size a = n) /\
  (exists a', snd (getattr now ino s') = Ok a' /\ a_size a' = n) /\
  dropped s' = dropped s ++ [(path e, ino)].
Proof.
  intros Hi Hn He Hk [mt Hm] Ht Hfd -> ->. unfold setattr. rewrite He. cbv zeta.
  set (s1 := set_inode ino _ s). set (s2 := truncate_buffer true true h n (path e) s1).
  assert (H1 : resolve (table_of s1) ino = Some (mk_inode (path e) (kind e) n (mtime e)))
    by (unfold s1; by erewrite set_inode_resolve).
  assert (H2 : s2 = set_buffers (set_len (PathHash.write_buffer_path salt (path e)) n (buffers s)) s1).
  { unfold s2, truncate_buffer. change (write_fds s1) with (write_fds s).
    by destruct Hfd as [-> | ->]. }
  assert (Hl : buffer_len s2 (path e) <= n).
  { unfold buffer_len, buffer_meta. rewrite H2. cbn. unfold set_len. rewrite lookup_alter_eq.
    destruct (buffers s !! _) as [[]|]; cbn; lia. }
  split_and!; [by eexists| |by rewrite H2].
  unfold getattr. assert ((ino =? 1) = false) as -> by lia.
  change (table_of (set_dropped _ s2)) with (table_of s2). rewrite H2.
  change (table_of (set_buffers _ s1)) with (table_of s1). rewrite H1. cbn [kind path mtime size].
  rewrite Hk, Hm. rewrite bool_decide_eq_false_2 by done. rewrite bool_decide_eq_false_2 by done.
  eexists. split; [done|]. cbn [a_size make_attr]. rewrite H2 in Hl.
  change (buffer_len (set_dropped _ ?x) (path e)) with (buffer_len x (path e)). lia.
Qed.

(** A size change without a handle, which is what [truncate(2)] sends, leaves
    the size and the buffer as they were and reports the larger size. *)
Theorem setattr_without_handle_ignored fd_ok path_ok now ino n s e :
  resolve (table_of s) ino = Some e ->
  let '(s', r) := setattr fd_ok path_ok now ino (Some n) None None s in
  table_of s' = table_of s /\ buffers s' = buffers s /\
  exists a, r = Ok a /\ a_size a = Z.max (size e) n.
Proof. intros He. unfold setattr. rewrite He. cbn. unfold table_of in *. cbn. rewrite He. eauto. Qed.

End Operations.

(** ** A mount with one directory listed *)
Definition ac0 : attr_config := mk_attr_config 493 420 None None None.
Definition empty_fs : fs := mk_fs (mk_caches empty_table ∅ ∅) ∅ ∅ ∅ 0 ∅ ∅ [].
Definition listed (dir : string) : fs :=
  set_cs (fst (list_op cfg0 op0 (fun s => s) (fun s => s) 0 dir (cs empty_fs))) empty_fs.
Definition inode_path (r : fs * result CoreFileAttr Errors.io_Error) : option string :=
  match r with (s, Ok a) => path <$> resolve (table_of s) (a_ino a) | _ => None end.

Lemma lookup_inode_path_witness :
  inode_path (lookup cfg0 ac0 op0 7 (fun s => s) 0 1 "x" empty_fs) = Some "x"%string.
Proof.
  destruct (lookup_inode_path cfg0 ac0 op0 7 (fun s => s) 0 1 "x" empty_fs
              (fst (lookup cfg0 ac0 op0 7 (fun s => s) 0 1 "x" empty_fs))
              (make_attr ac0 2 7 RegularFile 100) 2) as (e & He & Hp).
  - apply wf_empty. done.
  - intros l k. cbn. by rewrite lookup_empty.
  - done.
  - done.
  - by vm_compute.
  - by vm_compute.
Defined.

Lemma lookup_size_covers_buffer_witness :
  let s := set_buffers {[PathHash.write_buffer_path 7 "x" := (20, 0)]} empty_fs in
  buffer_len 7 s "x" <= a_size (make_attr ac0 2 20 RegularFile 100).
Proof.
  intros s.
  apply (lookup_size_covers_buffer cfg0 ac0 op0 7 (fun s => s) 0 1 "x" s
           (fst (lookup cfg0 ac0 op0 7 (fun s => s) 0 1 "x" s)) (make_attr ac0 2 20 RegularFile 100));
    [done|done|by vm_compute|done].
Defined.

Lemma batch_lookup_total_witness :
  exists s' rs, batch_lookup_from_dir_cache cfg0 ac0 op0 7 (fun s => s) (fun l => l) 0 1
                  ["."; "x"; "y"]%string empty_fs = (s', Some rs) /\ length rs = 3%nat.
Proof. by apply (batch_lookup_total cfg0 ac0 op0 7 (fun s => s) (fun l => l) 0 1 ["."; "x"; "y"]%string). Defined.

Lemma symlink_readlink_witness :
  match symlink ac0 (fun s => s) 0 1 "l" "t" empty_fs with
  | (s', Ok a) => readlink (a_ino a) s' = Ok "t"%string
  | _ => False
  end.
Proof.
  apply (symlink_readlink ac0 (fun s => s) 0 1 "l" "t" empty_fs _ _ 2); [by apply wf_empty| |by vm_compute].
  intros l k. cbn. by rewrite lookup_empty.
Defined.

(** A file of 7 bytes, inode 2. *)
Definition one_file : fs := set_table (fst (alloc_ino_with_mtime "x" RegularFile 7 100 empty_table)) empty_fs.

Lemma setattr_truncates_witness :
  exists a, snd (setattr ac0 7 true true 5 2 (Some 3) None (Some 9) one_file) = Ok a /\ a_size a = 3.
Proof.
  pose proof (setattr_truncates cfg0 ac0 op0 7 true true 5 2 3 9 one_file (mk_inode "x" RegularFile 7 (Some 100))
                ltac:(lia) ltac:(lia) eq_refl eq_refl (mk_is_Some _ _ eq_refl) ltac:(set_solver)
                (or_intror eq_refl) eq_refl eq_refl) as H.
  destruct (setattr _ _ _ _ _ _ _ _ _ _) as [s' r]. by destruct H as [(a & -> & Ha) _]; exists a.
Defined.

Lemma setattr_without_handle_ignored_witness :
  exists a, snd (setattr ac0 7 true true 5 2 (Some 3) None None one_file) = Ok a /\ a_size a = 7.
Proof.
  pose proof (setattr_without_handle_ignored ac0 7 true true 5 2 3 one_file (mk_inode "x" RegularFile 7 (Some 100))
                eq_refl) as H.
  destruct (setattr _ _ _ _ _ _ _ _ _ _) as [s' r]. by destruct H as (_ & _ & a & -> & Ha); exists a.
Defined.

(** Under the root the batch registers a path with a leading slash: the two
    look-ups of one file answer with different inodes, and so with different
    write buffers. *)
Theorem batch_root_inode_differs :
  match batch_lookup_from_dir_cache cfg0 ac0 op0 7 (fun s => s) (fun l => l) 0 1 ["x"%string] (listed EmptyString) with
  | (s, Some [Ok a]) =>
      path <$> resolve (table_of s) (a_ino a) = Some "/x"%string /\
      inode_path (lookup cfg0 ac0 op0 7 (fun s => s) 0 1 "x" s) = Some "x"%string
  | _ => False
  end.
Proof. by vm_compute. Qed.

(** The inode a listing of a subdirectory reports for an entry is registered
    under the bare name, the path of another file. *)
Theorem listed_inode_wrong_path :
  match list_op cfg0 op0 (fun s => s) (fun s => s) 0 "d" (cs empty_fs) with
  | (c, Ok [r]) =>
      match r_ino r with
      | Some ino => r_size r = 9 /\ path <$> resolve (tbl c) ino = Some "x"%string
      | None => False
      end
  | _ => False
  end.
Proof. by vm_compute. Qed.

(** A look-up answers from a listing however old it is: the file it reports
    may have gone from the backend and its listing expired. *)
Theorem lookup_ignores_ttl :
  let gone := mk_backend (fun _ => Err Errors.ONotFound) (fun _ => Err Errors.ONotFound) in
  match lookup cfg0 ac0 gone 7 (fun s => s) 100000 1 "x" (listed EmptyString) with
  | (_, Ok a) => a_size a = 7
  | _ => False
  end.
Proof. by vm_compute. Qed.

(** A file created and written without a buffer file: the inode knows the
    size, the look-up reports the size the listing had. *)
Theorem lookup_size_behind_inode :
  let s := listed EmptyString in
  match lookup cfg0 ac0 op0 7 (fun s => s) 0 1 "x" s with
  | (s1, Ok a) =>
      let s2 := set_inode (a_ino a) (fun v => mk_inode (path v) (kind v) 4096 (mtime v)) s1 in
      match lookup cfg0 ac0 op0 7 (fun s => s) 0 1 "x" s2, getattr cfg0 ac0 op0 7 0 (a_ino a) s2 with
      | (_, Ok l), (_, Ok g) => a_ino l = a_ino a /\ a_size l = 7 /\ a_size g = 4096
      | _, _ => False
      end
  | _ => False
  end.
Proof. by vm_compute. Qed.

(** A link over an existing file is accepted: the name looks up as a link, the
    inode stays a regular file. *)
Theorem symlink_over_file :
  match lookup cfg0 ac0 op0 7 (fun s => s) 0 1 "x" empty_fs with
  | (s1, Ok a) =>
      match symlink ac0 (fun s => s) 0 1 "x" "t" s1 with
      | (s2, Ok l) =>
          a_ino l = a_ino a /\ a_kind l = Symlink /\
          match getattr cfg0 ac0 op0 7 0 (a_ino a) s2 with (_, Ok g) => a_kind g = RegularFile | _ => False end
      | _ => False
      end
  | _ => False
  end.
Proof. by vm_compute. Qed.

End Lookup.
