(* ===== verification/Readdir.v ===== *)
(** Directory streams: [readdir_materialise], the per-handle snapshots of
    [opendir], [readdir], [releasedir] and [readdir_with_attrs] (src/src/lib.rs),
    and the paging of the FUSE adapter (src/src/core_fs/fuser.rs). *)
From Stdlib Require Import ZArith Lia Strings.Byte Strings.String Strings.Ascii.
From stdpp Require Import sorting.
From S2P Require Import Prelude Util BlockFormat Utf8 Inodes Errors DirCache Lookup.

Module Readdir.
Import Utf8 Inodes DirCache Lookup.

Record CoreDirEntry := mk_entry { d_ino : Z; d_kind : FileType; d_name : string }.

(** [dir_listers] and [NEXT_HANDLE] beside the file system. *)
Record streams := mk_streams { core : fs; dir_listers : gmap Z (list CoreDirEntry); NEXT_HANDLE : Z }.

Section Operations.
Context (cfg : config) (ac : attr_config) (op : backend) (salt : Z).
Context (to_lowercase : chars -> chars) (nfc : string -> string) (lower : string -> string).

(** The last component of a path ([components().next_back()]). *)
Definition last_component (p : string) : string := List.last (Path.segments p) EmptyString.
(** [name.rsplit_once('/')], the part after. *)
Definition display_name (n : string) : string :=
  match Str.rfind Str.SLASH n with
  | Some i => String.substring (S i) (String.length n) n
  | None => n
  end.
Definition phantom (queried_last name : string) : bool :=
  String.eqb name EmptyString || String.eqb name "/" ||
  (String.eqb name queried_last && negb (String.eqb queried_last EmptyString)).

(** The loop over the rows, from the cache or from [list_op]. *)
Fixpoint emit_entries (queried_last : string) (rows : list ListOpRow) (t : table)
    : table * list CoreDirEntry :=
  match rows with
  | [] => (t, [])
  | r :: rest =>
      if phantom queried_last (r_name r) then emit_entries queried_last rest t
      else
        let k := kind_of (r_mode r) in
        let '(t, ino) := match r_ino r with
                         | Some c => (t, c)
                         | None => alloc_ino (r_name r) k (r_size r) t
                         end in
        let '(t, es) := emit_entries queried_last rest t in
        (t, mk_entry ino k (display_name (r_name r)) :: es)
  end.
Definition visible (s : fs) (path : string) (e : CoreDirEntry) : bool :=
  negb (bool_decide (child_path path (d_name e) ∈ delete_tombstones s)).
(** A fresh snapshot is emitted directly, and [list_op] returns its rows. *)
Definition readdir_materialise (now ino : Z) (s : fs) : fs * result (list CoreDirEntry) Errors.io_Error :=
  let path := path_of_ino s ino in
  let '(t, _) := alloc_ino path Directory 4096 (table_of s) in
  let s := set_table t s in
  let dots := [mk_entry ino Directory "."; mk_entry 1 Directory ".."] in
  let '(c, r) := list_op cfg op to_lowercase nfc now path (cs s) in
  let s := set_cs c s in
  match r with
  | Err _ => (s, Err (Errors.io_new Errors.OtherKind))
  | Ok rows =>
      let '(t, es) := emit_entries (last_component path) rows (table_of s) in
      let s := set_table t s in
      (s, Ok (List.filter (visible s path) (dots ++ es)))
  end.

(** ** The handles *)
Definition opendir (now ino : Z) (d : streams) : streams * result Z Errors.io_Error :=
  match readdir_materialise now ino (core d) with
  | (s, Ok entries) =>
      let fh := NEXT_HANDLE d in
      (mk_streams s (<[fh := entries]> (dir_listers d)) (wrap64 (fh + 1)), Ok fh)
  | (s, Err e) => (mk_streams s (dir_listers d) (NEXT_HANDLE d), Err e)
  end.
Definition readdir (fh : Z) (d : streams) : result (list CoreDirEntry) Errors.io_Error :=
  match dir_listers d !! fh with Some es => Ok es | None => Err not_found end.
Definition releasedir (fh : Z) (d : streams) : streams :=
  mk_streams (core d) (delete fh (dir_listers d)) (NEXT_HANDLE d).

(** [partition_point(|e| e.name <= marker)]: the binary search of the standard
    library, [None] out of fuel. *)
Fixpoint partition_go (fuel : nat) (p : CoreDirEntry -> bool) (es : list CoreDirEntry) (lo hi : nat) : option nat :=
  match fuel with
  | O => None
  | S f =>
      if (lo <? hi)%nat then
        let mid := (lo + (hi - lo) / 2)%nat in
        match es !! mid with
        | Some e => if p e then partition_go f p es (S mid) hi else partition_go f p es lo mid
        | None => None
        end
      else Some lo
  end.
Definition partition_point (p : CoreDirEntry -> bool) (es : list CoreDirEntry) : option nat :=
  partition_go (S (length es)) p es 0 (length es).
Definition at_most (marker : string) (e : CoreDirEntry) : bool := String.leb (d_name e) marker.
Definition readdir_with_attrs (order : list (nat * string) -> list (nat * string)) (now ino fh : Z)
    (marker : string) (d : streams) : streams * option (result (list (CoreDirEntry * CoreFileAttr)) Errors.io_Error) :=
  match dir_listers d !! fh with
  | None => (d, Some (Err not_found))
  | Some es =>
      let cut := if String.eqb marker EmptyString then Some 0%nat else partition_point (at_most marker) es in
      match cut with
      | None => (d, None)
      | Some cut =>
          let page := drop cut es in
          let '(s, rs) := batch_lookup_from_dir_cache cfg ac op salt lower order now ino (map d_name page) (core d) in
          (mk_streams s (dir_listers d) (NEXT_HANDLE d),
           match rs with
           | None => None
           | Some rs => Some (Ok (omap (fun er => match snd er with Ok a => Some (fst er, a) | Err _ => None end)
                                    (zip page rs)))
           end)
      end
  end.

(** ** Paging in the FUSE adapter
    [reply.add] takes entries until the buffer of the reply is full; [room] is
    how many this reply can hold. Each entry comes with the cookie of the next
    one. *)
Definition readdir_page (es : list CoreDirEntry) (offset : Z) (room : nat) : list (CoreDirEntry * Z) :=
  let page := dropZ offset es in
  zip (take room page) (map (fun i => offset + Z.of_nat i + 1) (seq 0 (length page))).
(** The kernel reads on from the last cookie until a page is empty. *)
Fixpoint read_all (fuel : nat) (rooms : nat -> nat) (es : list CoreDirEntry) (offset : Z) : list CoreDirEntry :=
  match fuel with
  | O => []
  | S f =>
      let page := readdir_page es offset (rooms (Z.to_nat offset)) in
      match List.last (map snd page) (-1) with
      | (-1) => []
      | cookie => map fst page ++ read_all f rooms es cookie
      end
  end.

(** ** Paging *)

Lemma zip_page (es : list CoreDirEntry) n l : length l = length es ->
  map fst (zip (take n es) (l : list Z)) = take n es.
Proof.
  revert n l. induction es as [|e es IH]; intros n l H; [by destruct n|].
  destruct l as [|x l]; [done|]. destruct n as [|n]; [done|]. cbn. f_equal. apply IH. by injection H.
Qed.

Lemma last_cookie (es : list CoreDirEntry) : forall n off k, (0 < n)%nat -> es <> [] ->
  List.last (map snd (zip (take n es) (map (fun i => off + Z.of_nat i + 1) (seq k (length es))))) (-1)
  = off + Z.of_nat k + Z.of_nat (min n (length es)).
Proof.
  induction es as [|e es IH]; intros n off k Hn He; [done|]. destruct n as [|n]; [lia|].
  cbn [length seq map take zip zip_with]. destruct n as [|n]; [rewrite take_0; cbn -[Z.of_nat Nat.min Z.add]; lia|].
  destruct es as [|e' es]; [cbn -[Z.of_nat Nat.min Z.add]; lia|].
  specialize (IH (S n) off (S k) ltac:(lia) ltac:(done)).
  cbn [length seq map take zip zip_with] in IH |- *. cbn [List.last map snd] in IH |- *.
  etransitivity; [exact IH|]. cbn [length]. lia.
Qed.

Lemma read_all_spec rooms es : forall fuel off, (forall i, 0 < rooms i)%nat -> 0 <= off ->
  (length es - Z.to_nat off < fuel)%nat -> read_all fuel rooms es off = dropZ off es.
Proof.
  induction fuel as [|f IH]; intros off Hr Ho Hf; [lia|]. cbn [read_all].
  set (page := readdir_page es off (rooms (Z.to_nat off))).
  destruct (dropZ off es) as [|e rest] eqn:Ed.
  - assert (Hp : page = []) by (unfold page, readdir_page; rewrite Ed; by destruct (rooms _)). by rewrite Hp.
  - assert (Hlen : (length (e :: rest) = length es - Z.to_nat off)%nat)
      by (rewrite <-Ed; unfold dropZ; apply length_drop).
    assert (Hc : List.last (map snd page) (-1) = off + 0 + Z.of_nat (min (rooms (Z.to_nat off)) (length (e :: rest)))).
    { unfold page, readdir_page. rewrite Ed. by apply last_cookie. }
    assert (Hf' : map fst page = take (rooms (Z.to_nat off)) (e :: rest)).
    { unfold page, readdir_page. rewrite Ed. apply zip_page. by rewrite length_map, length_seq. }
    assert (Hpos : (1 <= length (e :: rest))%nat) by (cbn; lia).
    assert (Hdl : length (drop (Z.to_nat off) es) = length (e :: rest)) by (by rewrite <-Ed).
    rewrite Hc, Hf'. pose proof Hr as Hr0. specialize (Hr0 (Z.to_nat off)). set (n := rooms (Z.to_nat off)) in *.
    destruct (off + 0 + Z.of_nat (min n (length (e :: rest)))) as [|p|p] eqn:Eo; [cbn in Eo; lia| |cbn in Eo; lia].
    rewrite IH by (done || lia). rewrite <-Eo.
    rewrite <-(take_drop n (e :: rest)) at 3. f_equal. rewrite <-Ed. unfold dropZ. rewrite drop_drop.
    destruct (decide (n <= length (e :: rest))%nat).
    + f_equal. lia.
    + rewrite !drop_ge; [done|lia|lia].
Qed.

(** C32: however few entries each reply has room for, the pages give every entry
    of the snapshot once, in order. *)
Theorem paging_complete rooms es : (forall i, 0 < rooms i)%nat ->
  read_all (S (length es)) rooms es 0 = es.
Proof. intros Hr. rewrite read_all_spec; [done|done|done|lia]. Qed.

(** ** Handles *)

(** Handles given out so far lie below the next one. *)
Definition handles_ok (d : streams) : Prop :=
  0 <= NEXT_HANDLE d <= U64_MAX /\ forall h es, dir_listers d !! h = Some es -> h < NEXT_HANDLE d.

(** A stream keeps its entries while others are opened and released. *)
Theorem stream_stable now ino d d' fh h es :
  handles_ok d -> NEXT_HANDLE d < U64_MAX ->
  opendir now ino d = (d', Ok fh) -> dir_listers d !! h = Some es ->
  handles_ok d' /\ readdir h d' = Ok es /\ readdir h (releasedir fh d') = Ok es /\
  exists new, readdir fh d' = Ok new /\ snd (readdir_materialise now ino (core d)) = Ok new /\
    readdir fh (releasedir fh d') = Err not_found.
Proof.
  intros [Hn Hk] Hb E Hh. unfold opendir in E.
  destruct (readdir_materialise now ino (core d)) as [s [entries|]]; [|done]. simplify_eq.
  specialize (Hk h es Hh) as Hlt. unfold readdir, releasedir. cbn.
  rewrite lookup_insert_ne by lia. rewrite Hh, lookup_delete_ne, lookup_insert_ne by lia. rewrite Hh.
  rewrite lookup_insert_eq, lookup_delete_eq. split_and!; try done; [|by exists entries].
  unfold handles_ok. cbn. rewrite wrap64_small by (unfold is_u64; lia). split; [lia|].
  intros h' es' [[<- _]|[_ H']]%lookup_insert_Some; [lia|]. apply Hk in H'. lia.
Qed.

(** ** What a stream lists *)

Lemma emit_names q rows : forall t,
  map d_name (snd (emit_entries q rows t)) =
  map display_name (List.filter (fun n => negb (phantom q n)) (map r_name rows)).
Proof.
  induction rows as [|r rest IH]; intros t; [done|]. cbn [emit_entries map List.filter].
  destruct (phantom q (r_name r)); cbn [negb]; [apply IH|].
  destruct (match r_ino r with Some c => (t, c) | None => _ end) as [t1 ino].
  specialize (IH t1). destruct (emit_entries q rest t1) as [t2 es]. cbn in *. by rewrite IH.
Qed.

Lemma visible_names s path l :
  map d_name (List.filter (visible s path) l) =
  List.filter (fun n => negb (bool_decide (child_path path n ∈ delete_tombstones s))) (map d_name l).
Proof.
  induction l as [|e l IH]; [done|]. cbn [List.filter map]. unfold visible at 1.
  destruct (negb _); cbn [map]; by rewrite IH.
Qed.

(** The entries are the two dots and the rows of the listing without phantoms,
    minus what is being deleted. *)
Theorem materialise_lists now ino s s' es :
  readdir_materialise now ino s = (s', Ok es) ->
  let path := path_of_ino s ino in
  exists rows c,
    list_op cfg op to_lowercase nfc now path (cs (set_table (fst (alloc_ino path Directory 4096 (table_of s))) s))
      = (c, Ok rows) /\
    map d_name es =
    List.filter (fun n => negb (bool_decide (child_path path n ∈ delete_tombstones s)))
      ("."%string :: ".."%string ::
       map display_name (List.filter (fun n => negb (phantom (last_component path) n)) (map r_name rows))).
Proof.
  intros E. cbv zeta. unfold readdir_materialise in E. set (path := path_of_ino s ino) in *.
  destruct (alloc_ino path Directory 4096 (table_of s)) as [t0 i0]. cbn [fst].
  destruct (list_op _ _ _ _ now path _) as [c r] eqn:El. destruct r as [rows|]; [|done].
  exists rows, c. split; [done|].
  pose proof (emit_names (last_component path) rows (table_of (set_cs c (set_table t0 s)))) as Hn.
  destruct (emit_entries _ _ _) as [t1 es1]. simplify_eq. cbn [snd] in Hn. rewrite <-Hn.
  apply (visible_names (set_table t1 (set_cs c (set_table t0 s))) path (mk_entry ino Directory "." :: mk_entry 1 Directory ".." :: es1)).
Qed.

End Operations.

(** ** Marker paging *)

Lemma partition_go_spec p es : forall fuel lo hi, (hi - lo < fuel)%nat -> (lo <= hi <= length es)%nat ->
  (forall i j x y, es !! i = Some x -> es !! j = Some y -> (i <= j)%nat -> p y = true -> p x = true) ->
  (forall i x, es !! i = Some x -> (i < lo)%nat -> p x = true) ->
  (forall i x, es !! i = Some x -> (hi <= i)%nat -> p x = false) ->
  exists c, partition_go fuel p es lo hi = Some c /\ (lo <= c <= hi)%nat /\
    (forall i x, es !! i = Some x -> (i < c)%nat -> p x = true) /\
    (forall i x, es !! i = Some x -> (c <= i)%nat -> p x = false).
Proof.
  induction fuel as [|f IH]; intros lo hi Hf Hb Hm Hlo Hhi; [lia|]. cbn [partition_go].
  destruct (Nat.ltb_spec lo hi) as [Hlt|Hge].
  - set (mid := (lo + (hi - lo) / 2)%nat). assert (Hmid : (lo <= mid < hi)%nat).
    { unfold mid. pose proof (Nat.div_lt (hi - lo) 2 ltac:(lia) ltac:(lia)). lia. }
    destruct (lookup_lt_is_Some_2 es mid) as [e He]; [lia|]. rewrite He. destruct (p e) eqn:Ep.
    + destruct (IH (S mid) hi) as (c & Hc & Hr & H1 & H2); try done; [lia|lia| |].
      * intros i x Hx Hi. apply (Hm i mid x e Hx He); [lia|done].
      * exists c. split_and!; try done; lia.
    + destruct (IH lo mid) as (c & Hc & Hr & H1 & H2); try done; [lia|lia| |].
      * intros i x Hx Hi. destruct (p x) eqn:E; [|done]. rewrite (Hm mid i e x He Hx Hi E) in Ep. done.
      * exists c. split_and!; try done; lia.
  - exists lo. split_and!; try done; [lia|]. intros i x Hx Hi. apply (Hhi i x Hx). lia.
Qed.

(** On entries ordered by name the cut is exactly the marker: the page has the
    entries after it and no others. *)
Theorem marker_cut_sorted es marker :
  (forall i j x y, es !! i = Some x -> es !! j = Some y -> (i <= j)%nat ->
     String.leb (d_name y) marker = true -> String.leb (d_name x) marker = true) ->
  exists cut, partition_point (at_most marker) es = Some cut /\
    Forall (fun e => at_most marker e = true) (take cut es) /\
    Forall (fun e => at_most marker e = false) (drop cut es).
Proof.
  intros Hm. destruct (partition_go_spec (at_most marker) es (S (length es)) 0 (length es))
    as (c & Hc & _ & H1 & H2); [lia|lia|done|lia| |].
  - intros i x Hx Hi. apply lookup_lt_Some in Hx. lia.
  - exists c. split; [done|]. split; apply Forall_lookup; intros i x Hx.
    + apply lookup_take_Some in Hx as [Hx Hi]. by apply (H1 i).
    + rewrite lookup_drop in Hx. apply (H2 (c + i)%nat); [done|lia].
Qed.

(** ** Examples *)
Definition names (r : result (list CoreDirEntry) Errors.io_Error) : list string :=
  match r with Ok es => map d_name es | Err _ => [] end.

Lemma paging_complete_witness :
  let es := [mk_entry 2 Directory "a"; mk_entry 3 RegularFile "b"; mk_entry 4 RegularFile "c"] in
  read_all 4 (fun _ => 2%nat) es 0 = es.
Proof. intros es. apply paging_complete. lia. Defined.

Lemma marker_cut_sorted_witness :
  exists cut, partition_point (at_most "b")
    [mk_entry 2 Directory "a"; mk_entry 3 RegularFile "b"; mk_entry 4 RegularFile "c"] = Some cut.
Proof.
  destruct (marker_cut_sorted [mk_entry 2 Directory "a"; mk_entry 3 RegularFile "b"; mk_entry 4 RegularFile "c"] "b")
    as (cut & Hc & _); [|by exists cut].
  intros [|[|[|i]]] [|[|[|j]]] x y Hx Hy Hij Hl; cbn in Hx, Hy; simplify_eq; try done; lia.
Defined.

Lemma stream_stable_witness :
  let d := mk_streams empty_fs {[3 := [mk_entry 9 RegularFile "q"]]} 4 in
  let d' := fst (opendir cfg0 op0 (fun s => s) (fun s => s) 0 1 d) in
  readdir 3 d' = Ok [mk_entry 9 RegularFile "q"] /\ names (readdir 4 d') = ["."; ".."; "x"]%string.
Proof.
  intros d d'.
  destruct (stream_stable cfg0 op0 (fun s => s) (fun s => s) 0 1 d d' 4 3 [mk_entry 9 RegularFile "q"])
    as (_ & H & _); [|done|by vm_compute|done|split; [exact H|by vm_compute]].
  split; [done|]. intros h es. cbn. intros [<- _]%lookup_singleton_Some. lia.
Defined.

(** The snapshot is in the order of the cache, not of the names: the page
    after a marker leaves out an entry that was not delivered. *)
Theorem marker_paging_loses_entry :
  let es := [mk_entry 2 RegularFile "b"; mk_entry 3 RegularFile "a"; mk_entry 4 RegularFile "c"] in
  partition_point (at_most "b") es = Some 2%nat /\
  map d_name (take 1 es ++ drop 2 es) = ["b"; "c"]%string.
Proof. by vm_compute. Qed.

(** A child with the name of its directory is never listed. *)
Theorem same_name_child_hidden :
  let op := mk_backend (fun _ => Err Errors.ONotFound)
              (fun p => if String.eqb p "d/" then
                 Ok [Some (mk_bentry "d" (mk_bmeta FILE 1 None)); Some (mk_bentry "e" (mk_bmeta FILE 1 None))]
               else Err Errors.ONotFound) in
  let s := set_table (fst (alloc_ino "d" Directory 0 empty_table)) empty_fs in
  names (snd (readdir_materialise cfg0 op (fun s => s) (fun s => s) 0 2 s)) = ["."; ".."; "e"]%string.
Proof. by vm_compute. Qed.

(** A file created in a directory that was never listed is the only one the
    directory then shows. *)
Theorem created_file_hides_others :
  let s := set_table (fst (alloc_ino "d" Directory 0 empty_table)) empty_fs in
  let s := set_cs (cache_add_entry 0 "d" "new" (mk_value FILE 0 0 (Some 3)) (cs s)) s in
  names (snd (readdir_materialise cfg0 op0 (fun s => s) (fun s => s) 299 2 s)) = ["."; ".."; "new"]%string /\
  names (snd (readdir_materialise cfg0 op0 (fun s => s) (fun s => s) 300 2 s)) = ["."; ".."; "x"]%string.
Proof. by vm_compute. Qed.

End Readdir.
