(* ===== verification/Namespace.v ===== *)
(** * Namespace: create, mkdir, unlink, rmdir, rename and statfs of src/src/lib.rs

    The handlers that change names.  They act on four things modelled
    elsewhere: the caches and tables of [Lookup], the cache directory, the
    handles and the upload queue of [Writeback], and the batched deleter of
    [ConcDelete].  The state here is their product; the tombstone set is the
    one the deleter clears.

    The opendal operator is a class: each call gets an answer, and
    [OperatorLaws] is what its documentation says of the calls. *)

From Stdlib Require Import ZArith Lia Strings.Byte Strings.String Strings.Ascii.
From S2P Require Import Prelude Util BlockFormat Utf8 Writeback Inodes ConcDelete Errors DirCache Lookup.

Module Namespace.
Import Inodes DirCache Lookup.
Import Sidecar Worker.

(** ** The operator *)

(** The objects of the backend by key. *)
Abbreviation objects := (gmap string bytes).
Abbreviation kind_result := (result unit Errors.OpendalKind).

(** [answer] is what the backend does during one call. *)
Class Operator (answer : Type) := {
  op_write : answer -> string -> bytes -> objects -> objects * kind_result;
  op_write_new : answer -> string -> bytes -> objects -> objects * kind_result;
  op_read : answer -> string -> objects -> result bytes Errors.OpendalKind;
  op_copy : answer -> string -> string -> objects -> objects * kind_result;
  op_rename : answer -> string -> string -> objects -> objects * kind_result;
  op_delete : answer -> string -> objects -> objects * kind_result;
  op_create_dir : answer -> string -> objects -> objects * kind_result
}.

(** A call changes the keys it names; what it reports as done is done.  After
    an error the object written may or may not be there, and a rename has moved
    the object or left it. *)
Class OperatorLaws (answer : Type) `{!Operator answer} := {
  write_ok a p d b b' : op_write a p d b = (b', Ok tt) -> b' !! p = Some d;
  write_frame a p d b k : k <> p -> fst (op_write a p d b) !! k = b !! k;
  write_new_ok a p d b b' : op_write_new a p d b = (b', Ok tt) -> b !! p = None /\ b' !! p = Some d;
  write_new_frame a p d b k : k <> p -> fst (op_write_new a p d b) !! k = b !! k;
  read_ok a p b d : op_read a p b = Ok d -> b !! p = Some d;
  read_missing a p b : op_read a p b = Err Errors.ONotFound -> b !! p = None;
  copy_ok a src dst b b' : op_copy a src dst b = (b', Ok tt) -> is_Some (b !! src) /\ b' !! dst = b !! src;
  copy_frame a src dst b k : k <> dst -> fst (op_copy a src dst b) !! k = b !! k;
  rename_ok a src dst b b' : op_rename a src dst b = (b', Ok tt) -> src <> dst ->
    is_Some (b !! src) /\ b' !! dst = b !! src /\ b' !! src = None;
  rename_unsupported a src dst b b' : op_rename a src dst b = (b', Err Errors.OUnsupported) -> b' = b;
  rename_kept a src dst b : fst (op_rename a src dst b) !! src = b !! src \/
    fst (op_rename a src dst b) !! dst = b !! src;
  delete_ok a p b b' : op_delete a p b = (b', Ok tt) -> b' !! p = None;
  delete_missing a p b b' : op_delete a p b = (b', Err Errors.ONotFound) -> b' !! p = None;
  delete_frame a p b k : k <> p -> fst (op_delete a p b) !! k = b !! k;
  create_dir_frame a p b k : k <> p -> fst (op_create_dir a p b) !! k = b !! k
}.

(** The calls of one handler. *)
Inductive call := CRename | CCopy | CRead | CWrite | CDeleteDst | CWriteAgain | CDelete | CDir (p : string).

Section Handlers.
Context {answer : Type} `{!Operator answer}.
Context {d_answer D : Type} `{!ConcDelete.Deleter d_answer D} (max_retries : Z).
Context (mode : PathHash.CacheMode) (salt : Z) (ac : attr_config) (lower : string -> string).

(** [NEXT_HANDLE] is shared with the other handlers; [buffers] of [look] is
    derived from the cache directory. *)
Record ns := mk_ns {
  look : fs;
  wd : world;
  deleter : option (ConcDelete.Shared (D := D));
  NEXT_HANDLE : Z
}.
Definition set_look l (s : ns) := mk_ns l (wd s) (deleter s) (NEXT_HANDLE s).
Definition set_wd w (s : ns) := mk_ns (look s) w (deleter s) (NEXT_HANDLE s).
Definition set_deleter d (s : ns) := mk_ns (look s) (wd s) d (NEXT_HANDLE s).
Definition file_meta (f : file) : Z * Z := (lenZ (file_data f), file_mtime f).
(** What the look-up handlers see. *)
Definition core (s : ns) : fs := Lookup.set_buffers (file_meta <$> w_fs (wd s)) (look s).
Definition store (s : ns) : objects := backend (wd s).
Definition set_store (b : objects) (s : ns) : ns := set_wd (set_backend b (mtimes (wd s)) (wd s)) s.
Definition set_files (f : gmap string file) (s : ns) : ns := set_wd (set_disk f (w_index (wd s)) (wd s)) s.
Definition caches_of (s : ns) : caches := cs (look s).
Definition set_caches c (s : ns) : ns := set_look (set_cs c (look s)) s.
Definition tombstones (s : ns) : gset string := delete_tombstones (look s).
Definition set_tombstones (t : gset string) (s : ns) : ns :=
  let l := look s in
  set_look (mk_fs (cs l) t (symlinks l) (symlinks_lower l) (symlink_scan_count l) (buffers l) (write_fds l)
              (dropped l)) s.
Definition ns_table (s : ns) : table := table_of (look s).
Definition set_ns_table (t : table) (s : ns) : ns := set_look (set_table t (look s)) s.
Definition exists_buffer (s : ns) (p : string) : bool := cache_exists salt (wd s) p.

Definition full_path_of (s : ns) (parent : Z) (name : string) : string * string * string :=
  let parent_path := path_of_ino (look s) parent in
  let name := root_name parent_path name in
  (parent_path, name, child_path parent_path name).

(** ** The deleter *)
(** Steps of the pump tasks, while a handler waits or between handlers. *)
Abbreviation schedule := (list (d_answer * bool * nat)).
Definition pump_action (x : d_answer * bool * nat) : ConcDelete.action (answer := d_answer) :=
  ConcDelete.APump (fst (fst x)) (snd (fst x)) (snd x).
Definition sync (s : ns) (sh : ConcDelete.Shared (D := D)) : ConcDelete.Shared (D := D) :=
  ConcDelete.set_tombs (tombstones s)
    (ConcDelete.set_backend (dom (store s)) (ConcDelete.requested sh) (ConcDelete.refused sh) sh).
Definition run_pumps (sched : schedule) (s : ns) : ns :=
  match deleter s with
  | None => s
  | Some sh =>
      let sh := ConcDelete.acts max_retries (sync s sh) (map pump_action sched) in
      set_deleter (Some sh)
        (set_tombstones (ConcDelete.tombs sh)
          (set_store (filter (fun kv => fst kv ∈ ConcDelete.objects sh) (store s)) s))
  end.
(** [deleter.flush().await]; past its deadline the barrier is not acknowledged. *)
Definition flush_deleter (sched : schedule) (s : ns) : ns * result unit Errors.io_Error :=
  match deleter s with
  | None => (s, Ok tt)
  | Some sh =>
      let '(sh, epoch) := ConcDelete.flush_start sh in
      let s := run_pumps sched (set_deleter (Some sh) s) in
      (s, match deleter s with
          | Some sh => if ConcDelete.flush_done epoch sh then Ok tt else Err (Errors.io_new Errors.TimedOut)
          | None => Ok tt
          end)
  end.
Definition enqueue_backend_delete (p : string) (s : ns) : ns * option Z :=
  match deleter s with
  | None => (s, None)
  | Some sh => let '(sh, rx) := ConcDelete.enqueue p sh in (set_deleter (Some sh) s, rx)
  end.
Definition delete_backend_strict (a : answer) (sched : schedule) (p : string) (s : ns)
    : ns * result unit Errors.io_Error :=
  match deleter s with
  | Some _ => flush_deleter sched (fst (enqueue_backend_delete p s))
  | None =>
      let '(b, r) := op_delete a p (store s) in
      (set_store b s,
       match r with
       | Ok _ | Err Errors.ONotFound => Ok tt
       | Err e => Err (Errors.opendal_to_io_error e)
       end)
  end.
(** The guard of [create] and [mkdir] against a pending delete. *)
Definition revive (p : string) (s : ns) : ns :=
  if bool_decide (p ∈ tombstones s) then
    match deleter s with
    | Some sh =>
        let sh := ConcDelete.cancel_pending p (ConcDelete.set_tombs (tombstones s) sh) in
        set_tombstones (ConcDelete.tombs sh) (set_deleter (Some sh) s)
    | None => set_tombstones (tombstones s ∖ {[p]}) s
    end
  else s.

(** ** [mkdir_chain] *)
(** The directories are created together; the first error of another kind
    counts. *)
Definition tolerated (r : kind_result) : bool :=
  match r with Ok _ | Err Errors.OUnsupported | Err Errors.OAlreadyExists => true | _ => false end.
Fixpoint create_dirs (ans : call -> answer) (chain : list string) (b : objects) : objects * bool :=
  match chain with
  | [] => (b, true)
  | p :: rest =>
      let '(b, r) := op_create_dir (ans (CDir p)) p b in
      let '(b, ok) := create_dirs ans rest b in
      (b, tolerated r && ok)
  end.
Definition mkdir_chain (ans : call -> answer) (full_path : string) (s : ns) : ns * result unit Errors.io_Error :=
  let chain := default [] (Path.build_mkdir_chain full_path) in
  let '(b, ok) := create_dirs ans chain (store s) in
  (set_store b s, if ok then Ok tt else Err (Errors.io_new Errors.OtherKind)).

(** ** [create], [create_excl], [mkdir] *)
(** [off_mode_buffer_reset]; [id] is the new allocation. *)
Definition off_mode_buffer_reset (id : Z) (p : string) (w : world) : world :=
  Worker.set_buffers (<[id := []]> (heap w)) (<[p := id]> (off_mode_buffers w)) w.
(** From the successful write on: the inode, the write handle on an empty
    buffer ([open_ok]: the file could be opened) and the parent's listing. *)
Definition finish_create (open_ok : bool) (id now : Z) (parent_path name full_path : string) (s : ns)
    : ns * (CoreFileAttr * Z) :=
  let '(t, ino) := alloc_ino_with_mtime full_path RegularFile 0 now (ns_table s) in
  let s := set_ns_table t s in
  let fh := NEXT_HANDLE s in
  let cpath := PathHash.write_buffer_path salt full_path in
  let has_fd := PathHash.disk_write_buffer mode && open_ok in
  let s := if has_fd then set_files (<[cpath := mk_file [] now true]> (w_fs (wd s))) s else s in
  let s := if PathHash.disk_write_buffer mode then s
           else set_wd (off_mode_buffer_reset id full_path (wd s)) s in
  let buffer := if PathHash.disk_write_buffer mode then None else Some id in
  let s := set_wd (set_handles (<[fh := mk_handle ino full_path has_fd buffer false]> (handles (wd s))) (wd s)) s in
  let s := set_caches (cache_add_entry now parent_path name (mk_value FILE 0 now (Some ino)) (caches_of s)) s in
  let s := set_ns_table (bump_lookup_count ino (ns_table s)) s in
  (mk_ns (look s) (wd s) (deleter s) (wrap64 (fh + 1)), (make_attr ac ino 0 RegularFile now, fh)).
Definition create (ans : call -> answer) (open_ok : bool) (id now parent : Z) (name : string) (s : ns)
    : ns * result (CoreFileAttr * Z) Errors.io_Error :=
  let '(parent_path, name, full_path) := full_path_of s parent name in
  let s := revive full_path s in
  let '(s, made) := mkdir_chain ans full_path s in
  match made with
  | Err e => (s, Err e)
  | Ok _ =>
      let '(b, r) := op_write (ans CWrite) full_path [] (store s) in
      let s := set_store b s in
      match r with
      | Err e => (s, Err (Errors.opendal_to_io_error e))
      | Ok _ => let '(s, r) := finish_create open_ok id now parent_path name full_path s in (s, Ok r)
      end
  end.
(** [if_not_exists]: the capability of the backend. *)
Definition create_excl (if_not_exists : bool) (ans : call -> answer) (open_ok : bool) (id now parent : Z)
    (name : string) (s : ns) : ns * result (CoreFileAttr * Z) Errors.io_Error :=
  if if_not_exists then
    let '(parent_path, name, full_path) := full_path_of s parent name in
    let '(s, made) := mkdir_chain ans full_path s in
    match made with
    | Err e => (s, Err e)
    | Ok _ =>
        let '(b, r) := op_write_new (ans CWrite) full_path [] (store s) in
        let s := set_store b s in
        match r with
        | Err Errors.OAlreadyExists | Err Errors.ConditionNotMatch => (s, Err (Errors.io_new Errors.AlreadyExists))
        | Err e => (s, Err (Errors.opendal_to_io_error e))
        | Ok _ => let '(s, r) := finish_create open_ok id now parent_path name full_path s in (s, Ok r)
        end
    end
  else create ans open_ok id now parent name s.

Definition mkdir (ans : call -> answer) (now parent : Z) (name : string) (s : ns)
    : ns * result CoreFileAttr Errors.io_Error :=
  let parent_path := path_of_ino (look s) parent in
  let full_path := child_path parent_path name in
  let s := revive full_path s in
  let '(s, made) := mkdir_chain ans full_path s in
  match made with
  | Err e => (s, Err e)
  | Ok _ =>
      let leaf := if bool_decide (Str.trim_end Str.SLASH full_path = full_path) then full_path +:+ "/" else full_path in
      let '(b, r) := op_create_dir (ans CWrite) leaf (store s) in
      let s := set_store b s in
      match tolerated r, r with
      | false, Err e => (s, Err (Errors.opendal_to_io_error e))
      | _, _ =>
          let '(t, ino) := alloc_ino_with_mtime full_path Directory 4096 now (ns_table s) in
          let s := set_ns_table t s in
          let s := set_caches (cache_add_entry now parent_path name (mk_value DIR 4096 now (Some ino)) (caches_of s)) s in
          (set_ns_table (bump_lookup_count ino (ns_table s)) s, Ok (make_attr ac ino 4096 Directory now))
      end
  end.

(** ** [unlink] and [rmdir] *)
Definition remove_files (names : list string) (s : ns) : ns :=
  set_files (foldl (fun f n => remove_file n f) (w_fs (wd s)) names) s.
Definition drop_attr (p : string) (c : caches) : caches := set_attr_cache (delete p (attr_cache c)) c.
Definition drop_listing (dir : string) (c : caches) : caches :=
  set_dir_cache (delete (Path.canonicalize_list_path dir) (dir_cache c)) c.

(** The symlink branch: [stored] is the spelling in the table. *)
Definition unlink_symlink (a : answer) (sched : schedule) (parent_path name full_path stored : string) (s : ns) : ns :=
  let l := look s in
  let k := if bool_decide (is_Some (symlinks l !! full_path)) then full_path else stored in
  let s := set_look (set_links (delete k (symlinks l)) (delete (lower k) (symlinks_lower l)) (symlink_scan_count l) l) s in
  let t := ns_table s in
  let k := if bool_decide (is_Some (path_to_ino t !! stored)) then stored else full_path in
  let t := match path_to_ino t !! k with
           | Some ino => set_inodes (delete ino (inodes t)) (set_reverse (delete k (path_to_ino t)) t)
           | None => t
           end in
  let s := set_ns_table t s in
  let cpath := PathHash.write_buffer_path salt stored in
  let s := remove_files [cpath; with_extension cpath "dirty"] s in
  let s := set_caches (drop_listing parent_path (cache_remove_entry parent_path name (drop_attr stored (caches_of s)))) s in
  let pend := writeback_pending (wd s) in
  let s := set_wd (set_pending (pend ∖ {[if bool_decide (stored ∈ pend) then stored else full_path]}) (wd s)) s in
  fst (delete_backend_strict a sched stored s).
(** The local state of a path, whatever the delete answered. *)
Definition unlink_local (parent_path name full_path : string) (s : ns) : ns :=
  let '(t, found) := find_ino_by_path full_path (ns_table s) in
  let file_size := match found ≫= (fun ino => inodes t !! ino) with Some e => size e | None => 0 end in
  let s := set_wd (unlink_path salt false file_size full_path (wd s)) (set_ns_table t s) in
  let s := set_ns_table (remove_path full_path (ns_table s)) s in
  set_caches (drop_listing parent_path (cache_remove_entry parent_path name (drop_attr full_path (caches_of s)))) s.
Definition unlink (a : answer) (sched : schedule) (parent : Z) (name : string) (s : ns)
    : ns * result unit Errors.io_Error :=
  let '(parent_path, name, full_path) := full_path_of s parent name in
  let '(l, link) := lookup_symlink_key_case_insensitive lower full_path (look s) in
  let s := set_look l s in
  match link with
  | Some stored => (unlink_symlink a sched parent_path name full_path stored s, Ok tt)
  | None =>
      let '(s, rx) := enqueue_backend_delete full_path s in
      let '(s, r) := match rx with
                     | Some _ => (set_tombstones (tombstones s ∪ {[full_path]}) s, Ok tt)
                     | None => delete_backend_strict a sched full_path s
                     end in
      (unlink_local parent_path name full_path s, r)
  end.

Definition rmdir (a : answer) (sched : schedule) (parent : Z) (name : string) (s : ns)
    : ns * result unit Errors.io_Error :=
  let '(parent_path, name, full_path) := full_path_of s parent name in
  let dir_path := Str.trim_end Str.SLASH full_path +:+ "/" in
  let '(s, r) := match deleter s with
                 | Some _ =>
                     match flush_deleter sched (fst (enqueue_backend_delete dir_path s)) with
                     | (s, Ok _) => (s, Ok tt)
                     | (s, Err _) => (s, Err (Errors.io_new Errors.OtherKind))
                     end
                 | None => delete_backend_strict a sched dir_path s
                 end in
  match r with
  | Err e => (s, Err e)
  | Ok _ =>
      let s := set_ns_table (remove_path full_path (ns_table s)) s in
      (set_caches (invalidate_dir_cache full_path (cache_remove_entry parent_path name
                     (drop_attr full_path (caches_of s)))) s, Ok tt)
  end.

(** ** [rename] *)
(** The payload of the last fallback: the object, or the write buffer when
    there is no object. *)
Definition read_source (a : answer) (src : string) (s : ns) : result bytes (result bool Errors.io_Error) :=
  match op_read a src (store s) with
  | Ok d => Ok d
  | Err Errors.ONotFound =>
      match w_fs (wd s) !! PathHash.write_buffer_path salt src with
      | Some f => if file_readable f then Ok (file_data f) else Err (Ok false)
      | None => Err (Err not_found)
      end
  | Err _ => Err (Ok false)
  end.
Definition write_dst (ans : call -> answer) (dst : string) (data : bytes) (s : ns) : ns * bool :=
  let '(b, r) := op_write (ans CWrite) dst data (store s) in
  let s := set_store b s in
  match r with
  | Ok _ => (s, true)
  | Err Errors.OAlreadyExists =>
      let '(b, r) := op_delete (ans CDeleteDst) dst (store s) in
      let s := set_store b s in
      match r with
      | Err _ => (s, false)
      | Ok _ =>
          let '(b, r) := op_write (ans CWriteAgain) dst data (store s) in
          (set_store b s, match r with Ok _ => true | Err _ => false end)
      end
  | Err _ => (s, false)
  end.
Definition copy_object (ans : call -> answer) (src dst : string) (s : ns) : ns * result bool Errors.io_Error :=
  let '(b, r) := op_copy (ans CCopy) src dst (store s) in
  let s := set_store b s in
  match r with
  | Ok _ => (s, Ok true)
  | Err Errors.OUnsupported =>
      match read_source (ans CRead) src s with
      | Err r => (s, r)
      | Ok data => let '(s, ok) := write_dst ans dst data s in (s, Ok ok)
      end
  | Err _ => (s, Ok false)
  end.
(** [Ok false]: nothing was renamed and the caller is told it was. *)
Definition rename_backend (ans : call -> answer) (sched : schedule) (src dst : string) (s : ns)
    : ns * result bool Errors.io_Error :=
  let '(b, r) := op_rename (ans CRename) src dst (store s) in
  let s := set_store b s in
  match r with
  | Ok _ => (s, Ok true)
  | Err Errors.OUnsupported =>
      let '(s, copied) := copy_object ans src dst s in
      match copied with
      | Ok true => (fst (delete_backend_strict (ans CDelete) sched src s), Ok true)
      | r => (s, r)
      end
  | Err _ => (s, Ok false)
  end.
(** The write buffer follows when the destination has none, else it goes;
    [move_ok]: the file could be renamed. *)
Definition move_buffer (move_ok : bool) (src dst : string) (f : gmap string file) : gmap string file :=
  let cpath_src := PathHash.write_buffer_path salt src in
  let cpath_dst := PathHash.write_buffer_path salt dst in
  match f !! cpath_src, f !! cpath_dst with
  | Some x, None => if move_ok then <[cpath_dst := x]> (delete cpath_src f) else f
  | _, _ => remove_file cpath_src f
  end.
Definition move_attr (src dst : string) (c : caches) : caches :=
  let a := match attr_cache c !! src with
           | Some e => <[dst := e]> (attr_cache c)
           | None => attr_cache c
           end in
  set_attr_cache (delete src a) c.
(** [Path::parent] is [None] for a path without a last component. *)
Definition invalidate_parent (p : string) (c : caches) : caches :=
  if String.eqb (Str.trim_end Str.SLASH p) EmptyString then c else invalidate_dir_cache (path_parent p) c.
Definition migrate (move_ok : bool) (src dst : string) (s : ns) : ns :=
  let s := set_files (move_buffer move_ok src dst (w_fs (wd s))) s in
  let s := set_ns_table (rename_inode src dst (ns_table s)) s in
  let s := set_caches (move_attr src dst (caches_of s)) s in
  let s := remove_files [with_extension (PathHash.write_buffer_path salt src) "dirty"] s in
  let c := invalidate_dir_cache dst (invalidate_dir_cache src (caches_of s)) in
  set_caches (invalidate_parent dst (invalidate_parent src c)) s.
Definition do_rename (ans : call -> answer) (sched : schedule) (move_ok : bool) (src dst : string) (s : ns)
    : ns * result unit Errors.io_Error :=
  let orphan_fast_path := negb (exists_buffer s src) && exists_buffer s dst in
  let '(s, r) := if orphan_fast_path then (s, Ok true) else rename_backend ans sched src dst s in
  match r with
  | Ok true => (migrate move_ok src dst s, Ok tt)
  | Ok false => (s, Ok tt)
  | Err e => (s, Err e)
  end.
Definition rename (ans : call -> answer) (sched : schedule) (move_ok : bool) (parent : Z) (name : string)
    (newparent : Z) (newname : string) (s : ns) : ns * result unit Errors.io_Error :=
  let '(_, _, src) := full_path_of s parent name in
  let '(_, _, dst) := full_path_of s newparent newname in
  do_rename ans sched move_ok src dst s.
(** [trim_start_matches('/')]. *)
Fixpoint trim_slashes (p : string) : string :=
  match p with
  | String a rest => if Ascii.eqb a Str.SLASH then trim_slashes rest else p
  | EmptyString => p
  end.
Definition rename_paths (ans : call -> answer) (sched : schedule) (move_ok : bool) (src_path dst_path : string)
    (s : ns) : ns * result unit Errors.io_Error :=
  do_rename ans sched move_ok (trim_slashes src_path) (trim_slashes dst_path) s.

(** ** [statfs] *)
Record CoreVolumeStat := mk_volume {
  total_blocks : Z; free_blocks : Z; avail_blocks : Z; total_inodes : Z; free_inodes : Z;
  block_size : Z; max_name_len : Z
}.
Definition MAX_INODES : Z := 1000000000.
Definition statfs (disk_total_size : Z) (s : ns) : CoreVolumeStat :=
  let bs := 4096 in
  let total := if 0 <? disk_total_size then disk_total_size / bs else 256 * 1024 * 1024 in
  let used := wrap64 (msum (fun e => (fst e + (bs - 1)) / bs) (w_index (wd s))) in
  let free := saturating_sub total used in
  let used_inodes := Z.of_nat (base.size (inodes (ns_table s))) in
  mk_volume total free free MAX_INODES (saturating_sub MAX_INODES used_inodes) bs 255.

(** ** What the deleter can remove *)
Section Laws.
Context {op_laws : OperatorLaws answer} {del_laws : ConcDelete.DeleterLaws d_answer D}.

(** No delete of [p] is on its way. *)
Definition undisturbed (p : string) (s : ns) : Prop :=
  match deleter s with Some sh => p ∉ ConcDelete.held sh | None => True end.

Lemma run_pumps_store sched s k : undisturbed k s -> store (run_pumps sched s) !! k = store s !! k.
Proof using del_laws.
  unfold undisturbed, run_pumps. destruct (deleter s) as [sh|]; [|done]. intros Hk.
  destruct (ConcDelete.acts_held max_retries (map pump_action sched) (sync s sh)) as (_ & _ & Hh).
  { apply Forall_map, Forall_true. done. }
  change (ConcDelete.held (sync s sh)) with (ConcDelete.held sh) in Hh.
  change (ConcDelete.objects (sync s sh)) with (dom (store s)) in Hh.
  unfold store at 1. cbn [wd set_deleter set_tombstones set_look set_store set_wd backend set_backend].
  rewrite map_lookup_filter. destruct (store s !! k) as [d|] eqn:E; [|done]. cbn.
  assert (Hkd : k ∈ dom (store s)) by (apply elem_of_dom; eauto).
  rewrite option_guard_True; [done|]. clear -Hh Hk Hkd. set_solver.
Qed.

Lemma held_enqueue p sh k : k <> p -> k ∉ ConcDelete.held sh -> k ∉ ConcDelete.held (fst (ConcDelete.enqueue p sh)).
Proof using del_laws.
  intros Hp Hk Hin. apply Hk. unfold ConcDelete.enqueue in Hin.
  destruct (ConcDelete.accepting sh); [|done]. cbn [fst] in Hin.
  assert (Hin' : k ∈ ConcDelete.held (ConcDelete.push_job p sh)).
  { destruct (ConcDelete.pending sh); [|done]. by apply ConcDelete.held_notify_one in Hin. }
  apply ConcDelete.elem_of_held in Hin' as [Hin'|Hin']; apply ConcDelete.elem_of_held; [|by right]. left.
  cbn [ConcDelete.push_job ConcDelete.pending] in Hin'. rewrite ConcDelete.keys_of_app, ConcDelete.keys_of_cons in Hin'.
  cbn in Hin'. clear -Hin' Hp. set_solver.
Qed.

Lemma flush_store sched s k : undisturbed k s -> store (fst (flush_deleter sched s)) !! k = store s !! k.
Proof using del_laws.
  unfold flush_deleter. intros Hk. destruct (deleter s) as [sh|] eqn:Ed; [|done].
  unfold ConcDelete.flush_start. cbn [fst]. rewrite run_pumps_store; [done|]. unfold undisturbed in *. rewrite Ed in Hk.
  cbn [deleter set_deleter]. intros Hin. apply Hk. by apply ConcDelete.held_notify_waiters in Hin.
Qed.

Lemma delete_strict_store a sched p s k : k <> p -> undisturbed k s ->
  store (fst (delete_backend_strict a sched p s)) !! k = store s !! k.
Proof using op_laws del_laws.
  intros Hp Hk. unfold delete_backend_strict. destruct (deleter s) as [sh|] eqn:Ed.
  - unfold undisturbed in Hk. rewrite Ed in Hk. rewrite flush_store.
    + unfold enqueue_backend_delete. rewrite Ed. by destruct (ConcDelete.enqueue p sh).
    + unfold undisturbed, enqueue_backend_delete. rewrite Ed.
      pose proof (held_enqueue p sh k Hp Hk). by destruct (ConcDelete.enqueue p sh).
  - pose proof (delete_frame a p (store s) k Hp). by destruct (op_delete a p (store s)).
Qed.

Lemma store_set b s : store (set_store b s) = b.
Proof. done. Qed.
Lemma undisturbed_set_store p b s : undisturbed p (set_store b s) = undisturbed p s.
Proof. done. Qed.

(** ** [rename] keeps the data *)

Lemma write_dst_spec ans dst data s s' ok : write_dst ans dst data s = (s', ok) ->
  s' = set_store (store s') s /\ (forall k, k <> dst -> store s' !! k = store s !! k) /\
  (ok = true -> store s' !! dst = Some data).
Proof using op_laws.
  unfold write_dst. intros E.
  pose proof (write_ok (ans CWrite) dst data (store s)) as W1.
  pose proof (fun k => write_frame (ans CWrite) dst data (store s) k) as F1.
  destruct (op_write (ans CWrite) dst data (store s)) as [b1 [[]|e]]; [simplify_eq; split_and!; auto|].
  destruct e; simplify_eq; try (by split_and!; auto). rewrite store_set in E.
  pose proof (fun k => delete_frame (ans CDeleteDst) dst b1 k) as F2.
  destruct (op_delete (ans CDeleteDst) dst b1) as [b2 [[]|e]]; simplify_eq; cbn [fst] in *.
  - rewrite store_set in E.
    pose proof (write_ok (ans CWriteAgain) dst data b2) as W3.
    pose proof (fun k => write_frame (ans CWriteAgain) dst data b2 k) as F3.
    destruct (op_write (ans CWriteAgain) dst data b2) as [b3 [[]|e]]; simplify_eq; cbn [fst] in *;
      (split_and!; [done|intros k Hk; rewrite store_set, F3, F2, F1; done|intros; try done; auto]).
  - split_and!; [done| |done]. intros k Hk. rewrite store_set, F2, F1; done.
Qed.

(** The copy fallback: the bytes that reach the destination are those of the
    object, or of the write buffer when there is no object. *)
Definition payload_of_path (s : ns) (p : string) : option bytes :=
  match store s !! p with
  | Some d => Some d
  | None => match w_fs (wd s) !! PathHash.write_buffer_path salt p with
            | Some f => if file_readable f then Some (file_data f) else None
            | None => None
            end
  end.
Lemma copy_object_spec ans src dst s s' r : src <> dst -> copy_object ans src dst s = (s', r) ->
  s' = set_store (store s') s /\ (forall k, k <> dst -> store s' !! k = store s !! k) /\
  match r with
  | Ok true => exists d, payload_of_path s src = Some d /\ store s' !! dst = Some d
  | Ok false => True
  | Err e => e = not_found /\ store s !! src = None /\ w_fs (wd s) !! PathHash.write_buffer_path salt src = None
  end.
Proof using op_laws.
  intros Hne E. unfold copy_object in E. unfold payload_of_path.
  pose proof (copy_ok (ans CCopy) src dst (store s)) as C1.
  pose proof (fun k => copy_frame (ans CCopy) src dst (store s) k) as F1.
  destruct (op_copy (ans CCopy) src dst (store s)) as [b1 [[]|e]]; cbn [fst] in F1.
  - simplify_eq. destruct (C1 b1 eq_refl) as [[d Hd] Hc]. split_and!; auto.
    exists d. rewrite Hd, store_set, Hc. done.
  - destruct e; simplify_eq; try (by split_and!; auto).
    unfold read_source in E. rewrite store_set in E. change (wd (set_store b1 s)) with
      (set_backend b1 (mtimes (wd s)) (wd s)) in E. cbn [w_fs set_backend] in E.
    pose proof (read_ok (ans CRead) src b1) as R1. pose proof (read_missing (ans CRead) src b1) as R2.
    rewrite (F1 src Hne) in R1, R2.
    destruct (op_read (ans CRead) src b1) as [d|e].
    + rewrite (R1 d eq_refl). destruct (write_dst ans dst d (set_store b1 s)) as [s2 ok] eqn:Ew. simplify_eq.
      destruct (write_dst_spec _ _ _ _ _ _ Ew) as (E1 & E2 & E3). split_and!.
      * rewrite E1. done.
      * intros k Hk. rewrite E2, store_set by done. auto.
      * destruct ok; [|done]. eauto.
    + destruct e; simplify_eq; try (by split_and!; auto). rewrite (R2 eq_refl).
      destruct (w_fs (wd s) !! PathHash.write_buffer_path salt src) as [f|] eqn:Ef; [|simplify_eq; by split_and!; auto].
      destruct (file_readable f); [|simplify_eq; by split_and!; auto].
      destruct (write_dst ans dst (file_data f) (set_store b1 s)) as [s2 ok] eqn:Ew. simplify_eq.
      destruct (write_dst_spec _ _ _ _ _ _ Ew) as (E1 & E2 & E3). split_and!.
      * rewrite E1. done.
      * intros k Hk. rewrite E2, store_set by done. auto.
      * destruct ok; [|done]. eauto.
Qed.

Lemma store_migrate move_ok src dst s : store (migrate move_ok src dst s) = store s.
Proof. done. Qed.

(** What the backend part of [rename] leaves behind. *)
Lemma rename_backend_spec ans sched src dst s s' r : src <> dst -> undisturbed dst s ->
  rename_backend ans sched src dst s = (s', r) ->
  match r with
  | Ok true => exists d, payload_of_path s src = Some d /\ store s' !! dst = Some d
  | Ok false => s' = set_store (store s') s /\
      (store s' !! src = store s !! src \/ store s' !! dst = store s !! src)
  | Err e => e = not_found /\ s' = set_store (store s') s /\
      store s !! src = None /\ w_fs (wd s) !! PathHash.write_buffer_path salt src = None
  end.
Proof using op_laws del_laws.
  intros Hne Hu E. unfold rename_backend in E.
  pose proof (rename_ok (ans CRename) src dst (store s)) as R1.
  pose proof (rename_unsupported (ans CRename) src dst (store s)) as R2.
  pose proof (rename_kept (ans CRename) src dst (store s)) as R3.
  destruct (op_rename (ans CRename) src dst (store s)) as [b1 [[]|e]]; cbn [fst] in R3.
  - simplify_eq. destruct (R1 b1 eq_refl Hne) as ([d Hd] & Hb & _). exists d. unfold payload_of_path.
    rewrite Hd, store_set, Hb. done.
  - destruct e; simplify_eq; try (by split; auto). specialize (R2 b1 eq_refl) as ->.
    destruct (copy_object ans src dst (set_store (store s) s)) as [s2 c] eqn:Ec.
    destruct (copy_object_spec _ _ _ _ _ _ Hne Ec) as (E1 & E2 & E3).
    change (payload_of_path (set_store (store s) s) src) with (payload_of_path s src) in E3.
    destruct c as [[|]|e]; simplify_eq.
    + destruct E3 as (d & Hd & Hs). exists d. split; [done|].
      rewrite delete_strict_store; [done|done|]. rewrite E1. exact Hu.
    + split; [exact E1|]. left. by rewrite E2.
    + destruct E3 as (-> & Hs & Hf). split_and!; [done|exact E1|done|exact Hf].
Qed.

(** C5: whatever the backend answers and the pumps do meanwhile, the bytes of the
    source object are afterwards under the old or under the new name, provided
    no delete of the new name is on its way. *)
Theorem rename_keeps_object ans sched move_ok src dst s d :
  src <> dst -> undisturbed dst s -> store s !! src = Some d ->
  let s' := fst (do_rename ans sched move_ok src dst s) in
  store s' !! src = Some d \/ store s' !! dst = Some d.
Proof using op_laws del_laws.
  intros Hne Hu Hd. unfold do_rename.
  destruct (negb (exists_buffer s src) && exists_buffer s dst); [left; by rewrite <-Hd|].
  destruct (rename_backend ans sched src dst s) as [s1 r] eqn:E.
  pose proof (rename_backend_spec _ _ _ _ _ _ _ Hne Hu E) as Hr. destruct r as [[|]|e]; cbn [fst].
  - destruct Hr as (d' & Hp & Hs). unfold payload_of_path in Hp. rewrite Hd in Hp. simplify_eq. by right.
  - destruct Hr as (_ & [Hs|Hs]); rewrite Hs; auto.
  - by destruct Hr as (_ & _ & Hs & _); rewrite Hs in Hd.
Qed.

(** C21: a source that has no object and only a readable buffer file, renamed to
    another path of which no delete is on its way, keeps that buffer file or
    becomes the object under the new name, whatever the backend answers. *)
Theorem rename_keeps_unflushed ans sched move_ok src dst s f :
  src <> dst -> undisturbed dst s -> store s !! src = None ->
  w_fs (wd s) !! PathHash.write_buffer_path salt src = Some f -> file_readable f = true ->
  let s' := fst (do_rename ans sched move_ok src dst s) in
  w_fs (wd s') !! PathHash.write_buffer_path salt src = Some f \/ store s' !! dst = Some (file_data f).
Proof using op_laws del_laws.
  intros Hne Hu Hn Hf Hr. unfold do_rename, exists_buffer, cache_exists. rewrite Hf.
  rewrite (bool_decide_true (is_Some (Some f))) by eauto. cbn [negb andb].
  destruct (rename_backend ans sched src dst s) as [s1 r] eqn:E.
  pose proof (rename_backend_spec _ _ _ _ _ _ _ Hne Hu E) as Hs. destruct r as [[|]|e]; cbn [fst].
  - destruct Hs as (d & Hp & Hs). unfold payload_of_path in Hp. rewrite Hn, Hf, Hr in Hp. simplify_eq. by right.
  - destruct Hs as (-> & _). by left.
  - destruct Hs as (_ & _ & _ & Hs). by rewrite Hf in Hs.
Qed.

(** [rename] fails only when the source is nowhere, and then has changed
    nothing but, perhaps, objects. *)
Theorem rename_error_spec ans sched move_ok src dst s s' e :
  src <> dst -> undisturbed dst s -> do_rename ans sched move_ok src dst s = (s', Err e) ->
  e = not_found /\ store s !! src = None /\ w_fs (wd s) !! PathHash.write_buffer_path salt src = None /\
  s' = set_store (store s') s.
Proof using op_laws del_laws.
  intros Hne Hu E. unfold do_rename in E. destruct (_ && _); [done|].
  destruct (rename_backend ans sched src dst s) as [s1 r] eqn:Er.
  pose proof (rename_backend_spec _ _ _ _ _ _ _ Hne Hu Er) as Hs. destruct r as [[|]|e']; simplify_eq.
  destruct Hs as (-> & E1 & Hn & Hf). done.
Qed.

(** Where an error is not reported, the mount is as before and the caller is
    told that the rename was done. *)
Theorem rename_refused_reports_ok ans sched move_ok src dst s b k :
  op_rename (ans CRename) src dst (store s) = (b, Err k) -> k <> Errors.OUnsupported ->
  (exists_buffer s src = true \/ exists_buffer s dst = false) ->
  do_rename ans sched move_ok src dst s = (set_store b s, Ok tt).
Proof.
  intros E Hk Hb. unfold do_rename. assert (negb (exists_buffer s src) && exists_buffer s dst = false) as ->.
  { destruct Hb as [->| ->]; [done|apply andb_false_r]. }
  unfold rename_backend. rewrite E. by destruct k.
Qed.

(** ** After [create] *)

Lemma revive_spec p s :
  (p ∉ tombstones (revive p s)) /\ cs (look (revive p s)) = cs (look s) /\
  symlinks (look (revive p s)) = symlinks (look s) /\ wd (revive p s) = wd s /\
  NEXT_HANDLE (revive p s) = NEXT_HANDLE s.
Proof using Type.
  unfold revive. case_bool_decide; [|done]. destruct (deleter s); split_and!; try done;
    unfold tombstones; cbn; clear; set_solver.
Qed.

Lemma mkdir_chain_store ans p s : fst (mkdir_chain ans p s) = set_store (store (fst (mkdir_chain ans p s))) s.
Proof. unfold mkdir_chain. by destruct (create_dirs _ _ _). Qed.

(** The inode, the handle and the listing a successful create leaves. *)
Lemma finish_create_spec open_ok id now pp name full s b : wf b (ns_table s) ->
  let '(s', (a, fh)) := finish_create open_ok id now pp name full s in
  let has_fd := PathHash.disk_write_buffer mode && open_ok in
  let t' := table_of (look s') in
  a = make_attr ac (a_ino a) 0 RegularFile now /\ fh = NEXT_HANDLE s /\
  (exists e, path_to_ino t' !! full = Some (a_ino a) /\ inodes t' !! a_ino a = Some e /\ path e = full) /\
  (forall j, j <> NEXT_INO (ns_table s) -> inodes t' !! j = inodes (ns_table s) !! j) /\
  cached_entry (look s') pp name = Some (mk_value FILE 0 now (Some (a_ino a))) /\
  symlinks (look s') = symlinks (look s) /\ tombstones s' = tombstones s /\ store s' = store s /\
  handles (wd s') !! fh = Some (mk_handle (a_ino a) full has_fd
    (if PathHash.disk_write_buffer mode then None else Some id) false) /\
  w_fs (wd s') = (if has_fd then <[PathHash.write_buffer_path salt full := mk_file [] now true]> (w_fs (wd s))
                  else w_fs (wd s)).
Proof using Type.
  intros Hw. unfold finish_create.
  assert (Ha : exists t i, alloc_ino_with_mtime full RegularFile 0 now (ns_table s) = (t, i) /\
     (exists e, path_to_ino t !! full = Some i /\ inodes t !! i = Some e /\ path e = full) /\
     (forall j, j <> NEXT_INO (ns_table s) -> inodes t !! j = inodes (ns_table s) !! j)).
  { destruct (alloc_cases (Some now) full RegularFile 0 (ns_table s) b Hw) as [(i & e & E & Hp & Hi)|(_ & _ & E)];
      unfold alloc_ino_with_mtime; rewrite E.
    - eexists _, _. split_and!; [done| |done]. exists e. split_and!; [done|done|]. by eapply (wf_reverse _ _ Hw).
    - eexists _, _. split_and!; [done| |].
      + eexists. cbn. by rewrite !lookup_insert_eq.
      + intros j Hj. cbn. by rewrite lookup_insert_ne. }
  destruct Ha as (t & i & -> & (e & E1 & E2 & E3) & Hj).
  cbn [NEXT_HANDLE]. cbv zeta.
  unfold cached_entry, cache_add_entry, tombstones, store, caches_of, ns_table in *.
  destruct (PathHash.disk_write_buffer mode), open_ok; cbn in *;
    (destruct (dir_cache (cs (look s)) !! Path.canonicalize_list_path pp) as [[t0 snap]|] eqn:Ed; cbn;
     rewrite ?Ed; cbn; rewrite ?lookup_insert_eq; cbn; rewrite ?lookup_insert_eq, ?lookup_singleton_eq;
     split_and!; try done; unfold table_of in *; cbn; rewrite ?bump_inodes; eauto;
     exists e; split_and!; try done; unfold bump_lookup_count; by case_test).
Qed.


(** A create that fails changes neither inodes nor listings nor handles nor
    the cache directory. *)
Theorem create_error_local ans open_ok id now parent name s s' e :
  create ans open_ok id now parent name s = (s', Err e) ->
  cs (look s') = cs (look s) /\ symlinks (look s') = symlinks (look s) /\
  wd s' = set_backend (store s') (mtimes (wd s)) (wd s) /\ NEXT_HANDLE s' = NEXT_HANDLE s.
Proof using Type.
  intros E. unfold create in E. destruct (full_path_of s parent name) as [[pp nm] full].
  destruct (revive_spec full s) as (R1 & R2 & R3 & R4 & R5). set (s0 := revive full s) in *.
  pose proof (mkdir_chain_store ans full s0) as Em.
  destruct (mkdir_chain ans full s0) as [s1 [[]|]]; cbn [fst] in Em.
  - destruct (op_write (ans CWrite) full [] (store s1)) as [b1 [[]|]].
    + destruct (finish_create _ _ _ _ _ _ _). done.
    + simplify_eq. rewrite Em. cbn. by rewrite R4.
  - simplify_eq. rewrite Em. cbn. by rewrite R4.
Qed.

(** ** After [unlink] *)

Lemma child_neq pp name : name <> EmptyString -> child_path pp name <> pp.
Proof.
  intros Hn. unfold child_path. destruct (String.eqb_spec pp EmptyString) as [->|]; [done|].
  intros E. assert (El : String.length (pp +:+ String Str.SLASH name) = String.length pp) by (by rewrite E).
  rewrite Str.length_append in El. cbn in El. lia.
Qed.

Lemma remove_path_other p t i e : inodes t !! i = Some e -> path e <> p -> inodes (remove_path p t) !! i = Some e.
Proof.
  intros Hi He. unfold remove_path. pose proof (find_cases p t) as Hc.
  destruct (find_ino_by_path p t) as [t' [j|]]; cbn.
  - destruct Hc as (E & _ & _ & (e' & Hj & He') & _). rewrite E, lookup_delete_ne; [done|]. intros ->. by simplify_eq.
  - destruct Hc as (E & _). by rewrite E.
Qed.
Lemma remove_path_none p t i : inodes t !! i = None -> inodes (remove_path p t) !! i = None.
Proof.
  intros Hi. unfold remove_path. pose proof (find_cases p t) as Hc.
  destruct (find_ino_by_path p t) as [t' [j|]]; cbn; destruct Hc as (E & _); rewrite E; [|done].
  by apply lookup_delete_None; right.
Qed.

Lemma remove_blocks_none fs p size n : fs !! n = None -> remove_block_cache_files salt fs p size !! n = None.
Proof.
  unfold remove_block_cache_files. generalize (seqZ 0 ((size + CACHE_BLOCK_SIZE - 1) / CACHE_BLOCK_SIZE)).
  intros l. revert fs. induction l as [|x l IH]; intros fs Hn; [done|]. cbn. apply IH.
  unfold remove_file. by apply lookup_delete_None; right.
Qed.

(** What the local clean-up leaves of a path. *)
Lemma unlink_local_spec pp name full s :
  let s' := unlink_local pp name full s in
  cached_entry (look s') pp name = None /\ attr_cache (caches_of s') !! full = None /\
  w_fs (wd s') !! PathHash.write_buffer_path salt full = None /\ (full ∉ writeback_pending (wd s')) /\
  symlinks (look s') = symlinks (look s) /\ tombstones s' = tombstones s /\ store s' = store s /\
  (forall i, inodes (ns_table s') !! i = inodes (remove_path full (fst (find_ino_by_path full (ns_table s)))) !! i).
Proof using Type.
  unfold unlink_local. destruct (find_ino_by_path full (ns_table s)) as [t found] eqn:Ef. cbn [fst].
  set (sz := match _ with Some e => size e | None => 0 end).
  cbv zeta. split_and!; try done.
  - unfold cached_entry. cbn. by rewrite lookup_delete_eq.
  - unfold caches_of. cbn. unfold cache_remove_entry. destruct (dir_cache _ !! _) as [[? ?]|]; cbn; by rewrite lookup_delete_eq.
  - cbn. case_test; [apply remove_blocks_none|]; unfold remove_file; by rewrite lookup_delete_eq.
  - cbn. clear; set_solver.
  - intros i. cbn. unfold cache_remove_entry. by destruct (dir_cache _ !! _) as [[? ?]|].
Qed.

Lemma unlink_local_parent pp name full s parent : path_of_ino (look s) parent = pp -> full <> pp ->
  path_of_ino (look (unlink_local pp name full s)) parent = pp.
Proof using Type.
  intros Hp Hne. destruct (unlink_local_spec pp name full s) as (_ & _ & _ & _ & _ & _ & _ & Hi).
  unfold path_of_ino, resolve in *. change (table_of (look ?x)) with (ns_table x) in *. rewrite Hi.
  pose proof (find_cases full (ns_table s)) as Hc. destruct (find_ino_by_path full (ns_table s)) as [t r].
  destruct Hc as (E & _). cbn [fst].
  destruct (inodes (ns_table s) !! parent) as [e|] eqn:Ee.
  - rewrite (remove_path_other _ _ _ e); [done|by rewrite E|congruence].
  - rewrite remove_path_none; [done|by rewrite E].
Qed.

Lemma delete_strict_look a sched p s : deleter s = None ->
  look (fst (delete_backend_strict a sched p s)) = look s.
Proof using Type. intros Hd. unfold delete_backend_strict. rewrite Hd. by destruct (op_delete a p (store s)). Qed.

(** What the backend's [stat] answers of a path is whether the store has an
    object under it (no marker, no keys below it). *)
Definition stat_agrees cfg op (b : objects) (p : string) : Prop :=
  is_Some (backend_stat cfg op p) <-> is_Some (b !! p).

(** C12: with no symbolic links, an [unlink] of a name other than [.] and [..]
    that succeeds takes the name away.  The mark of a pending upload is gone,
    and so is the buffer file; an upload already queued still runs.  Without a
    batched deleter the object is gone; with one that accepts keys, the object
    may still be there and the tombstone of the path stands.  A look-up then
    answers [NotFound], as long as the backend's [stat] of the path answers
    from the store. *)
Theorem unlink_then_lookup cfg op a sched parent name s s' now :
  let pp := path_of_ino (look s) parent in
  let full := child_path pp (root_name pp name) in
  symlinks (look s) = ∅ -> name <> "."%string -> name <> ".."%string -> root_name pp name <> EmptyString ->
  (deleter s = None \/ exists sh, deleter s = Some sh /\ ConcDelete.accepting sh = true) ->
  unlink a sched parent name s = (s', Ok tt) -> stat_agrees cfg op (store s') full ->
  (full ∉ writeback_pending (wd s')) /\ w_fs (wd s') !! PathHash.write_buffer_path salt full = None /\
  (deleter s = None -> store s' !! full = None) /\ (is_Some (deleter s) -> full ∈ tombstones s') /\
  exists e, snd (lookup cfg ac op salt lower now parent name (core s')) = Err e /\ Errors.kind e = Errors.NotFound.
Proof using op_laws.
  intros pp full Hl H1 H2 Hn Hd E Hb. unfold unlink, full_path_of in E. fold pp full in E.
  destruct (no_symlinks lower full (look s) Hl) as [_ Hk]. rewrite Hk in E.
  set (s0 := set_look (look s) s) in *. assert (Hs0 : deleter s0 = deleter s) by done.
  (* what the delete leaves for the clean-up *)
  assert (Hmid : exists s1, s' = unlink_local pp (root_name pp name) full s1 /\ symlinks (look s1) = ∅ /\
            path_of_ino (look s1) parent = pp /\ (deleter s = None -> store s1 !! full = None) /\
            (is_Some (deleter s) -> full ∈ tombstones s1)).
  { destruct Hd as [Hd|(sh & Hd & Hacc)].
    - unfold enqueue_backend_delete in E. rewrite Hs0, Hd in E.
      pose proof (delete_strict_look a sched full s0) as Hlk.
      destruct (delete_backend_strict a sched full s0) as [s1 r] eqn:Es. simplify_eq. cbn [fst] in Hlk.
      exists s1. rewrite Hlk by done. split_and!; try done.
      + intros _. unfold delete_backend_strict in Es. rewrite Hs0, Hd in Es.
        pose proof (delete_ok a full (store s0)) as D1. pose proof (delete_missing a full (store s0)) as D2.
        destruct (op_delete a full (store s0)) as [b1 [[]|k]]; simplify_eq; [by apply D1|].
        destruct k; simplify_eq. by apply D2.
      + intros [? Hq]. by rewrite Hd in Hq.
    - unfold enqueue_backend_delete in E. rewrite Hs0, Hd in E. unfold ConcDelete.enqueue in E. rewrite Hacc in E.
      simplify_eq. eexists. split_and!; [done|done|done|by rewrite Hd|]. intros _. cbn. clear; set_solver. }
  destruct Hmid as (s1 & -> & Hl1 & Hp1 & Hst & Hgone).
  destruct (unlink_local_spec pp (root_name pp name) full s1) as (C1 & C2 & C3 & C4 & C5 & C6 & C7 & _).
  pose proof (unlink_local_parent pp (root_name pp name) full s1 parent Hp1 (child_neq _ _ Hn)) as Hpp.
  set (s2 := unlink_local pp (root_name pp name) full s1) in *.
  split_and!; [done|done|by rewrite C7|by rewrite C6|].
  unfold lookup. rewrite not_dots by done.
  change (path_of_ino (core s2) parent) with (path_of_ino (look s2) parent). rewrite Hpp. fold full.
  change (delete_tombstones (core s2)) with (tombstones s2). rewrite C6.
  case_bool_decide as Ht; [by eexists|].
  assert (Hnone : backend_stat cfg op full = None).
  { apply eq_None_not_Some. intros Hq. apply Hb in Hq. rewrite C7 in Hq. destruct (deleter s) as [sh|] eqn:Ed.
    - destruct Ht. by apply Hgone.
    - destruct Hq as [? Hq]. by rewrite Hst in Hq. }
  destruct (no_symlinks lower full (core s2)) as [-> _]; [exact (eq_trans C5 Hl1)|].
  change (cached_entry (core s2) pp (root_name pp name)) with (cached_entry (look s2) pp (root_name pp name)).
  rewrite C1. unfold resolve_name, stat_op, cached_stat.
  change (attr_cache (cs (core s2))) with (attr_cache (caches_of s2)). rewrite C2, Hnone.
  replace (if vfs_refresh cfg then None else None) with (@None FileStat) by (by destruct (vfs_refresh cfg)).
  change (cached_entry (set_cs (cs (core s2)) (core s2)) pp (root_name pp name)) with
    (cached_entry (look s2) pp (root_name pp name)). rewrite C1.
  unfold buffer_meta. change (buffers (set_cs (cs (core s2)) (core s2))) with (file_meta <$> w_fs (wd s2)).
  rewrite lookup_fmap, C3. by eexists.
Qed.

(** ** After [rename] *)

Lemma invalidate_drops p c k :
  k = Path.canonicalize_list_path p \/ dir_cache c !! k = None -> dir_cache (invalidate_dir_cache p c) !! k = None.
Proof.
  intros Hk. rewrite invalidate_dir_cache_spec. destruct Hk as [->|Hk].
  - unfold starts_with. pose proof (strip_prefix_append (Path.canonicalize_list_path p) EmptyString) as Hs.
    by rewrite Str.append_nil_r in Hs; rewrite Hs.
  - by destruct (_ || _).
Qed.
Lemma invalidate_parent_drops p c k : Str.trim_end Str.SLASH p <> EmptyString ->
  k = Path.canonicalize_list_path (path_parent p) \/ dir_cache c !! k = None ->
  dir_cache (invalidate_parent p c) !! k = None.
Proof.
  intros Hp Hk. unfold invalidate_parent. destruct (String.eqb_spec (Str.trim_end Str.SLASH p) EmptyString); [done|].
  by apply invalidate_drops.
Qed.

Lemma invalidate_caches p c : tbl (invalidate_dir_cache p c) = tbl c /\ attr_cache (invalidate_dir_cache p c) = attr_cache c.
Proof. done. Qed.
Lemma invalidate_parent_caches p c :
  tbl (invalidate_parent p c) = tbl c /\ attr_cache (invalidate_parent p c) = attr_cache c.
Proof. unfold invalidate_parent. by destruct (String.eqb _ _). Qed.

Lemma migrate_spec move_ok src dst s :
  let s' := migrate move_ok src dst s in
  ns_table s' = rename_inode src dst (ns_table s) /\ attr_cache (caches_of s') = attr_cache (move_attr src dst (caches_of s)) /\
  symlinks (look s') = symlinks (look s) /\ tombstones s' = tombstones s /\ store s' = store s /\
  (Str.trim_end Str.SLASH src <> EmptyString -> Str.trim_end Str.SLASH dst <> EmptyString ->
   dir_cache (caches_of s') !! Path.canonicalize_list_path (path_parent src) = None /\
   dir_cache (caches_of s') !! Path.canonicalize_list_path (path_parent dst) = None).
Proof.
  cbv zeta. unfold migrate. split_and!; try done.
  - unfold ns_table, table_of. cbn. by rewrite !(proj1 (invalidate_parent_caches _ _)).
  - unfold caches_of. cbn. by rewrite !(proj2 (invalidate_parent_caches _ _)).
  - intros Hs Hd. unfold caches_of at 1 3. cbn. split.
    + apply invalidate_parent_drops; [done|right]. apply invalidate_parent_drops; [done|by left].
    + apply invalidate_parent_drops; [done|by left].
Qed.

Lemma rename_inode_moves src dst t ino e : path_to_ino t !! src = Some ino -> inodes t !! ino = Some e -> path e = src ->
  inodes (rename_inode src dst t) !! ino = Some (mk_inode dst (kind e) (size e) (mtime e)) /\
  path_to_ino (rename_inode src dst t) !! dst = Some ino.
Proof.
  intros Hp Hi He. unfold rename_inode, find_ino_by_path. rewrite Hp, Hi, bool_decide_true by done. cbn.
  by rewrite lookup_alter_eq, Hi, lookup_insert_eq.
Qed.

(** C15: a rename that the backend's own rename carries out, of paths other than
    the root, where the source has a buffer file or the destination has none,
    moves the object; the inode the kernel holds follows, and the listings of
    both parents are dropped.  With no symbolic links, no tombstone of the new
    path and a backend whose [stat] of it answers from the store, the look-up of
    the new name succeeds with that inode. *)
Theorem rename_moves ans sched move_ok src dst s bst ino e b :
  wf b (ns_table s) -> src <> dst ->
  Str.trim_end Str.SLASH src <> EmptyString -> Str.trim_end Str.SLASH dst <> EmptyString ->
  op_rename (ans CRename) src dst (store s) = (bst, Ok tt) ->
  (exists_buffer s src = true \/ exists_buffer s dst = false) ->
  path_to_ino (ns_table s) !! src = Some ino -> inodes (ns_table s) !! ino = Some e ->
  let '(s', r) := do_rename ans sched move_ok src dst s in
  r = Ok tt /\ store s' !! dst = store s !! src /\ store s' !! src = None /\
  inodes (ns_table s') !! ino = Some (mk_inode dst (kind e) (size e) (mtime e)) /\
  dir_cache (caches_of s') !! Path.canonicalize_list_path (path_parent src) = None /\
  dir_cache (caches_of s') !! Path.canonicalize_list_path (path_parent dst) = None /\
  (forall cfg op now parent name, symlinks (look s) = ∅ -> name <> "."%string -> name <> ".."%string ->
     snd (full_path_of s' parent name) = dst -> dst ∉ tombstones s -> is_Some (store s !! src) ->
     stat_agrees cfg op (store s') dst ->
     exists s2 a, lookup cfg ac op salt lower now parent name (core s') = (s2, Ok a) /\ a_ino a = ino).
Proof.
  intros Hw Hne Hs Hd Er Hb Hp Hi.
  assert (He : path e = src) by (by eapply (wf_reverse _ _ Hw)).
  destruct (rename_ok _ _ _ _ _ Er Hne) as (_ & Hdst & Hsrc).
  unfold do_rename. assert (negb (exists_buffer s src) && exists_buffer s dst = false) as ->.
  { destruct Hb as [->| ->]; [done|apply andb_false_r]. }
  unfold rename_backend. rewrite Er.
  destruct (migrate_spec move_ok src dst (set_store bst s)) as (M1 & _ & M3 & Mt & M4 & M5).
  set (s' := migrate move_ok src dst (set_store bst s)) in *.
  change (ns_table (set_store bst s)) with (ns_table s) in M1.
  destruct (rename_inode_moves src dst (ns_table s) ino e Hp Hi He) as [I1 I2].
  destruct (M5 Hs Hd) as [M6 M7].
  split_and!; [done|by rewrite M4|by rewrite M4|by rewrite M1|done|done|].
  intros cfg op now parent name Hl H1 H2 Hf Hto Hsome Hag. unfold full_path_of in Hf. cbn [snd] in Hf.
  destruct (lookup_known cfg ac op salt lower now parent name (core s') ino
              (mk_inode dst (kind e) (size e) (mtime e))) as (s2 & a & El & Ea); [exact (eq_trans M3 Hl)|done|done| | | | | |by eauto];
    change (table_of (core s')) with (ns_table s'); change (path_of_ino (core s') parent) with (path_of_ino (look s') parent);
    change (delete_tombstones (core s')) with (tombstones s'); rewrite ?Hf, ?M1, ?Mt; try done.
  apply Hag. rewrite M4. change (is_Some (bst !! dst)). by rewrite Hdst.
Qed.

(** ** [statfs] *)

(** The free space and the free inodes lie within the totals, and the total is
    the configured size in whole blocks. *)
Theorem statfs_bounds disk_total_size s : 0 <= disk_total_size ->
  let v := statfs disk_total_size s in
  0 <= free_blocks v <= total_blocks v /\ avail_blocks v = free_blocks v /\
  0 <= free_inodes v <= total_inodes v /\
  (0 < disk_total_size -> total_blocks v * block_size v <= disk_total_size < (total_blocks v + 1) * block_size v).
Proof.
  intros Hd. unfold statfs, saturating_sub, MAX_INODES, wrap64. cbn -[Z.mul Z.div Z.modulo Z.add].
  pose proof (Z.mod_pos_bound (msum (λ e : Z * Z, (e.1 + (4096 - 1)) / 4096) (w_index (wd s))) (2 ^ 64) ltac:(lia)).
  destruct (Z.ltb_spec 0 disk_total_size); split_and!; lia.
Qed.

End Laws.

End Handlers.
#[export] Existing Instances ConcDelete.set_deleter ConcDelete.set_deleter_laws.

(** ** An object store *)

(** [None]: the call is carried out; otherwise its error, and whether it took
    effect all the same. *)
Abbreviation flat_answer := (option (Errors.OpendalKind * bool)).
Definition after (a : flat_answer) (b' b : objects) : objects * kind_result :=
  match a with
  | None => (b', Ok tt)
  | Some (k, landed) => (if match k with Errors.OUnsupported => false | _ => landed end then b' else b, Err k)
  end.
Definition refusal (a : flat_answer) (k : Errors.OpendalKind) : Errors.OpendalKind :=
  match a with Some (k', _) => k' | None => k end.
#[export] Instance flat_store : Operator flat_answer := {
  op_write a p d b := after a (<[p := d]> b) b;
  op_write_new a p d b :=
    match b !! p with Some _ => (b, Err (refusal a Errors.ConditionNotMatch)) | None => after a (<[p := d]> b) b end;
  op_read a p b :=
    match b !! p with
    | None => Err (refusal a Errors.ONotFound)
    | Some d => match a with
                | Some (Errors.ONotFound, _) | None => Ok d
                | Some (k, _) => Err k
                end
    end;
  op_copy a src dst b :=
    match b !! src with None => (b, Err (refusal a Errors.ONotFound)) | Some d => after a (<[dst := d]> b) b end;
  op_rename a src dst b :=
    match b !! src with
    | None => (b, Err (refusal a Errors.ONotFound))
    | Some d => after a (<[dst := d]> (delete src b)) b
    end;
  op_delete a p b :=
    match a, b !! p with
    | Some (Errors.ONotFound, _), Some _ | None, _ => (delete p b, Ok tt)
    | _, _ => after a (delete p b) b
    end;
  op_create_dir a p b := after a (match b !! p with Some _ => b | None => <[p := []]> b end) b
}.

Ltac flat := repeat first [progress cbn in * | progress simplify_map_eq | case_match; simplify_eq].
#[export] Instance flat_store_laws : OperatorLaws flat_answer.
Proof.
  split; cbn; unfold after, refusal; intros; flat; eauto.
Qed.

(** ** Concrete runs *)
Definition all_ok : call -> flat_answer := fun _ => None.
(** Object stores have no rename; the calls after it succeed. *)
Definition no_rename : call -> flat_answer :=
  fun c => match c with CRename => Some (Errors.OUnsupported, false) | _ => None end.
Definition mounted (w : world) : ns (D := gset string) := mk_ns empty_fs w None 10.
Definition batched (w : world) : ns (D := gset string) :=
  mk_ns empty_fs w (Some (ConcDelete.spawn 1 ∅ ∅)) 10.
Definition known (p : string) (s : ns (D := gset string)) : ns (D := gset string) :=
  set_ns_table (fst (alloc_ino_with_mtime p RegularFile 3 100 (ns_table s))) s.
Definition pumps (n : nat) : list (bool * bool * nat) := replicate n (true, false, 0%nat).
Definition buf (p : string) : string := PathHash.write_buffer_path 0 p.
Definition two : objects := {["a"%string := as_bytes "A"; "b"%string := as_bytes "B"]}.
(** Mode [Writes]: [a] was uploaded as "old", then written, flushed and closed
    as "new"; its upload is queued. *)
Definition rewritten : world :=
  Traces.run PathHash.Writes 0 0 0
    (Traces.idle {["a"%string := as_bytes "old"]} {[buf "a" := mk_file (as_bytes "old") 0 true]})
    [Traces.OHandle 1 (mk_handle 7 "a" true None false); Traces.OWrite Traces.env0 1 0 (as_bytes "new");
     Traces.OFlush 0 true true true 0 1; Traces.ORelease 0 true true true false 0 1].

(** The backend whose [stat] answers from the objects [b]. *)
Definition stat_of (b : objects) : DirCache.backend :=
  mk_backend (fun p => match b !! p with Some d => Ok (meta (lenZ d)) | None => Err Errors.ONotFound end)
    (fun _ => Err Errors.ONotFound).
Lemma stat_of_agrees b p : stat_agrees cfg0 (stat_of b) b p.
Proof.
  unfold stat_agrees, backend_stat, stat_of. cbn. destruct (b !! p); cbn; [|done].
  split; intros _; by eexists.
Qed.

Lemma rename_keeps_object_witness :
  let s := fst (do_rename 3 0 no_rename (pumps 12) true "a" "b" (batched (Traces.idle two ∅))) in
  store s !! "a"%string = Some (as_bytes "A") \/ store s !! "b"%string = Some (as_bytes "A").
Proof.
  apply (rename_keeps_object 3 0 no_rename (pumps 12) true "a" "b" (batched (Traces.idle two ∅)));
    [done| |by vm_compute].
  apply (bool_decide_unpack (_ ∉ _)). by vm_compute.
Defined.

Lemma rename_keeps_unflushed_witness :
  let w := Traces.idle ∅ {[buf "a" := mk_file (as_bytes "A") 0 true]} in
  let ans c := match c with CRename | CCopy => Some (Errors.OUnsupported, false) | _ => None end in
  let s := fst (do_rename 3 0 ans [] true "a" "b" (mounted w)) in
  w_fs (wd s) !! buf "a" = Some (mk_file (as_bytes "A") 0 true) \/ store s !! "b"%string = Some (as_bytes "A").
Proof.
  intros w ans. apply (rename_keeps_unflushed 3 0 ans [] true "a" "b" (mounted w)); by vm_compute.
Defined.

Lemma rename_error_spec_witness :
  let ans c := match c with CRename | CCopy => Some (Errors.OUnsupported, false) | _ => None end in
  let s := mounted (Traces.idle ∅ ∅) in
  let s' := fst (do_rename 3 0 ans [] true "a" "b" s) in
  s' = set_store (store s') s.
Proof.
  intros ans s s'. by apply (rename_error_spec 3 0 ans [] true "a" "b" s s' not_found); vm_compute.
Defined.


Lemma unlink_then_lookup_witness :
  let s := mounted (Traces.idle {["gone"%string := as_bytes "A"]} {[buf "gone" := mk_file (as_bytes "A") 0 true]}) in
  let s' := fst (unlink 3 0 (fun x => x) None [] 1 "gone" s) in
  store s' !! "gone"%string = None /\
  exists e, snd (lookup cfg0 ac0 (stat_of (store s')) 0 (fun x => x) 9 1 "gone" (core s')) = Err e /\ Errors.kind e = Errors.NotFound.
Proof.
  intros s s'.
  destruct (unlink_then_lookup 3 0 ac0 (fun x => x) cfg0 (stat_of (store s')) None [] 1 "gone" s s' 9) as (_ & _ & H1 & _ & H2);
    [done|done|done|done|by left|by vm_compute|exact (stat_of_agrees _ _)|]. split; [by apply H1|exact H2].
Defined.

Lemma rename_moves_witness :
  let s := known "a" (mounted (Traces.idle {["a"%string := as_bytes "A"]} ∅)) in
  let s' := fst (do_rename 3 0 all_ok [] true "a" "b" s) in
  store s' !! "b"%string = Some (as_bytes "A") /\
  exists s2 a, lookup cfg0 ac0 (stat_of (store s')) 0 (fun x => x) 9 1 "b" (core s') = (s2, Ok a) /\ a_ino a = 2.
Proof.
  intros s s'.
  pose proof (rename_moves 3 0 ac0 (fun x => x) all_ok [] true "a" "b" s {["b"%string := as_bytes "A"]} 2
                (mk_inode "a" RegularFile 3 (Some 100)) 3) as H.
  assert (Hf : snd (full_path_of s' 1 "b") = "b"%string) by (by vm_compute).
  unfold s' in Hf |- *. destruct (do_rename 3 0 all_ok [] true "a" "b" s) as [s2 r].
  destruct H as (_ & H1 & _ & H2 & _ & _ & H3);
    [|done|done|done|by vm_compute|by right|by vm_compute|by vm_compute|].
  - apply (wf_alloc (Some 100) "a" RegularFile 3 empty_table 2); [by apply wf_empty|done].
  - cbn [fst]. split; [by rewrite H1; vm_compute|].
    apply (H3 cfg0 (stat_of (store s2)) 9 1 "b"%string); [done|done|done| |by apply not_elem_of_empty|by eexists|exact (stat_of_agrees _ _)].
    exact Hf.
Defined.

(** A file rewritten and then renamed before its upload: the backend renames
    the old object, the buffer moves without its dirty mark, and the queued
    upload finds no buffer.  The new bytes are never uploaded. *)
Theorem rename_loses_pending_write :
  let r := do_rename 3 0 no_rename [] true "a" "b" (mounted rewritten) in
  let w := Traces.run PathHash.Writes 0 0 0 (wd (fst r)) Traces.upload_cycle in
  snd r = Ok tt /\ backend w !! "b"%string = Some (as_bytes "old") /\ backend w !! "a"%string = None /\
  file_data <$> w_fs w !! buf "b" = Some (as_bytes "new") /\
  Traces.tasks w = [] /\ w_fs w !! sidecar_of 0 "a" = None /\ w_fs w !! sidecar_of 0 "b" = None.
Proof. vm_compute. done. Qed.

(** The destination was written through the mount and the source was not: the
    rename is taken for a repetition of one that succeeded, and does nothing on
    the backend. *)
Theorem rename_onto_buffered_ignored :
  let s := known "a" (mounted (Traces.idle two {[buf "b" := mk_file (as_bytes "B") 0 true]})) in
  let '(s', r) := do_rename 3 0 all_ok [] true "a" "b" s in
  r = Ok tt /\ store s' = two /\ path <$> inodes (ns_table s') !! 2 = Some "b"%string.
Proof. vm_compute. done. Qed.

(** With the batched deleter, a rename onto a name just unlinked: the delete of
    the new name is not cancelled, and the barrier of the delete of the old
    name carries it out after the copy.  Both names are gone. *)
Theorem rename_onto_unlinked_loses_data :
  let s := batched (Traces.idle two ∅) in
  let '(s1, r1) := unlink 3 0 (fun x => x) None [] 1 "b" s in
  let '(s2, r2) := do_rename 3 0 no_rename (pumps 12) true "a" "b" s1 in
  r1 = Ok tt /\ r2 = Ok tt /\ store s2 = ∅.
Proof. vm_compute. done. Qed.

(** A name unlinked and renamed onto, both with success: the tombstone that the
    [unlink] left is not lifted, so the file is moved and cannot be looked up. *)
Theorem rename_onto_tombstone_hidden :
  let s := batched (Traces.idle two ∅) in
  let '(s1, r1) := unlink 3 0 (fun x => x) None [] 1 "b" s in
  let '(s2, r2) := do_rename 3 0 all_ok [] true "a" "b" s1 in
  r1 = Ok tt /\ r2 = Ok tt /\ store s2 !! "b"%string = Some (as_bytes "A") /\
  snd (lookup cfg0 ac0 (stat_of (store s2)) 0 (fun x => x) 0 1 "b" (core s2)) = Err enoent.
Proof. vm_compute. done. Qed.

(** An exclusive create right after [unlink]: unlike [create] it does not
    cancel the pending delete, and answers that the file exists. *)
Theorem create_excl_after_unlink :
  let s := batched (Traces.idle two ∅) in
  let s1 := fst (unlink 3 0 (fun x => x) None [] 1 "b" s) in
  snd (lookup cfg0 ac0 op0 0 (fun x => x) 0 1 "b" (core s1)) = Err enoent /\
  snd (create_excl PathHash.Writes 0 ac0 true all_ok true 5 0 1 "b" s1) = Err (Errors.io_new Errors.AlreadyExists) /\
  match snd (create PathHash.Writes 0 ac0 all_ok true 5 0 1 "b" s1) with Ok _ => True | Err _ => False end.
Proof. vm_compute. done. Qed.

(** An [unlink] the backend refuses is reported, but the local clean-up has
    run: the bytes not yet uploaded are gone with their queue entry, and the
    object keeps the older ones. *)
Theorem refused_unlink_discards_writes :
  let '(s', r) := unlink 3 0 (fun x => x) (Some (Errors.OPermissionDenied, false)) [] 1 "a" (mounted rewritten) in
  let w := Traces.run PathHash.Writes 0 0 0 (wd s') Traces.upload_cycle in
  r = Err (Errors.io_new Errors.PermissionDenied) /\ backend w !! "a"%string = Some (as_bytes "old") /\
  w_fs w = ∅ /\ Traces.tasks w = [].
Proof. vm_compute. done. Qed.

(** On an object store [rmdir] removes the marker of the directory and
    succeeds although the directory has files; they stay. *)
Theorem rmdir_not_empty_succeeds :
  let s := mounted (Traces.idle {["d/"%string := []; "d/x"%string := as_bytes "X"]} ∅) in
  let '(s', r) := rmdir 3 None [] 1 "d" s in
  r = Ok tt /\ store s' = {["d/x"%string := as_bytes "X"]}.
Proof. vm_compute. done. Qed.

(** A path whose inode survived the file keeps its size: the new empty file
    is reported with the old length. *)
Theorem create_keeps_stale_size :
  let s := known "f" (mounted (Traces.idle ∅ ∅)) in
  match create PathHash.Writes 0 ac0 all_ok true 5 0 1 "f" s with
  | (s', Ok (a, _)) =>
      a_size a = 0 /\
      match snd (getattr cfg0 ac0 op0 0 0 (a_ino a) (core s')) with Ok g => a_size g = 3 | Err _ => False end
  | _ => False
  end.
Proof. vm_compute. done. Qed.

End Namespace.
