(* ===== verification/Read.v ===== *)
(** * Read: open and read of src/src/lib.rs

    [MntrsFs::read] composes the layers of the other files: the write handle's
    own buffer, the two cache levels ([CacheLayers]), the parts the prefetcher
    downloaded ([Prefetcher]), the whole-file cache, and a range read of the
    backend whose blocks go into both cache levels ([DiskPool] writes the
    second).  [open] gives a handle its buffer or its prefetcher.

    A descriptor refers to its file by name while the name is there, and to the
    file itself once the name was removed.  The answers of the backend and of
    the local disk are arguments of the handlers. *)

From Stdlib Require Import ZArith Lia Strings.Byte Strings.String Strings.Ascii.
From S2P Require Import Prelude Util BlockFormat MemCache DiskPool CacheLayers Prefetcher Writeback.
From S2P Require Import Inodes Errors.

Module Read.
Import Inodes.

(** ** Handles and state *)

(** An open buffer file: under its name, or, when that was removed while the
    file was open, its number among [orphans]. *)
Inductive descriptor := Linked (name : string) | Unlinked (i : nat).

(** [FileHandleState]; a write handle has its buffer file, or an index in the
    heap of shared pending buffers. *)
Inductive FileHandleState :=
| ReadHandle (h_path : string) (last_offset chunk_size : Z) (prefetcher : option Queue.PartQueue)
             (expires_at : option Z)
| WriteHandle (h_path : string) (write_buffer_fd : option descriptor) (in_memory_buffer : option Z)
              (expires_at : option Z).
Definition expires_at (h : FileHandleState) : option Z :=
  match h with ReadHandle _ _ _ _ e | WriteHandle _ _ _ e => e end.

Record config := mk_config {
  direct_io : bool;
  cache_mode : PathHash.CacheMode;
  cache_max_age : Z;
  handle_caching : Z;
  read_chunk_size : Z;
  read_chunk_size_limit : Z;
  read_chunk_streams : Z;
  read_stale_on_backend_error : bool;
  prefetch_threshold : Z;
  prefetch_queue_mb : Z;
  read_ahead : Z
}.

(** What an [open] meets: [fetched] and [seed] are the object as read for the
    cache file and, in off mode, once more for the buffer, when it exists and
    could be read; [saved] is the write of the cache file, [open_ok] whether it
    could be opened, and [buf_id] the place of a new buffer in the heap. *)
Inductive file_write := Saved | NotCreated | SavedShort (n : Z).
Record open_env := mk_open_env {
  fetched : option bytes;
  saved : file_write;
  open_ok : bool;
  seed : option bytes;
  buf_id : Z;
  o_now : Z
}.
(** What a [read] meets: the backend's answer [fetch parallel a e] for the range
    [a..e], the errors of the calls on the buffer's descriptor, and the block
    files written on the way. *)
Record fd_io := mk_fd_io { metadata_err : option Errors.io_Error; seek_err : option Errors.io_Error;
                           read_err : option Errors.io_Error }.
Definition fd_calm : fd_io := mk_fd_io None None None.
Record read_env := mk_read_env {
  fetch : bool -> Z -> Z -> option bytes;
  r_now : Z;
  fd_calls : fd_io;
  writes : Z -> block_write
}.

Section Handlers.
Context `{CRC : !Crc32c, LZ : !Lz4}.
Context {C : Type} `{MC : !MemCache C}.
Context (salt : Z) (cfg : config).

(** [jobs] are the block writes handed to the pool; an off-mode buffer has its
    [dirty] flag beside it.  The cache directory and its index are part of the
    second cache level; [orphans] are files removed from it, which descriptors
    may still have open. *)
Record state := mk_state {
  tab : table;
  cache : MultiLevelCache C;
  handles : gmap Z FileHandleState;
  heap : gmap Z bytes;
  off_mode_buffers : gmap string (Z * bool);
  jobs : list BlockJobs.DiskWriteJob;
  NEXT_HANDLE : Z;
  orphans : list file
}.
Definition set_cache c (s : state) :=
  mk_state (tab s) c (handles s) (heap s) (off_mode_buffers s) (jobs s) (NEXT_HANDLE s) (orphans s).
Definition set_handles h (s : state) :=
  mk_state (tab s) (cache s) h (heap s) (off_mode_buffers s) (jobs s) (NEXT_HANDLE s) (orphans s).
Definition set_heap hp b (s : state) :=
  mk_state (tab s) (cache s) (handles s) hp b (jobs s) (NEXT_HANDLE s) (orphans s).
Definition add_jobs js (s : state) :=
  mk_state (tab s) (cache s) (handles s) (heap s) (off_mode_buffers s) (jobs s ++ js) (NEXT_HANDLE s) (orphans s).
Definition disk (s : state) : DiskBlockCache := l2 (cache s).
Definition set_disk fs ix (s : state) :=
  let d := disk s in
  set_cache (mk_mlc (l1 (cache s)) (mk_l2 fs ix (l2_gens d) (l2_direct_io d) (l2_cache_max_age d))) s.
(** The file of a descriptor. *)
Definition fd_file (d : descriptor) (s : state) : option file :=
  match d with Linked name => l2_fs (disk s) !! name | Unlinked i => orphans s !! i end.
(** The names that are no longer in [fs] are removed from the directory; who
    has their files open keeps them. *)
Definition lost (fs : gmap string file) (s : state) : list (string * file) :=
  map_to_list (filter (fun kv => fs !! fst kv = None) (l2_fs (disk s))).
Definition relink (base : nat) (gone : list (string * file)) (h : FileHandleState) : FileHandleState :=
  match h with
  | WriteHandle p (Some (Linked name)) buf ex =>
      match list_find (fun x => fst x = name) gone with
      | Some (i, _) => WriteHandle p (Some (Unlinked (base + i))) buf ex
      | None => h
      end
  | _ => h
  end.
Definition remove_names fs ix (s : state) : state :=
  let gone := lost fs s in
  let s := mk_state (tab s) (cache s) (relink (length (orphans s)) gone <$> handles s) (heap s) (off_mode_buffers s)
             (jobs s) (NEXT_HANDLE s) (orphans s ++ map snd gone) in
  set_disk fs ix s.
Definition put_l1 (ino blk : Z) (d : bytes) (s : state) :=
  set_cache (mk_mlc (mc_put (l1 (cache s)) ino blk d) (l2 (cache s))) s.
Definition buffer_name (p : string) : string := PathHash.write_buffer_path salt p.

(** ** [open] *)
Definition compute_prefetch_queue_bytes : Z :=
  let base := Z.max (prefetch_queue_mb cfg) 1 * 1024 * 1024 in
  if match cache_mode cfg with PathHash.Full => 0 <? read_ahead cfg | _ => false end
  then saturating_add base (read_ahead cfg) else base.
(** The new prefetcher: an empty queue and the first chunk of its thread. *)
Definition maybe_create_prefetcher (ino : Z) (s : state) : option (Queue.PartQueue * Z) :=
  let file_size := match resolve (tab s) ino with Some e => size e | None => 0 end in
  if (prefetch_threshold cfg =? 0) || (file_size <? prefetch_threshold cfg) then None
  else Some (Queue.new compute_prefetch_queue_bytes, Z.max 131072 (Z.min (read_chunk_size cfg) (16 * 1024 * 1024))).
Definition populate_cache_from_backend (fetched : option bytes) (saved : file_write) (now : Z) (p : string) (s : state)
    : state :=
  let put b := set_disk (<[buffer_name p := mk_file b now true]> (l2_fs (disk s))) (l2_index (disk s)) s in
  match l2_fs (disk s) !! buffer_name p with
  | Some _ => s
  | None =>
      match fetched with
      | Some b => match saved with Saved => put b | NotCreated => s | SavedShort n => put (takeZ n b) end
      | None => s
      end
  end.
(** [off_mode_buffer]: shared per path, seeded by the first caller. *)
Definition off_mode_buffer (seed : option bytes) (id : Z) (p : string) (s : state) : state * Z :=
  match off_mode_buffers s !! p with
  | Some (i, _) => (s, i)
  | None => (set_heap (<[id := default [] seed]> (heap s)) (<[p := (id, false)]> (off_mode_buffers s)) s, id)
  end.
Definition expired (now : Z) (h : FileHandleState) : bool :=
  match expires_at h with Some t => t <=? now | None => false end.
Definition sweep_expired (now : Z) (s : state) : state :=
  if 0 <? handle_caching cfg then set_handles (filter (fun kv => expired now (snd kv) = false) (handles s)) s
  else s.
Definition open (e : open_env) (ino flags : Z) (s : state) : state * Z :=
  let p := match resolve (tab s) ino with Some e => path e | None => EmptyString end in
  let fh := NEXT_HANDLE s in
  let s := mk_state (tab s) (cache s) (handles s) (heap s) (off_mode_buffers s) (jobs s) (wrap64 (fh + 1)) (orphans s) in
  let s := sweep_expired (o_now e) s in
  if negb (Z.land flags 3 =? 0) then
    let s := populate_cache_from_backend (fetched e) (saved e) (o_now e) p s in
    let name := buffer_name p in
    let '(s, fd) :=
      if PathHash.disk_write_buffer (cache_mode cfg) then
        if open_ok e then
          (match l2_fs (disk s) !! name with
           | Some _ => s
           | None => set_disk (<[name := mk_file [] (o_now e) true]> (l2_fs (disk s))) (l2_index (disk s)) s
           end, Some (Linked name))
        else (s, None)
      else (s, None) in
    let '(s, buf) :=
      if PathHash.disk_write_buffer (cache_mode cfg) then (s, None)
      else let '(s, i) := off_mode_buffer (seed e) (buf_id e) p s in (s, Some i) in
    (set_handles (<[fh := WriteHandle p fd buf None]> (handles s)) s, fh)
  else
    let pre := option_map fst (maybe_create_prefetcher ino s) in
    let chunk := if 0 <? read_chunk_size cfg then read_chunk_size cfg else 8 * 1024 * 1024 in
    (set_handles (<[fh := ReadHandle p 0 chunk pre None]> (handles s)) s, fh).

(** ** [read], step by step *)
Definition slice (start size : Z) (v : bytes) : bytes := takeZ (Z.min (start + size) (lenZ v) - start) (dropZ start v).

(** 1. The buffer of the write handle, and the pending buffer of the path. *)
Definition own_buffer (fh offset size : Z) (s : state) : option bytes :=
  match handles s !! fh with
  | Some (WriteHandle _ _ (Some i) _) =>
      match heap s !! i with
      | Some v => if offset <? lenZ v then Some (slice offset size v) else None
      | None => None
      end
  | _ => None
  end.
Definition pending_buffer (p : string) (actual_size offset size : Z) (s : state) : option bytes :=
  match off_mode_buffers s !! p with
  | Some (i, true) =>
      match heap s !! i with
      | Some v => if (actual_size <=? lenZ v) && (offset <? lenZ v) then Some (slice offset size v) else None
      | None => None
      end
  | _ => None
  end.
(** The calls on the descriptor; an error of one of them is that of the read. *)
Definition fd_buffer (calls : fd_io) (fh offset size : Z) (s : state) : option (result bytes Errors.io_Error) :=
  match handles s !! fh with
  | Some (WriteHandle _ (Some d) _ _) =>
      match fd_file d s with
      | Some f =>
          match metadata_err calls with
          | Some x => Some (Err x)
          | None =>
              if offset <? lenZ (file_data f) then
                match seek_err calls, read_err calls with
                | Some x, _ | None, Some x => Some (Err x)
                | None, None => Some (Ok (slice offset size (file_data f)))
                end
              else None
          end
      | None => None
      end
  | _ => None
  end.
Definition from_buffers (calls : fd_io) (p : string) (fh actual_size offset size : Z) (s : state)
    : option (result bytes Errors.io_Error) :=
  if direct_io cfg then None
  else
    let off := negb (PathHash.disk_write_buffer (cache_mode cfg)) in
    match (if off then own_buffer fh offset size s else None) with
    | Some r => Some (Ok r)
    | None =>
        match (if off then pending_buffer p actual_size offset size s else None) with
        | Some r => Some (Ok r)
        | None => fd_buffer calls fh offset size s
        end
    end.

(** 2. A cached block starts at its own boundary. *)
Definition within (base offset size : Z) (data : bytes) : bytes :=
  let start := offset - base in
  if start <? lenZ data then slice start size data else [].

(** The full blocks of fetched bytes that start at [offset], and their
    numbers; a block that is not full is kept when [keep_tail]. *)
Fixpoint block_slices (n : nat) (keep_tail : bool) (start blk : Z) (b : bytes) : list (Z * bytes) :=
  match n with
  | O => []
  | S n =>
      let e := start + CACHE_BLOCK_SIZE in
      if (lenZ b <? e) && negb keep_tail then []
      else (blk, takeZ (Z.min e (lenZ b) - start) (dropZ start b))
           :: block_slices n keep_tail e (blk + 1) b
  end.
Definition blocks_of (keep_tail : bool) (offset : Z) (b : bytes) : list (Z * bytes) :=
  let first := offset / CACHE_BLOCK_SIZE in
  let in_blk := offset mod CACHE_BLOCK_SIZE in
  let '(data_start, first) :=
    if 0 <? in_blk then (CACHE_BLOCK_SIZE - in_blk, first + 1) else (0, first) in
  let n_blks := (saturating_sub (lenZ b) data_start + CACHE_BLOCK_SIZE - 1) / CACHE_BLOCK_SIZE in
  block_slices (Z.to_nat n_blks) keep_tail data_start first b.

(** 3. A prefetched part (the accounting of the popped bytes is in
    [MemLimiter] and [Backpressure]); its full blocks go to both levels at once
    ([write_block_cached] is [l2_put_block]). *)
Definition cache_part_block (now : Z) (writes : Z -> block_write) (p : string) (ino : Z) (s : state) (x : Z * bytes) : state :=
  let s := put_l1 ino (fst x) (snd x) s in
  set_cache (mk_mlc (l1 (cache s)) (fst (l2_put_block salt now (writes (fst x)) (l2 (cache s)) p (fst x) (snd x)))) s.
Definition from_prefetcher (now : Z) (writes : Z -> block_write) (p : string) (ino fh offset size : Z) (s : state) : state * option bytes :=
  match handles s !! fh with
  | Some (ReadHandle hp lo ch (Some q) ex) =>
      let '(q, part) := Queue.pop q offset in
      let s := set_handles (<[fh := ReadHandle hp lo ch (Some q) ex]> (handles s)) s in
      match part with
      | Some part =>
          let s := foldl (cache_part_block now writes p ino) s (blocks_of false (Queue.offset part) (Queue.data part)) in
          (s, Some (within (Queue.offset part) offset size (Queue.data part)))
      | None => (s, None)
      end
  | _ => (s, None)
  end.

(** 4. The whole-file cache.  A file shorter than the inode's size warms the
    first level and does not answer. *)
Definition warm_block (ino offset : Z) (b : bytes) (s : state) : state :=
  let blk_start := offset / CACHE_BLOCK_SIZE * CACHE_BLOCK_SIZE in
  if blk_start <? lenZ b then
    put_l1 ino (offset / CACHE_BLOCK_SIZE)
      (takeZ (Z.min (blk_start + CACHE_BLOCK_SIZE) (lenZ b) - blk_start) (dropZ blk_start b)) s
  else s.
Definition from_file_cache (now : Z) (p : string) (ino actual_size offset size : Z) (s : state)
    : state * option bytes :=
  if direct_io cfg then (s, None)
  else
    match l2_fs (disk s) !! buffer_name p with
    | None => (s, None)
    | Some f =>
        let dirty := bool_decide (is_Some (l2_fs (disk s) !! Sidecar.with_extension (buffer_name p) "dirty")) in
        if negb (cache_max_age cfg =? 0) && negb dirty &&
           PathHash.is_cache_file_expired now (Some (file_mtime f)) (cache_max_age cfg)
        then (remove_names (remove_file (buffer_name p) (l2_fs (disk s))) (delete (p, None) (l2_index (disk s))) s, None)
        else if file_readable f then
          let b := file_data f in
          if actual_size <=? lenZ b then
            let s := set_disk (l2_fs (disk s)) (PathHash.bump_in_memory_atime now (l2_index (disk s)) (p, None)) s in
            (warm_block ino offset b s, Some (within 0 offset size b))
          else (warm_block ino offset b s, None)
        else (s, None)
    end.

(** 6. The range read. *)
Definition chunk_of (fh : Z) (s : state) : Z * Z :=
  match handles s !! fh with Some (ReadHandle _ lo ch _ _) => (ch, lo) | _ => (0, 0) end.
Definition user_cap_of (per_handle_chunk : Z) : Z :=
  if 0 <? per_handle_chunk then per_handle_chunk
  else if 0 <? read_chunk_size cfg then read_chunk_size cfg else 8 * 1024 * 1024.
Definition fetch_size_of (user_cap actual_size offset size : Z) : Z :=
  let cap := actual_size - offset in
  let hard_cap := if actual_size <=? 256 * 1024 * 1024 then actual_size else 16 * 1024 * 1024 in
  if (offset =? 0) && (cap <=? hard_cap) then Z.min (Z.min user_cap hard_cap) cap
  else Z.min (Z.min (Z.min size user_cap) hard_cap) cap.
Definition use_parallel (fetch_size : Z) : bool :=
  (1 <? Z.max (read_chunk_streams cfg) 1) && (128 * 1024 <? fetch_size).
(** [try_backend_or_stale]: the whole-file cache answers for a failed read
    when it covers the range. *)
Definition try_backend_or_stale (p : string) (offset size : Z) (res : option bytes) (s : state) : option bytes :=
  match res with
  | Some b => Some b
  | None =>
      if read_stale_on_backend_error cfg then
        match l2_fs (disk s) !! buffer_name p with
        | Some f =>
            if lenZ (file_data f) <? saturating_add offset size then None
            else if file_readable f then Some (slice offset size (file_data f)) else None
        | None => None
        end
      else None
  end.
Definition submit_block (now : Z) (p : string) (s : state) (x : Z * bytes) : state :=
  let s := add_jobs [BlockJobs.submit_block_cache_write salt (l2_gens (disk s)) p (fst x) (snd x)] s in
  set_disk (l2_fs (disk s)) (<[(p, Some (fst x)) := (lenZ (snd x) + BLOCK_OVERHEAD, now)]> (l2_index (disk s))) s.
(** The feedback on the handle's chunk size. *)
Definition adapt_chunk (fh offset len fetch_size b_len last_rd : Z) (s : state) : state :=
  let is_sequential := offset =? last_rd in
  let fetched_full := fetch_size <=? b_len in
  match handles s !! fh with
  | Some (ReadHandle hp _ ch q ex) =>
      let limit := if 0 <? read_chunk_size_limit cfg then read_chunk_size_limit cfg else 128 * 1024 * 1024 in
      let ch := if is_sequential && fetched_full then Z.min (saturating_mul ch 2) limit
                else if is_sequential then ch else Z.max (read_chunk_size cfg) 131072 in
      set_handles (<[fh := ReadHandle hp (offset + len) ch q ex]> (handles s)) s
  | _ => s
  end.
Definition from_backend (fetch : bool -> Z -> Z -> option bytes) (now : Z) (p : string)
    (ino fh actual_size offset size : Z) (s : state) : state * result bytes Errors.io_Error :=
  let '(per_handle_chunk, last_rd) := chunk_of fh s in
  let fetch_size := fetch_size_of (user_cap_of per_handle_chunk) actual_size offset size in
  match try_backend_or_stale p offset size (fetch (use_parallel fetch_size) offset (offset + fetch_size)) s with
  | None => (s, Err (Errors.io_new Errors.OtherKind))
  | Some b =>
      let len := Z.min (lenZ b mod 2 ^ 32) size in
      let eof := actual_size <=? offset + lenZ b in
      let bs := blocks_of eof offset b in
      let s := foldl (fun s x => put_l1 ino (fst x) (snd x) s) s bs in
      let s := if direct_io cfg then s else foldl (submit_block now p) s bs in
      (adapt_chunk fh offset len fetch_size (lenZ b) last_rd s, Ok (takeZ len b))
  end.

(** [read]. *)
Definition read (e : read_env) (ino fh offset size : Z) (s : state) : state * result bytes Errors.io_Error :=
  match resolve (tab s) ino with
  | None => (s, Err (Errors.io_new Errors.NotFound))
  | Some x =>
      let p := path x in
      let actual_size := Inodes.size x in
      if actual_size <=? offset then (s, Ok [])
      else
        match from_buffers (fd_calls e) p fh actual_size offset size s with
        | Some r => (s, r)
        | None =>
            let block_idx := offset / CACHE_BLOCK_SIZE in
            let '(c, hit) := read_block salt (r_now e) (cache s) p ino block_idx in
            let s := set_cache c s in
            match hit with
            | Some data => (s, Ok (within (block_idx * CACHE_BLOCK_SIZE) offset size data))
            | None =>
                let '(s, hit) := from_prefetcher (r_now e) (writes e) p ino fh offset size s in
                match hit with
                | Some r => (s, Ok r)
                | None =>
                    let '(s, hit) := from_file_cache (r_now e) p ino actual_size offset size s in
                    match hit with
                    | Some r => (s, Ok r)
                    | None => from_backend (fetch e) (r_now e) p ino fh actual_size offset size s
                    end
                end
            end
        end
  end.

End Handlers.

(** ** Slices of the content *)

(** Block [idx] of a file with content [F]. *)
Definition block_of (F : bytes) (idx : Z) : option bytes :=
  if (0 <=? idx) && (idx * CACHE_BLOCK_SIZE <? lenZ F)
  then Some (takeZ CACHE_BLOCK_SIZE (dropZ (idx * CACHE_BLOCK_SIZE) F)) else None.
(** Bytes read at [off]. *)
Definition part_of (F : bytes) (off : Z) (b : bytes) : Prop :=
  0 <= off /\ off + lenZ b <= lenZ F /\ b = takeZ (lenZ b) (dropZ off F).

Lemma takeZ_takeZ {A} n m (l : list A) : n <= m -> takeZ n (takeZ m l) = takeZ n l.
Proof. intros H. unfold takeZ. rewrite take_take. f_equal. lia. Qed.
Lemma takeZ_all {A} n (l : list A) : lenZ l <= n -> takeZ n l = l.
Proof. intros H. unfold takeZ, lenZ in *. apply take_ge. lia. Qed.
Lemma dropZ_takeZ {A} n m (l : list A) : 0 <= n -> dropZ n (takeZ m l) = takeZ (m - n) (dropZ n l).
Proof.
  intros H. unfold dropZ, takeZ. destruct (Z.le_gt_cases n m).
  - replace (Z.to_nat m) with (Z.to_nat n + Z.to_nat (m - n))%nat by lia. by rewrite <-take_drop_commute.
  - rewrite drop_ge by (rewrite length_take; lia). rewrite (Z2Nat.nonpos (m - n)) by lia. done.
Qed.

Lemma part_sub F off b s m : part_of F off b -> 0 <= s -> 0 <= m -> s + m <= lenZ b ->
  takeZ m (dropZ s b) = takeZ m (dropZ (off + s) F).
Proof.
  intros (Ho & _ & E) Hs Hm Hb. rewrite E, dropZ_takeZ by done. rewrite takeZ_takeZ by lia.
  by rewrite dropZ_dropZ.
Qed.

Lemma part_of_take F off n : 0 <= off <= lenZ F -> 0 <= n -> part_of F off (takeZ n (dropZ off F)).
Proof.
  intros Ho Hn. unfold part_of. rewrite lenZ_takeZ, lenZ_dropZ by lia.
  split_and!; [lia|lia|]. destruct (Z.le_gt_cases n (lenZ F - off)).
  - f_equal. lia.
  - rewrite !takeZ_all; [done| |]; rewrite lenZ_dropZ; lia.
Qed.

Lemma block_of_part F idx d : block_of F idx = Some d ->
  part_of F (idx * CACHE_BLOCK_SIZE) d /\ lenZ d = Z.min CACHE_BLOCK_SIZE (lenZ F - idx * CACHE_BLOCK_SIZE) /\
  0 <= idx /\ idx * CACHE_BLOCK_SIZE < lenZ F.
Proof.
  unfold block_of. case_test; [|done]. bool_props. intros E. simplify_eq.
  assert (0 <= CACHE_BLOCK_SIZE) by done. split_and!; [|rewrite lenZ_takeZ, lenZ_dropZ; lia|done|done].
  apply part_of_take; lia.
Qed.

(** A slice of a part is the content at the requested range, cut at the end
    of the part. *)
Lemma within_spec F base b offset size : part_of F base b -> base <= offset < base + lenZ b -> 0 <= size ->
  within base offset size b = takeZ (Z.min size (base + lenZ b - offset)) (dropZ offset F).
Proof.
  intros Hp Ho Hs. unfold within, slice. assert ((offset - base <? lenZ b) = true) as -> by lia.
  rewrite (part_sub F base) by (done || lia). f_equal; [lia|]. f_equal. lia.
Qed.

(** The blocks cut out of a part are blocks of the file. *)
Lemma block_slices_ok F n keep start blk off b :
  part_of F off b -> 0 <= start -> off + start = blk * CACHE_BLOCK_SIZE ->
  (keep = true -> lenZ F <= off + lenZ b) ->
  ((0 < n)%nat -> start + (Z.of_nat n - 1) * CACHE_BLOCK_SIZE < lenZ b) ->
  Forall (fun x => block_of F (fst x) = Some (snd x)) (block_slices n keep start blk b).
Proof.
  revert start blk. induction n as [|n IH]; intros start blk Hp Hs Hb Hk Hn; [constructor|].
  specialize (Hn ltac:(lia)). cbn [block_slices]. destruct ((lenZ b <? _) && _) eqn:Ec; [constructor|].
  assert (Hbs : CACHE_BLOCK_SIZE = 8388608) by done. rewrite Hbs in *. pose proof Hp as (Hoff & Hend & _).
  constructor.
  - cbn [fst snd]. unfold block_of. rewrite Hbs.
    assert ((0 <=? blk) = true) as -> by lia. assert ((blk * 8388608 <? lenZ F) = true) as -> by lia.
    cbn [andb]. f_equal.
    rewrite <-Hb. rewrite (part_sub F off b) by (done || lia).
    destruct (Z.le_gt_cases (start + 8388608) (lenZ b)); [f_equal; lia|].
    destruct keep; [|exfalso; bool_props; lia]. specialize (Hk eq_refl).
    rewrite !takeZ_all; [done| |]; rewrite lenZ_dropZ; lia.
  - destruct n as [|n]; [constructor|]. apply IH; [done|lia|lia|done|lia].
Qed.

Lemma blocks_of_ok F keep off b : part_of F off b -> (keep = true -> lenZ F <= off + lenZ b) ->
  Forall (fun x => block_of F (fst x) = Some (snd x)) (blocks_of keep off b).
Proof.
  intros Hp Hk. unfold blocks_of. assert (Hbs : CACHE_BLOCK_SIZE = 8388608) by done.
  pose proof Hp as (Ho & _ & _). pose proof (lenZ_nonneg b). unfold saturating_sub.
  destruct (Z.ltb_spec 0 (off mod CACHE_BLOCK_SIZE)); apply (block_slices_ok F _ _ _ _ off b Hp);
    rewrite ?Hbs in *; try done; try lia; intros; lia.
Qed.

(** A popped part was queued and covers the offset; the others stay. *)
Lemma pop_parts (P : Queue.Part -> Prop) q off :
  Forall P (Queue.parts q) ->
  let '(q', r) := Queue.pop q off in
  Forall P (Queue.parts q') /\
  match r with Some x => P x /\ Queue.offset x <= off < Queue.part_end x | None => True end.
Proof.
  intros H. unfold Queue.pop. generalize (Queue.current_bytes q). revert H.
  induction (Queue.parts q) as [|x ps IH]; intros H b; cbn; [by split|].
  apply Forall_cons in H as [Hx Hps]. case_test; bool_props; [by cbn|]. case_test.
  - specialize (IH Hps (wrap64 (b - lenZ (Queue.data x)))).
    by destruct (Queue.pop_loop off ps _) as [[ps' b'] r].
  - cbn. by repeat constructor.
Qed.

(** ** Every layer answers with the file's content *)
Section Laws.
Context `{CRC : !Crc32c, CRCL : !Crc32cLaws, LZ : !Lz4, LZL : !Lz4Laws}.
Context {C : Type} `{MC : !MemCache C, MCL : !MemCacheLaws C}.
Context (salt : Z) (cfg : config).
Context (inof : string -> Z) (inof_inj : forall p q, inof p = inof q -> p = q).
(** The backend's blocks, and the content [F] of the object [p] being read. *)
Context (remote : string -> Z -> option bytes) (p : string) (F : bytes).
Context (remote_F : forall i, remote p i = block_of F i) (F_len : lenZ F <= I64_MAX).

(** What the handle holds belongs to the file. *)
Definition handle_ok (s : state (C := C)) (h : FileHandleState) : Prop :=
  match h with
  | ReadHandle _ _ _ (Some q) _ => Forall (fun x => part_of F (Queue.offset x) (Queue.data x)) (Queue.parts q)
  | ReadHandle _ _ _ None _ => True
  | WriteHandle _ fd buf _ =>
      (forall d, fd = Some d -> match d with
                                | Linked n => n = buffer_name salt p
                                | Unlinked i => exists f, orphans s !! i = Some f /\ file_data f = F
                                end) /\
      (forall i v, buf = Some i -> heap s !! i = Some v -> v = F)
  end.

(** No layer holds anything but the file's content: the inode has its size, the
    two cache levels are coherent, the whole-file cache, the buffers and the
    prefetched parts agree with it, and so do the block writes still queued. *)
Record sound (fh : Z) (s : state (C := C)) : Prop := {
  so_ino : exists e, resolve (tab s) (inof p) = Some e /\ path e = p /\ Inodes.size e = lenZ F;
  so_cache : Coherence.coherent salt inof remote (cache s);
  so_file : forall f, l2_fs (disk s) !! buffer_name salt p = Some f -> file_data f = F;
  so_handle : forall h, handles s !! fh = Some h -> handle_ok s h;
  so_pending : forall i d v, off_mode_buffers s !! p = Some (i, d) -> heap s !! i = Some v -> v = F;
  so_jobs : Forall (fun j => BlockJobs.job_remote_path j = p -> exists idx,
              BlockJobs.job_block_cache j = PathHash.disk_cache_block_path salt p idx /\
              block_of F idx = Some (BlockJobs.job_data j)) (jobs s)
}.

(** The answer to a read of [size] bytes at [offset]: a prefix of the requested
    range, not empty, and all of the range when [whole]. *)
Definition answers (offset size : Z) (whole : Prop) (b : bytes) : Prop :=
  exists n, b = takeZ n (dropZ offset F) /\ 0 <= n <= Z.min size (lenZ F - offset) /\
    (0 < size -> 0 < n) /\ (whole -> n = Z.min size (lenZ F - offset)).

Lemma answers_within base b offset size (whole : Prop) :
  part_of F base b -> base <= offset < base + lenZ b -> 0 <= size ->
  (whole -> offset + size <= base + lenZ b \/ base + lenZ b = lenZ F) ->
  answers offset size whole (within base offset size b).
Proof using.
  intros Hp Ho Hs Hw. exists (Z.min size (base + lenZ b - offset)).
  pose proof Hp as (_ & ? & _). split; [by apply within_spec|]. split; [lia|]. split; [lia|].
  intros Hwh. destruct (Hw Hwh); lia.
Qed.

Lemma part_of_self : part_of F 0 F.
Proof using.
  split; [done|]. split; [lia|]. by rewrite takeZ_all by (by unfold dropZ).
Qed.

Lemma answers_slice offset size whole : 0 <= offset < lenZ F -> 0 <= size ->
  answers offset size whole (slice offset size F).
Proof using.
  intros Ho Hs. assert (0 <= offset < 0 + lenZ F) as Ho' by lia.
  pose proof (answers_within 0 F offset size whole part_of_self Ho' Hs) as H.
  unfold within in H. rewrite Z.sub_0_r in H. case_test_in H; bool_props; [|lia]. apply H. by right.
Qed.

(** 1. *)
Definition fd_error (calls : fd_io) (x : Errors.io_Error) : Prop :=
  metadata_err calls = Some x \/ seek_err calls = Some x \/ read_err calls = Some x.

Lemma fd_buffer_ok calls fh offset size whole s r : sound fh s -> 0 <= offset < lenZ F -> 0 <= size ->
  fd_buffer calls fh offset size s = Some r ->
  match r with Ok b => answers offset size whole b | Err x => fd_error calls x end.
Proof using.
  intros [_ _ Hf Hh _ _] Ho Hs. unfold fd_buffer, fd_error. destruct (handles s !! fh) as [h|]; [|done].
  specialize (Hh h eq_refl). destruct h as [|hp [d|] buf ex]; try done. destruct Hh as [Hh _].
  destruct (fd_file d s) as [f|] eqn:Ef; [|done].
  assert (file_data f = F) as ->.
  { specialize (Hh d eq_refl). destruct d as [n|i]; cbn in Ef.
    - subst n. by apply Hf.
    - destruct Hh as (g & Hg & Eg). rewrite Ef in Hg. injection Hg as ->. exact Eg. }
  destruct (metadata_err calls); [intros [= <-]; by left|]. case_test; [|done].
  destruct (seek_err calls); [intros [= <-]; right; by left|]. destruct (read_err calls); intros [= <-]; [by right; right|].
  apply answers_slice; [exact Ho|exact Hs].
Qed.

Lemma from_buffers_ok calls fh offset size whole s r : sound fh s -> 0 <= offset < lenZ F -> 0 <= size ->
  from_buffers cfg calls p fh (lenZ F) offset size s = Some r ->
  match r with Ok b => answers offset size whole b | Err x => fd_error calls x end.
Proof using.
  intros Hso Ho Hs. pose proof Hso as [_ _ _ Hh Hp _]. unfold from_buffers.
  destruct (direct_io cfg); [done|]. cbn zeta.
  assert (forall o, own_buffer fh offset size s = Some o -> answers offset size whole o) as H1.
  { intros o. unfold own_buffer. destruct (handles s !! fh) as [h|]; [|done].
    specialize (Hh h eq_refl). destruct h as [|hp fd [i|] ex]; try done.
    destruct (heap s !! i) as [v|] eqn:Ev; [|done]. destruct Hh as [_ Hh]. rewrite (Hh i v eq_refl Ev).
    case_test; [|done]. intros E. simplify_eq. by apply answers_slice. }
  assert (forall o, pending_buffer p (lenZ F) offset size s = Some o -> answers offset size whole o) as H2.
  { intros o. unfold pending_buffer. destruct (off_mode_buffers s !! p) as [[i []]|] eqn:Ei; try done.
    destruct (heap s !! i) as [v|] eqn:Ev; [|done]. rewrite (Hp i true v eq_refl Ev).
    case_test; [|done]. intros E. simplify_eq. by apply answers_slice. }
  intros E. destruct (negb _); [|by eapply fd_buffer_ok].
  destruct (own_buffer _ _ _ _) eqn:E1; [simplify_eq; by apply H1|].
  destruct (pending_buffer _ _ _ _ _) eqn:E2; [simplify_eq; by apply H2|by eapply fd_buffer_ok].
Qed.

(** ** Soundness is kept *)
Lemma buffer_not_block q idx : buffer_name salt p <> PathHash.disk_cache_block_path salt q idx.
Proof using.
  intros E. destruct (PathHash.block_name_split salt q idx) as [Es _].
  by rewrite <-E, PathHash.write_buffer_not_block in Es.
Qed.

Lemma sound_cache fh s c : sound fh s -> Coherence.coherent salt inof remote c ->
  (forall f, l2_fs (l2 c) !! buffer_name salt p = Some f -> l2_fs (disk s) !! buffer_name salt p = Some f) ->
  sound fh (set_cache c s).
Proof using. intros [] Hc Hf. split; eauto. Qed.

Lemma sound_handle fh s h : sound fh s -> handle_ok s h -> sound fh (set_handles (<[fh := h]> (handles s)) s).
Proof using.
  intros [] Hh. split; eauto. intros h' E. cbn in E. rewrite lookup_insert_eq in E. by simplify_eq.
Qed.

Lemma block_of_range i d : block_of F i = Some d -> 0 <= i <= U64_MAX /\ lenZ d <= CACHE_BLOCK_SIZE.
Proof using F_len.
  intros H. apply block_of_part in H as (_ & Hl & Hi & Hlt).
  assert (CACHE_BLOCK_SIZE = 8388608) as Hb by done. rewrite Hb in *. unfold U64_MAX, I64_MAX in *. lia.
Qed.

Lemma put_l1_sound fh s i d : sound fh s -> block_of F i = Some d -> sound fh (put_l1 (inof p) i d s).
Proof using MCL remote_F.
  intros Hs Hd. apply sound_cache; [done| |done]. destruct (so_cache _ _ Hs) as [H1 H2]. split; [|done].
  cbn. apply Coherence.l1_put_coh; [done|]. by rewrite remote_F.
Qed.

Lemma l2_put_names now o l q i d :
  l2_fs (fst (l2_put_block salt now o l q i d)) !! buffer_name salt p = l2_fs l !! buffer_name salt p.
Proof using.
  unfold l2_put_block. case_test; [done|]. destruct (serialize_v3_block q d); [|done].
  destruct o; cbn; try done; (apply lookup_insert_ne; intros E; symmetry in E; by apply buffer_not_block in E).
Qed.

(** Block files written whole, or not at all. *)
Definition whole_write (o : block_write) : Prop := o = WriteDone \/ o = OpenFailed.

Lemma l2_get_names now l q i n f : l2_fs (fst (l2_get_block salt now l q i)) !! n = Some f ->
  l2_fs l !! n = Some f.
Proof using.
  unfold l2_get_block. case_test; [done|]. destruct (l2_fs l !! PathHash.disk_cache_block_path salt q i); [|done].
  unfold remove_file. case_test; cbn [fst l2_fs]; [intros H; by apply lookup_delete_Some in H as [_ ?]|].
  pose proof (Blocks.read_block_cached_effect (l2_fs l) (PathHash.disk_cache_block_path salt q i) q) as Hsub.
  destruct (read_block_cached _ _ _) as [fs [d|]]; cbn in *; intros H; [by subst fs|].
  destruct Hsub as [->|(g & _ & _ & ->)]; [by apply lookup_delete_Some in H as [_ ?]|done].
Qed.

Lemma read_block_sound fh now s c r idx : sound fh s -> 0 <= idx <= U64_MAX ->
  read_block salt now (cache s) p (inof p) idx = (c, r) ->
  sound fh (set_cache c s) /\ (forall d, r = Some d -> block_of F idx = Some d).
Proof using CRCL LZL MCL inof_inj remote_F.
  intros Hs Hi E. destruct (Coherence.read_coh salt inof inof_inj _ _ _ _ _ _ _ (so_cache _ _ Hs) Hi E) as [Hc Hd].
  rewrite <-remote_F. split; [|done]. apply sound_cache; [done|done|]. intros f Hf.
  unfold read_block in E. destruct (mc_get _ _ _) as [c1 [d|]]; simplify_eq; [done|].
  pose proof (l2_get_names now (l2 (cache s)) p idx (buffer_name salt p) f) as Hn.
  destruct (l2_get_block _ _ _ _ _) as [c2 [d|]]; simplify_eq; by apply Hn.
Qed.

Lemma cache_part_sound fh now ws s x : sound fh s -> block_of F (fst x) = Some (snd x) -> whole_write (ws (fst x)) ->
  sound fh (cache_part_block salt now ws p (inof p) s x).
Proof using MCL remote_F F_len.
  intros Hs Hx Hw. unfold cache_part_block. destruct (block_of_range _ _ Hx) as [Hi Hl].
  pose proof (put_l1_sound fh s _ _ Hs Hx) as Hs'. apply sound_cache; [done| |].
  - destruct (so_cache _ _ Hs') as [H1 H2]. split; [done|]. cbn [l2].
    apply Coherence.l2_put_coh; [done|done|done|by rewrite remote_F|]. by destruct Hw as [-> | ->].
  - intros f Hf. cbn [l2] in Hf. by rewrite l2_put_names in Hf.
Qed.

Lemma fold_sound {A} (P : A -> Prop) fh (f : state (C := C) -> A -> state (C := C)) xs s :
  (forall s x, sound fh s -> P x -> sound fh (f s x)) -> sound fh s -> Forall P xs -> sound fh (foldl f s xs).
Proof using. intros Hf Hs H. revert s Hs. induction H; intros s Hs; cbn; auto. Qed.

Lemma fold_keeps {A B} (g : state (C := C) -> B) (f : state (C := C) -> A -> state (C := C)) xs s :
  (forall s x, g (f s x) = g s) -> g (foldl f s xs) = g s.
Proof using. intros H. revert s. induction xs as [|x xs IH]; intros s; cbn; [done|]. by rewrite IH, H. Qed.

(** 3. *)
Lemma from_prefetcher_sound fh now ws s offset size (whole : Prop) :
  sound fh s -> 0 <= offset < lenZ F -> 0 <= size ->
  (whole -> forall hp lo ch q ex, handles s !! fh <> Some (ReadHandle hp lo ch (Some q) ex)) ->
  let '(s', r) := from_prefetcher salt now ws p (inof p) fh offset size s in
  (r = None \/ (forall i, whole_write (ws i)) -> sound fh s') /\ chunk_of fh s' = chunk_of fh s /\ l2_fs (disk s') !! buffer_name salt p = l2_fs (disk s) !! buffer_name salt p /\
  forall b, r = Some b -> answers offset size whole b.
Proof using MCL remote_F F_len.
  intros Hs Ho Hsz Hw. unfold from_prefetcher.
  destruct (handles s !! fh) as [h|] eqn:Eh; [|done].
  destruct h as [hp lo ch [q|] ex|]; try done.
  pose proof (so_handle _ _ Hs _ Eh) as Hq. cbn in Hq.
  pose proof (pop_parts _ q offset Hq) as Hpop. destruct (Queue.pop q offset) as [q' r]. destruct Hpop as [Hq' Hr].
  set (s1 := set_handles _ s). assert (sound fh s1) as Hs1 by (by apply sound_handle).
  assert (chunk_of fh s1 = chunk_of fh s) as Hch.
  { unfold chunk_of. cbn. by rewrite lookup_insert_eq, Eh. }
  destruct r as [x|]; [|by split_and!]. destruct Hr as [Hx Hin]. split_and!.
  - intros [|Hws]; [done|].
    apply (fold_sound (fun x => block_of F (fst x) = Some (snd x))); [intros; by apply cache_part_sound|done|].
    apply blocks_of_ok; [done|discriminate].
  - unfold chunk_of in *. rewrite <-Hch. by erewrite (fold_keeps handles).
  - etrans; [apply (fold_keeps (fun s => l2_fs (disk s) !! buffer_name salt p))|done]. intros s2 y. cbn.
    apply l2_put_names.
  - intros b E. simplify_eq. pose proof Hx as (H0 & H1 & _). pose proof (lenZ_nonneg (Queue.data x)).
    unfold Queue.part_end in Hin. rewrite wrap64_small in Hin by (unfold is_u64, U64_MAX, I64_MAX in *; lia).
    apply answers_within; [done|lia|done|]. intros Hwh. by destruct (Hw Hwh hp lo ch q ex).
Qed.

(** 4. *)
Lemma warm_block_sound fh s offset : sound fh s -> 0 <= offset < lenZ F ->
  sound fh (warm_block (inof p) offset F s).
Proof using MCL remote_F.
  intros Hs Ho. unfold warm_block. case_test; [|done]. bool_props. apply put_l1_sound; [done|].
  unfold block_of. assert (CACHE_BLOCK_SIZE = 8388608) as Hb by done. rewrite Hb in *.
  assert ((0 <=? offset / 8388608) = true) as -> by lia.
  assert ((offset / 8388608 * 8388608 <? lenZ F) = true) as -> by lia. cbn [andb]. f_equal.
  destruct (Z.le_gt_cases (offset / 8388608 * 8388608 + 8388608) (lenZ F)); [f_equal; lia|].
  rewrite !takeZ_all; [done| |]; rewrite lenZ_dropZ; lia.
Qed.

Lemma set_disk_sound fh s fs ix : sound fh s ->
  (forall n f, fs !! n = Some f -> l2_fs (disk s) !! n = Some f) ->
  (forall q i, is_Some (l2_index (disk s) !! (q, Some i)) -> is_Some (ix !! (q, Some i))) ->
  sound fh (set_disk fs ix s).
Proof using.
  intros Hs Hfs Hix. apply sound_cache; [done| |by apply Hfs].
  destruct (so_cache _ _ Hs) as [H1 H2]. split; [done|].
  eapply Coherence.coh2_shrink; [exact H2|done|]. intros q i Hq. left. by apply Hix.
Qed.

(** A removed name stays with the descriptor that has its file open. *)
Lemma lost_find fs (s : state (C := C)) name f : l2_fs (disk s) !! name = Some f -> fs !! name = None ->
  exists i x, list_find (fun y => fst y = name) (lost fs s) = Some (i, x) /\ map snd (lost fs s) !! i = Some f.
Proof using.
  intros Hf Hn. assert ((name, f) ∈ lost fs s) as Hin.
  { unfold lost. rewrite elem_of_map_to_list. by apply map_lookup_filter_Some. }
  destruct (list_find_elem_of (fun y => fst y = name) (lost fs s) (name, f) Hin eq_refl) as [[i x] Hi].
  exists i, x. split; [done|]. apply list_find_Some in Hi as (Hx & E & _).
  destruct x as [n g]. cbn in E. subst n. change (map snd (lost fs s)) with (snd <$> lost fs s).
  rewrite list_lookup_fmap, Hx. cbn. f_equal.
  apply list_elem_of_lookup_2 in Hx. unfold lost in Hx. rewrite elem_of_map_to_list in Hx.
  apply map_lookup_filter_Some in Hx as [Hx _]. congruence.
Qed.
Lemma lost_not_found fs (s : state (C := C)) name : is_Some (fs !! name) ->
  list_find (fun y => fst y = name) (lost fs s) = None.
Proof using.
  intros [f Hf]. apply list_find_None, Forall_forall. intros [n g] Hin E. cbn in E. subst n.
  unfold lost in Hin. rewrite elem_of_map_to_list in Hin. apply map_lookup_filter_Some in Hin as [_ E]. cbn in E. congruence.
Qed.

Lemma remove_names_sound fh s fs ix : sound fh s ->
  (forall n f, fs !! n = Some f -> l2_fs (disk s) !! n = Some f) ->
  (forall q i, is_Some (l2_index (disk s) !! (q, Some i)) -> is_Some (ix !! (q, Some i))) ->
  sound fh (remove_names fs ix s).
Proof using.
  intros Hs Hfs Hix. unfold remove_names. cbn zeta. apply set_disk_sound; [|done|done].
  destruct Hs as [H1 H2 H3 H4 H5 H6]. split; try done. intros h Hh. cbn in Hh. rewrite lookup_fmap in Hh.
  destruct (handles s !! fh) as [h0|] eqn:Eh; [|done]. specialize (H4 h0 eq_refl). injection Hh as <-.
  destruct h0 as [|hp [[n|i]|] buf ex]; cbn [relink]; try done.
  - destruct H4 as [H4 H4']. destruct (list_find _ _) as [[i x]|] eqn:Ei; cycle 1.
    { split; [|done]. intros d [= <-]. exact (H4 _ eq_refl). }
    split; [|done]. intros d [= <-]. cbn. specialize (H4 _ eq_refl). cbn in H4. subst n.
    apply list_find_Some in Ei as (Hx & E & _). destruct x as [n f]. cbn in E. subst n. exists f.
    rewrite lookup_app_r by lia. replace (_ + i - _)%nat with i by lia.
    change (map snd (lost fs s)) with (snd <$> lost fs s). rewrite list_lookup_fmap, Hx. split; [done|].
    apply list_elem_of_lookup_2 in Hx. unfold lost in Hx. rewrite elem_of_map_to_list in Hx.
    apply map_lookup_filter_Some in Hx as [Hx _]. by apply H3.
  - destruct H4 as [H4 H4']. split; [|done]. intros d [= <-]. destruct (H4 _ eq_refl) as (f & Hf & Ef). exists f.
    split; [|done]. cbn. by rewrite lookup_app_l by (by eapply lookup_lt_Some).
  - destruct H4 as [_ H4']. by split.
Qed.

Lemma from_file_cache_sound fh now s offset size whole :
  sound fh s -> 0 <= offset < lenZ F -> 0 <= size ->
  let '(s', r) := from_file_cache salt cfg now p (inof p) (lenZ F) offset size s in
  sound fh s' /\ chunk_of fh s' = chunk_of fh s /\ forall b, r = Some b -> answers offset size whole b.
Proof using MCL remote_F.
  intros Hs Ho Hsz. unfold from_file_cache. destruct (direct_io cfg); [done|].
  destruct (l2_fs (disk s) !! buffer_name salt p) as [f|] eqn:Ef; [|done].
  rewrite (so_file _ _ Hs f Ef). case_test.
  - split; [|split; [|done]]; cycle 1.
    { unfold chunk_of. cbn. rewrite lookup_fmap. by destruct (handles s !! fh) as [[|? [[]|]]|]; cbn; repeat case_match. }
    apply remove_names_sound; [done| |].
    + intros n g H. unfold remove_file in H. by apply lookup_delete_Some in H as [_ ?].
    + intros q i H. by rewrite lookup_delete_ne.
  - destruct (file_readable f); [|done]. rewrite Z.leb_refl. split_and!.
    + apply warm_block_sound; [|done]. apply set_disk_sound; [done|done|]. intros. by apply Coherence.bump_is_Some.
    + unfold warm_block, chunk_of. by case_test.
    + intros b E. simplify_eq. apply answers_within; [apply part_of_self|lia|done|by right].
Qed.

(** 6. *)
Lemma answers_part b offset size (whole : Prop) :
  part_of F offset b -> lenZ b < 2 ^ 32 -> 0 <= size -> (0 < size -> 0 < lenZ b) ->
  (whole -> Z.min size (lenZ F - offset) <= lenZ b) ->
  answers offset size whole (takeZ (Z.min (lenZ b mod 2 ^ 32) size) b).
Proof using.
  intros Hp Hl Hs H0 Hw. pose proof (lenZ_nonneg b). rewrite Z.mod_small by lia.
  exists (Z.min (lenZ b) size). pose proof Hp as (Ho & He & E).
  split; [rewrite E at 2; rewrite takeZ_takeZ by lia; done|]. split; [lia|]. split; [lia|].
  intros Hwh. specialize (Hw Hwh). lia.
Qed.

Lemma user_cap_pos ch : 0 < user_cap_of cfg ch.
Proof using. unfold user_cap_of. repeat case_test; bool_props; lia. Qed.

Lemma fetch_size_bounds cap offset size : 0 < cap -> 0 <= offset < lenZ F -> 0 <= size ->
  let n := fetch_size_of cap (lenZ F) offset size in
  0 <= n <= lenZ F - offset /\ n < 2 ^ 32 /\ (0 < size -> 0 < n) /\
  (size <= cap -> size <= 16 * 1024 * 1024 -> Z.min size (lenZ F - offset) <= n).
Proof using.
  intros Hc Ho Hs. unfold fetch_size_of. cbn zeta.
  destruct (Z.leb_spec (lenZ F) (256 * 1024 * 1024)); case_test; bool_props; lia.
Qed.

Lemma submit_block_sound fh now s x : sound fh s -> block_of F (fst x) = Some (snd x) ->
  sound fh (submit_block salt now p s x).
Proof using.
  intros Hs Hx. unfold submit_block. apply set_disk_sound.
  - destruct Hs as [H1 H2 H3 H4 H5 H6]. split; try done. cbn. apply Forall_app. split; [done|].
    repeat constructor. cbn. by exists (fst x).
  - done.
  - intros q i H. apply lookup_insert_is_Some'. by right.
Qed.

Lemma adapt_chunk_sound fh s a b c d e : sound fh s -> sound fh (adapt_chunk cfg fh a b c d e s).
Proof using.
  intros Hs. unfold adapt_chunk. destruct (handles s !! fh) as [h|] eqn:Eh; [|done].
  destruct h as [hp lo ch q ex|]; [|done]. apply sound_handle; [done|]. apply (so_handle _ _ Hs _ Eh).
Qed.

(** A successful range read returns the bytes of the range the object has. *)
Definition fetch_ok (fetch : bool -> Z -> Z -> option bytes) : Prop :=
  forall par a e b, fetch par a e = Some b -> b = takeZ (e - a) (dropZ a F).

Lemma try_backend_part fh s offset size fetch par :
  let n := fetch_size_of (user_cap_of cfg (fst (chunk_of fh s))) (lenZ F) offset size in
  sound fh s -> fetch_ok fetch -> 0 <= offset < lenZ F -> 0 <= size < 2 ^ 32 ->
  match try_backend_or_stale salt cfg p offset size (fetch par offset (offset + n)) s with
  | Some b => part_of F offset b /\ lenZ b < 2 ^ 32 /\ (0 < size -> 0 < lenZ b) /\
      (size <= user_cap_of cfg (fst (chunk_of fh s)) -> size <= 16 * 1024 * 1024 ->
       Z.min size (lenZ F - offset) <= lenZ b)
  | None => fetch par offset (offset + n) = None
  end.
Proof using F_len.
  intros n Hs Hf Ho Hsz.
  pose proof (fetch_size_bounds _ offset size (user_cap_pos (fst (chunk_of fh s))) Ho ltac:(lia)) as (H1 & H2 & H3 & H4).
  fold n in H1, H2, H3, H4. unfold try_backend_or_stale.
  destruct (fetch par offset (offset + n)) as [b|] eqn:Eb.
  - rewrite (Hf _ _ _ _ Eb). replace (offset + n - offset) with n by lia.
    split; [apply part_of_take; lia|]. rewrite lenZ_takeZ, lenZ_dropZ by lia.
    split; [lia|]. split; [lia|]. intros Ha Hb. specialize (H4 Ha Hb). lia.
  - destruct (read_stale_on_backend_error cfg); [|done].
    destruct (l2_fs (disk s) !! buffer_name salt p) as [f|] eqn:Ef; [|done].
    rewrite (so_file _ _ Hs f Ef). unfold saturating_add. case_test; bool_props; [done|].
    destruct (file_readable f); [|done]. unfold slice. unfold U64_MAX, I64_MAX in *.
    rewrite Z.min_l by lia. replace (offset + size - offset) with size by lia.
    split; [apply part_of_take; lia|]. rewrite lenZ_takeZ, lenZ_dropZ by lia. lia.
Qed.

Lemma from_backend_sound fetch fh now s offset size :
  sound fh s -> fetch_ok fetch -> 0 <= offset < lenZ F -> 0 <= size < 2 ^ 32 ->
  let '(s', r) := from_backend salt cfg fetch now p (inof p) fh (lenZ F) offset size s in
  sound fh s' /\
  match r with
  | Ok b => answers offset size
              (size <= user_cap_of cfg (fst (chunk_of fh s)) /\ size <= 16 * 1024 * 1024) b
  | Err e => e = Errors.io_new Errors.OtherKind /\ exists par e, fetch par offset e = None
  end.
Proof using MCL remote_F F_len.
  intros Hs Hf Ho Hsz. unfold from_backend. destruct (chunk_of fh s) as [ch last] eqn:Ec.
  pose proof (try_backend_part fh s offset size fetch
    (use_parallel cfg (fetch_size_of (user_cap_of cfg ch) (lenZ F) offset size)) Hs Hf Ho Hsz) as Ht.
  rewrite Ec in Ht. cbn [fst] in Ht |- *.
  destruct (try_backend_or_stale _ _ _ _ _ _ _) as [b|]; [|by eauto].
  destruct Ht as (Hp & Hl & Hz & Hw). split.
  - assert (Forall (fun x => block_of F (fst x) = Some (snd x)) (blocks_of (lenZ F <=? offset + lenZ b) offset b)) as Hb.
    { apply blocks_of_ok; [done|]. intros. by bool_props. }
    apply adapt_chunk_sound. destruct (direct_io cfg).
    + eapply fold_sound; [|done|exact Hb]. intros. by apply put_l1_sound.
    + eapply fold_sound; [| |exact Hb]; [intros; by apply submit_block_sound|].
      eapply fold_sound; [|done|exact Hb]. intros. by apply put_l1_sound.
  - apply answers_part; [done|done|lia|done|]. intros [Ha Hb]. by apply Hw.
Qed.

(** Nothing cuts the answer short: the range ends with its block, no part
    was prefetched, and the handle's chunk is long enough. *)
Definition uncut (fh offset size : Z) (s : state (C := C)) : Prop :=
  offset mod CACHE_BLOCK_SIZE + size <= CACHE_BLOCK_SIZE /\
  size <= user_cap_of cfg (fst (chunk_of fh s)) /\
  forall hp lo ch q ex, handles s !! fh <> Some (ReadHandle hp lo ch (Some q) ex).

Lemma block_answers idx d offset size (whole : Prop) : block_of F idx = Some d -> idx = offset / CACHE_BLOCK_SIZE ->
  0 <= offset < lenZ F -> 0 <= size -> (whole -> offset mod CACHE_BLOCK_SIZE + size <= CACHE_BLOCK_SIZE) ->
  answers offset size whole (within (idx * CACHE_BLOCK_SIZE) offset size d).
Proof using.
  intros Hd -> Ho Hs Hw. apply block_of_part in Hd as (Hp & Hl & _ & _).
  assert (CACHE_BLOCK_SIZE = 8388608) as Hb by done. rewrite Hb in *.
  apply answers_within; [done|lia|done|]. intros Hwh. specialize (Hw Hwh). lia.
Qed.

Lemma answers_weaken offset size (P Q : Prop) b : (Q -> P) -> answers offset size P b -> answers offset size Q b.
Proof using. intros H (n & ? & ? & ? & Hw). exists n. split_and!; auto; tauto. Qed.

Lemma read_sound e fh s offset size :
  sound fh s -> fetch_ok (fetch e) -> 0 <= offset -> 0 <= size < 2 ^ 32 ->
  let '(s', r) := read salt cfg e (inof p) fh offset size s in
  ((forall i, whole_write (writes e i)) -> sound fh s') /\
  match r with
  | Ok b => if lenZ F <=? offset then b = [] else answers offset size (uncut fh offset size s) b
  | Err x => fd_error (fd_calls e) x \/ x = Errors.io_new Errors.OtherKind /\ exists par hi, fetch e par offset hi = None
  end.
Proof using CRCL LZL MCL inof_inj remote_F F_len.
  intros Hs Hf Ho Hsz. unfold read. destruct (so_ino _ _ Hs) as (x & -> & Ep & Ez). rewrite Ep, Ez.
  destruct (Z.leb_spec (lenZ F) offset); [done|].
  destruct (from_buffers _ _ _ _ _ _ _ _) as [r|] eqn:Eb.
  { split; [done|]. eapply (from_buffers_ok _ _ _ _ (uncut fh offset size s)) in Eb; [|exact Hs|lia|lia].
    destruct r; [done|by left]. }
  assert (CACHE_BLOCK_SIZE = 8388608) as Hbs by done.
  destruct (read_block _ _ _ _ _ _) as [c hit] eqn:Er.
  apply (read_block_sound fh) in Er as [Hs1 Hd]; [|done|rewrite Hbs; unfold U64_MAX, I64_MAX in *; lia].
  destruct hit as [d|].
  { split; [done|]. eapply block_answers; [by apply Hd|done|lia|lia|]. by intros [? _]. }
  pose proof (from_prefetcher_sound fh (r_now e) (writes e) (set_cache c s) offset size (uncut fh offset size s) Hs1
    ltac:(lia) ltac:(lia) ltac:(by intros (_ & _ & ?))) as Hpf.
  destruct (from_prefetcher _ _ _ _ _ _ _ _ _) as [s2 [r|]]; destruct Hpf as (Hs2 & Hc2 & _ & Ha); [by eauto|].
  specialize (Hs2 (or_introl eq_refl)).
  pose proof (from_file_cache_sound fh (r_now e) s2 offset size (uncut fh offset size s) Hs2 ltac:(lia) ltac:(lia)) as Hfc.
  destruct (from_file_cache _ _ _ _ _ _ _ _ _) as [s3 [r|]]; destruct Hfc as (Hs3 & Hc3 & Hb3); [by eauto|].
  pose proof (from_backend_sound (fetch e) fh (r_now e) s3 offset size Hs3 Hf ltac:(lia) Hsz) as Hbk.
  destruct (from_backend _ _ _ _ _ _ _ _ _ _ _) as [s4 r]. destruct Hbk as [Hs4 Hr]. split; [done|].
  destruct r as [b|]; [|by right]. eapply answers_weaken; [|exact Hr]. intros (Hu1 & Hu2 & _).
  rewrite Hc3, Hc2. split; [done|]. rewrite Hbs in Hu1. lia.
Qed.

(** C3: reading.  While the layers hold nothing but the file's content (the
    inode has its size, cache levels, whole-file copy, buffers, prefetched parts
    and queued block writes agree with it), and a range read that succeeds
    returns the bytes of the range, a read answers, from whichever layer has the
    bytes, with a prefix of the requested range: empty only at the end of the
    file or for an empty request, and the whole range when no block or part
    boundary, and no chunk limit, falls inside it.  It fails only with an error
    of the calls on the handle's own buffer file or when the backend failed.
    Afterwards every layer still holds nothing but the file's content, unless a
    block write was cut short on the way. *)
Theorem read_correct e fh s offset size :
  sound fh s -> fetch_ok (fetch e) -> 0 <= offset -> 0 <= size < 2 ^ 32 ->
  let '(s', r) := read salt cfg e (inof p) fh offset size s in
  ((forall i, whole_write (writes e i)) -> sound fh s') /\
  match r with
  | Ok b => if lenZ F <=? offset then b = [] else answers offset size (uncut fh offset size s) b
  | Err x => fd_error (fd_calls e) x \/ x = Errors.io_new Errors.OtherKind /\ exists par hi, fetch e par offset hi = None
  end.
Proof using CRCL LZL MCL inof_inj remote_F F_len. apply read_sound. Qed.

(** The caller's loop: read on from where the last answer ended, until an
    empty answer. *)
Fixpoint read_to_end (n : nat) (e : nat -> read_env) (fh offset size : Z) (s : state (C := C))
    : state (C := C) * result bytes Errors.io_Error :=
  match n with
  | O => (s, Ok [])
  | S n =>
      let '(s, r) := read salt cfg (e n) (inof p) fh offset size s in
      match r with
      | Ok [] => (s, Ok [])
      | Ok b =>
          let '(s, r) := read_to_end n e fh (offset + lenZ b) size s in
          (s, match r with Ok c => Ok (b ++ c) | Err e => Err e end)
      | Err e => (s, Err e)
      end
  end.

(** Nothing fails: the backend answers every range read with the bytes it has,
    the calls on the buffer file succeed, no block write is cut short. *)
Definition answered (e : read_env) : Prop :=
  fetch_ok (fetch e) /\ (forall par a hi, fetch e par a hi <> None) /\ fd_calls e = fd_calm /\
  forall i, whole_write (writes e i).

Lemma read_to_end_complete n e fh offset size s :
  sound fh s -> (forall k, answered (e k)) ->
  0 <= offset <= lenZ F -> 0 < size < 2 ^ 32 -> lenZ F - offset < Z.of_nat n ->
  let '(s', r) := read_to_end n e fh offset size s in
  sound fh s' /\ r = Ok (dropZ offset F).
Proof using CRCL LZL MCL inof_inj remote_F F_len.
  revert offset s. induction n as [|n IH]; intros offset s Hs He Ho Hsz Hn; [lia|]. cbn [read_to_end].
  destruct (He n) as (Hf & Hg & Hfd & Hw).
  pose proof (read_sound (e n) fh s offset size Hs Hf ltac:(lia) ltac:(lia)) as Hr.
  destruct (read _ _ _ _ _ _ _ _) as [s1 r]. destruct Hr as [Hs1 Hr]. specialize (Hs1 Hw).
  destruct r as [b|x]; cycle 1.
  { rewrite Hfd in Hr. destruct Hr as [[?|[?|?]]|(_ & par & hi & H)]; [done..|]. by apply Hg in H. }
  destruct (Z.leb_spec (lenZ F) offset).
  - subst b. split; [done|]. f_equal. symmetry. apply lenZ_0_nil. rewrite lenZ_dropZ; lia.
  - destruct Hr as (m & Eb & Hm & Hm0 & _). specialize (Hm0 ltac:(lia)).
    assert (lenZ b = m) as Hl by (rewrite Eb, lenZ_takeZ, lenZ_dropZ; lia).
    destruct b as [|y b']; [change (0 = m) in Hl; lia|]. set (b := y :: b') in *.
    specialize (IH (offset + lenZ b) s1 Hs1 He ltac:(lia) Hsz ltac:(lia)).
    destruct (read_to_end n _ _ _ _ _) as [s2 r]. destruct IH as [Hs2 ->]. split; [done|].
    f_equal. rewrite Eb at 1. rewrite <-(takeZ_dropZ m (dropZ offset F)) at 2. f_equal.
    rewrite dropZ_dropZ by lia. f_equal. by rewrite Hl.
Qed.

(** ** Opening *)
Lemma sound_file fh s now : sound fh s ->
  sound fh (set_disk (<[buffer_name salt p := mk_file F now true]> (l2_fs (disk s))) (l2_index (disk s)) s).
Proof using.
  intros [H1 [H2 H3] H4 H5 H6 H7]. split; try done.
  - split; [done|]. intros n f Hn Hb. cbn in Hn. apply lookup_insert_Some in Hn as [[<- _]|[_ Hn]].
    + destruct Hb as (q & i & E & _). by apply buffer_not_block in E.
    + by apply H3.
  - intros f Hf. cbn in Hf. rewrite lookup_insert_eq in Hf. by simplify_eq.
Qed.

Lemma populate_sound fh s now : sound fh s ->
  let s' := populate_cache_from_backend salt (Some F) Saved now p s in
  sound fh s' /\ is_Some (l2_fs (disk s') !! buffer_name salt p) /\ handles s' = handles s /\ heap s' = heap s.
Proof using.
  intros Hs. unfold populate_cache_from_backend.
  destruct (l2_fs (disk s) !! buffer_name salt p) as [f|] eqn:Ef; [by rewrite Ef; eauto|].
  split; [by apply sound_file|]. cbn. rewrite lookup_insert_eq. eauto.
Qed.

Lemma off_mode_buffer_sound fh s id : sound fh s -> handles s !! fh = None -> heap s !! id = None ->
  let '(s', i) := off_mode_buffer (Some F) id p s in
  sound fh s' /\ handles s' = handles s /\ forall v, heap s' !! i = Some v -> v = F.
Proof using.
  intros Hs Hh Hid. unfold off_mode_buffer. destruct (off_mode_buffers s !! p) as [[i d]|] eqn:Ei.
  - split; [done|]. split; [done|]. intros v. by apply (so_pending _ _ Hs i d v).
  - split; [|split; [done|]].
    + destruct Hs as [H1 H2 H3 H4 H5 H6]. split; try done.
      * intros h E. cbn in E. congruence.
      * intros i d v. cbn. rewrite lookup_insert_eq. intros E. simplify_eq. rewrite lookup_insert_eq. by intros [= <-].
    + intros v. cbn. rewrite lookup_insert_eq. by intros [= <-].
Qed.

(** An [open] that gets the object and can save it. *)
Definition seeded (e : open_env) : Prop :=
  fetched e = Some F /\ saved e = Saved /\ open_ok e = true /\ seed e = Some F.

(** Opening a handle while the layers are sound gives a sound handle. *)
Lemma open_sound s e flags :
  sound (NEXT_HANDLE s) s -> handles s !! NEXT_HANDLE s = None -> heap s !! buf_id e = None ->
  (Z.land flags 3 <> 0 -> seeded e) ->
  let '(s', fh) := open salt cfg e (inof p) flags s in
  fh = NEXT_HANDLE s /\ sound fh s'.
Proof using.
  intros Hs Hh Hid He. unfold open. destruct (so_ino _ _ Hs) as (x & -> & -> & _). cbn zeta.
  set (s0 := mk_state _ _ _ _ _ _ _ _). set (s1 := sweep_expired cfg (o_now e) s0).
  assert (sound (NEXT_HANDLE s) s1 /\ handles s1 !! NEXT_HANDLE s = None /\ heap s1 = heap s) as (Hs1 & Hh1 & Hp1).
  { assert (handles s1 !! NEXT_HANDLE s = None) as E.
    { subst s1. unfold sweep_expired. case_test; [|done]. cbn. by apply map_lookup_filter_None; left. }
    subst s1. unfold sweep_expired in *. destruct (0 <? handle_caching cfg); (split; [|by split]);
      destruct Hs as [H1 H2 H3 H4 H5 H6]; split; try done; intros h E'; cbn in E, E'; congruence. }
  clearbody s1. rewrite <-Hp1 in Hid. clear s0 Hp1. destruct (Z.eqb_spec (Z.land flags 3) 0) as [_|Hfl]; cbn [negb].
  { split; [done|]. apply sound_handle; [done|]. cbn.
    destruct (maybe_create_prefetcher cfg (inof p) s1) as [[q ch]|] eqn:Em; cbn; [|done].
    unfold maybe_create_prefetcher in Em. case_test_in Em; [done|]. by simplify_eq. }
  destruct (He Hfl) as (E1 & E2 & E3 & E4). rewrite E1, E2, E3, E4.
  destruct (populate_sound _ s1 (o_now e) Hs1) as (Hs2 & [f Hf] & Hh2 & Hp2).
  set (s2 := populate_cache_from_backend _ _ _ _ _ _) in *. rewrite <-Hh2 in Hh1. rewrite <-Hp2 in Hid.
  destruct (PathHash.disk_write_buffer (cache_mode cfg)).
  - rewrite Hf. split; [done|]. apply sound_handle; [done|]. by split; [intros ? [= <-]|].
  - pose proof (off_mode_buffer_sound _ s2 (buf_id e) Hs2 Hh1 Hid) as Ho.
    destruct (off_mode_buffer _ _ _ _) as [s3 i]. destruct Ho as (Hs3 & _ & Hv). split; [done|].
    apply sound_handle; [done|]. split; [done|]. intros j v [= <-]. apply Hv.
Qed.

(** C10: progress.  The layers hold nothing but the file's content.  A caller
    that opens the file, for reading, or for writing with the object fetched and
    saved as its buffer, and reads on until an empty answer gets the whole file,
    in at most one read per byte and one to see the end, whatever mix of layers
    answers and however they cut the answers; as long as the backend and the
    descriptor answer every read and no block write is cut short. *)
Theorem open_read_to_end n e s o flags size :
  sound (NEXT_HANDLE s) s -> handles s !! NEXT_HANDLE s = None -> heap s !! buf_id o = None ->
  (Z.land flags 3 <> 0 -> seeded o) -> (forall k, answered (e k)) ->
  0 < size < 2 ^ 32 -> lenZ F < Z.of_nat n ->
  let '(s1, fh) := open salt cfg o (inof p) flags s in
  let '(s2, r) := read_to_end n e fh 0 size s1 in
  r = Ok F /\ sound fh s2.
Proof using CRCL LZL MCL inof_inj remote_F F_len.
  intros Hs Hh Hid Hse He Hsz Hn. pose proof (open_sound s o flags Hs Hh Hid Hse) as Ho.
  destruct (open _ _ _ _ _ _) as [s1 fh]. destruct Ho as [-> Hs1].
  pose proof (lenZ_nonneg F).
  pose proof (read_to_end_complete n e (NEXT_HANDLE s) 0 size s1 Hs1 He ltac:(lia) Hsz ltac:(lia)) as Hr.
  destruct (read_to_end _ _ _ _ _ _) as [s2 r]. by destruct Hr as [? ->].
Qed.
End Laws.

(** ** Errors and short answers *)
Section Edges.
Context `{CRC : !Crc32c, LZ : !Lz4}.
Context {C : Type} `{MC : !MemCache C}.
Context (salt : Z) (cfg : config).

(** Only the calls on the descriptor fail. *)
Lemma from_buffers_error calls p fh actual_size offset size (s : state (C := C)) x :
  from_buffers cfg calls p fh actual_size offset size s = Some (Err x) ->
  direct_io cfg = false /\ fd_error calls x /\
  exists hp d buf ex, handles s !! fh = Some (WriteHandle hp (Some d) buf ex).
Proof using.
  unfold from_buffers. destruct (direct_io cfg); [done|].
  destruct (if negb _ then own_buffer _ _ _ _ else None); [done|].
  destruct (if negb _ then pending_buffer _ _ _ _ _ else None); [done|].
  unfold fd_buffer, fd_error. destruct (handles s !! fh) as [[|hp [d|] buf ex]|]; try done.
  destruct (fd_file d s); [|done]. intros E. split; [done|]. split; [|by eauto].
  destruct (metadata_err calls); [injection E as ->; by left|]. case_test_in E; [|done].
  destruct (seek_err calls); [injection E as ->; by right; left|].
  destruct (read_err calls); [injection E as ->; by right; right|done].
Qed.

(** C33: errors of a read.  It fails with NotFound, and changes nothing, exactly
    when the inode is unknown; a read at or behind the end of a known inode
    answers with nothing and changes nothing.  Otherwise it fails in two ways
    only: with the error of a call on the buffer file of its own handle, changing
    nothing; or with [Other] when the backend's range read failed and, where
    stale answers are allowed, the whole-file cache does not cover the range
    either. *)
Theorem read_error_spec e ino fh offset size (s s' : state (C := C)) r :
  read salt cfg e ino fh offset size s = (s', r) ->
  (resolve (tab s) ino = None -> s' = s /\ r = Err (Errors.io_new Errors.NotFound)) /\
  forall x, resolve (tab s) ino = Some x ->
    (Inodes.size x <= offset -> s' = s /\ r = Ok []) /\
    forall err, r = Err err -> offset < Inodes.size x /\
      ((direct_io cfg = false /\ s' = s /\ fd_error (fd_calls e) err /\
        exists hp d buf ex, handles s !! fh = Some (WriteHandle hp (Some d) buf ex)) \/
       (err = Errors.io_new Errors.OtherKind /\ (exists par hi, fetch e par offset hi = None) /\
        (read_stale_on_backend_error cfg = true -> forall f, l2_fs (disk s') !! buffer_name salt (path x) = Some f ->
           file_readable f = true -> lenZ (file_data f) < saturating_add offset size))).
Proof using.
  unfold read. destruct (resolve (tab s) ino) as [x|]; [|by intros [= <- <-]].
  destruct (Z.leb_spec (Inodes.size x) offset).
  { intros [= <- <-]. split; [done|]. intros ? [= <-]. split; [done|]. done. }
  intros E. split; [done|]. intros ? [= <-]. split; [lia|]. intros err ->. split; [done|].
  destruct (from_buffers _ _ _ _ _ _ _ _) as [r|] eqn:Eb.
  { left. injection E as <- ->. destruct (from_buffers_error _ _ _ _ _ _ _ _ Eb) as (? & ? & ?). done. }
  right. destruct (read_block _ _ _ _ _ _) as [c [d|]]; [done|].
  destruct (from_prefetcher _ _ _ _ _ _ _ _ _) as [s2 [b|]]; [done|].
  destruct (from_file_cache _ _ _ _ _ _ _ _ _) as [s3 [b|]]; [done|].
  unfold from_backend in E. destruct (chunk_of fh s3) as [ch lo].
  destruct (try_backend_or_stale _ _ _ _ _ _ _) as [b|] eqn:Et; simplify_eq. split; [done|].
  unfold try_backend_or_stale in Et.
  destruct (fetch e _ offset _) eqn:Ef; [done|]. split; [by eauto|].
  intros Est f Hf Hr. rewrite Est, Hf, Hr in Et. case_test_in Et; [|done]. by bool_props.
Qed.

(** A read that a cached block answers stops at the end of the block, although
    the file goes on: the kernel takes a short answer for the end of the file. *)
Theorem read_stops_at_block_end e ino fh offset size (s : state (C := C)) x c d :
  resolve (tab s) ino = Some x -> 0 <= offset -> offset + size <= Inodes.size x ->
  from_buffers cfg (fd_calls e) (path x) fh (Inodes.size x) offset size s = None ->
  read_block salt (r_now e) (cache s) (path x) ino (offset / CACHE_BLOCK_SIZE) = (c, Some d) ->
  lenZ d = CACHE_BLOCK_SIZE -> CACHE_BLOCK_SIZE < offset mod CACHE_BLOCK_SIZE + size ->
  exists b, snd (read salt cfg e ino fh offset size s) = Ok b /\
    lenZ b = CACHE_BLOCK_SIZE - offset mod CACHE_BLOCK_SIZE /\ lenZ b < size.
Proof using.
  intros Hx Ho Hz Hb Hr Hd Hc. assert (Hbs : CACHE_BLOCK_SIZE = 8388608) by done. unfold read. rewrite Hx.
  destruct (Z.leb_spec (Inodes.size x) offset); [rewrite Hbs in *; lia|]. rewrite Hb, Hr.
  eexists. split; [done|]. unfold within, slice. rewrite Hd, Hbs in *. case_test; bool_props; [|lia].
  rewrite lenZ_takeZ, lenZ_dropZ by lia. lia.
Qed.

(** A whole-file copy past its age is deleted before the backend is asked, so
    when the backend fails there is nothing left to answer with, although
    stale answers are allowed. *)
Theorem expired_copy_never_answers e ino fh offset size (s : state (C := C)) x c f :
  resolve (tab s) ino = Some x -> 0 <= offset < Inodes.size x -> 0 < size ->
  from_buffers cfg (fd_calls e) (path x) fh (Inodes.size x) offset size s = None ->
  read_block salt (r_now e) (cache s) (path x) ino (offset / CACHE_BLOCK_SIZE) = (c, None) ->
  (forall hp lo ch q ex, handles s !! fh <> Some (ReadHandle hp lo ch (Some q) ex)) ->
  direct_io cfg = false -> cache_max_age cfg <> 0 ->
  l2_fs (l2 c) !! buffer_name salt (path x) = Some f ->
  l2_fs (l2 c) !! Sidecar.with_extension (buffer_name salt (path x)) "dirty" = None ->
  PathHash.is_cache_file_expired (r_now e) (Some (file_mtime f)) (cache_max_age cfg) = true ->
  (forall par a hi, fetch e par a hi = None) ->
  let '(s', r) := read salt cfg e ino fh offset size s in
  r = Err (Errors.io_new Errors.OtherKind) /\ l2_fs (disk s') !! buffer_name salt (path x) = None.
Proof using.
  intros Hx Ho Hsz Hb Hr Hq Hdio Hage Hf Hdirty Hexp Hfetch. unfold read. rewrite Hx.
  destruct (Z.leb_spec (Inodes.size x) offset); [lia|]. rewrite Hb, Hr.
  unfold from_prefetcher. assert (handles (set_cache c s) !! fh = handles s !! fh) as -> by done.
  assert (exists s0, s0 = set_cache c s) as [s0 Es0] by eauto. rewrite <-Es0.
  destruct (match handles s !! fh with Some (ReadHandle _ _ _ (Some _) _) => _ | _ => (s0, None) end) as [s1 h1] eqn:E1.
  assert (s1 = s0 /\ h1 = None) as [-> ->].
  { destruct (handles s !! fh) as [[hp lo ch [q|] ex|]|]; try by simplify_eq. by destruct (Hq hp lo ch q ex). }
  unfold from_file_cache. rewrite Hdio, Es0. unfold disk. cbn [cache set_cache]. rewrite Hf, Hdirty.
  rewrite bool_decide_false by (by intros []). cbn [negb]. rewrite Hexp.
  assert ((cache_max_age cfg =? 0) = false) as -> by lia. cbn [negb andb].
  unfold from_backend. destruct (chunk_of _ _) as [ch lo]. rewrite Hfetch. unfold try_backend_or_stale.
  unfold disk, remove_names, set_disk, remove_file. cbn. rewrite lookup_delete_eq. by destruct (read_stale_on_backend_error cfg); cbn; rewrite lookup_delete_eq.
Qed.

(** Opening a file for writing while the backend's read fails succeeds with an
    empty buffer, whatever the file's size: what is uploaded when the handle is
    closed replaces the object by the bytes written through it. *)
Theorem open_after_failed_fetch e ino flags (s : state (C := C)) x :
  fetched e = None -> open_ok e = true ->
  resolve (tab s) ino = Some x -> Z.land flags 3 <> 0 -> PathHash.disk_write_buffer (cache_mode cfg) = true ->
  l2_fs (disk s) !! buffer_name salt (path x) = None ->
  let '(s', fh) := open salt cfg e ino flags s in
  handles s' !! fh = Some (WriteHandle (path x) (Some (Linked (buffer_name salt (path x)))) None None) /\
  l2_fs (disk s') !! buffer_name salt (path x) = Some (mk_file [] (o_now e) true).
Proof using.
  intros He1 He2 Hx Hfl Hm Hf. unfold open. rewrite Hx. assert ((Z.land flags 3 =? 0) = false) as -> by lia. cbn [negb].
  cbn zeta. set (s1 := sweep_expired _ _ _). assert (disk s1 = disk s) as Hd.
  { subst s1. unfold sweep_expired. by case_test. }
  unfold populate_cache_from_backend. rewrite Hd, Hf, Hm, He1, He2, Hd, Hf. split; [apply lookup_insert_eq|].
  unfold disk, set_disk, set_handles. cbn. apply lookup_insert_eq.
Qed.
End Edges.

(** ** Witnesses: a file of eleven bytes, nothing cached *)
Section Witnesses.
#[local] Existing Instance soft_crc32c.
#[local] Existing Instance soft_crc32c_laws.
#[local] Existing Instance stored_lz4.
#[local] Existing Instance stored_lz4_laws.
#[local] Instance L1 : MemCache DashMapCache.DashMapMemCache := DashMapCache.dashmap_MemCache 9.
#[local] Instance L1_laws : MemCacheLaws DashMapCache.DashMapMemCache := DashMapCache.dashmap_MemCacheLaws 9.

Definition text : bytes := as_bytes "hello world".
Definition text_remote (q : string) (i : Z) : option bytes :=
  if String.eqb q "a" then block_of text i else None.
Definition text_fetch (_ : bool) (a e : Z) : option bytes := Some (takeZ (e - a) (dropZ a text)).
Definition ino_a : Z := Coherence.inode_of "a".
Definition text_table (sz : Z) : table :=
  mk_table {[ ino_a := mk_inode "a" Inodes.RegularFile sz None ]} {["a"%string := ino_a]} ∅ 2.
Definition the_cfg : config := mk_config false PathHash.Full 60 0 4 0 1 true 0 1 0.
Definition cold_state : state (C := DashMapCache.DashMapMemCache) :=
  mk_state (text_table 11) (mk_mlc (DashMapCache.new 100) (mk_l2 ∅ ∅ ∅ false 0)) ∅ ∅ ∅ [] 1 [].

Lemma cold_sound fh : sound 0 Coherence.inode_of text_remote "a" text fh cold_state.
Proof.
  split.
  - exists (mk_inode "a" Inodes.RegularFile 11 None). split; [apply lookup_singleton_eq|done].
  - split; [split; [apply DashMapCache.wf_new|by intros i j e He]|by intros n f Hn].
  - by intros f Hf.
  - by intros h Hh.
  - by intros i d v Hv.
  - constructor.
Qed.
Lemma text_fetch_ok : fetch_ok text text_fetch.
Proof. intros par a e b E. unfold text_fetch in E. by simplify_eq. Qed.

(** Nothing fails. *)
Definition text_env : read_env := mk_read_env text_fetch 5 fd_calm (fun _ => WriteDone).
Definition text_open : open_env := mk_open_env (Some text) Saved true (Some text) 0 5.
Lemma text_answered : answered text text_env.
Proof. split; [apply text_fetch_ok|]. split; [done|]. split; [done|]. intros i. by left. Qed.

Lemma read_correct_witness :
  snd (read 0 the_cfg text_env ino_a 7 6 3 cold_state) = Ok (as_bytes "wor") /\
  sound 0 Coherence.inode_of text_remote "a" text 7 (fst (read 0 the_cfg text_env ino_a 7 6 3 cold_state)).
Proof.
  split; [by vm_compute|].
  pose proof (read_correct 0 the_cfg Coherence.inode_of Coherence.inode_of_inj text_remote "a" text
    (fun i => eq_refl) ltac:(by vm_compute) text_env 7 cold_state 6 3 (cold_sound 7) text_fetch_ok
    ltac:(lia) ltac:(lia)) as H.
  fold ino_a in H. destruct (read 0 the_cfg text_env ino_a 7 6 3 cold_state). apply H. intros i. by left.
Defined.

(** Four bytes at a time, through a handle open for writing. *)
Lemma open_read_to_end_witness :
  let '(s1, fh) := open 0 the_cfg text_open ino_a 2 cold_state in
  snd (read_to_end 0 the_cfg Coherence.inode_of "a" 12 (fun _ => text_env) fh 0 4 s1) = Ok text.
Proof.
  pose proof (open_read_to_end 0 the_cfg Coherence.inode_of Coherence.inode_of_inj text_remote "a" text
    (fun i => eq_refl) ltac:(by vm_compute) 12 (fun _ => text_env) cold_state text_open 2 4
    (cold_sound 1) eq_refl eq_refl ltac:(intros _; by split_and!) (fun _ => text_answered) ltac:(lia) ltac:(by vm_compute)) as H.
  fold ino_a in H. destruct (open _ _ _ _ _ _) as [s1 fh].
  destruct (read_to_end _ _ _ _ _ _ _ _ _ _) as [s2 r]. exact (proj1 H).
Defined.

Lemma read_error_spec_witness :
  resolve (tab cold_state) 3 = None /\
  snd (read 0 the_cfg text_env 3 7 0 4 cold_state) = Err (Errors.io_new Errors.NotFound).
Proof.
  split; [by vm_compute|].
  pose proof (read_error_spec 0 the_cfg text_env 3 7 0 4 cold_state _ _ (surjective_pairing _)) as [H _].
  exact (proj2 (H ltac:(by vm_compute))).
Defined.

(** A buffer file whose name is removed while it is open is still read. *)
Example unlinked_buffer_is_read :
  let '(s1, fh) := open 0 the_cfg text_open ino_a 2 cold_state in
  let s2 := remove_names ∅ ∅ s1 in
  l2_fs (disk s2) = ∅ /\ snd (read 0 the_cfg text_env ino_a fh 6 5 s2) = Ok (as_bytes "world").
Proof. by vm_compute. Qed.

(** A disk error of the handle's own buffer file is the answer of the read,
    although the backend would have answered. *)
Example buffer_error_fails_read :
  let '(s1, fh) := open 0 the_cfg text_open ino_a 2 cold_state in
  let broken := mk_fd_io None None (Some (Errors.io_new Errors.UnexpectedEof)) in
  snd (read 0 the_cfg (mk_read_env text_fetch 5 broken (fun _ => WriteDone)) ino_a fh 6 5 s1)
  = Err (Errors.io_new Errors.UnexpectedEof).
Proof. by vm_compute. Qed.

(** A whole-file copy shorter than the file warms the first level with a block
    that is too short.  The read that did so gets its bytes from the backend,
    but the next read in that block is answered by the short block: with no
    bytes, which is the end of the file. *)
Example partial_copy_ends_file :
  let s := set_disk {[ buffer_name 0 "a" := mk_file (as_bytes "hell") 4 true ]} ∅ cold_state in
  let '(s1, r1) := read 0 the_cfg text_env ino_a 7 5 1 s in
  let '(s2, r2) := read 0 the_cfg text_env ino_a 7 6 1 s1 in
  r1 = Ok (as_bytes " ") /\ r2 = Ok [] /\ snd (read 0 the_cfg text_env ino_a 7 6 1 cold_state) = Ok (as_bytes "w").
Proof. by vm_compute. Qed.
End Witnesses.

End Read.
