(* ===== verification/CoreFs.v ===== *)
(** * CoreFs: the [CoreFilesystem] trait of src/src/core_fs/mod.rs

    The interface between the file system and the two kernel adapters: its data
    types, the methods an implementation must give ([CoreRequired]), the ones
    with a default body ([CoreFilesystem], [with_defaults]), and what an
    adapter may rely on for the content of files ([CoreLaws]). *)

From Stdlib Require Import ZArith Lia Strings.Byte Strings.String Strings.Ascii.
From stdpp Require Import pretty.
From S2P Require Import Prelude Util DiskPool Errors.

Module CoreFs.
Import Errors.

(** ** Data *)
Inductive CoreFileType := Directory | RegularFile | Symlink | NamedPipe | CharDevice | BlockDevice | Socket.
#[export] Instance CoreFileType_eq_dec : EqDecision CoreFileType.
Proof. solve_decision. Defined.

(** A [SystemTime] is its distance from the Unix epoch in nanoseconds. *)
Record CoreFileAttr := mk_attr {
  ino : Z; size : Z; blocks : Z; atime : Z; mtime : Z; ctime : Z; crtime : Z;
  kind : CoreFileType; perm : Z; nlink : Z; uid : Z; gid : Z; rdev : Z; blksize : Z; flags : Z
}.
Record CoreDirEntry := mk_dirent { d_ino : Z; d_kind : CoreFileType; d_name : string }.
Record CoreVolumeStat := mk_volume {
  total_blocks : Z; free_blocks : Z; avail_blocks : Z; total_inodes : Z; free_inodes : Z;
  block_size : Z; max_name_len : Z
}.

(** ** Methods: they change the state and may fail *)
Definition act (S E A : Type) : Type := S -> S * result A E.
#[export] Instance act_ret {S E} : MRet (act S E) := fun A a s => (s, Ok a).
#[export] Instance act_bind {S E} : MBind (act S E) := fun A B f m s =>
  match m s with (s, Ok a) => f a s | (s, Err e) => (s, Err e) end.
Definition throw {S E A} (e : E) : act S E A := fun s => (s, Err e).
(** [match self.method(..)]: the outcome as a value. *)
Definition attempt {S E A} (m : act S E A) : act S E (result A E) := fun s =>
  let '(s, r) := m s in (s, Ok r).
Abbreviation io S A := (act S io_Error A).
Definition unsupported {S A} : io S A := throw (io_new Unsupported).

Class CoreRequired (S : Type) := {
  init : io S unit;
  lookup : Z -> string -> io S CoreFileAttr;
  getattr : Z -> io S CoreFileAttr;
  setattr : Z -> option Z -> option Z -> option Z -> option Z -> option Z -> option Z -> option Z -> io S CoreFileAttr;
  readdir : Z -> Z -> Z -> Z -> io S (list CoreDirEntry);
  open : Z -> Z -> io S Z;
  read : Z -> Z -> Z -> Z -> io S bytes;
  write : Z -> Z -> Z -> bytes -> io S Z;
  flush : Z -> Z -> io S unit;
  release : Z -> Z -> io S unit;
  create : Z -> string -> Z -> io S (CoreFileAttr * Z);
  mkdir : Z -> string -> io S CoreFileAttr;
  unlink : Z -> string -> io S unit;
  rmdir : Z -> string -> io S unit;
  rename : Z -> string -> Z -> string -> io S unit;
  statfs : Z -> io S CoreVolumeStat;
  getxattr : Z -> string -> io S bytes;
  listxattr : Z -> io S (list bytes);
  access : Z -> Z -> io S unit
}.

Class CoreFilesystem (S : Type) := {
  core_required :: CoreRequired S;
  lookup_many : Z -> list string -> io S (list (result CoreFileAttr io_Error));
  forget : Z -> Z -> S -> S;
  opendir : Z -> io S Z;
  releasedir : Z -> Z -> io S unit;
  dir_cache_invalidate_if_stale : string -> string -> S -> S * bool;
  readdir_with_attrs : Z -> Z -> string -> io S (list (CoreDirEntry * CoreFileAttr));
  fsync : Z -> Z -> bool -> io S unit;
  fsyncdir : Z -> Z -> bool -> io S unit;
  create_excl : Z -> string -> Z -> io S (CoreFileAttr * Z);
  rename_paths : string -> string -> io S unit;
  readlink : Z -> io S bytes;
  symlink : Z -> string -> string -> io S CoreFileAttr;
  attach_symlink_to_ino : Z -> string -> io S CoreFileAttr;
  setxattr : Z -> string -> bytes -> Z -> io S unit;
  removexattr : Z -> string -> io S unit;
  link : Z -> Z -> string -> io S CoreFileAttr;
  fallocate : Z -> Z -> Z -> Z -> Z -> io S unit;
  copy_file_range : Z -> Z -> Z -> Z -> Z -> Z -> Z -> io S Z
}.

(** ** The default bodies *)
Section Defaults.
Context {S : Type} `{R : !CoreRequired S}.

Fixpoint default_lookup_many (parent : Z) (names : list string) : io S (list (result CoreFileAttr io_Error)) :=
  match names with
  | [] => mret []
  | n :: names => r ← attempt (lookup parent n); rs ← default_lookup_many parent names; mret (r :: rs)
  end.

(** The loop over the entries: names above the marker whose attributes are
    known. *)
Fixpoint with_attrs (marker : string) (es : list CoreDirEntry) : io S (list (CoreDirEntry * CoreFileAttr)) :=
  match es with
  | [] => mret []
  | e :: es =>
      if negb (String.eqb marker EmptyString) && String.leb (d_name e) marker then with_attrs marker es
      else
        r ← attempt (getattr (d_ino e));
        out ← with_attrs marker es;
        mret (match r with Ok a => (e, a) :: out | Err _ => out end)
  end.
Definition default_readdir_with_attrs (i fh : Z) (marker : string) : io S (list (CoreDirEntry * CoreFileAttr)) :=
  es ← readdir i fh 0 0; with_attrs marker es.

(** One [lookup] per component; [None] when one fails. *)
Fixpoint walk (cur : Z) (components : list string) : io S (option Z) :=
  match components with
  | [] => mret (Some cur)
  | c :: cs =>
      if String.eqb c EmptyString then walk cur cs
      else
        r ← attempt (lookup cur c);
        match r with Ok a => walk (ino a) cs | Err _ => mret None end
  end.
(** [str::trim_matches('/')]. *)
Fixpoint trim_start (s : string) : string :=
  match s with
  | String a rest => if Ascii.eqb a Str.SLASH then trim_start rest else s
  | EmptyString => s
  end.
Definition trim_slashes (s : string) : string := Str.trim_end Str.SLASH (trim_start s).
(** [str::rsplit_once('/')]. *)
Definition rsplit_once (p : string) : option (string * string) :=
  match Str.rfind Str.SLASH p with
  | Some i => Some (Str.truncate i p, String.substring (Datatypes.S i) (String.length p) p)
  | None => None
  end.
(** A path whose parent cannot be walked is taken to be in the root. *)
Definition split_last (p : string) : io S (Z * string) :=
  match rsplit_once p with
  | Some (parent, name) =>
      if String.eqb name EmptyString then mret (1, p)
      else
        o ← walk 1 (Str.split Str.SLASH (trim_slashes parent));
        mret (default 1 o, name)
  | None => mret (1, p)
  end.
Definition default_rename_paths (src_path dst_path : string) : io S unit :=
  sp ← split_last src_path;
  dp ← split_last dst_path;
  rename (fst sp) (snd sp) (fst dp) (snd dp).

(** The mode is ignored. *)
Definition default_fallocate (i fh offset length mode : Z) : io S unit :=
  _ ← setattr i None None None (Some (wrap64 (offset + length))) None None None; mret tt.

Definition default_copy_file_range (ino_in fh_in offset_in ino_out fh_out offset_out len : Z) : io S Z :=
  data ← read ino_in fh_in offset_in (Z.min len (2 ^ 32 - 1));
  write ino_out fh_out offset_out data.

(** An implementation that overrides nothing. *)
Definition with_defaults : CoreFilesystem S := {|
  lookup_many := default_lookup_many;
  forget := fun _ _ s => s;
  opendir := fun _ => mret 0;
  releasedir := fun _ _ => mret tt;
  dir_cache_invalidate_if_stale := fun _ _ s => (s, false);
  readdir_with_attrs := default_readdir_with_attrs;
  fsync := fun _ _ _ => unsupported;
  fsyncdir := fun _ _ _ => mret tt;
  create_excl := create;
  rename_paths := default_rename_paths;
  readlink := fun _ => unsupported;
  symlink := fun _ _ _ => unsupported;
  attach_symlink_to_ino := fun _ _ => unsupported;
  setxattr := fun _ _ _ _ => unsupported;
  removexattr := fun _ _ => unsupported;
  link := fun _ _ _ => unsupported;
  fallocate := default_fallocate;
  copy_file_range := default_copy_file_range
|}.
End Defaults.

(** ** What the adapters rely on

    [file s i]: the content of the file with inode [i].  A read answers with a
    prefix of the range, empty only at the end; a write replaces the range; a
    [setattr] with a size cuts or extends. *)
Class CoreLaws (S : Type) `{R : !CoreRequired S} (file : S -> Z -> option bytes) : Prop := {
  law_read i fh off n s s' b : 0 <= off -> 0 <= n -> read i fh off n s = (s', Ok b) ->
    (forall j, file s' j = file s j) /\
    forall F, file s i = Some F -> exists k, b = takeZ k (dropZ off F) /\
      0 <= k <= n /\ k <= Z.max 0 (lenZ F - off) /\ (0 < n -> off < lenZ F -> 0 < k);
  law_write i fh off d s s' n F : 0 <= off -> file s i = Some F -> write i fh off d s = (s', Ok n) ->
    n = lenZ d /\ file s' i = Some (FileIO.pwrite off d F) /\ forall j, j <> i -> file s' j = file s j;
  law_setattr_size i m u g n at' mt fh s s' a F : 0 <= n -> file s i = Some F ->
    setattr i m u g (Some n) at' mt fh s = (s', Ok a) ->
    size a = n /\ file s' i = Some (FileIO.set_len n F) /\ forall j, j <> i -> file s' j = file s j
}.

(** ** Properties *)
Lemma bind_Ok {S E A B} (m : act S E A) (f : A -> act S E B) s s' b :
  (m ≫= f) s = (s', Ok b) -> exists s1 a, m s = (s1, Ok a) /\ f a s1 = (s', Ok b).
Proof. unfold mbind, act_bind. destruct (m s) as [s1 [a|e]]; [eauto|done]. Qed.

Section Defaults_ok.
Context {S : Type} `{R : !CoreRequired S}.

(** The batch answers every name, in order, with what the single look-up
    gives. *)
Lemma default_lookup_many_spec parent names s :
  exists rs, snd (default_lookup_many parent names s) = Ok rs /\ length rs = length names.
Proof.
  revert s. induction names as [|n names IH]; intros s; [by exists []|].
  cbn [default_lookup_many]. unfold mbind, act_bind, attempt. destruct (lookup parent n s) as [s1 r].
  destruct (IH s1) as (rs & E & Hl). destruct (default_lookup_many parent names s1) as [s2 r2]. cbn in E |- *.
  subst r2. exists (r :: rs). cbn. auto.
Qed.

(** The page of entries after a marker holds entries of the directory above the
    marker, in order, each with the attributes of its inode. *)
Lemma with_attrs_sublist marker es s out s' : with_attrs marker es s = (s', Ok out) ->
  map fst out `sublist_of` es /\
  Forall (fun x => marker = EmptyString \/ String.leb (d_name (fst x)) marker = false) out.
Proof.
  revert s out s'. induction es as [|e es IH]; intros s out s'; cbn [with_attrs].
  - intros [= <- <-]. by repeat constructor.
  - case_test.
    + intros H. apply IH in H as [H1 H2]. split; [by constructor|done].
    + intros H. apply bind_Ok in H as (s1 & r & _ & H). apply bind_Ok in H as (s2 & out' & Ho & H).
      injection H as <- <-. apply IH in Ho as [H1 H2]. destruct r as [a|]; [|split; [by constructor|done]].
      split; [by constructor|]. constructor; [|done]. cbn. apply andb_false_iff in Hc as [Hc|Hc]; [|by right].
      left. apply negb_false_iff in Hc. by apply String.eqb_eq in Hc.
Qed.
End Defaults_ok.

Section Content.
Context {S : Type} `{R : !CoreRequired S} (file : S -> Z -> option bytes) `{L : !CoreLaws S file}.

(** The default [copy_file_range] puts a prefix of the source range, not empty
    before the end of the source, at the destination offset, changes nothing
    else and answers with its length. *)
Theorem copy_file_range_spec i fhi oi j fho oo len s s' n Fi Fj :
  0 <= oi -> 0 <= oo -> 0 <= len -> file s i = Some Fi -> file s j = Some Fj ->
  default_copy_file_range i fhi oi j fho oo len s = (s', Ok n) ->
  exists k, n = k /\ 0 <= k <= len /\ (0 < len -> oi < lenZ Fi -> 0 < k) /\
    file s' j = Some (FileIO.pwrite oo (takeZ k (dropZ oi Fi)) Fj) /\
    forall x, x <> j -> file s' x = file s x.
Proof.
  intros Ho Hoo Hl Hi Hj H. unfold default_copy_file_range in H.
  apply bind_Ok in H as (s1 & b & Hr & Hw).
  apply law_read in Hr as [Hf Hr]; [|done|lia]. destruct (Hr Fi Hi) as (k & -> & Hk & Hkl & Hk0).
  rewrite <-(Hf j) in Hj. destruct (law_write _ _ _ _ _ _ _ _ Hoo Hj Hw) as (En & Hfj & Hfo).
  rewrite lenZ_takeZ, lenZ_dropZ in En by lia. exists k. split; [lia|]. split; [lia|]. split; [lia|].
  split; [done|]. intros x Hx. by rewrite Hfo, Hf.
Qed.

(** The default [fallocate] sets the length to the end of the range, whatever
    the mode: a file longer than that is cut. *)
Theorem fallocate_cuts i fh offset length mode s s' F :
  0 <= offset -> 0 <= length -> offset + length <= U64_MAX -> file s i = Some F ->
  default_fallocate i fh offset length mode s = (s', Ok tt) ->
  file s' i = Some (FileIO.set_len (offset + length) F) /\
  (offset + length < lenZ F -> exists F', file s' i = Some F' /\ lenZ F' < lenZ F).
Proof.
  intros Ho Hl Hm Hi H. unfold default_fallocate in H. apply bind_Ok in H as (s1 & a & Hs & H).
  injection H as <-. rewrite wrap64_small in Hs by (unfold is_u64; lia).
  destruct (law_setattr_size i None None None (offset + length) None None None s s1 a F) as (_ & E & _); [lia|done|done|].
  split; [done|]. intros Hlt. exists (FileIO.set_len (offset + length) F). split; [done|].
  rewrite FileIO.lenZ_set_len by lia. lia.
Qed.
End Content.

(** ** An implementation: one content per inode *)
Module Memory.
Definition mem : Type := gmap Z bytes.
Definition contents (m : mem) (i : Z) : option bytes := m !! i.
Definition attr_of (i : Z) (d : bytes) : CoreFileAttr := mk_attr i (lenZ d) 0 0 0 0 0 RegularFile 420 1 0 0 0 4096 0.
Definition missing : io_Error := io_new NotFound.
#[export] Instance mem_required : CoreRequired mem := {|
  init := mret tt;
  lookup := fun _ _ => throw missing;
  getattr := fun i m => (m, match m !! i with Some d => Ok (attr_of i d) | None => Err missing end);
  setattr := fun i _ _ _ n _ _ _ m =>
    match m !! i with
    | Some d => let d := match n with Some n => FileIO.set_len n d | None => d end in (<[i := d]> m, Ok (attr_of i d))
    | None => (m, Err missing)
    end;
  readdir := fun _ _ _ _ m => (m, Ok ((fun kv => mk_dirent (fst kv) RegularFile (pretty (fst kv))) <$> map_to_list m));
  open := fun i _ => mret i;
  read := fun i _ off n m => (m, match m !! i with Some d => Ok (takeZ n (dropZ off d)) | None => Err missing end);
  write := fun i _ off x m =>
    match m !! i with Some d => (<[i := FileIO.pwrite off x d]> m, Ok (lenZ x)) | None => (m, Err missing) end;
  flush := fun _ _ => mret tt;
  release := fun _ _ => mret tt;
  create := fun _ _ _ => unsupported;
  mkdir := fun _ _ => unsupported;
  unlink := fun _ _ => unsupported;
  rmdir := fun _ _ => unsupported;
  rename := fun _ _ _ _ => unsupported;
  statfs := fun _ => unsupported;
  getxattr := fun _ _ => unsupported;
  listxattr := fun _ => mret [];
  access := fun _ _ => mret tt
|}.
#[export] Instance mem_laws : CoreLaws mem contents.
Proof.
  split.
  - intros i fh off n s s' b Ho Hn H. cbn in H. unfold contents. destruct (s !! i) as [d|]; simplify_eq. split; [done|].
    intros F [= <-]. pose proof (lenZ_nonneg d). exists (Z.min n (Z.max 0 (lenZ d - off))). split; [|lia].
    destruct (Z.le_gt_cases n (Z.max 0 (lenZ d - off))); [by rewrite Z.min_l by lia|].
    rewrite Z.min_r by lia. unfold takeZ. rewrite !take_ge; [done| |];
      pose proof (lenZ_dropZ off d Ho); unfold lenZ in *; lia.
  - intros i fh off d s s' n F Ho HF H. cbn in H. unfold contents in *. rewrite HF in H. simplify_eq.
    split; [done|]. split; [apply lookup_insert_eq|]. intros j Hj. by apply lookup_insert_ne.
  - intros i m u g n at' mt fh s s' a F Hn HF H. cbn in H. unfold contents in *. rewrite HF in H. simplify_eq.
    split; [by apply FileIO.lenZ_set_len|]. split; [apply lookup_insert_eq|]. intros j Hj. by apply lookup_insert_ne.
Qed.

Definition two_files : mem := {[ 2 := as_bytes "hello"; 3 := as_bytes "world" ]}.
Lemma copy_file_range_spec_witness :
  exists s', default_copy_file_range 2 0 1 3 0 4 3 two_files = (s', Ok 3) /\ contents s' 3 = Some (as_bytes "worlell").
Proof.
  destruct (default_copy_file_range 2 0 1 3 0 4 3 two_files) as [s' [n|e]] eqn:E; [|by vm_compute in E].
  destruct (copy_file_range_spec contents 2 0 1 3 0 4 3 two_files s' n (as_bytes "hello") (as_bytes "world"))
    as (k & Hn & _ & _ & Hf & _); [lia|lia|lia|by vm_compute|by vm_compute|done|].
  exists s'. vm_compute in E. injection E as <- <-. subst k. split; [done|]. etrans; [exact Hf|by vm_compute].
Defined.
Lemma fallocate_cuts_witness :
  exists s' F, default_fallocate 2 0 0 2 1 two_files = (s', Ok tt) /\ contents s' 2 = Some F /\ lenZ F < 5.
Proof.
  destruct (default_fallocate 2 0 0 2 1 two_files) as [s' [[]|e]] eqn:E; [|by vm_compute in E].
  destruct (fallocate_cuts contents 2 0 0 2 1 two_files s' (as_bytes "hello")) as [_ H];
    [lia|lia|unfold U64_MAX; lia|by vm_compute|done|].
  destruct (H ltac:(by vm_compute)) as (F & HF & Hl). exists s', F. by split_and!.
Defined.
End Memory.

(** ** Drive letters of the mounts (module [test_helpers])
    [pool]: the free letters, as bytes, in [Vec] order. *)
Module Drives.
Definition letters : list Z := map (fun k => 90 - Z.of_nat k) (seq 0 11).
Definition ensure_pool_initialised (g : list Z) : list Z := match g with [] => letters | _ => g end.
Definition vec_pop (g : list Z) : list Z * option Z :=
  match rev g with [] => (g, None) | b :: g => (rev g, Some b) end.
Definition allocate_drive_letter (g : list Z) : list Z * option Z := vec_pop (ensure_pool_initialised g).
Definition return_drive_letter (c : Z) (g : list Z) : list Z := if bool_decide (c ∈ g) then g else g ++ [c].

(** A guard holds its letter from the mount to the drop. *)
Inductive event := Mount | Drop (k : nat).
Definition drive_step (s : list Z * list Z) (e : event) : list Z * list Z :=
  let '(free, lent) := s in
  match e with
  | Mount => let '(free, c) := allocate_drive_letter free in (free, lent ++ option_list c)
  | Drop k => match lent !! k with
              | Some c => (return_drive_letter c free, take k lent ++ drop (S k) lent)
              | None => (free, lent)
              end
  end.
Fixpoint run (s : list Z * list Z) (es : list event) : list (list Z * list Z) :=
  s :: match es with [] => [] | e :: es => run (drive_step s e) es end.

(** Every letter is free or lent, and only once. *)
Definition partitioned (s : list Z * list Z) : Prop := fst s ++ snd s ≡ₚ letters.

Lemma vec_pop_snoc g b : vec_pop (g ++ [b]) = (g, Some b).
Proof. unfold vec_pop. rewrite rev_app_distr. cbn. by rewrite rev_involutive. Qed.
Lemma partitioned_nodup s : partitioned s -> NoDup (fst s ++ snd s).
Proof. intros H. unfold partitioned in H. rewrite H. apply (bool_decide_unpack _). by vm_compute. Qed.
Lemma step_partitioned s e : partitioned s -> (e = Mount -> fst s <> []) -> partitioned (drive_step s e).
Proof.
  destruct s as [free lent]. intros H Hm. destruct e as [|k]; cbn [drive_step].
  - specialize (Hm eq_refl). destruct free as [|b free _] using rev_ind; [done|]. unfold allocate_drive_letter.
    replace (ensure_pool_initialised (free ++ [b])) with (free ++ [b]) by (by destruct free). rewrite vec_pop_snoc.
    unfold partitioned in *. cbn in *. rewrite <-H, (Permutation_app_comm lent), app_assoc. done.
  - destruct (lent !! k) as [c|] eqn:E; [|done]. pose proof (partitioned_nodup _ H) as Hn. cbn in Hn.
    apply NoDup_app in Hn as (_ & Hd & _). unfold return_drive_letter.
    case_bool_decide as Hc; [by apply list_elem_of_lookup_2 in E; destruct (Hd c)|].
    unfold partitioned in *. cbn in *. rewrite <-H. rewrite <-(take_drop_middle lent k c E) at 3.
    rewrite <-app_assoc. f_equiv. by rewrite <-Permutation_middle.
Qed.

(** As long as no guard is asked for while all eleven letters are lent, the
    letters held by live guards are distinct, and each is either lent or free. *)
Theorem letters_distinct es : forall s, partitioned s ->
  (forall s' n, run s es !! n = Some s' -> es !! n = Some Mount -> (length (snd s') < 11)%nat) ->
  Forall (fun s' => partitioned s' /\ NoDup (snd s')) (run s es).
Proof.
  assert (forall s, partitioned s -> NoDup (snd s)) as Hn.
  { intros s H. apply partitioned_nodup in H. by apply NoDup_app in H as (_ & _ & ?). }
  induction es as [|e es IH]; intros s H Hm; cbn [run]; constructor; eauto.
  apply IH; [|intros s' n Hr He; by apply (Hm s' (Datatypes.S n))].
  apply step_partitioned; [done|]. intros -> Hf. specialize (Hm s 0%nat eq_refl eq_refl).
  apply Permutation_length in H. rewrite length_app, Hf in H. cbn in H. lia.
Qed.

Definition start : list Z * list Z := drive_step ([], []) Mount.
Lemma letters_distinct_witness : Forall (fun s' => partitioned s' /\ NoDup (snd s')) (run start [Mount; Drop 0; Mount]).
Proof.
  apply letters_distinct; [unfold partitioned; by vm_compute|].
  intros s' n Hr _. do 4 (destruct n as [|n]; [injection Hr as <-; vm_compute; lia|]). done.
Defined.

(** With eleven guards alive the free list is empty, which reads as not yet
    filled: the twelfth guard gets a letter in use instead of an error. *)
Example twelfth_letter_shared :
  forall s, s = foldl drive_step ([], []) (replicate 12 Mount) -> length (snd s) = 12%nat /\ exists c, snd s !! 0%nat = Some c /\ snd s !! 11%nat = Some c.
Proof. intros s ->. vm_compute. eauto. Qed.
(** The first letter lent is P, the last one pushed, not Z. *)
Example first_letter : snd (allocate_drive_letter []) = Some 80.
Proof. done. Qed.
End Drives.

End CoreFs.
