(* ===== verification/WinFsp.v ===== *)
(** * WinFsp: the Windows adapter of src/src/core_fs/winfsp.rs

    [Convert] has the conversions: attributes, times, volume figures, the
    security descriptor, directory patterns, reparse buffers.  [Adapter] has
    the callbacks, over any [CoreFilesystem], with the adapter's own state: two
    caches, the queue of notifications and the set of renamed inodes.
    [DirTree] is a file system seen as a tree of entries, on which a deletion is
    specified.

    Logging is left out.  A panic in a callback is the status its wrapper
    [catch_panic] turns it into. *)

From Stdlib Require Import ZArith Lia Strings.Byte Strings.String Strings.Ascii.
From S2P Require Import Prelude Util BlockFormat DiskPool Errors CoreFs.

Module Convert.
Import CoreFs.

(** ** Attributes *)
Definition FILE_ATTRIBUTE_READONLY : Z := 0x1.
Definition FILE_ATTRIBUTE_HIDDEN : Z := 0x2.
Definition FILE_ATTRIBUTE_SYSTEM : Z := 0x4.
Definition FILE_ATTRIBUTE_DIRECTORY : Z := 0x10.
Definition FILE_ATTRIBUTE_ARCHIVE : Z := 0x20.
Definition FILE_ATTRIBUTE_NORMAL : Z := 0x80.
Definition FILE_ATTRIBUTE_TEMPORARY : Z := 0x100.
Definition FILE_ATTRIBUTE_REPARSE_POINT : Z := 0x400.
Definition FILE_ATTRIBUTE_OFFLINE : Z := 0x1000.
Definition FILE_ATTRIBUTE_NOT_CONTENT_INDEXED : Z := 0x2000.
Definition USER_FILE_ATTR_PASSTHROUGH : Z :=
  Z.lor FILE_ATTRIBUTE_READONLY (Z.lor FILE_ATTRIBUTE_HIDDEN (Z.lor FILE_ATTRIBUTE_SYSTEM
    (Z.lor FILE_ATTRIBUTE_TEMPORARY (Z.lor FILE_ATTRIBUTE_OFFLINE FILE_ATTRIBUTE_NOT_CONTENT_INDEXED)))).
Definition IO_REPARSE_TAG_SYMLINK : Z := 0xA000000C.

Definition core_kind_to_file_attributes (k : CoreFileType) (perm : Z) : Z :=
  let attrs := match k with
               | Directory => FILE_ATTRIBUTE_DIRECTORY
               | Symlink => FILE_ATTRIBUTE_REPARSE_POINT
               | _ => FILE_ATTRIBUTE_NORMAL
               end in
  let attrs := if Z.land perm 128 =? 0 then Z.lor attrs FILE_ATTRIBUTE_READONLY else attrs in
  Z.lor attrs FILE_ATTRIBUTE_ARCHIVE.

Record FileInfo := mk_info {
  file_attributes : Z; reparse_tag : Z; allocation_size : Z; file_size : Z;
  creation_time : Z; last_access_time : Z; last_write_time : Z; change_time : Z;
  index_number : Z; hard_links : Z; ea_size : Z
}.
(** [u64::next_power_of_two]; 0 when it overflows. *)
Definition next_power_of_two (x : Z) : Z := if x <=? 1 then 1 else wrap64 (2 ^ (Z.log2 (x - 1) + 1)).

(** ** Times: 100 ns units since 1601 *)
Definition EPOCH_SECS : Z := 11644473600.
Definition system_time_to_win32 (t : Z) : Z :=
  let d := Z.max t 0 in
  wrap64 (wrap64 ((d / 10 ^ 9 + EPOCH_SECS) * 10 ^ 7) + d mod 10 ^ 9 / 100).
Definition FT_UNIX_OFFSET : Z := 0x019DB1DED53E8000.
Definition filetime_u64_to_system_time (ft : Z) : option Z :=
  if ft =? 0 then None
  else if ft <? FT_UNIX_OFFSET then None
  else Some (saturating_mul (ft - FT_UNIX_OFFSET) 100).

(** The extended attribute size is left as it was. *)
Definition core_attr_to_file_info (a : CoreFileAttr) (info : FileInfo) : FileInfo :=
  mk_info (core_kind_to_file_attributes (kind a) (perm a))
    (match kind a with Symlink => IO_REPARSE_TAG_SYMLINK | _ => 0 end)
    (next_power_of_two (size a)) (size a)
    (system_time_to_win32 (crtime a)) (system_time_to_win32 (atime a))
    (system_time_to_win32 (mtime a)) (system_time_to_win32 (ctime a))
    (ino a) (nlink a) (ea_size info).
Definition add_attributes (bits : Z) (i : FileInfo) : FileInfo :=
  mk_info (Z.lor (file_attributes i) bits) (reparse_tag i) (allocation_size i) (file_size i)
    (creation_time i) (last_access_time i) (last_write_time i) (change_time i)
    (index_number i) (hard_links i) (ea_size i).

Definition core_volume_to_volume_info (v : CoreVolumeStat) : Z * Z :=
  (wrap64 (total_blocks v * block_size v), wrap64 (free_blocks v * block_size v)).

(** ** Access *)
Definition winfsp_access_to_open_flags (granted_access : Z) : Z :=
  let FILE_WRITE_DATA := 0x2 in
  let FILE_APPEND_DATA := 0x4 in
  let GENERIC_WRITE := 0x40000000 in
  let GENERIC_ALL := 0x10000000 in
  let MAXIMUM_ALLOWED := 0x02000000 in
  if Z.land granted_access (Z.lor FILE_WRITE_DATA (Z.lor FILE_APPEND_DATA
       (Z.lor GENERIC_WRITE (Z.lor GENERIC_ALL MAXIMUM_ALLOWED)))) =? 0 then 0 else 2.

(** ** The security descriptor *)
Definition FILE_ACCESS_MASK_FULL : Z := 0x001F01FF.
Definition DIR_ACCESS_MASK_FULL : Z := Z.lor FILE_ACCESS_MASK_FULL 0x21.
(** S-1-1-0, Everyone. *)
Definition everyone_sid : bytes :=
  [byte_of_Z 1; byte_of_Z 1] ++ map byte_of_Z [0; 0; 0; 0; 0; 1] ++ to_le 4 0.
Definition synthesize_self_relative_sd (is_dir : bool) : bytes :=
  let mask := if is_dir then DIR_ACCESS_MASK_FULL else FILE_ACCESS_MASK_FULL in
  (* the header *)
  [byte_of_Z 1; byte_of_Z 0] ++ to_le 2 (Z.lor 0x8000 0x4) ++
  to_le 4 48 ++ to_le 4 60 ++ to_le 4 0 ++ to_le 4 20 ++
  (* the DACL *)
  [byte_of_Z 2; byte_of_Z 0] ++ to_le 2 28 ++ to_le 2 1 ++ to_le 2 0 ++
  (* its one entry *)
  [byte_of_Z 0; byte_of_Z 0] ++ to_le 2 20 ++ to_le 4 mask ++ everyone_sid ++
  (* owner, group *)
  everyone_sid ++ everyone_sid.

(** ** Patterns *)
Definition STAR : Byte.byte := Byte.x2a.
Definition QUESTION : Byte.byte := Byte.x3f.
Fixpoint wildcard_match_inner (pat : bytes) : bytes -> bool :=
  match pat with
  | [] => fun name => match name with [] => true | _ => false end
  | c :: pat =>
      if bool_decide (c = STAR) then
        fix star (name : bytes) : bool :=
          wildcard_match_inner pat name || match name with [] => false | _ :: name => star name end
      else fun name =>
        match name with
        | [] => false
        | b :: name => (bool_decide (c = QUESTION) || bool_decide (c = b)) && wildcard_match_inner pat name
        end
  end.
Definition match_wildcard (to_lowercase : string -> string) (pattern name : string) (case_insensitive : bool) : bool :=
  let '(p, n) := if case_insensitive then (to_lowercase pattern, to_lowercase name) else (pattern, name) in
  wildcard_match_inner (as_bytes p) (as_bytes n).

(** ** Reparse buffers *)
Definition u16 (x : Z) : Z := x mod 2 ^ 16.
Definition utf16_units (l : list Z) : bytes := l ≫= to_le 2.
(** [get_reparse_point]'s buffer: [None] when a slice is out of range; the
    length alone when the buffer is too short. *)
Definition encode_reparse (target : bytes) (buffer : bytes) : option (bytes * Z) :=
  let target_wide := map Z_of_byte target in
  let path_byte_len := u16 (lenZ target_wide * 2) in
  let total_data := u16 (12 + u16 (path_byte_len * 2)) in
  let total_size := u16 (8 + total_data) in
  if lenZ buffer <? total_size then Some (buffer, total_size)
  else if total_size <? 20 + 4 * lenZ target_wide then None
  else
    Some (to_le 4 IO_REPARSE_TAG_SYMLINK ++ to_le 2 total_data ++ to_le 2 0 ++ to_le 2 0 ++
          to_le 2 path_byte_len ++ to_le 2 path_byte_len ++ to_le 2 path_byte_len ++ to_le 4 0 ++
          utf16_units target_wide ++ utf16_units target_wide ++
          dropZ (20 + 4 * lenZ target_wide) buffer, total_size).
Fixpoint chunks2 (b : bytes) : list Z :=
  match b with x :: y :: b => from_le [x; y] :: chunks2 b | _ => [] end.
(** [set_reparse_point]'s: the target as UTF-16 units, and whether both names
    are empty. *)
Definition sub (a b : Z) (l : bytes) : bytes := takeZ (b - a) (dropZ a l).
Definition decode_reparse (buffer : bytes) : result (list Z * bool) Z :=
  if lenZ buffer <? 8 then Err Errors.STATUS_INVALID_PARAMETER
  else if negb (from_le (sub 0 4 buffer) =? IO_REPARSE_TAG_SYMLINK) then Err Errors.STATUS_NOT_IMPLEMENTED
  else if lenZ buffer <? 20 then Err Errors.STATUS_INVALID_PARAMETER
  else
    let sub_off := from_le (sub 8 10 buffer) in
    let sub_len := from_le (sub 10 12 buffer) in
    let prt_off := from_le (sub 12 14 buffer) in
    let prt_len := from_le (sub 14 16 buffer) in
    let sub_end := 20 + sub_off + sub_len in
    let prt_end := 20 + prt_off + prt_len in
    if (lenZ buffer <? sub_end) || (lenZ buffer <? prt_end) then Err Errors.STATUS_INVALID_PARAMETER
    else Ok (chunks2 (sub (20 + sub_off) sub_end buffer), (sub_len =? 0) && (prt_len =? 0)).

(** ** Properties *)

(** Times survive the conversion: a file time of the years 1970 to 2554
    goes to a system time and back unchanged, and a system time comes back cut
    to 100 ns. *)
Theorem filetime_roundtrip :
  (forall ft, FT_UNIX_OFFSET <= ft <= FT_UNIX_OFFSET + U64_MAX / 100 ->
     exists t, filetime_u64_to_system_time ft = Some t /\ system_time_to_win32 t = ft) /\
  (forall t, 0 <= t <= U64_MAX -> filetime_u64_to_system_time (system_time_to_win32 t) = Some (t - t mod 100)).
Proof.
  assert (FT_UNIX_OFFSET = 116444736000000000) as Ho by done.
  assert (forall t, 0 <= t <= U64_MAX -> system_time_to_win32 t = t / 100 + FT_UNIX_OFFSET) as Hw.
  { intros t Ht. unfold system_time_to_win32, EPOCH_SECS. rewrite Ho. unfold U64_MAX in Ht. rewrite Z.max_l by lia.
    change (10 ^ 9) with 1000000000. change (10 ^ 7) with 10000000.
    rewrite (wrap64_small ((t / 1000000000 + 11644473600) * 10000000)) by (unfold is_u64, U64_MAX; lia).
    rewrite wrap64_small by (unfold is_u64, U64_MAX; lia). lia. }
  split.
  - intros ft H. unfold filetime_u64_to_system_time. unfold U64_MAX in *.
    destruct (Z.eqb_spec ft 0); [lia|]. destruct (Z.ltb_spec ft FT_UNIX_OFFSET); [lia|].
    eexists. split; [done|]. unfold saturating_mul, U64_MAX. rewrite Z.min_l by lia. rewrite Hw by (unfold U64_MAX; lia). lia.
  - intros t Ht. rewrite Hw by done. unfold filetime_u64_to_system_time, U64_MAX in *.
    destruct (Z.eqb_spec (t / 100 + FT_UNIX_OFFSET) 0); [lia|].
    destruct (Z.ltb_spec (t / 100 + FT_UNIX_OFFSET) FT_UNIX_OFFSET); [lia|].
    f_equal. unfold saturating_mul, U64_MAX. lia.
Qed.

(** Every later file time, those of the years up to 3000 included, becomes the
    same instant of the year 2554. *)
Theorem filetime_saturates ft : FT_UNIX_OFFSET + U64_MAX / 100 < ft ->
  filetime_u64_to_system_time ft = Some U64_MAX.
Proof.
  intros H. assert (FT_UNIX_OFFSET = 116444736000000000) as Ho by done. unfold filetime_u64_to_system_time, U64_MAX in *.
  destruct (Z.eqb_spec ft 0); [lia|]. destruct (Z.ltb_spec ft FT_UNIX_OFFSET); [lia|].
  f_equal. unfold saturating_mul, U64_MAX. lia.
Qed.

(** The reported allocation covers the file, up to 2^63 bytes. *)
Theorem allocation_covers x : 0 <= x <= 2 ^ 63 -> x <= next_power_of_two x <= 2 ^ 63.
Proof.
  intros Hx. unfold next_power_of_two. case_test; bool_props; [lia|].
  assert (0 <= Z.log2 (x - 1) < 63) as Hl.
  { split; [apply Z.log2_nonneg|]. apply Z.log2_lt_pow2; lia. }
  pose proof (Z.log2_spec (x - 1) ltac:(lia)) as [_ Hs]. replace (Z.succ (Z.log2 (x - 1))) with (Z.log2 (x - 1) + 1) in Hs by lia.
  assert (2 ^ (Z.log2 (x - 1) + 1) <= 2 ^ 63) by (apply Z.pow_le_mono_r; lia).
  rewrite wrap64_small by (unfold is_u64, U64_MAX; lia). lia.
Qed.

(** What a pattern means: [*] stands for any bytes, [?] for one byte. *)
Inductive matches : bytes -> bytes -> Prop :=
| matches_nil : matches [] []
| matches_star skipped pat name : matches pat name -> matches (STAR :: pat) (skipped ++ name)
| matches_question b pat name : matches pat name -> matches (QUESTION :: pat) (b :: name)
| matches_byte b pat name : b <> STAR -> matches pat name -> matches (b :: pat) (b :: name).

Lemma star_spec pat (f : bytes -> bool) name :
  (forall n, f n = true <-> matches pat n) ->
  (fix star (name : bytes) : bool := f name || match name with [] => false | _ :: name => star name end) name = true
  <-> exists skipped rest, name = skipped ++ rest /\ matches pat rest.
Proof.
  intros Hf. induction name as [|b name IH].
  - rewrite orb_false_r, Hf. split; [by exists [], []|]. intros (sk & rest & E & H).
    symmetry in E. apply app_nil in E as [-> ->]. done.
  - rewrite orb_true_iff, Hf, IH. split.
    + intros [H|(sk & rest & -> & H)]; [by exists [], (b :: name)|by exists (b :: sk), rest].
    + intros ([|x sk] & rest & E & H); simplify_eq/=; [by left|right; eauto].
Qed.

(** The directory pattern matcher accepts exactly the names the pattern
    describes, byte for byte. *)
Theorem wildcard_correct pat name : wildcard_match_inner pat name = true <-> matches pat name.
Proof.
  revert name. induction pat as [|c pat IH]; intros name.
  - destruct name; cbn; split; intros H; try done; [constructor|inversion H].
  - cbn [wildcard_match_inner]. case_test; bool_props.
    + subst c. rewrite (star_spec pat _ name IH). split.
      * intros (sk & rest & -> & H). by constructor.
      * intros H. inversion H as [|sk p n Hm|b p n Hm|b p n Hb Hm]; subst; [eauto|done].
    + destruct name as [|b name].
      * split; [done|]. intros H. inversion H; subst; done.
      * rewrite andb_true_iff, orb_true_iff, IH, !bool_decide_eq_true. split.
        -- intros [[->| ->] H]; by constructor.
        -- intros H. inversion H; subst; [done|auto|auto].
Qed.

(** ** The security descriptor, read back field by field *)
Definition sid_at (sd : bytes) (off : Z) : bytes := sub off (off + 8 + 4 * from_le (sub (off + 1) (off + 2) sd)) sd.
(** The one access-allowed entry of the list at [off]: its mask and its SID. *)
Definition ace_at (sd : bytes) (off : Z) : Z * bytes := (from_le (sub (off + 12) (off + 16) sd), sid_at sd (off + 16)).

(** The descriptor is self-relative: its offsets stay inside its 72
    bytes, owner and group are Everyone, and its access list, of the length it
    states, has one entry, which allows Everyone all access. *)
Theorem sd_well_formed is_dir :
  let sd := synthesize_self_relative_sd is_dir in
  let owner := from_le (sub 4 8 sd) in
  let group := from_le (sub 8 12 sd) in
  let dacl := from_le (sub 16 20 sd) in
  lenZ sd = 72 /\ from_le (sub 0 1 sd) = 1 /\ from_le (sub 2 4 sd) = 0x8004 /\
  sid_at sd owner = everyone_sid /\ sid_at sd group = everyone_sid /\
  dacl + from_le (sub (dacl + 2) (dacl + 4) sd) = owner /\
  from_le (sub (dacl + 4) (dacl + 6) sd) = 1 /\
  from_le (sub (dacl + 10) (dacl + 12) sd) = lenZ everyone_sid + 8 /\
  ace_at sd dacl = (FILE_ACCESS_MASK_FULL, everyone_sid).
Proof. destruct is_dir; vm_compute; auto 10. Qed.

(** Directories get no bit more than files: the mask for files already has the
    two that are added. *)
Theorem sd_same_for_directories : synthesize_self_relative_sd true = synthesize_self_relative_sd false.
Proof. by vm_compute. Qed.

(** ** Reparse buffers *)
Lemma from_le_le n z : 0 <= z < 256 ^ Z.of_nat n -> from_le (to_le n z) = z.
Proof. intros H. rewrite from_to_le. by apply Z.mod_small. Qed.

Lemma length_units l : lenZ (utf16_units l) = 2 * lenZ l.
Proof.
  unfold lenZ. induction l as [|x l IH]; [done|]. change (utf16_units (x :: l)) with (to_le 2 x ++ utf16_units l).
  rewrite length_app, length_to_le. cbn [length]. lia.
Qed.

Lemma sub_skip (l1 l2 : bytes) a b : lenZ l1 <= a -> sub a b (l1 ++ l2) = sub (a - lenZ l1) (b - lenZ l1) l2.
Proof.
  intros H. unfold sub. f_equal; [lia|]. unfold dropZ, lenZ in *. rewrite drop_app_ge by lia. f_equal. lia.
Qed.
Lemma sub_head (l1 l2 : bytes) n : n = lenZ l1 -> sub 0 n (l1 ++ l2) = l1.
Proof. intros ->. unfold sub. rewrite Z.sub_0_r. by apply takeZ_app_exact. Qed.

Lemma chunks2_units l : Forall (fun x => 0 <= x < 2 ^ 16) l -> chunks2 (utf16_units l) = l.
Proof.
  induction 1 as [|x l Hx _ IH]; [done|]. change (utf16_units (x :: l)) with (to_le 2 x ++ utf16_units l).
  cbn [to_le app chunks2]. f_equal; [|done]. by apply (from_le_le 2 x).
Qed.

(** The fields of a buffer with a given target. *)
Definition reparse_buffer (units : list Z) : bytes :=
  let n := 2 * lenZ units in
  to_le 4 IO_REPARSE_TAG_SYMLINK ++ to_le 2 (12 + 2 * n) ++ to_le 2 0 ++ to_le 2 0 ++
  to_le 2 n ++ to_le 2 n ++ to_le 2 n ++ to_le 4 0 ++ utf16_units units ++ utf16_units units.

Lemma lenZ_le n z : lenZ (to_le n z) = Z.of_nat n.
Proof. unfold lenZ. by rewrite length_to_le. Qed.

Ltac field := unfold reparse_buffer; cbn zeta; repeat (rewrite sub_skip by (rewrite lenZ_le; lia); rewrite lenZ_le);
  apply sub_head; rewrite lenZ_le; lia.

Lemma decode_buffer units : Forall (fun x => 0 <= x < 2 ^ 16) units -> 20 + 4 * lenZ units < 2 ^ 16 ->
  decode_reparse (reparse_buffer units) = Ok (units, lenZ units =? 0).
Proof.
  intros Hu Hl. pose proof (lenZ_nonneg units) as H0. set (n := 2 * lenZ units).
  assert (lenZ (reparse_buffer units) = 20 + 4 * lenZ units) as Hb.
  { unfold reparse_buffer. rewrite !lenZ_app, !lenZ_le, !length_units. lia. }
  unfold decode_reparse. rewrite Hb. destruct (Z.ltb_spec (20 + 4 * lenZ units) 8); [lia|].
  assert (sub 0 4 (reparse_buffer units) = to_le 4 IO_REPARSE_TAG_SYMLINK) as -> by field.
  assert ((from_le (to_le 4 IO_REPARSE_TAG_SYMLINK) =? IO_REPARSE_TAG_SYMLINK) = true) as -> by done. cbn [negb].
  destruct (Z.ltb_spec (20 + 4 * lenZ units) 20); [lia|].
  assert (sub 8 10 (reparse_buffer units) = to_le 2 0) as -> by field.
  assert (sub 10 12 (reparse_buffer units) = to_le 2 n) as -> by field.
  assert (sub 12 14 (reparse_buffer units) = to_le 2 n) as -> by field.
  assert (sub 14 16 (reparse_buffer units) = to_le 2 n) as -> by field.
  rewrite !from_le_le by (change (256 ^ Z.of_nat 2) with 65536; lia). rewrite !Z.add_0_r.
  destruct (Z.ltb_spec (20 + 4 * lenZ units) (20 + n)); [lia|].
  destruct (Z.ltb_spec (20 + 4 * lenZ units) (20 + n + n)); [lia|]. cbn [orb]. do 2 f_equal.
  - rewrite <-(chunks2_units units Hu) at 2. f_equal.
    unfold reparse_buffer. cbn zeta. repeat (rewrite sub_skip by (rewrite lenZ_le; lia); rewrite lenZ_le).
    apply sub_head. rewrite length_units. lia.
  - destruct (Z.eqb_spec n 0), (Z.eqb_spec (lenZ units) 0); lia || done.
Qed.

Lemma reparse_buffer_roundtrip target buffer :
  20 + 4 * lenZ target < 2 ^ 16 -> 20 + 4 * lenZ target <= lenZ buffer ->
  let n := 20 + 4 * lenZ target in
  exists b, encode_reparse target buffer = Some (b, n) /\ dropZ n b = dropZ n buffer /\
    decode_reparse (takeZ n b) = Ok (map Z_of_byte target, lenZ target =? 0).
Proof.
  intros Hl Hb n. pose proof (lenZ_nonneg target). assert (lenZ (map Z_of_byte target) = lenZ target) as Hm
    by (unfold lenZ; by rewrite length_map).
  assert (lenZ (reparse_buffer (map Z_of_byte target)) = n) as Hr.
  { unfold reparse_buffer. rewrite !lenZ_app, !lenZ_le, !length_units. lia. }
  exists (reparse_buffer (map Z_of_byte target) ++ dropZ n buffer). split; [|split].
  - unfold encode_reparse. rewrite Hm. unfold u16. rewrite !(Z.mod_small (lenZ target * 2)) by lia.
    rewrite !(Z.mod_small (lenZ target * 2 * 2)) by lia. rewrite !(Z.mod_small (12 + _)) by lia.
    rewrite (Z.mod_small (8 + _)) by lia.
    destruct (Z.ltb_spec (lenZ buffer) (8 + (12 + lenZ target * 2 * 2))); [lia|].
    destruct (Z.ltb_spec (8 + (12 + lenZ target * 2 * 2)) (20 + 4 * lenZ target)); [lia|].
    unfold reparse_buffer. rewrite Hm, <-!app_assoc. do 2 f_equal; [|lia].
    replace (12 + 2 * (2 * lenZ target)) with (12 + lenZ target * 2 * 2) by lia.
    by replace (2 * lenZ target) with (lenZ target * 2) by lia.
  - by apply dropZ_app_exact.
  - rewrite takeZ_app_exact by done. rewrite decode_buffer, Hm; [done| |by rewrite Hm].
    apply Forall_forall. intros x Hx. apply list_elem_of_In, in_map_iff in Hx as (b & <- & _).
    pose proof (Z_of_byte_range b). lia.
Qed.

(** Symbolic link targets survive the reparse buffer.  For a target of at
    most 16378 bytes the buffer written by [get_reparse_point] has the length it
    reports, leaves the bytes behind it alone, and is read by
    [set_reparse_point] as one UTF-16 unit per byte of the target. *)
Theorem reparse_roundtrip target buffer :
  20 + 4 * lenZ target < 2 ^ 16 -> 20 + 4 * lenZ target <= lenZ buffer ->
  let n := 20 + 4 * lenZ target in
  exists b, encode_reparse target buffer = Some (b, n) /\ dropZ n b = dropZ n buffer /\
    decode_reparse (takeZ n b) = Ok (map Z_of_byte target, lenZ target =? 0).
Proof. apply reparse_buffer_roundtrip. Qed.

(** A target that is not ASCII is written byte by byte, so what is read back is
    another name: "é" comes back as "Ã©". *)
Example reparse_mangles_utf8 :
  exists b, encode_reparse [Byte.xc3; Byte.xa9] (replicate 28 Byte.x00) = Some (b, 28) /\
    decode_reparse b = Ok ([0xC3; 0xA9], false).
Proof. eexists. split; by vm_compute. Qed.

Lemma reparse_roundtrip_witness :
  exists b, encode_reparse (as_bytes "a.txt") (replicate 64 Byte.x00) = Some (b, 40) /\
    decode_reparse (takeZ 40 b) = Ok ([97; 46; 116; 120; 116], false).
Proof.
  destruct (reparse_roundtrip (as_bytes "a.txt") (replicate 64 Byte.x00)) as (b & H1 & _ & H2);
    [by vm_compute|by vm_compute|].
  exists b. split; [exact H1|exact H2].
Defined.

End Convert.

Module Adapter.
Import Errors CoreFs Convert.

Record WinFspHandle := mk_handle { h_ino : Z; fh : Z; is_dir : bool; dir_fh : Z }.
Record FileSecurity := mk_security { reparse : bool; sz_security_descriptor : Z; attributes : Z }.

Definition GETATTR_CACHE_TTL : Z := 100 * 10 ^ 6.
Definition VOLUME_INFO_CACHE_TTL : Z := 30 * 10 ^ 9.
Definition FILE_ACTION_REMOVED : Z := 2.
Definition FILE_NOTIFY_CHANGE_FILE_NAME : Z := 1.
Definition FILE_NOTIFY_CHANGE_DIR_NAME : Z := 2.
Definition FspCleanupDelete : Z := 1.
Definition STATUS_INVALID_DEVICE_REQUEST : Z := 0xC0000010.
Definition STATUS_BUFFER_TOO_SMALL : Z := 0xC0000023.
Definition STATUS_INSUFFICIENT_RESOURCES : Z := 0xC000009A.
Definition BACKSLASH : ascii := "\"%char.

(** The directory buffer of WinFsp ([FspFileSystemAddDirInfo]): the size of an
    entry with a given name, if the name fits one, and the position after adding
    an entry, or the end marker ([None]), if there is room. *)
Class DirBuffer := {
  entry_size : string -> option Z;
  add_dir_info : Z -> Z -> option Z -> option Z
}.

Section Callbacks.
Context {S : Type} `{Core : !CoreFilesystem S} `{DB : !DirBuffer}.
(** [util::nfc], [str::to_lowercase], [String::from_utf16_lossy]. *)
Context (nfc to_lowercase : string -> string) (from_utf16_lossy : list Z -> string).

Record WinFspAdapter := mk_adapter {
  inner : S;
  getattr_cache : gmap Z (Z * CoreFileAttr);
  volume_info_cache : option (Z * CoreVolumeStat);
  acl_enabled : bool;
  pending_notifications : list (string * Z * Z);
  renamed_inos : gset Z
}.
Definition new (s : S) : WinFspAdapter := mk_adapter s ∅ None true [] ∅.
Definition with_acl_enabled (enabled : bool) (w : WinFspAdapter) : WinFspAdapter :=
  mk_adapter (inner w) (getattr_cache w) (volume_info_cache w) enabled (pending_notifications w) (renamed_inos w).
Definition set_inner s (w : WinFspAdapter) : WinFspAdapter :=
  mk_adapter s (getattr_cache w) (volume_info_cache w) (acl_enabled w) (pending_notifications w) (renamed_inos w).
Definition set_attrs c (w : WinFspAdapter) : WinFspAdapter :=
  mk_adapter (inner w) c (volume_info_cache w) (acl_enabled w) (pending_notifications w) (renamed_inos w).
Definition set_volume v (w : WinFspAdapter) : WinFspAdapter :=
  mk_adapter (inner w) (getattr_cache w) v (acl_enabled w) (pending_notifications w) (renamed_inos w).
Definition set_queue q (w : WinFspAdapter) : WinFspAdapter :=
  mk_adapter (inner w) (getattr_cache w) (volume_info_cache w) (acl_enabled w) q (renamed_inos w).
Definition set_renamed r (w : WinFspAdapter) : WinFspAdapter :=
  mk_adapter (inner w) (getattr_cache w) (volume_info_cache w) (acl_enabled w) (pending_notifications w) r.

(** A callback fails with an NTSTATUS. *)
Abbreviation wf A := (act WinFspAdapter Z A).
(** [self.inner.method(..)], its outcome as a value, and with
    [.map_err(io_err_to_status)?]. *)
Definition outcome {A} (m : io S A) : wf (result A Errors.io_Error) := fun w =>
  let '(s, r) := m (inner w) in (set_inner s w, Ok r).
Definition call {A} (m : io S A) : wf A :=
  r ← outcome m;
  match r with Ok a => mret a | Err e => throw (Errors.io_err_to_status e) end.
Definition state : wf WinFspAdapter := fun w => (w, Ok w).
Definition modify (f : WinFspAdapter -> WinFspAdapter) : wf unit := fun w => (f w, Ok tt).

(** ** Names *)
Definition slashes (file_name : string) : string := Str.replace_char BACKSLASH Str.SLASH (nfc file_name).
Definition parent_ino_for (full_path : string) : wf (option Z) :=
  r ← outcome (walk 1 (map (fun c => if String.eqb c EmptyString then c else nfc c)
                           (Str.split Str.SLASH (trim_slashes full_path))));
  mret (match r with Ok o => o | Err _ => None end).
(** The parent's path and the name, as [cleanup] splits them. *)
Definition split_name (full_path : string) : string * string :=
  match rsplit_once full_path with
  | Some (parent, name) => if String.eqb name EmptyString then ("/"%string, full_path) else (parent, name)
  | None => ("/"%string, full_path)
  end.

(** ** Opening *)
(** [resolver]: what WinFsp found for the path, the index of the component that
    is a reparse point. *)
Definition get_security_by_name (file_name : string) (resolver : option FileSecurity) : wf FileSecurity :=
  let path := slashes file_name in
  match resolver with
  | Some security =>
      let total_components := lenZ (List.filter Path.nonempty (Str.split Str.SLASH path)) in
      if attributes security + 1 =? total_components
      then mret (mk_security false 0 (core_kind_to_file_attributes Symlink 493))
      else mret security
  | None =>
      a ← call (lookup 1 path);
      mret (mk_security false 0 (core_kind_to_file_attributes (kind a) (perm a)))
  end.
Definition invalidate_parent (path : string) : wf unit :=
  match rsplit_once path with
  | Some (parent_path, basename) =>
      if String.eqb basename EmptyString then mret tt
      else modify (fun w => set_inner (fst (dir_cache_invalidate_if_stale parent_path basename (inner w))) w)
  | None => mret tt
  end.
Definition open (file_name : string) (granted_access : Z) (info : FileInfo) : wf (WinFspHandle * FileInfo) :=
  let path := slashes file_name in
  a ← call (lookup 1 path);
  let dir := bool_decide (kind a = Directory) in
  _ ← (if dir then mret tt else invalidate_parent path);
  f ← (if dir then mret (ino a) else call (CoreFs.open (ino a) (winfsp_access_to_open_flags granted_access)));
  d ← (if dir then call (opendir (ino a)) else mret 0);
  mret (mk_handle (ino a) f dir d, core_attr_to_file_info a info).
Definition create (file_name : string) (create_options file_attributes : Z) (info : FileInfo)
    : wf (WinFspHandle * FileInfo) :=
  let path := slashes file_name in
  let dir := negb (Z.land create_options 0x1 =? 0) && (Z.land create_options 0x40 =? 0) in
  af ← (if dir then a ← call (mkdir 1 path); mret (a, ino a) else call (CoreFs.create 1 path 420));
  let a := fst af in
  let user_attrs := Z.land file_attributes USER_FILE_ATTR_PASSTHROUGH in
  let info := core_attr_to_file_info a info in
  let info := if user_attrs =? 0 then info else add_attributes user_attrs info in
  d ← (if dir then call (opendir (ino a)) else mret 0);
  mret (mk_handle (ino a) (snd af) dir d, info).
Definition close (h : WinFspHandle) : wf unit :=
  _ ← (if negb (is_dir h) then r ← outcome (release (h_ino h) (fh h)); mret tt
       else if negb (dir_fh h =? 0) then r ← outcome (releasedir (h_ino h) (dir_fh h)); mret tt
       else mret tt);
  mret tt.
(** The content is kept. *)
Definition overwrite (h : WinFspHandle) (file_attributes : Z) (replace_file_attributes : bool) (info : FileInfo)
    : wf FileInfo :=
  if is_dir h then throw STATUS_INVALID_DEVICE_REQUEST
  else
    a ← call (getattr (h_ino h));
    let info := core_attr_to_file_info a info in
    let user_attrs := Z.land file_attributes USER_FILE_ATTR_PASSTHROUGH in
    mret (if replace_file_attributes && negb (user_attrs =? 0) then add_attributes user_attrs info else info).

(** ** Attributes *)
(** On a miss; a cache of more than 4096 inodes drops the expired ones. *)
Definition refresh_attr (now i : Z) : wf CoreFileAttr :=
  a ← call (getattr i);
  _ ← modify (fun w =>
        let c := getattr_cache w in
        let c := if 4096 <? Z.of_nat (base.size c)
                 then filter (fun kv => now - GETATTR_CACHE_TTL < fst (snd kv)) c else c in
        set_attrs (<[i := (now, a)]> c) w);
  mret a.
Definition get_file_info (now : Z) (h : WinFspHandle) (info : FileInfo) : wf FileInfo :=
  w ← state;
  let cached := match getattr_cache w !! h_ino h with
                | Some (ts, a) => if now - ts <? GETATTR_CACHE_TTL then Some a else None
                | None => None
                end in
  a ← match cached with Some a => mret a | None => refresh_attr now (h_ino h) end;
  mret (core_attr_to_file_info a info).
Definition invalidate_getattr_cache_ino (i : Z) : wf unit := modify (fun w => set_attrs (delete i (getattr_cache w)) w).
(** The sentinel of no change is [u32::MAX]; the extended attribute size and
    the link count are zeroed. *)
Definition set_basic_info (h : WinFspHandle) (attrs ctime' atime' wtime' chtime : Z) : wf FileInfo :=
  _ ← (if negb (attrs =? 2 ^ 32 - 1) && (wtime' =? 0) && (negb (ctime' =? 0) || negb (chtime =? 0))
       then modify (fun w => set_renamed ({[h_ino h]} ∪ renamed_inos w) w) else mret tt);
  a ← call (setattr (h_ino h) None None None None (filetime_u64_to_system_time atime')
              (filetime_u64_to_system_time wtime') (Some (fh h)));
  mret (mk_info attrs 0 ((size a + 4095) / 4096 * 4096) (size a) ctime' atime' wtime' chtime (h_ino h) 0 0).
Definition set_file_size (h : WinFspHandle) (new_size : Z) : wf unit :=
  _ ← call (setattr (h_ino h) None None None (Some new_size) None None (Some (fh h)));
  mret tt.
Definition get_volume_info (now : Z) : wf (Z * Z) :=
  w ← state;
  let cached := match volume_info_cache w with
                | Some (ts, v) => if now - ts <? VOLUME_INFO_CACHE_TTL then Some v else None
                | None => None
                end in
  v ← match cached with
      | Some v => mret v
      | None => v ← call (statfs 1); _ ← modify (set_volume (Some (now, v))); mret v
      end;
  mret (core_volume_to_volume_info v).

(** ** Security: [None] asks for the length *)
Definition get_security (h : WinFspHandle) (buffer : option bytes) : wf (option bytes * Z) :=
  w ← state;
  if negb (acl_enabled w) then throw STATUS_INVALID_DEVICE_REQUEST
  else
    let sd := synthesize_self_relative_sd (is_dir h) in
    match buffer with
    | Some b => if lenZ b <? lenZ sd then throw STATUS_BUFFER_TOO_SMALL
                else mret (Some (sd ++ dropZ (lenZ sd) b), lenZ sd)
    | None => mret (None, lenZ sd)
    end.
Definition set_security (h : WinFspHandle) : wf unit :=
  w ← state;
  if negb (acl_enabled w) then throw STATUS_INVALID_DEVICE_REQUEST else mret tt.

(** ** Data *)
(** The loop of [read]; each turn adds at least one byte, so the length of the
    buffer is enough fuel. *)
Fixpoint fill (fuel : nat) (h : WinFspHandle) (len cur_offset : Z) (acc : bytes) : wf bytes :=
  match fuel with
  | O => mret acc
  | Datatypes.S fuel =>
      if len <=? lenZ acc then mret acc
      else
        let remaining := (len - lenZ acc) mod 2 ^ 32 in
        data ← call (CoreFs.read (h_ino h) (fh h) cur_offset remaining);
        let n := lenZ data in
        if n =? 0 then mret acc
        else
          let copy := Z.min n remaining in
          let acc := acc ++ takeZ copy data in
          if n <? remaining then mret acc else fill fuel h len (wrap64 (cur_offset + copy)) acc
  end.
(** The bytes put at the start of the buffer. *)
Definition read (h : WinFspHandle) (len offset : Z) : wf bytes := fill (Z.to_nat len) h len offset [].
Definition write (h : WinFspHandle) (buffer : bytes) (offset : Z) (info : FileInfo) : wf (Z * FileInfo) :=
  written ← call (CoreFs.write (h_ino h) (fh h) offset buffer);
  a ← call (getattr (h_ino h));
  mret (written, core_attr_to_file_info a info).
Definition flush (context : option WinFspHandle) : wf unit :=
  match context with
  | None => mret tt
  | Some h =>
      r ← outcome (fsync (h_ino h) (fh h) true);
      match r with
      | Err e => if bool_decide (Errors.kind e = Errors.NotFound) then call (CoreFs.flush (h_ino h) (fh h))
                 else throw (Errors.io_err_to_status e)
      | Ok _ => call (CoreFs.flush (h_ino h) (fh h))
      end
  end.

(** ** Rename and delete *)
Definition rename (h : WinFspHandle) (file_name new_file_name : string) : wf unit :=
  let src_full := to_lowercase (slashes file_name) in
  let dst_full := to_lowercase (slashes new_file_name) in
  _ ← call (rename_paths src_full dst_full);
  modify (fun w => set_renamed ({[h_ino h]} ∪ renamed_inos w) w).

Definition queue_removed (name : string) (filter : Z) : wf unit :=
  modify (fun w => set_queue (pending_notifications w ++ [(name, filter, FILE_ACTION_REMOVED)]) w).
(** The parent's inode and the name of a path, and the root when the parent is
    not found. *)
Definition locate (file_name : string) : wf (Z * string) :=
  let full_path := to_lowercase (slashes file_name) in
  let '(parent_path, basename) := split_name full_path in
  o ← parent_ino_for parent_path;
  mret (default 1 o, basename).
Definition cleanup (h : WinFspHandle) (file_name : option string) (flags : Z) : wf unit :=
  let delete := negb (Z.land flags FspCleanupDelete =? 0) in
  w ← state;
  let recently_renamed := bool_decide (h_ino h ∈ renamed_inos w) in
  _ ← (if delete then modify (fun w => set_renamed (renamed_inos w ∖ {[h_ino h]}) w) else mret tt);
  if negb delete then mret tt
  else if recently_renamed then mret tt
  else
    _ ← invalidate_getattr_cache_ino (h_ino h);
    match file_name with
    | None => mret tt
    | Some file_name =>
        l ← locate file_name;
        _ ← outcome (getattr (h_ino h));
        r ← outcome (if is_dir h then rmdir (fst l) (snd l) else unlink (fst l) (snd l));
        match r with
        | Ok _ => queue_removed (snd l) (if is_dir h then FILE_NOTIFY_CHANGE_DIR_NAME else FILE_NOTIFY_CHANGE_FILE_NAME)
        | Err _ => mret tt
        end
    end.
Definition set_delete (h : WinFspHandle) (file_name : string) (delete_file : bool) : wf unit := mret tt.

(** ** Reparse points *)
Definition fill_reparse (target : bytes) (buffer : bytes) : wf (bytes * Z) :=
  match encode_reparse target buffer with
  | Some r => mret r
  | None => throw Errors.STATUS_UNSUCCESSFUL
  end.
Definition get_reparse_point (h : WinFspHandle) (buffer : bytes) : wf (bytes * Z) :=
  target ← call (readlink (h_ino h));
  fill_reparse target buffer.
Definition get_reparse_point_by_name (file_name : string) (buffer : bytes) : wf (bytes * Z) :=
  a ← call (lookup 1 (slashes file_name));
  if negb (bool_decide (kind a = Symlink)) then throw STATUS_INVALID_DEVICE_REQUEST
  else target ← call (readlink (ino a)); fill_reparse target buffer.
Definition set_reparse_point (h : WinFspHandle) (file_name : string) (buffer : bytes) : wf unit :=
  match decode_reparse buffer with
  | Err e => throw e
  | Ok (units, empty_target) =>
      r ← outcome (getattr (h_ino h));
      let is_already_symlink := match r with Ok a => bool_decide (kind a = Symlink) | Err _ => false end in
      if empty_target && is_already_symlink then
        l ← locate file_name;
        _ ← outcome (unlink (fst l) (snd l));
        queue_removed (snd l) FILE_NOTIFY_CHANGE_FILE_NAME
      else
        _ ← call (attach_symlink_to_ino (h_ino h) (from_utf16_lossy units));
        mret tt
  end.
Definition delete_reparse_point (buffer : bytes) : wf unit :=
  let reparse_tag := if 4 <=? lenZ buffer then from_le (sub 0 4 buffer) else 0 in
  if negb (reparse_tag =? IO_REPARSE_TAG_SYMLINK) && negb (reparse_tag =? 0)
  then throw Errors.STATUS_NOT_IMPLEMENTED else mret tt.

(** ** Directories *)
(** The entries put into a buffer of [len] bytes, and the position after them. *)
Fixpoint pack (pattern : option string) (len cursor : Z) (es : list (CoreDirEntry * CoreFileAttr))
    (blank : FileInfo) : result (list (string * FileInfo) * Z) Z :=
  match es with
  | [] => Ok ([], cursor)
  | (e, a) :: es =>
      let skip := match pattern with
                  | Some pat => negb (match_wildcard to_lowercase pat (d_name e) true)
                  | None => false
                  end in
      if skip then pack pattern len cursor es blank
      else
        match entry_size (d_name e) with
        | None => Err STATUS_INSUFFICIENT_RESOURCES
        | Some sz =>
            match add_dir_info len cursor (Some sz) with
            | None => Ok ([], cursor)
            | Some cursor =>
                match pack pattern len cursor es blank with
                | Ok (out, cursor) => Ok ((d_name e, core_attr_to_file_info a blank) :: out, cursor)
                | Err e => Err e
                end
            end
        end
  end.
(** The entries, whether the end marker follows them, and the length used. *)
Definition read_directory (h : WinFspHandle) (pattern : option string) (marker : string) (len : Z) (blank : FileInfo)
    : wf (list (string * FileInfo) * bool * Z) :=
  if negb (is_dir h) then throw STATUS_INVALID_DEVICE_REQUEST
  else
    es ← call (readdir_with_attrs (h_ino h) (dir_fh h) marker);
    match pack pattern len 0 es blank with
    | Err e => throw e
    | Ok (out, cursor) =>
        match add_dir_info len cursor None with
        | Some cursor => mret (out, true, cursor)
        | None => mret (out, false, cursor)
        end
    end.

(** ** Notifications *)
Definition should_notify (w : WinFspAdapter) : bool := negb (bool_decide (pending_notifications w = [])).
(** [fits]: the name fits a notification. *)
Definition notify (fits : string -> bool) (w : WinFspAdapter) : WinFspAdapter * list (string * Z * Z) :=
  (set_queue [] w, List.filter (fun n => fits (fst (fst n))) (pending_notifications w)).

End Callbacks.
Arguments WinFspAdapter S : clear implicits.

(** ** Properties *)
Section Laws.
Context {S : Type} `{Core : !CoreFilesystem S} `{DB : !DirBuffer}.
Context (nfc to_lowercase : string -> string) (from_utf16_lossy : list Z -> string).
Implicit Types (w : WinFspAdapter S) (h : WinFspHandle).

Ltac run := unfold mbind, act_bind, mret, act_ret, call, outcome, state, modify, throw in *; cbn in *.

Definition with_status {A} (r : result A Errors.io_Error) : result A Z :=
  match r with Ok a => Ok a | Err e => Err (Errors.io_err_to_status e) end.
Lemma call_eq {A} (m : io S A) w :
  call m w = (set_inner (fst (m (inner w))) w, with_status (snd (m (inner w)))).
Proof. unfold call, outcome. run. destruct (m (inner w)) as [s [a|e]]; done. Qed.

(** The read callback makes one read of the file system, whatever the
    length of the buffer: its loop stops after the first answer, full or short,
    so a range the file system answers in parts is answered with the first. *)
Theorem read_is_one_read h len offset w :
  0 < len < 2 ^ 32 ->
  read h len offset w =
    (let '(s, r) := CoreFs.read (h_ino h) (fh h) offset len (inner w) in
     (set_inner s w, match r with Ok d => Ok (takeZ len d) | Err e => Err (Errors.io_err_to_status e) end)).
Proof using.
  intros Hl. unfold read. destruct (Z.to_nat len) as [|n] eqn:En; [lia|]. cbn [fill].
  change (lenZ (@nil Byte.byte)) with 0. destruct (Z.leb_spec len 0); [lia|].
  rewrite Z.sub_0_r, Z.mod_small by lia. unfold mbind at 1, act_bind at 1. rewrite call_eq.
  destruct (CoreFs.read _ _ _ _ _) as [s [d|e]]; cbn; [|done].
  pose proof (lenZ_nonneg d). destruct (Z.eqb_spec (lenZ d) 0) as [E|].
  { apply lenZ_0_nil in E as ->. cbn. unfold takeZ. by rewrite take_nil. }
  destruct (Z.ltb_spec (lenZ d) len).
  { cbn. rewrite Z.min_l by lia. unfold mret, act_ret. do 2 f_equal. unfold takeZ, lenZ in *. rewrite !take_ge by lia. done. }
  rewrite Z.min_r by lia. assert (lenZ (takeZ len d) = len) as Ht by (rewrite lenZ_takeZ; lia).
  destruct n as [|n]; cbn [fill]; [done|]. by rewrite Ht, Z.leb_refl.
Qed.

Lemma refresh_attr_spec now i w w1 a : refresh_attr now i w = (w1, Ok a) ->
  exists s, getattr i (inner w) = (s, Ok a) /\ inner w1 = s /\ getattr_cache w1 !! i = Some (now, a).
Proof using.
  unfold refresh_attr, mbind, act_bind. rewrite call_eq.
  destruct (getattr i (inner w)) as [s [b|e]]; cbn; [|done].
  intros [= <- <-]. exists s. cbn. by rewrite lookup_insert_eq.
Qed.

(** Attributes.  [get_file_info] answers from the file system, and
    remembers the answer, unless it remembers one less than 100 ms old. *)
Theorem get_file_info_fresh now h info w w' i :
  get_file_info now h info w = (w', Ok i) ->
  exists a, i = core_attr_to_file_info a info /\
    ((exists ts, getattr_cache w !! h_ino h = Some (ts, a) /\ now - ts < GETATTR_CACHE_TTL /\ w' = w) \/
     (exists s, getattr (h_ino h) (inner w) = (s, Ok a) /\ inner w' = s /\
        getattr_cache w' !! h_ino h = Some (now, a))).
Proof using.
  unfold get_file_info. unfold mbind at 1, act_bind at 1, state at 1.
  destruct (match getattr_cache w !! h_ino h with Some (ts, a) => _ | None => None end) as [a|] eqn:Ec.
  - intros [= <- <-]. exists a. split; [done|]. left. destruct (getattr_cache w !! h_ino h) as [[ts b]|]; [|done].
    destruct (Z.ltb_spec (now - ts) GETATTR_CACHE_TTL); simplify_eq. eauto.
  - intros Hr. apply bind_Ok in Hr as (w1 & a & H1 & [= <- <-]). exists a. split; [done|]. right.
    by apply refresh_attr_spec.
Qed.

(** ** Deleting *)
Abbreviation do_cleanup := (cleanup nfc to_lowercase).
Definition removal (h : WinFspHandle) (p : Z) (name : string) : io S unit := if is_dir h then rmdir p name else unlink p name.

Lemma unmarked i (w : WinFspAdapter S) : i ∉ renamed_inos w -> set_renamed (renamed_inos w ∖ {[i]}) w = w.
Proof using. intros H. destruct w. unfold set_renamed. cbn in *. f_equal. set_solver. Qed.

(** [locate] only uses the file system. *)
Lemma locate_eq n w :
  exists s l, locate nfc to_lowercase n w = (set_inner s w, Ok l) /\
    forall w', inner w' = inner w -> locate nfc to_lowercase n w' = (set_inner s w', Ok l).
Proof using.
  unfold locate. destruct (split_name _) as [pp base]. unfold parent_ino_for, mbind, act_bind, outcome.
  destruct (walk 1 _ (inner w)) as [s r] eqn:E. eexists s, _. split; [done|].
  intros w' ->. by rewrite E.
Qed.

(** What [cleanup] did.  Without the delete flag nothing changes; with it, on an
    inode marked as renamed, only the mark goes; otherwise the inode's cached
    attributes are dropped, the file system is asked to remove the name, and a
    notification is queued exactly when it did. *)
Definition cleaned_up h (name : option string) (flags : Z) w w' : Prop :=
  (Z.land flags FspCleanupDelete = 0 -> w' = w) /\
  (Z.land flags FspCleanupDelete <> 0 -> h_ino h ∈ renamed_inos w ->
     w' = set_renamed (renamed_inos w ∖ {[h_ino h]}) w) /\
  (Z.land flags FspCleanupDelete <> 0 -> h_ino h ∉ renamed_inos w ->
     getattr_cache w' !! h_ino h = None /\
     match name with
     | None => inner w' = inner w /\ pending_notifications w' = pending_notifications w
     | Some n => exists l s1 s2 r, locate nfc to_lowercase n w = (set_inner s1 w, Ok l) /\
         removal h (fst l) (snd l) s2 = (inner w', r) /\
         s2 = fst (getattr (h_ino h) s1) /\
         pending_notifications w' = pending_notifications w ++
           match r with
           | Ok _ => [(snd l, if is_dir h then FILE_NOTIFY_CHANGE_DIR_NAME else FILE_NOTIFY_CHANGE_FILE_NAME,
                       FILE_ACTION_REMOVED)]
           | Err _ => []
           end
     end).
Lemma cleanup_cases h name flags w :
  let '(w', r) := do_cleanup h name flags w in r = Ok tt /\ cleaned_up h name flags w w'.
Proof using.
  unfold cleanup, cleaned_up. unfold mbind at 1, act_bind at 1, state at 1.
  destruct (Z.eqb_spec (Z.land flags FspCleanupDelete) 0) as [E|E]; cbn [negb].
  { cbn. split; [done|]. split; [done|]. split; intros; by exfalso. }
  unfold mbind at 1, act_bind at 1, modify at 1. case_bool_decide as Hr.
  { cbn. split; [done|]. split; [intros; by exfalso|]. split; [done|]. intros _ H. by exfalso. }
  rewrite unmarked by done.
  unfold mbind at 1, act_bind at 1, invalidate_getattr_cache_ino, modify at 1.
  set (w1 := set_attrs _ w). destruct name as [n|].
  - destruct (locate_eq n w) as (s1 & l & El & El1). unfold mbind at 1, act_bind at 1. rewrite (El1 w1 eq_refl).
    unfold mbind at 1, act_bind at 1, outcome at 1. cbn [inner set_inner].
    destruct (getattr (h_ino h) s1) as [s2 ra] eqn:Eg. unfold mbind at 1, act_bind at 1, outcome at 1. cbn [inner set_inner].
    fold (removal h (fst l) (snd l)). destruct (removal h (fst l) (snd l) s2) as [s3 r] eqn:Eu.
    assert (getattr_cache w1 !! h_ino h = None) as Hn by apply lookup_delete_eq.
    destruct r as [u|e]; cbn; (split; [done|]; split; [intros; by exfalso|]; split; [intros; by exfalso|]; intros _ _;
      split; [exact Hn|]; exists l, s1, s2; eexists; split; [done|]; split; [exact Eu|]; split; [by rewrite Eg|]); [done|].
    by rewrite app_nil_r.
  - cbn. split; [done|]. split; [intros; by exfalso|]. split; [intros; by exfalso|]. intros _ _.
    split; [apply lookup_delete_eq|done].
Qed.

Lemma cleanup_marked h name flags w : h_ino h ∈ renamed_inos w -> inner (fst (do_cleanup h name flags w)) = inner w.
Proof using.
  intros Hin. pose proof (cleanup_cases h name flags w) as H. destruct (do_cleanup h name flags w) as [w' r].
  destruct H as (_ & H1 & H2 & _). destruct (Z.eqb_spec (Z.land flags FspCleanupDelete) 0) as [E|E]; cbn.
  - by rewrite H1.
  - by rewrite H2.
Qed.

(** After a rename the next request to delete the file through any handle of
    its inode is dropped, whoever made it: the file stays. *)
Theorem delete_after_rename_dropped h a b h' name flags w w1 :
  rename nfc to_lowercase h a b w = (w1, Ok tt) -> h_ino h' = h_ino h ->
  inner (fst (do_cleanup h' name flags w1)) = inner w1.
Proof using.
  unfold rename. intros H E. apply bind_Ok in H as (w2 & u & _ & [= <-]). apply cleanup_marked. cbn. set_solver.
Qed.

(** So is a delete after the creation or change time of the file was set and
    its write time left alone. *)
Theorem delete_after_set_times_dropped h attrs ct at' ch h' name flags w w1 i :
  attrs <> 2 ^ 32 - 1 -> ct <> 0 -> set_basic_info h attrs ct at' 0 ch w = (w1, Ok i) -> h_ino h' = h_ino h ->
  inner (fst (do_cleanup h' name flags w1)) = inner w1.
Proof using.
  intros Ha Hc H E. unfold set_basic_info in H. apply bind_Ok in H as (w2 & u & H1 & H).
  apply bind_Ok in H as (w3 & x & H2 & [= <-]).
  assert (h_ino h ∈ renamed_inos w2) as Hin.
  { destruct (Z.eqb_spec attrs (2 ^ 32 - 1)); [done|]. destruct (Z.eqb_spec ct 0); [done|]. cbn in H1.
    injection H1 as <-. cbn. set_solver. }
  apply cleanup_marked. rewrite E. rewrite call_eq in H2. by injection H2 as <-.
Qed.

(** Deleting a file whose directory the look-up does not find removes the file
    of the same name in the root. *)
Theorem delete_in_lost_directory h n flags w parent base :
  is_dir h = false -> Z.land flags FspCleanupDelete <> 0 -> h_ino h ∉ renamed_inos w ->
  split_name (to_lowercase (slashes nfc n)) = (parent, base) ->
  snd (parent_ino_for nfc parent w) = Ok None ->
  exists s, fst (unlink 1 base s) = inner (fst (do_cleanup h (Some n) flags w)).
Proof using.
  intros Hd Hfl Hr Hs Hp. pose proof (cleanup_cases h (Some n) flags w) as H.
  destruct (do_cleanup h (Some n) flags w) as [w' r]. destruct H as (_ & _ & _ & H).
  destruct (H Hfl Hr) as (_ & l & s1 & s2 & r' & El & Eu & _). unfold removal in Eu. rewrite Hd in Eu. exists s2. cbn.
  unfold locate in El. rewrite Hs in El. unfold mbind, act_bind in El.
  destruct (parent_ino_for nfc parent w) as [w1 r1]. cbn in Hp. subst r1. cbn in El.
  injection El as _ <-. cbn in Eu. by rewrite Eu.
Qed.

(** ** Directories *)
Definition kept (pattern : option string) (x : CoreDirEntry * CoreFileAttr) : bool :=
  match pattern with Some pat => match_wildcard to_lowercase pat (d_name (fst x)) true | None => true end.

Lemma pack_prefix pattern len cursor es blank out c :
  pack to_lowercase pattern len cursor es blank = Ok (out, c) ->
  exists rest, List.filter (kept pattern) es = rest ++ dropZ (lenZ out) (List.filter (kept pattern) es) /\
    out = map (fun x => (d_name (fst x), core_attr_to_file_info (snd x) blank)) rest /\
    (dropZ (lenZ out) (List.filter (kept pattern) es) <> [] -> exists sz, add_dir_info len c (Some sz) = None).
Proof using.
  revert cursor out c. induction es as [|[e a] es IH]; intros cursor out c; cbn [pack List.filter].
  - intros [= <- <-]. by exists [].
  - unfold kept at 2 4 6. cbn [fst].
    assert ((match pattern with Some pat => negb (match_wildcard to_lowercase pat (d_name e) true) | None => false end)
      = negb (kept pattern (e, a))) as -> by (unfold kept; by destruct pattern).
    change (match pattern with Some pat => match_wildcard to_lowercase pat (d_name e) true | None => true end)
      with (kept pattern (e, a)). destruct (kept pattern (e, a)); cbn [negb]; [|apply IH].
    destruct (entry_size (d_name e)) as [sz|]; [|done].
    destruct (add_dir_info len cursor (Some sz)) as [c1|] eqn:Ea.
    + destruct (pack _ _ _ _ _ _) as [[out' c']|] eqn:Ep; [|done]. intros [= <- <-].
      destruct (IH _ _ _ Ep) as (rest & E1 & E2 & E3). exists ((e, a) :: rest).
      assert (dropZ (lenZ ((d_name e, core_attr_to_file_info a blank) :: out')) ((e, a) :: List.filter (kept pattern) es)
        = dropZ (lenZ out') (List.filter (kept pattern) es)) as ->.
      { unfold dropZ, lenZ. cbn [length]. rewrite Nat2Z.inj_succ, Z2Nat.inj_succ by lia. done. }
      split; [cbn; by f_equal|]. split; [cbn; by f_equal|done].
    + intros [= <- <-]. exists []. split; [done|]. split; [done|]. eauto.
Qed.

(** One page of a directory.  The entries put into the buffer are the
    first ones, in order, of those after the marker that match the pattern, each
    with its attributes; entries are left over only when the buffer had no room
    for the next. *)
Theorem read_directory_page h pattern marker len blank w w' out eof used :
  read_directory to_lowercase h pattern marker len blank w = (w', Ok (out, eof, used)) ->
  exists es s, readdir_with_attrs (h_ino h) (dir_fh h) marker (inner w) = (s, Ok es) /\ w' = set_inner s w /\
    let todo := List.filter (kept pattern) es in
    out = map (fun x => (d_name (fst x), core_attr_to_file_info (snd x) blank)) (takeZ (lenZ out) todo) /\
    (lenZ out < lenZ todo -> exists c sz, add_dir_info len c (Some sz) = None).
Proof using.
  clear nfc from_utf16_lossy. unfold read_directory. destruct (is_dir h); cbn [negb]; [|done].
  intros H. apply bind_Ok in H as (w1 & es & H1 & H). rewrite call_eq in H1.
  destruct (readdir_with_attrs _ _ _ _) as [s [es'|e]] eqn:Er; [|done]. cbn in H1. injection H1 as <- <-.
  destruct (pack _ _ _ _ _ _) as [[out' c]|] eqn:Ep; [|done].
  assert (out' = out /\ w' = set_inner s w) as [-> ->].
  { destruct (add_dir_info len c None); by injection H as <- <-. }
  exists es', s. split; [done|]. split; [done|]. destruct (pack_prefix _ _ _ _ _ _ _ Ep) as (rest & E1 & E2 & E3).
  assert (lenZ out = lenZ rest) as Hl by (rewrite E2; unfold lenZ; by rewrite length_map). cbn zeta. split.
  - rewrite E1 at 1. rewrite takeZ_app_exact by done. done.
  - intros Hlt. destruct E3 as [sz Hsz]; [|by exists c, sz]. intros E. apply (f_equal lenZ) in E.
    rewrite lenZ_dropZ in E by apply lenZ_nonneg. change (lenZ (@nil (CoreDirEntry * CoreFileAttr))) with 0 in E. lia.
Qed.

(** A page that had no room for all its entries is still closed with the end
    marker whenever the marker fits: the caller takes the listing to be
    complete and never asks for the rest. *)
Theorem read_directory_ends_early h pattern marker len blank w es s out c c' :
  is_dir h = true -> readdir_with_attrs (h_ino h) (dir_fh h) marker (inner w) = (s, Ok es) ->
  pack to_lowercase pattern len 0 es blank = Ok (out, c) -> add_dir_info len c None = Some c' ->
  read_directory to_lowercase h pattern marker len blank w = (set_inner s w, Ok (out, true, c')).
Proof using.
  intros Hd Hr Hp Ha. unfold read_directory. rewrite Hd. cbn [negb]. unfold mbind at 1, act_bind at 1.
  rewrite call_eq, Hr. cbn. by rewrite Hp, Ha.
Qed.

(** ** Symbolic links *)
(** A link read through one handle can be made through another: the buffer
    that [get_reparse_point] fills for an ASCII target makes [set_reparse_point]
    attach that target to the other inode. *)
Theorem symlink_copied h h' n t buffer w w1 s2 a :
  (forall u, Forall (fun b => Z_of_byte b < 128) (as_bytes u) -> from_utf16_lossy (map Z_of_byte (as_bytes u)) = u) ->
  Forall (fun b => Z_of_byte b < 128) (as_bytes t) -> t <> EmptyString ->
  20 + 4 * lenZ (as_bytes t) < 2 ^ 16 -> 20 + 4 * lenZ (as_bytes t) <= lenZ buffer ->
  readlink (h_ino h) (inner w) = (inner w1, Ok (as_bytes t)) -> w1 = set_inner (inner w1) w ->
  attach_symlink_to_ino (h_ino h') t (fst (getattr (h_ino h') (inner w1))) = (s2, Ok a) ->
  exists b k, get_reparse_point h buffer w = (w1, Ok (b, k)) /\
    set_reparse_point nfc to_lowercase from_utf16_lossy h' n (takeZ k b) w1 = (set_inner s2 w1, Ok tt).
Proof using.
  intros Hutf Ht Hne Hl Hb Hr Hw Ha. destruct (reparse_buffer_roundtrip (as_bytes t) buffer Hl Hb) as (b & E1 & _ & E2).
  exists b. eexists. split.
  - unfold get_reparse_point, mbind, act_bind. rewrite call_eq, Hr. cbn. rewrite <-Hw. unfold fill_reparse. by rewrite E1.
  - unfold set_reparse_point. rewrite E2.
    assert ((lenZ (as_bytes t) =? 0) = false) as ->.
    { apply Z.eqb_neq. intros E. apply lenZ_0_nil in E. apply Hne, as_bytes_inj. by rewrite E. }
    unfold mbind at 1, act_bind at 1, outcome at 1. destruct (getattr (h_ino h') (inner w1)) as [s r]. cbn [andb].
    cbn in Ha. unfold mbind, act_bind. rewrite call_eq, (Hutf t Ht). cbn. by rewrite Ha.
Qed.

(** ** Security *)
(** The two calls of the security query: the first is told the length, the
    second, with a buffer of that length, gets the descriptor and nothing past
    it changes; a shorter buffer is refused. *)
Theorem get_security_protocol h buffer w : acl_enabled w = true ->
  get_security h None w = (w, Ok (None, 72)) /\
  get_security h (Some buffer) w =
    (w, if lenZ buffer <? 72 then Err STATUS_BUFFER_TOO_SMALL
        else Ok (Some (synthesize_self_relative_sd (is_dir h) ++ dropZ 72 buffer), 72)).
Proof using.
  intros Ha. assert (lenZ (synthesize_self_relative_sd (is_dir h)) = 72) as Hl by (by destruct (is_dir h)).
  unfold get_security, mbind, act_bind, state. rewrite Ha, Hl. cbn [negb]. split; [done|]. by case_test.
Qed.
End Laws.

(** ** The directory tree under a deletion *)

(** A file system with a directory tree: [entry s p n] is the inode under the
    name [n] in the directory [p].  A look-up answers from it; look-ups and
    attribute reads leave it, and a removal that succeeds takes one entry. *)
Class DirTree (S : Type) `{!CoreFilesystem S} (entry : S -> Z -> string -> option Z) : Prop := {
  dt_lookup p n s : exists s' r, lookup p n s = (s', r) /\ (forall q m, entry s' q m = entry s q m) /\
    match r with Ok a => entry s p n = Some (ino a) | Err _ => entry s p n = None end;
  dt_getattr i s q m : entry (fst (getattr i s)) q m = entry s q m;
  dt_removal h p n s s' r q m : removal h p n s = (s', r) ->
    entry s' q m = if match r with Ok _ => bool_decide ((q, m) = (p, n)) | Err _ => false end then None else entry s q m
}.

(** [/d1/../dk/base]. *)
Definition path_to (dirs : list string) (base : string) : string := Path.path_of (EmptyString :: dirs ++ [base]).
Lemma split_name_path dirs base : Path.seg_ok base ->
  split_name (path_to dirs base) = (Path.path_of (EmptyString :: dirs), base).
Proof.
  intros [Hne Hf]. unfold split_name, rsplit_once, path_to. rewrite app_comm_cons, Path.path_of_snoc by done.
  rewrite Path.rfind_app, Path.truncate_app by done. set (p := Path.path_of _).
  change (String Str.SLASH base) with (String Str.SLASH EmptyString +:+ base). rewrite <-Str.append_assoc.
  replace (Datatypes.S (String.length p)) with (String.length (p +:+ String Str.SLASH EmptyString))
    by (rewrite Str.length_append; cbn; lia).
  rewrite Path.substring_app by (rewrite Str.length_append; lia). apply String.eqb_neq in Hne. by rewrite Hne.
Qed.

Section Tree.
Context {S : Type} `{Core : !CoreFilesystem S} `{DB : !DirBuffer} (entry : S -> Z -> string -> option Z).
Context {tree_laws : DirTree S entry} (nfc to_lowercase : string -> string).

(** The directory that a list of names leads to. *)
Fixpoint resolve (at_ : Z -> string -> option Z) (cur : Z) (names : list string) : option Z :=
  match names with
  | [] => Some cur
  | n :: rest => match at_ cur n with Some i => resolve at_ i rest | None => None end
  end.
(** The name a callback is given, composed and lower-cased and with slashes,
    is a path whose names are not empty. *)
Definition denotes (file_name : string) (dirs : list string) (base : string) : Prop :=
  to_lowercase (Str.replace_char BACKSLASH Str.SLASH (nfc file_name)) = path_to dirs base /\
  Forall Path.seg_ok (dirs ++ [base]) /\ Forall (fun d => nfc d <> EmptyString) dirs.

Lemma walk_resolve names : forall cur s, Forall (fun n => n <> EmptyString) names ->
  exists s', walk cur names s = (s', Ok (resolve (entry s) cur names)) /\ forall q m, entry s' q m = entry s q m.
Proof using tree_laws.
  induction names as [|n names IH]; intros cur s Hn; [by exists s|]. apply Forall_cons in Hn as [Hne Hn].
  cbn [walk resolve]. apply String.eqb_neq in Hne. rewrite Hne. unfold mbind, act_bind, attempt.
  destruct (dt_lookup cur n s) as (s1 & r & E & Hs & Hr). rewrite E. destruct r as [a|e]; rewrite Hr; [|by exists s1].
  destruct (IH (ino a) s1 Hn) as (s2 & E2 & Hs2). exists s2. rewrite E2. split; [|by intros; rewrite Hs2, Hs].
  do 2 f_equal. clear -Hs. revert Hs. generalize (ino a) as i. induction names as [|x l IHl]; intros i Hs; [done|].
  cbn. rewrite Hs. destruct (entry s i x); [by apply IHl|done].
Qed.

(** The parent of such a path is walked name by name. *)
Lemma parent_walk dirs s : Forall Path.seg_ok dirs ->
  walk 1 (map (fun c => if String.eqb c EmptyString then c else nfc c)
            (Str.split Str.SLASH (trim_slashes (Path.path_of (EmptyString :: dirs))))) s = walk 1 (map nfc dirs) s.
Proof using.
  intros HF. destruct dirs as [|d dirs]; [done|]. rewrite Path.path_of_cons, Str.append_nil_l. unfold trim_slashes.
  cbn [trim_start]. rewrite Ascii.eqb_refl.
  assert (trim_start (Path.path_of (d :: dirs)) = Path.path_of (d :: dirs)) as ->.
  { apply Forall_cons in HF as [[Hd Hf] _]. destruct d as [|a d]; [done|]. apply Str.free_of_cons in Hf as [Ha _].
    apply Ascii.eqb_neq in Ha. destruct dirs as [|d' dirs]; [change (Path.path_of [String a d]) with (String a d)|];
      rewrite ?Path.path_of_cons, ?Str.append_cons; cbn [trim_start]; by rewrite Ha. }
  pose proof (Path.trim_end_path (d :: dirs) 0 HF) as Ht. cbn [Path.slashes] in Ht. rewrite Str.append_nil_r in Ht.
  rewrite Ht, Path.split_path by done. f_equal. apply map_ext_Forall. eapply Forall_impl; [exact HF|].
  intros c [Hc _]. apply String.eqb_neq in Hc. by rewrite Hc.
Qed.

Lemma locate_path n dirs base w : denotes n dirs base ->
  exists s, locate nfc to_lowercase n w = (set_inner s w, Ok (default 1 (resolve (entry (inner w)) 1 (map nfc dirs)), base)) /\
    forall q m, entry s q m = entry (inner w) q m.
Proof using tree_laws.
  intros (En & HF & Hd). apply Forall_app in HF as [HF Hb]. apply (proj1 (Forall_singleton _ _)) in Hb.
  unfold locate, slashes. rewrite En, split_name_path by done. unfold parent_ino_for, mbind, act_bind, outcome.
  rewrite parent_walk by done. destruct (walk_resolve (map nfc dirs) 1 (inner w)) as (s & -> & Hs); [by apply Forall_map|].
  by exists s.
Qed.

End Tree.

(** ** Witnesses: a small tree *)
(** Inode to parent, name, kind and content or link target. *)
Definition tree : Type := gmap Z (Z * string * CoreFileType * bytes).
Definition child (t : tree) (parent : Z) (name : string) : option Z :=
  fst <$> List.find (fun kv => let '(p, n, _, _) := snd kv in (p =? parent) && String.eqb n name) (map_to_list t).
Definition node_attr (i : Z) (x : Z * string * CoreFileType * bytes) : CoreFileAttr :=
  let '(_, _, k, d) := x in mk_attr i (lenZ d) 0 0 0 0 0 k 420 1 0 0 0 4096 0.
Definition missing : Errors.io_Error := Errors.io_new Errors.NotFound.
Definition of_option {A} (o : option A) : io tree A := match o with Some a => mret a | None => throw missing end.
Definition tree_getattr (i : Z) : io tree CoreFileAttr := fun t => of_option (node_attr i <$> t !! i) t.
Definition tree_remove (parent : Z) (name : string) : io tree unit := fun t =>
  match child t parent name with Some i => (delete i t, Ok tt) | None => (t, Err missing) end.
#[local] Instance tree_required : CoreRequired tree := {|
  init := mret tt;
  lookup := fun parent name t =>
    match child t parent name with Some i => tree_getattr i t | None => (t, Err missing) end;
  getattr := tree_getattr;
  setattr := fun i _ _ _ _ _ _ _ => tree_getattr i;
  readdir := fun i _ _ _ t =>
    (t, Ok (omap (fun kv => let '(j, (p, n, k, _)) := kv in if p =? i then Some (mk_dirent j k n) else None) (map_to_list t)));
  CoreFs.open := fun i _ => mret 7;
  CoreFs.read := fun i _ off n t =>
    match t !! i with Some (_, _, _, d) => (t, Ok (takeZ n (dropZ off d))) | None => (t, Err missing) end;
  CoreFs.write := fun i _ off d t =>
    match t !! i with
    | Some (p, n, k, old) => (<[i := (p, n, k, FileIO.pwrite off d old)]> t, Ok (lenZ d))
    | None => (t, Err missing)
    end;
  CoreFs.flush := fun _ _ => mret tt;
  release := fun _ _ => mret tt;
  CoreFs.create := fun _ _ _ => unsupported;
  mkdir := fun _ _ => unsupported;
  unlink := tree_remove;
  rmdir := tree_remove;
  CoreFs.rename := fun _ _ _ _ => unsupported;
  statfs := fun _ => unsupported;
  getxattr := fun _ _ => unsupported;
  listxattr := fun _ => unsupported;
  access := fun _ _ => mret tt
|}.
#[local] Instance tree_fs : CoreFilesystem tree := {|
  lookup_many := default_lookup_many;
  forget := fun _ _ t => t;
  opendir := fun _ => mret 0;
  releasedir := fun _ _ => mret tt;
  dir_cache_invalidate_if_stale := fun _ _ t => (t, false);
  readdir_with_attrs := default_readdir_with_attrs;
  fsync := fun _ _ _ => mret tt;
  fsyncdir := fun _ _ _ => mret tt;
  create_excl := fun _ _ _ => unsupported;
  rename_paths := fun _ _ => mret tt;
  readlink := fun i t => match t !! i with Some (_, _, Symlink, d) => (t, Ok d) | _ => (t, Err missing) end;
  symlink := fun _ _ _ => unsupported;
  attach_symlink_to_ino := fun i target t =>
    match t !! i with
    | Some (p, n, _, _) => tree_getattr i (<[i := (p, n, Symlink, as_bytes target)]> t)
    | None => (t, Err missing)
    end;
  setxattr := fun _ _ _ _ => unsupported;
  removexattr := fun _ _ => unsupported;
  link := fun _ _ _ => unsupported;
  fallocate := default_fallocate;
  copy_file_range := default_copy_file_range
|}.
(** Entries of 104 bytes and the name, at multiples of eight; the end marker
    takes two bytes. *)
#[local] Instance fsp_buffer : DirBuffer := {|
  entry_size := fun name => if 255 <=? lenZ (as_bytes name) then None else Some (104 + 2 * lenZ (as_bytes name));
  add_dir_info := fun len cursor sz =>
    let n := default 2 sz in if cursor + n <=? len then Some (cursor + (n + 7) / 8 * 8) else None
|}.

(** ASCII lower case, and UTF-16 units below 256. *)
Fixpoint lower (s : string) : string :=
  match s with
  | String a rest => let n := nat_of_ascii a in
      String (if ((65 <=? n) && (n <=? 90))%nat then ascii_of_nat (n + 32) else a) (lower rest)
  | EmptyString => s
  end.
Definition same (s : string) : string := s.
Definition of_units (l : list Z) : string := String.string_of_list_byte (map byte_of_Z l).
Lemma of_units_bytes t : of_units (map Z_of_byte (as_bytes t)) = t.
Proof.
  unfold of_units. rewrite map_map, (map_ext _ (fun b => b)) by apply byte_of_Z_of_byte.
  by rewrite map_id, String.string_of_list_byte_of_string.
Qed.

(** [Docs] with a file [a.txt], another [a.txt] in the root, and a link. *)
Definition sample : tree :=
  {[ 2 := (1, "Docs"%string, Directory, []); 3 := (2, "a.txt"%string, RegularFile, as_bytes "hello");
     4 := (1, "a.txt"%string, RegularFile, as_bytes "root"); 5 := (1, "l"%string, Symlink, as_bytes "a.txt") ]}.
Definition handle (i : Z) : WinFspHandle := mk_handle i 7 false 0.
Definition blank : FileInfo := mk_info 0 0 0 0 0 0 0 0 0 0 0.

Lemma read_is_one_read_witness : snd (read (handle 3) 3 1 (new sample)) = Ok (as_bytes "ell").
Proof. rewrite (read_is_one_read (handle 3) 3 1 (new sample)) by lia. by vm_compute. Defined.

Lemma get_file_info_fresh_witness : exists a, snd (get_file_info 5 (handle 3) blank (new sample)) = Ok (core_attr_to_file_info a blank).
Proof.
  destruct (get_file_info 5 (handle 3) blank (new sample)) as [w' [i|e]] eqn:E; [|by vm_compute in E].
  destruct (get_file_info_fresh 5 (handle 3) blank (new sample) w' i E) as (a & -> & _). by exists a.
Defined.

Lemma symlink_copied_witness :
  exists b k w2, get_reparse_point (handle 5) (replicate 64 Byte.x00) (new sample) = (new sample, Ok (b, k)) /\
    set_reparse_point same lower of_units (handle 3) "x" (takeZ k b) (new sample) = (w2, Ok tt).
Proof.
  destruct (tree_getattr 3 (<[3 := (2, "a.txt"%string, Symlink, as_bytes "a.txt")]> sample)) as [s2 [a|e]] eqn:E;
    [|by vm_compute in E].
  destruct (symlink_copied same lower of_units (handle 5) (handle 3) "x" "a.txt" (replicate 64 Byte.x00) (new sample)
    (new sample) s2 a) as (b & k & H1 & H2).
  - intros u _. apply of_units_bytes.
  - repeat constructor; by vm_compute.
  - done.
  - by vm_compute.
  - by vm_compute.
  - by vm_compute.
  - done.
  - exact E.
  - exists b, k, (set_inner s2 (new sample)). split; [exact H1|exact H2].
Defined.

Lemma get_security_protocol_witness :
  get_security (handle 3) None (new sample) = (new sample, Ok (None, 72)).
Proof. apply (get_security_protocol (handle 3) [] (new sample)). reflexivity. Defined.

Lemma read_directory_page_witness :
  exists out, snd (read_directory lower (mk_handle 1 1 true 0) (Some "*.TXT"%string) "" 4096 blank (new sample)) = Ok (out, true, 128) /\
    map fst out = ["a.txt"%string].
Proof.
  destruct (read_directory lower (mk_handle 1 1 true 0) (Some "*.TXT"%string) "" 4096 blank (new sample))
    as [w' [[[out eof] used]|e]] eqn:E; [|by vm_compute in E].
  destruct (read_directory_page lower (mk_handle 1 1 true 0) (Some "*.TXT"%string) "" 4096 blank (new sample) w' out eof used E)
    as (es & s & Hr & _ & _ & _).
  exists out. vm_compute in E. injection E as _ <- <- <-. by split.
Defined.

(** A tree of names only: every removal of an entry succeeds. *)
Definition links : Type := gmap (Z * string) Z.
Definition link_attr (i : Z) : CoreFileAttr := mk_attr i 0 0 0 0 0 0 Directory 420 1 0 0 0 4096 0.
Definition links_remove (p : Z) (name : string) : io links unit := fun t =>
  match t !! (p, name) with Some _ => (delete (p, name) t, Ok tt) | None => (t, Err missing) end.
#[local] Instance links_required : CoreRequired links := {|
  init := mret tt;
  lookup := fun p name t => match t !! (p, name) with Some i => (t, Ok (link_attr i)) | None => (t, Err missing) end;
  getattr := fun i => mret (link_attr i);
  setattr := fun i _ _ _ _ _ _ _ => mret (link_attr i);
  readdir := fun _ _ _ _ => mret [];
  CoreFs.open := fun i _ => mret i;
  CoreFs.read := fun _ _ _ _ => mret [];
  CoreFs.write := fun _ _ _ _ => unsupported;
  CoreFs.flush := fun _ _ => mret tt;
  release := fun _ _ => mret tt;
  CoreFs.create := fun _ _ _ => unsupported;
  mkdir := fun _ _ => unsupported;
  unlink := links_remove;
  rmdir := links_remove;
  CoreFs.rename := fun _ _ _ _ => unsupported;
  statfs := fun _ => unsupported;
  getxattr := fun _ _ => unsupported;
  listxattr := fun _ => unsupported;
  access := fun _ _ => mret tt
|}.
#[local] Instance links_fs : CoreFilesystem links := with_defaults.
Definition link_entry (t : links) (p : Z) (name : string) : option Z := t !! (p, name).
#[local] Instance links_tree : DirTree links link_entry.
Proof.
  split.
  - intros p n s. cbn. unfold link_entry. destruct (s !! (p, n)) as [i|] eqn:E; [|by exists s, (Err missing)].
    by exists s, (Ok (link_attr i)).
  - done.
  - intros h p n s s' r q m Er. assert (links_remove p n s = (s', r)) as Hr.
    { rewrite <-Er. unfold removal. by destruct (is_dir h). }
    unfold links_remove in Hr. unfold link_entry. destruct (s !! (p, n)); simplify_eq; [|done].
    case_bool_decide as E; [injection E as -> ->; apply lookup_delete_eq|]. apply lookup_delete_ne. congruence.
Qed.

(** Deleting [\Docs\a.txt]: the path is lower-cased, [docs] is not found, and
    the [a.txt] of the root goes. *)
Example delete_removes_other_file :
  let '(w, _) := cleanup same lower (handle 3) (Some "\Docs\a.txt"%string) 1 (new sample) in
  is_Some (inner w !! 3) /\ inner w !! 4 = None.
Proof. vm_compute. by split; [eexists|]. Qed.

(** Two entries in a buffer for one: the listing ends after the first. *)
Example listing_loses_entries :
  let '(_, r) := read_directory lower (mk_handle 1 1 true 0) None "" 150 blank (new sample) in
  exists x used, r = Ok ([x], true, used).
Proof. vm_compute. by eexists _, _. Qed.
End Adapter.
