(* ===== verification/Fuser.v ===== *)
(** * Fuser: the FUSE adapter of src/src/core_fs/fuser.rs

    Each callback makes one call of the [CoreFilesystem] (two for
    [readdirplus]) and turns its outcome into the reply the kernel gets.
    Metrics and logging are left out. *)

From Stdlib Require Import ZArith Lia Strings.Byte Strings.String Strings.Ascii.
From S2P Require Import Prelude Util Errors CoreFs.

Module Fuser.
Import Errors CoreFs.

(** ** Replies *)
(** [fuser::FileType] and [fuser::FileAttr] have the same fields as the core
    types. *)
Inductive FileType := FDirectory | FRegularFile | FSymlink | FNamedPipe | FCharDevice | FBlockDevice | FSocket.
Definition to_fuse_filetype (ft : CoreFileType) : FileType :=
  match ft with
  | Directory => FDirectory
  | RegularFile => FRegularFile
  | Symlink => FSymlink
  | NamedPipe => FNamedPipe
  | CharDevice => FCharDevice
  | BlockDevice => FBlockDevice
  | Socket => FSocket
  end.
Record FileAttr := mk_fattr {
  f_ino : Z; f_size : Z; f_blocks : Z; f_atime : Z; f_mtime : Z; f_ctime : Z; f_crtime : Z;
  f_kind : FileType; f_perm : Z; f_nlink : Z; f_uid : Z; f_gid : Z; f_rdev : Z; f_blksize : Z; f_flags : Z
}.
Definition from_core_attr (a : CoreFileAttr) : FileAttr :=
  mk_fattr (ino a) (size a) (blocks a) (atime a) (mtime a) (ctime a) (crtime a) (to_fuse_filetype (kind a))
    (perm a) (nlink a) (uid a) (gid a) (rdev a) (blksize a) (flags a).

Inductive reply :=
| ROk
| RError (errno : Z)
| REntry (ttl : Z) (a : FileAttr)
| RAttr (ttl : Z) (a : FileAttr)
| ROpened (fh : Z) (direct_io : bool)
| RCreated (ttl : Z) (a : FileAttr) (fh : Z) (direct_io : bool)
| RData (d : bytes)
| RSize (n : Z)
| RWritten (n : Z)
| RStatfs (v : CoreVolumeStat)
| RDirectory (es : list (Z * Z * FileType * string))
| RDirectoryPlus (es : list (Z * Z * string * Z * FileAttr)).
Definition ERANGE : Z := 34.

Inductive TimeOrNow := SpecificTime (t : Z) | Now.
Inductive capability := FUSE_PARALLEL_DIROPS | FUSE_READDIRPLUS_AUTO | FUSE_WRITEBACK_CACHE | FUSE_HAS_EXPIRE_ONLY | FUSE_ASYNC_DIO.
(** What [init] asks of fuser's [KernelConfig]; refusals are ignored. *)
Inductive setting :=
| SetMaxWrite (n : Z)
| SetMaxReadahead (n : Z)
| SetMaxBackground (n : Z)
| SetCongestionThreshold (n : Z)
| AddCapabilities (c : capability).

(** Times to live in nanoseconds. *)
Record FuserAdapter := mk_fuser {
  dir_cache_ttl : Z; attr_ttl : Z; direct_io : bool; write_back_cache : bool; max_read_ahead : Z
}.

Section Callbacks.
Context {S : Type} `{Core : !CoreFilesystem S}.
Context (nfc : string -> string) (cfg : FuserAdapter).

(** [match self.inner.method(..) { Ok(a) => .., Err(e) => reply.error(..) }]. *)
Definition answer {A} (m : io S A) (ok : A -> reply) (s : S) : S * reply :=
  let '(s, r) := m s in (s, match r with Ok a => ok a | Err e => RError (io_err_to_fuse_errno e) end).

(** [linux]: whether the host is Linux. *)
Definition init (linux : bool) (s : S) : list setting * (S * result unit io_Error) :=
  ([SetMaxWrite (128 * 1024); SetMaxReadahead (max_read_ahead cfg); SetMaxBackground 64; SetCongestionThreshold 48;
    AddCapabilities FUSE_PARALLEL_DIROPS] ++
   (if linux then [AddCapabilities FUSE_READDIRPLUS_AUTO] else []) ++
   (if write_back_cache cfg then [AddCapabilities FUSE_WRITEBACK_CACHE] else []) ++
   [AddCapabilities FUSE_HAS_EXPIRE_ONLY] ++
   (if direct_io cfg then [AddCapabilities FUSE_ASYNC_DIO] else []), CoreFs.init s).
Definition access (i mask : Z) : S -> S * reply := answer (CoreFs.access i mask) (fun _ => ROk).
Definition lookup (parent : Z) (name : string) : S -> S * reply :=
  answer (CoreFs.lookup parent (nfc name)) (fun a => REntry 0 (from_core_attr a)).
Definition getattr (i : Z) : S -> S * reply := answer (CoreFs.getattr i) (fun a => RAttr 0 (from_core_attr a)).
Definition time_of (now : Z) (t : option TimeOrNow) : option Z :=
  match t with Some (SpecificTime t) => Some t | Some Now => Some now | None => None end.
Definition setattr (now i : Z) (mode u g sz : option Z) (at' mt : option TimeOrNow) (fh : option Z) : S -> S * reply :=
  answer (CoreFs.setattr i mode u g sz (time_of now at') (time_of now mt) fh)
    (fun a => RAttr (attr_ttl cfg) (from_core_attr a)).

(** [room]: how many entries the reply takes; [reply.add] reports a full
    buffer for the first one it does not take. *)
Definition readdir (i fh offset : Z) (room : nat) : S -> S * reply :=
  answer (CoreFs.readdir i fh offset 0) (fun es =>
    RDirectory (take room (imap (fun k e => (d_ino e, offset + Z.of_nat k + 1, to_fuse_filetype (d_kind e), d_name e))
                                (dropZ offset es)))).
(** The attributes of an entry whose look-up failed. *)
Definition stub_attr (e : CoreDirEntry) : CoreFileAttr := mk_attr (d_ino e) 0 0 0 0 0 0 (d_kind e) 0 1 0 0 0 4096 0.
Definition entry_plus (offset : Z) (k : nat) (er : CoreDirEntry * result CoreFileAttr io_Error) : Z * Z * string * Z * FileAttr :=
  let '(e, r) := er in
  (d_ino e, offset + Z.of_nat k + 1, d_name e, attr_ttl cfg,
   from_core_attr (match r with Ok a => a | Err _ => stub_attr e end)).
Definition readdirplus (i fh offset : Z) (room : nat) (s : S) : S * reply :=
  let '(s, r) := CoreFs.readdir i fh offset 0 s in
  match r with
  | Err e => (s, RError (io_err_to_fuse_errno e))
  | Ok es =>
      let page := dropZ offset es in
      let names := map d_name page in
      let '(s, rs) := lookup_many i names s in
      let attrs := match rs with Ok rs => rs | Err _ => map (fun _ => Err (io_new OtherKind)) names end in
      (s, RDirectoryPlus (take room (imap (entry_plus offset) (zip page attrs))))
  end.
Definition opendir (i : Z) : S -> S * reply := answer (CoreFs.opendir i) (fun fh => ROpened fh false).
Definition releasedir (i fh : Z) : S -> S * reply := answer (CoreFs.releasedir i fh) (fun _ => ROk).

Definition create (parent : Z) (name : string) (mode flags : Z) : S -> S * reply :=
  let name := nfc name in
  let excl := negb (Z.land flags 128 =? 0) || negb (Z.land flags 0x40000000 =? 0) in
  answer (if excl then create_excl parent name mode else CoreFs.create parent name mode)
    (fun af => RCreated (attr_ttl cfg) (from_core_attr (fst af)) (snd af) (direct_io cfg)).
Definition open (i flags : Z) : S -> S * reply := answer (CoreFs.open i flags) (fun fh => ROpened fh (direct_io cfg)).
Definition read (i fh offset size : Z) : S -> S * reply := answer (CoreFs.read i fh offset size) RData.
Definition write (i fh offset : Z) (data : bytes) : S -> S * reply := answer (CoreFs.write i fh offset data) RWritten.
Definition flush (i fh : Z) : S -> S * reply := answer (CoreFs.flush i fh) (fun _ => ROk).
Definition fsync (i fh : Z) (datasync : bool) : S -> S * reply := answer (CoreFs.fsync i fh datasync) (fun _ => ROk).
Definition fsyncdir (i fh : Z) (datasync : bool) : S -> S * reply := answer (CoreFs.fsyncdir i fh datasync) (fun _ => ROk).
Definition release (i fh : Z) : S -> S * reply := answer (CoreFs.release i fh) (fun _ => ROk).
Definition mkdir (parent : Z) (name : string) : S -> S * reply :=
  answer (CoreFs.mkdir parent (nfc name)) (fun a => REntry (attr_ttl cfg) (from_core_attr a)).
Definition rmdir (parent : Z) (name : string) : S -> S * reply := answer (CoreFs.rmdir parent (nfc name)) (fun _ => ROk).
(** [renameat2]'s flags are not looked at. *)
Definition rename (parent : Z) (name : string) (newparent : Z) (newname : string) (flags : Z) : S -> S * reply :=
  answer (CoreFs.rename parent (nfc name) newparent (nfc newname)) (fun _ => ROk).
Definition sized (size : Z) (data : bytes) : reply :=
  if size =? 0 then RSize (lenZ data mod 2 ^ 32) else if size <? lenZ data then RError ERANGE else RData data.
Definition getxattr (i : Z) (name : string) (size : Z) : S -> S * reply := answer (CoreFs.getxattr i name) (sized size).
Definition listxattr (i size : Z) : S -> S * reply :=
  answer (CoreFs.listxattr i) (fun names => sized size (names ≫= fun n => n ++ [Byte.x00])).
Definition setxattr (i : Z) (name : string) (value : bytes) (flags : Z) : S -> S * reply :=
  answer (CoreFs.setxattr i name value flags) (fun _ => ROk).
Definition removexattr (i : Z) (name : string) : S -> S * reply := answer (CoreFs.removexattr i name) (fun _ => ROk).
Definition statfs (i : Z) : S -> S * reply := answer (CoreFs.statfs i) RStatfs.
Definition unlink (parent : Z) (name : string) : S -> S * reply := answer (CoreFs.unlink parent (nfc name)) (fun _ => ROk).
Definition readlink (i : Z) : S -> S * reply := answer (CoreFs.readlink i) RData.
Definition symlink (parent : Z) (name target : string) : S -> S * reply :=
  answer (CoreFs.symlink parent (nfc name) target) (fun a => REntry (attr_ttl cfg) (from_core_attr a)).
Definition forget (i nlookup : Z) (s : S) : S := CoreFs.forget i nlookup s.
Definition link (i newparent : Z) (newname : string) : S -> S * reply :=
  answer (CoreFs.link i newparent (nfc newname)) (fun a => REntry (attr_ttl cfg) (from_core_attr a)).
Definition fallocate (i fh offset length mode : Z) : S -> S * reply :=
  answer (CoreFs.fallocate i fh offset length mode) (fun _ => ROk).
Definition copy_file_range (ino_in fh_in offset_in ino_out fh_out offset_out len : Z) : S -> S * reply :=
  answer (CoreFs.copy_file_range ino_in fh_in offset_in ino_out fh_out offset_out len) RWritten.

(** The kernel's scan: from the last cookie until a reply has no entry. *)
Fixpoint scan (fuel : nat) (rooms : nat -> nat) (i fh offset : Z) (s : S) : S * list (Z * Z * string * Z * FileAttr) :=
  match fuel with
  | O => (s, [])
  | Datatypes.S fuel =>
      let '(s, r) := readdirplus i fh offset (rooms fuel) s in
      match r with
      | RDirectoryPlus es =>
          match List.last (map (fun e => snd (fst (fst (fst e)))) es) 0 with
          | 0 => (s, es)
          | cookie => let '(s, rest) := scan fuel rooms i fh cookie s in (s, es ++ rest)
          end
      | _ => (s, [])
      end
  end.
End Callbacks.

(** ** Properties *)
Section Laws.
Context {S : Type} `{Core : !CoreFilesystem S}.
Context (nfc : string -> string) (cfg : FuserAdapter).

(** Every failure reaches the kernel as a positive errno. *)
Lemma answer_error {A} (m : io S A) ok s s' e : m s = (s', Err e) ->
  answer m ok s = (s', RError (io_err_to_fuse_errno e)) /\ 0 < io_err_to_fuse_errno e.
Proof using.
  intros H. unfold answer. rewrite H. split; [done|]. unfold io_err_to_fuse_errno.
  destruct (Errors.kind e); try done; case_test; bool_props; lia || done.
Qed.

(** The two calls for an attribute: the length, then the bytes; a buffer that
    is too short is told so. *)
Lemma sized_protocol data : data <> [] -> lenZ data < 2 ^ 32 ->
  sized 0 data = RSize (lenZ data) /\ sized (lenZ data) data = RData data /\
  forall n, 0 < n < lenZ data -> sized n data = RError ERANGE.
Proof using.
  intros Hd Hl. assert (0 < lenZ data) by (destruct data; [done|unfold lenZ; cbn; lia]). unfold sized. split_and!.
  - rewrite Z.mod_small by lia. done.
  - destruct (Z.eqb_spec (lenZ data) 0); [lia|]. by rewrite Z.ltb_irrefl.
  - intros n Hn. destruct (Z.eqb_spec n 0); [lia|]. destruct (Z.ltb_spec n (lenZ data)); [done|lia].
Qed.

(** ** Scanning a directory *)
Definition cookie (x : Z * Z * string * Z * FileAttr) : Z := snd (fst (fst (fst x))).
Definition name_ino (x : Z * Z * string * Z * FileAttr) : string * Z := (snd (fst (fst x)), fst (fst (fst (fst x)))).

Lemma imap_cookies off (l : list (CoreDirEntry * result CoreFileAttr io_Error)) :
  map cookie (imap (entry_plus cfg off) l) = map (fun k => off + Z.of_nat k + 1) (seq 0 (length l)).
Proof using.
  assert (forall k, map cookie (imap (fun j => entry_plus cfg off (k + j)) l)
    = map (fun k => off + Z.of_nat k + 1) (seq k (length l))) as H; [|apply (H 0%nat)].
  induction l as [|[e r] l IH]; intros k; [done|]. cbn [imap map length seq]. f_equal; [by rewrite Nat.add_0_r|].
  rewrite <-IH. f_equal. apply imap_ext. intros j x _. cbn. by rewrite Nat.add_succ_r.
Qed.
Lemma imap_names off (page : list CoreDirEntry) : forall rs : list (result CoreFileAttr io_Error), length rs = length page ->
  map name_ino (imap (entry_plus cfg off) (zip page rs)) = map (fun e => (d_name e, d_ino e)) page.
Proof using.
  assert (forall k (rs : list (result CoreFileAttr io_Error)), length rs = length page ->
    map name_ino (imap (fun j => entry_plus cfg off (k + j)) (zip page rs)) = map (fun e => (d_name e, d_ino e)) page) as H;
    [|apply (H 0%nat)].
  induction page as [|e page IH]; intros k rs Hl; [done|]. destruct rs as [|r rs]; [done|].
  cbn [zip zip_with imap map]. f_equal. rewrite <-(IH (Datatypes.S k) rs) by (by injection Hl). f_equal.
  apply imap_ext. intros j x _. cbn. by rewrite Nat.add_succ_r.
Qed.
Lemma last_seq (f : nat -> Z) n : List.last (map f (seq 0 (Datatypes.S n))) 0 = f n.
Proof using. rewrite seq_S, map_app. cbn [map]. apply List.last_last. Qed.

(** [ok]: the states in which the handle lists [es]. *)
Context (ok : S -> Prop) (i fh : Z) (es : list CoreDirEntry).
Context (lists : forall s off, ok s -> exists s', CoreFs.readdir i fh off 0 s = (s', Ok es) /\ ok s').
Context (looks_up : forall s names, ok s -> exists s' rs, lookup_many i names s = (s', Ok rs) /\ length rs = length names /\ ok s').

Lemma page_spec off room s : ok s -> 0 <= off -> exists s' out,
  readdirplus cfg i fh off room s = (s', RDirectoryPlus out) /\ ok s' /\
  map name_ino out = take room (map (fun e => (d_name e, d_ino e)) (dropZ off es)) /\
  map cookie out = map (fun k => off + Z.of_nat k + 1) (seq 0 (room `min` length (dropZ off es))).
Proof using lists looks_up.
  intros Hs Ho. unfold readdirplus. destruct (lists s off Hs) as (s1 & -> & Hs1).
  destruct (looks_up s1 (map d_name (dropZ off es)) Hs1) as (s2 & rs & -> & Hl & Hs2). rewrite length_map in Hl.
  eexists s2, _. split; [done|]. split; [done|]. rewrite <-!firstn_map, imap_names, imap_cookies by done. split; [done|].
  rewrite firstn_map, length_zip_with_l_eq by done. by rewrite take_seq.
Qed.

(** Scanning a directory.  Reading on from the last cookie until an empty
    reply lists every entry of the handle's snapshot once, in order, with its
    inode, however many entries each reply had room for. *)
Theorem scan_complete fuel rooms s : ok s -> (forall k, 0 < rooms k)%nat -> (length es < fuel)%nat ->
  map name_ino (snd (scan cfg fuel rooms i fh 0 s)) = map (fun e => (d_name e, d_ino e)) es.
Proof using lists looks_up.
  intros Hs Hr. assert (forall fuel off s, ok s -> 0 <= off <= lenZ es -> (lenZ es - off < Z.of_nat fuel) ->
    map name_ino (snd (scan cfg fuel rooms i fh off s)) = map (fun e => (d_name e, d_ino e)) (dropZ off es)) as H;
    [|intros Hf; apply (H fuel 0 s Hs); unfold lenZ; lia].
  clear fuel s Hs. induction fuel as [|fuel IH]; intros off s Hs Ho Hf; [lia|]. cbn [scan].
  destruct (page_spec off (rooms fuel) s Hs ltac:(lia)) as (s1 & out & -> & Hs1 & Hn & Hc).
  change (fun e : Z * Z * string * Z * FileAttr => snd (fst (fst (fst e)))) with cookie. rewrite Hc.
  pose proof (lenZ_dropZ off es ltac:(lia)) as Hld. specialize (Hr fuel). revert Hn.
  destruct (rooms fuel `min` length (dropZ off es))%nat as [|m] eqn:Em.
  - intros Hn. assert (dropZ off es = []) as Ee by (apply nil_length_inv; lia). rewrite Ee in *. cbn in *.
    rewrite Hn. by rewrite take_nil.
  - rewrite last_seq. intros Hn. remember (off + Z.of_nat m + 1) as c eqn:Ed.
    assert (0 < c <= lenZ es) as Hcr by (unfold lenZ in *; lia).
    destruct c as [|c'|c'] eqn:Ec; [lia| |lia]. rewrite <-Ec in *. clear Ec c'.
    specialize (IH c s1 Hs1 ltac:(lia) ltac:(lia)).
    destruct (scan cfg fuel rooms i fh c s1) as [s2 rest]. cbn in IH |- *. rewrite map_app, Hn, IH.
    etrans; [|apply (take_drop (rooms fuel))]. f_equal.
    rewrite skipn_map. f_equal.
    destruct (decide (rooms fuel <= length (dropZ off es))%nat) as [Hle|Hgt].
    + assert (rooms fuel = Datatypes.S m) as -> by lia. unfold dropZ. rewrite drop_drop. f_equal. lia.
    + transitivity (@nil CoreDirEntry); [|symmetry]; apply nil_length_inv.
      * pose proof (lenZ_dropZ c es ltac:(lia)). unfold lenZ in *. lia.
      * rewrite length_drop. lia.
Qed.
End Laws.

(** ** On the in-memory file system *)
Section Witness.
Import CoreFs.Memory.
#[local] Instance mem_fs : CoreFilesystem mem := with_defaults.
Definition three_files : mem := {[ 2 := as_bytes "a"; 3 := as_bytes "bc"; 5 := [] ]}.
Definition plain : FuserAdapter := mk_fuser 60000000000 1000000000 false false 131072.
Definition listing_of (m : mem) : list CoreDirEntry :=
  (fun kv => mk_dirent (fst kv) RegularFile (pretty.pretty (fst kv))) <$> map_to_list m.

Lemma mem_looks_up s (i : Z) names : s = three_files ->
  exists s' rs, lookup_many i names s = (s', Ok rs) /\ length rs = length names /\ s' = three_files.
Proof using.
  intros ->. change (lookup_many i names three_files) with (default_lookup_many i names three_files).
  exists three_files. induction names as [|n names IH]; [by exists []|]. destruct IH as (rs & E & Hl & _).
  exists (Err missing :: rs). cbn [default_lookup_many]. unfold mbind, act_bind, attempt. cbn [CoreFs.lookup core_required mem_fs with_defaults mem_required].
  unfold throw. rewrite E. cbn. auto.
Qed.
Lemma scan_complete_witness :
  map name_ino (snd (scan plain 4 (fun _ => 2%nat) 1 0 0 three_files)) = [("5", 5); ("3", 3); ("2", 2)]%string.
Proof using.
  rewrite (scan_complete plain (fun s => s = three_files) 1 0 (listing_of three_files)).
  - by vm_compute.
  - intros s off ->. by exists three_files.
  - intros s names Hs. by apply mem_looks_up.
  - by vm_compute.
  - intros k. lia.
  - vm_compute. lia.
Defined.
End Witness.
End Fuser.
