(* ===== verification/Metrics.v ===== *)
(** * Metrics: operation counters and histograms of src/src/metrics.rs

    One counter and one histogram per FUSE operation, the cache counters, and
    the text exposition.  An atomic is its value; [fetch_add] wraps. *)

From Stdlib Require Import ZArith Lia Sorting.Sorted Strings.String Strings.Ascii.
From stdpp Require Import pretty.
From S2P Require Import Prelude Util.

Module Metrics.

(** ** Data *)
Inductive FuseOp :=
| Lookup | Getattr | Setattr | Read | Write | Readdir | Readdirplus
| Create | Unlink | Rename | Flush | Release | Fsync | Other.
#[export] Instance FuseOp_eq_dec : EqDecision FuseOp.
Proof. solve_decision. Defined.
Definition as_str (op : FuseOp) : string :=
  match op with
  | Lookup => "lookup" | Getattr => "getattr" | Setattr => "setattr" | Read => "read" | Write => "write"
  | Readdir => "readdir" | Readdirplus => "readdirplus" | Create => "create" | Unlink => "unlink"
  | Rename => "rename" | Flush => "flush" | Release => "release" | Fsync => "fsync" | Other => "other"
  end.
Definition all_ops : list FuseOp :=
  [Lookup; Getattr; Setattr; Read; Write; Readdir; Readdirplus; Create; Unlink; Rename; Flush; Release; Fsync; Other].

Record OpCounter := mk_counter { ok : Z; err : Z }.
Definition new_counter : OpCounter := mk_counter 0 0.
Definition fetch_add (x : Z) : Z := wrap64 (x + 1).
Definition record_ok (c : OpCounter) : OpCounter := mk_counter (fetch_add (ok c)) (err c).
Definition record_err (c : OpCounter) : OpCounter := mk_counter (ok c) (fetch_add (err c)).

Definition buckets_us : list Z :=
  [10; 100; 1000; 10000; 100000; 1000000; 10000000; 100000000; 1000000000; U64_MAX].
Record OpHistogram := mk_hist { bucket_counts : list Z; count : Z; sum_us : Z }.
Definition new_hist : OpHistogram := mk_hist (replicate 10 0) 0 0.
(** [d]: the duration in microseconds, a [u128]. *)
Definition observe (h : OpHistogram) (d : Z) : OpHistogram :=
  let us := wrap64 d in
  mk_hist (zip_with (fun b c => if us <=? b then fetch_add c else c) buckets_us (bucket_counts h))
    (fetch_add (count h)) (saturating_add (sum_us h) us).

(** The fields of an operation are found by its name. *)
Record Metrics := mk_metrics {
  counter : FuseOp -> OpCounter; hist : FuseOp -> OpHistogram; writeback_pending_gauge : Z;
  cache_l1_hit : Z; cache_l1_miss : Z; cache_l2_hit : Z; cache_l2_miss : Z
}.
Definition new : Metrics := mk_metrics (fun _ => new_counter) (fun _ => new_hist) 0 0 0 0 0.
Definition upd {A} (f : FuseOp -> A) (op : FuseOp) (x : A) (o : FuseOp) : A := if decide (o = op) then x else f o.

Definition record_cache_hit (level : string) (m : Metrics) : Metrics :=
  if String.eqb level "l1" then
    mk_metrics (counter m) (hist m) (writeback_pending_gauge m) (fetch_add (cache_l1_hit m)) (cache_l1_miss m) (cache_l2_hit m) (cache_l2_miss m)
  else if String.eqb level "l2" then
    mk_metrics (counter m) (hist m) (writeback_pending_gauge m) (cache_l1_hit m) (cache_l1_miss m) (fetch_add (cache_l2_hit m)) (cache_l2_miss m)
  else m.
Definition record_cache_miss (level : string) (m : Metrics) : Metrics :=
  if String.eqb level "l1" then
    mk_metrics (counter m) (hist m) (writeback_pending_gauge m) (cache_l1_hit m) (fetch_add (cache_l1_miss m)) (cache_l2_hit m) (cache_l2_miss m)
  else if String.eqb level "l2" then
    mk_metrics (counter m) (hist m) (writeback_pending_gauge m) (cache_l1_hit m) (cache_l1_miss m) (cache_l2_hit m) (fetch_add (cache_l2_miss m))
  else m.
Definition record (op : FuseOp) (duration : Z) (success : bool) (m : Metrics) : Metrics :=
  mk_metrics (upd (counter m) op ((if success then record_ok else record_err) (counter m op)))
    (upd (hist m) op (observe (hist m op) duration)) (writeback_pending_gauge m)
    (cache_l1_hit m) (cache_l1_miss m) (cache_l2_hit m) (cache_l2_miss m).

(** ** The exposition, as its lines *)
Definition dec (z : Z) : string := pretty (Z.to_N z).
Definition quoted (s : string) : string := String "034"%char (s +:+ String "034"%char EmptyString).
Definition label (k v : string) : string := k +:+ "=" +:+ quoted v.
Definition sample (name : string) (labels : list string) (v : Z) : string :=
  name +:+ (match labels with [] => "" | _ => "{" +:+ String.concat "," labels +:+ "}" end) +:+ " " +:+ dec v.
Definition counter_lines (m : Metrics) (op : FuseOp) : list string :=
  [sample "fuse_request_total" [label "op" (as_str op); label "result" "ok"] (ok (counter m op));
   sample "fuse_request_total" [label "op" (as_str op); label "result" "err"] (err (counter m op))].
Definition le_of (b : Z) : string := if b =? U64_MAX then "+Inf" else dec b.
Definition hist_lines (m : Metrics) (op : FuseOp) : list string :=
  let h := hist m op in
  zip_with (fun b c => sample "fuse_request_duration_microseconds_bucket" [label "op" (as_str op); label "le" (le_of b)] c)
    buckets_us (bucket_counts h) ++
  [sample "fuse_request_duration_microseconds_count" [label "op" (as_str op)] (count h);
   sample "fuse_request_duration_microseconds_sum" [label "op" (as_str op)] (sum_us h)].
Definition head (name help kind : string) : list string :=
  ["# HELP " +:+ name +:+ " " +:+ help; "# TYPE " +:+ name +:+ " " +:+ kind].
Definition snapshot (m : Metrics) : list string :=
  head "fuse_request_total" "FUSE operations by op + result" "counter" ++
  (all_ops ≫= counter_lines m) ++
  head "fuse_request_duration_microseconds" "FUSE op duration" "histogram" ++
  (all_ops ≫= hist_lines m) ++
  head "writeback_pending" "In-flight writeback tasks" "gauge" ++
  [sample "writeback_pending" [] (writeback_pending_gauge m)] ++
  head "cache_hits_total" "Cache hits by level" "counter" ++
  [sample "cache_hits_total" [label "level" "l1"] (cache_l1_hit m);
   sample "cache_hits_total" [label "level" "l2"] (cache_l2_hit m)] ++
  head "cache_misses_total" "Cache misses by level" "counter" ++
  [sample "cache_misses_total" [label "level" "l1"] (cache_l1_miss m);
   sample "cache_misses_total" [label "level" "l2"] (cache_l2_miss m)].

(** ** Properties *)
(** How many of the durations [us] are at most [b]. *)
Definition at_most (b : Z) (us : list Z) : Z := lenZ (filter (fun u => u <= b) us).
Definition histogram_of (us : list Z) : OpHistogram :=
  mk_hist (map (fun b => wrap64 (at_most b us)) buckets_us) (wrap64 (lenZ us)) (Z.min (sumZ us) U64_MAX).

Lemma at_most_snoc b us u : at_most b (us ++ [u]) = at_most b us + if u <=? b then 1 else 0.
Proof.
  unfold at_most. rewrite filter_app, lenZ_app. f_equal. cbn. unfold filter; cbn.
  destruct (decide (u <= b)) as [H|H]; destruct (Z.leb_spec u b); try lia; done.
Qed.
Lemma fetch_add_wrap x : fetch_add (wrap64 x) = wrap64 (x + 1).
Proof. apply wrap64_add_l. Qed.
Lemma observe_histogram_of us u : 0 <= u <= U64_MAX -> Forall (fun x => 0 <= x) us ->
  observe (histogram_of us) u = histogram_of (us ++ [u]).
Proof.
  intros Hu Hus. unfold observe, histogram_of. cbn [bucket_counts count sum_us].
  rewrite (wrap64_small u) by done. f_equal.
  - rewrite zip_with_fmap_r, zip_with_diag. apply map_ext. intros b. rewrite at_most_snoc.
    destruct (u <=? b); [by rewrite fetch_add_wrap|by rewrite Z.add_0_r].
  - rewrite fetch_add_wrap, lenZ_app. done.
  - unfold saturating_add. rewrite sumZ_app. cbn. pose proof (sumZ_nonneg us Hus). lia.
Qed.

Lemma observe_all us : Forall is_u64 us -> foldl observe new_hist us = histogram_of us.
Proof.
  induction us as [|u us IH] using rev_ind; intros Hus; [done|]. apply Forall_app in Hus as [Hus Hu].
  rewrite foldl_app, IH by done. cbn. apply observe_histogram_of; [by inversion Hu|].
  eapply Forall_impl; [exact Hus|]. unfold is_u64. lia.
Qed.
Lemma at_most_mono b b' us : b <= b' -> 0 <= at_most b us <= at_most b' us.
Proof.
  intros Hb. induction us as [|u us IH] using rev_ind; [done|]. rewrite !at_most_snoc.
  destruct (Z.leb_spec u b), (Z.leb_spec u b'); lia.
Qed.
Lemma at_most_all us : Forall is_u64 us -> at_most U64_MAX us = lenZ us.
Proof.
  intros Hus. unfold at_most. f_equal. induction Hus as [|u us [_ Hu] _ IH]; [done|].
  rewrite filter_cons. destruct (decide (u <= U64_MAX)); [by f_equal|done].
Qed.

(** A histogram counts.  After observing durations of [us] microseconds,
    each bucket holds the number of durations at most its bound and the sum is
    the saturated sum of the durations; below 2^64 observations the buckets are
    cumulative, and the last one holds every observation, as many as the count
    says. *)
Theorem histogram_exact us : Forall is_u64 us ->
  let h := foldl observe new_hist us in
  h = histogram_of us /\
  (lenZ us < 2 ^ 64 ->
   StronglySorted Z.le (bucket_counts h) /\ List.last (bucket_counts h) 0 = count h /\ count h = lenZ us).
Proof.
  intros Hus. cbn zeta. rewrite observe_all by done. split; [done|]. intros Hn.
  cbn [histogram_of bucket_counts count]. pose proof (at_most_all us Hus) as Hall. pose proof (lenZ_nonneg us).
  assert (forall b, b <= U64_MAX -> wrap64 (at_most b us) = at_most b us) as Hw.
  { intros b Hb. apply wrap64_small. pose proof (at_most_mono b U64_MAX us Hb). unfold is_u64, U64_MAX in *. lia. }
  rewrite (wrap64_small (lenZ us)) by (unfold is_u64, U64_MAX; lia).
  split; [|by cbn; rewrite Hw, Hall by done].
  unfold buckets_us. cbn [map]. rewrite !Hw by (unfold U64_MAX; lia).
  repeat (constructor; [|repeat (constructor; [apply at_most_mono; unfold U64_MAX; lia|]); constructor]). constructor.
Qed.
Lemma histogram_exact_witness :
  foldl observe new_hist [7; 4000; 90] = mk_hist [1; 2; 2; 3; 3; 3; 3; 3; 3; 3] 3 4097.
Proof.
  destruct (histogram_exact [7; 4000; 90]) as [H _]; [repeat constructor; unfold U64_MAX; lia|].
  etrans; [exact H|by vm_compute].
Defined.

(** Everything that moves the registry. *)
Inductive event := Op (op : FuseOp) (d : Z) (success : bool) | Hit (level : string) | Miss (level : string).
Definition apply (m : Metrics) (e : event) : Metrics :=
  match e with Op op d b => record op d b m | Hit l => record_cache_hit l m | Miss l => record_cache_miss l m end.

(** The number of recorded calls of [op] with outcome [b]. *)
Definition calls (op : FuseOp) (b : bool) (es : list event) : Z :=
  lenZ (List.filter (fun e => match e with Op o _ c => bool_decide (o = op) && Bool.eqb c b | _ => false end) es).
Definition durations (op : FuseOp) (es : list event) : list Z :=
  omap (fun e => match e with Op o d _ => if bool_decide (o = op) then Some d else None | _ => None end) es.

Lemma calls_snoc op b es e : calls op b (es ++ [e]) =
  calls op b es + match e with Op o _ c => if bool_decide (o = op) && Bool.eqb c b then 1 else 0 | _ => 0 end.
Proof.
  unfold calls. rewrite List.filter_app, lenZ_app. f_equal. destruct e as [o d c|l|l]; [|done|done]. cbn.
  by destruct (bool_decide (o = op) && Bool.eqb c b).
Qed.
(** The registry keeps operations apart.  After any run each counter is the
    number of calls of its operation with its outcome, and each histogram has
    observed the durations of its operation and nothing else. *)
Theorem registry_exact es op :
  let m := foldl apply new es in
  ok (counter m op) = wrap64 (calls op true es) /\ err (counter m op) = wrap64 (calls op false es) /\
  hist m op = foldl observe new_hist (durations op es).
Proof.
  cbn zeta. induction es as [|e es (IHo & IHe & IHh)] using rev_ind; [done|].
  rewrite foldl_app, !calls_snoc. unfold durations. rewrite omap_app, foldl_app. cbn [foldl]. fold (durations op es).
  destruct e as [o d c|l|l]; cbn [apply].
  - unfold record, upd. cbn [counter hist omap]. cbn. destruct (decide (op = o)) as [->|Hne].
    + rewrite bool_decide_true by done. destruct c; cbn; rewrite ?IHo, ?IHe, ?IHh, ?Z.add_0_r, ?fetch_add_wrap; done.
    + rewrite bool_decide_false by congruence. cbn. by rewrite !Z.add_0_r.
  - unfold record_cache_hit. cbn. rewrite !Z.add_0_r. by repeat case_test.
  - unfold record_cache_miss. cbn. rewrite !Z.add_0_r. by repeat case_test.
Qed.

(** No operation of the registry writes the gauge: the exposition reports no
    pending upload whatever is pending. *)
Theorem gauge_never_moves es : sample "writeback_pending" [] 0 ∈ snapshot (foldl apply new es).
Proof.
  assert (writeback_pending_gauge (foldl apply new es) = 0) as E.
  { induction es as [|e es IH] using rev_ind; [done|]. rewrite foldl_app. destruct e; cbn; unfold record_cache_hit, record_cache_miss; by repeat case_test. }
  unfold snapshot. rewrite E. set_solver.
Qed.
End Metrics.
