(* ===== verification/Mounts.v ===== *)
(** * Mounts: the mount registry and the mount and unmount commands

    Models src/src/cmd/mount.rs (registry, mount point detection, sessions,
    [mount_internal], [unmount_internal]), src/src/cmd/unmount.rs and
    src/src/cmd/list.rs.  Texts are byte strings. *)

From Stdlib Require Import ZArith Lia Strings.Byte Strings.String Strings.Ascii.
From S2P Require Import Prelude Util.

(** ** The registry file [mounts.txt] *)
Module Db.

Definition NUL : ascii := "000"%char.
Definition LF : ascii := "010"%char.
Definition CR : ascii := "013"%char.

(** [str::lines]: a line ends at LF, with a CR before it; an empty last piece
    is no line. *)
Definition strip_cr (l : string) : string := default l (Str.strip_suffix (String CR EmptyString) l).
Fixpoint lines_of (pieces : list string) : list string :=
  match pieces with
  | [] => []
  | [p] => if String.eqb p EmptyString then [] else [p]
  | p :: ps => strip_cr p :: lines_of ps
  end.
Definition lines (s : string) : list string := lines_of (Str.split LF s).
Definition one (a : ascii) : string := String a EmptyString.

(** [PathBuf::join] with a relative component. *)
Definition join (p q : string) : string :=
  if String.eqb p EmptyString then q
  else match Str.strip_suffix "/" p with Some _ => p +:+ q | None => p +:+ "/" +:+ q end.
(** [util::data_dir]. *)
Definition data_dir (xdg_data_home home : option string) : option string :=
  match xdg_data_home with
  | Some v => if String.eqb v EmptyString then (fun h => join (join h ".local") "share") <$> home else Some v
  | None => (fun h => join (join h ".local") "share") <$> home
  end.
Definition mounts_db_path (xdg_data_home home : option string) : string :=
  match data_dir xdg_data_home home with
  | Some dir => join (join dir "mntrs") "mounts.txt"
  | None => default "/tmp" home +:+ "/.local/share/mntrs/mounts.txt"
  end.

Record MountInfo := mk_info {
  storage : string; mountpoint : string; pid : string; user : string; read_only : bool; backend : string
}.
Definition parse_line (l : string) : option MountInfo :=
  match Str.split NUL l with
  | s :: m :: p :: u :: ro :: b :: _ =>
      if String.eqb p EmptyString || String.eqb s EmptyString || String.eqb m EmptyString then None
      else Some (mk_info s m p u (String.eqb ro "ro") b)
  | _ => None
  end.
(** [db]: the file, [None] if it cannot be read. *)
Definition read_mounts (db : option string) : list MountInfo :=
  match db with Some c => omap parse_line (lines c) | None => [] end.

Section Update.
(** [canonicalize_mountpoint] asks the file system; [redact] parses the URL. *)
Context (canonicalize redact : string -> string).

Definition other_mount (canon l : string) : bool := negb (bool_decide (Str.split NUL l !! 1%nat = Some canon)).
Definition mount_row (st mp process login : string) (ro : bool) : string :=
  String.concat (one NUL)
    [redact st; canonicalize mp; process; login; (if ro then "ro" else "rw"); hd "?" (Str.split ":" st)].
(** The new text of [record_mount] and of [remove_mount]. *)
Definition recorded (st mp process login : string) (ro : bool) (db : option string) : string :=
  let kept := match db with Some c => List.filter (other_mount (canonicalize mp)) (lines c) | None => [] end in
  String.concat (one LF) (mount_row st mp process login ro :: kept) +:+ one LF.
Definition removed (mp c : string) : string :=
  String.concat (one LF) (List.filter (other_mount (canonicalize mp)) (lines c)).

(** The text goes to a file named after the process and is renamed over the
    registry; [write_ok] and [rename_ok] are the outcomes. *)
Definition record_mount (write_ok rename_ok : bool) (st mp process login : string) (ro : bool) (db : option string)
  : option string :=
  if write_ok && rename_ok then Some (recorded st mp process login ro db) else db.
Definition remove_mount (write_ok rename_ok : bool) (mp : string) (db : option string) : option string :=
  match db with
  | Some c => if write_ok && rename_ok then Some (removed mp c) else db
  | None => None
  end.
End Update.

(** [list]: one row per mount. *)
Definition shown (m : MountInfo) : string * string * string * string * string * string :=
  (storage m, mountpoint m, (if String.eqb (pid m) EmptyString then "?" else pid m)%string,
   (if String.eqb (user m) EmptyString then "?" else user m)%string, (if read_only m then "ro" else "rw")%string, backend m).
Definition list_mounts (db : option string) : list (string * string * string * string * string * string) :=
  map shown (read_mounts db).

(** *** Reading back what was written *)
Definition clean (s : string) : Prop := Str.free_of NUL s /\ Str.free_of LF s /\ Str.free_of CR s.

Lemma split_free_of c d s : Str.free_of d s -> Forall (Str.free_of d) (Str.split c s).
Proof.
  induction s as [|a s IH]; intros H; cbn; [by repeat constructor|]. apply Str.free_of_cons in H as [Ha Hs].
  specialize (IH Hs). destruct (ascii_dec a c); [by constructor|].
  destruct (Str.split c s) as [|x xs]; [by repeat constructor; apply Str.free_of_cons|].
  inversion IH; subst. constructor; [by apply Str.free_of_cons|done].
Qed.
Lemma strip_cr_free l : Str.free_of CR l -> strip_cr l = l.
Proof.
  intros H. unfold strip_cr. destruct (Str.strip_suffix (String CR EmptyString) l) as [t|] eqn:E; [|done].
  apply Str.strip_suffix_Some in E. subst l. exfalso. induction t as [|a t IH]; [done|].
  rewrite Str.append_cons in H. apply Str.free_of_cons in H as [_ H]. by apply IH.
Qed.
Lemma lines_of_in ps l : Forall (Str.free_of CR) ps -> l ∈ lines_of ps -> l ∈ ps.
Proof.
  induction ps as [|p ps IH]; intros H Hl; [done|]. inversion H as [|? ? Hp Hps]; subst.
  destruct ps as [|q ps]; [cbn in Hl; case_test_in Hl; [by apply not_elem_of_nil in Hl|done]|].
  change (l ∈ strip_cr p :: lines_of (q :: ps)) in Hl. rewrite strip_cr_free in Hl by done.
  apply elem_of_cons in Hl as [->|Hl]; [by left|]. right. by apply IH.
Qed.
Lemma lines_free c : Str.free_of CR c -> Forall (fun l => Str.free_of LF l /\ Str.free_of CR l) (lines c).
Proof.
  intros H. apply Forall_forall. intros l Hl. apply lines_of_in in Hl; [|by apply split_free_of].
  split; [exact (proj1 (Forall_forall _ _) (Str.split_pieces_free LF c) l Hl)|].
  exact (proj1 (Forall_forall _ _) (split_free_of LF CR c H) l Hl).
Qed.
Lemma concat_cons sep x y l : String.concat sep (x :: y :: l) = x +:+ sep +:+ String.concat sep (y :: l).
Proof. done. Qed.
Lemma split_concat c l : Forall (Str.free_of c) l -> l <> [] -> Str.split c (String.concat (one c) l) = l.
Proof.
  induction l as [|x l IH]; intros H Hn; [done|]. inversion H as [|? ? Hx Hl]; subst.
  destruct l as [|y l]; [by apply Str.split_free|].
  rewrite concat_cons. change (one c +:+ String.concat (one c) (y :: l)) with (String c (String.concat (one c) (y :: l))).
  rewrite Str.split_app by done. f_equal. by apply IH.
Qed.
Lemma concat_free c d l : d <> c -> Forall (Str.free_of d) l -> Str.free_of d (String.concat (one c) l).
Proof.
  intros Hne. induction l as [|x l IH]; intros H; [done|]. inversion H as [|? ? Hx Hl]; subst. specialize (IH Hl).
  destruct l as [|y l]; [done|]. rewrite concat_cons. apply Str.free_of_app; [done|].
  apply Str.free_of_app; [by apply Str.free_of_cons|done].
Qed.

(** What [lines] gives for joined lines, up to a trailing empty line. *)
Lemma parse_lines_of ls : Forall (Str.free_of CR) ls -> omap parse_line (lines_of ls) = omap parse_line ls.
Proof.
  induction ls as [|l ls IH]; intros H; [done|]. inversion H as [|? ? Hl Hls]; subst. destruct ls as [|k ls].
  - cbn -[parse_line]. destruct (String.eqb_spec l EmptyString) as [->|]; done.
  - change (lines_of (l :: k :: ls)) with (strip_cr l :: lines_of (k :: ls)). rewrite strip_cr_free by done.
    cbn [omap list_omap]. by rewrite IH.
Qed.
Lemma read_joined ls : Forall (fun l => Str.free_of LF l /\ Str.free_of CR l) ls ->
  omap parse_line (lines (String.concat (one LF) ls)) = omap parse_line ls.
Proof.
  intros H. destruct ls as [|l ls]; [done|]. unfold lines.
  rewrite split_concat; [|by eapply Forall_impl; [exact H|]; intros ? []|done].
  apply parse_lines_of. by eapply Forall_impl; [exact H|]; intros ? [].
Qed.
Lemma concat_snoc sep ls : ls <> [] -> String.concat sep ls +:+ sep = String.concat sep (ls ++ [EmptyString]).
Proof.
  induction ls as [|x ls IH]; intros Hn; [done|]. destruct ls as [|y ls].
  - cbn. by rewrite Str.append_nil_r.
  - rewrite concat_cons. cbn [app]. rewrite concat_cons, !Str.append_assoc, IH by done. done.
Qed.
Lemma read_joined_lf ls : ls <> [] -> Forall (fun l => Str.free_of LF l /\ Str.free_of CR l) ls ->
  omap parse_line (lines (String.concat (one LF) ls +:+ one LF)) = omap parse_line ls.
Proof.
  intros Hn H. rewrite concat_snoc by done. rewrite read_joined by (apply Forall_app; split; [done|by repeat constructor]).
  rewrite omap_app. cbn. by rewrite app_nil_r.
Qed.

(** The filter on lines is the filter on rows. *)
Definition elsewhere (canon : string) (m : MountInfo) : bool := negb (String.eqb (mountpoint m) canon).
Lemma parse_line_mount l m : parse_line l = Some m -> Str.split NUL l !! 1%nat = Some (mountpoint m).
Proof.
  unfold parse_line. destruct (Str.split NUL l) as [|a [|b [|c [|d [|e [|f r]]]]]]; try done.
  case_test; [done|]. by intros [= <-].
Qed.
Lemma filter_rows canon ls : omap parse_line (List.filter (other_mount canon) ls)
  = List.filter (elsewhere canon) (omap parse_line ls).
Proof.
  induction ls as [|l ls IH]; [done|]. cbn [List.filter omap list_omap].
  destruct (parse_line l) as [m|] eqn:E.
  - apply parse_line_mount in E as E2. unfold other_mount at 1. rewrite E2. cbn [List.filter].
    destruct (String.eqb_spec (mountpoint m) canon) as [<-|Hne].
    + rewrite bool_decide_true by done. unfold elsewhere at 1. rewrite String.eqb_refl. cbn. exact IH.
    + rewrite bool_decide_false by congruence. cbn [negb omap list_omap]. rewrite E.
      unfold elsewhere at 1. destruct (String.eqb_spec (mountpoint m) canon); [done|]. cbn. by rewrite IH.
  - destruct (other_mount canon l); cbn [omap list_omap]; rewrite ?E; exact IH.
Qed.

(** *** The registry refines a list of rows *)
Inductive op :=
| Record (st mp process login : string) (ro : bool)
| Remove (mp : string).
(** An operation and the outcomes of its write and its rename. *)
Record command := mk_command { what : op; write_ok : bool; rename_ok : bool }.

Section Refinement.
Context (canonicalize redact : string -> string).

Definition row_of (st mp process login : string) (ro : bool) : MountInfo :=
  mk_info (redact st) (canonicalize mp) process login ro (hd "?"%string (Str.split ":" st)).
(** What an operation has to do: a recorded row replaces the one of its mount
    point and comes first.  One whose write or rename fails does nothing. *)
Definition spec (rows : list MountInfo) (c : command) : list MountInfo :=
  if write_ok c && rename_ok c then
    match what c with
    | Record st mp process login ro => row_of st mp process login ro :: List.filter (elsewhere (canonicalize mp)) rows
    | Remove mp => List.filter (elsewhere (canonicalize mp)) rows
    end
  else rows.
(** One command after the other. *)
Definition apply (db : option string) (c : command) : option string :=
  match what c with
  | Record st mp process login ro =>
      record_mount canonicalize redact (write_ok c) (rename_ok c) st mp process login ro db
  | Remove mp => remove_mount canonicalize (write_ok c) (rename_ok c) mp db
  end.

Definition good (o : op) : Prop :=
  match o with
  | Record st mp process login ro =>
      clean (redact st) /\ clean (canonicalize mp) /\ clean process /\ clean login /\ clean (hd "?"%string (Str.split ":" st)) /\
      redact st <> EmptyString /\ canonicalize mp <> EmptyString /\ process <> EmptyString
  | Remove _ => True
  end.
Definition tidy (db : option string) : Prop := match db with Some c => Str.free_of CR c | None => True end.

Lemma row_parses st mp process login ro : good (Record st mp process login ro) ->
  parse_line (mount_row canonicalize redact st mp process login ro) = Some (row_of st mp process login ro).
Proof using.
  intros (Hs & Hm & Hp & Hl & Hb & Hs0 & Hm0 & Hp0). unfold parse_line, mount_row.
  rewrite split_concat; [|by repeat constructor; try apply Hs; try apply Hm; try apply Hp; try apply Hl; try apply Hb; destruct ro|done].
  apply String.eqb_neq in Hs0, Hm0, Hp0. rewrite Hs0, Hm0, Hp0. cbn. unfold row_of. by destruct ro.
Qed.
Lemma row_free st mp process login ro : good (Record st mp process login ro) ->
  Str.free_of LF (mount_row canonicalize redact st mp process login ro) /\
  Str.free_of CR (mount_row canonicalize redact st mp process login ro).
Proof using.
  intros (Hs & Hm & Hp & Hl & Hb & _). unfold clean in *.
  split; apply concat_free; [done| |done|]; repeat (constructor; [first [tauto|by destruct ro]|]); constructor.
Qed.
Lemma kept_free canon c : Str.free_of CR c ->
  Forall (fun l => Str.free_of LF l /\ Str.free_of CR l) (List.filter (other_mount canon) (lines c)).
Proof using.
  intros H. apply lines_free in H. apply Forall_forall. intros l Hl.
  apply list_elem_of_In, List.filter_In in Hl as [Hl _]. apply list_elem_of_In in Hl.
  exact (proj1 (Forall_forall _ _) H l Hl).
Qed.
Lemma step_refines db c : tidy db -> good (what c) ->
  read_mounts (apply db c) = spec (read_mounts db) c /\ tidy (apply db c).
Proof using.
  intros Ht Hg. destruct c as [o w r]. unfold spec, apply. cbn [what write_ok rename_ok] in *.
  destruct (w && r) eqn:Ew; [|by destruct o; unfold record_mount, remove_mount; rewrite Ew; [|destruct db]].
  apply andb_true_iff in Ew as [-> ->]. destruct o as [st mp process login ro|mp].
  - unfold record_mount. cbn [andb]. unfold recorded.
    set (kept := match db with Some c => _ | None => [] end).
    assert (Forall (fun l => Str.free_of LF l /\ Str.free_of CR l) (mount_row canonicalize redact st mp process login ro :: kept)) as Hf.
    { constructor; [by apply row_free|]. destruct db; [by apply kept_free|constructor]. }
    split; [|apply Str.free_of_app; [|done]; apply concat_free; [done|]; eapply Forall_impl; [exact Hf|]; by intros ? []].
    cbn [read_mounts]. rewrite read_joined_lf by done. cbn [omap list_omap]. rewrite row_parses by done. f_equal.
    subst kept. destruct db as [c|]; [apply filter_rows|done].
  - destruct db as [c|]; [|done]. cbn [remove_mount andb]. unfold removed. cbn [read_mounts tidy].
    pose proof (kept_free (canonicalize mp) c Ht) as Hf. split.
    + rewrite read_joined by done. apply filter_rows.
    + apply concat_free; [done|]. eapply Forall_impl; [exact Hf|]. by intros ? [].
Qed.

(** C38: the registry of mounts refines a list of rows.  After any sequence of
    mounts and unmounts, one after the other, reading the file gives one row per
    mount point, newest first, each with the fields its mount recorded; a mount
    or unmount whose write or rename of the registry failed left it as it was. *)
Theorem registry_refines ops : Forall (fun c => good (what c)) ops ->
  read_mounts (foldl apply None ops) = foldl spec [] ops /\
  NoDup (map mountpoint (foldl spec [] ops)).
Proof using.
  intros Hg. assert (forall db, tidy db -> read_mounts (foldl apply db ops) = foldl spec (read_mounts db) ops) as H.
  { induction Hg as [|o ops Ho Hops IH]; intros db Ht; [done|]. cbn [foldl].
    destruct (step_refines db o Ht Ho) as [E Ht']. by rewrite IH, E. }
  split; [by apply H|]. assert (forall rows, NoDup (map mountpoint rows) -> NoDup (map mountpoint (foldl spec rows ops))) as Hn.
  { clear Hg H. induction ops as [|o ops IH]; intros rows Hr; [done|]. cbn [foldl]. apply IH.
    assert (forall c, NoDup (map mountpoint (List.filter (elsewhere c) rows)) /\
      c ∉ map mountpoint (List.filter (elsewhere c) rows)) as Hf.
    { intros c. split.
      - eapply sublist_NoDup; [exact Hr|]. apply fmap_sublist. clear. induction rows as [|r rows IH]; [done|]. cbn.
        destruct (elsewhere c r); by constructor.
      - intros Hc. apply list_elem_of_In, in_map_iff in Hc as (r & <- & Hr'). apply List.filter_In in Hr' as [_ Hr'].
        unfold elsewhere in Hr'. by rewrite String.eqb_refl in Hr'. }
    destruct o as [[st mp process login ro|mp] [] []]; unfold spec; cbn; try done; [constructor; apply Hf|apply Hf]. }
  apply Hn. constructor.
Qed.
End Refinement.

Definition same (s : string) : string := s.
Definition completed (o : op) : command := mk_command o true true.
(** The second removal cannot write its file. *)
Definition some_commands : list command :=
  [completed (Record "s3://b" "/a" "7" "me" false); completed (Record "gs://c" "/c" "8" "me" true); completed (Remove "/a");
   mk_command (Remove "/c") false true; completed (Record "s3://d" "/d" "9" "me" false)].
Lemma registry_refines_witness :
  map mountpoint (read_mounts (foldl (apply same same) None
    some_commands))
  = ["/d"; "/c"]%string.
Proof.
  destruct (registry_refines same same
    some_commands)
    as [H _]; [by repeat constructor|]. etrans; [exact (f_equal _ H)|done].
Defined.

(** *** Commands of several processes
    Each reads the registry, writes its own file and renames it over the
    registry; nothing locks the registry in between. *)
Inductive pc := Start | Loaded (snapshot : option string) | Written (text : string) | Finished.
Definition text_of (canonicalize redact : string -> string) (snapshot : option string) (o : op) : option string :=
  match o with
  | Record st mp process login ro => Some (recorded canonicalize redact st mp process login ro snapshot)
  | Remove mp => removed canonicalize mp <$> snapshot
  end.
Definition step (canonicalize redact : string -> string) (s : option string * list (command * pc)) (i : nat)
  : option string * list (command * pc) :=
  let '(db, ps) := s in
  match ps !! i with
  | Some (c, Start) => (db, <[i := (c, Loaded db)]> ps)
  | Some (c, Loaded snap) =>
      (db, <[i := (c, match text_of canonicalize redact snap (what c) with
                      | Some t => if write_ok c then Written t else Finished
                      | None => Finished
                      end)]> ps)
  | Some (c, Written t) => (if rename_ok c then Some t else db, <[i := (c, Finished)]> ps)
  | _ => s
  end.
Definition run (canonicalize redact : string -> string) (s : option string * list (command * pc)) (sched : list nat)
  : option string * list (command * pc) := foldl (step canonicalize redact) s sched.

(** A mount that is recorded while another process is between its read and its
    rename is not in the registry afterwards. *)
Example concurrent_record_lost :
  let s := run same same (None, [(completed (Record "s3://a" "/a" "7" "me" false), Start); (completed (Record "s3://b" "/b" "8" "me" false), Start)])
             [0; 1; 0; 0; 1; 1]%nat in
  Forall (fun p => snd p = Finished) (snd s) /\ map mountpoint (read_mounts (fst s)) = ["/b"]%string.
Proof. vm_compute. by repeat constructor. Qed.
(** A line feed in a mount point splits its row, and the mount is not listed. *)
Example newline_not_listed :
  read_mounts (Some (recorded same same "s3://b" (String "m" (one LF)) "7" "me" false None)) = [].
Proof. by vm_compute. Qed.
End Db.

(** ** Hiding credentials ([util::redact_storage_url]) *)
Module Redact.
Import Db.
Record Url := mk_url { scheme : string; username : string; password : option string; host : option string; port : option Z; path : string }.

Section Redaction.
(** [parse], [print] and [set_host] are the url crate's; [set_host] refuses
    some hosts. *)
Context (parse : string -> option Url) (print : Url -> string) (set_host : string -> Url -> option Url).
Definition base : Url := mk_url "s3" "x" None (Some "x"%string) None "/".
Definition with_path (p : string) (u : Url) : Url := mk_url (scheme u) (username u) (password u) (host u) (port u) p.
Definition masked (u : Url) : Url := mk_url (scheme u) "***" None (host u) (port u) (path u).
Definition has_credentials (u : Url) : bool := negb (String.eqb (username u) EmptyString) || bool_decide (is_Some (password u)).
Definition redact_storage_url (s : string) : string :=
  match parse s with
  | Some u =>
      if has_credentials u then
        let z := match host u with Some h => default base (set_host h base) | None => base end in
        print (masked (with_path (path u) z))
      else s
  | None => s
  end.

(** Credentials do not reach the registry.  Two mounts of URLs that differ
    only in their credentials, and start with the same scheme, leave the same
    registry. *)
Theorem registry_hides_credentials canonicalize s1 s2 u1 u2 mp process login ro db :
  parse s1 = Some u1 -> parse s2 = Some u2 -> has_credentials u1 = true -> has_credentials u2 = true ->
  host u1 = host u2 -> path u1 = path u2 -> hd "?"%string (Str.split ":" s1) = hd "?"%string (Str.split ":" s2) ->
  recorded canonicalize redact_storage_url s1 mp process login ro db
  = recorded canonicalize redact_storage_url s2 mp process login ro db.
Proof using.
  intros H1 H2 C1 C2 Hh Hp Hs. unfold recorded, mount_row. rewrite Hs. do 3 f_equal.
  unfold redact_storage_url. rewrite H1, H2, C1, C2, Hh, Hp. done.
Qed.
(** A URL without credentials is left as it is. *)
Lemma redact_plain s u : parse s = Some u -> username u = EmptyString -> password u = None -> redact_storage_url s = s.
Proof using. intros H Hu Hp. unfold redact_storage_url, has_credentials. rewrite H, Hu, Hp. done. Qed.
(** Whatever the scheme and the port were, the redacted URL is an S3 one without
    a port. *)
Lemma redact_rewrites_scheme s u : parse s = Some u -> has_credentials u = true -> host u = None ->
  redact_storage_url s = print (mk_url "s3" "***" None (Some "x"%string) None (path u)).
Proof using. intros H Hc Hh. unfold redact_storage_url. rewrite H, Hc, Hh. done. Qed.
End Redaction.

Definition parse1 (s : string) : option Url :=
  if String.eqb s "sftp://u:a@h/p" then Some (mk_url "sftp" "u" (Some "a"%string) (Some "h"%string) None "/p")
  else if String.eqb s "sftp://v:b@h/p" then Some (mk_url "sftp" "v" (Some "b"%string) (Some "h"%string) None "/p") else None.
Definition print1 (u : Url) : string :=
  scheme u +:+ "://" +:+ username u +:+ "@" +:+ default EmptyString (host u) +:+ path u.
Definition set_host1 (h : string) (u : Url) : option Url :=
  Some (mk_url (scheme u) (username u) (password u) (Some h) (port u) (path u)).
Lemma registry_hides_credentials_witness :
  recorded same (redact_storage_url parse1 print1 set_host1) "sftp://u:a@h/p" "/m" "7" "me" false None
  = recorded same (redact_storage_url parse1 print1 set_host1) "sftp://v:b@h/p" "/m" "7" "me" false None.
Proof. by eapply registry_hides_credentials. Defined.
Example redacted_scheme_is_s3 : redact_storage_url parse1 print1 set_host1 "sftp://u:a@h/p" = "s3://***@h/p"%string.
Proof. done. Qed.
End Redact.

(** ** Is a path a mount point? *)
Module Detect.
Import Db.

(** The length of the white space [str::split_whitespace] sees at the head:
    ASCII white space, or the UTF-8 form of a Unicode one. *)
Definition code (a : ascii) : Z := Z.of_nat (nat_of_ascii a).
Definition ws_len (s : string) : nat :=
  match s with
  | EmptyString => 0
  | String a r =>
      let a := code a in
      if (a =? 32) || ((9 <=? a) && (a <=? 13)) then 1
      else match r with
      | EmptyString => 0
      | String b r =>
          let b := code b in
          if (a =? 0xC2) && ((b =? 0x85) || (b =? 0xA0)) then 2
          else match r with
          | EmptyString => 0
          | String c _ =>
              let c := code c in
              if ((a =? 0xE1) && (b =? 0x9A) && (c =? 0x80))
                 || ((a =? 0xE2) && (b =? 0x80) && (((0x80 <=? c) && (c <=? 0x8A)) || (c =? 0xA8) || (c =? 0xA9) || (c =? 0xAF)))
                 || ((a =? 0xE2) && (b =? 0x81) && (c =? 0x9F))
                 || ((a =? 0xE3) && (b =? 0x80) && (c =? 0x80)) then 3 else 0
          end
      end
  end.
(** [cur]: the field so far; [skip]: bytes of white space still to pass. *)
Fixpoint fields (skip : nat) (cur : string) (s : string) : list string :=
  match s with
  | EmptyString => if String.eqb cur EmptyString then [] else [cur]
  | String a r =>
      match skip with
      | S k => fields k cur r
      | O => match ws_len s with
             | O => fields 0 (cur +:+ one a) r
             | S k => (if String.eqb cur EmptyString then [] else [cur]) ++ fields k EmptyString r
             end
      end
  end.
Definition split_whitespace (s : string) : list string := fields 0 EmptyString s.
Fixpoint contains (needle s : string) : bool :=
  match Str.strip_prefix needle s with
  | Some _ => true
  | None => match s with EmptyString => false | String _ r => contains needle r end
  end.

Section Platforms.
Context (canonicalize : string -> string).
(** Linux: the second field of a line of /proc/mounts, [None] if that cannot
    be read. *)
Definition is_mount_point (proc_mounts : option string) (path : string) : bool :=
  match proc_mounts with
  | Some c => existsb (fun l => match split_whitespace l !! 1%nat with Some f => String.eqb f (canonicalize path) | None => false end) (lines c)
  | None => false
  end.
(** macOS: a line of mount(8). *)
Definition is_mount_point_macos (output : string) (path : string) : bool :=
  existsb (contains ("on " +:+ canonicalize path +:+ " (")) (lines output).
End Platforms.
(** Windows: [query k] is what the [k]th QueryDosDeviceW gives, [None] for
    success or the error code. *)
Definition IS_MOUNT_POINT_REPOLL_ATTEMPTS : nat := 5.
Fixpoint repoll (query : nat -> option Z) (attempt tries : nat) : bool :=
  match tries with
  | O => false
  | S tries => match query attempt with
              | None => true
              | Some e => if e =? 2 then repoll query (S attempt) tries else true
              end
  end.
Definition is_mount_point_windows (query : nat -> option Z) : bool := repoll query 0 IS_MOUNT_POINT_REPOLL_ATTEMPTS.

(** *** Properties *)
Definition ascii_ws (a : ascii) : bool := (code a =? 32) || ((9 <=? code a) && (code a <=? 13)).
Fixpoint any (p : ascii -> bool) (s : string) : bool :=
  match s with EmptyString => false | String a r => p a || any p r end.
Lemma any_app p s t : any p (s +:+ t) = any p s || any p t.
Proof. induction s as [|a s IH]; [done|]. rewrite Str.append_cons. cbn. by rewrite IH, orb_assoc. Qed.

Lemma ws_len_ascii a r : ws_len (String a r) = 0%nat -> ascii_ws a = false.
Proof. cbn. fold (ascii_ws a). by destruct (ascii_ws a). Qed.
Lemma fields_no_space s : forall skip cur f, any ascii_ws cur = false -> f ∈ fields skip cur s -> any ascii_ws f = false.
Proof.
  induction s as [|a r IH]; intros skip cur f Hc Hf; cbn [fields] in Hf.
  - case_test_in Hf; [by apply not_elem_of_nil in Hf|]. by apply list_elem_of_singleton in Hf as ->.
  - destruct skip as [|k]; [|by eapply IH]. destruct (ws_len (String a r)) as [|k] eqn:E.
    + eapply IH; [|exact Hf]. rewrite any_app, Hc. cbn. by rewrite (ws_len_ascii a r E).
    + apply elem_of_app in Hf as [Hf|Hf]; [|by eapply IH; [|exact Hf]].
      case_test_in Hf; [by apply not_elem_of_nil in Hf|]. by apply list_elem_of_singleton in Hf as ->.
Qed.

(** On Linux a mount point with white space in its path is never seen,
    whatever /proc/mounts says: its fields hold none. *)
Theorem whitespace_path_undetected canonicalize proc path :
  any ascii_ws (canonicalize path) = true -> is_mount_point canonicalize proc path = false.
Proof.
  intros Hp. destruct proc as [c|]; [|done]. cbn. apply not_true_iff_false. intros H.
  apply existsb_exists in H as (l & _ & H). destruct (split_whitespace l !! 1%nat) as [f|] eqn:E; [|done].
  apply String.eqb_eq in H. subst f. apply list_elem_of_lookup_2 in E.
  assert (any ascii_ws (canonicalize path) = false); [|congruence]. by eapply fields_no_space; [|exact E].
Qed.
Lemma whitespace_path_undetected_witness :
  is_mount_point same (Some ("m /mnt/my\040drive fuse.m rw" +:+ one LF)) "/mnt/my drive" = false.
Proof. by apply whitespace_path_undetected. Defined.

(** A field of printable ASCII. *)
Definition plain (s : string) : Prop := s <> EmptyString /\ any (fun a => (code a <=? 32) || (127 <=? code a)) s = false.
Definition proc_line (e : string * string * string) : string :=
  let '(dev, mp, rest) := e in dev +:+ String " " (mp +:+ String " " rest).

Lemma plain_char a r : (code a <=? 32) || (127 <=? code a) = false -> ws_len (String a r) = 0%nat.
Proof.
  intros H. apply orb_false_iff in H as [H1 H2]. apply Z.leb_gt in H1, H2. unfold ws_len.
  assert (forall n, n <= 32 \/ 127 <= n -> (code a =? n) = false) as Hne by (intros n Hn; apply Z.eqb_neq; lia).
  rewrite !Hne by lia. assert ((code a <=? 13) = false) as -> by (apply Z.leb_gt; lia). rewrite !andb_false_r.
  by destruct r as [|b [|c r]].
Qed.
Lemma fields_plain s : forall cur t, any (fun a => (code a <=? 32) || (127 <=? code a)) s = false ->
  fields 0 cur (s +:+ t) = fields 0 (cur +:+ s) t.
Proof.
  induction s as [|a s IH]; intros cur t H; [by rewrite Str.append_nil_r|].
  cbn [any] in H. apply orb_false_iff in H as [Ha Hs]. rewrite Str.append_cons. cbn [fields].
  rewrite (plain_char _ _ Ha), IH by done. by rewrite Str.append_assoc.
Qed.
Lemma split_proc_line dev mp rest : plain dev -> plain mp -> split_whitespace (proc_line (dev, mp, rest)) !! 1%nat = Some mp.
Proof.
  intros [Hd0 Hd] [Hm0 Hm]. unfold split_whitespace, proc_line. rewrite fields_plain by done. rewrite Str.append_nil_l.
  cbn [fields]. change (ws_len (String " " (mp +:+ String " " rest))) with 1%nat. cbn iota.
  apply String.eqb_neq in Hd0, Hm0. rewrite Hd0. cbn [app]. rewrite fields_plain by done. rewrite Str.append_nil_l.
  cbn [fields]. change (ws_len (String " " rest)) with 1%nat. cbn iota. by rewrite Hm0.
Qed.

(** On Linux detection is exact for plain mount points.  A path is a mount
    point iff its canonical form is the mount point of a line. *)
Theorem linux_detects canonicalize es path :
  Forall (fun e => plain (fst (fst e)) /\ plain (snd (fst e)) /\ Str.free_of LF (proc_line e) /\ Str.free_of CR (proc_line e)) es ->
  es <> [] ->
  is_mount_point canonicalize (Some (String.concat (one LF) (map proc_line es))) path = true <->
  canonicalize path ∈ map (fun e => snd (fst e)) es.
Proof.
  intros Hes Hn. unfold is_mount_point, lines.
  rewrite split_concat; [|apply Forall_map; eapply Forall_impl; [exact Hes|]; by intros ? (_ & _ & ? & _)|by destruct es].
  assert (lines_of (map proc_line es) = map proc_line es) as ->.
  { clear Hn. induction Hes as [|e es (Hd & Hm & _ & Hcr) Hes IH]; [done|]. cbn [map]. destruct es as [|e' es].
    - destruct e as [[dev mp] rest]. destruct Hd as [Hd0 _]. cbn. destruct dev; done.
    - change (strip_cr (proc_line e) :: lines_of (map proc_line (e' :: es)) = proc_line e :: map proc_line (e' :: es)).
      by rewrite IH, strip_cr_free. }
  rewrite existsb_exists. split.
  - intros (l & Hl & H). apply in_map_iff in Hl as ([[dev mp] rest] & <- & Hin). apply list_elem_of_In in Hin.
    pose proof (proj1 (Forall_forall _ _) Hes _ Hin) as (Hd & Hm & _). rewrite split_proc_line in H by done.
    apply String.eqb_eq in H as <-. by apply (list_elem_of_fmap_2 (fun e => snd (fst e)) es (dev, mp, rest)).
  - intros H. apply list_elem_of_fmap in H as ([[dev mp] rest] & E & Hin). cbn in E.
    pose proof (proj1 (Forall_forall _ _) Hes _ Hin) as (Hd & Hm & _).
    exists (proc_line (dev, mp, rest)). split; [by apply in_map, list_elem_of_In|].
    rewrite split_proc_line by done. rewrite E. apply String.eqb_refl.
Qed.
Lemma linux_detects_witness :
  is_mount_point same (Some (String.concat (one LF) (map proc_line [("proc", "/proc", "proc rw 0 0"); ("b", "/mnt/b", "fuse rw 0 0")]))) "/mnt/b"%string = true.
Proof.
  apply (linux_detects same [("proc", "/proc", "proc rw 0 0"); ("b", "/mnt/b", "fuse rw 0 0")]%string "/mnt/b"%string).
  - repeat constructor; done.
  - done.
  - right. left.
Defined.
(** The re-poll gives up exactly when every attempt found no such device. *)
Lemma windows_unmounted query : is_mount_point_windows query = false <-> forall k, (k < 5)%nat -> query k = Some 2.
Proof.
  unfold is_mount_point_windows, IS_MOUNT_POINT_REPOLL_ATTEMPTS.
  assert (forall n a, repoll query a n = false <-> forall k, (a <= k < a + n)%nat -> query k = Some 2) as H.
  { induction n as [|n IH]; intros a; cbn [repoll]; [split; [intros _ k Hk; lia|done]|].
    destruct (query a) as [e|] eqn:E; [|split; [done|intros H; specialize (H a); rewrite E in H; discriminate H; lia]].
    destruct (Z.eqb_spec e 2) as [->|Hne]; [|split; [done|intros H; specialize (H a ltac:(lia)); congruence]].
    rewrite IH. split; intros H k Hk; [|apply H; lia]. destruct (decide (k = a)) as [->|]; [done|apply H; lia]. }
  rewrite H. split; intros G k Hk; apply G; lia.
Qed.
End Detect.

(** ** The unmount command (src/src/cmd/unmount.rs) *)
Module Unmount.
Import Db.

(** A command that ran has an exit code, [None] when a signal ended it. *)
Inductive status := Exited (code : option Z) | NotRun (not_found : bool).
Inductive umount_error :=
| FusermountExit (code : Z) | FusermountSpawn | UmountExit (code : Z) | UmountSpawn
| Win32 (code : Z) | OwnedBy (pid : option string).
Inductive error := NoMounts | Failed (mps : list (string * umount_error)) (db_left : bool) | One (e : umount_error).

Section Commands.
(** [run c mp k]: the command [c] on [mp]; [K] is the state of the system. *)
Context {K : Type} (run : string -> string -> K -> K * status).

Definition fusermount (mp : string) (k : K) : K * status :=
  let '(k, r) := run "fusermount3" mp k in
  match r with NotRun _ => run "fusermount" mp k | _ => (k, r) end.
Definition exit_code (c : option Z) : Z := default (-1) c.
Definition fuse_unmount_via_fusermount (mp : string) (k : K) : K * result unit umount_error :=
  let '(k, r) := fusermount mp k in
  (k, match r with
      | Exited (Some 0) => Ok tt
      | Exited c => Err (FusermountExit (exit_code c))
      | NotRun _ => Err FusermountSpawn
      end).
Definition fuse_unmount_macos_with_umount (canonicalize : string -> string) (mp : string) (k : K) : K * result unit umount_error :=
  let '(k, r) := fusermount mp k in
  match r with
  | Exited (Some 0) => (k, Ok tt)
  | Exited c => (k, Err (FusermountExit (exit_code c)))
  | NotRun false => (k, Err FusermountSpawn)
  | NotRun true =>
      let '(k, r) := run "umount" (canonicalize mp) k in
      (k, match r with
          | Exited (Some 0) => Ok tt
          | Exited c => Err (UmountExit (exit_code c))
          | NotRun _ => Err UmountSpawn
          end)
  end.
End Commands.

(** Windows. *)
Definition is_drive_letter (s : string) : bool :=
  let letter a := let c := Z.of_nat (nat_of_ascii a) in ((65 <=? c) && (c <=? 90)) || ((97 <=? c) && (c <=? 122)) in
  match s with
  | String a (String b EmptyString) => letter a && Ascii.eqb b ":"
  | String a (String b (String c EmptyString)) => letter a && Ascii.eqb b ":" && Ascii.eqb c "\"
  | _ => false
  end.
Fixpoint upper (s : string) : string :=
  match s with
  | EmptyString => EmptyString
  | String a r =>
      let c := nat_of_ascii a in
      String (if ((97 <=? c) && (c <=? 122))%nat then ascii_of_nat (c - 32) else a) (upper r)
  end.
Definition ERROR_NOT_A_REPARSE_POINT : Z := 0x80071126 - 2 ^ 32.
Definition E_ACCESSDENIED : Z := 0x80070005 - 2 ^ 32.
(** [define], [delete_mp]: DefineDosDeviceW and DeleteVolumeMountPointW, with
    the error code. *)
Definition fuse_unmount_windows {K} (define delete_mp : string -> K -> K * option Z) (db : option string) (mp : string) (k : K)
  : K * result unit umount_error :=
  if is_drive_letter mp then
    let name := upper (Str.truncate 2 mp) in
    let '(k, r) := define name k in
    (k, match r with
        | None => Ok tt
        | Some code =>
            if code =? 2 then Ok tt
            else if (code =? 5) || (code =? E_ACCESSDENIED) then
              let owner := List.find (fun m => String.eqb (upper (mountpoint m)) (upper name)) (read_mounts db) in
              Err (OwnedBy (match owner with Some m => if String.eqb (pid m) EmptyString then None else Some (pid m) | None => None end))
            else Err (Win32 code)
        end)
  else
    let name := match Str.strip_suffix "\" mp with Some _ => mp | None => mp +:+ "\" end in
    let '(k, r) := delete_mp name k in
    (k, match r with
        | None => Ok tt
        | Some code => if (code =? 2) || (code =? ERROR_NOT_A_REPARSE_POINT) then Ok tt else Err (Win32 code)
        end).

Section Command.
(** [exists_]: whether a path exists; [drive_letters]: the Windows short cut. *)
Context {K : Type} (fuse_unmount : string -> K -> K * result unit umount_error).
Context (exists_ : string -> K -> bool) (canonicalize : string -> K -> string) (drive_letters : bool).

Fixpoint unmount_each (mounts : list MountInfo) (k : K) : K * list (string * umount_error) :=
  match mounts with
  | [] => (k, [])
  | m :: mounts =>
      let '(k, r) := fuse_unmount (mountpoint m) k in
      let '(k, fs) := unmount_each mounts k in
      (k, match r with Ok _ => fs | Err e => (mountpoint m, e) :: fs end)
  end.
Definition find_target (target : string) (db : option string) (k : K) : option string :=
  if drive_letters && is_drive_letter target then Some target
  else if exists_ target k then Some target
  else mountpoint <$> List.find (fun m => String.eqb (storage m) target) (read_mounts db).
(** [remove_ok], [write_ok]: whether the registry file could be removed or
    written. *)
Definition unmount (remove_ok write_ok : bool) (target : string) (db : option string) (k : K)
  : option string * K * result unit error :=
  if String.eqb target "all" || String.eqb target "-a" then
    match read_mounts db with
    | [] => (db, k, Err NoMounts)
    | mounts =>
        let '(k, fs) := unmount_each mounts k in
        (if remove_ok then None else db, k,
         if bool_decide (fs = []) && remove_ok then Ok tt else Err (Failed fs (negb remove_ok)))
    end
  else match find_target target db k with
  | None => (db, k, Ok tt)
  | Some mp =>
      let '(k, r) := fuse_unmount mp k in
      match r with
      | Err e => (db, k, Err (One e))
      | Ok _ => (match db with
                 | Some c => if write_ok then Some (removed (fun p => canonicalize p k) mp c) else db
                 | None => None
                 end, k, Ok tt)
      end
  end.
End Command.

(** *** Properties *)
Section Laws.
Context {K : Type} (fuse_unmount : string -> K -> K * result unit umount_error).
Context (exists_ : string -> K -> bool) (canonicalize : string -> K -> string) (drive_letters : bool).
Abbreviation do_unmount := (unmount fuse_unmount exists_ canonicalize drive_letters true true).

(** Unmounting one target.  An unknown target is no error and changes
    nothing; a failed unmount changes nothing of the registry; a successful one
    removes the rows of the canonical mount point and keeps the others in
    order. *)
Theorem unmount_one target db k db' k' r :
  target <> "all"%string -> target <> "-a"%string -> tidy db -> do_unmount target db k = (db', k', r) ->
  match find_target exists_ drive_letters target db k with
  | None => db' = db /\ k' = k /\ r = Ok tt
  | Some mp =>
      exists o, fuse_unmount mp k = (k', o) /\
      match o with
      | Err e => db' = db /\ r = Err (One e)
      | Ok _ => r = Ok tt /\ read_mounts db' = List.filter (elsewhere (canonicalize mp k')) (read_mounts db)
      end
  end.
Proof using.
  intros H1 H2 Ht. unfold unmount. apply String.eqb_neq in H1, H2. rewrite H1, H2. cbn [orb].
  destruct (find_target _ _ target db k) as [mp|]; [|by intros [= <- <- <-]].
  destruct (fuse_unmount mp k) as [k1 [[]|e]]; intros [= <- <- <-]; eexists; (split; [done|]); [|done].
  split; [done|]. destruct db as [c|]; [|done]. cbn [read_mounts].
  unfold removed. cbn [tidy] in Ht. rewrite read_joined by (by apply kept_free). apply filter_rows.
Qed.

Lemma unmount_each_failures mounts : forall k k' fs, unmount_each fuse_unmount mounts k = (k', fs) ->
  forall mp e, (mp, e) ∈ fs -> mp ∈ map mountpoint mounts.
Proof using.
  induction mounts as [|m mounts IH]; intros k k' fs H mp e Hin; cbn in H.
  - injection H as _ <-. by apply not_elem_of_nil in Hin.
  - destruct (fuse_unmount (mountpoint m) k) as [k1 r]. destruct (unmount_each fuse_unmount mounts k1) as [k2 fs2] eqn:E.
    destruct r as [[]|e']; injection H as _ <-.
    + right. by eapply IH.
    + apply elem_of_cons in Hin as [Hin|Hin]; [injection Hin as -> _; left|]. right. by eapply IH.
Qed.
(** Unmounting everything drops the registry even when mounts failed: they are
    still mounted and no longer listed. *)
Theorem unmount_all_forgets db k db' k' mps left_ :
  do_unmount "all" db k = (db', k', Err (Failed mps left_)) ->
  read_mounts db' = [] /\ forall mp e, (mp, e) ∈ mps -> mp ∈ map mountpoint (read_mounts db).
Proof using.
  unfold unmount. cbn [String.eqb Ascii.eqb Bool.eqb orb]. destruct (read_mounts db) as [|m mounts] eqn:Er; [done|].
  destruct (unmount_each fuse_unmount (m :: mounts) k) as [k1 fs] eqn:E. rewrite andb_true_r.
  case_bool_decide; [done|]. intros [= <- <- <- _]. split; [done|]. by eapply unmount_each_failures.
Qed.
End Laws.

(** *** A system: the set of mounted paths; some are busy *)
Section System.
Definition umount2 (busy : list string) (mp : string) (k : gset string) : gset string * result unit umount_error :=
  if bool_decide (mp ∈ busy) then (k, Err (FusermountExit 1))
  else if bool_decide (mp ∈ k) then (k ∖ {[mp]}, Ok tt) else (k, Err (FusermountExit 1)).
Definition on_disk (mp : string) (k : gset string) : bool := bool_decide (mp = "/a" \/ mp = "/b").
Definition two_rows : option string :=
  foldl (apply same same) None [completed (Record "s3://x" "/a" "7" "me" false); completed (Record "gs://y" "/b" "8" "me" true)].

Lemma unmount_one_witness :
  read_mounts (fst (fst (unmount (umount2 []) on_disk (fun p _ => p) false true true "s3://x"%string two_rows {["/a"%string; "/b"%string]})))
  = List.filter (elsewhere "/a") (read_mounts two_rows).
Proof.
  destruct (unmount (umount2 []) on_disk (fun p _ => p) false true true "s3://x"%string two_rows {["/a"%string; "/b"%string]})
    as [[db' k'] r] eqn:E.
  pose proof (unmount_one (umount2 []) on_disk (fun p _ => p) false "s3://x"%string two_rows _ db' k' r
    ltac:(done) ltac:(done) ltac:(by vm_compute) E) as H.
  vm_compute in H. destruct H as (o & Ho & H). injection Ho as <- <-. destruct H as [_ H]. exact H.
Defined.
(** One busy mount of two: both rows are gone, the busy one stays mounted. *)
Example busy_mount_forgotten :
  let '(db, k, r) := unmount (umount2 ["/b"%string]) on_disk (fun p _ => p) false true true "all"%string two_rows {["/a"%string; "/b"%string]} in
  read_mounts db = [] /\ "/b"%string ∈ k /\ r = Err (Failed [("/b"%string, FusermountExit 1)] false).
Proof. vm_compute. by split_and!. Qed.
(** A mount whose URL has credentials is recorded without them, so its URL is
    not found: the command reports success and the mount stays. *)
Definition redact1 (s : string) : string := if String.eqb s "s3://k:s@h/b" then "s3://***@h/b" else s.
Example credentials_url_not_unmounted :
  let db := foldl (apply same redact1) None [completed (Record "s3://k:s@h/b" "/a" "7" "me" false)] in
  let '(_, k, r) := unmount (umount2 []) (fun _ _ => false) (fun p _ => p) false true true "s3://k:s@h/b"%string db {["/a"%string]} in
  r = Ok tt /\ "/a"%string ∈ k.
Proof. vm_compute. by split. Qed.
End System.

(** A mount point that fusermount refuses stays: only a command that cannot be
    started makes the next one be tried. *)
Lemma fusermount_fallback {K} (run : string -> string -> K -> K * status) mp k k1 c :
  run "fusermount3" mp k = (k1, Exited (Some c)) ->
  fuse_unmount_via_fusermount run mp k = (k1, if c =? 0 then Ok tt else Err (FusermountExit c)) /\
  fuse_unmount_macos_with_umount run same mp k = fuse_unmount_via_fusermount run mp k.
Proof.
  intros H. unfold fuse_unmount_via_fusermount, fuse_unmount_macos_with_umount, fusermount. rewrite H.
  destruct c; done.
Qed.
End Unmount.

(** ** Mounts of one process (CSI driver) *)
Module Process.
Import Db.

(** [mountpoint.replace(['/', ':'], "_")] below a base directory: [TMPDIR] on
    macOS, [/tmp] elsewhere. *)
Definition suffix (mp : string) : string := Str.replace_char ":" "_" (Str.replace_char "/" "_" mp).
Definition cache_dir_for_mount (tmpdir : option string) (mp : string) : string :=
  match tmpdir with Some base => Str.trim_end "/" base | None => "/tmp" end +:+ "/mntrs-csi-cache/" +:+ suffix mp.

(** [FUSE_SESSION]: the session in the cell, named by its mount point;
    [table]: what the kernel has mounted; [dirs]: the cache directories with
    the files in them. *)
Record process := mk_process {
  FUSE_SESSION : option string; MOUNT_CACHE_DIR : gmap string string; table : gset string; dirs : gmap string (list string)
}.
Definition set_session x (p : process) := mk_process x (MOUNT_CACHE_DIR p) (table p) (dirs p).
Definition set_table x (p : process) := mk_process (FUSE_SESSION p) (MOUNT_CACHE_DIR p) x (dirs p).
Definition set_dirs x (p : process) := mk_process (FUSE_SESSION p) (MOUNT_CACHE_DIR p) (table p) x.
Definition register mp dir (p : process) := mk_process (FUSE_SESSION p) (<[mp := dir]> (MOUNT_CACHE_DIR p)) (table p) (dirs p).

Section Operations.
Context (tmpdir : option string).

(** The cache directory of a mount: the option, or one named after the mount
    point. *)
Definition cache_dir_of (opts : gmap string string) (mp : string) : string :=
  default (cache_dir_for_mount tmpdir mp) (opts !! "cache-dir"%string).
(** Up to the store of the session; [mount_ok]: whether it started.  The call
    goes on with [join_session] and returns when the mount has ended. *)
Definition mount_internal (mount_ok : bool) (opts : gmap string string) (mp : string) (p : process) : process * bool :=
  let dir := cache_dir_of opts mp in
  let p := register mp dir (set_dirs (<[dir := default [] (dirs p !! dir)]> (dirs p)) p) in
  if bool_decide (mp ∈ table p) then (p, true)
  else if mount_ok then (set_session (Some mp) (set_table ({[mp]} ∪ table p) p), true)
  else (p, false).
(** The rest of [mount]: the thread takes the session out of the cell and waits
    for it to end; [None]: it watches the mount table instead. *)
Definition join_session (p : process) : process * option string := (set_session None p, FUSE_SESSION p).

(** [graceful_ok], [umount_ok], [lazy_ok]: the outcomes of [umount_and_join],
    of the unmount command and of the lazy one.  [umount_and_join] ends the
    mount of the session it is called on. *)
Definition unmount_internal (graceful_ok umount_ok lazy_ok : bool) (mp : string) (p : process) : process :=
  let session := FUSE_SESSION p in
  let p := set_session None p in
  match session with
  | Some s =>
      if graceful_ok then
        let dir := default (cache_dir_for_mount tmpdir mp) (MOUNT_CACHE_DIR p !! mp) in
        set_dirs (delete dir (dirs p)) (set_table (table p ∖ {[s]}) p)
      else
        let p := if umount_ok || lazy_ok then set_table (table p ∖ {[mp]}) p else p in
        set_dirs (delete (cache_dir_for_mount tmpdir mp) (dirs p)) p
  | None =>
      let p := if umount_ok || lazy_ok then set_table (table p ∖ {[mp]}) p else p in
      set_dirs (delete (cache_dir_for_mount tmpdir mp) (dirs p)) p
  end.

(** A graceful unmount of the mount whose session is in the cell takes the
    mount and its cache directory away, whatever is in it, and leaves other
    mounts and directories alone. *)
Theorem unmount_own_session umount_ok lazy_ok mp p dir :
  FUSE_SESSION p = Some mp -> MOUNT_CACHE_DIR p !! mp = Some dir ->
  let p' := unmount_internal true umount_ok lazy_ok mp p in
  (mp ∉ table p') /\ dirs p' !! dir = None /\
  (forall q, q <> mp -> q ∈ table p' <-> q ∈ table p) /\
  (forall d, d <> dir -> dirs p' !! d = dirs p !! d).
Proof using.
  intros Hs Hd. unfold unmount_internal. rewrite Hs. cbn. rewrite Hd. cbn. split_and!.
  - set_solver.
  - apply lookup_delete_eq.
  - set_solver.
  - intros d Hne. by apply lookup_delete_ne.
Qed.
(** With the session of another mount in the cell the other mount is ended,
    the mount that was asked for stays, and its cache directory is gone. *)
Theorem unmount_other_session umount_ok lazy_ok mp other p dir :
  FUSE_SESSION p = Some other -> other <> mp -> mp ∈ table p -> MOUNT_CACHE_DIR p !! mp = Some dir ->
  let p' := unmount_internal true umount_ok lazy_ok mp p in
  mp ∈ table p' /\ (other ∉ table p') /\ dirs p' !! dir = None.
Proof using.
  intros Hs Hne Hm Hd. unfold unmount_internal. rewrite Hs. cbn. rewrite Hd. cbn.
  split_and!; [set_solver|set_solver|apply lookup_delete_eq].
Qed.
(** Without a session in the cell a registered directory is not removed; the
    one named after the mount point is. *)
Theorem fallback_keeps_registered_dir graceful_ok umount_ok lazy_ok mp p dir :
  FUSE_SESSION p = None -> MOUNT_CACHE_DIR p !! mp = Some dir -> dir <> cache_dir_for_mount tmpdir mp ->
  dirs (unmount_internal graceful_ok umount_ok lazy_ok mp p) !! dir = dirs p !! dir.
Proof using.
  intros Hs Hd Hne. unfold unmount_internal. rewrite Hs. cbn. rewrite lookup_delete_ne by congruence.
  by destruct (umount_ok || lazy_ok).
Qed.
End Operations.

Definition idle : process := mk_process None ∅ ∅ ∅.
Definition opts_of (dir : string) : gmap string string := {["cache-dir"%string := dir]}.
Lemma unmount_own_session_witness :
  let p := fst (mount_internal None true (opts_of "/c/a") "/a" idle) in
  ("/a"%string) ∉ table (unmount_internal None true true true "/a" p).
Proof.
  intros p. refine (proj1 (unmount_own_session None true true "/a" p "/c/a" _ _)); by vm_compute.
Defined.

(** Two mounts started together: the first thread waits for the session of the
    second, whose own cell is empty. *)
Example concurrent_mounts_swap :
  let p := fst (mount_internal None true (opts_of "/c/a") "/a" idle) in
  let p := fst (mount_internal None true (opts_of "/c/b") "/b" p) in
  let '(p, first) := join_session p in
  let '(p, second) := join_session p in
  first = Some "/b"%string /\ second = None.
Proof. by vm_compute. Qed.
(** A graceful unmount removes the directory with the uploads that are still
    pending. *)
Example pending_uploads_removed :
  let p := fst (mount_internal None true (opts_of "/c/a") "/a" idle) in
  let p := set_dirs (<["/c/a"%string := ["x.dirty"%string]]> (dirs p)) p in
  dirs (unmount_internal None true true true "/a" p) !! "/c/a"%string = None.
Proof. by vm_compute. Qed.
(** Different mount points, one cache directory. *)
Example cache_dirs_collide : cache_dir_for_mount None "/mnt/a_b" = cache_dir_for_mount None "/mnt/a/b".
Proof. done. Qed.
End Process.
