(* ===== verification/Shutdown.v ===== *)
(** * Shutdown: how a mount ends (src/src/cmd/mount.rs)

    The thread of [mount] after the kernel has the mount, the watcher thread, the
    signal handler and the two flags they share, which are statics of the
    process: [SHUTDOWN_REQUESTED] and [SHUTDOWN_BY_SIGNAL].  A process has a
    list of mounts (the CSI driver has several).  Each action is one access to a
    flag, the session cell or the mount table. *)

From Stdlib Require Import ZArith Lia Strings.String.
From S2P Require Import Prelude.

Module Shutdown.

Inductive platform := Unix | Windows.

(** The thread of [mount]: about to mount, mounted, about to take the session,
    waiting for a session or for the mount to leave the table, about to set the
    flag, about to remove the row of mounts.txt.  [KeepAlive] is the loop on
    Windows. *)
Inductive main_pc :=
| Entering
| Mounted
| Taking
| Joining (j : nat)
| Polling
| KeepAlive
| Setting
| Removing
| Returned.
Inductive watch_pc := NotSpawned | Watching | Requested | Unmounting | Gone.
Record mount := mk_mount { mp : string; main : main_pc; watcher : watch_pc }.
Definition set_main x (m : mount) := mk_mount (mp m) x (watcher m).
Definition set_watcher x (m : mount) := mk_mount (mp m) (main m) x.

(** [table] is the kernel's, [rows] are those of mounts.txt, [handler_left] is
    how many signal handlers are between their two stores. *)
Record state := mk_state {
  SHUTDOWN_REQUESTED : bool; SHUTDOWN_BY_SIGNAL : bool; FUSE_SESSION : option nat;
  CLEANUP_MP : option string; installed : bool; handler_left : nat;
  table : gset string; rows : gset string; mounts : list mount
}.
Definition start (mps : list string) : state :=
  mk_state false false None None false 0 ∅ ∅ ((fun p => mk_mount p Entering NotSpawned) <$> mps).

Definition set_requested (s : state) :=
  mk_state true (SHUTDOWN_BY_SIGNAL s) (FUSE_SESSION s) (CLEANUP_MP s) (installed s) (handler_left s) (table s) (rows s) (mounts s).
Definition set_table t (s : state) :=
  mk_state (SHUTDOWN_REQUESTED s) (SHUTDOWN_BY_SIGNAL s) (FUSE_SESSION s) (CLEANUP_MP s) (installed s) (handler_left s) t (rows s) (mounts s).
Definition set_rows r (s : state) :=
  mk_state (SHUTDOWN_REQUESTED s) (SHUTDOWN_BY_SIGNAL s) (FUSE_SESSION s) (CLEANUP_MP s) (installed s) (handler_left s) (table s) r (mounts s).
Definition set_session x (s : state) :=
  mk_state (SHUTDOWN_REQUESTED s) (SHUTDOWN_BY_SIGNAL s) x (CLEANUP_MP s) (installed s) (handler_left s) (table s) (rows s) (mounts s).
Definition set_mount i m (s : state) :=
  mk_state (SHUTDOWN_REQUESTED s) (SHUTDOWN_BY_SIGNAL s) (FUSE_SESSION s) (CLEANUP_MP s) (installed s) (handler_left s) (table s) (rows s)
    (<[i := m]> (mounts s)).
(** [CLEANUP_MP.set], [atexit] and [install_sigaction]. *)
Definition install p (s : state) :=
  mk_state (SHUTDOWN_REQUESTED s) (SHUTDOWN_BY_SIGNAL s) (FUSE_SESSION s)
    (match CLEANUP_MP s with Some q => Some q | None => Some p end) true (handler_left s) (table s) (rows s) (mounts s).

Definition mp_of (s : state) (j : nat) : option string := mp <$> mounts s !! j.
Definition in_table (s : state) (j : nat) : bool :=
  match mp_of s j with Some p => bool_decide (p ∈ table s) | None => false end.

(** [mount] from [spawn_mount] on. *)
Definition main_act (pf : platform) (i : nat) (m : mount) (s : state) : option state :=
  let goto x := set_mount i (set_main x m) in
  match main m with
  | Entering =>
      let s := set_rows ({[mp m]} ∪ rows s) (set_table ({[mp m]} ∪ table s) s) in
      Some (goto Mounted (match pf with Unix => set_session (Some i) s | Windows => s end))
  | Mounted =>
      let s := install (mp m) s in
      Some (match pf with
            | Unix => set_mount i (mk_mount (mp m) Taking Watching) s
            | Windows => goto KeepAlive s
            end)
  | Taking =>
      Some (match FUSE_SESSION s with
            | Some j => goto (Joining j) (set_session None s)
            | None => goto Polling s
            end)
  | Joining j => if in_table s j then None else Some (goto Setting s)
  | Polling => if bool_decide (mp m ∈ table s) then None else Some (goto Setting s)
  | Setting => Some (goto Removing (set_requested s))
  | KeepAlive => if SHUTDOWN_REQUESTED s then Some (goto Removing (set_table (table s ∖ {[mp m]}) s)) else None
  | Removing => Some (goto Returned (set_rows (rows s ∖ {[mp m]}) s))
  | Returned => None
  end.

(** The thread fuse-signal-watcher; [helper]: whether fusermount unmounts. *)
Definition watch_act (helper : string -> bool) (i : nat) (m : mount) (s : state) : option state :=
  let goto x := set_mount i (set_watcher x m) in
  match watcher m with
  | Watching => if SHUTDOWN_REQUESTED s then Some (goto Requested s) else None
  | Requested => Some (goto (if SHUTDOWN_BY_SIGNAL s then Unmounting else Gone) s)
  | Unmounting => Some (goto Gone (if helper (mp m) then set_table (table s ∖ {[mp m]}) s else s))
  | NotSpawned | Gone => None
  end.

(** The two stores of [handler]. *)
Definition handler_first (s : state) : option state :=
  if installed s then
    Some (mk_state true (SHUTDOWN_BY_SIGNAL s) (FUSE_SESSION s) (CLEANUP_MP s) (installed s) (S (handler_left s)) (table s) (rows s) (mounts s))
  else None.
Definition handler_second (s : state) : option state :=
  match handler_left s with
  | O => None
  | S k => Some (mk_state (SHUTDOWN_REQUESTED s) true (FUSE_SESSION s) (CLEANUP_MP s) (installed s) k (table s) (rows s) (mounts s))
  end.

(** [cleanup], run at exit. *)
Definition exit_cleanup (helper : string -> bool) (s : state) : state :=
  match CLEANUP_MP s with
  | None => s
  | Some p =>
      let s := if SHUTDOWN_BY_SIGNAL s then s else if helper p then set_table (table s ∖ {[p]}) s else s in
      set_rows (rows s ∖ {[p]}) s
  end.

(** [External]: an unmount from outside.  [Internal]: [unmount_internal] of the
    process takes the session in the cell and ends it. *)
Inductive action := Main (i : nat) | Watch (i : nat) | SignalFirst | SignalSecond | External (p : string) | Internal.
Definition act (pf : platform) (helper : string -> bool) (a : action) (s : state) : option state :=
  match a with
  | Main i => match mounts s !! i with Some m => main_act pf i m s | None => None end
  | Watch i => match mounts s !! i with Some m => watch_act helper i m s | None => None end
  | SignalFirst => handler_first s
  | SignalSecond => handler_second s
  | External p => Some (set_table (table s ∖ {[p]}) s)
  | Internal =>
      match FUSE_SESSION s with
      | Some j => Some (match mp_of s j with
                        | Some p => set_table (table s ∖ {[p]}) (set_session None s)
                        | None => set_session None s
                        end)
      | None => None
      end
  end.
Fixpoint run (pf : platform) (helper : string -> bool) (actions : list action) (s : state) : option state :=
  match actions with
  | [] => Some s
  | a :: rest => match act pf helper a s with Some s' => run pf helper rest s' | None => None end
  end.
Definition step (pf : platform) (helper : string -> bool) (s s' : state) : Prop := exists a, act pf helper a s = Some s'.
Lemma run_steps pf helper actions s s' : run pf helper actions s = Some s' -> rtc (step pf helper) s s'.
Proof.
  revert s. induction actions as [|a rest IH]; intros s Hr; cbn in Hr; [by simplify_eq|].
  destruct (act pf helper a s) as [s1|] eqn:E; [|done]. eapply rtc_l; [by exists a|by apply IH].
Qed.

(** ** A process with one mount *)
Definition main_rank (x : main_pc) : Z :=
  match x with
  | Entering => 9 | Mounted => 8 | Taking => 4 | Joining _ | Polling => 3 | KeepAlive | Setting => 2 | Removing => 1 | Returned => 0
  end.
Definition watch_rank (x : watch_pc) : Z :=
  match x with Watching => 3 | Requested => 2 | Unmounting => 1 | NotSpawned | Gone => 0 end.
Definition todo (m : mount) : Z := main_rank (main m) + watch_rank (watcher m).
Definition measure (s : state) : Z := sumZ (todo <$> mounts s).
Definition is_thread (a : action) : bool := match a with Main _ | Watch _ => true | _ => false end.

Definition waiting (x : main_pc) : bool := match x with Joining _ | Polling => true | _ => false end.
Definition left_table (x : main_pc) : bool := match x with Setting | Removing | Returned => true | _ => false end.
Definition before (x : main_pc) : bool := match x with Entering | Mounted => true | _ => false end.
Definition unspawned (w : watch_pc) : bool := match w with NotSpawned => true | _ => false end.
Record one (p : string) (s : state) (mn : main_pc) (w : watch_pc) : Prop := {
  o_mounts : mounts s = [mk_mount p mn w];
  o_session : FUSE_SESSION s = None \/ FUSE_SESSION s = Some O;
  o_joining : forall j, mn = Joining j -> j = O;
  o_windows : mn <> KeepAlive;
  o_before : before mn = unspawned w;
  o_installed : installed s = true -> before mn = false;
  o_handler : (0 < handler_left s)%nat -> SHUTDOWN_REQUESTED s = true /\ installed s = true;
  o_signal : SHUTDOWN_BY_SIGNAL s = true -> SHUTDOWN_REQUESTED s = true /\ installed s = true;
  o_requested : w = Requested \/ w = Unmounting -> SHUTDOWN_REQUESTED s = true;
  o_left : left_table mn = true -> p ∉ table s;
  o_rows : mn = Returned -> p ∉ rows s
}.
Definition ended (p : string) (s : state) : Prop :=
  mounts s = [mk_mount p Returned Gone] /\ (p ∉ table s) /\ (p ∉ rows s).

(** The kernel still has the mount, its thread waits for it to go, and nobody
    is left to unmount it. *)
Definition left_mounted (p : string) (s : state) : Prop :=
  exists mn, mounts s = [mk_mount p mn Gone] /\ waiting mn = true /\ p ∈ table s.
(** The mount is gone, or the watcher is there to see to it. *)
Definition attended (p : string) (s : state) : Prop :=
  (p ∉ table s) \/ exists m, mounts s = [m] /\ watcher m <> Gone.

Lemma one_start p : one p (start [p]) Entering NotSpawned.
Proof. split; cbn; auto; try lia; intros; (destruct_or?); by simplify_eq. Qed.

Ltac solve_fields :=
  split; cbn; rewrite ?elem_of_union, ?elem_of_difference, ?elem_of_singleton; try done; try tauto;
  try (intros; (destruct_or?); simplify_eq; (done || tauto || intuition congruence)).
Ltac solve_one := eexists _, _; solve_fields.

Lemma one_main p s mn w s' : one p s mn w -> main_act Unix 0 (mk_mount p mn w) s = Some s' -> exists mn' w', one p s' mn' w'.
Proof.
  intros [E1 E2 E3 E4 E5 E6 E7 E8 E9 E10 E11] Ha. destruct s as [rq bs se cl ins hl tb rw ms]. cbn in *. subst ms.
  destruct mn; cbn in Ha; unfold in_table, mp_of in Ha; cbn in Ha.
  - assert (w = NotSpawned) as -> by (by destruct w). simplify_eq. solve_one.
  - assert (w = NotSpawned) as -> by (by destruct w). simplify_eq. solve_one.
  - destruct se as [j|]; simplify_eq; solve_one.
  - rewrite (E3 _ eq_refl) in *. cbn in Ha. case_bool_decide; [done|]. simplify_eq. solve_one.
  - case_bool_decide; [done|]. simplify_eq. solve_one.
  - done.
  - simplify_eq. solve_one.
  - simplify_eq. solve_one.
  - done.
Qed.

Lemma one_watch helper p s mn w s' :
  one p s mn w -> watch_act helper 0 (mk_mount p mn w) s = Some s' -> exists mn' w', one p s' mn' w'.
Proof.
  intros [E1 E2 E3 E4 E5 E6 E7 E8 E9 E10 E11] Ha. destruct s as [rq bs se cl ins hl tb rw ms]. cbn in *. subst ms.
  destruct w; cbn in Ha; try done.
  - case_if Ha as Hr; [|done]. simplify_eq. solve_one.
  - simplify_eq. destruct bs; solve_one.
  - destruct (helper p); simplify_eq; solve_one.
Qed.

Lemma one_other helper p s mn w a s' :
  one p s mn w -> act Unix helper a s = Some s' -> is_thread a = false -> one p s' mn w.
Proof.
  intros [E1 E2 E3 E4 E5 E6 E7 E8 E9 E10 E11] Ha Ht. destruct s as [rq bs se cl ins hl tb rw ms]. cbn in *. subst ms.
  destruct a as [| | | |q|]; cbn in Ha; try done; unfold handler_first, handler_second in Ha; cbn in Ha.
  - destruct ins; [|done]. simplify_eq. solve_fields.
  - destruct hl; [done|]. simplify_eq. specialize (E7 ltac:(lia)). solve_fields.
  - simplify_eq. solve_fields.
  - destruct E2 as [->| ->]; [done|]. cbn in Ha. simplify_eq. solve_fields.
Qed.

Lemma one_act helper p s mn w a s' : one p s mn w -> act Unix helper a s = Some s' -> exists mn' w', one p s' mn' w'.
Proof.
  intros Ho Ha. destruct (is_thread a) eqn:Et; [|eauto using one_other].
  destruct a as [i|i| | | |]; try done; cbn in Ha; rewrite (o_mounts _ _ _ _ Ho) in Ha; (destruct i; [|done]); cbn in Ha.
  - by eapply one_main.
  - by eapply one_watch.
Qed.

(** After the signal, a mount that is attended stays so. *)
Lemma attended_act helper p s mn w a s' :
  helper p = true -> one p s mn w -> SHUTDOWN_BY_SIGNAL s = true -> attended p s -> is_thread a = true ->
  act Unix helper a s = Some s' -> attended p s'.
Proof.
  intros Hh Ho Hb Hat Ht Ha. destruct (o_signal _ _ _ _ Ho Hb) as [_ Hi]. pose proof (o_installed _ _ _ _ Ho Hi) as Hbf.
  destruct Ho as [E1 _ _ E4 _ _ _ _ _ _ _]. destruct s as [rq bs se cl ins hl tb rw ms]. cbn in *. subst ms bs.
  destruct a as [i|i| | | |]; try done; cbn in Ha; (destruct i; [|done]); cbn in Ha.
  - assert (forall s0 mn', table s0 = tb -> mounts s0 = [mk_mount p mn' w] -> attended p s0) as Hgo.
    { intros s0 mn' Et Em. destruct Hat as [Hat|(m & [= <-] & Hm)]; [left; by rewrite Et|right; by exists (mk_mount p mn' w)]. }
    destruct mn; cbn in Ha; try done; repeat case_match; simplify_eq; by eapply Hgo.
  - destruct w; cbn in Ha; try done; repeat case_match; simplify_eq; cbn.
    + right. by eexists.
    + right. by eexists.
    + left. cbn. set_solver.
Qed.
Lemma thread_act_signal pf helper a s s' :
  is_thread a = true -> act pf helper a s = Some s' -> SHUTDOWN_BY_SIGNAL s' = SHUTDOWN_BY_SIGNAL s.
Proof.
  destruct a as [i|i| | | |]; try done; intros _ Ha; cbn in Ha; destruct (mounts s !! i) as [m|]; try done.
  - unfold main_act in Ha. destruct (main m), pf; simplify_eq; try done; try (by destruct (FUSE_SESSION s); simplify_eq);
      by repeat case_if Ha as Hi; simplify_eq.
  - unfold watch_act in Ha. destruct (watcher m); simplify_eq; try done; repeat case_match; by simplify_eq.
Qed.

(** Every action of a thread leaves less to do, whatever the mounts. *)
Lemma thread_act_measure pf helper a s s' :
  is_thread a = true -> act pf helper a s = Some s' -> measure s' + 1 <= measure s.
Proof.
  destruct a as [i|i| | | |]; try done; intros _ Ha; cbn in Ha; destruct (mounts s !! i) as [m|] eqn:Ei; try done;
    unfold measure.
  - unfold main_act in Ha. destruct (main m) eqn:Em, pf; simplify_eq; repeat case_match; simplify_eq; cbn [mounts set_mount set_requested set_table set_rows set_session install];
      rewrite (sumZ_fmap_insert _ _ _ _ _ Ei); unfold todo; cbn; rewrite Em; cbn; destruct (watcher m); cbn; lia.
  - unfold watch_act in Ha. destruct (watcher m) eqn:Em; simplify_eq; repeat case_match; simplify_eq; cbn [mounts set_mount set_requested set_table set_rows set_session install];
      rewrite (sumZ_fmap_insert _ _ _ _ _ Ei); unfold todo; cbn; rewrite Em; cbn; lia.
Qed.

Lemma measure_nonneg s : 0 <= measure s.
Proof. apply sumZ_fmap_nonneg. apply Forall_true. intros [q [] []]; unfold todo; cbn; lia. Qed.

(** Threads that can do nothing more, after a signal: the mount ended, or the
    watcher left before it. *)
Lemma stuck_cases helper p s mn w : one p s mn w -> SHUTDOWN_BY_SIGNAL s = true ->
  (forall a, is_thread a = true -> act Unix helper a s = None) -> ended p s \/ left_mounted p s.
Proof.
  intros Ho Hb Hs. destruct Ho as [E1 E2 E3 E4 E5 E6 E7 E8 E9 E10 E11]. destruct (E8 Hb) as [Hr Hi].
  pose proof (Hs (Main 0) eq_refl) as Hm. pose proof (Hs (Watch 0) eq_refl) as Hw. cbn in Hm, Hw. rewrite E1 in Hm, Hw. cbn in Hm, Hw.
  specialize (E6 Hi). destruct w; cbn in Hw; rewrite ?Hr in Hw; try done; [by rewrite E5 in E6|].
  destruct mn as [| | |j| | | | |]; cbn in Hm; try done.
  - rewrite (E3 j eq_refl) in *. unfold in_table, mp_of in Hm. rewrite E1 in Hm. cbn in Hm. case_if Hm as Ht; [|done].
    right. by exists (Joining 0).
  - case_if Hm as Ht; [|done]. right. by exists Polling.
  - left. split_and!; auto.
Qed.

(** C27: a signal ends the mount.  In a process with one mount, in every
    interleaving of its threads, signal handlers and unmounts from outside, once
    a handler has made its second store the threads are done after at most
    seven more actions in any order.  Then the kernel does not have the mount,
    its row is gone and both threads have returned, if the unmount helper
    works and the watcher had not left before that store with the kernel
    still having the mount.  Otherwise the mount ended all the same, or it is
    still there, its thread waits and the watcher is gone. *)
Theorem signal_ends_mount helper p s :
  rtc (step Unix helper) (start [p]) s -> SHUTDOWN_BY_SIGNAL s = true ->
  forall actions s', forallb is_thread actions = true -> run Unix helper actions s = Some s' ->
    lenZ actions <= 7 /\
    ((forall a, is_thread a = true -> act Unix helper a s' = None) ->
       (ended p s' \/ left_mounted p s') /\ (helper p = true -> attended p s -> ended p s')).
Proof.
  intros Hr Hb. assert (exists mn w, one p s mn w) as (mn & w & Ho).
  { refine (rtc_invariant _ (fun s => exists mn w, one p s mn w) _ _ _ _ Hr); [eexists _, _; apply one_start|].
    intros s1 s2 (mn & w & Ho) (a & Ha). by eapply one_act. }
  assert (measure s <= 7) as Hm.
  { unfold measure. rewrite (o_mounts _ _ _ _ Ho). unfold todo. cbn. destruct (o_signal _ _ _ _ Ho Hb) as [_ Hi].
    pose proof (o_installed _ _ _ _ Ho Hi). destruct mn, w; cbn in *; try done; lia. }
  assert (forall actions s s' mn w, one p s mn w -> SHUTDOWN_BY_SIGNAL s = true -> forallb is_thread actions = true ->
    run Unix helper actions s = Some s' -> measure s' + lenZ actions <= measure s /\
    SHUTDOWN_BY_SIGNAL s' = true /\ (helper p = true -> attended p s -> attended p s') /\
    exists mn' w', one p s' mn' w') as Hrun.
  { clear. induction actions as [|a l IH]; intros s s' mn w Ho Hb Ht Hrun; cbn in Ht, Hrun.
    - simplify_eq. unfold lenZ. cbn. split_and!; [lia|done|done|eauto].
    - apply andb_true_iff in Ht as [Ha Ht]. destruct (act Unix helper a s) as [s1|] eqn:E; [|done].
      destruct (one_act _ _ _ _ _ _ _ Ho E) as (mn1 & w1 & Ho1).
      destruct (IH s1 s' mn1 w1 Ho1 ltac:(by erewrite thread_act_signal) Ht Hrun) as (H1 & H2 & H3 & H4).
      pose proof (thread_act_measure _ _ _ _ _ Ha E). unfold lenZ in *. cbn [length]. split_and!; [lia|done| |done].
      intros Hh Hat. apply H3; [done|]. exact (attended_act helper p s mn w a s1 Hh Ho Hb Hat Ha E). }
  intros actions s' Ht Hact. destruct (Hrun actions s s' mn w Ho Hb Ht Hact) as (H1 & H2 & H3 & mn' & w' & Ho').
  pose proof (measure_nonneg s'). split; [lia|]. intros Hs. destruct (stuck_cases _ _ _ _ _ Ho' H2 Hs) as [He|Hl].
  - split; [by left|done].
  - split; [by right|]. intros Hh Hat. destruct Hl as (mn2 & E2 & _ & Hin).
    destruct (H3 Hh Hat) as [?|(m & Em & Hg)]; [done|]. rewrite E2 in Em. by simplify_eq.
Qed.

Definition one_run : list action := [Main 0; Main 0; Main 0; SignalFirst; SignalSecond].
Definition threads : list action := [Watch 0; Watch 0; Watch 0; Main 0; Main 0; Main 0].
Definition always : string -> bool := fun _ => true.

Definition signalled : state := default (start []) (run Unix always one_run (start ["/m"%string])).

Definition finished : state := default (start []) (run Unix always threads signalled).

Lemma signal_ends_mount_witness : run Unix always threads signalled = Some finished /\ lenZ threads <= 7 /\ ended "/m" finished.
Proof.
  assert (run Unix always threads signalled = Some finished) as Hr by (vm_compute; reflexivity). split; [exact Hr|].
  assert (rtc (step Unix always) (start ["/m"%string]) signalled) as Hc
    by (apply (run_steps Unix always one_run); vm_compute; reflexivity).
  assert (SHUTDOWN_BY_SIGNAL signalled = true) as Hb by (vm_compute; reflexivity).
  destruct (signal_ends_mount always "/m" signalled Hc Hb threads finished eq_refl Hr) as [Hl He].
  split; [exact Hl|]. apply He; [|reflexivity|right; eexists; split; [vm_compute; reflexivity|vm_compute; discriminate]]. intros [[]|[]| | | |] Ht; vm_compute; reflexivity || discriminate Ht.
Defined.

(** ** Two mounts share the flags *)

(** A mount whose watcher is gone and whose thread waits for it to end. *)
Record deaf (j : nat) (p : string) (s : state) : Prop := {
  d_table : p ∈ table s;
  d_session : FUSE_SESSION s <> Some j;
  d_mount : exists m, mounts s !! j = Some m /\ mp m = p /\ watcher m = Gone /\ (main m = Polling \/ main m = Joining j);
  d_others : forall i m, i <> j -> mounts s !! i = Some m -> mp m <> p
}.

Lemma deaf_other i j p s m m' s' :
  deaf j p s -> i <> j -> mounts s !! i = Some m -> mp m' = mp m ->
  FUSE_SESSION s' <> Some j -> p ∈ table s' -> mounts s' = <[i := m']> (mounts s) -> deaf j p s'.
Proof.
  intros [H1 H2 H3 H4] Hne Hi Hm Hs Ht Es. split; [done|done| |].
  - rewrite Es, list_lookup_insert_ne by done. done.
  - rewrite Es. intros k mk Hk Hl. destruct (decide (k = i)) as [->|].
    + rewrite list_lookup_insert_eq in Hl by (by eapply lookup_lt_Some). simplify_eq. rewrite Hm. by eapply H4.
    + rewrite list_lookup_insert_ne in Hl by done. by eapply H4.
Qed.

Lemma main_act_effect i m s s' : main_act Unix i m s = Some s' -> main m <> KeepAlive ->
  (exists x, mounts s' = <[i := x]> (mounts s) /\ mp x = mp m) /\ table s ⊆ table s' /\
  (FUSE_SESSION s' = FUSE_SESSION s \/ FUSE_SESSION s' = None \/ FUSE_SESSION s' = Some i).
Proof.
  intros Ha Hk. unfold main_act in Ha. destruct (main m); repeat case_match; simplify_eq; cbn; split_and!; eauto; try done; set_solver +.
Qed.

Lemma watch_act_effect helper i m s s' : watch_act helper i m s = Some s' ->
  (exists x, mounts s' = <[i := x]> (mounts s) /\ mp x = mp m) /\ table s ∖ {[mp m]} ⊆ table s' /\ FUSE_SESSION s' = FUSE_SESSION s.
Proof.
  intros Ha. unfold watch_act in Ha. destruct (watcher m); repeat case_match; simplify_eq; cbn; split_and!; eauto; try done; set_solver +.
Qed.

Lemma unix_act helper a s s' : Forall (fun m => main m <> KeepAlive) (mounts s) -> act Unix helper a s = Some s' ->
  Forall (fun m => main m <> KeepAlive) (mounts s').
Proof.
  intros Hu Ha. destruct a as [i|i| | |q|]; cbn in Ha.
  - destruct (mounts s !! i) as [m|] eqn:Ei; [|done]. unfold main_act in Ha.
    destruct (main m) eqn:Em; repeat case_match; simplify_eq; cbn; by apply Forall_insert.
  - destruct (mounts s !! i) as [m|] eqn:Ei; [|done]. pose proof (Forall_lookup_1 _ _ _ _ Hu Ei). unfold watch_act in Ha.
    destruct (watcher m) eqn:Em; repeat case_match; simplify_eq; cbn; by apply Forall_insert.
  - unfold handler_first in Ha. case_match; by simplify_eq.
  - unfold handler_second in Ha. case_match; by simplify_eq.
  - by simplify_eq.
  - destruct (FUSE_SESSION s) as [k|]; [|done]. case_match; by simplify_eq.
Qed.

(** No action but an unmount from outside ends such a mount. *)
Lemma deaf_act helper j p s a s' :
  deaf j p s -> Forall (fun m => main m <> KeepAlive) (mounts s) -> act Unix helper a s = Some s' -> a <> External p -> deaf j p s'.
Proof.
  intros Hd Hu Ha Hx. pose proof Hd as [H1 H2 (m & Hm & Ep & Ew & Em) H4]. destruct a as [i|i| | |q|]; cbn in Ha.
  - destruct (mounts s !! i) as [mi|] eqn:Ei; [|done]. destruct (decide (i = j)) as [->|Hne].
    + assert (mi = m) as -> by congruence. unfold main_act in Ha. rewrite Ep in Ha. destruct Em as [E|E]; rewrite E in Ha; cbn in Ha; unfold in_table, mp_of in Ha; rewrite ?Ei in Ha; cbn in Ha; rewrite ?Ep in Ha;
        by rewrite bool_decide_eq_true_2 in Ha.
    + apply main_act_effect in Ha as ((x & Es & Ex) & Ht & Hf); [|by eapply Forall_lookup_1 in Hu].
      eapply deaf_other; try done; [|by apply Ht]. destruct Hf as [->|[->| ->]]; congruence.
  - destruct (mounts s !! i) as [mi|] eqn:Ei; [|done]. destruct (decide (i = j)) as [->|Hne].
    + simplify_eq. unfold watch_act in Ha. by rewrite Ew in Ha.
    + apply watch_act_effect in Ha as ((x & Es & Ex) & Ht & Hf). eapply deaf_other; try done; [congruence|].
      apply Ht, elem_of_difference. split; [done|]. rewrite elem_of_singleton. intros ->. by eapply H4.
  - unfold handler_first in Ha. case_match; simplify_eq. split; cbn; eauto.
  - unfold handler_second in Ha. case_match; simplify_eq. split; cbn; eauto.
  - simplify_eq. split; cbn; eauto. apply elem_of_difference. split; [done|]. rewrite elem_of_singleton. congruence.
  - destruct (FUSE_SESSION s) as [k|] eqn:Es; [|done]. assert (k <> j) as Hk by congruence. unfold mp_of in Ha.
    destruct (mounts s !! k) as [mk|] eqn:Ek; simplify_eq; split; cbn; eauto.
    apply elem_of_difference. split; [done|]. rewrite elem_of_singleton. intros E. by apply (H4 k mk).
Qed.
Definition spares (p : string) (a : action) : bool := match a with External q => negb (String.eqb q p) | _ => true end.
Lemma deaf_run helper j p actions s s' :
  deaf j p s -> Forall (fun m => main m <> KeepAlive) (mounts s) -> forallb (spares p) actions = true ->
  run Unix helper actions s = Some s' -> deaf j p s'.
Proof.
  revert s. induction actions as [|a l IH]; intros s Hd Hu Hs Hr; cbn in Hs, Hr; [by simplify_eq|].
  apply andb_true_iff in Hs as [Ha Hs]. destruct (act Unix helper a s) as [s1|] eqn:E; [|done]. eapply (IH s1); try done.
  - eapply deaf_act; [done..|]. intros ->. cbn in Ha. by rewrite String.eqb_refl in Ha.
  - by eapply unix_act.
Qed.

(** The two conditions, decided. *)
Definition no_keep_alive (s : state) : bool := forallb (fun m => match main m with KeepAlive => false | _ => true end) (mounts s).
Lemma unwaiting s : no_keep_alive s = true -> Forall (fun m => main m <> KeepAlive) (mounts s).
Proof. unfold no_keep_alive. induction (mounts s) as [|m l IH]; cbn; [done|]. intros H. apply andb_true_iff in H as [Hm Hl]. constructor; [by destruct (main m)|auto]. Qed.
Definition is_deaf (j : nat) (p : string) (s : state) : bool :=
  bool_decide (p ∈ table s) && negb (bool_decide (FUSE_SESSION s = Some j)) &&
  match mounts s !! j with
  | Some m => String.eqb (mp m) p && match watcher m with Gone => true | _ => false end &&
              match main m with Polling => true | Joining k => (k =? j)%nat | _ => false end
  | None => false
  end &&
  forallb (fun im => (fst im =? j)%nat || negb (String.eqb (mp (snd im)) p)) (imap pair (mounts s)).
Lemma deaf_check j p s : is_deaf j p s = true -> deaf j p s.
Proof.
  unfold is_deaf. rewrite !andb_true_iff. intros [[[H1 H2] H3] H4]. destruct (mounts s !! j) as [m|] eqn:Em; [|done].
  rewrite !andb_true_iff in H3. destruct H3 as [[H3 H5] H6]. split.
  - by apply bool_decide_eq_true in H1.
  - apply negb_true_iff, bool_decide_eq_false in H2. done.
  - exists m. apply String.eqb_eq in H3. split_and!; [done|done|by destruct (watcher m)|].
    destruct (main m); try done; [right; by apply Nat.eqb_eq in H6 as ->|by left].
  - intros i mi Hi Hl E. rewrite forallb_forall in H4. specialize (H4 (i, mi)). cbn in H4. subst p.
    rewrite String.eqb_refl, orb_false_r in H4. apply Hi, Nat.eqb_eq, H4. apply list_elem_of_In, list_elem_of_lookup.
    exists i. by rewrite list_lookup_imap, Hl.
Qed.

Definition two_run : list action :=
  [Main 0; Main 0; Main 0; Main 1; Main 1; Main 1; External "/a"; Main 0; Main 0; Watch 1; Watch 1].
Definition two_mounts : state := default (start []) (run Unix always two_run (start ["/a"; "/b"]%string)).

(** Two mounts in a process, the first of which is unmounted from outside: its
    thread sets the flag for its own watcher, the watcher of the second mount
    sees it and leaves.  From then on signals do not end the second mount: its
    thread waits and the kernel has it, until somebody unmounts it. *)
Theorem signal_unheard_after_other_mount :
  run Unix always two_run (start ["/a"; "/b"]%string) = Some two_mounts /\
  forall helper actions s', forallb (spares "/b") actions = true -> run Unix helper actions two_mounts = Some s' -> deaf 1 "/b" s'.
Proof.
  split; [vm_compute; reflexivity|]. intros helper actions s'. apply deaf_run; [|apply unwaiting; vm_compute; reflexivity].
  by apply deaf_check.
Qed.

Definition split_run : list action := [Main 0; Main 0; Main 0; SignalFirst; Watch 0; Watch 0; SignalSecond].
Definition split_signal : state := default (start []) (run Unix always split_run (start ["/m"%string])).

(** The watcher looks between the two stores of the handler: it takes the signal
    for the end of the session and leaves, and neither this signal nor a later
    one ends the mount. *)
Theorem signal_lost_between_stores :
  run Unix always split_run (start ["/m"%string]) = Some split_signal /\
  forall helper actions s', forallb (spares "/m") actions = true -> run Unix helper actions split_signal = Some s' -> deaf 0 "/m" s'.
Proof.
  split; [vm_compute; reflexivity|]. intros helper actions s'. apply deaf_run; [|apply unwaiting; vm_compute; reflexivity].
  by apply deaf_check.
Qed.
(** [CLEANUP_MP] is set once: the exit handler unmounts and forgets the first
    mount of the process, and no other. *)
Theorem cleanup_first_mount_only pf helper p s s' :
  CLEANUP_MP s = Some p -> rtc (step pf helper) s s' ->
  rows (exit_cleanup helper s') = rows s' ∖ {[p]} /\ forall q, q <> p -> q ∈ table s' -> q ∈ table (exit_cleanup helper s').
Proof.
  intros Hc Hr. assert (CLEANUP_MP s' = Some p) as E.
  { refine (rtc_invariant _ (fun s => CLEANUP_MP s = Some p) _ _ Hc _ Hr). clear. intros s s' Hc [a Ha].
    destruct a as [i|i| | |q|]; cbn in Ha; unfold main_act, watch_act, handler_first, handler_second in Ha; repeat case_match; simplify_eq; cbn;
      by rewrite ?Hc. }
  unfold exit_cleanup. rewrite E. split; [by repeat case_match|]. intros q Hq Ht. repeat case_match; cbn; try done.
  apply elem_of_difference. by rewrite elem_of_singleton.
Qed.

(** ** The loop that reports the counters of the memory cache

    One tick is 100 ms. *)
Fixpoint reports (interval elapsed : Z) (ticks : nat) : nat :=
  match ticks with
  | O => 0
  | S n => let elapsed := elapsed + 100 in
           if elapsed <? interval then reports interval elapsed n else S (reports interval 0 n)
  end.

Lemma reports_spec secs k n : 0 < secs -> 0 <= k < 10 * secs ->
  Z.of_nat (reports (1000 * secs) (100 * k) n) = (k + Z.of_nat n) / (10 * secs).
Proof.
  intros Hs. revert k. induction n as [|n IH]; intros k Hk; cbn [reports].
  - rewrite Z.div_small; lia.
  - case_test; bool_props.
    + replace (100 * k + 100) with (100 * (k + 1)) by lia. rewrite IH by lia. f_equal. lia.
    + rewrite Nat2Z.inj_succ. replace 0 with (100 * 0) at 1 by lia. rewrite IH by lia.
      replace (k + Z.of_nat (S n)) with (0 + Z.of_nat n + 1 * (10 * secs)) by lia. rewrite Z.div_add by lia. lia.
Qed.

(** A report every [secs] seconds. *)
Theorem reports_every secs n : 0 < secs -> Z.of_nat (reports (1000 * secs) 0 n) = Z.of_nat n / (10 * secs).
Proof. intros Hs. apply (reports_spec secs 0 n); lia. Qed.
End Shutdown.
