(* ===== verification/Host.v ===== *)
(** * Host: what the program takes from its surroundings

    [Env]: directories, the panic log and the memory limit of the cgroup
    (src/src/util.rs).  [Paths]: separators and mount targets of Windows
    (src/src/path.rs).  [Removal]: the recursive delete
    (src/src/lib.rs).  [Permits]: the four upload permits all mounts of a process
    share (src/src/writeback.rs).  [Streams]: the standard streams of a daemon
    (src/src/cmd/mount.rs). *)

From Stdlib Require Import ZArith Lia Strings.String Strings.Ascii.
From S2P Require Import Prelude Util Mounts.

(** ** Environment *)
Module Env.
Import Db.

(** [runtime_dir]: the variable, unless it is unset or empty. *)
Definition runtime_dir (xdg_runtime_dir : option string) : option string :=
  match xdg_runtime_dir with
  | Some v => if String.eqb v EmptyString then None else Some v
  | None => None
  end.

(** The file the panic hook writes; [temp_dir] is the standard library's. *)
Definition panic_log_path (panic_log xdg_runtime_dir tmpdir : option string) (temp_dir pid : string) : string :=
  match panic_log with
  | Some p => p
  | None =>
      let dir := match xdg_runtime_dir with Some d => d | None => default temp_dir tmpdir end in
      join dir ("mntrs-panic." +:+ pid +:+ ".log")
  end.

(** Times in nanoseconds from the epoch, which earlier times are moved to. *)
Definition opendal_timestamp_to_system_time (t : Z) : Z := if t <? 0 then 0 else t.

(** [str::trim], on ASCII. *)
Fixpoint trim_start (s : string) : string :=
  match s with String a r => if Detect.ascii_ws a then trim_start r else s | EmptyString => EmptyString end.
Fixpoint rev_append (s acc : string) : string := match s with String a r => rev_append r (String a acc) | EmptyString => acc end.
Definition reverse (s : string) : string := rev_append s EmptyString.
Definition trim (s : string) : string := reverse (trim_start (reverse (trim_start s))).
(** The two files, where they can be read. *)
Definition cgroup_v2 (memory_max : option string) : option Z :=
  match memory_max with
  | None => None
  | Some c =>
      let t := trim c in
      if String.eqb t "max" then None
      else match Str.from_str_radix 10 t with Some v => if 0 <? v then Some v else None | None => None end
  end.
Definition detect_cgroup_memory_limit (limit_in_bytes memory_max : option string) : option Z :=
  match limit_in_bytes with
  | None => cgroup_v2 memory_max
  | Some c =>
      match Str.from_str_radix 10 (trim c) with
      | None => None
      | Some v => if (0 <? v) && (v <? U64_MAX) then Some v else cgroup_v2 memory_max
      end
  end.

(** A limit that is found is positive; without the file of version 1 it is the
    number of version 2, and there is none for "max". *)
Theorem cgroup_limit_spec l1 l2 v : detect_cgroup_memory_limit l1 l2 = Some v ->
  0 < v /\ (l1 = None -> exists c, l2 = Some c /\ trim c <> "max" /\ Str.from_str_radix 10 (trim c) = Some v).
Proof.
  assert (forall l v, cgroup_v2 l = Some v -> 0 < v /\ exists c, l = Some c /\ trim c <> "max" /\ Str.from_str_radix 10 (trim c) = Some v) as H2.
  { intros [c|] w; cbn; [|done]. destruct (String.eqb_spec (trim c) "max"); [done|]. destruct (Str.from_str_radix 10 (trim c)) as [x|] eqn:E; [|done].
    destruct (Z.ltb_spec 0 x); [|done]. intros [= <-]. eauto. }
  destruct l1 as [c|]; cbn; [|intros H; destruct (H2 _ _ H); auto].
  destruct (Str.from_str_radix 10 (trim c)) as [x|]; [|done]. destruct (Z.ltb_spec 0 x); cbn; [|intros H'; destruct (H2 _ _ H'); auto].
  destruct (x <? U64_MAX); [intros [= <-]; by auto|intros H'; by destruct (H2 _ _ H')].
Qed.

(** A file of version 1 that is not a number hides the limit of version 2; the
    number it has when there is no limit is taken for one. *)
Example cgroup_v1_hides_v2 : detect_cgroup_memory_limit (Some "max") (Some "1048576") = None.
Proof. by vm_compute. Qed.
Example cgroup_v1_unlimited : detect_cgroup_memory_limit (Some "9223372036854771712") (Some "1048576") = Some 0x7FFFFFFFFFFFF000.
Proof. by vm_compute. Qed.
(** An empty XDG_RUNTIME_DIR, which [runtime_dir] refuses, puts the panic log into
    the working directory. *)
Example panic_log_relative :
  runtime_dir (Some EmptyString) = None /\ panic_log_path None (Some EmptyString) (Some "/t") "/tmp" "7" = "mntrs-panic.7.log".
Proof. by vm_compute. Qed.
End Env.

(** ** Paths *)
Module Paths.

Definition BACKSLASH : ascii := "\"%char.
Definition normalize (p : string) : string := Str.replace_char BACKSLASH Str.SLASH p.
Definition to_native (windows : bool) (p : string) : string := if windows then Str.replace_char Str.SLASH BACKSLASH p else p.
(** A mount target: a drive, any free drive, or a directory. *)
Inductive MountPoint := Drive (d : string) | NextFreeDrive | NtfsDirectory (p : string).
Definition is_letter (a : ascii) : bool :=
  let c := Z.of_nat (nat_of_ascii a) in ((65 <=? c) && (c <=? 90)) || ((97 <=? c) && (c <=? 122)).
Definition parse_windows_target (target : string) : MountPoint :=
  let t := Env.trim target in
  match t with
  | String a (String b EmptyString) => if Ascii.eqb b ":" && is_letter a then Drive t else NtfsDirectory t
  | _ => if String.eqb t "*" then NextFreeDrive else NtfsDirectory t
  end.

(** The two forms of a path have one normal form, which has no backslash. *)
Theorem normalize_native windows p :
  normalize (to_native windows p) = normalize p /\ normalize (normalize p) = normalize p /\
  Str.contains_char BACKSLASH (normalize p) = false.
Proof.
  unfold normalize, to_native. assert (BACKSLASH <> Str.SLASH) as Hne by done. split_and!.
  - destruct windows; [|done]. induction p as [|a p IH]; cbn; [done|]. f_equal; [|done].
    destruct (ascii_dec a Str.SLASH) as [->|]; [|done]. destruct (ascii_dec BACKSLASH BACKSLASH), (ascii_dec Str.SLASH BACKSLASH); done.
  - induction p as [|a p IH]; cbn; [done|]. f_equal; [|done]. destruct (ascii_dec a BACKSLASH) eqn:E; [|by rewrite E].
    by destruct (ascii_dec Str.SLASH BACKSLASH).
  - induction p as [|a p IH]; cbn; [done|]. rewrite IH, orb_false_r. destruct (ascii_dec a BACKSLASH); by apply bool_decide_eq_false_2.
Qed.
End Paths.

(** ** Recursive removal *)
Module Removal.

(** The prefix [batch_remove_path] deletes. *)
Definition removal_target (path : string) : string :=
  let normalized := Str.trim_end Str.SLASH path in
  if String.eqb normalized EmptyString then "/" else normalized +:+ "/".
(** A backend with the keys under the root of the operator. *)
Definition store : Type := gmap string bytes.
Definition under (target k : string) : bool :=
  if String.eqb target "/" then true else match Str.strip_prefix target k with Some _ => true | None => false end.

Lemma trim_end_app c s t : Str.trim_end c t = EmptyString -> Str.trim_end c (s +:+ t) = Str.trim_end c s.
Proof.
  intros Ht. induction s as [|a s IH]; [by rewrite Str.append_nil_l|]. rewrite Str.append_cons. cbn. by rewrite IH.
Qed.
Lemma strip_prefix_slash p k : Str.strip_prefix (p +:+ "/") (p +:+ "/" +:+ k) = Some k.
Proof.
  induction p as [|a p IH]; [by rewrite !Str.append_nil_l; destruct k|]. rewrite !Str.append_cons. cbn. by destruct (ascii_dec a a).
Qed.

Section Backend.
(** [delete_with(target).recursive(true)], as opendal documents it: on success
    nothing under the prefix is left and the rest is untouched. *)
Context (delete_recursive : string -> store -> result store string).
Hypothesis delete_removes : forall t s s', delete_recursive t s = Ok s' -> forall k, s' !! k = if under t k then None else s !! k.

Definition batch_remove_path (path : string) (s : store) : result store string := delete_recursive (removal_target path) s.

(** [rm -rf]: a name with and without its slashes is the same directory, its
    entries are gone, and a name that only begins like it is not. *)
Theorem batch_remove_subtree path n s s' :
  batch_remove_path (path +:+ Path.slashes n) s = Ok s' -> Str.trim_end Str.SLASH path = path -> path <> EmptyString ->
  (forall k, s' !! (path +:+ "/" +:+ k) = None) /\
  (forall k, Str.strip_prefix (path +:+ "/") k = None -> s' !! k = s !! k).
Proof using delete_removes.
  unfold batch_remove_path. intros H Hp Hne. assert (removal_target (path +:+ Path.slashes n) = path +:+ "/") as Et.
  { unfold removal_target. rewrite trim_end_app, Hp by apply Path.trim_end_slashes.
    apply String.eqb_neq in Hne. by rewrite Hne. }
  rewrite Et in H. assert (forall k, under (path +:+ "/") k = match Str.strip_prefix (path +:+ "/") k with Some _ => true | None => false end) as Hu.
  { intros k. unfold under. destruct (String.eqb_spec (path +:+ "/") "/") as [E|]; [|done]. by destruct path as [|? []]. }
  split; intros k.
  - rewrite (delete_removes _ _ _ H), Hu. by rewrite strip_prefix_slash.
  - intros Hk. by rewrite (delete_removes _ _ _ H), Hu, Hk.
Qed.
End Backend.

(** A store that deletes by prefix. *)
Definition delete_prefix (t : string) (s : store) : result store string := Ok (filter (fun kv => under t (fst kv) = false) s).
Lemma delete_prefix_removes t s s' : delete_prefix t s = Ok s' -> forall k, s' !! k = if under t k then None else s !! k.
Proof.
  unfold delete_prefix, store in *. intros [= <-] k. rewrite map_lookup_filter. destruct (s !! k); cbn; [|by destruct (under t k)].
  destruct (under t k) eqn:E; by case_guard; cbn in *; rewrite ?E in *.
Qed.
Definition three : store := <["d/x"%string := []]> (<["d/e/y"%string := []]> {["dd"%string := []]}).
Lemma batch_remove_subtree_witness : exists s', batch_remove_path delete_prefix "d//" three = Ok s' /\
  s' !! ("d" +:+ "/" +:+ "x")%string = None /\ s' !! "dd"%string = three !! "dd"%string.
Proof.
  eexists. split; [reflexivity|].
  destruct (batch_remove_subtree delete_prefix delete_prefix_removes "d" 2 three _ eq_refl eq_refl ltac:(done)) as [H1 H2].
  split; [apply H1|by apply H2].
Defined.
End Removal.

(** ** The upload permits

    Every mount has a worker that takes a due task, reads its data and waits for
    one of four permits of the process before it starts the upload and goes on;
    an upload keeps its permit through all its attempts and the pauses between
    them. *)
Module Permits.

Definition PERMITS : nat := 4.
Inductive worker := Turning | Waiting (task : Z).
Record state := mk_state { available : nat; workers : list worker; uploads : list (nat * Z) }.
Definition start (mounts : nat) : state := mk_state PERMITS (replicate mounts Turning) [].
Inductive action := TakeDue (mount : nat) (task : Z) | Acquire (mount : nat) | EndUpload (k : nat).
Definition act (a : action) (s : state) : option state :=
  match a with
  | TakeDue i t =>
      match workers s !! i with
      | Some Turning => Some (mk_state (available s) (<[i := Waiting t]> (workers s)) (uploads s))
      | _ => None
      end
  | Acquire i =>
      match workers s !! i, available s with
      | Some (Waiting t), S n => Some (mk_state n (<[i := Turning]> (workers s)) (uploads s ++ [(i, t)]))
      | _, _ => None
      end
  | EndUpload k =>
      match uploads s !! k with
      | Some _ => Some (mk_state (S (available s)) (workers s) (delete k (uploads s)))
      | None => None
      end
  end.
Definition step (s s' : state) : Prop := exists a, act a s = Some s'.
Fixpoint run (actions : list action) (s : state) : option state :=
  match actions with [] => Some s | a :: l => match act a s with Some s' => run l s' | None => None end end.

Lemma permits_kept a s s' : act a s = Some s' -> (available s' + length (uploads s') = available s + length (uploads s))%nat.
Proof.
  destruct a as [i t|i|k]; cbn; intros H; repeat case_match; simplify_eq; cbn; [done| |].
  - rewrite length_app. cbn. lia.
  - rewrite length_delete by done. apply lookup_lt_Some in H0. lia.
Qed.

(** However many mounts a process has, no more than four uploads run at a time,
    and a waiting worker can go on unless four do. *)
Theorem uploads_bounded mounts s : rtc step (start mounts) s ->
  (length (uploads s) <= PERMITS)%nat /\
  (forall i t, workers s !! i = Some (Waiting t) -> length (uploads s) = PERMITS \/ is_Some (act (Acquire i) s)).
Proof.
  intros Hr. assert (available s + length (uploads s) = PERMITS)%nat as H.
  { refine (rtc_invariant _ (fun s => available s + length (uploads s) = PERMITS)%nat _ _ _ _ Hr); [done|].
    intros s1 s2 H1 [a Ha]. by rewrite (permits_kept _ _ _ Ha). }
  split; [lia|]. intros i t Hw. cbn. rewrite Hw. destruct (available s); [left; lia|right; by eexists].
Qed.

(** Four uploads of one mount that do not end, as with a backend that is down,
    stop the workers of all others: one that waits keeps waiting, and nothing of
    its mount is uploaded. *)
Theorem stalled_uploads_stop_all i t actions s s' :
  available s = O -> workers s !! i = Some (Waiting t) -> forallb (fun a => match a with EndUpload _ => false | _ => true end) actions = true ->
  run actions s = Some s' -> workers s' !! i = Some (Waiting t) /\ uploads s' = uploads s.
Proof.
  revert s. induction actions as [|a l IH]; intros s Ha Hw Hf Hr; cbn in Hf, Hr; [by simplify_eq|].
  apply andb_true_iff in Hf as [Hf1 Hf2]. destruct (act a s) as [s1|] eqn:E; [|done]. destruct a as [j u|j|k]; cbn in E; [|..|done].
  - destruct (workers s !! j) as [[]|] eqn:Ej; simplify_eq. eapply IH in Hr; try done. cbn. rewrite list_lookup_insert_ne; [done|congruence].
  - rewrite Ha in E. by destruct (workers s !! j) as [[]|].
Qed.
Example one_mount_stops_another :
  exists s, run [TakeDue 0 1; Acquire 0; TakeDue 0 2; Acquire 0; TakeDue 0 3; Acquire 0; TakeDue 0 4; Acquire 0; TakeDue 1 5] (start 2) = Some s /\
    available s = O /\ workers s !! 1%nat = Some (Waiting 5).
Proof. by eexists. Qed.
End Permits.

(** ** The standard streams of a daemon *)
Module Streams.

(** The descriptors of the process and what they are open on. *)
Definition fds : Type := gmap Z string.
Definition dup2 (old new : Z) (t : fds) : fds := match t !! old with Some f => <[new := f]> t | None => t end.
(** [opened]: the descriptor of the log, or of /dev/null without a log; negative
    when it cannot be opened. *)
Definition detach (internal_daemon daemon : bool) (log : option string) (opened : Z) (t : fds) : fds :=
  if internal_daemon && (daemon || internal_daemon) then
    if 0 <=? opened then
      let t := <[opened := default "/dev/null" log]> t in
      let t := dup2 opened 2 (dup2 opened 1 t) in
      if 2 <? opened then delete opened t else t
    else t
  else t.

(** A daemon writes to its log, keeps no other descriptor than it had, and the
    pipe of the shell that started it is closed; when the log cannot be opened
    nothing changes. *)
Theorem detach_spec daemon log opened (t : fds) :
  t !! opened = None -> is_Some (t !! 1) -> is_Some (t !! 2) ->
  let t' := detach true daemon log opened t in
  if 0 <=? opened then
    t' !! 1 = Some (default "/dev/null" log) /\ t' !! 2 = Some (default "/dev/null" log) /\
    (forall fd, fd <> 1 -> fd <> 2 -> fd <> opened -> t' !! fd = t !! fd) /\ (opened <> 0 -> dom t' = dom t)
  else t' = t.
Proof.
  intros Ho [f1 H1] [f2 H2]. cbv zeta. unfold detach. cbn [andb orb]. rewrite orb_true_r. destruct (Z.leb_spec 0 opened) as [Hp|]; [|done].
  assert (opened <> 1 /\ opened <> 2) as [N1 N2] by (split; intros ->; congruence).
  unfold dup2, fds in *. rewrite lookup_insert_eq, lookup_insert_ne, lookup_insert_eq by done.
  destruct (Z.ltb_spec 2 opened).
  - split_and!.
    + by rewrite lookup_delete_ne, lookup_insert_ne, lookup_insert_eq by done.
    + by rewrite lookup_delete_ne, lookup_insert_eq by done.
    + intros fd ???. by rewrite lookup_delete_ne, !lookup_insert_ne by done.
    + intros _. rewrite dom_delete_L, !dom_insert_L. assert (1 ∈ dom t) by (by apply elem_of_dom_2 in H1).
      assert (2 ∈ dom t) by (by apply elem_of_dom_2 in H2). assert (opened ∉ dom t) by (by apply not_elem_of_dom). set_solver.
  - assert (opened = 0) as -> by lia. split_and!.
    + by rewrite lookup_insert_ne, lookup_insert_eq by done.
    + apply lookup_insert_eq.
    + intros fd ???. by rewrite !lookup_insert_ne by done.
    + done.
Qed.
End Streams.
