(* ===== verification/Config.v ===== *)
(** * Config: from the command line to an operator and a mount

    Models the option handling of src/src/main.rs, the operators built by
    src/src/cmd/mount.rs, the settings [mount] derives, its daemon mode, and
    src/src/cmd/install.rs. *)

From Stdlib Require Import ZArith Lia Strings.Byte Strings.String Strings.Ascii.
From stdpp Require Import pretty.
From S2P Require Import Prelude Util Utf8 Mounts.

(** ** Options and operators *)
Module Operator.

(** [str::split_once]. *)
Fixpoint split_once (c : ascii) (s : string) : option (string * string) :=
  match s with
  | EmptyString => None
  | String a r => if ascii_dec a c then Some (EmptyString, r)
                  else match split_once c r with Some (x, y) => Some (String a x, y) | None => None end
  end.
(** [--opt KEY=VAL ..] and [--storage-class] of the mount command. *)
Fixpoint parse_opts (kvs : list string) (opts : gmap string string) : result (gmap string string) string :=
  match kvs with
  | [] => Ok opts
  | kv :: kvs => match split_once "=" kv with
                 | Some (k, v) => parse_opts kvs (<[k := v]> opts)
                 | None => Err kv
                 end
  end.
Definition cli_opts (kvs : list string) (storage_class : option string) : result (gmap string string) string :=
  match parse_opts kvs ∅ with
  | Ok opts => Ok (match storage_class with Some c => <["storage-class"%string := c]> opts | None => opts end)
  | Err e => Err e
  end.

(** A parsed URL; parsing is the url crate's. *)
Record Url := mk_url { scheme : string; host : option string; port : option Z; path : string }.
Inductive service :=
| S3 | Gcs | Azblob | HdfsNative | HdfsJni | Webhdfs | Oss | Cos | Obs | B2 | VercelBlob | AliyunDrive | Fs | Memory | Webdav.
#[export] Instance service_eq_dec : EqDecision service.
Proof. solve_decision. Defined.
(** The setters called on the builder, in order. *)
Definition builder : Type := list (string * string).
Inductive client := Shared | Tls (insecure : bool) (cacert cert : option bytes).
Record S3DeleteMountConfig := mk_s3_delete {
  endpoint : Url; bucket : string; prefix : string; region : string;
  access_key_id : option string; secret_access_key : option string
}.
Record BuiltOperator := mk_built {
  svc : service; calls : builder; http : client; s3_delete_config : option S3DeleteMountConfig
}.
Inductive error :=
| InvalidUrl | Missing (what : string) | UnsupportedScheme (s : string) | SftpNotBuilt
| CertFile (p : string) | InvalidEndpoint (v : string) | BuilderRefused.

Fixpoint trim_start_slashes (s : string) : string :=
  match s with String a r => if Ascii.eqb a Str.SLASH then trim_start_slashes r else s | EmptyString => s end.

Section Build.
(** [parse]: [Url::parse]; [read_pem]: a certificate file, [None] if it cannot
    be read or is not PEM; [accept]: whether opendal takes the builder. *)
Context (parse : string -> option Url) (read_pem : string -> option bytes) (accept : service -> builder -> bool).
(** The features the program was built with. *)
Context (hdfs_jni_feature sftp_feature : bool).

Definition build_mount_http_client (opts : gmap string string) : result client error :=
  let insecure := bool_decide (is_Some (opts !! "insecure"%string)) in
  if insecure || bool_decide (is_Some (opts !! "cacert"%string)) || bool_decide (is_Some (opts !! "cert"%string)) then
    match opts !! "cacert"%string, opts !! "cert"%string with
    | None, None => Ok (Tls insecure None None)
    | Some p, None => match read_pem p with Some b => Ok (Tls insecure (Some b) None) | None => Err (CertFile p) end
    | None, Some p => match read_pem p with Some b => Ok (Tls insecure None (Some b)) | None => Err (CertFile p) end
    | Some p, Some q => match read_pem p, read_pem q with
                        | Some a, Some b => Ok (Tls insecure (Some a) (Some b))
                        | None, _ => Err (CertFile p)
                        | _, None => Err (CertFile q)
                        end
    end
  else Ok Shared.
Definition apply_operator_with_tls (s : service) (b : builder) (opts : gmap string string) : result client error :=
  match build_mount_http_client opts with
  | Ok c => if accept s b then Ok c else Err BuilderRefused
  | Err e => Err e
  end.
Definition plain_operator (s : service) (b : builder) (opts : gmap string string) : result BuiltOperator error :=
  match apply_operator_with_tls s b opts with Ok c => Ok (mk_built s b c None) | Err e => Err e end.

Definition root_call (u : Url) : builder :=
  let p := trim_start_slashes (path u) in if String.eqb p EmptyString then [] else [("root"%string, p)].
(** [if let Some(v) = opts.get(key) { builder = builder.setter(v) }]. *)
Definition opt_call (opts : gmap string string) (key setter : string) : builder :=
  match opts !! key with Some v => [(setter, v)] | None => [] end.
Definition opt_calls (opts : gmap string string) (l : list (string * string)) : builder :=
  l ≫= fun ks => opt_call opts (fst ks) (snd ks).
(** A service with a container named by the host. *)
Definition build_bucket (s : service) (setter what : string) (keys : list (string * string)) (u : Url)
    (opts : gmap string string) : result BuiltOperator error :=
  match host u with
  | None => Err (Missing what)
  | Some h => plain_operator s ((setter, h) :: root_call u ++ opt_calls opts keys) opts
  end.
Local Open Scope string_scope.
Local Open Scope list_scope.
Definition build_gcs := build_bucket Gcs "bucket" "bucket" [].
Definition build_azblob := build_bucket Azblob "container" "container"
  [("account-name", "account_name"); ("account-key", "account_key")].
Definition build_oss := build_bucket Oss "bucket" "bucket"
  [("endpoint", "endpoint"); ("access-key", "access_key_id"); ("secret-key", "access_key_secret")].
Definition build_cos := build_bucket Cos "bucket" "bucket"
  [("endpoint", "endpoint"); ("secret-id", "secret_id"); ("secret-key", "secret_key")].
Definition build_obs := build_bucket Obs "bucket" "bucket"
  [("endpoint", "endpoint"); ("access-key", "access_key_id"); ("secret-key", "secret_access_key")].
Definition build_b2 := build_bucket B2 "bucket" "bucket"
  [("application-key-id", "application_key_id"); ("application-key", "application_key")].
Definition build_vercel_blob (u : Url) (opts : gmap string string) : result BuiltOperator error :=
  plain_operator VercelBlob (root_call u ++ opt_call opts "token" "token") opts.
Definition build_aliyun_drive (u : Url) (opts : gmap string string) : result BuiltOperator error :=
  plain_operator AliyunDrive (root_call u ++ opt_calls opts
    [("access-token", "access_token"); ("refresh-token", "refresh_token"); ("client-id", "client_id");
     ("client-secret", "client_secret"); ("drive-type", "drive_type")]) opts.
Definition build_fs (u : Url) (opts : gmap string string) : result BuiltOperator error :=
  plain_operator Fs [("root", path u)] opts.
Definition build_memory (u : Url) (opts : gmap string string) : result BuiltOperator error := plain_operator Memory [] opts.
Definition dec (z : Z) : string := pretty (Z.to_N z).
Definition build_hdfs_native (u : Url) (opts : gmap string string) : result BuiltOperator error :=
  match host u with
  | None => Err (Missing "namenode")
  | Some h =>
      plain_operator HdfsNative (("name_node", "hdfs://" +:+ h +:+ ":" +:+ dec (default 8020 (port u))) :: root_call u ++
        (if bool_decide (opts = ∅) then [] else map (fun kv => ("options." +:+ fst kv, snd kv)) (map_to_list opts))) opts
  end.
(** [order]: the order in which the hash map is iterated. *)
Definition build_hdfs_jni (order : list (string * string)) (u : Url) (opts : gmap string string) : result BuiltOperator error :=
  match host u with
  | None => Err (Missing "namenode")
  | Some h =>
      plain_operator HdfsJni (("name_node", h +:+ ":" +:+ dec (default 8020 (port u))) :: root_call u ++
        (order ≫= fun kv => let '(k, v) := kv in
           if String.eqb k "user" then [("user", v)]
           else if String.eqb k "kerberos-ticket-cache-path" || String.eqb k "kerberos_ticket_cache_path"
           then [("kerberos_ticket_cache_path", v)]
           else [])) opts
  end.
Definition webhdfs_call (kv : string * string) : builder :=
  let '(k, v) := kv in
  if String.eqb k "user-name" || String.eqb k "user_name" || String.eqb k "user" then [("user_name", v)]
  else if String.eqb k "delegation" then [("delegation", v)] else [].
Definition build_webhdfs (order : list (string * string)) (u : Url) (opts : gmap string string) : result BuiltOperator error :=
  match host u with
  | None => Err (Missing "host")
  | Some h =>
      plain_operator Webhdfs
        (("endpoint", scheme u +:+ "://" +:+ h +:+ match port u with Some p => ":" +:+ dec p | None => "" end) ::
         root_call u ++ (order ≫= webhdfs_call)) opts
  end.
Definition build_webdav (u : Url) (opts : gmap string string) : result BuiltOperator error :=
  let endpoint := match opts !! "endpoint" with
                  | Some e => e
                  | None => "http://" +:+ default "localhost" (host u) +:+ match port u with Some p => ":" +:+ dec p | None => "" end
                  end in
  plain_operator Webdav (("endpoint", endpoint) ::
    (if String.eqb (path u) EmptyString || String.eqb (path u) "/" then [] else [("root", path u)]) ++
    opt_calls opts [("username", "username"); ("password", "password"); ("token", "token")]) opts.
Definition build_s3 (u : Url) (opts : gmap string string) : result BuiltOperator error :=
  match host u with
  | None => Err (Missing "bucket")
  | Some h =>
      let p := trim_start_slashes (path u) in
      let b := ("bucket", h) :: root_call u ++ opt_call opts "endpoint" "endpoint" ++
        (if bool_decide (is_Some (opts !! "access-key")) && bool_decide (is_Some (opts !! "secret-key"))
         then [("disable_config_load", "")] else []) ++
        opt_calls opts [("access-key", "access_key_id"); ("secret-key", "secret_access_key"); ("region", "region");
                        ("checksum-algorithm", "checksum_algorithm"); ("storage-class", "default_storage_class")] in
      match apply_operator_with_tls S3 b opts with
      | Err e => Err e
      | Ok c =>
          match (match opts !! "endpoint" with
                 | Some v => match parse v with Some e => Ok e | None => Err (InvalidEndpoint v) end
                 | None => Ok u
                 end) with
          | Err e => Err e
          | Ok e =>
              Ok (mk_built S3 b c (Some (mk_s3_delete e h (if String.eqb p EmptyString then "/" else "/" +:+ p)
                (default "us-east-1" (opts !! "region")) (opts !! "access-key") (opts !! "secret-key"))))
          end
      end
  end.
(** SFTP operators are left out: their builder is not of the type the dispatch
    expects. *)
Definition build_operator (order : list (string * string)) (storage_url : string) (opts : gmap string string)
  : result BuiltOperator error :=
  match parse storage_url with
  | None => Err InvalidUrl
  | Some u =>
      let sch s := String.eqb (scheme u) s in
      if sch "sftp" && negb sftp_feature then Err SftpNotBuilt
      else if sch "s3" then build_s3 u opts
      else if sch "gs" || sch "gcs" then build_gcs u opts
      else if sch "azblob" then build_azblob u opts
      else if sch "hdfs" || sch "hdfs-native" then build_hdfs_native u opts
      else if sch "hdfs-jni" && hdfs_jni_feature then build_hdfs_jni order u opts
      else if sch "webhdfs" then build_webhdfs order u opts
      else if sch "oss" then build_oss u opts
      else if sch "cos" then build_cos u opts
      else if sch "obs" then build_obs u opts
      else if sch "b2" then build_b2 u opts
      else if sch "vercel" || sch "vercel-blob" then build_vercel_blob u opts
      else if sch "fs" || sch "file" then build_fs u opts
      else if sch "memory" || sch "mem" then build_memory u opts
      else if sch "webdav" || sch "dav" then build_webdav u opts
      else if sch "aliyun" || sch "aliyun-drive" then build_aliyun_drive u opts
      else Err (UnsupportedScheme (scheme u))
  end.
End Build.

(** [--unlink-batch]; [env]: the value of [MNTRS_UNLINK_BATCH]. *)
Definition resolve_unlink_batch (flag : string) (env : option string) (is_s3 : bool) : bool :=
  if String.eqb flag "on" then true
  else if String.eqb flag "off" then false
  else match env with
       | Some v => String.eqb v "1" || String.eqb v "true" || String.eqb v "on"
       | None => is_s3
       end.
(** Whether [mount] starts the batched deleter. *)
Definition batch_deletes (flag : string) (env : option string) (b : BuiltOperator) : bool :=
  match s3_delete_config b with
  | Some _ => resolve_unlink_batch flag env true
  | None => false
  end.

(** *** Properties *)
Lemma last_default {A} (x : A) l d d' : List.last (x :: l) d = List.last (x :: l) d'.
Proof. revert x. induction l as [|y l IH]; intros x; [done|]. apply (IH y). Qed.
(** Command line options.  The last value of a key counts; an option
    without an equals sign refuses the whole command, with no map. *)
Theorem parse_opts_spec kvs :
  match parse_opts kvs ∅ with
  | Ok opts => Forall (fun kv => is_Some (split_once "=" kv)) kvs /\
      forall k, opts !! k = List.last (map (fun p => Some (snd p)) (List.filter (fun p => String.eqb (fst p) k) (omap (split_once "=") kvs))) None
  | Err kv => kv ∈ kvs /\ split_once "=" kv = None
  end.
Proof.
  assert (forall opts, match parse_opts kvs opts with
    | Ok o => Forall (fun kv => is_Some (split_once "=" kv)) kvs /\
        forall k, o !! k = List.last (map (fun p => Some (snd p)) (List.filter (fun p => String.eqb (fst p) k) (omap (split_once "=") kvs))) (opts !! k)
    | Err kv => kv ∈ kvs /\ split_once "=" kv = None
    end) as H; [|apply H].
  induction kvs as [|kv kvs IH]; intros opts; [by split|]. cbn [parse_opts].
  destruct (split_once "=" kv) as [[k v]|] eqn:E; [|split; [by left|done]].
  specialize (IH (<[k := v]> opts)). destruct (parse_opts kvs (<[k:=v]> opts)) as [o|e].
  - destruct IH as [IHf IHl]. split; [by constructor|]. intros k'. cbn [omap list_omap]. rewrite E. cbn [List.filter fst].
    rewrite IHl. destruct (String.eqb_spec k k') as [->|Hne].
    + rewrite lookup_insert_eq. cbn [map snd]. destruct (map _ _) as [|x l]; [done|]. apply (last_default x l).
    + by rewrite lookup_insert_ne.
  - destruct IH as [IH1 IH2]. split; [by right|done].
Qed.

Section Laws.
Context (parse : string -> option Url) (read_pem : string -> option bytes) (accept : service -> builder -> bool).
Context (hdfs_jni sftp : bool).
Abbreviation build := (build_operator parse read_pem accept hdfs_jni sftp).

Lemma plain_inv s b opts o : plain_operator read_pem accept s b opts = Ok o ->
  svc o = s /\ calls o = b /\ s3_delete_config o = None /\ build_mount_http_client read_pem opts = Ok (http o).
Proof using.
  unfold plain_operator, apply_operator_with_tls. destruct (build_mount_http_client read_pem opts) as [c|e]; [|done].
  destruct (accept s b); [|done]. by intros [= <-].
Qed.
(** The root the builder was given. *)
Definition find_root (b : builder) : option string := snd <$> List.find (fun kv => String.eqb (fst kv) "root") b.
Definition url_root (u : Url) : option string :=
  let p := trim_start_slashes (path u) in if String.eqb p EmptyString then None else Some p.
Definition no_root (b : builder) : Prop := Forall (fun kv => fst kv <> "root"%string) b.
Lemma find_no_root b : no_root b -> find_root b = None.
Proof using.
  unfold find_root. induction 1 as [|kv b Hk _ IH]; [done|]. cbn [List.find].
  destruct (String.eqb_spec (fst kv) "root"); [done|]. exact IH.
Qed.
Lemma find_root_call u pre post : no_root pre -> no_root post -> find_root (pre ++ root_call u ++ post) = url_root u.
Proof using.
  intros Hpre Hpost. unfold root_call, url_root. destruct (String.eqb (trim_start_slashes (path u)) EmptyString).
  - apply find_no_root, Forall_app. by split.
  - induction Hpre as [|kv pre Hk _ IH]; [done|]. unfold find_root in *. cbn [app List.find].
    destruct (String.eqb_spec (fst kv) "root"); [done|]. exact IH.
Qed.
Lemma no_root_opt_calls opts l : Forall (fun ks => snd ks <> "root"%string) l -> no_root (opt_calls opts l).
Proof using.
  induction 1 as [|[k st] l Hk _ IH]; [constructor|]. unfold opt_calls. cbn [mbind list_bind]. apply Forall_app. split; [|exact IH].
  unfold opt_call. cbn. destruct (opts !! k); [by repeat constructor|constructor].
Qed.
Lemma no_root_bind (f : string * string -> builder) l : (forall kv, no_root (f kv)) -> no_root (l ≫= f).
Proof using. intros H. induction l as [|kv l IH]; [constructor|]. cbn. apply Forall_app. split; [apply H|exact IH]. Qed.
Lemma s3_inv u opts o : build_s3 parse read_pem accept u opts = Ok o ->
  exists h d, host u = Some h /\ svc o = S3 /\ s3_delete_config o = Some d /\ bucket d = h /\ find_root (calls o) = url_root u /\
    prefix d = (if String.eqb (trim_start_slashes (path u)) EmptyString then "/" else "/" +:+ trim_start_slashes (path u))%string.
Proof using.
  unfold build_s3. destruct (host u) as [h|]; [|done]. destruct (apply_operator_with_tls _ _ _ _ _) as [c|e]; [|done].
  destruct (match opts !! "endpoint"%string with Some v => _ | None => _ end) as [e|e]; [|done]. intros [= <-].
  exists h. eexists. split_and!; [done..| |done]. cbn [calls].
  apply (find_root_call u [("bucket"%string, h)]); [by repeat constructor|].
  apply Forall_app. split; [unfold opt_call; destruct (opts !! _); by repeat constructor|].
  apply Forall_app. split; [case_test; by repeat constructor|].
  apply (no_root_opt_calls opts [("access-key", "access_key_id"); ("secret-key", "secret_access_key"); ("region", "region");
    ("checksum-algorithm", "checksum_algorithm"); ("storage-class", "default_storage_class")]%string).
  by repeat constructor.
Qed.
Lemma bucket_inv s setter what keys u opts o :
  build_bucket read_pem accept s setter what keys u opts = Ok o -> setter <> "root"%string ->
  Forall (fun ks => snd ks <> "root"%string) keys ->
  svc o = s /\ s3_delete_config o = None /\ find_root (calls o) = url_root u.
Proof using.
  unfold build_bucket. destruct (host u) as [h|]; [|done]. intros H Hs Hk.
  apply plain_inv in H as (? & -> & ? & _). split_and!; [done..|].
  apply (find_root_call u [(setter, h)]); [by repeat constructor|by apply no_root_opt_calls].
Qed.

(** The scope of an operator.  A built operator is rooted at the path of its
    URL, and only an S3 one can delete in batches, in the bucket of the URL and
    below the same root. *)
Theorem operator_scope order url opts o : build order url opts = Ok o ->
  exists u, parse url = Some u /\
    (svc o <> Fs -> svc o <> Memory -> svc o <> Webdav -> find_root (calls o) = url_root u) /\
    match s3_delete_config o with
    | Some d => svc o = S3 /\ host u = Some (bucket d) /\ prefix d = ("/" +:+ default EmptyString (find_root (calls o)))%string
    | None => svc o <> S3
    end.
Proof using.
  unfold build_operator. destruct (parse url) as [u|]; [|done]. intros H. exists u. split; [done|]. cbn zeta in H.
  case_test_in H; [done|].
  case_test_in H.
  { apply s3_inv in H as (h & d & Hh & Hs & Hd & Hb & Hr & Hp). rewrite Hd, Hr. subst h. split_and!; [done..|].
    rewrite Hp. unfold url_root. cbn zeta. destruct (String.eqb (trim_start_slashes (path u)) EmptyString); cbn [default]; [|done].
    done. }
  assert (forall b, svc o = b -> b <> S3 -> s3_delete_config o = None ->
    (b <> Fs -> b <> Memory -> b <> Webdav -> find_root (calls o) = url_root u) ->
    (svc o <> Fs -> svc o <> Memory -> svc o <> Webdav -> find_root (calls o) = url_root u) /\
    match s3_delete_config o with
    | Some d => svc o = S3 /\ host u = Some (bucket d) /\ prefix d = ("/" +:+ default EmptyString (find_root (calls o)))%string
    | None => svc o <> S3
    end) as Hk by (intros b <- Hb -> Hr; by split).
  repeat (case_test_in H; [|]); try done;
    try (apply bucket_inv in H as (Hs & Hd & Hr); [by eapply Hk|done|by repeat constructor]).
  - unfold build_hdfs_native in H. destruct (host u) as [h|]; [|done]. apply plain_inv in H as (Hs & Hcalls & Hd & _).
    eapply Hk; [done..|]. intros _ _ _. rewrite Hcalls. apply (find_root_call u [_]); [by repeat constructor|].
    case_bool_decide; [constructor|]. apply Forall_map, Forall_forall. by intros [k v] _.
  - unfold build_hdfs_jni in H. destruct (host u) as [h|]; [|done]. apply plain_inv in H as (Hs & Hcalls & Hd & _).
    eapply Hk; [done..|]. intros _ _ _. rewrite Hcalls. apply (find_root_call u [_]); [by repeat constructor|].
    apply no_root_bind. intros [k v]. repeat case_test; by repeat constructor.
  - unfold build_webhdfs in H. destruct (host u) as [h|]; [|done]. apply plain_inv in H as (Hs & Hcalls & Hd & _).
    eapply Hk; [done..|]. intros _ _ _. rewrite Hcalls. apply (find_root_call u [_]); [by repeat constructor|].
    apply no_root_bind. intros [k v]. unfold webhdfs_call. repeat case_test; by repeat constructor.
  - apply plain_inv in H as (Hs & Hcalls & Hd & _). eapply Hk; [done..|]. intros _ _ _. rewrite Hcalls.
    apply (find_root_call u []); [constructor|]. unfold opt_call. destruct (opts !! _); by repeat constructor.
  - apply plain_inv in H as (Hs & Hcalls & Hd & _). by eapply Hk.
  - apply plain_inv in H as (Hs & Hcalls & Hd & _). by eapply Hk.
  - apply plain_inv in H as (Hs & Hcalls & Hd & _). by eapply Hk.
  - apply plain_inv in H as (Hs & Hcalls & Hd & _). eapply Hk; [done..|]. intros _ _ _. rewrite Hcalls.
    apply (find_root_call u []); [constructor|]. by apply no_root_opt_calls; repeat constructor.
Qed.
End Laws.

Definition parse1 (s : string) : option Url :=
  if String.eqb s "s3://b//logs/x" then Some (mk_url "s3" (Some "b") None "//logs/x")
  else if String.eqb s "webhdfs://n" then Some (mk_url "webhdfs" (Some "n") None "/")
  else None.
Abbreviation build1 := (build_operator parse1 (fun _ => None) (fun _ _ => true) false false).
Lemma operator_scope_witness :
  exists o, build1 [] "s3://b//logs/x" ∅ = Ok o /\ find_root (calls o) = Some "logs/x" /\ prefix <$> s3_delete_config o = Some "/logs/x".
Proof.
  destruct (build1 [] "s3://b//logs/x" ∅) as [o|e] eqn:E; [|by vm_compute in E].
  pose proof (operator_scope _ _ _ _ _ _ _ _ o E) as (u & Hu & Hr & Hd). injection Hu as <-.
  exists o. split; [done|]. vm_compute in E. injection E as <-. split; [exact (Hr ltac:(done) ltac:(done) ltac:(done))|].
  destruct Hd as (_ & _ & Hp). exact (f_equal Some Hp).
Defined.

(** Two spellings of the user are both accepted; which one counts depends on
    the order in which the hash map is iterated. *)
Definition last_call (setter : string) (b : builder) : option string :=
  List.last (map Some (map snd (List.filter (fun kv => String.eqb (fst kv) setter) b))) None.
Example webhdfs_user_depends_on_order :
  let opts : gmap string string := {["user" := "a"; "user-name" := "b"]} in
  let user order := match build1 order "webhdfs://n" opts with Ok o => last_call "user_name" (calls o) | Err _ => None end in
  user [("user", "a"); ("user-name", "b")] = Some "b" /\ user [("user-name", "b"); ("user", "a")] = Some "a".
Proof. by vm_compute. Qed.
(** [--unlink-batch on] is accepted for every service and does nothing but for
    S3. *)
Lemma unlink_batch_on_other_service b env : s3_delete_config b = None -> batch_deletes "on" env b = false.
Proof. unfold batch_deletes. by intros ->. Qed.
(** Setting [MNTRS_UNLINK_BATCH] to anything but 1, true or on turns the default
    off. *)
Example batch_env_yes_is_off : resolve_unlink_batch "auto" (Some "yes") true = false /\ resolve_unlink_batch "auto" None true = true.
Proof. done. Qed.
End Operator.

(** ** What [mount] derives from its arguments *)
Module Settings.
Import Utf8.
Local Open Scope Z_scope.

(** clap parses numbers in base ten. *)
Definition parse_u32 (s : string) : option Z :=
  match Str.from_str_radix 10 s with Some v => if v <? 2 ^ 32 then Some v else None | None => None end.
(** Permissions default to octal 777 and 666. *)
Record args := mk_args {
  a_mem_limit : Z; a_vfs_cache_max_size : Z; a_vfs_write_back : Z; a_poll_interval : option Z;
  a_vfs_cache_poll_interval : Z; a_vfs_cache_min_free_space : Z; a_vfs_disk_space_total_size : Z;
  a_dir_perms : option Z; a_file_perms : option Z; a_max_read_ahead : Z
}.
(** Sizes in bytes, times in seconds; the arithmetic is on [u64]. *)
Record settings := mk_settings {
  mem_cache_bytes : Z; cache_max_size : Z; write_back_delay : Z; cache_poll_interval : Z;
  cache_min_free_space : Z; disk_total_size : Z; dir_perms : Z; file_perms : Z; max_read_ahead : Z
}.
Definition MiB : Z := 1024 * 1024.
Definition settings_of (a : args) : settings := mk_settings
  (if 0 <? a_mem_limit a then wrap64 (a_mem_limit a * MiB) else 0)
  (wrap64 (a_vfs_cache_max_size a * MiB))
  (Z.max (a_vfs_write_back a) 1)
  (Z.max (default (a_vfs_cache_poll_interval a) (a_poll_interval a)) 1)
  (wrap64 (a_vfs_cache_min_free_space a * MiB))
  (wrap64 (a_vfs_disk_space_total_size a * (MiB * MiB)))
  (default 0x1FF (a_dir_perms a) mod 2 ^ 16) (default 0x1B6 (a_file_perms a) mod 2 ^ 16)
  (Z.min (a_max_read_ahead a) (2 ^ 32 - 1)).

(** The derived settings are in range: delays and poll intervals are at
    least a second, and sizes are the bytes asked for below the width of u64. *)
Theorem settings_in_range a :
  0 <= a_mem_limit a < 2 ^ 44 -> 0 <= a_vfs_cache_max_size a < 2 ^ 44 -> 0 <= a_vfs_cache_min_free_space a < 2 ^ 44 ->
  0 <= a_vfs_disk_space_total_size a < 2 ^ 24 -> 0 <= a_max_read_ahead a ->
  let s := settings_of a in
  1 <= write_back_delay s /\ 1 <= cache_poll_interval s /\
  mem_cache_bytes s = a_mem_limit a * MiB /\ cache_max_size s = a_vfs_cache_max_size a * MiB /\
  cache_min_free_space s = a_vfs_cache_min_free_space a * MiB /\
  disk_total_size s = a_vfs_disk_space_total_size a * 2 ^ 40 /\
  0 <= dir_perms s < 2 ^ 16 /\ 0 <= file_perms s < 2 ^ 16 /\ 0 <= max_read_ahead s < 2 ^ 32.
Proof.
  intros Hm Hc Hf Hd Hr. cbn [settings_of write_back_delay cache_poll_interval mem_cache_bytes cache_max_size
    cache_min_free_space disk_total_size dir_perms file_perms max_read_ahead].
  rewrite !wrap64_small by (unfold is_u64, U64_MAX, MiB; lia).
  split_and!; try (unfold MiB; lia); try (apply Z.mod_pos_bound; lia).
  destruct (Z.ltb_spec 0 (a_mem_limit a)); [done|]. unfold MiB. lia.
Qed.
Definition defaults : args := mk_args 256 0 5 None 60 0 0 None None 131072.
Lemma settings_in_range_witness : mem_cache_bytes (settings_of defaults) = 256 * MiB.
Proof. refine (proj1 (proj2 (proj2 (settings_in_range defaults _ _ _ _ _)))); cbn; lia. Defined.
(** From 2^24 TB on the size reported for the disk wraps around. *)
Example disk_size_wraps : disk_total_size (settings_of (mk_args 256 0 5 None 60 0 (2 ^ 24) None None 0)) = 0.
Proof. done. Qed.
(** [--dir-perms 755] is 755 in base ten, octal 1363; without the option
    directories have octal 777, not the 0755 its help promises, and files octal
    666. *)
Example perms_are_decimal :
  dir_perms (settings_of (mk_args 256 0 5 None 60 0 0 (parse_u32 "755") None 0)) = 755 /\
  dir_perms (settings_of defaults) = 0x1FF /\ file_perms (settings_of defaults) = 0x1B6.
Proof. done. Qed.

(** *** The options of a FUSE mount *)
Inductive MountOption := RO | RW | Exec | FSName (n : string) | CUSTOM (o : string).
Record fuse_args := mk_fuse_args {
  f_read_only : bool; f_allow_root : bool; f_devname : option string; f_volname : string;
  f_default_permissions : bool; f_allow_non_empty : bool; f_options : list string; f_flags : list string;
  f_no_apple_double : bool; f_no_apple_xattr : bool; f_case_insensitive : bool; f_volume_name : option string;
  f_no_finder_local : bool; f_negative_vncache : bool; f_auto_cache : bool; f_daemon_timeout : Z; f_no_slow_statfs : bool
}.
(** [str::chars().take(n).collect()]. *)
Definition of_chars (c : chars) : string := String.string_of_list_byte (utf8 c).
Definition take_chars (n : nat) (s : string) : string := of_chars (take n (str_chars s)).
Definition MAX_VOLNAME_LEN : nat := 64.
Definition cap_volname (s : string) : string := if (MAX_VOLNAME_LEN <? String.length s)%nat then take_chars MAX_VOLNAME_LEN s else s.
Definition derive_macos_volname (mountpoint : string) (override_name : option string) : string :=
  match override_name with
  | Some n => cap_volname n
  | None =>
      let basename := List.last (Str.split Str.SLASH (Str.trim_end Str.SLASH mountpoint)) EmptyString in
      cap_volname (if String.eqb basename EmptyString then "mntrs-root" else "mntrs-" +:+ basename)
  end.
Definition flag (b : bool) (o : string) : list MountOption := if b then [CUSTOM o] else [].
Definition macos_options (mountpoint : string) (a : fuse_args) : list MountOption :=
  flag (f_no_apple_double a) "noappledouble" ++ flag (f_no_apple_xattr a) "noapplexattr" ++
  flag (f_case_insensitive a) "case_insensitive" ++
  [CUSTOM ("volname=" +:+ derive_macos_volname mountpoint (f_volume_name a))] ++
  flag (f_no_finder_local a) "local" ++ flag (f_negative_vncache a) "negative_vncache" ++ flag (f_auto_cache a) "auto_cache" ++
  [CUSTOM ("daemon_timeout=" +:+ Operator.dec (f_daemon_timeout a))] ++ flag (f_no_slow_statfs a) "slow_statfs".
Definition mount_options (macos : bool) (mountpoint : string) (a : fuse_args) : list MountOption :=
  [if f_read_only a then RO else RW; Exec; FSName (default (f_volname a) (f_devname a))] ++
  flag (f_allow_root a) "allow_root" ++ (if macos then macos_options mountpoint a else []) ++
  flag (f_default_permissions a) "default_permissions" ++ flag (f_allow_non_empty a) "nonempty" ++
  map CUSTOM (f_options a) ++ map CUSTOM (f_flags a).
(** Linux: [--allow-other] of a user other than root; [fuse_conf]: the text of
    /etc/fuse.conf, [None] when there is no such file, [Some None] when it cannot
    be read. *)
Definition allow_other_ok (allow_other root : bool) (fuse_conf : option (option string)) : bool :=
  if allow_other && negb root then
    match fuse_conf with
    | Some (Some c) => existsb (fun l => bool_decide (Detect.split_whitespace l = ["user_allow_other"%string])) (Db.lines c)
    | Some None => true
    | None => false
    end
  else true.
(** Windows: the serial number of the volume, FNV-1a of the mount point. *)
Definition volume_serial_number (mountpoint : string) : Z :=
  let h := foldl (fun h b => (Z.lxor h (Z_of_byte b) * 0x01000193) mod 2 ^ 32) 0x811C9DC5 (as_bytes mountpoint) in
  if h =? 0 then 1 else h.
(** macOS: the version in the output of kextstat. *)
Definition rsplit_once (c : ascii) (s : string) : option (string * string) :=
  match Str.rfind c s with
  | Some i => Some (Str.truncate i s, String.substring (S i) (String.length s) s)
  | None => None
  end.
Fixpoint kext_version_of (ls : list string) : option string :=
  match ls with
  | [] => None
  | l :: ls =>
      if Detect.contains "macfuse" l then
        match rsplit_once "(" l with
        | Some (_, after) => fst <$> Operator.split_once ")" after
        | None => None
        end
      else kext_version_of ls
  end.
Definition parse_macos_kext_version (stdout : string) : option string := kext_version_of (Db.lines stdout).

Lemma of_chars_chars c : Forall scalar c -> str_chars (of_chars c) = c.
Proof.
  intros H. unfold str_chars, of_chars, as_bytes. rewrite String.list_byte_of_string_of_list_byte. by apply chars_of_utf8.
Qed.
Lemma length_chars_bytes c : (length c <= String.length (of_chars c))%nat.
Proof.
  unfold of_chars. assert (forall l, String.length (String.string_of_list_byte l) = length l) as ->
    by (intros l; unfold String.string_of_list_byte; induction l as [|b l IHl]; [done|]; cbn; by rewrite <-IHl).
  induction c as [|x c IH]; [done|]. change (utf8 (x :: c)) with (encode_utf8 x ++ utf8 c). rewrite length_app. cbn [length].
  assert (1 <= length (encode_utf8 x))%nat; [|lia]. unfold encode_utf8. repeat case_test; cbn; lia.
Qed.
(** A volume name keeps at most its first 64 characters. *)
Lemma volname_capped mp c : Forall scalar c -> str_chars (derive_macos_volname mp (Some (of_chars c))) = take 64 c.
Proof.
  intros H. cbn [derive_macos_volname]. unfold cap_volname, MAX_VOLNAME_LEN.
  destruct (Nat.ltb_spec 64 (String.length (of_chars c))) as [Hl|Hl].
  - unfold take_chars. rewrite (of_chars_chars c) by done. by rewrite of_chars_chars by (by apply Forall_take).
  - rewrite of_chars_chars by done. pose proof (length_chars_bytes c). by rewrite take_ge by lia.
Qed.
(** Exactly one access mode is asked for, and it is the one of the flag. *)
Lemma mount_options_mode macos mp a :
  (RO ∈ mount_options macos mp a <-> f_read_only a = true) /\ (RW ∈ mount_options macos mp a <-> f_read_only a = false).
Proof.
  assert (forall o, (o = RO \/ o = RW) -> o ∈ mount_options macos mp a <-> o = if f_read_only a then RO else RW) as H.
  { intros o Ho. unfold mount_options, macos_options, flag. split; [|intros ->; by left].
    repeat setoid_rewrite elem_of_app. intros Hin.
    destruct_or? Hin; try (repeat case_test_in Hin); set_unfold in Hin; naive_solver. }
  split; rewrite H by auto; by destruct (f_read_only a).
Qed.
End Settings.

(** ** Daemon mode: [--daemon --daemon-wait]
    The parent makes a pipe, closes its write end, starts the child and waits
    for a hang-up; the child, the same program, makes a pipe of its own, mounts
    and closes the write end of that one. *)
Module Daemon.

Inductive proc := Parent | Child.
#[export] Instance proc_eq_dec : EqDecision proc.
Proof. solve_decision. Defined.
Inductive parent_pc := PPipe | PClose | PSpawn | PPoll | PExit (signaled : bool).
Inductive child_pc := NotStarted | CPipe | CMount | CClose | CServe | CFailed.
(** [writers]: who has the write end of which pipe open. *)
Record state := mk_state { ppc : parent_pc; cpc : child_pc; writers : list (proc * nat); mounted : bool }.
Definition drop_writer (p : proc) (pipe : nat) (w : list (proc * nat)) : list (proc * nat) :=
  List.filter (fun x => negb (bool_decide (x = (p, pipe)))) w.
Definition exit_of (p : proc) (w : list (proc * nat)) : list (proc * nat) :=
  List.filter (fun x => negb (bool_decide (fst x = p))) w.
(** The write ends a child inherits: pipes are made without close-on-exec. *)
Definition inherited (w : list (proc * nat)) : list (proc * nat) :=
  omap (fun x => match x with (Parent, n) => Some (Child, n) | _ => None end) w.
Definition hung_up (pipe : nat) (w : list (proc * nat)) : bool := negb (existsb (fun x => Nat.eqb (snd x) pipe) w).

Inductive step : state -> state -> Prop :=
| parent_pipe c w m : step (mk_state PPipe c w m) (mk_state PClose c ((Parent, 0%nat) :: w) m)
| parent_close c w m : step (mk_state PClose c w m) (mk_state PSpawn c (drop_writer Parent 0 w) m)
| parent_spawn w m : step (mk_state PSpawn NotStarted w m) (mk_state PPoll CPipe (w ++ inherited w) m)
| parent_poll c w m : hung_up 0 w = true -> step (mk_state PPoll c w m) (mk_state (PExit true) c w m)
| parent_timeout c w m : step (mk_state PPoll c w m) (mk_state (PExit false) c w m)
| child_pipe p w m : step (mk_state p CPipe w m) (mk_state p CMount ((Child, 1%nat) :: w) m)
| child_mount p w m : step (mk_state p CMount w m) (mk_state p CClose w true)
| child_mount_fails p w m : step (mk_state p CMount w m) (mk_state p CFailed (exit_of Child w) m)
| child_close p w m : step (mk_state p CClose w m) (mk_state p CServe (drop_writer Child 1 w) m).
Definition start : state := mk_state PPipe NotStarted [] false.

Definition no_writer (s : state) : Prop :=
  match ppc s with
  | PPipe => cpc s = NotStarted /\ writers s = []
  | PClose => cpc s = NotStarted /\ writers s = [(Parent, 0%nat)]
  | PSpawn => cpc s = NotStarted /\ writers s = []
  | _ => Forall (fun x => snd x = 1%nat) (writers s)
  end.
Lemma no_writer_step s s' : no_writer s -> step s s' -> no_writer s'.
Proof.
  assert (forall p n w, Forall (fun x => snd x = 1%nat) w -> Forall (fun x => snd x = 1%nat) (drop_writer p n w)) as Hd.
  { intros p n w H. unfold drop_writer. induction H as [|x w Hx _ IH]; [constructor|]. cbn.
    destruct (negb _); [by constructor|done]. }
  assert (forall w, Forall (fun x => snd x = 1%nat) w -> Forall (fun x => snd x = 1%nat) (exit_of Child w)) as He.
  { intros w H. unfold exit_of. induction H as [|x w Hx _ IH]; [constructor|]. cbn. destruct (negb _); [by constructor|done]. }
  intros H Hs. destruct Hs; unfold no_writer in *; cbn in *; try (destruct H as [? ->] || idtac); try done;
    try (destruct p; cbn in *; try done; naive_solver).
Qed.
Lemma hung_up_no_writer w : Forall (fun x : proc * nat => snd x = 1%nat) w -> hung_up 0 w = true.
Proof. unfold hung_up. induction 1 as [|[p n] w Hx _ IH]; [done|]. cbn in *. by subst. Qed.

(** The parent does not wait.  From the first poll on the pipe has no
    writer in any interleaving, so it reports the hang-up that should mean that
    the mount is up at once, also when it never comes up. *)
Theorem parent_never_waits s : rtc step start s ->
  (ppc s = PPoll -> step s (mk_state (PExit true) (cpc s) (writers s) (mounted s))) /\
  exists s', rtc step start s' /\ ppc s' = PExit true /\ mounted s' = false.
Proof.
  intros Hs. split.
  - intros Hp. assert (no_writer s) as H.
    { apply (rtc_invariant step no_writer start s); [by split|apply no_writer_step|done]. }
    destruct s as [p c w m]. cbn in *. subst p. apply parent_poll. by apply hung_up_no_writer.
  - exists (mk_state (PExit true) CPipe [] false). split_and!; [|done|done].
    eapply rtc_l; [apply parent_pipe|]. eapply rtc_l; [apply parent_close|]. eapply rtc_l; [apply parent_spawn|].
    eapply rtc_l; [by apply parent_poll|]. apply rtc_refl.
Qed.
Lemma parent_never_waits_witness : exists s', rtc step start s' /\ ppc s' = PExit true /\ mounted s' = false.
Proof. exact (proj2 (parent_never_waits start (rtc_refl _ _))). Defined.

(** The write-end and read-end closes of a process that mounts; [internal]: it
    is the child. *)
Inductive pipe_end := ReadEnd | WriteEnd.
Definition closes (daemon_wait internal : bool) : list pipe_end :=
  (if daemon_wait then [WriteEnd] else []) ++ (if daemon_wait && negb internal then [WriteEnd; ReadEnd] else []).
(** In the foreground the descriptor of the write end is closed twice. *)
Example foreground_closes_twice : List.filter (fun e => match e with WriteEnd => true | _ => false end) (closes true false) = [WriteEnd; WriteEnd].
Proof. done. Qed.
End Daemon.

(** ** [mntrs install] (src/src/cmd/install.rs, Linux) *)
Module Install.
Import Db.
Local Open Scope string_scope.
Local Open Scope list_scope.

(** What is at a path. *)
Inductive entry := File (content : string) (mode : Z) | Symlink (target : string) | Directory.
Abbreviation files := (gmap string entry).
(** [Path::exists] and [read_to_string] follow a link. *)
Definition follow (fs : files) (p : string) : option entry :=
  match fs !! p with Some (Symlink t) => fs !! t | e => e end.
Inductive error := NoConfigDir | NoExe | ExeMissing | ReadExisting | Differs | CreateDir | OpenRefused.

Section Command.
(** [is_executable]: a file with an execute bit; [mkdir_ok]: whether the
    directory could be made. *)
Context (is_executable : string -> bool).
Definition which (path_var : option (list string)) (name : string) : option string :=
  match path_var with
  | None => None
  | Some dirs => List.find is_executable (map (fun d => join d name) dirs)
  end.
Definition resolve_fusermount (path_var : option (list string)) : string :=
  match which path_var "fusermount3" with
  | Some p => p
  | None => default "fusermount3" (which path_var "fusermount")
  end.
Definition config_dir (xdg_config_home home : option string) : option string :=
  match xdg_config_home with
  | Some v => if String.eqb v EmptyString then (fun h => join h ".config") <$> home else Some v
  | None => (fun h => join h ".config") <$> home
  end.
Definition resolve_mntrs_path (current_exe : option string) (exists_ : string -> bool) : result string error :=
  match current_exe with
  | None => Err NoExe
  | Some p => if exists_ p then Ok p else Err ExeMissing
  end.
Definition template (mntrs_path fusermount : string) : string :=
  String.concat (one LF)
    ["[Unit]"; "Description=mntrs FUSE mount for %i"; "After=network-online.target"; "Wants=network-online.target"; "";
     "[Service]"; "Type=simple"; "ExecStart=" +:+ mntrs_path +:+ " mount %i /mnt/%i"; "ExecStop=" +:+ fusermount +:+ " -u /mnt/%i";
     "ExecStopPost=" +:+ fusermount +:+ " -uz /mnt/%i"; "Restart=on-failure"; "RestartSec=5s"; "StartLimitBurst=5";
     "StartLimitIntervalSec=60s"; "Environment=HOME=%h"; "StandardOutput=journal"; "StandardError=journal"; "";
     "[Install]"; "WantedBy=default.target"; ""].
(** [create_new] with mode 0600 refuses whatever is there, a dangling link
    included. *)
Definition write_open_secure (p content : string) (fs : files) : option files :=
  match fs !! p with Some _ => None | None => Some (<[p := File content 0x180]> fs) end.
Definition service_file (config : string) : string := join (join (join config "systemd") "user") "mntrs-mount@.service".
(** [raced]: an entry that appears at the path between the check and the open. *)
Definition systemd (config : option string) (exe : result string error) (fusermount : string) (mkdir_ok : bool)
    (raced : option entry) (fs : files) : files * result unit error :=
  match config, exe with
  | None, _ => (fs, Err NoConfigDir)
  | _, Err e => (fs, Err e)
  | Some config, Ok exe =>
      let p := service_file config in
      let text := template exe fusermount in
      match follow fs p with
      | Some (File c _) => (fs, if String.eqb c text then Ok tt else Err Differs)
      | Some _ => (fs, Err ReadExisting)
      | None =>
          if mkdir_ok then
            let fs := match raced, fs !! p with Some e, None => <[p := e]> fs | _, _ => fs end in
            match write_open_secure p text fs with
            | Some fs => (fs, Ok tt)
            | None => (fs, Err OpenRefused)
            end
          else (fs, Err CreateDir)
      end
  end.

(** Installing the unit never replaces anything: an entry that is at the
    path, or appears there before the open, stays; success means that the unit
    reads as the template, and a unit that was written is private. *)
Theorem install_keeps_existing config exe fusermount mkdir_ok raced fs fs' r :
  systemd (Some config) (Ok exe) fusermount mkdir_ok raced fs = (fs', r) ->
  let p := service_file config in
  (forall e, fs !! p = Some e -> fs' !! p = Some e) /\
  (forall e, fs !! p = None -> raced = Some e -> mkdir_ok = true -> fs' !! p = Some e /\ r = Err OpenRefused) /\
  (forall q, q <> p -> fs' !! q = fs !! q) /\
  (r = Ok tt -> (exists m, follow fs' p = Some (File (template exe fusermount) m)) /\
                (fs !! p = None -> fs' !! p = Some (File (template exe fusermount) 0x180))).
Proof using.
  cbn zeta. unfold systemd, write_open_secure. cbn zeta. set (p := service_file config). clearbody p.
  destruct (follow fs p) as [e|] eqn:Ef.
  - assert (fs !! p <> None) as Hn by (unfold follow in Ef; by destruct (fs !! p)).
    destruct e as [c m|t|]; intros [= <- <-]; (split_and!; [done|done|done|]); [|done|done].
    destruct (String.eqb_spec c (template exe fusermount)) as [->|]; [|done]. intros _. split; [by exists m|done].
  - destruct mkdir_ok; [|intros [= <- <-]; by split_and!].
    destruct (fs !! p) as [e|] eqn:E.
    + assert (match raced with Some _ | _ => fs end = fs) as -> by (by destruct raced). rewrite E. intros [= <- <-].
      split_and!; [intros ? [= <-]; exact E|done|done|done].
    + destruct raced as [e|].
      * rewrite lookup_insert_eq. intros [= <- <-]. split_and!; [done| |intros q Hq; by apply lookup_insert_ne|done].
        intros e' _ He _. injection He as <-. split; [apply lookup_insert_eq|done].
      * rewrite E. intros [= <- <-]. split_and!; [done|done|intros q Hq; by apply lookup_insert_ne|]. intros _.
        unfold follow. rewrite lookup_insert_eq. split; [by eexists|done].
Qed.
End Command.
Lemma install_keeps_existing_witness :
  let fs : files := {["/h/.config/systemd/user/mntrs-mount@.service" := File "mine" 0x1A4]} in
  snd (systemd (Some "/h/.config") (Ok "/bin/mntrs") "fusermount3" true None fs) = Err Differs /\
  fst (systemd (Some "/h/.config") (Ok "/bin/mntrs") "fusermount3" true None fs) !! "/h/.config/systemd/user/mntrs-mount@.service"
  = Some (File "mine" 0x1A4).
Proof.
  intros fs. split; [by vm_compute|].
  destruct (systemd (Some "/h/.config") (Ok "/bin/mntrs") "fusermount3" true None fs) as [fs' r] eqn:E.
  apply (proj1 (install_keeps_existing "/h/.config" "/bin/mntrs" "fusermount3" true None fs fs' r E)). by vm_compute.
Defined.
End Install.
