(* ===== verification/Init.v ===== *)
(** * Init: the start of a mount and its background workers

    [common_init_wb] and [spawn_refresh_worker] of src/src/lib.rs, and the
    completion of an upload in src/src/writeback.rs as far as it writes the
    inode table.  The start composes the inode table ([Inodes]), the writeback
    channel and the recovery scan ([Writeback.Sidecar]); the refresh worker
    acts on the caches of [DirCache].

    What a worker shares with the mount is explicit: [dir_cache] and
    [attr_cache] are behind an [Arc], so the refresh worker clears the maps the
    handlers read; [inodes] is a [DashMap] by value, so the writeback worker is
    given a copy made at the start ([worker_inodes]). *)

From Stdlib Require Import ZArith Lia Strings.Byte Strings.String Strings.Ascii.
From S2P Require Import Prelude Util BlockFormat Utf8 DiskPool FileOps Writeback Inodes Errors DirCache.

Module Init.
Import Utf8 Inodes.Inodes DirCache.DirCache.

Record mount := mk_mount {
  m_caches : caches;
  (** The writeback worker's own map, once it is spawned. *)
  worker_inodes : option (gmap Z InodeEntry);
  (** [writeback_sender]: whether it is set; its channel. *)
  writeback_sender : bool;
  channel : list WritebackTask;
  concurrent_deleter : bool;
  refresh_worker : bool;
  m_dir : gmap string file
}.
Definition fresh_mount (dir : gmap string file) : mount :=
  mk_mount (mk_caches empty_table ∅ ∅) None false [] false false dir.

Section Start.
(** [delete_cache], [write_back_delay], [buffer_size] and [refresh_interval] of
    the mount; whether a batch deleter is configured and its spawn succeeds;
    whether the writeback worker still receives. *)
Context (delete_cache : bool) (write_back_delay bsize refresh_interval : Z).
Context (deleter_config spawn_ok worker_alive : bool).

Definition alloc_root (m : mount) : mount :=
  mk_mount (set_tbl (fst (alloc_ino EmptyString Directory 4096 (tbl (m_caches m)))) (m_caches m))
    (worker_inodes m) (writeback_sender m) (channel m) (concurrent_deleter m) (refresh_worker m) (m_dir m).
Definition spawn_writeback (m : mount) : mount :=
  mk_mount (m_caches m) (Some (inodes (tbl (m_caches m)))) true (channel m)
    (concurrent_deleter m) (refresh_worker m) (m_dir m).
Definition spawn_deleter (m : mount) : mount :=
  mk_mount (m_caches m) (worker_inodes m) (writeback_sender m) (channel m)
    (concurrent_deleter m || (deleter_config && spawn_ok)) (refresh_worker m) (m_dir m).
Definition spawn_refresh_worker (m : mount) : mount :=
  if refresh_interval =? 0 then m
  else mk_mount (m_caches m) (worker_inodes m) (writeback_sender m) (channel m)
         (concurrent_deleter m) true (m_dir m).
Definition recover (entries : option (list string)) (m : mount) : mount * Sidecar.RecoveryStats :=
  let tx := if writeback_sender m then Some (fun _ : WritebackTask => worker_alive) else None in
  let s := Sidecar.recover_dirty_sidecars tx delete_cache write_back_delay bsize entries (m_dir m) in
  (mk_mount (m_caches m) (worker_inodes m) (writeback_sender m) (channel m ++ Sidecar.s_sent s)
     (concurrent_deleter m) (refresh_worker m) (Sidecar.s_fs s), Sidecar.s_stats s).
Definition common_init_wb (entries : option (list string)) (m : mount) : mount * Sidecar.RecoveryStats :=
  recover entries (spawn_refresh_worker (spawn_deleter (spawn_writeback (alloc_root m)))).

(** The scan run before the worker, as the start once did. *)
Definition scan_before_spawn (entries : option (list string)) (m : mount) : mount * Sidecar.RecoveryStats :=
  let '(m, st) := recover entries (alloc_root m) in
  (spawn_refresh_worker (spawn_deleter (spawn_writeback m)), st).

(** The state the scan of [common_init_wb] starts from. *)
Lemma before_scan dir m :
  m = spawn_refresh_worker (spawn_deleter (spawn_writeback (alloc_root (fresh_mount dir)))) ->
  writeback_sender m = true /\ channel m = [] /\ m_dir m = dir /\
  worker_inodes m = Some {[2 := mk_inode EmptyString Directory 4096 None]} /\
  inodes (tbl (m_caches m)) = {[2 := mk_inode EmptyString Directory 4096 None]}.
Proof. intros ->. unfold spawn_refresh_worker. by case_test. Qed.

(** What the scan counts when a sender is there: nothing falls in [no_sender],
    and nothing in [send_failed] while the worker receives. *)
Lemma recover_one_sender send s p :
  Sidecar.no_sender (Sidecar.s_stats
    (Sidecar.recover_one (Some send) delete_cache write_back_delay bsize s p)) =
    Sidecar.no_sender (Sidecar.s_stats s) /\
  ((forall t, send t = true) ->
   Sidecar.send_failed (Sidecar.s_stats
     (Sidecar.recover_one (Some send) delete_cache write_back_delay bsize s p)) =
     Sidecar.send_failed (Sidecar.s_stats s)).
Proof.
  unfold Sidecar.recover_one. destruct (Sidecar.s_stats s) as [r o sf ns rf] eqn:Es.
  case_test; [by rewrite Es|].
  destruct (Sidecar.s_fs s !! _); [|done].
  destruct (Sidecar.read_to_string _ _); [|done].
  destruct (send _) eqn:E; [done|]. split; [done|]. intros Hs. by rewrite Hs in E.
Qed.

Lemma recover_sender send names : forall s,
  let s' := foldl (Sidecar.recover_one (Some send) delete_cache write_back_delay bsize) s names in
  Sidecar.no_sender (Sidecar.s_stats s') = Sidecar.no_sender (Sidecar.s_stats s) /\
  ((forall t, send t = true) ->
   Sidecar.send_failed (Sidecar.s_stats s') = Sidecar.send_failed (Sidecar.s_stats s)).
Proof.
  induction names as [|p names IH]; intros s; cbn [foldl]; [done|].
  destruct (IH (Sidecar.recover_one (Some send) delete_cache write_back_delay bsize s p)) as [H1 H2].
  destruct (recover_one_sender send s p) as [G1 G2].
  split; [by rewrite H1|]. intros Hs. by rewrite (H2 Hs), (G2 Hs).
Qed.

(** The task the start queues for a sidecar [p] of the cache directory. *)
Definition recovered_task (dir : gmap string file) (p : string) : option WritebackTask :=
  Sidecar.sent_of (Some (fun _ => true)) delete_cache write_back_delay bsize dir p.

(** C26: the start of a mount loses no pending upload.  With the worker
    receiving, the channel holds exactly one task per sidecar whose cache file
    exists and whose content can be read, in directory order; no sidecar is
    counted as without a sender or as a failed send; and every file of the
    cache directory is kept but the sidecars whose cache file is missing. *)
Theorem init_recovers names dir :
  worker_alive = true -> NoDup names ->
  (forall p, p ∈ names -> Sidecar.is_sidecar p = true ->
     Sidecar.is_sidecar (Sidecar.with_extension p EmptyString) = false) ->
  let '(m, st) := common_init_wb (Some names) (fresh_mount dir) in
  channel m = omap (recovered_task dir) names /\
  Sidecar.recovered st = lenZ (channel m) /\ Sidecar.no_sender st = 0 /\ Sidecar.send_failed st = 0 /\
  (forall q, m_dir m !! q =
     if bool_decide (q ∈ names) && Sidecar.is_orphan dir q then None else dir !! q).
Proof using.
  intros Hal Hnd Hs. unfold common_init_wb, recover.
  destruct (before_scan dir _ eq_refl) as (-> & -> & -> & _).
  cbn [channel m_dir fst snd Sidecar.recover_dirty_sidecars].
  destruct (Sidecar.foldl_recover (Some (fun _ => worker_alive)) delete_cache write_back_delay bsize dir
    names [] (Sidecar.mk_scan dir Sidecar.stats_default [])) as (H1 & H2 & _ & H4);
    [by intros q; rewrite bool_decide_eq_false_2 by set_solver|done|set_solver|done|].
  destruct (recover_sender (fun _ => worker_alive) names (Sidecar.mk_scan dir Sidecar.stats_default []))
    as [H5 H6].
  rewrite app_nil_l, H2, H4, H5, H6 by done. unfold recovered_task. rewrite Hal. split_and!; try done.
  intros q. rewrite <- Hal, H1.
  by rewrite (bool_decide_ext (q ∈ reverse names ++ []) (q ∈ names)) by set_solver.
Qed.

(** The order of the two steps is what keeps them: a scan before the spawn
    queues nothing, whatever the directory holds. *)
Lemma scan_before_spawn_queues_nothing names dir :
  let '(m, st) := scan_before_spawn (Some names) (fresh_mount dir) in
  channel m = [] /\ Sidecar.recovered st = 0.
Proof using.
  unfold scan_before_spawn, recover. cbn [writeback_sender alloc_root fresh_mount m_dir channel].
  cbn [Sidecar.recover_dirty_sidecars].
  assert (H : forall names s, Sidecar.s_sent (foldl (Sidecar.recover_one None delete_cache write_back_delay bsize) s names)
      = Sidecar.s_sent s /\
    Sidecar.recovered (Sidecar.s_stats (foldl (Sidecar.recover_one None delete_cache write_back_delay bsize) s names))
      = Sidecar.recovered (Sidecar.s_stats s)).
  { clear names. induction names as [|p names IH]; intros s; cbn [foldl]; [done|].
    destruct (IH (Sidecar.recover_one None delete_cache write_back_delay bsize s p)) as [-> ->].
    unfold Sidecar.recover_one. destruct (Sidecar.s_stats s) as [r o sf ns rf] eqn:Es.
    case_test; [by rewrite Es|]. destruct (Sidecar.s_fs s !! _); [|done].
    by destruct (Sidecar.read_to_string _ _). }
  destruct (H names (Sidecar.mk_scan dir Sidecar.stats_default [])) as [H1 H2].
  unfold spawn_refresh_worker. case_test; cbn; by rewrite H1, H2.
Qed.

End Start.

(** ** The workers' steps

    [Alloc] stands for any handler that gives a path an inode ([lookup],
    [create], [readdir]); [Uploaded] is a completed upload, [Tick] one tick of
    the refresh worker after the first. *)
Inductive event :=
| Alloc (p : string) (k : FileType) (sz : Z)
| Uploaded (ino now : Z)
| Tick.

(** [inodes.entry(ino).and_modify(|v| v.mtime = Some(now))] of the worker. *)
Definition touch (ino now : Z) (m : gmap Z InodeEntry) : gmap Z InodeEntry :=
  if ino =? INO_RECOVERY_SENTINEL then m
  else alter (fun v => mk_inode (path v) (kind v) (size v) (Some now)) ino m.
Definition refresh_tick (c : caches) : caches := mk_caches (tbl c) ∅ ∅.

Definition step (e : event) (m : mount) : mount :=
  match e with
  | Alloc p k sz =>
      mk_mount (set_tbl (fst (alloc_ino p k sz (tbl (m_caches m)))) (m_caches m))
        (worker_inodes m) (writeback_sender m) (channel m) (concurrent_deleter m) (refresh_worker m) (m_dir m)
  | Uploaded ino now =>
      mk_mount (m_caches m) (touch ino now <$> worker_inodes m) (writeback_sender m) (channel m)
        (concurrent_deleter m) (refresh_worker m) (m_dir m)
  | Tick =>
      mk_mount (if refresh_worker m then refresh_tick (m_caches m) else m_caches m)
        (worker_inodes m) (writeback_sender m) (channel m) (concurrent_deleter m) (refresh_worker m) (m_dir m)
  end.
Definition run (es : list event) (m : mount) : mount := foldl (fun m e => step e m) m es.
Definition is_upload (e : event) : bool := match e with Uploaded _ _ => true | _ => false end.

Lemma step_upload e m m' : m_caches m = m_caches m' -> refresh_worker m = refresh_worker m' ->
  m_caches (step e m) = (if is_upload e then m_caches m' else m_caches (step e m')) /\
  refresh_worker (step e m) = refresh_worker m'.
Proof. intros H1 H2. destruct e; cbn; rewrite ?H1, ?H2; done. Qed.

Lemma run_uploads es : forall m m', m_caches m = m_caches m' -> refresh_worker m = refresh_worker m' ->
  m_caches (run es m) = m_caches (run (List.filter (fun e => negb (is_upload e)) es) m').
Proof.
  induction es as [|e es IH]; intros m m' H1 H2; cbn [run foldl List.filter]; [done|].
  destruct (step_upload e m m' H1 H2) as [G1 G2].
  destruct (is_upload e) eqn:Ee; cbn [negb].
  - by apply IH.
  - cbn [run foldl]. apply IH; [done|]. rewrite G2. destruct e; done.
Qed.

(** The worker's map never gets an entry beyond those of its copy. *)
Lemma run_worker_dom es : forall m, dom <$> worker_inodes (run es m) = (dom <$> worker_inodes m : option (gset Z)).
Proof.
  induction es as [|e es IH]; intros m; cbn [run foldl]; [done|].
  unfold run in IH. rewrite IH. destruct e; try done.
  cbn. destruct (worker_inodes m); cbn; [|done]. f_equal. unfold touch. case_test; [done|].
  apply leibniz_equiv, dom_alter.
Qed.

Section Uploads.
Context (delete_cache : bool) (write_back_delay bsize refresh_interval : Z).
Context (deleter_config spawn_ok worker_alive : bool).
Abbreviation init entries dir := (fst (common_init_wb delete_cache write_back_delay bsize refresh_interval
  deleter_config spawn_ok worker_alive entries (fresh_mount dir))).

Lemma init_worker entries dir :
  worker_inodes (init entries dir) = Some {[2 := mk_inode EmptyString Directory 4096 None]}.
Proof using.
  unfold common_init_wb, recover. cbn [worker_inodes fst].
  by destruct (before_scan refresh_interval deleter_config spawn_ok dir _ eq_refl) as (_ & _ & _ & -> & _).
Qed.

(** No completed upload is ever seen by the mount.  Whatever files are
    opened and uploaded after the start, the inode table and the caches are
    those of the same run without its uploads, and the only inode the worker
    can stamp is the root's: the modification time it writes is lost. *)
Theorem uploads_never_stamp es entries dir :
  let m := run es (init entries dir) in
  m_caches m = m_caches (run (List.filter (fun e => negb (is_upload e)) es) (init entries dir)) /\
  (forall mi ino, worker_inodes m = Some mi -> is_Some (mi !! ino) -> ino = 2).
Proof using.
  cbn zeta. split; [by apply run_uploads|].
  intros mi ino E Hi. pose proof (run_worker_dom es (init entries dir)) as Hd.
  rewrite E, init_worker in Hd. cbn in Hd. apply (inj Some) in Hd.
  apply elem_of_dom in Hi. rewrite Hd, dom_singleton_L in Hi. set_solver.
Qed.

End Uploads.

(** ** The refresh worker *)
Section Refresh.
Context (cfg : config) (op : backend) (to_lowercase : chars -> chars) (nfc : string -> string).

(** After a tick of the refresh worker the mount answers from the backend:
    the next [stat] of any path is the backend's answer, the next listing of
    any directory is the backend's listing or its error, whatever the caches
    held and whatever their lifetimes; inode numbers are kept. *)
Theorem refresh_serves_backend now path raw m :
  refresh_worker m = true ->
  let c := m_caches (step Tick m) in
  snd (stat_op cfg op now path c) = backend_stat cfg op path /\
  match read_listing cfg op to_lowercase nfc (Path.canonicalize_list_path raw) with
  | Ok rows => exists rows', snd (list_op cfg op to_lowercase nfc now raw c) = Ok rows' /\
      map r_name rows' = map r_name rows /\ map r_size rows' = map r_size rows /\
      map r_mode rows' = map r_mode rows
  | Err e => snd (list_op cfg op to_lowercase nfc now raw c) = Err e
  end /\
  tbl c = tbl (m_caches m).
Proof using.
  intros Hr. cbn [step m_caches]. rewrite Hr. split_and!; [| |done].
  - unfold stat_op, cached_stat. cbn [refresh_tick attr_cache]. rewrite lookup_empty.
    by destruct (vfs_refresh cfg), (backend_stat cfg op path).
  - unfold list_op, fresh_snapshot. cbn [refresh_tick dir_cache]. rewrite lookup_empty.
    destruct (read_listing _ _ _ _ _) as [rows|e]; [|done].
    destruct (alloc_rows _ _ _) as [t s]. eexists. split; [done|]. rewrite !map_map.
    split_and!; by apply map_ext.
Qed.

End Refresh.

(** ** Concrete runs *)
Definition sidecar_dir : gmap string file :=
  list_to_map [("aa"%string, mk_file (as_bytes "data") 0 true); ("aa.dirty"%string, mk_file (as_bytes "x/y") 0 true);
               ("bb.dirty"%string, mk_file (as_bytes "z") 0 true)].

Lemma init_recovers_witness :
  let '(m, st) := common_init_wb false 5 0 60 false false true
    (Some ["aa"; "bb.dirty"; "aa.dirty"]%string) (fresh_mount sidecar_dir) in
  channel m = [mk_task INO_RECOVERY_SENTINEL "x/y" "aa" None false 0 5 0] /\ Sidecar.no_sender st = 0 /\
  m_dir m !! "bb.dirty"%string = None /\ is_Some (m_dir m !! "aa.dirty"%string).
Proof.
  pose proof (init_recovers false 5 0 60 false false true ["aa"; "bb.dirty"; "aa.dirty"]%string sidecar_dir) as H.
  destruct (common_init_wb _ _ _ _ _ _ _ _ _) as [m st].
  destruct H as (H1 & _ & H3 & _ & H5); [done| | |].
  - repeat constructor; set_solver.
  - intros p Hp. repeat (apply elem_of_cons in Hp as [->|Hp]; [by vm_compute|]). by apply elem_of_nil in Hp.
  - split_and!; [rewrite H1; by vm_compute|done|rewrite H5; by vm_compute|rewrite H5; vm_compute; by eexists].
Defined.

Definition one_file : backend :=
  mk_backend (fun _ => Ok (mk_bmeta FILE 7 None)) (fun _ => Ok [Some (mk_bentry "f" (mk_bmeta FILE 7 None))]).
Definition plain_config : config :=
  mk_config 300 300 false false true false None None None [] [] false false false false.
(** A mount whose caches say 5 bytes where the backend has 7. *)
Definition stale : mount :=
  mk_mount (mk_caches empty_table ∅ {["f"%string := (mk_stat RegularFile 5 None, 10)]}) None true [] false true ∅.

Lemma refresh_serves_backend_witness :
  snd (stat_op plain_config one_file 20 "f" (m_caches stale)) = Some (mk_stat RegularFile 5 None) /\
  snd (stat_op plain_config one_file 20 "f" (m_caches (step Tick stale))) = Some (mk_stat RegularFile 7 None).
Proof.
  split; [by vm_compute|].
  destruct (refresh_serves_backend plain_config one_file id id 20 "f" EmptyString stale eq_refl) as [H _].
  rewrite H. by vm_compute.
Defined.

(** An upload that completes leaves the time the handlers see as it was. *)
Example upload_time_lost :
  let m := run [Alloc "f" RegularFile 7; Uploaded 3 1000]
    (fst (common_init_wb false 5 0 0 false false true (Some []) (fresh_mount ∅))) in
  inodes (tbl (m_caches m)) !! 3 = Some (mk_inode "f" RegularFile 7 None).
Proof. by vm_compute. Qed.

End Init.
