(* ===== verification/Session.v ===== *)
(** * Session: the whole of write and fsync, and what a reader sees after them

    [MntrsFs::write] and [fsync] of src/src/lib.rs on the state of [Read]: the
    direct path, the gap, the local copy ([FileOps]), the inode's size, the
    upload ([Writeback]), the job of the pool, the cache index, the eviction
    ([Evict]) and the invalidation of both cache levels ([CacheLayers]).  With
    [Read.open] and [Read.read] they make a session on a file, compared with a
    POSIX file.

    The backend's answers and the outcomes of system calls are arguments. *)

From Stdlib Require Import ZArith Lia Strings.Byte Strings.String Strings.Ascii.
From S2P Require Import Prelude Util BlockFormat MemCache DiskPool CacheLayers Prefetcher FileOps Writeback.
From S2P Require Import Inodes Evict Errors Read.

Module Session.
Import Inodes Read.

(** ** State *)

(** A whole-file job of the pool ([DiskWriteJob] without descriptor). *)
Record pool_job := mk_pool_job { pj_path : string; pj_offset : Z; pj_data : bytes }.

(** [dirty]: the dirty write handles with their [last_write_at];
    [fsync_paths]: [DIRTY_CACHE_PATHS]; [objects]: what the handler itself put
    on the backend. *)
Record io (C : Type) := mk_io {
  rs : Read.state (C := C);
  dirty : gmap Z Z;
  writeback_pending : gset string;
  sent : list WritebackTask;
  pool : list pool_job;
  fsync_paths : gset string;
  objects : gmap string bytes
}.
Arguments mk_io {C}. Arguments rs {C}. Arguments dirty {C}. Arguments writeback_pending {C}.
Arguments sent {C}. Arguments pool {C}. Arguments fsync_paths {C}. Arguments objects {C}.

(** The answers one [write] meets.  [e_ranged]: the backend can append or write
    in parts; [e_sender]: the sender when it is set, and whether it still
    delivers. *)
Record env := mk_env {
  e_now : Z;
  e_ranged : bool;
  e_put_ok : bool;
  e_read_range : Z -> Z -> result bytes FileOps.read_error;
  e_refetch : option bytes;
  e_gap_fault : bool;
  e_set_len_ok : bool;
  e_write_fault : option (Z * Errors.ErrorKind);
  e_free : option Z;
  e_sender : option bool
}.

Record wconfig := mk_wconfig {
  immediate_threshold : Z;
  write_back_delay : Z;
  write_wait : Z;
  upload_chunk : Z;
  eviction : Evict.config
}.

Section Handlers.
Context {C : Type} `{MC : !MemCache C}.
Context (salt gen_cap : Z) (cfg : Read.config) (wc : wconfig).

Definition set_rs r (s : io C) : io C :=
  mk_io r (dirty s) (writeback_pending s) (sent s) (pool s) (fsync_paths s) (objects s).
Definition off_mode : bool := negb (PathHash.disk_write_buffer (cache_mode cfg)).
Definition path_of (h : FileHandleState) : string :=
  match h with ReadHandle p _ _ _ _ | WriteHandle p _ _ _ => p end.
Definition fd_of (h : FileHandleState) : option descriptor :=
  match h with WriteHandle _ fd _ _ => fd | ReadHandle _ _ _ _ _ => None end.
Definition buffer_of (h : FileHandleState) : option Z :=
  match h with WriteHandle _ _ b _ => b | ReadHandle _ _ _ _ _ => None end.

(** The length of the local copy the gap is measured from. *)
Definition local_len (h : FileHandleState) (r : Read.state (C := C)) : Z :=
  match fd_of h with
  | Some d => match fd_file d r with Some f => lenZ (file_data f) | None => 0 end
  | None => match buffer_of h ≫= (fun i => heap r !! i) with Some v => lenZ v | None => 0 end
  end.
Definition known_size (ino : Z) (r : Read.state (C := C)) : Z :=
  match inodes (tab r) !! ino with Some e => Inodes.size e | None => 0 end.

(** The pending buffer is registered again when the worker dropped it; the
    flag that is set is that of the handle's own buffer. *)
Definition publish (p : string) (i : Z) (b : gmap string (Z * bool)) : gmap string (Z * bool) :=
  <[p := match b !! p with
         | Some (j, d) => (j, if j =? i then true else d)
         | None => (i, true)
         end]> b.
(** Writing through a descriptor. *)
Definition put_file (d : descriptor) (f : file) (r : Read.state (C := C)) : Read.state (C := C) :=
  match d with
  | Linked name => set_disk (<[name := f]> (l2_fs (disk r))) (l2_index (disk r)) r
  | Unlinked i => mk_state (tab r) (cache r) (handles r) (heap r) (off_mode_buffers r) (jobs r) (NEXT_HANDLE r)
                    (<[i := f]> (orphans r))
  end.
Definition backfill_failed (e : env) (gap : option bytes) (offset : Z) (buf : bytes) : bool :=
  e_gap_fault e && bool_decide (is_Some gap) && (lenZ buf <? offset).
Definition copy_local (e : env) (h : FileHandleState) (gap : option bytes) (ino offset : Z) (data : bytes)
    (r : Read.state (C := C)) : Read.state (C := C) * result unit Errors.io_Error :=
  if off_mode then
    match buffer_of h with
    | Some i =>
        match heap r !! i with
        | Some v =>
            let v := FileOps.off_mode_splice (known_size ino r) (e_refetch e) gap offset data v in
            (set_heap (<[i := v]> (heap r)) (publish (path_of h) i (off_mode_buffers r)) r, Ok tt)
        | None => (r, Ok tt)
        end
    | None => (r, Ok tt)
    end
  else
    match fd_of h with
    | Some d =>
        match fd_file d r with
        | Some f =>
            let '(after, o) := FileOps.disk_fd_write (e_gap_fault e) (e_set_len_ok e) (option_map fst (e_write_fault e))
                                 gap offset data (file_data f) in
            (put_file d (mk_file after (e_now e) (file_readable f)) r,
             match o with
             | Ok _ => Ok tt
             | Err _ => Err (Errors.io_new (match e_write_fault e with
                                            | Some (_, k) => if backfill_failed e gap offset (file_data f) then Errors.OtherKind else k
                                            | None => Errors.OtherKind
                                            end))
             end)
        | None => (r, Ok tt)
        end
    | None => (r, Ok tt)
    end.

(** The inode's size and time. *)
Definition grow_inode (now ino : Z) (p : string) (end_ : Z) (r : Read.state (C := C)) : Read.state (C := C) :=
  let t := tab r in
  let e := match inodes t !! ino with
           | Some v => mk_inode (path v) (kind v) (FileOps.write_inode_size (Some (Inodes.size v)) end_ 0) (Some now)
           | None => mk_inode p RegularFile end_ (Some now)
           end in
  mk_state (set_inodes (<[ino := e]> (inodes t)) t) (cache r) (handles r) (heap r) (off_mode_buffers r) (jobs r)
    (NEXT_HANDLE r) (orphans r).

(** The upload of a buffer file that exists. *)
Definition enqueue (e : env) (ino fh : Z) (p : string) (s : io C) : io C :=
  let cpath := buffer_name salt p in
  match l2_fs (disk (rs s)) !! cpath with
  | None => s
  | Some _ =>
      let s := mk_io (rs s) (dirty s) (writeback_pending s) (sent s) (pool s) ({[cpath]} ∪ fsync_paths s) (objects s) in
      match e_sender e with
      | None => s
      | Some alive =>
          if bool_decide (p ∈ writeback_pending s) then s
          else
            let delay := FileOps.per_task_writeback_delay (immediate_threshold wc) (write_back_delay wc) (write_wait wc)
                           (e_now e) (Inodes.size <$> inodes (tab (rs s)) !! ino) (dirty s !! fh) in
            if alive then
              mk_io (rs s) (dirty s) ({[p]} ∪ writeback_pending s)
                (sent s ++ [mk_task ino p cpath None (PathHash.delete_cache_on_success (cache_mode cfg)) 0 delay
                              (upload_chunk wc)])
                (pool s) (fsync_paths s) (objects s)
            else s
      end
  end.
Definition index_buffer (now : Z) (p : string) (end_ : Z) (r : Read.state (C := C)) : Read.state (C := C) :=
  set_disk (l2_fs (disk r))
    (<[(p, None) := FileOps.write_index_entry now (l2_index (disk r) !! (p, None)) end_ 0]> (l2_index (disk r))) r.
Definition evict_after (e : env) (r : Read.state (C := C)) : Read.state (C := C) :=
  let '(fs, ix) := Evict.evict_if_needed salt (e_now e) (e_free e) (eviction wc) (l2_fs (disk r), l2_index (disk r)) in
  remove_names fs ix r.

(** What follows the local copy. *)
Definition finish (e : env) (ino fh : Z) (h : FileHandleState) (offset : Z) (data : bytes) (s : io C) : io C :=
  let p := path_of h in
  let end_ := offset + lenZ data in
  let s := set_rs (grow_inode (e_now e) ino p end_ (rs s)) s in
  let s := enqueue e ino fh p s in
  let s := match fd_of h with
           | Some _ => s
           | None => mk_io (rs s) (dirty s) (writeback_pending s) (sent s) (pool s ++ [mk_pool_job p offset data])
                       (fsync_paths s) (objects s)
           end in
  let r := evict_after e (index_buffer (e_now e) p end_ (rs s)) in
  let r := set_cache (invalidate salt gen_cap (cache r) p ino) r in
  let d := match h with WriteHandle _ _ _ _ => <[fh := e_now e]> (dirty s) | ReadHandle _ _ _ _ _ => dirty s end in
  mk_io r d (writeback_pending s) (sent s) (pool s) (fsync_paths s) (objects s).

Definition write (e : env) (ino fh offset : Z) (data : bytes) (s : io C) : io C * result Z Errors.io_Error :=
  match handles (rs s) !! fh with
  | None => (s, Err (Errors.io_new Errors.NotFound))
  | Some h =>
      let p := path_of h in
      if direct_io cfg then
        if negb (e_ranged e) then (s, Err (Errors.io_new Errors.Unsupported))
        else if e_put_ok e then
          (mk_io (rs s) (dirty s) (writeback_pending s) (sent s) (pool s) (fsync_paths s) (<[p := data]> (objects s)),
           Ok (lenZ data mod 2 ^ 32))
        else (s, Err (Errors.io_new Errors.OtherKind))
      else
        match FileOps.gap_data (e_read_range e) (bool_decide (is_Some (fd_of h))) off_mode (local_len h (rs s)) offset with
        | Err _ => (s, Err (Errors.io_new Errors.OtherKind))
        | Ok gap =>
            let '(r, o) := copy_local e h gap ino offset data (rs s) in
            match o with
            | Err x => (set_rs r s, Err x)
            | Ok _ => (finish e ino fh h offset data (set_rs r s), Ok (lenZ data mod 2 ^ 32))
            end
        end
  end.

(** [fsync]; [sync]: the outcome of [sync_data] or [sync_all]. *)
Definition fsync (sync : result unit Errors.io_Error) (fh : Z) (s : io C) : result unit Errors.io_Error :=
  match handles (rs s) !! fh ≫= fd_of with
  | Some _ => sync
  | None => if off_mode then Ok tt else Err (Errors.io_new Errors.NotFound)
  end.
End Handlers.

(** ** A POSIX file *)

(** [pread] at an offset. *)
Definition pread (offset size : Z) (F : bytes) : bytes := takeZ size (dropZ offset F).

Inductive op :=
| OWrite (e : env) (offset : Z) (data : bytes)
| ORead (e : read_env) (offset size : Z).
Inductive reply := RWritten (r : result Z Errors.io_Error) | RData (r : result bytes Errors.io_Error).

Section Laws.
Context `{CRC : !Crc32c, LZ : !Lz4}.
Context {C : Type} `{MC : !MemCache C}.
Context (salt gen_cap : Z) (cfg : Read.config) (wc : wconfig).
Context (ino fh : Z) (p : string).
Abbreviation off := (off_mode cfg).

Definition step (o : op) (s : io C) : io C * reply :=
  match o with
  | OWrite e offset data =>
      let '(s, r) := write salt gen_cap cfg wc e ino fh offset data s in (s, RWritten r)
  | ORead e offset size =>
      let '(r, b) := read salt cfg e ino fh offset size (rs s) in (set_rs r s, RData b)
  end.
Fixpoint run (ops : list op) (s : io C) : io C * list reply :=
  match ops with
  | [] => (s, [])
  | o :: ops => let '(s, r) := step o s in let '(s, rs) := run ops s in (s, r :: rs)
  end.

(** The same on the content alone.  A write whose gap cannot be fetched is
    refused. *)
Definition spec_step (o : op) (F : bytes) : bytes * reply :=
  match o with
  | OWrite e offset data =>
      match FileOps.gap_data (e_read_range e) (negb off) off (lenZ F) offset with
      | Ok _ => (FileIO.pwrite offset data F, RWritten (Ok (lenZ data)))
      | Err _ => (F, RWritten (Err (Errors.io_new Errors.OtherKind)))
      end
  | ORead _ offset size => (F, RData (Ok (pread offset size F)))
  end.
Fixpoint spec_run (ops : list op) (F : bytes) : bytes * list reply :=
  match ops with
  | [] => (F, [])
  | o :: ops => let '(F, r) := spec_step o F in let '(F, rs) := spec_run ops F in (F, r :: rs)
  end.

(** The operations covered: no fault of the local disk, a backend that has
    nothing beyond the file, and, where the buffer is a file, writes that reach
    its end. *)
Definition fair (o : op) (F : bytes) : Prop :=
  match o with
  | OWrite e offset data =>
      0 <= offset /\ offset + lenZ data <= I64_MAX /\ lenZ data < 2 ^ 32 /\
      (forall a b g, lenZ F <= a -> e_read_range e a b = Ok g -> g = []) /\
      (forall b, e_refetch e = Some b -> lenZ b <= lenZ F) /\
      e_gap_fault e = false /\ e_set_len_ok e = true /\ e_write_fault e = None /\
      (off = false -> lenZ F <= offset + lenZ data)
  | ORead e offset size => 0 <= offset /\ 0 <= size < 2 ^ 32 /\ fd_calls e = fd_calm
  end.
Fixpoint fair_run (ops : list op) (F : bytes) : Prop :=
  match ops with
  | [] => True
  | o :: ops => fair o F /\ fair_run ops (fst (spec_step o F))
  end.

(** The handle [fh] is open for writing on [p], whose content is [F]. *)
Record opened (F : bytes) (s : io C) : Prop := {
  op_ino : exists e, inodes (tab (rs s)) !! ino = Some e /\ path e = p /\ Inodes.size e = lenZ F;
  op_handle : exists fd buf ex, handles (rs s) !! fh = Some (WriteHandle p fd buf ex) /\
    if off then fd = None /\ exists i d, buf = Some i /\ heap (rs s) !! i = Some F /\ off_mode_buffers (rs s) !! p = Some (i, d)
    else buf = None /\ exists d f, fd = Some d /\ (forall n, d = Linked n -> n = buffer_name salt p) /\
           fd_file d (rs s) = Some f /\ file_data f = F
}.

(** *** The local copy *)
Lemma gap_empty e fd (F : bytes) offset gap :
  (forall a b g, lenZ F <= a -> e_read_range e a b = Ok g -> g = []) ->
  FileOps.gap_data (e_read_range e) fd off (lenZ F) offset = Ok gap -> gap = None \/ gap = Some [].
Proof using.
  intros He. unfold FileOps.gap_data. repeat (case_test; try (intros [= <-]; by left)).
  all: destruct (e_read_range e (lenZ F) offset) as [g|[]] eqn:E; try done; intros [= <-]; right; try done.
  all: f_equal; by apply (He (lenZ F) offset).
Qed.

Lemma splice_pwrite k refetch gap offset data F :
  0 <= offset -> (gap = None \/ gap = Some []) -> (forall b, refetch = Some b -> lenZ b <= lenZ F) ->
  FileOps.off_mode_splice k refetch gap offset data F = FileIO.pwrite offset data F.
Proof using.
  intros Ho Hg Hr. pose proof (lenZ_nonneg F).
  assert (E : (if (lenZ F =? 0) && ((0 <? k) || (0 <? offset)) then
    match refetch with Some body => if k <=? lenZ body then body else F | None => F end else F) = F).
  { case_test; [|done]. bool_props. destruct refetch as [b|]; [|done]. case_test; [|done].
    specialize (Hr b eq_refl). pose proof (lenZ_nonneg b). rewrite (lenZ_0_nil F), (lenZ_0_nil b) by lia. done. }
  unfold FileOps.off_mode_splice. rewrite E.
  assert (E2 : (if lenZ F <? offset + lenZ data then
      let v := match gap with Some g => F ++ takeZ (Z.min (lenZ g) (wrap64 (offset - lenZ F))) g | None => F end in
      if lenZ v <? offset + lenZ data then FileOps.resize (offset + lenZ data) v else v else F)
    = if lenZ F <? offset + lenZ data then FileOps.resize (offset + lenZ data) F else F).
  { assert (Hv : match gap with Some g => F ++ takeZ (Z.min (lenZ g) (wrap64 (offset - lenZ F))) g | None => F end = F).
    { destruct Hg as [->| ->]; [done|]. unfold takeZ. by rewrite take_nil, app_nil_r. }
    rewrite Hv. cbv zeta. by repeat case_test. }
  cbv zeta in E2 |- *. rewrite E2. by apply FileOps.resize_copy.
Qed.

Lemma fd_write_pwrite gap offset data F :
  0 <= offset -> (gap = None \/ gap = Some []) -> lenZ F <= offset + lenZ data ->
  FileOps.disk_fd_write false true None gap offset data F = (FileIO.pwrite offset data F, Ok tt).
Proof using.
  intros Ho Hg Hl. pose proof (lenZ_nonneg F). pose proof (lenZ_nonneg data).
  assert (Hc : FileIO.pwrite offset data (FileIO.set_len (offset + lenZ data) F) = FileIO.pwrite offset data F).
  { rewrite FileOps.pwrite_cut by done. apply takeZ_all. rewrite FileIO.lenZ_pwrite by done. lia. }
  assert (Hn : FileIO.pwrite (lenZ F) [] F = F) by (by rewrite FileOps.pwrite_append, app_nil_r).
  unfold FileOps.disk_fd_write. destruct Hg as [->| ->]; [by rewrite Hc|]. case_test; by rewrite ?Hn, Hc.
Qed.

(** *** What follows the local copy leaves it alone *)

(** Removing names leaves descriptors with their files. *)
Lemma remove_names_keeps fs ix (r : Read.state (C := C)) : fs ⊆ l2_fs (disk r) ->
  let r' := remove_names fs ix r in
  (forall q lo ch pre ex i, handles r !! i = Some (ReadHandle q lo ch pre ex) -> handles r' !! i = Some (ReadHandle q lo ch pre ex)) /\
  (forall q buf ex i, handles r !! i = Some (WriteHandle q None buf ex) -> handles r' !! i = Some (WriteHandle q None buf ex)) /\
  (forall q d buf ex i f, handles r !! i = Some (WriteHandle q (Some d) buf ex) -> fd_file d r = Some f ->
     exists d', handles r' !! i = Some (WriteHandle q (Some d') buf ex) /\ fd_file d' r' = Some f /\
       (forall n, d' = Linked n -> d = Linked n)).
Proof using.
  intros Hfs r'. unfold r', remove_names. cbn [handles set_disk set_cache].
  split; [|split]; intros *; rewrite lookup_fmap; [by intros ->|by intros ->|]. intros -> Hf. cbn [fmap option_fmap option_map relink].
  destruct d as [n|k]; cbn [fd_file] in Hf.
  - destruct (fs !! n) as [g|] eqn:En.
    + rewrite lost_not_found by (by eexists). exists (Linked n). split; [done|]. split; [|done]. cbn.
      rewrite En. rewrite <-Hf. symmetry. by eapply lookup_weaken.
    + destruct (lost_find fs r n f Hf En) as (k & x & -> & Hk). eexists. split; [done|]. split; [|done]. cbn.
      rewrite lookup_app_r by lia. by replace (_ + k - _)%nat with k by lia.
  - exists (Unlinked k). split; [done|]. split; [|done]. cbn. by rewrite lookup_app_l by (by eapply lookup_lt_Some).
Qed.

(** No limit is set under which files would be evicted. *)
Definition no_eviction : Prop := off = false ->
  Evict.cache_max_size (eviction wc) = 0 /\ Evict.cache_min_free_space (eviction wc) = 0 /\
  Evict.cache_max_age (eviction wc) = 0.

Lemma evict_keeps e (r : Read.state (C := C)) :
  exists fs ix, evict_after salt wc e r = remove_names fs ix r /\ fs ⊆ l2_fs (disk r) /\
    (no_eviction -> off = false -> fs = l2_fs (disk r) /\ ix = l2_index (disk r)).
Proof using.
  unfold evict_after.
  pose proof (Evict.evict_shrinks salt (e_now e) (e_free e) (eviction wc) (l2_fs (disk r), l2_index (disk r))) as Hs.
  destruct (Evict.evict_if_needed _ _ _ _ _) as [fs ix] eqn:E. exists fs, ix. split; [done|]. split; [done|].
  intros Hn Ho. destruct (Hn Ho) as (H1 & H2 & H3).
  unfold Evict.evict_if_needed in E. rewrite H1, H2, H3 in E. cbn in E. by injection E as <- <-.
Qed.

Lemma invalidate_keeps (m : MultiLevelCache C) q i :
  l2_fs (l2 (invalidate salt gen_cap m q i)) !! buffer_name salt p = l2_fs (l2 m) !! buffer_name salt p.
Proof using.
  unfold invalidate, l2_invalidate_path. cbn [l2].
  pose proof (BlockIndex.drop_fs salt (l2_fs (l2 m)) (l2_index (l2 m)) q (buffer_name salt p)) as H.
  destruct (drop_block_cache_for_path _ _ _ _) as [fs ix]. cbn in H |- *.
  destruct H as [(_ & idx & _ & E)|[E _]]; [|done]. by apply buffer_not_block in E.
Qed.

Lemma enqueue_rs e i h q (s : io C) : rs (enqueue salt cfg wc e i h q s) = rs s.
Proof using. unfold enqueue. destruct (l2_fs _ !! _); [|done]. destruct (e_sender e); [|done]. by repeat case_test. Qed.

(** The state [finish] evicts from, and what it does there. *)
Lemma finish_shape e h offset data (s : io C) : exists r0 fs ix,
  tab r0 = tab (grow_inode (e_now e) ino (path_of h) (offset + lenZ data) (rs s)) /\
  handles r0 = handles (rs s) /\ heap r0 = heap (rs s) /\ off_mode_buffers r0 = off_mode_buffers (rs s) /\
  orphans r0 = orphans (rs s) /\ l1 (cache r0) = l1 (cache (rs s)) /\ l2_fs (disk r0) = l2_fs (disk (rs s)) /\
  fs ⊆ l2_fs (disk r0) /\ (no_eviction -> off = false -> fs = l2_fs (disk r0) /\ ix = l2_index (disk r0)) /\
  (forall k, is_Some (l2_index (disk (rs s)) !! k) -> is_Some (l2_index (disk r0) !! k)) /\
  rs (finish salt gen_cap cfg wc e ino fh h offset data s) =
    let r1 := remove_names fs ix r0 in set_cache (invalidate salt gen_cap (cache r1) (path_of h) ino) r1.
Proof using.
  unfold finish. cbn zeta.
  set (s1 := enqueue _ _ _ _ _ _ _ _).
  assert (E1 : rs s1 = grow_inode (e_now e) ino (path_of h) (offset + lenZ data) (rs s)) by apply enqueue_rs.
  set (s2 := match fd_of h with Some _ => s1 | None => _ end).
  assert (E2 : rs s2 = rs s1) by (unfold s2; by destruct (fd_of h)).
  cbn [rs]. set (r0 := index_buffer _ _ _ (rs s2)).
  destruct (evict_keeps e r0) as (fs & ix & E & Hfs & Hn). exists r0, fs, ix. rewrite E.
  split_and!; try done; try (unfold r0; cbn; by rewrite E2, E1).
  intros k Hk. unfold r0. cbn. rewrite E2, E1. cbn. apply lookup_insert_is_Some'. by right.
Qed.

Lemma finish_keeps e h offset data (s : io C) :
  let r := rs (finish salt gen_cap cfg wc e ino fh h offset data s) in
  tab r = tab (grow_inode (e_now e) ino (path_of h) (offset + lenZ data) (rs s)) /\
  heap r = heap (rs s) /\ off_mode_buffers r = off_mode_buffers (rs s) /\
  (forall q lo ch pre ex i, handles (rs s) !! i = Some (ReadHandle q lo ch pre ex) -> handles r !! i = Some (ReadHandle q lo ch pre ex)) /\
  (forall q buf ex i, handles (rs s) !! i = Some (WriteHandle q None buf ex) -> handles r !! i = Some (WriteHandle q None buf ex)) /\
  (forall q d buf ex i f, handles (rs s) !! i = Some (WriteHandle q (Some d) buf ex) -> fd_file d (rs s) = Some f ->
     (forall n, d = Linked n -> n = buffer_name salt p) ->
     exists d', handles r !! i = Some (WriteHandle q (Some d') buf ex) /\ fd_file d' r = Some f /\
       (forall n, d' = Linked n -> n = buffer_name salt p)) /\
  (no_eviction -> off = false -> l2_fs (disk r) !! buffer_name salt p = l2_fs (disk (rs s)) !! buffer_name salt p).
Proof using.
  intros r. destruct (finish_shape e h offset data s) as (r0 & fs & ix & H1 & H2 & H3 & H4 & H5 & H6 & H7 & Hfs & Hn & _ & E).
  unfold r. rewrite E. cbn [tab heap off_mode_buffers handles set_cache].
  destruct (remove_names_keeps fs ix r0 Hfs) as (K1 & K2 & K3). rewrite <-H2. split_and!; [done..| |].
  - intros q d buf ex i f Hi Hf Hd. assert (Hf0 : fd_file d r0 = Some f) by (rewrite <-Hf; destruct d; cbn; congruence).
    destruct (K3 _ _ _ _ _ _ Hi Hf0) as (d' & Hh & Hf' & Hl). exists d'. split; [done|].
    assert (Hl' : forall n, d' = Linked n -> n = buffer_name salt p) by (intros n Hn'; by apply Hd, Hl). split; [|done].
    destruct d' as [n|k]; [|exact Hf']. rewrite (Hl' n eq_refl) in *. cbn [fd_file] in Hf' |- *.
    unfold disk in *. cbn [cache set_cache]. by rewrite invalidate_keeps.
  - intros He Ho. unfold disk. cbn [cache set_cache]. rewrite invalidate_keeps. cbn. by rewrite (proj1 (Hn He Ho)), H7.
Qed.

(** *** One step *)
Lemma slice_pread offset size (F : bytes) : 0 <= offset < lenZ F -> 0 <= size -> slice offset size F = pread offset size F.
Proof using.
  intros Ho Hs. unfold slice, pread. destruct (Z.le_gt_cases (offset + size) (lenZ F)).
  - f_equal. lia.
  - rewrite !takeZ_all; [done| |]; rewrite lenZ_dropZ by lia; lia.
Qed.
Lemma pread_past offset size (F : bytes) : lenZ F <= offset -> pread offset size F = [].
Proof using.
  intros H. unfold pread, dropZ, takeZ, lenZ in *. rewrite drop_ge by lia. apply take_nil.
Qed.

Lemma read_refines F s e offset size : direct_io cfg = false -> opened F s ->
  0 <= offset -> 0 <= size -> fd_calls e = fd_calm ->
  read salt cfg e ino fh offset size (rs s) = (rs s, Ok (pread offset size F)).
Proof using.
  intros Hd [(x & He & Hp & Hsz) (fd & buf & ex & Hh & Hl)] Ho Hs Hc. unfold read, resolve. rewrite He, Hp, Hsz, Hc.
  destruct (Z.leb_spec (lenZ F) offset); [by rewrite pread_past|].
  assert (Hlt : (offset <? lenZ F) = true) by lia.
  unfold from_buffers, own_buffer, fd_buffer. rewrite Hd, Hh. fold (off_mode cfg).
  destruct off.
  - destruct Hl as (-> & i & d & -> & Hi & _). by rewrite Hi, Hlt, slice_pread by lia.
  - destruct Hl as (-> & d & f & -> & _ & Hf & Ef). rewrite Hf. cbn [metadata_err seek_err read_err fd_calm].
    by rewrite Ef, Hlt, slice_pread by lia.
Qed.

Lemma grow_opened e end_ (F : bytes) r :
  0 <= end_ -> (exists x, inodes (tab r) !! ino = Some x /\ path x = p /\ Inodes.size x = lenZ F) ->
  exists x, inodes (tab (grow_inode (C := C) (e_now e) ino p end_ r)) !! ino = Some x /\ path x = p /\
    Inodes.size x = Z.max (lenZ F) end_.
Proof using.
  intros He (x & Hx & Hp & Hs). unfold grow_inode. rewrite Hx. cbn. rewrite lookup_insert_eq.
  eexists. split; [done|]. cbn. split; [done|]. unfold FileOps.write_inode_size. rewrite Hs.
  destruct (Z.ltb_spec (lenZ F) (end_ + 0)); lia.
Qed.

(** An accepted write, up to what follows the local copy. *)
Definition written (e : env) (offset : Z) (data F : bytes) (s : io C) (h : FileHandleState) (r : Read.state (C := C)) : Prop :=
  tab r = tab (rs s) /\ handles r = handles (rs s) /\ path_of h = p /\
  if off then exists i ex, h = WriteHandle p None (Some i) ex /\ heap r !! i = Some (FileIO.pwrite offset data F) /\
                off_mode_buffers r !! p = Some (i, true)
  else exists d f ex, h = WriteHandle p (Some d) None ex /\ (forall n, d = Linked n -> n = buffer_name salt p) /\
         fd_file d (rs s) = Some f /\ r = put_file d (mk_file (FileIO.pwrite offset data F) (e_now e) (file_readable f)) (rs s).

Lemma put_file_file d f g (r : Read.state (C := C)) : fd_file d r = Some f -> fd_file d (put_file d g r) = Some g.
Proof using.
  intros Hf. destruct d as [n|i]; cbn in *; [apply lookup_insert_eq|].
  apply list_lookup_insert_eq. by eapply lookup_lt_Some.
Qed.
Lemma put_file_rest d g (r : Read.state (C := C)) :
  tab (put_file d g r) = tab r /\ handles (put_file d g r) = handles r /\ heap (put_file d g r) = heap r /\
  off_mode_buffers (put_file d g r) = off_mode_buffers r /\ l1 (cache (put_file d g r)) = l1 (cache r).
Proof using. by destruct d. Qed.

Lemma write_cases F s e offset data : direct_io cfg = false -> opened F s -> fair (OWrite e offset data) F ->
  match FileOps.gap_data (e_read_range e) (negb off) off (lenZ F) offset with
  | Ok _ => exists h r, handles (rs s) !! fh = Some h /\ written e offset data F s h r /\
      write salt gen_cap cfg wc e ino fh offset data s =
        (finish salt gen_cap cfg wc e ino fh h offset data (set_rs r s), Ok (lenZ data))
  | Err _ => write salt gen_cap cfg wc e ino fh offset data s = (s, Err (Errors.io_new Errors.OtherKind))
  end.
Proof using.
  intros Hd Hop (Ho & Hmax & Hdl & Hrange & Hre & Hgf & Hsl & Hwf & Hend).
  pose proof Hop as [Hi (fd & buf & ex & Hh & Hl)]. pose proof (lenZ_nonneg data) as Hd0.
  assert (Hll : local_len (WriteHandle p fd buf ex) (rs s) = lenZ F /\ bool_decide (is_Some fd) = negb off).
  { unfold local_len. cbn. destruct off.
    - destruct Hl as (-> & i & d & -> & Hb & _). cbn. by rewrite Hb.
    - destruct Hl as (-> & d & f & -> & _ & Hf & <-). by rewrite Hf. }
  destruct Hll as [Hll Hfd]. unfold write. rewrite Hh, Hd. cbn [path_of fd_of]. rewrite Hll, Hfd.
  destruct (FileOps.gap_data _ _ _ _ _) as [gap|] eqn:Hg; [|done].
  apply gap_empty in Hg; [|done]. rewrite (Z.mod_small (lenZ data)) by lia.
  unfold copy_local. cbn [buffer_of fd_of path_of]. rewrite Hgf, Hsl, Hwf. cbn [option_map fst snd].
  destruct off eqn:Hoff.
  - destruct Hl as (-> & i & d & -> & Hb & Hreg). rewrite Hb, splice_pwrite by done.
    eexists _, _. split; [done|]. split; [|done]. unfold written. rewrite Hoff. split_and!; [done..|].
    exists i, ex. split; [done|]. cbn. unfold publish. by rewrite Hreg, Z.eqb_refl, !lookup_insert_eq.
  - destruct Hl as (-> & d & f & -> & Hd' & Hf & Hfd'). rewrite Hf, Hfd', fd_write_pwrite by auto.
    eexists _, _. split; [done|]. split; [|done]. unfold written. rewrite Hoff.
    split_and!; [apply put_file_rest..|done|]. by exists d, f, ex.
Qed.

Lemma write_refines F s e offset data : direct_io cfg = false -> opened F s ->
  fair (OWrite e offset data) F ->
  let '(s', r) := write salt gen_cap cfg wc e ino fh offset data s in
  opened (fst (spec_step (OWrite e offset data) F)) s' /\ RWritten r = snd (spec_step (OWrite e offset data) F).
Proof using.
  intros Hd Hop Hfair. pose proof (write_cases F s e offset data Hd Hop Hfair) as H.
  pose proof (lenZ_nonneg data). destruct Hfair as [Ho _]. cbn [spec_step].
  destruct (FileOps.gap_data _ _ _ _ _) as [gap|]; [|rewrite H; by split].
  destruct H as (h & r & Hh & (Ht & Hhs & Hp & Hl) & ->). split; [|done].
  destruct (finish_keeps e h offset data (set_rs r s)) as (E1 & E3 & E4 & _ & E5 & E6 & _).
  cbn [rs set_rs] in E1, E3, E4, E5, E6. cbn [fst]. rewrite <-Hhs in Hh. split.
  - rewrite E1, FileIO.lenZ_pwrite, Hp by done. apply grow_opened; [lia|]. rewrite Ht. apply Hop.
  - rewrite E3, E4. destruct off eqn:Hoff.
    + destruct Hl as (i & ex & -> & Hi & Hb). eexists _, _, _. split; [by apply E5|]. split; [done|]. by exists i, true.
    + destruct Hl as (d & f & ex & -> & Hdn & Hf & Er).
      destruct (E6 _ _ _ _ _ (mk_file (FileIO.pwrite offset data F) (e_now e) (file_readable f)) Hh) as (d' & Hh' & Hf' & Hl');
        [rewrite Er; by eapply put_file_file|done|].
      eexists _, _, _. split; [exact Hh'|]. split; [done|]. exists d'. eexists. split; [done|]. split; [done|]. by split; [exact Hf'|].
Qed.

Lemma session_step_refines F s o : direct_io cfg = false -> opened F s -> fair o F ->
  opened (fst (spec_step o F)) (fst (step o s)) /\ snd (step o s) = snd (spec_step o F).
Proof using.
  intros Hd Hop Hf. destruct o as [e offset data|e offset size]; cbn [step].
  - pose proof (write_refines F s e offset data Hd Hop Hf) as H.
    by destruct (write _ _ _ _ _ _ _ _ _ _) as [s' r].
  - destruct Hf as (Ho & [Hs _] & Hc). rewrite (read_refines F) by done. cbn. split; [|done].
    destruct Hop as [H1 H2]. by split.
Qed.

Lemma run_refines ops : forall F s, direct_io cfg = false -> opened F s -> fair_run ops F ->
  opened (fst (spec_run ops F)) (fst (run ops s)) /\ snd (run ops s) = snd (spec_run ops F).
Proof using.
  induction ops as [|o ops IH]; intros F s Hd Hop Hf; [done|]. destruct Hf as [Ho Hf].
  destruct (session_step_refines F s o Hd Hop Ho) as [H1 H2]. cbn [run spec_run].
  destruct (step o s) as [s1 r1], (spec_step o F) as [F1 r1']. cbn in H1, H2, Hf. subst r1'.
  destruct (IH F1 s1 Hd H1 Hf) as [H3 H4].
  destruct (run ops s1) as [s2 l], (spec_run ops F1) as [F2 l']. cbn in H3, H4 |- *. by subst.
Qed.
End Laws.

(** ** From open *)
Section Opening.
Context `{CRC : !Crc32c, LZ : !Lz4}.
Context {C : Type} `{MC : !MemCache C}.
Context (salt gen_cap : Z) (cfg : Read.config) (wc : wconfig) (ino : Z) (p : string).

(** What is there of the file before it is opened: its inode, and copies of its
    content where a copy is left. *)
Record closed (F : bytes) (s : io C) : Prop := {
  cl_ino : exists e, inodes (tab (rs s)) !! ino = Some e /\ path e = p /\ Inodes.size e = lenZ F;
  cl_file : off_mode cfg = false -> forall f, l2_fs (disk (rs s)) !! buffer_name salt p = Some f -> file_data f = F;
  cl_buffer : forall i d, off_mode_buffers (rs s) !! p = Some (i, d) -> heap (rs s) !! i = Some F
}.

Lemma sweep_keeps now (r : Read.state (C := C)) :
  tab (sweep_expired cfg now r) = tab r /\ disk (sweep_expired cfg now r) = disk r /\
  heap (sweep_expired cfg now r) = heap r /\ off_mode_buffers (sweep_expired cfg now r) = off_mode_buffers r.
Proof using. unfold sweep_expired. by case_test. Qed.

Lemma populate_keeps fetched saved now (F : bytes) (r : Read.state (C := C)) :
  let r' := populate_cache_from_backend salt fetched saved now p r in
  tab r' = tab r /\ heap r' = heap r /\ off_mode_buffers r' = off_mode_buffers r /\
  (default [] fetched = F -> saved = Saved -> (forall f, l2_fs (disk r) !! buffer_name salt p = Some f -> file_data f = F) ->
   match l2_fs (disk r') !! buffer_name salt p with Some f => file_data f = F | None => F = [] end).
Proof using.
  unfold populate_cache_from_backend. destruct (l2_fs (disk r) !! buffer_name salt p) as [f|] eqn:E.
  - split_and!; try done. intros _ _ H. rewrite E. by apply H.
  - split_and!; try (by destruct fetched, saved). intros <- -> _. destruct fetched as [b|]; [|by rewrite E].
    cbn. by rewrite lookup_insert_eq.
Qed.

(** An [open] that gets the object, where it exists: for the buffer file, which
    it can save and open, or in off mode for the buffer. *)
Definition opens (F : bytes) (o : open_env) : Prop :=
  if off_mode cfg then default [] (seed o) = F
  else default [] (fetched o) = F /\ saved o = Saved /\ open_ok o = true.

Lemma open_opened o flags F s :
  closed F s -> opens F o -> (Z.land flags 3 =? 0) = false ->
  let '(r, fh) := open salt cfg o ino flags (rs s) in
  opened salt cfg ino fh p F (set_rs r s).
Proof using.
  intros [(e & He & Hp & Hs) Hf Hb] HF Hfl. unfold open, resolve. rewrite He, Hp, Hfl. cbn [negb].
  set (r0 := sweep_expired cfg _ _).
  destruct (sweep_keeps (o_now o) (mk_state (tab (rs s)) (cache (rs s)) (handles (rs s)) (heap (rs s)) (off_mode_buffers (rs s))
    (jobs (rs s)) (wrap64 (NEXT_HANDLE (rs s) + 1)) (orphans (rs s)))) as (T1 & T2 & T3 & T4).
  fold r0 in T1, T2, T3, T4. cbn in T1, T3, T4.
  destruct (populate_keeps (fetched o) (saved o) (o_now o) F r0) as (P1 & P2 & P3 & P4).
  set (r1 := populate_cache_from_backend _ _ _ _ _ _) in *. unfold opens in HF.
  destruct (PathHash.disk_write_buffer (cache_mode cfg)) eqn:Ed.
  - assert (Ho : off_mode cfg = false) by (unfold off_mode; by rewrite Ed). rewrite Ho in HF. destruct HF as (F1 & F2 & F3).
    assert (Hf0 : forall f, l2_fs (disk r0) !! buffer_name salt p = Some f -> file_data f = F) by (rewrite T2; by apply Hf).
    specialize (P4 F1 F2 Hf0). rewrite F3.
    destruct (l2_fs (disk r1) !! buffer_name salt p) as [f|] eqn:Ef; split; cbn [rs set_rs set_handles tab handles set_disk set_cache].
    + exists e. by rewrite P1, T1.
    + eexists _, _, _. rewrite lookup_insert_eq, Ho. split; [done|]. split; [done|]. exists (Linked (buffer_name salt p)), f.
      split; [done|]. split; [by intros n [= <-]|]. by split.
    + exists e. by rewrite P1, T1.
    + eexists _, _, _. rewrite lookup_insert_eq, Ho. split; [done|]. split; [done|]. exists (Linked (buffer_name salt p)). eexists.
      split; [done|]. split; [by intros n [= <-]|]. cbn. rewrite lookup_insert_eq. by split.
  - assert (Ho : off_mode cfg = true) by (unfold off_mode; by rewrite Ed). rewrite Ho in HF.
    unfold off_mode_buffer. rewrite P3, T4, P2, T3.
    destruct (off_mode_buffers (rs s) !! p) as [[i d]|] eqn:Eb; split; cbn [rs set_rs set_handles tab handles set_heap].
    + exists e. by rewrite P1, T1.
    + eexists _, _, _. rewrite lookup_insert_eq, Ho. split; [done|]. split; [done|]. exists i, d. cbn.
      rewrite P2, T3, P3, T4. split_and!; [done|by eapply Hb|done].
    + exists e. by rewrite P1, T1.
    + eexists _, _, _. rewrite lookup_insert_eq, Ho. split; [done|]. split; [done|]. exists (buf_id o), false. cbn.
      rewrite !lookup_insert_eq. by rewrite HF.
Qed.

(** C4: a session through one handle.  Direct I/O is off, the inode has the size
    of the object, a buffer that is left of the file has its content, and an
    [open] for writing gets that content as its buffer.  Whatever is then
    written and read through the handle, in whatever order and whatever is
    evicted meanwhile, every reply is that of a POSIX file that started with
    that content: a write answers its length or, when the gap before it cannot
    be fetched, an error that changes nothing; a read answers the whole of the
    requested range that the file has.  Covered are operations in which the
    local disk does not fail and the backend has nothing beyond the end of the
    file; in off mode every such write, with a buffer file those that reach its
    end. *)
Theorem session_refines o flags ops F s :
  direct_io cfg = false -> closed F s -> opens F o -> (Z.land flags 3 =? 0) = false -> fair_run cfg ops F ->
  let '(r, fh) := open salt cfg o ino flags (rs s) in
  let '(s', replies) := run salt gen_cap cfg wc ino fh ops (set_rs r s) in
  let '(F', expected) := spec_run cfg ops F in
  replies = expected /\ opened salt cfg ino fh p F' s'.
Proof using.
  intros Hd Hc HF Hfl Hfair. pose proof (open_opened o flags F s Hc HF Hfl) as Ho.
  destruct (open _ _ _ _ _ _) as [r fh].
  destruct (run_refines salt gen_cap cfg wc ino fh p ops F _ Hd Ho Hfair) as [H1 H2].
  destruct (run _ _ _ _ _ _ _ _) as [s' replies], (spec_run _ _ _) as [F' expected]. by split.
Qed.
End Opening.

(** ** Other handles *)
Section Readers.
Context `{CRC : !Crc32c, CRCL : !Crc32cLaws, LZ : !Lz4, LZL : !Lz4Laws}.
Context {C : Type} `{MC : !MemCache C, MCL : !MemCacheLaws C}.
Context (salt gen_cap : Z) (cfg : Read.config) (wc : wconfig).
Context (inof : string -> Z) (inof_inj : forall p q, inof p = inof q -> p = q).
Context (fh : Z) (p : string) (remote : string -> Z -> option bytes).

(** Files that are not block files, and more index entries, keep L2 coherent. *)
Lemma coh2_frame l fs' ix' gens dio age : Coherence.coh2 salt remote l ->
  (forall n f, Coherence.is_block_name salt n -> fs' !! n = Some f -> l2_fs l !! n = Some f) ->
  (forall q idx, is_Some (l2_index l !! (q, Some idx)) -> is_Some (ix' !! (q, Some idx))) ->
  Coherence.coh2 salt remote (mk_l2 fs' ix' gens dio age).
Proof using.
  clear inof_inj inof. intros Hc Hfs Hix n f Hn Hb. cbn in Hn |- *.
  destruct (Hc n f (Hfs n f Hb Hn) Hb) as [(q & idx & d & -> & Hi & Hs & Hr & Hl & Hrem & Hin)|?]; [left|by right].
  exists q, idx, d. auto 10.
Qed.

(** After a write nothing of the file is left in either cache level. *)
Lemma finish_misses e h offset data (s : io C) now idx : off_mode cfg = false -> no_eviction cfg wc ->
  path_of h = p -> 0 <= idx <= U64_MAX -> Coherence.coherent salt inof remote (cache (rs s)) ->
  exists c, read_block salt now (cache (rs (finish salt gen_cap cfg wc e (inof p) fh h offset data s))) p (inof p) idx = (c, None)
    /\ l2_fs (l2 c) !! buffer_name salt p =
       l2_fs (disk (rs (finish salt gen_cap cfg wc e (inof p) fh h offset data s))) !! buffer_name salt p.
Proof using CRCL LZL MCL inof_inj.
  intros Ho Hn Hp Hi Hc.
  destruct (finish_shape salt gen_cap cfg wc (inof p) fh e h offset data s)
    as (r0 & fs & ix & _ & _ & _ & _ & _ & E1 & E2 & _ & Hev & Hix & ->).
  destruct (Hev Hn Ho) as [-> ->]. cbv zeta. rewrite Hp. set (r1 := remove_names _ _ r0).
  assert (Hc0 : Coherence.coherent salt inof remote (cache r1)).
  { destruct Hc as [H1 H2]. split; cbn; [by rewrite E1|].
    apply (coh2_frame (l2 (cache (rs s)))); [done|by rewrite E2|]. intros q i Hq. by apply Hix. }
  pose proof (Coherence.run_op_coh salt gen_cap inof inof_inj remote (cache r1)
    (Coherence.Write p (fun _ => None)) Hc0 I) as Hinv. cbn [Coherence.run_op Coherence.remote_after] in Hinv.
  unfold disk. cbn [cache set_cache].
  set (m := invalidate _ _ _ _ _) in *.
  destruct (read_block salt now m p (inof p) idx) as [c r] eqn:Er.
  destruct (Coherence.read_coh salt inof inof_inj _ _ _ _ _ _ _ Hinv Hi Er) as [_ Hr].
  destruct r as [d|]; [specialize (Hr d eq_refl); rewrite bool_decide_true in Hr; done|].
  exists c. split; [done|]. unfold read_block in Er. destruct (mc_get _ _ _) as [c1 [d|]]; [done|].
  destruct (l2_get_block salt now (l2 m) p idx) as [c2 [d|]] eqn:E3; [done|]. injection Er as <-. cbn [l2].
  unfold l2_get_block in E3. case_test_in E3; [by injection E3 as <-|].
  destruct (l2_fs (l2 m) !! _); [|by injection E3 as <-]. case_test_in E3.
  { injection E3 as <-. cbn. unfold remove_file. apply lookup_delete_ne. apply not_eq_sym, buffer_not_block. }
  pose proof (Blocks.read_block_cached_effect (l2_fs (l2 m)) (PathHash.disk_cache_block_path salt p idx) p) as He.
  destruct (read_block_cached _ _ _) as [fs [d|]]; [done|]. injection E3 as <-. cbn.
  destruct He as [->|(g & _ & _ & ->)]; [|done]. apply lookup_delete_ne. apply not_eq_sym, buffer_not_block.
Qed.

(** A file whose cache levels miss and whose handle has no prefetcher is read
    from its buffer file. *)
Lemma read_from_file v fh2 off2 size2 (r : Read.state (C := C)) c x f G q lo ch ex :
  direct_io cfg = false -> off_mode cfg = false ->
  inodes (tab r) !! inof p = Some x -> path x = p -> Inodes.size x = lenZ G ->
  handles r !! fh2 = Some (ReadHandle q lo ch None ex) ->
  read_block salt (r_now v) (cache r) p (inof p) (off2 / CACHE_BLOCK_SIZE) = (c, None) ->
  l2_fs (l2 c) !! buffer_name salt p = Some f -> file_data f = G -> file_readable f = true ->
  PathHash.is_cache_file_expired (r_now v) (Some (file_mtime f)) (cache_max_age cfg) = false ->
  0 <= off2 -> 0 <= size2 ->
  snd (read salt cfg v (inof p) fh2 off2 size2 r) = Ok (pread off2 size2 G).
Proof using.
  clear remote. intros Hd Ho Hx Hp Hs Hh Hm Hf Hg Hr He Ho2 Hs2. unfold read, resolve. rewrite Hx, Hp, Hs.
  destruct (Z.leb_spec (lenZ G) off2); [by rewrite pread_past|].
  unfold from_buffers, fd_buffer. rewrite Hd, Hh. fold (off_mode cfg). rewrite Ho. cbn [negb].
  rewrite Hm. unfold from_prefetcher. cbn [handles set_cache]. rewrite Hh.
  unfold from_file_cache, disk. rewrite Hd. cbn [cache set_cache]. rewrite Hf, He, andb_false_r, Hr, Hg, Z.leb_refl.
  cbn [snd]. do 2 f_equal. unfold within. rewrite Z.sub_0_r.
  assert ((off2 <? lenZ G) = true) as -> by lia. apply slice_pread; lia.
Qed.

End Readers.

(** ** Errors *)
Section Failures.
Context {C : Type} `{MC : !MemCache C}.
Context (salt gen_cap : Z) (cfg : Read.config) (wc : wconfig).

Lemma set_len_self (b : bytes) : FileIO.set_len (lenZ b) b = b.
Proof using. unfold FileIO.set_len. rewrite takeZ_all, Z.sub_diag by lia. apply app_nil_r. Qed.

(** The local copy fails only in the descriptor branch, with a fault. *)
Lemma copy_local_error e h gap ino offset data (r r' : Read.state (C := C)) x :
  copy_local cfg e h gap ino offset data r = (r', Err x) ->
  off_mode cfg = false /\ exists d f after, fd_of h = Some d /\ fd_file d r = Some f /\
    r' = put_file d (mk_file after (e_now e) (file_readable f)) r /\
    (e_gap_fault e = true /\ after = file_data f /\ x = Errors.io_new Errors.OtherKind \/
     exists k kind, e_write_fault e = Some (k, kind) /\ x = Errors.io_new kind).
Proof using.
  unfold copy_local. destruct (off_mode cfg).
  { destruct (buffer_of h) as [i|]; [|done]. by destruct (heap r !! i). }
  destruct (fd_of h) as [d|]; [|done]. destruct (fd_file d r) as [f|] eqn:Ef; [|done].
  intros E. split; [done|]. exists d, f. unfold backfill_failed in E.
  destruct (FileOps.disk_fd_write _ _ _ _ _ _ _) as [after o] eqn:Ew. exists after.
  split; [done|]. split; [done|]. destruct o as [|[]]; [done|]. injection E as <- <-. split; [done|].
  unfold FileOps.disk_fd_write in Ew. destruct gap as [g|]; [destruct (lenZ (file_data f) <? offset)|].
  - destruct (e_gap_fault e); cbn [andb] in *.
    + left. injection Ew as <-. rewrite set_len_self. split_and!; [done..|]. by destruct (e_write_fault e) as [[]|].
    + right. destruct (e_write_fault e) as [[k kind]|]; [|done]. by eauto.
  - right. destruct (e_write_fault e) as [[k kind]|]; [|done]. rewrite andb_false_r. by eauto.
  - right. destruct (e_write_fault e) as [[k kind]|]; [|done]. rewrite andb_false_r. by eauto.
Qed.

End Failures.

(** ** Concrete sessions *)
Section Witness.
#[local] Existing Instance soft_crc32c.
#[local] Existing Instance soft_crc32c_laws.
#[local] Existing Instance stored_lz4.
#[local] Existing Instance stored_lz4_laws.
#[local] Instance L1 : MemCache DashMapCache.DashMapMemCache := DashMapCache.dashmap_MemCache 9.
#[local] Instance L1_laws : MemCacheLaws DashMapCache.DashMapMemCache := DashMapCache.dashmap_MemCacheLaws 9.

Definition mode_cfg (direct : bool) (m : PathHash.CacheMode) : Read.config :=
  Read.mk_config direct m 60 0 4 0 1 true 0 1 0.
Definition no_limits : wconfig := mk_wconfig 0 5 1 0 (Evict.mk_config 0 0 0).
(** The backend has "hello world" and nothing fails. *)
Definition calm : env :=
  mk_env 7 true true (fun a b => Ok (takeZ (b - a) (dropZ a text))) (Some text) false true None None (Some true).
Definition before : io DashMapCache.DashMapMemCache := mk_io cold_state ∅ ∅ [] [] ∅ ∅.

Lemma no_limits_keep cfg : no_eviction cfg no_limits.
Proof. by intros. Qed.
Lemma calm_ends (F : bytes) : 11 <= lenZ F -> forall a b g, lenZ F <= a -> e_read_range calm a b = Ok g -> g = [].
Proof.
  intros HF a b g Ha [= <-]. assert (length text = 11%nat) by done. unfold takeZ, dropZ, lenZ in *.
  rewrite drop_ge by lia. apply take_nil.
Qed.
Lemma before_closed m : closed 0 (mode_cfg false m) ino_a "a" text before.
Proof.
  split; [|done|done]. exists (mk_inode "a" Inodes.RegularFile 11 None). by split; [apply lookup_singleton_eq|].
Qed.

(** In off mode: an overwrite, a write with a hole, and reads of both. *)
Definition some_ops : list op :=
  [OWrite calm 0 (as_bytes "J"); ORead text_env 0 5; OWrite calm 13 (as_bytes "!!"); ORead text_env 9 99].
Lemma session_refines_witness :
  let '(r, fh) := open 0 (mode_cfg false PathHash.Off) text_open ino_a 2 (rs before) in
  snd (run 0 9 (mode_cfg false PathHash.Off) no_limits ino_a fh some_ops (set_rs r before)) =
    [RWritten (Ok 1); RData (Ok (as_bytes "Jello")); RWritten (Ok 2);
     RData (Ok (as_bytes "ld" ++ [Byte.x00; Byte.x00] ++ as_bytes "!!"))].
Proof.
  pose proof (session_refines 0 9 (mode_cfg false PathHash.Off) no_limits ino_a "a" text_open 2 some_ops text before
    eq_refl (before_closed _) eq_refl eq_refl) as H.
  destruct (open _ _ _ _ _ _) as [r fh]. destruct (run _ _ _ _ _ _ _ _) as [s' replies].
  assert (Hf : fair_run (mode_cfg false PathHash.Off) some_ops text).
  { repeat split; try (by vm_compute); try (by intros); try (apply calm_ends; by vm_compute);
      intros b [= <-]; by vm_compute. }
  specialize (H Hf). destruct (spec_run _ _ _) as [F' expected] eqn:E. destruct H as [-> _].
  vm_compute in E. by injection E as _ <-.
Defined.

(** With a buffer file: a handle that appends, and a reader. *)
Definition two_handles : io DashMapCache.DashMapMemCache :=
  mk_io (mk_state (text_table 11)
      (mk_mlc (DashMapCache.new 100) (mk_l2 {[buffer_name 0 "a" := mk_file text 5 true]} ∅ ∅ false 0))
      (<[1 := ReadHandle "a" 0 4 None None]> {[2 := WriteHandle "a" (Some (Linked (buffer_name 0 "a"))) None None]}) ∅ ∅ [] 3 [])
    ∅ ∅ [] [] ∅ ∅.
Lemma two_handles_open : opened 0 (mode_cfg false PathHash.Full) ino_a 2 "a" text two_handles.
Proof.
  split.
  - exists (mk_inode "a" Inodes.RegularFile 11 None). by split; [apply lookup_singleton_eq|].
  - exists (Some (Linked (buffer_name 0 "a"))), None, None. split; [done|]. split; [done|].
    exists (Linked (buffer_name 0 "a")), (mk_file text 5 true). split; [done|]. split; [by intros n [= <-]|].
    split; [apply lookup_singleton_eq|done].
Qed.
Lemma two_handles_coherent : Coherence.coherent 0 Coherence.inode_of text_remote (cache (rs two_handles)).
Proof.
  split; [split; [apply DashMapCache.wf_new|by intros i j e He]|]. intros n f Hn (q & idx & -> & _).
  cbn [two_handles rs cache l2 l2_fs] in Hn. apply lookup_singleton_Some in Hn as [E _]. by apply buffer_not_block in E.
Qed.
Lemma calm_append : fair (mode_cfg false PathHash.Full) (OWrite calm 11 (as_bytes "!")) text.
Proof.
  repeat split; try (by vm_compute); try (by intros); try (apply calm_ends; by vm_compute); intros b [= <-]; by vm_compute.
Qed.
Lemma calm_accepted :
  snd (write 0 9 (mode_cfg false PathHash.Full) no_limits calm (Coherence.inode_of "a") 2 11 (as_bytes "!") two_handles) = Ok 1.
Proof. by vm_compute. Qed.
Lemma two_handles_fresh : off_mode (mode_cfg false PathHash.Full) = false ->
  no_eviction (mode_cfg false PathHash.Full) no_limits /\ Coherence.coherent 0 Coherence.inode_of text_remote (cache (rs two_handles)) /\
  (exists buf ex, handles (rs two_handles) !! 2 = Some (WriteHandle "a" (Some (Linked (buffer_name 0 "a"))) buf ex)) /\
  (forall f, l2_fs (disk (rs two_handles)) !! buffer_name 0 "a" = Some f -> file_readable f = true) /\
  r_now text_env <= e_now calm + cache_max_age (mode_cfg false PathHash.Full).
Proof.
  intros _. split; [apply no_limits_keep|]. split; [apply two_handles_coherent|]. split; [by eexists _, _|].
  split; [|by vm_compute]. intros f Hf.
  cbn [two_handles rs disk cache l2 l2_fs] in Hf. by apply lookup_singleton_Some in Hf as [_ <-].
Qed.

(** A write beyond the end while the backend cannot be read. *)
Definition cut_off : env :=
  mk_env 7 true true (fun _ _ => Err FileOps.ReadFailed) None false true None None (Some true).
Lemma cut_off_refused :
  write 0 9 (mode_cfg false PathHash.Full) no_limits cut_off ino_a 2 20 (as_bytes "!") two_handles
  = (two_handles, Err (Errors.io_new Errors.OtherKind)).
Proof. by vm_compute. Qed.

(** *** Runs that lose or hide bytes *)

(** Direct writes: the object holds the last chunk only, also on a backend
    that passes the check. *)
Example direct_writes_keep_last_chunk :
  let w1 := write 0 9 (mode_cfg true PathHash.Full) no_limits calm ino_a 2 0 (as_bytes "abc") two_handles in
  let w2 := write 0 9 (mode_cfg true PathHash.Full) no_limits calm ino_a 2 3 (as_bytes "def") (fst w1) in
  snd w1 = Ok 3 /\ snd w2 = Ok 3 /\ objects (fst w2) !! "a"%string = Some (as_bytes "def").
Proof. by vm_compute. Qed.

(** A part that was prefetched before a write is still served after it. *)
Example prefetched_part_is_stale :
  let q := fst (Queue.push (Queue.new 100) (Queue.mk_part 0 text)) in
  let s := set_rs (set_handles (<[1 := ReadHandle "a" 0 4 (Some q) None]> (handles (rs two_handles))) (rs two_handles)) two_handles in
  let w := write 0 9 (mode_cfg false PathHash.Full) no_limits calm ino_a 2 0 (as_bytes "HELLO WORLD") s in
  snd w = Ok 11 /\ snd (read 0 (mode_cfg false PathHash.Full) text_env ino_a 1 0 5 (rs (fst w))) = Ok (as_bytes "hello") /\
  snd (read 0 (mode_cfg false PathHash.Full) text_env ino_a 2 0 5 (rs (fst w))) = Ok (as_bytes "HELLO").
Proof. by vm_compute. Qed.

(** In off mode opening for writing leaves the object in a file of the cache
    directory, and every write is also a job for the pool, on that file. *)
Example off_mode_keeps_a_copy :
  let cfg := mode_cfg false PathHash.Off in
  let '(r, fh) := open 0 cfg text_open ino_a 2 (rs before) in
  let w := write 0 9 cfg no_limits calm ino_a fh 0 (as_bytes "J") (set_rs r before) in
  l2_fs (disk r) !! buffer_name 0 "a" = Some (mk_file text 5 true) /\
  pool (fst w) = [mk_pool_job "a" 0 (as_bytes "J")] /\
  sent (fst w) = [mk_task ino_a "a" (buffer_name 0 "a") None false 0 5 0].
Proof. by vm_compute. Qed.
End Witness.

End Session.
