(* ===== verification/Cli.v ===== *)
(** * Cli: from the command line to the file system

    The flags of [mntrs mount] with their defaults (src/src/main.rs), the call of
    [mount] with its ninety-five positional arguments and the call the CSI driver
    makes, and the settings [mount] puts into the file system
    (src/src/cmd/mount.rs).  [clap] is outside: a parsed command line is a value
    of [flags].  The theorems say that each flag reaches the argument of its
    name, which flags do nothing, and that a mount with default flags is one of
    those the session theorems are about. *)

From Stdlib Require Import ZArith Lia Strings.Byte Strings.String.
From S2P Require Import Prelude Util BlockFormat MemCache ExtCaches CacheLayers Inodes Evict FileOps Writeback DirCache Lookup Read Session Mounts Host Config.

Module Cli.
Local Open Scope string_scope.
Local Open Scope Z_scope.

(** ** The flags, in the order of their declaration *)
(** Access, caches of the kernel, daemon. *)
Record mount_flags := mk_mount_flags {
  storage : string; mountpoint : string; opt : list string; read_only : bool; network_mode : bool;
  dir_cache_time : Z; attr_timeout : Z; type_cache_ttl : Z; stat_cache_ttl : Z; allow_other : bool;
  debug_fuse : bool; volname : string; devname : option string; write_back_cache : bool; option_ : list string;
  fuse_flag : list string; daemon : bool; daemon_wait : bool; daemon_timeout : Z; internal_daemon : bool;
  allow_root : bool; allow_idmap : bool; link_perms : Z
}.
(** Memory and disk caches, write-back. *)
Record cache_flags := mk_cache_flags {
  vfs_cache_max_size : Z; mem_limit : Z; mem_cache_impl : string; unlink_batch : string;
  mem_cache_metrics_interval : Z; vfs_write_back : Z; writeback_immediate_threshold : Z; vfs_cache_mode : string;
  vfs_read_ahead : Z; vfs_buffer_size : Z; vfs_read_chunk_size : Z
}.
(** Permissions, cache directory, filters. *)
Record file_flags := mk_file_flags {
  default_permissions : bool; uid : option Z; gid : option Z; umask : option Z; dir_perms : option Z;
  file_perms : option Z; allow_non_empty : bool; cache_dir : option string; direct_io : bool;
  poll_interval : option Z; vfs_cache_max_age : Z; vfs_cache_min_free_space : Z; exclude : list string;
  include : list string; max_size : option Z; min_size : option Z; max_depth : option Z; ignore_case : bool;
  no_modtime : bool; use_server_modtime : bool; no_checksum : bool; no_seek : bool; links : bool
}.
(** Names and options of macOS, attributes. *)
Record macos_flags := mk_macos_flags {
  noapple_double : bool; noapple_xattr : bool; no_macos_metadata : bool; metadata : bool; _no_metadata : bool;
  hash_filter : option string; mount_case_insensitive : bool; negative_vncache : bool; auto_cache : bool;
  daemon_timeout_macos : Z; slow_statfs : bool; _no_slow_statfs : bool; max_xattr_size : Z;
  volume_name : option string; finder_local : bool; _no_finder_local : bool
}.
(** Reading, refreshing, waiting. *)
Record vfs_flags := mk_vfs_flags {
  max_read_ahead : Z; vfs_read_chunk_size_limit : Z; vfs_read_chunk_streams : Z; vfs_prefetch_threshold : Z;
  vfs_prefetch_queue_mb : Z; vfs_fast_fingerprint : bool; async_read : bool; vfs_refresh : bool;
  vfs_refresh_secs : Z; vfs_case_insensitive : bool; no_implicit_dir : bool; vfs_block_norm_dupes : bool;
  vfs_links : bool; vfs_used_is_size : bool; vfs_metadata_extension : option string; storage_class : option string;
  vfs_write_wait : Z; vfs_read_wait : Z; vfs_cache_poll_interval : Z; vfs_handle_caching : Z;
  vfs_disk_space_total_size : Z; vfs_read_stale_on_backend_error : bool; winfsp_dispatcher_threads : Z
}.
Record flags := mk_flags {
  the_mount :> mount_flags; the_cache :> cache_flags; the_file :> file_flags; the_macos :> macos_flags; the_vfs :> vfs_flags
}.
Definition default_mount_flags (storage mountpoint : string) : mount_flags := mk_mount_flags
  storage mountpoint [] false false 300 5 10 1 false false "mntrs" None false [] [] false false 10 false false false
  777.
Definition default_cache_flags : cache_flags := mk_cache_flags
  0 256 "dashmap" "auto" 0 5 1048576 "off" 0 16777216 134217728.
Definition default_file_flags : file_flags := mk_file_flags
  false None None None None None false None false None 3600 0 [] [] None None None false false false false false
  false.
Definition default_macos_flags : macos_flags := mk_macos_flags
  true true true false true None false false false 60 false true (64 * 1024) None false true.
Definition default_vfs_flags : vfs_flags := mk_vfs_flags
  131072 0 0 16777216 64 false false false 0 false false false false false None None 1 1 60 0 0 false 0.
Definition default_flags (storage mountpoint : string) : flags :=
  mk_flags (default_mount_flags storage mountpoint) default_cache_flags default_file_flags default_macos_flags default_vfs_flags.

(** ** The arguments of [mount], in their order *)
Record mount_args := mk_mount_args {
  p_storage_url : string; p_mountpoint : string; p_opts : gmap string string; p_read_only : bool;
  p_network_mode : bool; p_dir_cache_time : Z; p_attr_timeout : Z; p_type_cache_ttl : Z; p_stat_cache_ttl : Z;
  p_allow_other : bool; p_debug_fuse : bool; p_volname : string; p_devname : option string;
  p_write_back_cache : bool; p_fuse_options : list string; p_fuse_flags : list string; p_daemon : bool;
  p_daemon_wait : bool; p_daemon_timeout : Z; p_allow_root : bool; p_allow_idmap : bool; p_vfs_cache_max_size : Z;
  p_mem_limit : Z; p_mem_cache_impl : string; p_mem_cache_metrics_interval_secs : Z; p_unlink_batch : string;
  p_vfs_write_back : Z; p_writeback_immediate_threshold : Z; p_vfs_cache_mode : string; p_vfs_read_ahead : Z;
  p_vfs_buffer_size : Z; p_vfs_read_chunk_size : Z; p_default_permissions : bool; p_uid : option Z; p_gid : option Z;
  p_umask : option Z; p_dir_perms : option Z; p_file_perms : option Z; p_link_perms : option Z;
  p_allow_non_empty : bool; p_cache_dir : option string; p_direct_io : bool; p_poll_interval : option Z;
  p_vfs_cache_max_age : Z; p_vfs_cache_min_free_space : Z; p_exclude : list string; p_include : list string;
  p_max_size : option Z; p_min_size : option Z; p_max_depth : option Z; p_ignore_case : bool; p_no_modtime : bool;
  p_use_server_modtime : bool; p_no_checksum : bool; p_no_seek : bool; p_links : bool; p_no_apple_double : bool;
  p_no_apple_xattr : bool; p_no_macos_metadata : bool; p_metadata : bool; p_no_metadata : bool;
  p_hash_filter : option string; p_mount_case_insensitive : bool; p_negative_vncache : bool; p_auto_cache : bool;
  p_daemon_timeout_macos : Z; p_slow_statfs : bool; p_no_slow_statfs : bool; p_volume_name : option string;
  p_finder_local : bool; p_no_finder_local : bool; p_max_read_ahead : Z; p_vfs_read_chunk_size_limit : Z;
  p_vfs_read_chunk_streams : Z; p_vfs_prefetch_threshold : Z; p_vfs_prefetch_queue_mb : Z;
  p_vfs_fast_fingerprint : bool; p_async_read : bool; p_vfs_refresh : bool; p_vfs_refresh_secs : Z;
  p_vfs_case_insensitive : bool; p_no_implicit_dir : bool; p_vfs_block_norm_dupes : bool; p_vfs_links : bool;
  p_vfs_used_is_size : bool; p_vfs_metadata_extension : option string; p_storage_class : option string;
  p_vfs_write_wait : Z; p_vfs_read_wait : Z; p_vfs_cache_poll_interval : Z; p_vfs_handle_caching : Z;
  p_vfs_disk_space_total_size : Z; p_vfs_read_stale_on_backend_error : bool; p_winfsp_dispatcher_threads : Z;
  p_max_xattr_size : Z
}.
(** The call in [main]. *)
Definition call_mount (f : flags) (opts : gmap string string) : mount_args := mk_mount_args
  (storage f) (mountpoint f) opts (read_only f) (network_mode f) (dir_cache_time f) (attr_timeout f)
  (type_cache_ttl f) (stat_cache_ttl f) (allow_other f) (debug_fuse f) (volname f) (devname f) (write_back_cache f)
  (option_ f) (fuse_flag f) (daemon f) (daemon_wait f) (daemon_timeout f) (allow_root f) (allow_idmap f)
  (vfs_cache_max_size f) (mem_limit f) (mem_cache_impl f) (mem_cache_metrics_interval f) (unlink_batch f)
  (vfs_write_back f) (writeback_immediate_threshold f) (vfs_cache_mode f) (vfs_read_ahead f) (vfs_buffer_size f)
  (vfs_read_chunk_size f) (default_permissions f) (uid f) (gid f) (umask f) (dir_perms f) (file_perms f)
  (Some (link_perms f)) (allow_non_empty f) (cache_dir f) (direct_io f) (poll_interval f) (vfs_cache_max_age f)
  (vfs_cache_min_free_space f) (exclude f) (include f) (max_size f) (min_size f) (max_depth f) (ignore_case f)
  (no_modtime f) (use_server_modtime f) (no_checksum f) (no_seek f) (links f) (noapple_double f) (noapple_xattr f)
  (no_macos_metadata f) (metadata f) (_no_metadata f) (hash_filter f) (mount_case_insensitive f) (negative_vncache f)
  (auto_cache f) (daemon_timeout_macos f) (slow_statfs f) (_no_slow_statfs f) (volume_name f) (finder_local f)
  (_no_finder_local f) (max_read_ahead f) (vfs_read_chunk_size_limit f) (vfs_read_chunk_streams f)
  (vfs_prefetch_threshold f) (vfs_prefetch_queue_mb f) (vfs_fast_fingerprint f) (async_read f) (vfs_refresh f)
  (vfs_refresh_secs f) (vfs_case_insensitive f) (no_implicit_dir f) (vfs_block_norm_dupes f) (vfs_links f)
  (vfs_used_is_size f) (vfs_metadata_extension f) (storage_class f) (vfs_write_wait f) (vfs_read_wait f)
  (vfs_cache_poll_interval f) (vfs_handle_caching f) (vfs_disk_space_total_size f)
  (vfs_read_stale_on_backend_error f) (winfsp_dispatcher_threads f) (max_xattr_size f).

(** The call in [mount_internal], for the CSI driver. *)
Definition csi_args (storage_url mountpoint cache_dir : string) (opts : gmap string string) (read_only : bool) : mount_args :=
  mk_mount_args
  storage_url mountpoint opts read_only false 300 5 10 1 true false "mntrs-csi" None false [] [] false false 10 false
  false 0 256 "dashmap" 0 "auto" 5 (1024 * 1024) "off" 0 (16 * 1024 * 1024) (128 * 1024 * 1024) false None None None
  None None None false (Some cache_dir) false (Some 60) 3600 0 [] [] None None None false false false false false
  false false false false false false None false false false 60 false true None false true 131072 0 4 16777216 64
  false false false 0 false false false false false None None 1 1 60 0 0 false 0 (64 * 1024).

(** Flags of rclone without effect that [main] warns about. *)
Definition shadow (f : flags) : list string :=
  (if vfs_fast_fingerprint f then ["--vfs-fast-fingerprint"] else []) ++
  (if vfs_case_insensitive f then ["--vfs-case-insensitive"] else []) ++
  (if vfs_links f then ["--vfs-links"] else []) ++
  (if vfs_used_is_size f then ["--vfs-used-is-size"] else []) ++
  (match vfs_metadata_extension f with Some _ => ["--vfs-metadata-extension"] | None => [] end) ++
  (if negb (link_perms f =? 777) then ["--link-perms"] else []) ++
  (match hash_filter f with Some _ => ["--hash-filter"] | None => [] end) ++
  (if negb (vfs_read_wait f =? 1) then ["--vfs-read-wait"] else []).

(** ** The file system [mount] builds *)
Inductive mem_cache_kind := DashMapMemCache | MokaMemCache | FoyerMemCache.
Definition choose_mem_cache (name : string) : option mem_cache_kind :=
  if String.eqb name "dashmap" then Some DashMapMemCache
  else if String.eqb name "moka" then Some MokaMemCache
  else if String.eqb name "foyer" then Some FoyerMemCache
  else None.
(** [Duration::from_secs], in nanoseconds. *)
Definition from_secs (n : Z) : Z := n * Writeback.NANOS.
Definition cache_dir_path (home : option string) (cache_dir : option string) : string :=
  match cache_dir with Some d => d | None => default "/tmp" home ++ "/.cache/mntrs" end.
Definition settings_args (a : mount_args) : Settings.args :=
  Settings.mk_args (p_mem_limit a) (p_vfs_cache_max_size a) (p_vfs_write_back a) (p_poll_interval a)
    (p_vfs_cache_poll_interval a) (p_vfs_cache_min_free_space a) (p_vfs_disk_space_total_size a) (p_dir_perms a)
    (p_file_perms a) (p_max_read_ahead a).

(** The fields of [MntrsFs] that [mount] fills from its arguments. *)
Record MntrsFs := mk_MntrsFs {
  fs_cache_dir : string; fs_mem_limit : Z; fs_dir_cache_ttl : Z; fs_attr_ttl : Z; fs_stat_cache_ttl : Z; fs_volname : string;
  fs_cache_max_size : Z; fs_write_back_delay : Z; fs_writeback_immediate_threshold : Z; fs_cache_mode : PathHash.CacheMode;
  fs_read_ahead : Z; fs_buffer_size : Z; fs_write_wait : Z; fs_read_chunk_size : Z; fs_read_chunk_size_limit : Z;
  fs_read_chunk_streams : Z; fs_prefetch_threshold : Z; fs_prefetch_queue_mb : Z; fs_uid : option Z; fs_gid : option Z;
  fs_umask : option Z; fs_dir_perms : Z; fs_file_perms : Z; fs_direct_io : bool; fs_read_stale_on_backend_error : bool;
  fs_cache_poll_interval : Z; fs_cache_max_age : Z; fs_refresh_interval : Z; fs_max_xattr_size : Z;
  fs_cache_min_free_space : Z; fs_exclude_patterns : list string; fs_include_patterns : list string;
  fs_max_size : option Z; fs_min_size : option Z; fs_max_depth : option Z; fs_ignore_case : bool; fs_fast_fingerprint : bool;
  fs_async_read : bool; fs_vfs_refresh : bool; fs_case_insensitive : bool; fs_no_implicit_dir : bool; fs_no_modtime : bool;
  fs_use_server_modtime : bool; fs_no_apple_double : bool; fs_no_apple_xattr : bool; fs_no_macos_metadata : bool;
  fs_metadata : bool; fs_block_norm_dupes : bool; fs_handle_caching : Z; fs_disk_total_size : Z;
  fs_mem_cache : mem_cache_kind
}.
Inductive mount_error :=
| AlreadyMounted | OperatorFailed (e : Operator.error) | UnknownMemCache (name : string) | PipeFailed | SpawnFailed
| AllowOtherRefused | MetricsThreadFailed | SessionFailed.
Definition new_fs (home : option string) (a : mount_args) : result MntrsFs mount_error :=
  let d := Settings.settings_of (settings_args a) in
  match choose_mem_cache (p_mem_cache_impl a) with
  | None => Err (UnknownMemCache (p_mem_cache_impl a))
  | Some mem_cache =>
      Ok (mk_MntrsFs (cache_dir_path home (p_cache_dir a)) (Settings.mem_cache_bytes d) (from_secs (p_dir_cache_time a))
        (from_secs (p_attr_timeout a)) (from_secs (p_stat_cache_ttl a)) (p_volname a)
        (Settings.cache_max_size d) (from_secs (Settings.write_back_delay d)) (p_writeback_immediate_threshold a)
        (PathHash.CacheMode_parse (p_vfs_cache_mode a)) (p_vfs_read_ahead a) (p_vfs_buffer_size a)
        (from_secs (p_vfs_write_wait a)) (p_vfs_read_chunk_size a) (p_vfs_read_chunk_size_limit a)
        (p_vfs_read_chunk_streams a) (p_vfs_prefetch_threshold a) (p_vfs_prefetch_queue_mb a) (p_uid a) (p_gid a)
        (p_umask a) (Settings.dir_perms d) (Settings.file_perms d) (p_direct_io a) (p_vfs_read_stale_on_backend_error a)
        (from_secs (Settings.cache_poll_interval d)) (from_secs (p_vfs_cache_max_age a)) (from_secs (p_vfs_refresh_secs a))
        (p_max_xattr_size a) (Settings.cache_min_free_space d) (p_exclude a) (p_include a) (p_max_size a) (p_min_size a)
        (p_max_depth a) (p_ignore_case a) (p_vfs_fast_fingerprint a) (p_async_read a) (p_vfs_refresh a)
        (p_vfs_case_insensitive a) (p_no_implicit_dir a) (p_no_modtime a) (p_use_server_modtime a) (p_no_apple_double a)
        (p_no_apple_xattr a) (p_no_macos_metadata a) (p_metadata a) (p_vfs_block_norm_dupes a)
        (from_secs (p_vfs_handle_caching a)) (Settings.disk_total_size d) mem_cache)
  end.
(** What [mount] meets until the session runs, on Linux: whether something is
    mounted there, the variables [HOME] and [MNTRS_INTERNAL_DAEMON], the pipe and
    the child of a daemon, the user and /etc/fuse.conf (with its content, where
    it can be read), the thread of the statistics and the session itself. *)
Record mount_env := mk_mount_env {
  m_mounted : bool; m_home : option string; m_internal : bool; m_pipe_ok : bool; m_spawn_ok : bool; m_root : bool;
  m_fuse_conf : option (option string); m_thread_ok : bool; m_session_ok : bool
}.
Definition allow_other_refused (e : mount_env) (a : mount_args) : bool :=
  p_allow_other a && negb (m_root e) &&
  match m_fuse_conf e with
  | None => true
  | Some None => false
  | Some (Some c) => negb (existsb (fun l => String.eqb (Env.trim l) "user_allow_other") (Db.lines c))
  end.
(** How the call ends: a file system is served, an error is returned, or, for
    the parent of a daemon, the process exits. *)
Inductive mount_end := Serves (fs : MntrsFs) | Refused (e : mount_error) | ParentExits.
Section Mounting.
Context (parse : string -> option Operator.Url) (read_pem : string -> option bytes).
Context (accept : Operator.service -> Operator.builder -> bool) (hdfs_jni sftp : bool) (order : list (string * string)).
Definition mount_fs (e : mount_env) (a : mount_args) : mount_end :=
  if m_mounted e then Refused AlreadyMounted
  else
    match Operator.build_operator parse read_pem accept hdfs_jni sftp order (p_storage_url a) (p_opts a) with
    | Err x => Refused (OperatorFailed x)
    | Ok _ =>
        match new_fs (m_home e) a with
        | Err x => Refused x
        | Ok fs =>
            if p_daemon_wait a && negb (m_pipe_ok e) then Refused PipeFailed
            else if p_daemon a && negb (m_internal e) then if m_spawn_ok e then ParentExits else Refused SpawnFailed
            else if allow_other_refused e a then Refused AllowOtherRefused
            else if (0 <? p_mem_cache_metrics_interval_secs a) && negb (m_thread_ok e) then Refused MetricsThreadFailed
            else if m_session_ok e then Serves fs else Refused SessionFailed
        end
    end.
End Mounting.
Definition warns_deprecated (a : mount_args) : bool := match p_poll_interval a with Some _ => true | None => false end.

(** The parameters of the handlers. *)
Definition read_config (fs : MntrsFs) : Read.config :=
  Read.mk_config (fs_direct_io fs) (fs_cache_mode fs) (fs_cache_max_age fs) (fs_handle_caching fs) (fs_read_chunk_size fs)
    (fs_read_chunk_size_limit fs) (fs_read_chunk_streams fs) (fs_read_stale_on_backend_error fs) (fs_prefetch_threshold fs)
    (fs_prefetch_queue_mb fs) (fs_read_ahead fs).
Definition write_config (fs : MntrsFs) : Session.wconfig :=
  Session.mk_wconfig (fs_writeback_immediate_threshold fs) (fs_write_back_delay fs) (fs_write_wait fs) (fs_buffer_size fs)
    (Evict.mk_config (fs_cache_max_size fs) (fs_cache_min_free_space fs) (fs_cache_max_age fs)).
Definition dir_config (fs : MntrsFs) : DirCache.config :=
  DirCache.mk_config (fs_dir_cache_ttl fs) (fs_stat_cache_ttl fs) (fs_vfs_refresh fs) (fs_no_modtime fs)
    (fs_use_server_modtime fs) (fs_no_implicit_dir fs) (fs_max_depth fs) (fs_max_size fs) (fs_min_size fs)
    (fs_exclude_patterns fs) (fs_include_patterns fs) (fs_ignore_case fs) (fs_no_apple_double fs) (fs_no_macos_metadata fs)
    (fs_block_norm_dupes fs).
Definition attr_config (fs : MntrsFs) : Lookup.attr_config :=
  Lookup.mk_attr_config (fs_dir_perms fs) (fs_file_perms fs) (fs_umask fs) (fs_uid fs) (fs_gid fs).
Definition fuse_args (a : mount_args) : Settings.fuse_args :=
  Settings.mk_fuse_args (p_read_only a) (p_allow_root a) (p_devname a) (p_volname a) (p_default_permissions a)
    (p_allow_non_empty a) (p_fuse_options a) (p_fuse_flags a) (p_no_apple_double a) (p_no_apple_xattr a)
    (p_mount_case_insensitive a) (p_volume_name a) (p_no_finder_local a) (p_negative_vncache a) (p_auto_cache a)
    (p_daemon_timeout_macos a) (p_no_slow_statfs a).

(** *** Each flag reaches the argument of its name *)
Theorem flags_reach_mount f opts : let a := call_mount f opts in
  p_storage_url a = storage f /\ p_mountpoint a = mountpoint f /\ p_opts a = opts /\ p_read_only a = read_only f /\
  p_network_mode a = network_mode f /\ p_dir_cache_time a = dir_cache_time f /\ p_attr_timeout a = attr_timeout f /\
  p_type_cache_ttl a = type_cache_ttl f /\ p_stat_cache_ttl a = stat_cache_ttl f /\
  p_allow_other a = allow_other f /\ p_debug_fuse a = debug_fuse f /\ p_volname a = volname f /\
  p_devname a = devname f /\ p_write_back_cache a = write_back_cache f /\ p_fuse_options a = option_ f /\
  p_fuse_flags a = fuse_flag f /\ p_daemon a = daemon f /\ p_daemon_wait a = daemon_wait f /\
  p_daemon_timeout a = daemon_timeout f /\ p_allow_root a = allow_root f /\ p_allow_idmap a = allow_idmap f /\
  p_vfs_cache_max_size a = vfs_cache_max_size f /\ p_mem_limit a = mem_limit f /\
  p_mem_cache_impl a = mem_cache_impl f /\ p_mem_cache_metrics_interval_secs a = mem_cache_metrics_interval f /\
  p_unlink_batch a = unlink_batch f /\ p_vfs_write_back a = vfs_write_back f /\
  p_writeback_immediate_threshold a = writeback_immediate_threshold f /\ p_vfs_cache_mode a = vfs_cache_mode f /\
  p_vfs_read_ahead a = vfs_read_ahead f /\ p_vfs_buffer_size a = vfs_buffer_size f /\
  p_vfs_read_chunk_size a = vfs_read_chunk_size f /\ p_default_permissions a = default_permissions f /\
  p_uid a = uid f /\ p_gid a = gid f /\ p_umask a = umask f /\ p_dir_perms a = dir_perms f /\
  p_file_perms a = file_perms f /\ p_link_perms a = Some (link_perms f) /\ p_allow_non_empty a = allow_non_empty f /\
  p_cache_dir a = cache_dir f /\ p_direct_io a = direct_io f /\ p_poll_interval a = poll_interval f /\
  p_vfs_cache_max_age a = vfs_cache_max_age f /\ p_vfs_cache_min_free_space a = vfs_cache_min_free_space f /\
  p_exclude a = exclude f /\ p_include a = include f /\ p_max_size a = max_size f /\ p_min_size a = min_size f /\
  p_max_depth a = max_depth f /\ p_ignore_case a = ignore_case f /\ p_no_modtime a = no_modtime f /\
  p_use_server_modtime a = use_server_modtime f /\ p_no_checksum a = no_checksum f /\ p_no_seek a = no_seek f /\
  p_links a = links f /\ p_no_apple_double a = noapple_double f /\ p_no_apple_xattr a = noapple_xattr f /\
  p_no_macos_metadata a = no_macos_metadata f /\ p_metadata a = metadata f /\ p_no_metadata a = _no_metadata f /\
  p_hash_filter a = hash_filter f /\ p_mount_case_insensitive a = mount_case_insensitive f /\
  p_negative_vncache a = negative_vncache f /\ p_auto_cache a = auto_cache f /\
  p_daemon_timeout_macos a = daemon_timeout_macos f /\ p_slow_statfs a = slow_statfs f /\
  p_no_slow_statfs a = _no_slow_statfs f /\ p_volume_name a = volume_name f /\ p_finder_local a = finder_local f /\
  p_no_finder_local a = _no_finder_local f /\ p_max_read_ahead a = max_read_ahead f /\
  p_vfs_read_chunk_size_limit a = vfs_read_chunk_size_limit f /\
  p_vfs_read_chunk_streams a = vfs_read_chunk_streams f /\ p_vfs_prefetch_threshold a = vfs_prefetch_threshold f /\
  p_vfs_prefetch_queue_mb a = vfs_prefetch_queue_mb f /\ p_vfs_fast_fingerprint a = vfs_fast_fingerprint f /\
  p_async_read a = async_read f /\ p_vfs_refresh a = vfs_refresh f /\ p_vfs_refresh_secs a = vfs_refresh_secs f /\
  p_vfs_case_insensitive a = vfs_case_insensitive f /\ p_no_implicit_dir a = no_implicit_dir f /\
  p_vfs_block_norm_dupes a = vfs_block_norm_dupes f /\ p_vfs_links a = vfs_links f /\
  p_vfs_used_is_size a = vfs_used_is_size f /\ p_vfs_metadata_extension a = vfs_metadata_extension f /\
  p_storage_class a = storage_class f /\ p_vfs_write_wait a = vfs_write_wait f /\
  p_vfs_read_wait a = vfs_read_wait f /\ p_vfs_cache_poll_interval a = vfs_cache_poll_interval f /\
  p_vfs_handle_caching a = vfs_handle_caching f /\ p_vfs_disk_space_total_size a = vfs_disk_space_total_size f /\
  p_vfs_read_stale_on_backend_error a = vfs_read_stale_on_backend_error f /\
  p_winfsp_dispatcher_threads a = winfsp_dispatcher_threads f /\ p_max_xattr_size a = max_xattr_size f.
Proof. by destruct f as [[] [] [] [] []]. Qed.

(** *** Flags without effect *)

(** Every flag [mount] takes and does not use, at its default. *)
Definition drop_unused (f : flags) : flags := mk_flags
  (mk_mount_flags (storage f) (mountpoint f) (opt f) (read_only f) (network_mode f) (dir_cache_time f) (attr_timeout f)
    10 (stat_cache_ttl f) (allow_other f) (debug_fuse f) (volname f) (devname f) (write_back_cache f)
    (option_ f) (fuse_flag f) (daemon f) (daemon_wait f) (daemon_timeout f) false (allow_root f) false 777)
  f
  (mk_file_flags (default_permissions f) (uid f) (gid f) (umask f) (dir_perms f) (file_perms f) (allow_non_empty f)
    (cache_dir f) (direct_io f) (poll_interval f) (vfs_cache_max_age f) (vfs_cache_min_free_space f) (exclude f) (include f)
    (max_size f) (min_size f) (max_depth f) (ignore_case f) (no_modtime f) (use_server_modtime f) false false false)
  (mk_macos_flags (noapple_double f) (noapple_xattr f) (no_macos_metadata f) (metadata f) true None (mount_case_insensitive f)
    (negative_vncache f) (auto_cache f) (daemon_timeout_macos f) false (_no_slow_statfs f) (max_xattr_size f) (volume_name f)
    false (_no_finder_local f))
  (mk_vfs_flags (max_read_ahead f) (vfs_read_chunk_size_limit f) (vfs_read_chunk_streams f) (vfs_prefetch_threshold f)
    (vfs_prefetch_queue_mb f) (vfs_fast_fingerprint f) (async_read f) (vfs_refresh f) (vfs_refresh_secs f)
    (vfs_case_insensitive f) (no_implicit_dir f) (vfs_block_norm_dupes f) false false None (storage_class f)
    (vfs_write_wait f) 1 (vfs_cache_poll_interval f) (vfs_handle_caching f) (vfs_disk_space_total_size f)
    (vfs_read_stale_on_backend_error f) (winfsp_dispatcher_threads f)).

(** The file system and the options of the mount do not depend on them.  Of
    these [main] warns about those of [shadow]; of [--type-cache-ttl],
    [--allow-idmap], [--no-checksum], [--no-seek] and [--links] it says
    nothing. *)
Theorem unused_flags parse read_pem accept hdfs_jni sftp order f opts e :
  let a := call_mount f opts in let b := call_mount (drop_unused f) opts in
  mount_fs parse read_pem accept hdfs_jni sftp order e a = mount_fs parse read_pem accept hdfs_jni sftp order e b /\ fuse_args a = fuse_args b.
Proof. by destruct f as [[] [] [] [] []]. Qed.

(** There is no warning exactly when each of its flags has its default. *)
Theorem shadow_spec f : shadow f = [] <->
  vfs_fast_fingerprint f = false /\ vfs_case_insensitive f = false /\ vfs_links f = false /\ vfs_used_is_size f = false /\
  vfs_metadata_extension f = None /\ link_perms f = 777 /\ hash_filter f = None /\ vfs_read_wait f = 1.
Proof.
  unfold shadow. destruct (vfs_fast_fingerprint f), (vfs_case_insensitive f), (vfs_links f), (vfs_used_is_size f),
    (vfs_metadata_extension f), (Z.eqb_spec (link_perms f) 777), (hash_filter f), (Z.eqb_spec (vfs_read_wait f) 1); cbn; naive_solver.
Qed.

(** *** The mount of the CSI driver *)

(** As a command line: the defaults but for these flags. *)
Definition csi_flags (storage mountpoint dir : string) (ro : bool) : flags := mk_flags
  (mk_mount_flags storage mountpoint [] ro false 300 5 10 1 true false "mntrs-csi" None false [] [] false false 10 false false false 777)
  default_cache_flags
  (mk_file_flags false None None None None None false (Some dir) false (Some 60) 3600 0 [] [] None None None false false false
    false false false)
  (mk_macos_flags false false false false false None false false false 60 false true (64 * 1024) None false true)
  (mk_vfs_flags 131072 0 4 16777216 64 false false false 0 false false false false false None None 1 1 60 0 0 false 0).

Theorem csi_as_flags parse read_pem accept hdfs_jni sftp order st mp dir opts ro e :
  let a := csi_args st mp dir opts ro in let b := call_mount (csi_flags st mp dir ro) opts in
  mount_fs parse read_pem accept hdfs_jni sftp order e a = mount_fs parse read_pem accept hdfs_jni sftp order e b /\ fuse_args a = fuse_args b.
Proof. done. Qed.

(** The driver sets the poll interval by the deprecated argument, and so every
    volume is mounted with the warning its comment says there is none of. *)
Theorem csi_warns st mp dir opts ro : warns_deprecated (csi_args st mp dir opts ro) = true.
Proof. done. Qed.

(** *** Sessions on a mount with the default flags *)
Section Sessions.
Import Session.
Context `{CRC : !Crc32c, LZ : !Lz4}.
Context {C : Type} `{MC : !MemCache C}.

(** What a session on a file is promised, of a file system with these settings:
    through a handle open for writing that got the content of the object, every
    reply of operations without disk faults is that of a POSIX file. *)
Definition posix_sessions (fs : MntrsFs) : Prop :=
  forall salt gen_cap ino p o flags ops F (s : io C),
  closed salt (read_config fs) ino p F s -> opens (read_config fs) F o -> (Z.land flags 3 =? 0) = false ->
  fair_run (read_config fs) ops F ->
  let '(r, fh) := Read.open salt (read_config fs) o ino flags (rs s) in
  let '(s', replies) := run salt gen_cap (read_config fs) (write_config fs) ino fh ops (set_rs r s) in
  let '(F', expected) := spec_run (read_config fs) ops F in
  replies = expected /\ opened salt (read_config fs) ino fh p F' s'.

Lemma cached_sessions fs : fs_direct_io fs = false -> posix_sessions fs.
Proof using.
  intros Hd salt gen_cap ino p o oflags ops F s Hc HF Hfl Hfair.
  pose proof (open_opened salt (read_config fs) ino p o oflags F s Hc HF Hfl) as Ho.
  destruct (Read.open _ _ _ _ _ _) as [r fh].
  destruct (run_refines salt gen_cap (read_config fs) (write_config fs) ino fh p ops F (set_rs r s)) as [H1 H2]; try done.
  destruct (run _ _ _ _ _ _ _ _) as [s' replies], (spec_run _ _ _) as [F' expected]. by split.
Qed.

Context (parse : string -> option Operator.Url) (read_pem : string -> option bytes).
Context (accept : Operator.service -> Operator.builder -> bool) (hdfs_jni sftp : bool) (order : list (string * string)).
Abbreviation built a := (Operator.build_operator parse read_pem accept hdfs_jni sftp order (p_storage_url a) (p_opts a)).
Abbreviation mount := (mount_fs parse read_pem accept hdfs_jni sftp order).

(** The reason for each refusal. *)
Definition refusal (e : mount_env) (a : mount_args) (x : mount_error) : Prop :=
  match x with
  | AlreadyMounted => m_mounted e = true
  | OperatorFailed y => built a = Err y
  | UnknownMemCache name => name = p_mem_cache_impl a /\ choose_mem_cache name = None
  | PipeFailed => p_daemon_wait a = true /\ m_pipe_ok e = false
  | SpawnFailed => p_daemon a = true /\ m_spawn_ok e = false
  | AllowOtherRefused => allow_other_refused e a = true
  | MetricsThreadFailed => 0 < p_mem_cache_metrics_interval_secs a /\ m_thread_ok e = false
  | SessionFailed => m_session_ok e = false
  end.

(** A file system that is served has the settings of the arguments. *)
Lemma mount_outcome e a :
  match mount e a with
  | Serves fs => new_fs (m_home e) a = Ok fs /\ m_mounted e = false /\ (exists o, built a = Ok o) /\
      fs_direct_io fs = p_direct_io a /\ fs_cache_mode fs = PathHash.CacheMode_parse (p_vfs_cache_mode a)
  | Refused x => refusal e a x
  | ParentExits => p_daemon a = true /\ m_internal e = false
  end.
Proof using.
  unfold mount_fs. destruct (m_mounted e) eqn:Hm; [done|]. destruct (built a) as [o|x] eqn:Hb; [|done].
  destruct (new_fs (m_home e) a) as [fs|x] eqn:Hf; cycle 1.
  { unfold new_fs in Hf. destruct (choose_mem_cache _) eqn:Hc; [done|]. by injection Hf as <-. }
  repeat (case_test; [try (cbn; bool_props; by auto)|]); cbn; bool_props; auto.
  all: try (destruct (p_daemon a), (m_internal e), (m_spawn_ok e); by cbn in *).
  all: try (destruct (p_daemon_wait a), (m_pipe_ok e); by cbn in *).
  all: try (destruct (m_thread_ok e); by cbn in *).
  destruct (m_session_ok e) eqn:Hs; [|done]. split_and!; [done..|by exists o| |];
    unfold new_fs in Hf; destruct (choose_mem_cache _); simplify_eq; done.
Qed.

End Sessions.

#[local] Existing Instance soft_crc32c.
#[local] Existing Instance stored_lz4.
#[local] Instance L1 : MemCache DashMapCache.DashMapMemCache := DashMapCache.dashmap_MemCache 9.

(** The default flags, a memory backend, and a user who may mount. *)
Definition parse_memory (s : string) : option Operator.Url :=
  if String.eqb s "memory://" then Some (Operator.mk_url "memory" None None "") else None.
Abbreviation mount_memory := (mount_fs parse_memory (fun _ => None) (fun _ _ => true) false false []).
Definition may_mount : mount_env := mk_mount_env false (Some "/root") false true true false None true true.

End Cli.
